(* ===== verification/_CoqProject ===== *)
-Q . S2P
Prelude.v
Conc.v
SpinWait.v
FairTimeout.v
LotTypes.v
BucketQueue.v
BucketRefine.v
HashTable.v
TableLock.v
TableLockInv.v
TableLockProof.v
ParkingLot.v
LotInv.v
RawMutex.v
RawMutexInv.v
RawMutexProof.v
RawRwLock.v
RwLockWord.v
RwLockWake.v
RwLockInv.v
RwLockQueue.v
RwLockRules.v
RwLockProof.v
RwLockExclusive.v
RwLockProgress.v
Once.v
OnceProof.v
WordLock.v
WordLockProof.v
RawCondvar.v
CondvarNotify.v
ThreadParker.v
WordParkers.v
WordParkerProof.v
KeyedEvent.v
KeyedEventProof.v
PthreadParker.v
ParkerTimeouts.v
PthreadParkerProof.v
LockApi.v
LockApiLogic.v
GuardClients.v
MutexApiProof.v
MutexGuards.v
RwLockApiProof.v
RwLockGuards.v
ReentrantMutex.v
RemutexLogic.v
RemutexProof.v
RemutexGuards.v
ProgEquiv.v
ArcApi.v
ArcLogic.v
ArcGuards.v
ArcEquiv.v
CondvarProof.v
CondvarSafety.v
CondvarApi.v
CondvarApiProof.v
CondvarGuards.v
Deadlock.v
DeadlockProof.v
DeadlockReport.v
DeadlockReportProof.v
DeadlockTwice.v
