(* ===== verification/Prelude.v ===== *)
(** * A verification library for parking_lot

    This development models parking_lot, a library of locks for Rust whose
    primitives take one word each and put waiting threads to sleep in a global
    table of queues, and proves that the parts keep what they promise.

    ** The program

    - The crate core/ is the parking lot: a hash table of buckets, each a lock
      (core/src/word_lock.rs), a fairness timer and a queue of the threads that
      are parked on the keys of the bucket (core/src/parking_lot.rs).  [park]
      enqueues the thread and sleeps; the functions [unpark_one], [unpark_all],
      [unpark_filter] and [unpark_requeue] take threads out of a queue, run a
      callback under the bucket lock, and wake them.  How a thread sleeps is a
      matter of the platform (core/src/thread_parker/).
    - The crate in src/ has the raw primitives, one word and a few callbacks
      each: [RawMutex], [RawFairMutex], [RawRwLock], [RawCondvar] and [Once].
    - The crate lock_api/ puts data under a raw lock: types of locks and of
      guards that are generic in the raw lock, which they use by its traits.
    - The public types [Mutex], [RwLock], ... are lock_api's over the raw
      primitives.

    ** How it is modelled

    A function that shares memory with other threads is a program ([Conc]): a
    tree of atomic actions on the state, loops included.  Threads interleave
    one action at a time; a choice resolves the clock and spurious failures of
    weak compare-exchanges.  A component is verified with an invariant of the
    shared state, a ghost state, and a role for each thread; a weakest
    precondition asks every action to keep the invariant, so the theorems hold
    in every reachable configuration of any number of threads.  Code that runs
    under a lock is a function on the heap of nodes, with fuel for its loops,
    and a refinement theorem says that enough fuel gives the specified result.

    ** The files, and what their theorems show

    Foundations:
    - [Prelude]: machine integers with their wrap-around, total maps, lists,
      tactics and hint databases.
    - [Conc]: programs, interleaving, the program logic and its adequacy.

    The parking lot (core/src/parking_lot.rs, spinwait.rs, word_lock.rs):
    - [SpinWait], [FairTimeout], [LotTypes]: the backoff counter, the fairness
      timer and its generator, the types of the interface.
    - [BucketQueue], [BucketRefine]: the loops over the linked queue at the
      level of pointers ([Ptr]) implement operations on lists ([Spec]), and
      terminate with one unit of fuel more than the queue is long.
    - [HashTable]: the table is big enough, every key hashes into it, and
      growing it keeps the order of the threads of each key.
    - [TableLock], [TableLockInv], [TableLockProof]: the protocol around the
      table pointer and the bucket locks, while threads create and replace the
      table: buckets are locks for their keys, the table refines one queue per
      key, no deadlock, no index out of range.  The deadlock detector, which
      takes all locks of a table, is one of the operations.
    - [ParkingLot], [LotInv]: the operations as concurrent programs, the machine
      the primitives run on, and its invariant.  A function on a queue is one
      action there, and the table is any function from keys to buckets: this is
      what the files above justify.
    - [WordLock], [WordLockProof]: mutual exclusion and no lost wake-up of the
      lock of the buckets, at the level of its packed word and its nodes.
    - [ThreadParker], [WordParkers], [WordParkerProof], [PthreadParker],
      [PthreadParkerProof], [ParkerTimeouts]: the contract of thread parkers;
      the parkers of Linux, Redox, WebAssembly, Windows (WaitOnAddress), SGX and
      the one that spins, and the pthread one keep it on any system whose calls
      behave as documented; timeouts are converted exactly, rounded up or
      saturated.
    - [KeyedEvent], [KeyedEventProof]: the parker of old Windows versions, whose
      threads meet in two blocking calls, keeps the contract too; a timeout that
      is too long becomes none, or a date that has nothing to do with it, as
      computed by [ParkerTimeouts].
    - [Deadlock], [DeadlockProof]: the resources threads hold, the wait graph and
      the search for its cycles: what it reports are deadlocks, and which
      deadlocks it finds and which it misses.
    - [DeadlockReport], [DeadlockReportProof], [DeadlockTwice]: the threads of the
      cycles report once each and sleep; whenever a thread is in two cycles, some
      run ends in a panic.

    The raw primitives (src/src/):
    - [RawMutex], [RawMutexInv], [RawMutexProof]: mutual exclusion, no lost wake-up,
      the state table of the source, no panic; with fair handoff, timeouts and
      bumps.  The invariant is that of mutexes and condition variables together.
    - [RawRwLock], [RwLockWord], [RwLockWake], [RwLockInv], [RwLockQueue],
      [RwLockRules], [RwLockProof], [RwLockExclusive], [RwLockProgress]: readers
      and writers exclude each other, the word counts the guards, no wake-up is
      lost and nothing panics, for all operations; the filter that chooses whom
      to wake, and the fast paths, branch by branch.  The locks that threads own
      and what they owe to those that wait ([duty]) are ghost state.
    - [RawCondvar], [CondvarNotify]: what a notification does on each branch.
    - [CondvarProof], [CondvarSafety]: threads that lock, wait and notify in any
      interleaving: mutual exclusion, no lost wake-up, no lost notification.
    - [Once], [OnceProof]: one closure at a time, and none after it is done;
      poisoning; no lost wake-up.

    The locks with data (lock_api/src/):
    - [LockApi]: the guards of [Mutex] and [RwLock], with closures that may
      unwind, on a machine whose accesses to data have a beginning and an end.
    - [LockApiLogic], [GuardClients]: what a raw lock promises is an interface
      ([LockLogic]); from it, every access is backed by a guard.
    - [MutexApiProof], [MutexGuards], [RwLockApiProof], [RwLockGuards]: programs
      of safe code have no data races, drop every guard, and leave nobody asleep
      on a lock that is free; the rules are proved against the interfaces [MutexLogic] and [RwLockLogic], which the
      raw primitives implement.
    - [ReentrantMutex], [RemutexLogic], [RemutexProof], [RemutexGuards]: the
      reentrant mutex, over the interface [MutexLogic]: no data races, guards
      agree with the owner and the count, every mutex is released.
    - [ArcApi], [ArcLogic], [ArcGuards]: the guards that own an [Arc], on a machine
      with the references to each lock: no lock is used after it has been freed.
    - [CondvarApi], [CondvarApiProof], [CondvarGuards]: the condition variable, with
      conditions that may unwind: safe code that waits on mutexes has no data
      races, drops every guard, and leaves nobody asleep, with the raw mutex and
      the raw condition variable below it.
    - [ProgEquiv], [ArcEquiv]: programs up to the laws of the monad; without the
      references, those guards are the guards that borrow their lock.

    ** Bounds and fuel

    [usize] has 64 bits.  The theorems on [RawRwLock] bound the number of threads
    times the number of locks each acquires by 2^58, so that the reader count,
    which has 60 bits, does not overflow: [rwlock_no_panic] shows that the
    [expect]s of the source hold then.  The overflow check itself is in the
    model, and [try_lock_shared_solo] shows when it panics.  Fuel is only used
    for the loops under a bucket lock; the refinement theorems give the fuel
    that is enough.  Times are nanoseconds, a [Z]; the conversions of
    [ParkerTimeouts] are at the width of the types they use.

    ** What is not modelled, and why

    - Memory is sequentially consistent: the [Ordering] arguments are dropped.
    - The hooks of deadlock detection, an optional feature, are empty in the
      models of the primitives that call them; of the detector itself, the lock
      that serializes checks and the backtraces are left out, and its graph is
      that of a table that does not change.
    - The choice between the two Windows parkers, bindings to system calls, and
      the destructors of the pthread parker are glue.
    - Type aliases and constructors (src/src/mutex.rs, rwlock.rs, fair_mutex.rs),
      [Debug], serde, [owning_ref], benchmarks and tests have no behaviour of
      their own.
    - Hardware lock elision is a compare-exchange as far as its result goes. *)


From Stdlib Require Export ZArith Lia.
From stdpp Require Export base tactics numbers functions relations strings list.

#[global] Set Default Goal Selector "!".
Local Open Scope Z_scope.

(** ** Machine integers

    A [w]-bit unsigned integer is a [Z] in [[0, 2^w)].  The operations below
    are the ones the Rust source uses on [u8], [u32], [u64] and [usize], with the
    wrap-around (or the overflow check) written out.  [usize] is 64 bits wide:
    the target is a 64-bit one, as for [hash] in core/src/parking_lot.rs. *)

Declare Scope word_scope.
Delimit Scope word_scope with word.

Definition usize_bits : Z := 64.

Definition wrap (w x : Z) : Z := x mod 2 ^ w.

Definition in_width (w x : Z) : Prop := 0 ≤ x < 2 ^ w.

(** [wrapping_add], [wrapping_sub], [wrapping_mul], [fetch_add], [fetch_sub]. *)
Definition wrapping_add (w x y : Z) : Z := wrap w (x + y).
Definition wrapping_sub (w x y : Z) : Z := wrap w (x - y).
Definition wrapping_mul (w x y : Z) : Z := wrap w (x * y).

(** [checked_add], [checked_sub] and [checked_mul] of an unsigned type. *)
Definition checked (w x : Z) : option Z :=
  if decide (0 ≤ x < 2 ^ w) then Some x else None.
Definition checked_add (w x y : Z) : option Z := checked w (x + y).
Definition checked_sub (w x y : Z) : option Z := checked w (x - y).
Definition checked_mul (w x y : Z) : option Z := checked w (x * y).

(** Checked arithmetic of a signed type of [w] bits. *)
Definition checked_signed (w x : Z) : option Z :=
  if decide (- 2 ^ (w - 1) ≤ x < 2 ^ (w - 1)) then Some x else None.

(** [x as iN] of an unsigned value of the same width: two's complement. *)
Definition as_signed (w x : Z) : Z :=
  let y := wrap w x in if decide (y < 2 ^ (w - 1)) then y else y - 2 ^ w.

(** [x & !m]: clear the bits of [m]. *)
Definition clear_bits (x m : Z) : Z := Z.ldiff x m.

(** [x & m != 0]. *)
Definition has_bits (x m : Z) : bool := negb (Z.land x m =? 0).

Lemma wrap_in_width w x : 0 ≤ w → in_width w (wrap w x).
Proof. intros. apply Z.mod_pos_bound. lia. Qed.

Lemma wrap_small w x : in_width w x → wrap w x = x.
Proof. intros H. by apply Z.mod_small. Qed.

Lemma checked_Some w x y : checked w x = Some y ↔ y = x ∧ 0 ≤ x < 2 ^ w.
Proof. unfold checked. case_decide; naive_solver. Qed.

Lemma checked_None w x : checked w x = None ↔ ¬ (0 ≤ x < 2 ^ w).
Proof. unfold checked. case_decide; naive_solver. Qed.

Lemma has_bits_true x m : has_bits x m = true ↔ Z.land x m ≠ 0.
Proof. unfold has_bits. rewrite negb_true_iff, Z.eqb_neq. done. Qed.

Lemma has_bits_false x m : has_bits x m = false ↔ Z.land x m = 0.
Proof. unfold has_bits. rewrite negb_false_iff, Z.eqb_eq. done. Qed.

Lemma wrap_testbit w x n :
  0 ≤ w → 0 ≤ n → Z.testbit (wrap w x) n = bool_decide (n < w) && Z.testbit x n.
Proof.
  intros Hw Hn. unfold wrap. case_bool_decide as Hnw.
  - by rewrite Z.mod_pow2_bits_low.
  - rewrite Z.mod_pow2_bits_high by lia. done.
Qed.

(** Two words are equal when their bits are. *)
Lemma word_bits_inj x y :
  0 ≤ x → 0 ≤ y → (∀ n, 0 ≤ n → Z.testbit x n = Z.testbit y n) → x = y.
Proof.
  intros Hx Hy H. apply Z.bits_inj. intros n.
  destruct (decide (0 ≤ n)); [by apply H|].
  by rewrite !Z.testbit_neg_r by lia.
Qed.

(** ** Total maps

    Shared state is kept in total functions, updated with stdpp's
    [<[a := b]> f]. *)

Section total_maps.
Context {A B : Type} `{!EqDecision A}.
Implicit Types (f : A → B) (a c : A) (b : B).

Lemma fn_insert_eq f a b : (<[a := b]> f) a = b.
Proof. apply fn_lookup_insert. Qed.

Lemma fn_insert_ne f a c b : a ≠ c → (<[a := b]> f) c = f c.
Proof. apply fn_lookup_insert_ne. Qed.

Lemma fn_insert_case f a c b :
  (<[a := b]> f) c = if decide (a = c) then b else f c.
Proof. done. Qed.

Lemma fn_insert_id f a c : (<[a := f a]> f) c = f c.
Proof. rewrite fn_insert_case. case_decide; congruence. Qed.
End total_maps.

(** Simplify lookups in updated total maps, in the whole context. *)
Ltac fn_simp :=
  repeat match goal with
    | |- context [(<[?a := _]> _) ?a] => rewrite (fn_insert_eq _ a)
    | H : context [(<[?a := _]> _) ?a] |- _ => rewrite (fn_insert_eq _ a) in H
    | Hne : ?a ≠ ?c |- context [(<[?a := _]> _) ?c] =>
        rewrite (fn_insert_ne _ a c) by exact Hne
    | Hne : ?a ≠ ?c, H : context [(<[?a := _]> _) ?c] |- _ =>
        rewrite (fn_insert_ne _ a c) in H by exact Hne
    | Hne : ?c ≠ ?a |- context [(<[?a := _]> _) ?c] =>
        rewrite (fn_insert_ne _ a c) by exact (not_eq_sym Hne)
    | Hne : ?c ≠ ?a, H : context [(<[?a := _]> _) ?c] |- _ =>
        rewrite (fn_insert_ne _ a c) in H by exact (not_eq_sym Hne)
    end.

(** Split on whether two keys coincide, then simplify the lookups. *)
Ltac fn_cases a c :=
  destruct (decide (a = c)) as [?|?]; [subst|]; fn_simp.

(** ** Hint databases

    [lot] holds the facts that automate the proofs about the parking lot and
    its clients; [word] the facts on machine integers. *)

Create HintDb lot.
Create HintDb word.
#[export] Hint Resolve wrap_in_width wrap_small : word.

(** ** Lists *)

Fixpoint remove_first {A} `{EqDecision A} (x : A) (l : list A) : list A :=
  match l with
  | [] => []
  | y :: l => if decide (y = x) then l else y :: remove_first x l
  end.

Lemma remove_first_perm {A} `{EqDecision A} (x : A) l : x ∈ l → l ≡ₚ x :: remove_first x l.
Proof.
  induction l as [|y l IH]; [by intros ?%not_elem_of_nil|]. cbn.
  destruct (decide (y = x)) as [->|Hne]; [done|].
  intros [->|Hx]%elem_of_cons; [done|]. rewrite (IH Hx) at 1. apply Permutation_swap.
Qed.

Lemma remove_first_ne {A} `{EqDecision A} (x y : A) l : y ≠ x → y ∈ remove_first x l ↔ y ∈ l.
Proof.
  intros Hy. destruct (decide (x ∈ l)) as [Hx|Hx].
  - rewrite (remove_first_perm x l Hx) at 2. rewrite elem_of_cons. naive_solver.
  - induction l as [|z l IH]; [done|]. apply not_elem_of_cons in Hx as [Hz Hx]. cbn.
    rewrite decide_False by done. by rewrite !elem_of_cons, (IH Hx).
Qed.

Lemma remove_first_NoDup {A} `{EqDecision A} (x : A) l : NoDup l → NoDup (remove_first x l) ∧ x ∉ remove_first x l.
Proof.
  intros Hl. destruct (decide (x ∈ l)) as [Hx|Hx].
  - rewrite (remove_first_perm x l Hx) in Hl. by apply NoDup_cons in Hl as [??].
  - assert (E : remove_first x l = l); [|by rewrite E].
    clear Hl. induction l as [|z l IH]; [done|]. apply not_elem_of_cons in Hx as [Hz Hx]. cbn.
    rewrite decide_False by done. by rewrite (IH Hx).
Qed.

(** How often an element occurs. *)
Definition times {A} `{EqDecision A} (x : A) (l : list A) : nat := length (filter (λ y, y = x) l).
#[global] Arguments times {A _} x l : simpl never.

Lemma times_cons {A} `{EqDecision A} (x y : A) l :
  times x (y :: l) = if decide (y = x) then S (times x l) else times x l.
Proof. unfold times. rewrite filter_cons. by case_decide. Qed.

Lemma times_perm {A} `{EqDecision A} (x : A) l l' : l ≡ₚ l' → times x l = times x l'.
Proof. intros E. unfold times. by rewrite E. Qed.

Lemma times_remove_first {A} `{EqDecision A} (x y : A) l :
  times x (remove_first y l) = if decide (y = x) then pred (times x l) else times x l.
Proof.
  induction l as [|z l IH]; [by case_decide|]. cbn [remove_first]. destruct (decide (z = y)) as [->|Hz].
  - rewrite times_cons. by case_decide.
  - rewrite !times_cons, IH. repeat case_decide; congruence.
Qed.

Lemma times_all {A} `{EqDecision A} (x : A) l : (∀ y, y ∈ l → y = x) → times x l = length l.
Proof.
  induction l as [|y l IH]; [done|]. intros H. rewrite times_cons, decide_True by (apply H; by left).
  cbn. rewrite IH; [done|]. intros z Hz. apply H. by right.
Qed.

Lemma times_pos {A} `{EqDecision A} (x : A) l : x ∈ l ↔ (0 < times x l)%nat.
Proof.
  induction l as [|y l IH]; [rewrite elem_of_nil; unfold times; cbn; lia|].
  rewrite elem_of_cons, times_cons, IH. case_decide; naive_solver lia.
Qed.

Lemma delete_insert_same {A} (l : list A) i x : delete i (<[i := x]> l) = delete i l.
Proof. revert i. induction l as [|y l IH]; intros [|i]; cbn; [done..|]. by rewrite IH. Qed.
