(* ===== verification/Conc.v ===== *)
(** * Concurrent programs

    The model of a Rust function is a program: a tree of atomic actions on
    the shared state, with the loops of the source as [Iter].  This file
    holds the programs, their interleaving semantics (a pool of threads, one
    atomic action of one thread at a time), and the program logic the
    components are verified with: a global invariant over the shared state, a
    shared ghost value and one private ghost role per thread, and a weakest
    precondition that asks every action to preserve it.

    Memory is sequentially consistent: the [Ordering] arguments of the source
    are not modelled. *)

From S2P Require Import Prelude.

(** Threads are numbered.  A [choice] resolves the nondeterminism of one
    step: the time read from the clock, or whether a weak compare-exchange
    fails spuriously. *)
Abbreviation tid := nat (only parsing).
Abbreviation choice := Z (only parsing).

Declare Scope prog_scope.
Delimit Scope prog_scope with prog.

Section programs.
Context {act : Type} {resp : act → Type}.

Inductive prog (A : Type) : Type :=
| Ret (a : A)
| Panic (msg : string)
| Act (a : act) (k : resp a → prog A)
| Bind {X : Type} (p : prog X) (k : X → prog A)
| Iter {X : Type} (body : X → prog (X + A)) (x : X).

Arguments Ret {A} a.
Arguments Panic {A} msg.
Arguments Act {A} a k.
Arguments Bind {A X} p k.
Arguments Iter {A X} body x.

(** What [Iter body x] does with the result of one run of [body]. *)
Definition iter_next {A X} (body : X → prog (X + A)) (r : X + A) : prog A :=
  match r with inl x' => Iter body x' | inr a => Ret a end.

Context {state : Type}.
Context (exec : tid → choice → ∀ a : act, state → option (state * resp a)).

(** One step of thread [t].  [None] means that the thread is done, has
    panicked, or is blocked on an action that is not enabled. *)
Fixpoint step1 {A} (t : tid) (c : choice) (p : prog A) (s : state)
    : option (state * prog A) :=
  match p with
  | Ret _ | Panic _ => None
  | Act a k =>
      match exec t c a s with
      | Some (s', v) => Some (s', k v)
      | None => None
      end
  | Bind p k =>
      match p with
      | Ret a => Some (s, k a)
      | Panic m => Some (s, Panic m)
      | _ =>
          match step1 t c p s with
          | Some (s', p') => Some (s', Bind p' k)
          | None => None
          end
      end
  | Iter body x => Some (s, Bind (body x) (iter_next body))
  end.

Lemma step1_bind {A X} t c (p : prog X) (k : X → prog A) s s' q :
  step1 t c (Bind p k) s = Some (s', q) →
  (∃ a, p = Ret a ∧ s' = s ∧ q = k a) ∨ (∃ m, p = Panic m ∧ s' = s ∧ q = Panic m) ∨
  ∃ p', step1 t c p s = Some (s', p') ∧ q = Bind p' k.
Proof.
  intros Hst. destruct p as [a|m|x k'|Y p k'|Y body x]; cbn [step1] in Hst.
  - injection Hst as <- <-. left. by exists a.
  - injection Hst as <- <-. right; left. by exists m.
  - right; right. cbn [step1]. destruct (exec t c x s) as [[s1 v]|]; [|done]. injection Hst as <- <-. by eexists.
  - right; right. destruct (step1 t c (Bind p k') s) as [[s1 p1]|] eqn:E; cbn [step1] in E; rewrite E in Hst; [|done].
    injection Hst as <- <-. exists p1. by rewrite <- E.
  - right; right. injection Hst as <- <-. by eexists.
Qed.

(** A configuration: the shared state and the program each thread has left
    to run. *)
Abbreviation pool := (tid → prog unit).

Inductive cstep : state * pool → state * pool → Prop :=
| cstep_thread t c s s' p' (ps : pool) :
    step1 t c (ps t) s = Some (s', p') →
    cstep (s, ps) (s', <[t := p']> ps).

Definition reachable (s0 : state) (ps0 : pool) (s : state) (ps : pool) : Prop :=
  rtc cstep (s0, ps0) (s, ps).

(** An explicit schedule, for evaluation: each entry is the thread to run
    and the choice to give it. *)
Fixpoint run (sched : list (tid * choice)) (s : state) (ps : pool)
    : option (state * pool) :=
  match sched with
  | [] => Some (s, ps)
  | (t, c) :: sched =>
      match step1 t c (ps t) s with
      | Some (s', p') => run sched s' (<[t := p']> ps)
      | None => None
      end
  end.

Lemma run_reachable sched s ps s' ps' :
  run sched s ps = Some (s', ps') → reachable s ps s' ps'.
Proof.
  revert s ps. induction sched as [|[t c] sched IH]; intros s ps H; simpl in H.
  - injection H as -> ->. apply rtc_refl.
  - destruct (step1 t c (ps t) s) as [[s1 p1]|] eqn:E; [|done].
    eapply rtc_l; [by apply (cstep_thread t c)|]. by apply IH.
Qed.

(** A single thread run on its own, with the same choice at each step. *)
Definition solo (t : tid) (c : choice) {A} (x y : prog A * state) : Prop :=
  rtc (λ x y, step1 t c x.1 x.2 = Some (y.2, y.1)) x y.

(** It returns [a], or panics. *)
Definition returns t c {A} (p : prog A) (s s' : state) (a : A) : Prop :=
  solo t c (p, s) (Ret a, s').
Definition panics t c {A} (p : prog A) (s : state) (m : string) : Prop :=
  ∃ s', solo t c (p, s) (Panic m, s').

Lemma solo_bind_inner t c {A X} (p p' : prog X) (k : X → prog A) s s' :
  solo t c (p, s) (p', s') → solo t c (Bind p k, s) (Bind p' k, s').
Proof.
  unfold solo. intros H. remember (p, s) as x. remember (p', s') as y.
  revert p s Heqx. induction H as [|x [q s1] z Hst _ IH]; intros p s ->; simplify_eq.
  { apply rtc_refl. }
  eapply rtc_l; [|by apply IH]. cbn in *.
  destruct p; simpl in *; try done; first [by rewrite Hst|by simplify_eq].
Qed.

Lemma returns_ret t c {A} (a : A) s : returns t c (Ret a) s s a.
Proof. apply rtc_refl. Qed.

Lemma returns_act t c {A} a (k : resp a → prog A) s s1 v s' r :
  exec t c a s = Some (s1, v) → returns t c (k v) s1 s' r → returns t c (Act a k) s s' r.
Proof. intros He Hk. eapply rtc_l; [|exact Hk]. cbn. by rewrite He. Qed.

Lemma returns_bind t c {A X} (p : prog X) (k : X → prog A) s s1 x s' r :
  returns t c p s s1 x → returns t c (k x) s1 s' r → returns t c (Bind p k) s s' r.
Proof.
  intros Hp Hk. unfold returns, solo; etrans; [by apply solo_bind_inner|].
  by eapply rtc_l; [|exact Hk].
Qed.

Lemma returns_iter t c {A X} (body : X → prog (X + A)) x s s1 res s' r :
  returns t c (body x) s s1 res → returns t c (iter_next body res) s1 s' r →
  returns t c (Iter body x) s s' r.
Proof.
  intros Hb Hk. apply (rtc_l _ _ (Bind (body x) (iter_next body), s)); [done|].
  by eapply returns_bind.
Qed.

Lemma panics_bind t c {A X} (p : prog X) (k : X → prog A) s m :
  panics t c p s m → panics t c (Bind p k) s m.
Proof.
  intros [s' Hp]. exists s'. eapply rtc_r; [by apply solo_bind_inner|]. done.
Qed.

Lemma panics_after t c {A X} (p : prog X) (k : X → prog A) s s1 x m :
  returns t c p s s1 x → panics t c (k x) s1 m → panics t c (Bind p k) s m.
Proof.
  intros Hp [s' Hk]. exists s'. unfold returns, solo; etrans; [by apply solo_bind_inner|].
  by eapply rtc_l; [|exact Hk].
Qed.

Lemma panics_iter t c {A X} (body : X → prog (X + A)) x s m :
  panics t c (body x) s m → panics t c (Iter body x) s m.
Proof.
  intros Hb. destruct (panics_bind t c _ (iter_next body) _ _ Hb) as [s' H].
  exists s'. by eapply rtc_l; [|exact H].
Qed.

(** ** The program logic *)

Section logic.
Context {ghost role : Type}.
Context (Inv : state → ghost → (tid → role) → Prop).
Context (panic_ok : string → role → Prop).
(* in this role and state the thread may be unable to go on *)
Context (blocked : tid → role → state → Prop).

Fixpoint wp (t : tid) {A} (p : prog A) (r : role) (Q : A → role → Prop) : Prop :=
  match p with
  | Ret a => Q a r
  | Panic m => panic_ok m r
  | Act a k =>
      (∀ s g ρ, ρ t = r → Inv s g ρ →
         (∃ c, is_Some (exec t c a s)) ∨ blocked t r s) ∧
      ∀ s g ρ c s' v,
        ρ t = r → Inv s g ρ → exec t c a s = Some (s', v) →
        ∃ g' r', Inv s' g' (<[t := r']> ρ) ∧ wp t (k v) r' Q
  | Bind p k => wp t p r (λ a r', wp t (k a) r' Q)
  | Iter body x =>
      ∃ J, J x r ∧
        ∀ x' r', J x' r' →
          wp t (body x') r'
             (λ res r'', match res with
                         | inl x'' => J x'' r''
                         | inr a => Q a r''
                         end)
  end.

Lemma wp_mono t {A} (p : prog A) r (Q Q' : A → role → Prop) :
  (∀ a r, Q a r → Q' a r) → wp t p r Q → wp t p r Q'.
Proof.
  revert r Q Q'.
  induction p as [A a|A m|A a k IH|A X p IHp k IHk|A X body IH x];
    intros r Q Q' HQ Hwp; simpl in *; auto.
  - destruct Hwp as [Hpr Hwp]. split; [done|]. intros s g ρ c s' v Hr HI Hex.
    destruct (Hwp s g ρ c s' v Hr HI Hex) as (g' & r' & HI' & Hk). eauto.
  - eapply IHp; [|exact Hwp]. intros a r' Hk; simpl. eapply IHk; eauto.
  - destruct Hwp as (J & HJ & Hbody). exists J. split; [done|].
    intros x' r' HJ'. eapply IH; [|by apply Hbody].
    intros [x''|a] r''; simpl; auto.
Qed.

Lemma wp_bind t {A X} (p : prog X) (k : X → prog A) r Q :
  wp t p r (λ a r', wp t (k a) r' Q) → wp t (Bind p k) r Q.
Proof. done. Qed.

Lemma wp_bind_inv t {A X} (p : prog X) (k : X → prog A) r Q :
  wp t (Bind p k) r Q → wp t p r (λ a r', wp t (k a) r' Q).
Proof. done. Qed.

Lemma wp_ret t {A} (a : A) r (Q : A → role → Prop) : Q a r → wp t (Ret a) r Q.
Proof. done. Qed.

Lemma wp_ret_inv t {A} (a : A) r (Q : A → role → Prop) : wp t (Ret a) r Q → Q a r.
Proof. done. Qed.

Lemma wp_panic t {A} m r (Q : A → role → Prop) : panic_ok m r → wp t (Panic m) r Q.
Proof. done. Qed.

Lemma wp_act t {A} a (k : resp a → prog A) r Q :
  (∀ s g ρ, ρ t = r → Inv s g ρ →
     (∃ c, is_Some (exec t c a s)) ∨ blocked t r s) →
  (∀ s g ρ c s' v,
     ρ t = r → Inv s g ρ → exec t c a s = Some (s', v) →
     ∃ g' r', Inv s' g' (<[t := r']> ρ) ∧ wp t (k v) r' Q) →
  wp t (Act a k) r Q.
Proof. done. Qed.

(** The loop rule: an invariant on the loop variables and the role. *)
Lemma wp_iter t {A X} (J : X → role → Prop) (body : X → prog (X + A)) x r Q :
  J x r →
  (∀ x r, J x r →
     wp t (body x) r (λ res r', match res with
                                | inl x' => J x' r'
                                | inr a => Q a r' end)) →
  wp t (Iter body x) r Q.
Proof. intros HJ H. exists J. auto. Qed.

(** One step of a verified thread preserves the invariant, changes no
    other role, and leaves a verified thread. *)
Lemma wp_step t {A} (p : prog A) s g ρ c s' p' Q :
  wp t p (ρ t) Q → Inv s g ρ → step1 t c p s = Some (s', p') →
  ∃ g' ρ', Inv s' g' ρ' ∧ (∀ u, u ≠ t → ρ' u = ρ u) ∧ wp t p' (ρ' t) Q.
Proof.
  intros Hwp HI. revert Q s' p' Hwp.
  induction p as [A a|A m|A a k IH|A X p IHp k IHk|A X body IH x];
    intros Q s' p' Hwp Hst; simpl in Hst; try done.
  - destruct (exec t c a s) as [[s1 v]|] eqn:E; [|done].
    injection Hst as <- <-.
    destruct (proj2 Hwp s g ρ c s1 v eq_refl HI E) as (g' & r' & HI' & Hk).
    exists g', (<[t := r']> ρ). split; [done|]. split.
    + intros u Hu. by apply fn_insert_ne.
    + by rewrite fn_insert_eq.
  - assert (Hrec : ∀ s1 p1, step1 t c p s = Some (s1, p1) →
      ∃ g' ρ', Inv s1 g' ρ' ∧ (∀ u, u ≠ t → ρ' u = ρ u) ∧
               wp t (Bind p1 k) (ρ' t) Q).
    { intros s1 p1 E1. by apply (IHp (λ a r', wp t (k a) r' Q)). }
    destruct p as [a|m|a k'|Y q k'|Y body x]; simplify_eq/=.
    + by exists g, ρ.
    + by exists g, ρ.
    + destruct (exec t c a s) as [[s1 v]|]; simplify_eq. by apply Hrec.
    + destruct (step1 t c (Bind q k') s) as [[s1 p1]|] eqn:E1; simpl in E1;
        rewrite ?E1 in Hst; simplify_eq. by apply Hrec.
    + by apply (Hrec _ _ eq_refl).
  - simplify_eq. destruct Hwp as (J & HJ & Hbody). exists g, ρ.
    split; [done|]. split; [done|]. simpl.
    eapply wp_mono; [|by apply Hbody]. intros [x'|a] r'; simpl; [|done].
    intros HJ'. by exists J.
Qed.

(** A verified thread is done, can go on, or is blocked as its role
    allows. *)
Lemma wp_progress t {A} (p : prog A) s g ρ Q :
  wp t p (ρ t) Q → Inv s g ρ →
  (∃ a, p = Ret a ∧ Q a (ρ t)) ∨ (∃ m, p = Panic m ∧ panic_ok m (ρ t)) ∨
  (∃ c, is_Some (step1 t c p s)) ∨ blocked t (ρ t) s.
Proof.
  intros Hwp HI. revert Q Hwp.
  induction p as [A a|A m|A a k IH|A X p IHp k IHk|A X body IH x]; intros Q Hwp; simpl.
  - left. by exists a.
  - right; left. by exists m.
  - right; right. destruct (proj1 Hwp s g ρ eq_refl HI) as [[c [[s' v] E]]|]; [left|by right].
    exists c. rewrite E. by eexists.
  - right; right. specialize (IHp _ Hwp).
    destruct p as [a|m|a k'|Y q k'|Y body x]; [left; exists 0%Z; by eexists..| | |].
    + destruct IHp as [(? & ? & _)|[(? & ? & _)|[[c [[s' p'] E]]|]]]; [done..| |by right].
      left. exists c. simpl in E |- *. destruct (exec t c a s) as [[s1 v]|]; [by eexists|done].
    + destruct IHp as [(? & ? & _)|[(? & ? & _)|[[c [[s' p'] E]]|]]]; [done..| |by right].
      left. exists c. simpl in E |- *. rewrite E. by eexists.
    + left. exists 0%Z. by eexists.
  - right; right; left. exists 0%Z. by eexists.
Qed.

(** A configuration all of whose threads are verified; [done_ok] is
    what holds of the role of a thread that has finished. *)
Context (done_ok : role → Prop).

Definition verified (c : state * pool) : Prop :=
  ∃ g ρ, Inv c.1 g ρ ∧ ∀ t, wp t (c.2 t) (ρ t) (λ _ r, done_ok r).

Lemma verified_step c c' : cstep c c' → verified c → verified c'.
Proof.
  intros [t ch s s' p' ps Hst] (g & ρ & HI & Hwp); simpl in *.
  destruct (wp_step t _ _ _ _ _ _ _ _ (Hwp t) HI Hst)
    as (g' & ρ' & HI' & Hoth & Hwp').
  exists g', ρ'. split; [done|]. intros u; simpl.
  fn_cases t u; [done|]. rewrite Hoth by done. apply Hwp.
Qed.

(** Adequacy: if the initial configuration satisfies the invariant and
    every thread is verified, the same holds of every reachable one. *)
Theorem adequacy s0 ps0 s ps :
  verified (s0, ps0) → reachable s0 ps0 s ps → verified (s, ps).
Proof.
  intros H0 Hr. unfold reachable in Hr.
  induction Hr; eauto using verified_step.
Qed.

(** No verified thread panics, unless its message is allowed. *)
Lemma wp_no_panic t {A} m r (Q : A → role → Prop) :
  wp t (Panic m) r Q → panic_ok m r.
Proof. done. Qed.
End logic.

(** More panics allowed. *)
Lemma wp_panic_mono {ghost role} (Inv : state → ghost → (tid → role) → Prop) (P P' : string → role → Prop) blocked
    t {A} (p : prog A) r Q :
  (∀ m r, P m r → P' m r) → wp Inv P blocked t p r Q → wp Inv P' blocked t p r Q.
Proof.
  intros HP. revert r Q.
  induction p as [A a|A m|A a k IH|A X p IHp k IHk|A X body IH x]; intros r Q Hwp; simpl in *; auto.
  - destruct Hwp as [Hpr Hwp]. split; [done|]. intros s g ρ c s' v Hr HI Hex.
    destruct (Hwp s g ρ c s' v Hr HI Hex) as (g' & r' & HI' & Hk). eauto.
  - eapply wp_mono; [|by apply IHp]. intros a r' Hk. by apply IHk.
  - destruct Hwp as (J & HJ & Hbody). exists J. split; [done|]. intros x' r' HJ'. by apply IH, Hbody.
Qed.
End programs.

Arguments Ret {act resp A} a.
Arguments Panic {act resp A} msg.
Arguments Act {act resp A} a k.
Arguments Bind {act resp A X} p k.
Arguments Iter {act resp A X} body x.
Arguments prog : clear implicits.

Notation "x <- p ;; q" := (Bind p (fun x => q))
  (at level 100, p at next level, q at level 200, right associativity) : prog_scope.
Notation "p ;; q" := (Bind p (fun _ => q))
  (at level 100, q at level 200, right associativity) : prog_scope.

(** Run the next steps of a program that runs alone. *)
Ltac solo_step :=
  lazymatch goal with
  | |- returns _ _ _ (Ret _) _ _ _ => apply returns_ret
  | |- returns _ _ _ (Act _ _) _ _ _ => eapply returns_act; [reflexivity|]
  | |- returns _ _ _ (Bind _ _) _ _ _ => eapply returns_bind
  | |- returns _ _ _ (Iter _ _) _ _ _ => eapply returns_iter
  | |- returns _ _ _ (iter_next _ (inl ?x)) _ _ _ => unfold iter_next
  | |- returns _ _ _ (iter_next _ (inr ?x)) _ _ _ => unfold iter_next
  end; cbn beta iota zeta delta [fst snd].
Ltac solo := repeat solo_step.

#[global] Opaque wp.

(** Reach the next action of a program. *)
Ltac wp_pure :=
  cbn beta iota zeta delta [fst snd negb andb];
  repeat (lazymatch goal with
          | |- wp _ _ _ _ _ (Ret _) _ _ => apply wp_ret
          | |- wp _ _ _ _ _ (Bind _ _) _ _ => apply wp_bind
          end; cbn beta iota zeta delta [fst snd negb andb]).
