(* ===== verification/SpinWait.v ===== *)
(** * SpinWait (core/src/spinwait.rs)

    The exponential backoff counter of the spin loops.  What a call to
    [spin] wastes is returned as a [backoff]: a number of [spin_loop]
    iterations, or a yield to the operating system. *)


From S2P Require Import Prelude.
Local Open Scope Z_scope.

Module SpinWait.
Record t := Mk { counter : Z }.

(** What the processor does while the thread waits. *)
Inductive backoff :=
| CpuRelax (iterations : Z)
| ThreadYield.

(** [1 << n] of a [u32]. *)
Definition one_shl (n : Z) : Z := wrap 32 (Z.shiftl 1 n).

Definition new : t := Mk 0.

Definition reset (_ : t) : t := Mk 0.

(** [None] is the early [return false]: nothing is wasted. *)
Definition spin (w : t) : bool * option backoff * t :=
  if 10 <=? counter w then (false, None, w)
  else
    let c := counter w + 1 in
    let b := if c <=? 3 then CpuRelax (one_shl c) else ThreadYield in
    (true, Some b, Mk c).

Definition spin_no_yield (w : t) : backoff * t :=
  let c := counter w + 1 in
  let c := if 10 <? c then 10 else c in
  (CpuRelax (one_shl c), Mk c).

(** The counter never leaves [[0, 10]], so no addition or shift on it can
    overflow. *)
Definition wf (w : t) : Prop := 0 ≤ counter w ≤ 10.

Lemma new_wf : wf new.
Proof. unfold wf; simpl; lia. Qed.

Lemma reset_wf w : wf (reset w).
Proof. apply new_wf. Qed.

Lemma spin_wf w : wf w → wf (spin w).2.
Proof.
  unfold wf, spin. intros H. destruct (Z.leb_spec 10 (counter w)); simpl; lia.
Qed.

Lemma spin_no_yield_wf w : wf w → wf (spin_no_yield w).2.
Proof.
  unfold wf, spin_no_yield. intros H; simpl.
  destruct (Z.ltb_spec 10 (counter w + 1)); simpl; lia.
Qed.

#[export] Hint Resolve new_wf reset_wf spin_wf spin_no_yield_wf : lot.

(** [n] calls of [spin] in a row: the answers, oldest first. *)
Fixpoint spins (n : nat) (w : t) : list bool * t :=
  match n with
  | O => ([], w)
  | S n =>
      let '(b, _, w) := spin w in
      let '(bs, w) := spins n w in (b :: bs, w)
  end.

Lemma spins_from n w :
  wf w →
  spins n w =
    (replicate (n `min` Z.to_nat (10 - counter w)) true ++
     replicate (n - Z.to_nat (10 - counter w)) false,
     Mk (Z.min 10 (counter w + Z.of_nat n))).
Proof.
  revert w. induction n as [|n IH]; intros [c] Hw; unfold wf in Hw; simpl in Hw.
  - simpl. do 2 f_equal. lia.
  - simpl. unfold spin; simpl. destruct (Z.leb_spec 10 c).
    + rewrite IH by (unfold wf; simpl; lia). simpl.
      replace (10 - c) with 0 by lia. simpl.
      rewrite Nat.min_0_r, Nat.sub_0_r. simpl. do 2 f_equal. lia.
    + rewrite IH by (unfold wf; simpl; lia). simpl.
      replace (Z.to_nat (10 - c)) with (S (Z.to_nat (10 - (c + 1)))) by lia.
      simpl. do 2 f_equal. lia.
Qed.

(** A fresh counter says "keep spinning" exactly ten times, and from then
    on says "park", until it is reset. *)
Theorem spin_ten_times n :
  (spins n new).1 = replicate (n `min` 10) true ++ replicate (n - 10) false.
Proof. rewrite spins_from by apply new_wf. done. Qed.
End SpinWait.
