(* ===== verification/FairTimeout.v ===== *)
(** * FairTimeout (core/src/parking_lot.rs)

    Each bucket decides with a timeout, renewed from a xorshift generator,
    when an unlock must be fair.  Instants are nanoseconds since an arbitrary
    origin; [should_timeout] takes the time it reads as an argument. *)


From S2P Require Import Prelude.
Local Open Scope Z_scope.

Module FairTimeout.
Record t := Mk { timeout : Z; seed : Z }.

Definition new (timeout seed : Z) : t := Mk timeout seed.

(** [self.seed ^= self.seed << k], [self.seed ^= self.seed >> k]. *)
Definition xor_shl (k x : Z) : Z := Z.lxor x (wrap 32 (Z.shiftl x k)).
Definition xor_shr (k x : Z) : Z := Z.lxor x (Z.shiftr x k).

Definition gen_u32 (f : t) : Z * t :=
  let seed := xor_shl 13 (seed f) in
  let seed := xor_shr 17 seed in
  let seed := xor_shl 5 seed in
  (seed, Mk (timeout f) seed).

Definition should_timeout (now : Z) (f : t) : bool * t :=
  if timeout f <? now then
    let '(r, f) := gen_u32 f in
    let nanos := r mod 1000000 in
    (true, Mk (now + nanos) (seed f))
  else (false, f).

(** ** The generator *)

Definition seed_ok (x : Z) : Prop := 0 < x < 2 ^ 32.

Lemma xor_shl_bit k x n :
  0 ≤ k → 0 ≤ n →
  Z.testbit (xor_shl k x) n =
    xorb (Z.testbit x n) (bool_decide (n < 32) && Z.testbit x (n - k)).
Proof.
  intros Hk Hn. unfold xor_shl. rewrite Z.lxor_spec, wrap_testbit by lia.
  by rewrite Z.shiftl_spec by lia.
Qed.

Lemma xor_shr_bit k x n :
  0 ≤ k → 0 ≤ n →
  Z.testbit (xor_shr k x) n = xorb (Z.testbit x n) (Z.testbit x (n + k)).
Proof.
  intros Hk Hn. unfold xor_shr. rewrite Z.lxor_spec. by rewrite Z.shiftr_spec by lia.
Qed.

(** A non-negative number whose bits above [w] are all zero is a [w]-bit
    word. *)
Lemma bits_bound w x :
  0 ≤ w → 0 ≤ x → (∀ n, w ≤ n → Z.testbit x n = false) → x < 2 ^ w.
Proof.
  intros Hw Hx H. destruct (Z.lt_ge_cases x (2 ^ w)) as [|Hge]; [done|].
  assert (Hpos : 0 < x) by lia. pose proof (Z.bit_log2 x Hpos) as Hb.
  rewrite H in Hb by (apply Z.log2_le_pow2; lia). done.
Qed.

Lemma high_bits_zero w x n :
  0 ≤ x < 2 ^ w → w ≤ n → Z.testbit x n = false.
Proof.
  intros Hx Hn. destruct (decide (x = 0)) as [->|]; [apply Z.bits_0|].
  apply Z.bits_above_log2; [lia|].
  destruct (decide (0 ≤ w)).
  - assert (Z.log2 x < w) by (apply Z.log2_lt_pow2; lia). lia.
  - rewrite Z.pow_neg_r in Hx by lia. lia.
Qed.

Lemma all_bits_zero x : 0 ≤ x → (∀ n, 0 ≤ n → Z.testbit x n = false) → x = 0.
Proof.
  intros Hx H. apply word_bits_inj; [done|lia|]. intros n Hn.
  by rewrite H, Z.bits_0.
Qed.

(** A shift step maps non-zero words to non-zero words. *)
Lemma xor_shl_ok k x : 0 < k → seed_ok x → seed_ok (xor_shl k x).
Proof.
  unfold seed_ok. intros Hk Hx.
  assert (Hw : in_width 32 (wrap 32 (Z.shiftl x k))) by (apply wrap_in_width; lia).
  unfold in_width in Hw.
  assert (Hnn : 0 ≤ xor_shl k x) by (apply Z.lxor_nonneg; lia).
  assert (Hlt : xor_shl k x < 2 ^ 32).
  { apply bits_bound; [lia|done|]. intros n Hn.
    rewrite xor_shl_bit, (high_bits_zero 32 x n), bool_decide_false by lia. done. }
  split; [|done]. destruct (decide (xor_shl k x = 0)) as [Hz|]; [exfalso|lia].
  assert (Hall : ∀ n, 0 ≤ n → Z.testbit x n = false).
  { apply Zlt_0_ind. intros n IH Hn.
    pose proof (xor_shl_bit k x n ltac:(lia) Hn) as Hb.
    rewrite Hz, Z.bits_0 in Hb. destruct (Z.lt_ge_cases n k).
    - rewrite (Z.testbit_neg_r x (n - k)) in Hb by lia.
      by rewrite andb_false_r, xorb_false_r in Hb.
    - rewrite (IH (n - k)) in Hb by lia.
      by rewrite andb_false_r, xorb_false_r in Hb. }
  apply all_bits_zero in Hall; lia.
Qed.

Lemma xor_shr_ok k x : 0 < k → seed_ok x → seed_ok (xor_shr k x).
Proof.
  unfold seed_ok. intros Hk Hx.
  assert (Hs : 0 ≤ Z.shiftr x k) by (apply Z.shiftr_nonneg; lia).
  assert (Hnn : 0 ≤ xor_shr k x) by (apply Z.lxor_nonneg; lia).
  assert (Hlt : xor_shr k x < 2 ^ 32).
  { apply bits_bound; [lia|done|]. intros n Hn.
    by rewrite xor_shr_bit, !(high_bits_zero 32) by lia. }
  split; [|done]. destruct (decide (xor_shr k x = 0)) as [Hz|]; [exfalso|lia].
  assert (Hall : ∀ m n, 0 ≤ m → 32 - m ≤ n → 0 ≤ n → Z.testbit x n = false).
  { intros m n Hm. revert n. pattern m. apply natlike_ind; [| |done].
    - intros n ? ?. by apply (high_bits_zero 32); lia.
    - intros j Hj IH n Hn ?. pose proof (xor_shr_bit k x n ltac:(lia) ltac:(lia)) as Hb.
      rewrite Hz, Z.bits_0, (IH (n + k)) in Hb by lia. by rewrite xorb_false_r in Hb. }
  assert (x = 0); [|lia]. apply all_bits_zero; [lia|]. intros n Hn.
  apply (Hall 32); lia.
Qed.

#[export] Hint Resolve xor_shl_ok xor_shr_ok : word.

Lemma gen_u32_ok f : seed_ok (seed f) → seed_ok (gen_u32 f).1 ∧ seed_ok (seed (gen_u32 f).2).
Proof.
  intros H. assert (seed_ok (xor_shl 5 (xor_shr 17 (xor_shl 13 (seed f))))); [|done].
  repeat (apply xor_shl_ok || apply xor_shr_ok); done.
Qed.

(** The generator never gets stuck: from a non-zero seed, every seed it
    ever has is a non-zero [u32]. *)
Theorem should_timeout_seed now f :
  seed_ok (seed f) → seed_ok (seed (should_timeout now f).2).
Proof.
  intros H. unfold should_timeout. destruct (timeout f <? now); [|done].
  pose proof (gen_u32_ok f H) as [_ Hs]. by destruct (gen_u32 f) as [r f'].
Qed.

(** A fair unlock is forced exactly when the deadline has passed, and then
    the next deadline is less than one millisecond away; otherwise nothing
    changes. *)
Theorem should_timeout_spec now f :
  let '(b, f') := should_timeout now f in
  b = bool_decide (timeout f < now) ∧
  if b then now ≤ timeout f' < now + 1000000 else f' = f.
Proof.
  unfold should_timeout. destruct (Z.ltb_spec (timeout f) now).
  - destruct (gen_u32 f) as [r f']. rewrite bool_decide_true by done.
    split; [done|]. simpl. pose proof (Z.mod_pos_bound r 1000000). lia.
  - by rewrite bool_decide_false by lia.
Qed.
End FairTimeout.
