(* ===== verification/LotTypes.v ===== *)
(** * The types of the parking lot's interface (core/src/parking_lot.rs)

    Results and operations passed between the parking lot and the
    primitives, and the tokens they exchange. *)


From S2P Require Import Prelude.
Local Open Scope Z_scope.

(** [UnparkToken(usize)] and [ParkToken(usize)]. *)
Abbreviation UnparkToken := Z (only parsing).
Abbreviation ParkToken := Z (only parsing).

Definition DEFAULT_UNPARK_TOKEN : UnparkToken := 0.
Definition DEFAULT_PARK_TOKEN : ParkToken := 0.

Inductive ParkResult :=
| Unparked (token : UnparkToken)
| Invalid
| TimedOut.

#[export] Instance ParkResult_eq_dec : EqDecision ParkResult.
Proof. solve_decision. Defined.

Definition is_unparked (r : ParkResult) : bool :=
  match r with Unparked _ => true | _ => false end.

Record UnparkResult := MkUnparkResult {
  unparked_threads : Z;
  requeued_threads : Z;
  have_more_threads : bool;
  be_fair : bool;
}.

#[export] Instance UnparkResult_eq_dec : EqDecision UnparkResult.
Proof. solve_decision. Defined.

(** [UnparkResult::default()]. *)
Definition default_result : UnparkResult := MkUnparkResult 0 0 false false.

Inductive RequeueOp :=
| Abort
| UnparkOneRequeueRest
| RequeueAll
| UnparkOne
| RequeueOne.

#[export] Instance RequeueOp_eq_dec : EqDecision RequeueOp.
Proof. solve_decision. Defined.

(** [op == UnparkOneRequeueRest || op == UnparkOne]: does the operation wake
    the first thread? *)
Definition wakes_first (op : RequeueOp) : bool :=
  match op with UnparkOneRequeueRest | UnparkOne => true | _ => false end.

(** [op == UnparkOne || op == RequeueOne]: does it stop after one thread? *)
Definition only_one (op : RequeueOp) : bool :=
  match op with UnparkOne | RequeueOne => true | _ => false end.

Inductive FilterOp := Unpark | Skip | Stop.

#[export] Instance FilterOp_eq_dec : EqDecision FilterOp.
Proof. solve_decision. Defined.
