(* ===== verification/BucketQueue.v ===== *)
(** * The queue of a bucket, as linked [ThreadData] nodes
      (core/src/parking_lot.rs)

    A bucket of the hash table holds a singly linked queue of the threads
    parked on the keys that hash to it: [queue_head], [queue_tail] and the
    [next_in_queue] field of each [ThreadData].  [Module Ptr] is the code's
    pointer manipulation: what [park], [unpark_one], [unpark_all],
    [unpark_requeue] and [unpark_filter] do to the queue while they hold the
    bucket lock, on a heap of nodes (addresses are [Z], null is [0]).
    [Module Spec] is what they promise, on a plain list of threads.  The
    refinement theorems say that the pointer code implements the list
    operations: FIFO order, the tail pointer, and no other thread touched. *)


From S2P Require Import Prelude LotTypes FairTimeout.
Local Open Scope Z_scope.

(** [struct ThreadData]; [parked] is what the thread's [ThreadParker] shows. *)
Record Node := MkNode {
  next_in_queue : Z;
  key : Z;
  unpark_token : UnparkToken;
  park_token : ParkToken;
  parked_with_timeout : bool;
  parked : bool;
}.

Definition set_next (v : Z) (n : Node) : Node :=
  MkNode v (key n) (unpark_token n) (park_token n) (parked_with_timeout n) (parked n).
Definition set_key (v : Z) (n : Node) : Node :=
  MkNode (next_in_queue n) v (unpark_token n) (park_token n)
    (parked_with_timeout n) (parked n).
Definition set_token (v : UnparkToken) (n : Node) : Node :=
  MkNode (next_in_queue n) (key n) v (park_token n) (parked_with_timeout n) (parked n).
Definition set_parked (v : bool) (n : Node) : Node :=
  MkNode (next_in_queue n) (key n) (unpark_token n) (park_token n)
    (parked_with_timeout n) v.

(** [struct Bucket], less its lock. *)
Record Bucket := MkBucket {
  queue_head : Z;
  queue_tail : Z;
  fair_timeout : FairTimeout.t;
}.

Definition set_head (v : Z) (b : Bucket) : Bucket :=
  MkBucket v (queue_tail b) (fair_timeout b).
Definition set_tail (v : Z) (b : Bucket) : Bucket :=
  MkBucket (queue_head b) v (fair_timeout b).
Definition set_fair (v : FairTimeout.t) (b : Bucket) : Bucket :=
  MkBucket (queue_head b) (queue_tail b) v.

(** The nodes of all threads and the buckets of the current table. *)
Record lot := MkLot { heap : Z → Node; buckets : nat → Bucket }.

Definition upd_node (p : Z) (f : Node → Node) (σ : lot) : lot :=
  MkLot (<[p := f (heap σ p)]> (heap σ)) (buckets σ).
Definition upd_bucket (b : nat) (f : Bucket → Bucket) (σ : lot) : lot :=
  MkLot (heap σ) (<[b := f (buckets σ b)]> (buckets σ)).

(** [link: &Cell<*const ThreadData>]: the cell the loops advance over. *)
Inductive link := LinkHead (b : nat) | LinkNext (p : Z).

Definition link_set (l : link) (v : Z) (σ : lot) : lot :=
  match l with
  | LinkHead b => upd_bucket b (set_head v) σ
  | LinkNext p => upd_node p (set_next v) σ
  end.

Module Ptr.
(** [Bucket::new]. *)
Definition bucket_new (timeout seed : Z) : Bucket :=
  MkBucket 0 0 (FairTimeout.new timeout seed).

(** [park], up to unlocking the bucket: append our node to the queue. *)
Definition park_enqueue (b : nat) (p k : Z) (tok : ParkToken) (timed : bool)
    (σ : lot) : lot :=
  let σ := upd_node p (λ n, MkNode 0 k (unpark_token n) tok timed true) σ in
  let σ := if negb (queue_head (buckets σ b) =? 0)
           then upd_node (queue_tail (buckets σ b)) (set_next p) σ
           else upd_bucket b (set_head p) σ in
  upd_bucket b (set_tail p) σ.

(** The inner loop [while !scan.is_null()]: is there another entry with
    this key from [scan] on?  The loops below take fuel; a queue of [n]
    nodes needs [n + 1]. *)
Fixpoint scan (fuel : nat) (k p : Z) (σ : lot) : option bool :=
  match fuel with
  | O => None
  | S fuel =>
      if p =? 0 then Some false
      else if key (heap σ p) =? k then Some true
      else scan fuel k (next_in_queue (heap σ p)) σ
  end.

(** [link.set(next)], and [queue_tail] when the node was the last one. *)
Definition unlink (b : nat) (l : link) (current previous : Z) (σ : lot) : lot :=
  let next := next_in_queue (heap σ current) in
  let σ := link_set l next σ in
  if queue_tail (buckets σ b) =? current
  then upd_bucket b (set_tail previous) σ
  else σ.

(** The removal loop of [park] after a timeout.  The result is [None] when
    the thread is not in the queue (the [debug_assert] of the source),
    otherwise [was_last_thread]. *)
Fixpoint park_dequeue_loop (fuel : nat) (b : nat) (me k : Z) (l : link)
    (current previous : Z) (last : bool) (σ : lot) : option (option bool * lot) :=
  match fuel with
  | O => None
  | S fuel =>
      if current =? 0 then Some (None, σ)
      else if current =? me then
        let next := next_in_queue (heap σ current) in
        let was_tail := queue_tail (buckets (link_set l next σ) b) =? current in
        let σ := unlink b l current previous σ in
        if was_tail then Some (Some last, σ)
        else
          match scan (S fuel) k next σ with
          | Some found => Some (Some (if found then false else last), σ)
          | None => None
          end
      else
        let last := if key (heap σ current) =? k then false else last in
        park_dequeue_loop fuel b me k (LinkNext current)
          (next_in_queue (heap σ current)) current last σ
  end.

Definition park_dequeue (fuel : nat) (b : nat) (me k : Z) (σ : lot)
    : option (option bool * lot) :=
  park_dequeue_loop fuel b me k (LinkHead b) (queue_head (buckets σ b)) 0 true σ.

(** [unpark_one]: find and unlink the first thread with the key.  The
    result is the thread and [have_more_threads]. *)
Fixpoint unpark_one_loop (fuel : nat) (b : nat) (k : Z) (l : link)
    (current previous : Z) (σ : lot) : option (option (Z * bool) * lot) :=
  match fuel with
  | O => None
  | S fuel =>
      if current =? 0 then Some (None, σ)
      else if key (heap σ current) =? k then
        let next := next_in_queue (heap σ current) in
        let was_tail := queue_tail (buckets (link_set l next σ) b) =? current in
        let σ := unlink b l current previous σ in
        if was_tail then Some (Some (current, false), σ)
        else
          match scan (S fuel) k next σ with
          | Some more => Some (Some (current, more), σ)
          | None => None
          end
      else
        unpark_one_loop fuel b k (LinkNext current)
          (next_in_queue (heap σ current)) current σ
  end.

(** [unpark_lock]: from here on the thread is no longer parked. *)
Definition wake (tok : UnparkToken) (p : Z) (σ : lot) : lot :=
  upd_node p (set_parked false) (upd_node p (set_token tok) σ).

Section client.
(** The state of the primitive that calls the parking lot, which its
    callbacks read and write. *)
Context {C : Type}.

(** [bucket.fair_timeout.should_timeout()] *)
Definition should_timeout (now : Z) (b : nat) (σ : lot) : bool * lot :=
  let '(fair, ft) := FairTimeout.should_timeout now (fair_timeout (buckets σ b)) in
  (fair, upd_bucket b (set_fair ft) σ).

Definition unpark_one (fuel : nat) (now : Z) (b : nat) (k : Z)
    (callback : UnparkResult → C → UnparkToken * C) (σ : lot) (c : C)
    : option (UnparkResult * lot * C) :=
  match unpark_one_loop fuel b k (LinkHead b) (queue_head (buckets σ b)) 0 σ with
  | None => None
  | Some (Some (p, more), σ) =>
      let '(fair, σ) := should_timeout now b σ in
      let result := MkUnparkResult 1 0 more fair in
      let '(tok, c) := callback result c in
      Some (result, wake tok p σ, c)
  | Some (None, σ) =>
      let '(_, c) := callback default_result c in
      Some (default_result, σ, c)
  end.

(** [unpark_all]: unlink and wake every thread with the key, in order. *)
Fixpoint unpark_all_loop (fuel : nat) (b : nat) (k : Z) (tok : UnparkToken)
    (l : link) (current previous : Z) (threads : list Z) (σ : lot)
    : option (list Z * lot) :=
  match fuel with
  | O => None
  | S fuel =>
      if current =? 0 then Some (threads, σ)
      else if key (heap σ current) =? k then
        let next := next_in_queue (heap σ current) in
        let σ := wake tok current (unlink b l current previous σ) in
        unpark_all_loop fuel b k tok l next previous (threads ++ [current]) σ
      else
        unpark_all_loop fuel b k tok (LinkNext current)
          (next_in_queue (heap σ current)) current threads σ
  end.

Definition unpark_all (fuel : nat) (b : nat) (k : Z) (tok : UnparkToken)
    (σ : lot) : option (Z * lot) :=
  match unpark_all_loop fuel b k tok (LinkHead b) (queue_head (buckets σ b)) 0 [] σ with
  | None => None
  | Some (threads, σ) => Some (Z.of_nat (length threads), σ)
  end.

(** [unpark_filter].  [E] is what the [filter] closure captures. *)
Context {E : Type}.

Fixpoint unpark_filter_loop (fuel : nat) (b : nat) (k : Z)
    (filter : E → ParkToken → FilterOp * E) (l : link) (current previous : Z)
    (threads : list Z) (more : bool) (e : E) (σ : lot)
    : option (list Z * bool * E * lot) :=
  match fuel with
  | O => None
  | S fuel =>
      if current =? 0 then Some (threads, more, e, σ)
      else if key (heap σ current) =? k then
        let next := next_in_queue (heap σ current) in
        match filter e (park_token (heap σ current)) with
        | (Unpark, e) =>
            unpark_filter_loop fuel b k filter l next previous
              (threads ++ [current]) more e (unlink b l current previous σ)
        | (Skip, e) =>
            unpark_filter_loop fuel b k filter (LinkNext current) next current
              threads true e σ
        | (Stop, e) => Some (threads, true, e, σ)
        end
      else
        unpark_filter_loop fuel b k filter (LinkNext current)
          (next_in_queue (heap σ current)) current threads more e σ
  end.

(** [for t in threads.iter_mut()]: token and [unpark_lock] for each. *)
Definition wake_all (tok : UnparkToken) (threads : list Z) (σ : lot) : lot :=
  foldl (λ σ p, wake tok p σ) σ threads.

Definition unpark_filter (fuel : nat) (now : Z) (b : nat) (k : Z)
    (filter : E → ParkToken → FilterOp * E) (e : E)
    (callback : E → UnparkResult → C → UnparkToken * C) (σ : lot) (c : C)
    : option (UnparkResult * lot * C) :=
  match unpark_filter_loop fuel b k filter (LinkHead b)
          (queue_head (buckets σ b)) 0 [] false e σ with
  | None => None
  | Some (threads, more, e, σ) =>
      let n := Z.of_nat (length threads) in
      let '(fair, σ) := if negb (n =? 0) then should_timeout now b σ else (false, σ) in
      let result := MkUnparkResult n 0 more fair in
      let '(tok, c) := callback e result c in
      Some (result, wake_all tok threads σ, c)
  end.

(** [unpark_requeue].  The scan collects the threads to move as a list of
    nodes linked by [next_in_queue], from [rq_head] to [rq_tail]. *)
Record requeue := MkRequeue {
  rq_head : Z;
  rq_tail : Z;
  rq_wakeup : option Z;
  rq_result : UnparkResult;
}.

Definition requeue_push (p k_to : Z) (r : requeue) (σ : lot) : requeue * lot :=
  let σ := if negb (rq_head r =? 0) then upd_node (rq_tail r) (set_next p) σ else σ in
  let head := if negb (rq_head r =? 0) then rq_head r else p in
  let res := rq_result r in
  (MkRequeue head p (rq_wakeup r)
     (MkUnparkResult (unparked_threads res) (requeued_threads res + 1)
        (have_more_threads res) (be_fair res)),
   upd_node p (set_key k_to) σ).

Fixpoint unpark_requeue_loop (fuel : nat) (b : nat) (k k_to : Z) (op : RequeueOp)
    (l : link) (current previous : Z) (r : requeue) (σ : lot)
    : option (requeue * lot) :=
  match fuel with
  | O => None
  | S fuel =>
      if current =? 0 then Some (r, σ)
      else if key (heap σ current) =? k then
        let next := next_in_queue (heap σ current) in
        let σ := unlink b l current previous σ in
        let '(r, σ) :=
          if wakes_first op && bool_decide (rq_wakeup r = None) then
            let res := rq_result r in
            (MkRequeue (rq_head r) (rq_tail r) (Some current)
               (MkUnparkResult 1 (requeued_threads res) (have_more_threads res)
                  (be_fair res)), σ)
          else requeue_push current k_to r σ in
        if only_one op then
          match scan (S fuel) k next σ with
          | None => None
          | Some found =>
              let res := rq_result r in
              let more := if found then true else have_more_threads res in
              Some (MkRequeue (rq_head r) (rq_tail r) (rq_wakeup r)
                      (MkUnparkResult (unparked_threads res) (requeued_threads res)
                         more (be_fair res)), σ)
          end
        else unpark_requeue_loop fuel b k k_to op l next previous r σ
      else
        unpark_requeue_loop fuel b k k_to op (LinkNext current)
          (next_in_queue (heap σ current)) current r σ
  end.

(** Add the requeued threads to the destination bucket. *)
Definition requeue_append (b_to : nat) (r : requeue) (σ : lot) : lot :=
  if negb (rq_head r =? 0) then
    let σ := upd_node (rq_tail r) (set_next 0) σ in
    let σ := if negb (queue_head (buckets σ b_to) =? 0)
             then upd_node (queue_tail (buckets σ b_to)) (set_next (rq_head r)) σ
             else upd_bucket b_to (set_head (rq_head r)) σ in
    upd_bucket b_to (set_tail (rq_tail r)) σ
  else σ.

Definition unpark_requeue (fuel : nat) (now : Z) (b_from b_to : nat) (k k_to : Z)
    (validate : C → RequeueOp * C)
    (callback : RequeueOp → UnparkResult → C → UnparkToken * C) (σ : lot) (c : C)
    : option (UnparkResult * lot * C) :=
  let '(op, c) := validate c in
  if bool_decide (op = Abort) then Some (default_result, σ, c)
  else
    match unpark_requeue_loop fuel b_from k k_to op (LinkHead b_from)
            (queue_head (buckets σ b_from)) 0 (MkRequeue 0 0 None default_result) σ with
    | None => None
    | Some (r, σ) =>
        let σ := requeue_append b_to r σ in
        let res := rq_result r in
        let '(fair, σ) := if negb (unparked_threads res =? 0)
                          then should_timeout now b_from σ else (be_fair res, σ) in
        let res := MkUnparkResult (unparked_threads res) (requeued_threads res)
                     (have_more_threads res) fair in
        let '(tok, c) := callback op res c in
        let σ := match rq_wakeup r with Some p => wake tok p σ | None => σ end in
        Some (res, σ, c)
    end.
End client.
End Ptr.

(** ** Representation: a queue as a list of thread addresses *)

(** The nodes from [p] to [q] (exclusive) are those of [l]. *)
Fixpoint lseg (h : Z → Node) (p : Z) (l : list Z) (q : Z) : Prop :=
  match l with
  | [] => p = q
  | a :: l => p = a ∧ a ≠ 0 ∧ lseg h (next_in_queue (h a)) l q
  end.

Definition is_queue (σ : lot) (b : nat) (l : list Z) : Prop :=
  NoDup l ∧
  lseg (heap σ) (queue_head (buckets σ b)) l 0 ∧
  queue_tail (buckets σ b) = default 0 (last l).

(** The position of a loop that has passed [pre] and has [suf] ahead. *)
Definition link_at (b : nat) (pre : list Z) : link :=
  match last pre with Some a => LinkNext a | None => LinkHead b end.
Definition prev_at (pre : list Z) : Z := default 0 (last pre).
Definition cur_at (suf : list Z) : Z := default 0 (head suf).

(** [σ'] differs from [σ] at most in the links of bucket [b], whose nodes
    are among [l]: no other node, bucket, key, token or timeout changes. *)
Record frame (b : nat) (l : list Z) (σ σ' : lot) : Prop := {
  frame_data p : set_next 0 (heap σ' p) = set_next 0 (heap σ p);
  frame_node p : p ∉ l → heap σ' p = heap σ p;
  frame_bucket b' : b' ≠ b → buckets σ' b' = buckets σ b';
  frame_fair : fair_timeout (buckets σ' b) = fair_timeout (buckets σ b);
}.

Lemma frame_refl b l σ : frame b l σ σ.
Proof. by split. Qed.

Lemma frame_trans b l σ1 σ2 σ3 : frame b l σ1 σ2 → frame b l σ2 σ3 → frame b l σ1 σ3.
Proof.
  intros [Hd1 Hn1 Hb1 Hf1] [Hd2 Hn2 Hb2 Hf2]; split.
  - intros p. by rewrite Hd2.
  - intros p Hp. by rewrite Hn2, Hn1.
  - intros b' Hb'. by rewrite Hb2, Hb1.
  - by rewrite Hf2.
Qed.

Lemma frame_weaken b l l' σ σ' : l ⊆ l' → frame b l σ σ' → frame b l' σ σ'.
Proof.
  intros Hl [Hd Hn Hb Hf]; split; [done| |done|done].
  intros p Hp. apply Hn. set_solver.
Qed.

Lemma frame_fields b l σ σ' p :
  frame b l σ σ' →
  key (heap σ' p) = key (heap σ p) ∧
  park_token (heap σ' p) = park_token (heap σ p) ∧
  unpark_token (heap σ' p) = unpark_token (heap σ p) ∧
  parked (heap σ' p) = parked (heap σ p).
Proof.
  intros [Hd _ _ _]. specialize (Hd p). destruct (heap σ' p), (heap σ p).
  by simplify_eq/=.
Qed.

(** *** List segments *)

Lemma lseg_app h p l1 l2 q :
  lseg h p (l1 ++ l2) q ↔ ∃ m, lseg h p l1 m ∧ lseg h m l2 q.
Proof.
  revert p. induction l1 as [|a l1 IH]; intros p; simpl.
  - naive_solver.
  - rewrite IH. naive_solver.
Qed.

Lemma lseg_ext h h' p l q :
  (∀ a, a ∈ l → next_in_queue (h' a) = next_in_queue (h a)) →
  lseg h p l q → lseg h' p l q.
Proof.
  revert p. induction l as [|a l IH]; intros p He; simpl; [done|].
  intros (-> & Ha & Hl). split; [done|]. split; [done|].
  rewrite He by set_solver. apply IH; [|done]. intros c Hc. apply He. set_solver.
Qed.

Lemma lseg_head h p l q : lseg h p l q → p = default q (head l).
Proof. destruct l; simpl; naive_solver. Qed.

Lemma lseg_nonnull h p l q : lseg h p l q → 0 ∉ l.
Proof.
  revert p. induction l as [|a l IH]; intros p; simpl; [set_solver|].
  intros (_ & Ha & Hl). apply IH in Hl. set_solver.
Qed.

(** Redirecting the last node of a segment. *)
Lemma lseg_set_last h p l a m q :
  NoDup (l ++ [a]) → lseg h p (l ++ [a]) m →
  lseg (<[a := set_next q (h a)]> h) p (l ++ [a]) q.
Proof.
  intros Hnd. rewrite !lseg_app. intros (x & Hl & -> & Ha & Hx).
  exists a. split; [|simpl; fn_simp; done].
  eapply lseg_ext; [|exact Hl]. intros c Hc.
  apply NoDup_app in Hnd as (_ & Hd & _).
  assert (a ≠ c) by (specialize (Hd c Hc); set_solver). by fn_simp.
Qed.

(** *** Reading a queue at a position *)

Lemma is_queue_cur σ b pre c suf :
  is_queue σ b (pre ++ c :: suf) →
  c ≠ 0 ∧ c ∉ pre ∧ c ∉ suf ∧ next_in_queue (heap σ c) = cur_at suf ∧
  (queue_tail (buckets σ b) = c ↔ suf = []).
Proof.
  intros (Hnd & Hl & Ht). apply NoDup_app in Hnd as (_ & Hd & [Hc Hs]%NoDup_cons).
  apply lseg_app in Hl as (m & _ & -> & Hc0 & Hsuf).
  split; [done|]. split; [set_solver|]. split; [done|].
  split; [by apply lseg_head in Hsuf|]. rewrite Ht, last_app_cons.
  destruct suf as [|d suf]; simpl; [done|]. split; [|done]. intros Hlast.
  destruct (last (d :: suf)) as [e|] eqn:E; [|by apply last_None in E].
  apply last_Some_elem_of in E. set_solver.
Qed.

Lemma is_queue_end σ b pre : is_queue σ b pre → queue_head (buckets σ b) = cur_at pre.
Proof. intros (_ & Hl & _). by apply lseg_head in Hl. Qed.

Lemma cur_at_nil : cur_at [] = 0.
Proof. done. Qed.

Lemma cur_at_cons c suf : cur_at (c :: suf) = c.
Proof. done. Qed.

Lemma link_at_snoc b pre c : link_at b (pre ++ [c]) = LinkNext c.
Proof. unfold link_at. by rewrite last_snoc. Qed.

Lemma prev_at_snoc pre c : prev_at (pre ++ [c]) = c.
Proof. unfold prev_at. by rewrite last_snoc. Qed.

(** *** Unlinking a node *)

Lemma upd_bucket_eq σ b f : buckets (upd_bucket b f σ) b = f (buckets σ b).
Proof. simpl. by fn_simp. Qed.

Lemma link_set_spec σ b pre c suf :
  is_queue σ b (pre ++ c :: suf) →
  let σ' := link_set (link_at b pre) (cur_at suf) σ in
  lseg (heap σ') (queue_head (buckets σ' b)) (pre ++ suf) 0 ∧
  queue_tail (buckets σ' b) = queue_tail (buckets σ b) ∧
  frame b pre σ σ'.
Proof.
  intros Hq. destruct (is_queue_cur _ _ _ _ _ Hq) as (Hc & Hcp & Hcs & Hn & _).
  destruct Hq as (Hnd & Hl & _). revert Hnd Hl Hcp.
  destruct pre as [|a pre _] using rev_ind; intros Hnd Hl Hcp; simpl.
  - destruct Hl as (_ & _ & Hl). rewrite Hn in Hl. unfold link_at; simpl.
    fn_simp. split; [done|]. split; [done|]. split; simpl; [done|done| |].
    + intros b' Hb'. by fn_simp.
    + by fn_simp.
  - rewrite link_at_snoc; simpl. rewrite <- app_assoc in Hnd, Hl |- *; simpl in *.
    apply lseg_app in Hl as (m & Hpre & -> & Ha0 & Ham & _ & Hsuf).
    rewrite Hn in Hsuf.
    assert (NoDup (pre ++ [a])) as Hnd'
      by (apply NoDup_app; apply NoDup_app in Hnd as (?&Hd&?);
          repeat split; [done| |apply NoDup_singleton]; set_solver).
    assert (a ∉ suf) as Has.
    { apply NoDup_app in Hnd as (_ & _ & [Ha _]%NoDup_cons). set_solver. }
    split.
    + apply lseg_app. exists a. split.
      * eapply lseg_ext; [|exact Hpre]. intros d Hd.
        assert (a ≠ d) by (intros ->; apply NoDup_app in Hnd' as (_&Hx&_);
                           specialize (Hx d Hd); set_solver). by fn_simp.
      * simpl. split; [done|]. split; [done|]. fn_simp. simpl.
        eapply lseg_ext; [|exact Hsuf]. intros d Hd.
        assert (a ≠ d) by (intros ->; done). by fn_simp.
    + split; [done|]. split; simpl; [| |done|done].
      * intros d. fn_cases a d; [|done]. by destruct (heap σ d).
      * intros d Hd. assert (a ≠ d) by set_solver. by fn_simp.
Qed.

Lemma unlink_spec σ b pre c suf :
  is_queue σ b (pre ++ c :: suf) →
  is_queue (Ptr.unlink b (link_at b pre) c (prev_at pre) σ) b (pre ++ suf) ∧
  frame b pre σ (Ptr.unlink b (link_at b pre) c (prev_at pre) σ).
Proof.
  intros Hq. destruct (is_queue_cur _ _ _ _ _ Hq) as (_ & Hcp & Hcs & Hn & Htail).
  destruct (link_set_spec _ _ _ _ _ Hq) as (Hl & Ht & Hfr).
  destruct Hq as (Hnd & _ & Htl).
  assert (NoDup (pre ++ suf)) as Hnd'.
  { apply NoDup_app in Hnd as (? & ? & [? ?]%NoDup_cons). apply NoDup_app.
    split; [done|]. split; [set_solver|done]. }
  unfold Ptr.unlink. rewrite Hn. cbv zeta in *.
  set (σ1 := link_set _ _ σ) in *. rewrite Ht.
  destruct (Z.eqb_spec (queue_tail (buckets σ b)) c) as [E|E].
  - apply Htail in E as ->. rewrite app_nil_r in *. split.
    + split; [done|]. rewrite upd_bucket_eq. simpl. done.
    + eapply frame_trans; [exact Hfr|]. split; simpl; try done.
      * intros b' ?. by fn_simp.
      * by fn_simp.
  - split; [|done]. split; [done|]. split; [done|]. rewrite Ht, Htl.
    destruct suf as [|d suf]; [exfalso; tauto|].
    by rewrite !last_app_cons.
Qed.

(** The tail test of the loops, made after [link.set(next)]. *)
Lemma was_tail_spec σ b pre c suf :
  is_queue σ b (pre ++ c :: suf) →
  (queue_tail (buckets (link_set (link_at b pre) (next_in_queue (heap σ c)) σ) b) =? c)
  = bool_decide (suf = []).
Proof.
  intros Hq. destruct (is_queue_cur _ _ _ _ _ Hq) as (_ & _ & _ & Hn & Htail).
  destruct (link_set_spec _ _ _ _ _ Hq) as (_ & Ht & _). rewrite Hn, Ht.
  destruct (Z.eqb_spec (queue_tail (buckets σ b)) c); symmetry.
  - apply bool_decide_eq_true. tauto.
  - apply bool_decide_eq_false. tauto.
Qed.

Lemma scan_spec σ p l fuel k :
  lseg (heap σ) p l 0 → (length l < fuel)%nat →
  Ptr.scan fuel k p σ = Some (bool_decide (Exists (λ q, key (heap σ q) = k) l)).
Proof.
  revert p fuel. induction l as [|a l IH]; intros p [|fuel] Hl Hf; try (simpl in Hf; lia).
  - simpl in Hl. subst. by rewrite bool_decide_false by (intros H; inversion H).
  - destruct Hl as (-> & Ha & Hl). cbn [Ptr.scan length] in *.
    destruct (Z.eqb_spec a 0); [done|]. destruct (Z.eqb_spec (key (heap σ a)) k).
    + by rewrite bool_decide_true by (by left).
    + rewrite (IH _ _ Hl) by lia. f_equal. apply bool_decide_ext.
      rewrite Exists_cons. naive_solver.
Qed.

(** The part of the queue behind a position. *)
Lemma is_queue_suffix σ b pre suf :
  is_queue σ b (pre ++ suf) → lseg (heap σ) (cur_at suf) suf 0.
Proof.
  intros (_ & Hl & _). apply lseg_app in Hl as (m & _ & Hs).
  by rewrite <- (lseg_head _ _ _ _ Hs : _ = cur_at suf).
Qed.

#[export] Hint Resolve frame_refl is_queue_suffix : lot.

Lemma filter_sub {A} (P : A → Prop) `{!∀ x, Decision (P x)} (l : list A) :
  filter P l ⊆ l.
Proof. intros x Hx. by apply list_elem_of_filter in Hx as [_ ?]. Qed.

(** ** What the operations promise, on lists of threads

    [κ] gives the key a thread is parked on, [τ] its park token. *)

Module Spec.
Section spec.
Context {T : Type} `{!EqDecision T} (κ : T → Z).

(** Some thread of [l] is parked on [k]. *)
Definition waiting (k : Z) (l : list T) : bool :=
  bool_decide (Exists (λ p, κ p = k) l).

(** The first thread parked on [k], and the queue without it. *)
Fixpoint pop_first (k : Z) (l : list T) : option (T * list T) :=
  match l with
  | [] => None
  | p :: l =>
      if decide (κ p = k) then Some (p, l)
      else match pop_first k l with
           | Some (q, l') => Some (q, p :: l')
           | None => None
           end
  end.

Definition unpark_one (k : Z) (l : list T) : option (T * bool) * list T :=
  match pop_first k l with
  | Some (p, l') => (Some (p, waiting k l'), l')
  | None => (None, l)
  end.

Definition park_dequeue (me : T) (k : Z) (l : list T) : option bool * list T :=
  if decide (me ∈ l)
  then let l' := filter (λ p, p ≠ me) l in (Some (negb (waiting k l')), l')
  else (None, l).

(** The threads woken, in queue order, and the ones that stay. *)
Definition unpark_all (k : Z) (l : list T) : list T * list T :=
  (filter (λ p, κ p = k) l, filter (λ p, κ p ≠ k) l).

Fixpoint unpark_filter (τ : T → ParkToken) {E}
    (filt : E → ParkToken → FilterOp * E) (k : Z) (e : E) (l : list T)
    : list T * list T * bool * E :=
  match l with
  | [] => ([], [], false, e)
  | p :: l =>
      if decide (κ p = k) then
        match filt e (τ p) with
        | (Unpark, e) =>
            let '(w, r, m, e) := unpark_filter τ filt k e l in (p :: w, r, m, e)
        | (Skip, e) =>
            let '(w, r, _, e) := unpark_filter τ filt k e l in (w, p :: r, true, e)
        | (Stop, e) => ([], p :: l, true, e)
        end
      else
        let '(w, r, m, e) := unpark_filter τ filt k e l in (w, p :: r, m, e)
  end.

(** The thread to wake, the threads to move, the ones that stay, and
    whether some stay on [k]. *)
Definition unpark_requeue (op : RequeueOp) (k : Z) (l : list T)
    : option T * list T * list T * bool :=
  if only_one op then
    match pop_first k l with
    | None => (None, [], l, false)
    | Some (p, l') =>
        if wakes_first op then (Some p, [], l', waiting k l')
        else (None, [p], l', waiting k l')
    end
  else
    let '(m, r) := unpark_all k l in
    if wakes_first op then (head m, tail m, r, false) else (None, m, r, false).

Lemma pop_first_skip k pre suf :
  Forall (λ p, κ p ≠ k) pre →
  pop_first k (pre ++ suf) =
    match pop_first k suf with Some (q, l) => Some (q, pre ++ l) | None => None end.
Proof.
  induction 1 as [|p pre Hp _ IH]; simpl; [by destruct (pop_first k suf) as [[]|]|].
  rewrite decide_False by done. rewrite IH. by destruct (pop_first k suf) as [[]|].
Qed.

Lemma pop_first_None k l : Forall (λ p, κ p ≠ k) l → pop_first k l = None.
Proof.
  intros H. rewrite <- (app_nil_r l). by rewrite pop_first_skip.
Qed.

Lemma pop_first_None_inv k l : pop_first k l = None → Forall (λ p, κ p ≠ k) l.
Proof.
  induction l as [|p l IH]; simpl; [constructor|]. case_decide; [done|].
  destruct (pop_first k l) as [[]|]; [done|]. intros _. constructor; auto.
Qed.

Lemma waiting_app k l1 l2 : waiting k (l1 ++ l2) = waiting k l1 || waiting k l2.
Proof.
  unfold waiting. apply eq_iff_eq_true.
  by rewrite orb_true_iff, !bool_decide_eq_true, Exists_app.
Qed.

Lemma waiting_false k l : waiting k l = false ↔ Forall (λ p, κ p ≠ k) l.
Proof.
  unfold waiting. rewrite bool_decide_eq_false, Forall_Exists_neg. done.
Qed.

Lemma waiting_single k p : waiting k [p] = (κ p =? k).
Proof.
  unfold waiting. destruct (Z.eqb_spec (κ p) k).
  - apply bool_decide_eq_true. by left.
  - apply bool_decide_eq_false. rewrite Exists_cons, Exists_nil. tauto.
Qed.

Lemma waiting_nil k : waiting k [] = false.
Proof. by apply waiting_false. Qed.

(** The first thread parked on [k]: the ones before it are parked on other
    keys, and the queue keeps its order. *)
Lemma pop_first_Some k l p l' :
  pop_first k l = Some (p, l') →
  ∃ pre suf, l = pre ++ p :: suf ∧ l' = pre ++ suf ∧ κ p = k ∧ Forall (λ q, κ q ≠ k) pre.
Proof.
  revert l'. induction l as [|c l IH]; intros l' H; simpl in H; [done|].
  case_decide; simplify_eq.
  { exists [], l'. auto. }
  destruct (pop_first k l) as [[q l1]|]; simplify_eq.
  destruct (IH _ eq_refl) as (pre & suf & -> & -> & Hp & Hpre).
  exists (c :: pre), suf. split; [done|]. split; [done|]. split; [done|].
  by constructor.
Qed.

Lemma pop_first_sub k l p l' :
  NoDup l → pop_first k l = Some (p, l') → p ∈ l ∧ l' ⊆ l ∧ p ∉ l'.
Proof.
  intros Hnd (pre & suf & -> & -> & _ & _)%pop_first_Some.
  apply NoDup_app in Hnd as (_ & Hd & [Hp _]%NoDup_cons).
  split; [set_solver|]. split; [set_solver|]. set_solver.
Qed.

Lemma filter_split (τ : T → ParkToken) {E} (filt : E → ParkToken → FilterOp * E) k e l :
  NoDup l →
  let '(ws, l', _, _) := unpark_filter τ filt k e l in
  NoDup ws ∧ ws ⊆ l ∧ l' ⊆ l ∧ ∀ p, p ∈ ws → p ∉ l'.
Proof.
  intros Hnd. revert e. induction Hnd as [|p l Hp Hnd IH]; intros e; simpl.
  { split; [constructor|]. set_solver. }
  case_decide.
  - destruct (filt e (τ p)) as [[] e1]; [| |split; [constructor|set_solver]];
      specialize (IH e1); destruct (unpark_filter τ filt k e1 l) as [[[ws r] m] e'];
      destruct IH as (Hw & Hl & Hr & Hd).
    + split; [constructor; set_solver|]. set_solver.
    + split; [done|]. set_solver.
  - specialize (IH e). destruct (unpark_filter τ filt k e l) as [[[ws r] m] e'].
    destruct IH as (Hw & Hl & Hr & Hd). split; [done|]. set_solver.
Qed.

Lemma requeue_split op k l :
  NoDup l →
  let '(wk, m, rest, _) := unpark_requeue op k l in
  rest ⊆ l ∧ (∀ p, wk = Some p → p ∈ l ∧ p ∉ m ∧ p ∉ rest).
Proof.
  intros Hnd. unfold unpark_requeue, unpark_all. destruct (only_one op).
  - destruct (pop_first k l) as [[p l']|] eqn:E; [|set_solver].
    apply pop_first_sub in E as (Hp & Hl' & Hpl); [|done].
    destruct (wakes_first op); set_solver.
  - destruct (wakes_first op); [|split; [apply filter_sub|done]].
    split; [apply filter_sub|]. intros p Hp.
    assert (Hnd' : NoDup (filter (λ q, κ q = k) l)) by (by apply NoDup_filter).
    destruct (filter (λ q, κ q = k) l) as [|c ws] eqn:E; [done|]. simplify_eq/=.
    assert (Hin : p ∈ filter (λ q, κ q = k) l) by (rewrite E; set_solver).
    apply list_elem_of_filter in Hin as [Hk Hin]. split; [done|].
    apply NoDup_cons in Hnd' as [Hn _]. split; [done|].
    intros [H _]%list_elem_of_filter. done.
Qed.

(** Nobody is lost, and who leaves was parked on the key. *)
Lemma requeue_perm op k l wk m rest more :
  unpark_requeue op k l = (wk, m, rest, more) →
  l ≡ₚ option_list wk ++ m ++ rest ∧ (∀ p, p ∈ option_list wk ++ m → κ p = k) ∧
  (more = false → Forall (λ p, κ p ≠ k) rest) ∧
  (wakes_first op = false → wk = None) ∧ (wakes_first op = true → wk = None → m = []) ∧
  (only_one op = true → m = [] ∨ wk = None) ∧ (only_one op = false → more = false).
Proof.
  unfold unpark_requeue, unpark_all. intros H. destruct (only_one op).
  - destruct (pop_first k l) as [[p l']|] eqn:E.
    + apply pop_first_Some in E as (pre & suf & -> & -> & Hk & Hpre).
      destruct (wakes_first op); simplify_eq; cbn; split_and!; try done; try (intros q; set_solver); auto;
        try (by rewrite waiting_false); by rewrite <- Permutation_middle.
    + simplify_eq. cbn. apply pop_first_None_inv in E. split_and!; try done; auto; intros q; set_solver.
  - assert (Hp : l ≡ₚ filter (λ p, κ p = k) l ++ filter (λ p, κ p ≠ k) l).
    { clear. induction l as [|p l IH]; [done|]. rewrite !filter_cons.
      destruct (decide (κ p = k)); [rewrite decide_False by tauto|rewrite decide_True by done].
      - cbn. by rewrite <- IH.
      - by rewrite <- Permutation_middle, <- IH. }
    assert (Hr : Forall (λ p, κ p ≠ k) (filter (λ p, κ p ≠ k) l)).
    { apply Forall_forall. by intros p [? _]%list_elem_of_filter. }
    assert (Hk : ∀ p, p ∈ filter (λ p, κ p = k) l → κ p = k) by by intros p [? _]%list_elem_of_filter.
    destruct (wakes_first op); injection H as <- <- <- <-.
    + destruct (filter (λ p, κ p = k) l) as [|p ws]; cbn in *; split_and!; try done; auto.
    + cbn. split_and!; auto; done.
Qed.
End spec.
End Spec.

Abbreviation keys σ := (λ p, key (heap σ p)).
Abbreviation tokens σ := (λ p, park_token (heap σ p)).

Section refinement.
Implicit Types (σ : lot) (b : nat) (k : Z) (l pre suf : list Z).

Lemma frame_keys b l σ σ' p : frame b l σ σ' → key (heap σ' p) = key (heap σ p).
Proof. intros H. by apply frame_fields with (p := p) in H as (? & _). Qed.

Lemma frame_waiting b l σ σ' k l' :
  frame b l σ σ' → Spec.waiting (keys σ') k l' = Spec.waiting (keys σ) k l'.
Proof.
  intros H. unfold Spec.waiting. apply bool_decide_ext.
  split; intros Hex; (eapply Exists_impl; [exact Hex|]);
    intros p; simpl; by rewrite (frame_keys _ _ _ _ _ H).
Qed.

(** After unlinking [c], is another thread of the queue parked on [k]? *)
Lemma scan_after_unlink σ b pre c suf fuel k :
  is_queue σ b (pre ++ c :: suf) → (length suf < fuel)%nat →
  Ptr.scan fuel k (next_in_queue (heap σ c))
    (Ptr.unlink b (link_at b pre) c (prev_at pre) σ) =
  Some (Spec.waiting (keys σ) k suf).
Proof.
  intros Hq Hf. destruct (is_queue_cur _ _ _ _ _ Hq) as (_ & _ & _ & Hn & _).
  destruct (unlink_spec _ _ _ _ _ Hq) as [Hq' Hfr]. rewrite Hn.
  rewrite (scan_spec _ _ suf) by eauto using is_queue_suffix.
  f_equal. apply (frame_waiting _ _ _ _ _ _ Hfr).
Qed.

(** *** Appending and removing our own node *)

Lemma is_queue_upd_notin σ b l p f :
  p ∉ l → is_queue σ b l → is_queue (upd_node p f σ) b l.
Proof.
  intros Hp (Hnd & Hl & Ht). split; [done|]. split; [|done]. simpl.
  eapply lseg_ext; [|exact Hl]. intros a Ha.
  assert (p ≠ a) by set_solver. by fn_simp.
Qed.

Lemma park_enqueue_queue σ b l p k tok timed :
  p ≠ 0 → p ∉ l → is_queue σ b l →
  is_queue (Ptr.park_enqueue b p k tok timed σ) b (l ++ [p]).
Proof.
  intros Hp0 Hp Hq. unfold Ptr.park_enqueue.
  set (f := λ n, MkNode 0 k (unpark_token n) tok timed true).
  pose proof (is_queue_upd_notin σ b l p f Hp Hq) as Hq1.
  assert (Hnext : next_in_queue (heap (upd_node p f σ) p) = 0) by (simpl; by fn_simp).
  revert Hq1 Hnext. generalize (upd_node p f σ) as σ1. clear Hq f σ.
  intros σ (Hnd & Hl & Ht) Hnext.
  assert (Hnd' : NoDup (l ++ [p])).
  { apply NoDup_app. repeat split; [done|set_solver|apply NoDup_singleton]. }
  destruct l as [|a l _] using rev_ind; simpl in *.
  - rewrite Hl. simpl. split; [done|]. simpl. by fn_simp.
  - assert (Hne : (queue_head (buckets σ b) =? 0) = false).
    { apply Z.eqb_neq. pose proof (lseg_nonnull _ _ _ _ Hl).
      rewrite (lseg_head _ _ _ _ Hl). destruct l; simpl in *; set_solver. }
    rewrite Hne. simpl. split; [done|]. simpl. fn_simp. simpl. split.
    + rewrite Ht, last_snoc. simpl. apply lseg_app. exists p.
      split; [by eapply lseg_set_last|]. simpl.
      assert (a ≠ p) by set_solver. fn_simp. auto.
    + by rewrite last_snoc.
Qed.

(** Only the node of the parking thread and the link of the former tail
    change. *)
Lemma park_enqueue_node σ b p k tok timed q :
  queue_tail (buckets σ b) ≠ p →
  set_next 0 (heap (Ptr.park_enqueue b p k tok timed σ) q) =
    if decide (q = p) then MkNode 0 k (unpark_token (heap σ p)) tok timed true
    else set_next 0 (heap σ q).
Proof.
  intros Ht. unfold Ptr.park_enqueue. simpl.
  destruct (queue_head (buckets σ b) =? 0); simpl.
  - fn_cases p q; [by rewrite decide_True|]. by rewrite decide_False by congruence.
  - fn_cases p q; [rewrite decide_True by done|rewrite decide_False by congruence].
    + by fn_simp.
    + rewrite fn_insert_case. case_decide; [subst; by fn_simp|by fn_simp].
Qed.

Lemma filter_ne_notin (me : Z) l : me ∉ l → filter (λ p, p ≠ me) l = l.
Proof.
  induction l as [|a l IH]; intros H; [done|].
  rewrite filter_cons_True by set_solver. f_equal. apply IH. set_solver.
Qed.

Lemma filter_ne_middle pre (c : Z) suf :
  c ∉ pre → c ∉ suf → filter (λ p, p ≠ c) (pre ++ c :: suf) = pre ++ suf.
Proof.
  intros Hp Hs. rewrite filter_app, filter_cons_False by (intros H; done).
  by rewrite !filter_ne_notin.
Qed.

Lemma park_dequeue_loop_spec fuel σ b me k pre suf :
  is_queue σ b (pre ++ suf) → me ∉ pre → (length suf < fuel)%nat →
  ∃ σ', Ptr.park_dequeue_loop fuel b me k (link_at b pre) (cur_at suf) (prev_at pre)
          (negb (Spec.waiting (keys σ) k pre)) σ
          = Some ((Spec.park_dequeue (keys σ) me k (pre ++ suf)).1, σ') ∧
        is_queue σ' b (Spec.park_dequeue (keys σ) me k (pre ++ suf)).2 ∧
        frame b (pre ++ suf) σ σ'.
Proof.
  revert fuel pre. induction suf as [|c suf IH]; intros [|fuel] pre Hq Hpre Hf;
    try (simpl in Hf; lia); cbn [Ptr.park_dequeue_loop];
    rewrite ?cur_at_nil, ?cur_at_cons.
  - exists σ. unfold Spec.park_dequeue. rewrite app_nil_r in *.
    rewrite decide_False by done. auto using frame_refl.
  - destruct (is_queue_cur _ _ _ _ _ Hq) as (Hc & Hcp & Hcs & Hn & _).
    destruct (Z.eqb_spec c 0) as [|_]; [done|].
    destruct (Z.eqb_spec c me) as [->|Hne].
    + destruct (unlink_spec _ _ _ _ _ Hq) as [Hq' Hfr].
      unfold Spec.park_dequeue. rewrite decide_True by set_solver.
      rewrite filter_ne_middle by done. cbn [fst snd].
      eexists. split; [|split; [exact Hq'|]].
      * rewrite (was_tail_spec _ _ _ _ suf) by done.
        rewrite (scan_after_unlink _ _ _ _ suf) by (done || simpl in Hf; lia).
        rewrite Spec.waiting_app.
        case_bool_decide; [subst; rewrite Spec.waiting_nil, orb_false_r; done|].
        destruct (Spec.waiting _ k suf); by rewrite ?orb_true_r, ?orb_false_r.
      * eapply frame_weaken; [|exact Hfr]. set_solver.
    + rewrite (cons_middle c pre suf), (assoc_L (++)) in Hq |- *.
      destruct (IH fuel (pre ++ [c])) as (σ' & Hrun & HH).
      * done.
      * set_solver.
      * simpl in Hf. lia.
      * rewrite link_at_snoc, prev_at_snoc in Hrun. rewrite Hn. exists σ'.
        split; [|exact HH]. rewrite <- Hrun, Spec.waiting_app, Spec.waiting_single.
        destruct (key (heap σ c) =? k).
        -- by rewrite orb_true_r.
        -- by rewrite orb_false_r.
Qed.

Lemma unpark_one_loop_spec fuel σ b k pre suf :
  is_queue σ b (pre ++ suf) → Forall (λ p, keys σ p ≠ k) pre →
  (length suf < fuel)%nat →
  ∃ σ', Ptr.unpark_one_loop fuel b k (link_at b pre) (cur_at suf) (prev_at pre) σ
          = Some ((Spec.unpark_one (keys σ) k (pre ++ suf)).1, σ') ∧
        is_queue σ' b (Spec.unpark_one (keys σ) k (pre ++ suf)).2 ∧
        frame b (pre ++ suf) σ σ'.
Proof.
  revert fuel pre. induction suf as [|c suf IH]; intros [|fuel] pre Hq Hpre Hf;
    try (simpl in Hf; lia); cbn [Ptr.unpark_one_loop]; rewrite ?cur_at_nil, ?cur_at_cons.
  - exists σ. unfold Spec.unpark_one. rewrite app_nil_r in *.
    rewrite Spec.pop_first_None by done. auto using frame_refl.
  - destruct (is_queue_cur _ _ _ _ _ Hq) as (Hc & _ & _ & Hn & _).
    destruct (Z.eqb_spec c 0) as [|_]; [done|].
    destruct (Z.eqb_spec (key (heap σ c)) k) as [Hk|Hk].
    + destruct (unlink_spec _ _ _ _ _ Hq) as [Hq' Hfr].
      unfold Spec.unpark_one. rewrite Spec.pop_first_skip by done.
      cbn [Spec.pop_first]. rewrite decide_True by done. cbn [fst snd].
      eexists. split; [|split; [exact Hq'|]].
      * rewrite (was_tail_spec _ _ _ _ suf) by done.
        rewrite (scan_after_unlink _ _ _ _ suf) by (done || simpl in Hf; lia).
        rewrite Spec.waiting_app, (proj2 (Spec.waiting_false _ _ _) Hpre), orb_false_l.
        case_bool_decide; [subst; by rewrite Spec.waiting_nil|done].
      * eapply frame_weaken; [|exact Hfr]. set_solver.
    + rewrite (cons_middle c pre suf), (assoc_L (++)) in Hq |- *.
      destruct (IH fuel (pre ++ [c])) as (σ' & Hrun & HH).
      * done.
      * apply Forall_app. auto.
      * simpl in Hf. lia.
      * rewrite link_at_snoc, prev_at_snoc in Hrun. rewrite Hn. eauto.
Qed.

(** *** Waking threads *)

(** [σ'] is [σ] with the threads of [ws] woken with token [tok], and at most
    the links of bucket [b], whose nodes are among [l], changed. *)
Record woken (b : nat) (l ws : list Z) (tok : UnparkToken) (σ σ' : lot) : Prop := {
  woken_keep p : p ∉ ws → set_next 0 (heap σ' p) = set_next 0 (heap σ p);
  woken_set p : p ∈ ws →
    set_next 0 (heap σ' p) = set_parked false (set_token tok (set_next 0 (heap σ p)));
  woken_node p : p ∉ l → heap σ' p = heap σ p;
  woken_bucket b' : b' ≠ b → buckets σ' b' = buckets σ b';
}.

Lemma frame_woken b l tok σ σ' : frame b l σ σ' → woken b l [] tok σ σ'.
Proof. intros [Hd Hn Hb _]. split; [done|set_solver|done|done]. Qed.

Lemma woken_trans b l ws1 ws2 tok σ1 σ2 σ3 :
  ws1 ## ws2 → woken b l ws1 tok σ1 σ2 → woken b l ws2 tok σ2 σ3 →
  woken b l (ws1 ++ ws2) tok σ1 σ3.
Proof.
  intros Hd [K1 S1 N1 B1] [K2 S2 N2 B2]. split.
  - intros p Hp. rewrite K2, K1 by set_solver. done.
  - intros p [Hp|Hp]%elem_of_app.
    + rewrite K2, S1 by set_solver. done.
    + rewrite S2, K1 by set_solver. done.
  - intros p Hp. by rewrite N2, N1.
  - intros b' Hb'. by rewrite B2, B1.
Qed.

Lemma woken_weaken b l l' ws tok σ σ' :
  l ⊆ l' → woken b l ws tok σ σ' → woken b l' ws tok σ σ'.
Proof.
  intros Hl [K S N B]. split; [done|done| |done]. intros p Hp. apply N. set_solver.
Qed.

Lemma wake_woken b l tok p σ : p ∈ l → woken b l [p] tok σ (Ptr.wake tok p σ).
Proof.
  intros Hp. split; simpl.
  - intros q Hq. assert (p ≠ q) by set_solver. by fn_simp.
  - intros q ->%list_elem_of_singleton. fn_simp. by destruct (heap σ p).
  - intros q Hq. assert (p ≠ q) by set_solver. by fn_simp.
  - done.
Qed.

Lemma wake_queue σ b l tok p : p ∉ l → is_queue σ b l → is_queue (Ptr.wake tok p σ) b l.
Proof. intros Hp Hq. by repeat (apply is_queue_upd_notin; [exact Hp|]). Qed.

Lemma wake_all_woken b l tok ws σ :
  NoDup ws → ws ⊆ l → woken b l ws tok σ (Ptr.wake_all tok ws σ).
Proof.
  unfold Ptr.wake_all. intros Hnd. revert σ.
  induction Hnd as [|p ws Hp Hnd IH]; intros σ Hl; simpl.
  - apply frame_woken, frame_refl.
  - change (p :: ws) with ([p] ++ ws). eapply woken_trans; [set_solver| |apply IH; set_solver].
    apply wake_woken. set_solver.
Qed.

Lemma wake_all_queue σ b l tok ws :
  (∀ p, p ∈ ws → p ∉ l) → is_queue σ b l → is_queue (Ptr.wake_all tok ws σ) b l.
Proof.
  unfold Ptr.wake_all. revert σ. induction ws as [|p ws IH]; intros σ Hd Hq; [done|].
  apply IH; [set_solver|]. apply wake_queue; [set_solver|done].
Qed.

(** Reading the key or park token of a node after an unlink or a wake. *)
Lemma woken_key b l ws tok σ σ' p :
  woken b l ws tok σ σ' → key (heap σ' p) = key (heap σ p).
Proof.
  intros [K S _ _]. destruct (decide (p ∈ ws)) as [Hp|Hp].
  - exact (f_equal key (S p Hp)).
  - exact (f_equal key (K p Hp)).
Qed.

Lemma is_queue_disjoint_cur σ b pre c suf :
  is_queue σ b (pre ++ c :: suf) → c ∉ pre ++ suf.
Proof. intros Hq. apply is_queue_cur in Hq. set_solver. Qed.

Lemma unpark_all_loop_spec fuel κ σ b k tok pre suf ws :
  (∀ p, key (heap σ p) = κ p) →
  is_queue σ b (pre ++ suf) → (length suf < fuel)%nat →
  ∃ σ', Ptr.unpark_all_loop fuel b k tok (link_at b pre) (cur_at suf) (prev_at pre) ws σ
          = Some (ws ++ filter (λ p, κ p = k) suf, σ') ∧
        is_queue σ' b (pre ++ filter (λ p, κ p ≠ k) suf) ∧
        woken b (pre ++ suf) (filter (λ p, κ p = k) suf) tok σ σ'.
Proof.
  revert fuel σ pre ws. induction suf as [|c suf IH]; intros [|fuel] σ pre ws Hκ Hq Hf;
    try (simpl in Hf; lia); cbn [Ptr.unpark_all_loop]; rewrite ?cur_at_nil, ?cur_at_cons.
  - exists σ. rewrite !filter_nil, (right_id_L [] (++)).
    auto using frame_woken, frame_refl.
  - destruct (is_queue_cur _ _ _ _ _ Hq) as (Hc & _ & _ & Hn & _).
    destruct (Z.eqb_spec c 0) as [|_]; [done|]. rewrite Hκ.
    destruct (Z.eqb_spec (κ c) k) as [Hk|Hk].
    + destruct (unlink_spec _ _ _ _ _ Hq) as [Hq' Hfr]. rewrite Hn.
      set (σ1 := Ptr.wake tok c (Ptr.unlink b (link_at b pre) c (prev_at pre) σ)).
      assert (Hw : woken b (pre ++ c :: suf) [c] tok σ σ1).
      { change [c] with ([] ++ [c]). eapply woken_trans; [set_solver| |].
        - eapply woken_weaken; [|by apply frame_woken, Hfr]. set_solver.
        - apply wake_woken. set_solver. }
      destruct (IH fuel σ1 pre (ws ++ [c])) as (σ' & Hrun & Hq2 & Hw2).
      * intros p. rewrite (woken_key _ _ _ _ _ _ p Hw). apply Hκ.
      * apply wake_queue, Hq'. by eapply is_queue_disjoint_cur.
      * simpl in Hf. lia.
      * exists σ'. rewrite (filter_cons_True (λ p, κ p = k)) by done.
        rewrite (filter_cons_False (λ p, κ p ≠ k)) by tauto.
        rewrite Hrun, <- (assoc_L (++)). split; [done|]. split; [done|].
        change (c :: filter _ suf) with ([c] ++ filter (λ p, κ p = k) suf).
        eapply woken_trans; [|exact Hw|].
        -- intros p ->%list_elem_of_singleton [_ Hp]%list_elem_of_filter.
           apply is_queue_disjoint_cur in Hq. set_solver.
        -- eapply woken_weaken; [|exact Hw2]. set_solver.
    + rewrite (filter_cons_False (λ p, κ p = k)) by done.
      rewrite (filter_cons_True (λ p, κ p ≠ k)) by done.
      rewrite (cons_middle c pre suf), (assoc_L (++)) in Hq |- *.
      destruct (IH fuel σ (pre ++ [c]) ws Hκ Hq) as (σ' & Hrun & Hq2 & Hw2);
        [simpl in Hf; lia|].
      rewrite link_at_snoc, prev_at_snoc in Hrun. rewrite Hn.
      exists σ'. rewrite <- (assoc_L (++)) in Hq2. done.
Qed.

Lemma unpark_filter_loop_spec {E} fuel κ τ σ b k (filt : E → ParkToken → FilterOp * E)
    pre suf ws more e :
  (∀ p, key (heap σ p) = κ p) → (∀ p, park_token (heap σ p) = τ p) →
  is_queue σ b (pre ++ suf) → (length suf < fuel)%nat →
  let '(w, r, m, e') := Spec.unpark_filter κ τ filt k e suf in
  ∃ σ', Ptr.unpark_filter_loop fuel b k filt (link_at b pre) (cur_at suf) (prev_at pre)
          ws more e σ = Some (ws ++ w, more || m, e', σ') ∧
        is_queue σ' b (pre ++ r) ∧ frame b (pre ++ suf) σ σ'.
Proof.
  revert fuel σ pre ws more e.
  induction suf as [|c suf IH]; intros [|fuel] σ pre ws more e Hκ Hτ Hq Hf;
    try (simpl in Hf; lia); cbn [Ptr.unpark_filter_loop Spec.unpark_filter];
    rewrite ?cur_at_nil, ?cur_at_cons.
  { exists σ. rewrite (right_id_L [] (++)), orb_false_r. auto using frame_refl. }
  destruct (is_queue_cur _ _ _ _ _ Hq) as (Hc & _ & _ & Hn & _).
  destruct (Z.eqb_spec c 0) as [|_]; [done|]. rewrite Hκ, Hτ, Hn.
  assert (Hlen : (length suf < fuel)%nat) by (simpl in Hf; lia).
  (* [c] stays in the queue: move past it *)
  assert (Hstay : ∀ more' e1, let '(w, r, m, e') := Spec.unpark_filter κ τ filt k e1 suf in
    ∃ σ', Ptr.unpark_filter_loop fuel b k filt (LinkNext c) (cur_at suf) c ws more' e1 σ
            = Some (ws ++ w, more' || m, e', σ') ∧
          is_queue σ' b (pre ++ c :: r) ∧ frame b (pre ++ c :: suf) σ σ').
  { intros more' e1. rewrite (cons_middle c pre suf), (assoc_L (++)) in Hq |- *.
    specialize (IH fuel σ (pre ++ [c]) ws more' e1 Hκ Hτ Hq Hlen).
    destruct (Spec.unpark_filter κ τ filt k e1 suf) as [[[w r] m] e'].
    rewrite link_at_snoc, prev_at_snoc in IH.
    by rewrite (cons_middle c pre r), (assoc_L (++)). }
  destruct (Z.eqb_spec (κ c) k) as [Hk|Hk];
    [rewrite decide_True by done|rewrite decide_False by done].
  2:{ specialize (Hstay more e).
      by destruct (Spec.unpark_filter κ τ filt k e suf) as [[[w r] m] e']. }
  destruct (filt e (τ c)) as [[] e1].
  - destruct (unlink_spec _ _ _ _ _ Hq) as [Hq' Hfr].
    set (σ1 := Ptr.unlink b (link_at b pre) c (prev_at pre) σ) in *.
    specialize (IH fuel σ1 pre (ws ++ [c]) more e1).
    destruct (Spec.unpark_filter κ τ filt k e1 suf) as [[[w r] m] e'].
    destruct IH as (σ' & Hrun & Hq2 & Hfr2); [| |done|done|].
    + intros p. by rewrite (frame_keys _ _ _ _ p Hfr).
    + intros p. by destruct (frame_fields _ _ _ _ p Hfr) as (_ & -> & _).
    + exists σ'. rewrite Hrun, <- (assoc_L (++)). split; [done|]. split; [done|].
      eapply frame_trans; eapply frame_weaken; [|exact Hfr| |exact Hfr2]; set_solver.
  - specialize (Hstay true e1).
    destruct (Spec.unpark_filter κ τ filt k e1 suf) as [[[w r] m] e'].
    rewrite orb_true_r. exact Hstay.
  - exists σ. rewrite (right_id_L [] (++)), orb_true_r. auto using frame_refl.
Qed.

(** *** Requeueing *)

(** The scan of [unpark_requeue] from a position with [suf] ahead, with
    [wk] to wake and [m] to move so far. *)
Fixpoint requeue_scan (κ : Z → Z) (op : RequeueOp) (k : Z) (wk : option Z)
    (m suf : list Z) : option Z * list Z * list Z * bool :=
  match suf with
  | [] => (wk, m, [], false)
  | c :: suf =>
      if decide (κ c = k) then
        let '(wk, m) := if wakes_first op && bool_decide (wk = None)
                        then (Some c, m) else (wk, m ++ [c]) in
        if only_one op then (wk, m, suf, Spec.waiting κ k suf)
        else requeue_scan κ op k wk m suf
      else
        let '(wk, m, r, more) := requeue_scan κ op k wk m suf in (wk, m, c :: r, more)
  end.

Lemma requeue_scan_all κ op k wk m suf :
  only_one op = false → wakes_first op && bool_decide (wk = None) = false →
  requeue_scan κ op k wk m suf =
    (wk, m ++ filter (λ p, κ p = k) suf, filter (λ p, κ p ≠ k) suf, false).
Proof.
  intros Ho Hw. revert m. induction suf as [|c suf IH]; intros m; cbn [requeue_scan].
  - by rewrite !filter_nil, app_nil_r.
  - case_decide as Hk.
    + rewrite Hw, Ho, IH, (filter_cons_True (λ p, κ p = k)),
        (filter_cons_False (λ p, κ p ≠ k)) by tauto.
      by rewrite <- (assoc_L (++)).
    + rewrite IH, (filter_cons_False (λ p, κ p = k)),
        (filter_cons_True (λ p, κ p ≠ k)) by tauto. done.
Qed.

(** The scan computes what the specification asks for. *)
Lemma requeue_scan_spec κ op k l :
  requeue_scan κ op k None [] l = Spec.unpark_requeue κ op k l.
Proof.
  unfold Spec.unpark_requeue, Spec.unpark_all.
  destruct (only_one op) eqn:Ho.
  - induction l as [|c l IH]; simpl; [done|]. rewrite Ho.
    case_decide; [by destruct op; simplify_eq/=|].
    rewrite IH. destruct (Spec.pop_first κ k l) as [[p l']|] eqn:Hp; [|done].
    replace (Spec.waiting κ k (c :: l')) with (Spec.waiting κ k l');
      [by destruct (wakes_first op)|].
    change (c :: l') with ([c] ++ l'). rewrite Spec.waiting_app, Spec.waiting_single.
    destruct (Z.eqb_spec (κ c) k); [done|]. by rewrite orb_false_l.
  - destruct (wakes_first op) eqn:Hw; [|by rewrite requeue_scan_all by (by rewrite ?Hw)].
    induction l as [|c l IH]; simpl; [done|]. rewrite Ho, Hw. simpl.
    case_decide.
    + rewrite requeue_scan_all by (by rewrite ?Hw).
      by rewrite (filter_cons_True (λ p, κ p = k)),
        (filter_cons_False (λ p, κ p ≠ k)) by tauto.
    + rewrite IH. by rewrite (filter_cons_False (λ p, κ p = k)),
        (filter_cons_True (λ p, κ p ≠ k)) by tauto.
Qed.

(** The private list of threads to move, and the counters. *)
Record rq_ok (r : Ptr.requeue) (wk : option Z) (m : list Z) (more : bool) (σ : lot)
    : Prop := {
  rq_ok_head : Ptr.rq_head r = cur_at m;
  rq_ok_tail : Ptr.rq_tail r = default 0 (last m);
  rq_ok_wakeup : Ptr.rq_wakeup r = wk;
  rq_ok_result : Ptr.rq_result r =
    MkUnparkResult (if wk is Some _ then 1 else 0) (Z.of_nat (length m)) more false;
  rq_ok_nodup : NoDup m;
  rq_ok_null : 0 ∉ m;
  rq_ok_lseg : ∃ q, lseg (heap σ) (cur_at m) m q;
}.

(** [σ'] is [σ] with the threads of [m] moved to key [k_to]. *)
Record requeued (b : nat) (l m : list Z) (k_to : Z) (σ σ' : lot) : Prop := {
  requeued_keep p : p ∉ m → set_next 0 (heap σ' p) = set_next 0 (heap σ p);
  requeued_move p : p ∈ m →
    set_next 0 (heap σ' p) = set_key k_to (set_next 0 (heap σ p));
  requeued_node p : p ∉ l → heap σ' p = heap σ p;
  requeued_bucket b' : b' ≠ b → buckets σ' b' = buckets σ b';
  requeued_fair : fair_timeout (buckets σ' b) = fair_timeout (buckets σ b);
}.

Lemma requeued_frame b l l' m k_to σ σ1 σ2 :
  l' ⊆ l → requeued b l m k_to σ σ1 → frame b l' σ1 σ2 → requeued b l m k_to σ σ2.
Proof.
  intros Hl [K M N B F] [D' N' B' F']. split.
  - intros p Hp. rewrite D'. by apply K.
  - intros p Hp. rewrite D'. by apply M.
  - intros p Hp. rewrite N' by set_solver. by apply N.
  - intros b' Hb'. rewrite B' by done. by apply B.
  - by rewrite F'.
Qed.

Lemma rq_ok_frame b l r wk m more σ σ' :
  (∀ p, p ∈ m → p ∉ l) → frame b l σ σ' → rq_ok r wk m more σ → rq_ok r wk m more σ'.
Proof.
  intros Hd Hfr [H1 H2 H3 H4 H5 H6 [q H7]]. split; try done. exists q.
  eapply lseg_ext; [|exact H7]. intros a Ha. by rewrite (frame_node _ _ _ _ Hfr a (Hd a Ha)).
Qed.

Lemma lseg_snoc_upd h p m q c :
  NoDup m → c ∉ m → c ≠ 0 → m ≠ [] → lseg h p m q →
  ∀ n, lseg (<[c := n]> (<[default 0 (last m) := set_next c (h (default 0 (last m)))]> h))
         p (m ++ [c]) (next_in_queue n).
Proof.
  intros Hnd Hc Hc0 Hm Hl n.
  destruct m as [|a m _] using rev_ind; [done|]. rewrite last_snoc in *. simpl.
  apply lseg_app. exists c. split; [|simpl; fn_simp; done].
  eapply lseg_ext; [|eapply (lseg_set_last _ _ _ _ _ c); done].
  intros d Hd. assert (c ≠ d) by set_solver. by fn_simp.
Qed.

Lemma requeue_push_ok r wk m more σ c k_to :
  c ≠ 0 → c ∉ m → rq_ok r wk m more σ →
  rq_ok (Ptr.requeue_push c k_to r σ).1 wk (m ++ [c]) more (Ptr.requeue_push c k_to r σ).2.
Proof.
  intros Hc Hcm [H1 H2 H3 H4 H5 H6 [q H7]]. unfold Ptr.requeue_push.
  rewrite H4, H3, H1, H2. cbn [fst snd].
  assert (Hz : (cur_at m =? 0) = bool_decide (m = [])).
  { destruct m as [|a m]; [done|]. apply Z.eqb_neq. rewrite cur_at_cons. set_solver. }
  rewrite Hz. split; cbn.
  - case_bool_decide as Hm; simpl; [by subst|]. by destruct m.
  - by rewrite last_snoc.
  - done.
  - rewrite length_app. simpl. f_equal. lia.
  - apply NoDup_app. repeat split; [done|set_solver|apply NoDup_singleton].
  - set_solver.
  - exists (next_in_queue (set_key k_to (heap (if negb (bool_decide (m = []))
       then upd_node (default 0 (last m)) (set_next c) σ else σ) c))).
    case_bool_decide as Hm; simpl.
    + subst. simpl. fn_simp. done.
    + replace (cur_at (m ++ [c])) with (cur_at m) by (by destruct m).
      exact (lseg_snoc_upd _ _ _ _ _ H5 Hcm Hc Hm H7
        (set_key k_to (heap (upd_node (default 0 (last m)) (set_next c) σ) c))).
Qed.

Lemma requeue_push_queue r wk m more σ c k_to b l :
  rq_ok r wk m more σ → c ∉ l → (∀ p, p ∈ m → p ∉ l) →
  is_queue σ b l → is_queue (Ptr.requeue_push c k_to r σ).2 b l.
Proof.
  intros [H1 H2 _ _ _ H6 _] Hc Hd Hq. unfold Ptr.requeue_push. cbn [snd].
  apply is_queue_upd_notin; [done|]. rewrite H1, H2.
  destruct m as [|a m _] using rev_ind; [done|].
  destruct (cur_at (m ++ [a]) =? 0); [done|]. cbn.
  apply is_queue_upd_notin; [|done]. rewrite last_snoc. apply Hd. set_solver.
Qed.

Lemma requeue_push_requeued r wk m more σ0 σ c k_to b l :
  rq_ok r wk m more σ → m ⊆ l → c ∈ l → c ∉ m →
  requeued b l m k_to σ0 σ → requeued b l (m ++ [c]) k_to σ0 (Ptr.requeue_push c k_to r σ).2.
Proof.
  intros [H1 H2 _ _ _ H6 _] Hm Hc Hcm Hrq. unfold Ptr.requeue_push. cbn [snd].
  rewrite H1, H2.
  set (σ1 := if negb (cur_at m =? 0) then _ else σ).
  assert (Hfr : frame b m σ σ1).
  { subst σ1. destruct m as [|a m _] using rev_ind; [by apply frame_refl|].
    destruct (cur_at (m ++ [a]) =? 0); [by apply frame_refl|]. cbn.
    rewrite last_snoc. cbn. split; cbn; [| |done|done].
    - intros p. fn_cases a p; [by destruct (heap σ p)|done].
    - intros p Hp. assert (a ≠ p) by set_solver. by fn_simp. }
  apply (requeued_frame _ _ _ _ _ _ _ _ Hm Hrq) in Hfr as [K M N B F].
  split; cbn; [| | |done|done].
  - intros p Hp. assert (c ≠ p) by set_solver. fn_simp. apply K. set_solver.
  - intros p [Hp|Hp%list_elem_of_singleton]%elem_of_app; [|subst p].
    + assert (c ≠ p) by set_solver. fn_simp. by apply M.
    + fn_simp. specialize (K c Hcm). destruct (heap σ1 c), (heap σ0 c).
      by simplify_eq/=.
  - intros p Hp. assert (c ≠ p) by set_solver. fn_simp. by apply N.
Qed.
End refinement.
