(* ===== verification/BucketRefine.v ===== *)
(** * The bucket queue operations implement their specification

    The refinement theorems of [BucketQueue]: on a bucket whose linked list
    represents the list [l], each operation of [Ptr] terminates (a fuel of
    one more than the length of the queue is enough), returns what [Spec]
    says, and leaves a well-formed queue and every other thread and bucket as
    they were. *)

From S2P Require Import Prelude LotTypes FairTimeout BucketQueue.
Local Open Scope Z_scope.

Section requeue.
Implicit Types (σ : lot) (b : nat) (k : Z) (l pre suf : list Z).

Lemma waiting_ext κ κ' k l :
  (∀ p, p ∈ l → κ p = κ' p) → Spec.waiting κ k l = Spec.waiting κ' k l.
Proof.
  intros H. unfold Spec.waiting. apply bool_decide_ext. rewrite !Exists_exists.
  split; intros (p & Hp & Hk); exists p; (split; [done|]).
  - by rewrite <- H.
  - by rewrite H.
Qed.

Lemma rq_set_more r wk m more more' σ :
  rq_ok r wk m more σ →
  rq_ok (Ptr.MkRequeue (Ptr.rq_head r) (Ptr.rq_tail r) (Ptr.rq_wakeup r)
           (MkUnparkResult (unparked_threads (Ptr.rq_result r))
              (requeued_threads (Ptr.rq_result r)) more' (be_fair (Ptr.rq_result r))))
    wk m more' σ.
Proof. intros [H1 H2 H3 H4 H5 H6 H7]. rewrite H4. by split. Qed.

Lemma rq_set_wakeup r m σ c :
  rq_ok r None m false σ →
  rq_ok (Ptr.MkRequeue (Ptr.rq_head r) (Ptr.rq_tail r) (Some c)
           (MkUnparkResult 1 (requeued_threads (Ptr.rq_result r))
              (have_more_threads (Ptr.rq_result r)) (be_fair (Ptr.rq_result r))))
    (Some c) m false σ.
Proof. intros [H1 H2 H3 H4 H5 H6 H7]. rewrite H4. by split. Qed.

(** What the scan keeps true of the threads it has passed. *)
Record scan_ok b l (κ : Z → Z) k_to (q : list Z) r wk m σ0 σ : Prop := {
  so_keys p : p ∈ q → key (heap σ p) = κ p;
  so_queue : is_queue σ b q;
  so_sub : q ⊆ l;
  so_msub : m ⊆ l;
  so_disj p : p ∈ m → p ∉ q;
  so_rq : rq_ok r wk m false σ;
  so_requeued : requeued b l m k_to σ0 σ;
}.

(** Unlinking the thread at the position, then waking or moving it. *)
Lemma requeue_take b l κ k_to pre c suf r wk m σ0 σ op :
  scan_ok b l κ k_to (pre ++ c :: suf) r wk m σ0 σ →
  let σ1 := Ptr.unlink b (link_at b pre) c (prev_at pre) σ in
  let '(r2, σ2) :=
    if wakes_first op && bool_decide (Ptr.rq_wakeup r = None) then
      (Ptr.MkRequeue (Ptr.rq_head r) (Ptr.rq_tail r) (Some c)
         (MkUnparkResult 1 (requeued_threads (Ptr.rq_result r))
            (have_more_threads (Ptr.rq_result r)) (be_fair (Ptr.rq_result r))), σ1)
    else Ptr.requeue_push c k_to r σ1 in
  let '(wk2, m2) := if wakes_first op && bool_decide (wk = None)
                    then (Some c, m) else (wk, m ++ [c]) in
  scan_ok b l κ k_to (pre ++ suf) r2 wk2 m2 σ0 σ2.
Proof.
  intros [Hκ Hq Hl Hml Hd Hr Hrq].
  destruct (is_queue_cur _ _ _ _ _ Hq) as (Hc & _).
  assert (Hcq : c ∉ pre ++ suf) by (by eapply is_queue_disjoint_cur).
  assert (Hcm : c ∉ m) by (intros Hcm; apply (Hd c Hcm); set_solver).
  destruct (unlink_spec _ _ _ _ _ Hq) as [Hq1 Hfr]. cbv zeta.
  set (σ1 := Ptr.unlink _ _ _ _ σ) in *.
  assert (Hr1 : rq_ok r wk m false σ1).
  { eapply rq_ok_frame; [|exact Hfr|done]. set_solver. }
  assert (Hrq1 : requeued b l m k_to σ0 σ1).
  { eapply requeued_frame; [|exact Hrq|exact Hfr]. set_solver. }
  assert (Hκ1 : ∀ p, p ∈ pre ++ suf → key (heap σ1 p) = κ p).
  { intros p Hp. rewrite (frame_keys _ _ _ _ p Hfr). apply Hκ. set_solver. }
  rewrite (rq_ok_wakeup _ _ _ _ _ Hr).
  destruct (wakes_first op && bool_decide (wk = None)) eqn:E.
  - apply andb_true_iff in E as [_ ->%bool_decide_eq_true].
    split; try done; [set_solver|set_solver|by apply rq_set_wakeup].
  - pose proof (requeue_push_ok r wk m false σ1 c k_to Hc Hcm Hr1) as Hr2.
    pose proof (requeue_push_queue r wk m false σ1 c k_to b _ Hr1 Hcq
                  ltac:(set_solver) Hq1) as Hq2.
    pose proof (requeue_push_requeued r wk m false σ0 σ1 c k_to b l Hr1 Hml
                  ltac:(set_solver) Hcm Hrq1) as Hrq2.
    destruct (Ptr.requeue_push c k_to r σ1) as [r2 σ2] eqn:Ep. cbn in *.
    split; try done; [|set_solver|set_solver|set_solver].
    intros p Hp. assert (p ∉ m ++ [c]) by set_solver.
    assert (p ∉ m) by set_solver.
    rewrite <- (Hκ1 p Hp).
    exact (f_equal key (eq_trans (requeued_keep _ _ _ _ _ _ Hrq2 p ltac:(done))
                          (eq_sym (requeued_keep _ _ _ _ _ _ Hrq1 p ltac:(done))))).
Qed.

Lemma unpark_requeue_loop_spec fuel b l κ k k_to op pre suf r wk m σ0 σ :
  scan_ok b l κ k_to (pre ++ suf) r wk m σ0 σ → (length suf < fuel)%nat →
  let '(wk', m', rest, more) := requeue_scan κ op k wk m suf in
  ∃ r' σ',
    Ptr.unpark_requeue_loop fuel b k k_to op (link_at b pre) (cur_at suf) (prev_at pre) r σ
      = Some (r', σ') ∧
    rq_ok r' wk' m' more σ' ∧ is_queue σ' b (pre ++ rest) ∧
    requeued b l m' k_to σ0 σ' ∧ m' ⊆ l ∧ (∀ p, p ∈ m' → p ∉ pre ++ rest).
Proof.
  revert fuel pre r wk m σ.
  induction suf as [|c suf IH]; intros [|fuel] pre r wk m σ Hok Hf;
    try (simpl in Hf; lia); cbn [Ptr.unpark_requeue_loop requeue_scan];
    rewrite ?cur_at_nil, ?cur_at_cons.
  { destruct Hok. eauto 10. }
  pose proof Hok as [Hκ Hq Hl _ _ Hr _].
  destruct (is_queue_cur _ _ _ _ _ Hq) as (Hc & _ & _ & Hn & _).
  destruct (Z.eqb_spec c 0) as [|_]; [done|].
  rewrite Hκ by set_solver. rewrite Hn.
  assert (Hlen : (length suf < fuel)%nat) by (simpl in Hf; lia).
  destruct (Z.eqb_spec (κ c) k) as [Hk|Hk];
    [rewrite decide_True by done|rewrite decide_False by done].
  - pose proof (requeue_take _ _ _ _ _ _ _ _ _ _ _ _ op Hok) as Htk. cbv zeta in Htk |- *.
    destruct (if wakes_first op && bool_decide (Ptr.rq_wakeup r = None) then _ else _)
      as [r2 σ2].
    destruct (if wakes_first op && bool_decide (wk = None) then _ else _) as [wk2 m2].
    destruct (only_one op).
    + destruct Htk as [Hκ2 Hq2 Hl2 Hml2 Hd2 Hr2 Hrq2].
      rewrite (scan_spec _ _ suf) by (eauto using is_queue_suffix with lia).
      do 2 eexists. split; [done|]. split; [|done].
      assert (Hw : bool_decide (Exists (λ q, key (heap σ2 q) = k) suf) =
                   Spec.waiting κ k suf).
      { apply (waiting_ext (λ p, key (heap σ2 p)) κ). set_solver. }
      rewrite Hw. rewrite (rq_ok_result _ _ _ _ _ Hr2) at 3. cbn.
      destruct (Spec.waiting κ k suf); by eapply rq_set_more.
    + by apply (IH fuel pre r2 wk2 m2 σ2).
  - rewrite (cons_middle c pre suf), (assoc_L (++)) in Hok.
    specialize (IH fuel (pre ++ [c]) r wk m σ Hok Hlen).
    destruct (requeue_scan κ op k wk m suf) as [[[wk' m'] rest] more].
    rewrite link_at_snoc, prev_at_snoc, <- (assoc_L (++)) in IH. exact IH.
Qed.
End requeue.

(** ** The whole table *)

(** Every bucket [b] holds the threads [L b], in this order, and no thread
    is in two buckets. *)
Definition all_queues (σ : lot) (L : nat → list Z) : Prop :=
  (∀ b, is_queue σ b (L b)) ∧
  (∀ b b' p, b ≠ b' → p ∈ L b → p ∉ L b').

Lemma is_queue_ext σ σ' b l :
  (∀ p, p ∈ l → next_in_queue (heap σ' p) = next_in_queue (heap σ p)) →
  queue_head (buckets σ' b) = queue_head (buckets σ b) →
  queue_tail (buckets σ' b) = queue_tail (buckets σ b) →
  is_queue σ b l → is_queue σ' b l.
Proof.
  intros Hn Hh Ht (Hnd & Hl & Htl). split; [done|]. rewrite Hh, Ht. split; [|done].
  by eapply lseg_ext.
Qed.

(** An operation on bucket [b] that only touches the nodes of that bucket. *)
Lemma all_queues_local σ σ' L b l' :
  all_queues σ L → is_queue σ' b l' → l' ⊆ L b →
  (∀ p, p ∉ L b → heap σ' p = heap σ p) →
  (∀ b', b' ≠ b → buckets σ' b' = buckets σ b') →
  all_queues σ' (<[b := l']> L).
Proof.
  intros [HQ HD] Hq Hl Hn Hb. split.
  - intros b'. fn_cases b b'; [done|]. eapply is_queue_ext; [..|apply HQ].
    + intros p Hp. rewrite Hn; [done|]. by apply (HD b').
    + by rewrite Hb.
    + by rewrite Hb.
  - intros b1 b2 p Hne. rewrite !fn_insert_case. repeat case_decide; subst; try done.
    + intros Hp. by apply (HD b1), Hl.
    + intros Hp Hp2. by apply (HD b1 b2 p Hne Hp), Hl.
    + by apply HD.
Qed.

Lemma should_timeout_bucket now b σ :
  Ptr.should_timeout now b σ =
    let f := FairTimeout.should_timeout now (fair_timeout (buckets σ b)) in
    (f.1, upd_bucket b (set_fair f.2) σ).
Proof. unfold Ptr.should_timeout. by destruct (FairTimeout.should_timeout _ _). Qed.

Lemma set_fair_queue σ b ft b' l :
  is_queue σ b' l → is_queue (upd_bucket b (set_fair ft) σ) b' l.
Proof.
  intros Hq. eapply is_queue_ext; [..|exact Hq]; simpl; [done| |];
    fn_cases b b'; done.
Qed.

(** Renewing the fair timeout of the bucket goes unnoticed. *)
Lemma fair_woken b l ws tok ft σ σ' :
  woken b l ws tok σ σ' → woken b l ws tok σ (upd_bucket b (set_fair ft) σ').
Proof.
  intros [K S N B]. split; simpl; [done|done|done|]. intros b' Hb'. fn_simp. by apply B.
Qed.

Lemma woken_local b ws tok σ σ' L l' :
  all_queues σ L → is_queue σ' b l' → l' ⊆ L b → woken b (L b) ws tok σ σ' →
  all_queues σ' (<[b := l']> L) ∧ woken b (L b) ws tok σ σ'.
Proof.
  intros HA Hq Hl Hw. split; [|done]. by eapply all_queues_local; [..|apply Hw|apply Hw].
Qed.

Lemma all_queues_eq σ L L' : (∀ b, L b = L' b) → all_queues σ L → all_queues σ L'.
Proof.
  intros He [HQ HD]. split; intros b; rewrite <- !He; [done|].
  intros b' p. rewrite <- He. apply HD.
Qed.

Lemma all_queues_same σ σ' L b :
  all_queues σ L → is_queue σ' b (L b) →
  (∀ p, p ∉ L b → heap σ' p = heap σ p) →
  (∀ b', b' ≠ b → buckets σ' b' = buckets σ b') → all_queues σ' L.
Proof.
  intros HA Hq Hn Hb. eapply (all_queues_eq _ (<[b := L b]> L)).
  - intros b'. apply fn_insert_id.
  - by eapply all_queues_local.
Qed.

Section refinement.
Context {C : Type}.
Implicit Types (σ : lot) (L : nat → list Z) (c : C).

Lemma park_enqueue_all σ L b p k tok timed :
  all_queues σ L → p ≠ 0 → (∀ b', p ∉ L b') →
  all_queues (Ptr.park_enqueue b p k tok timed σ) (<[b := L b ++ [p]]> L).
Proof.
  intros [HQ HD] Hp0 Hp. split.
  - intros b'. fn_cases b b'; [by apply park_enqueue_queue|].
    assert (Htail : queue_tail (buckets σ b) ∉ L b').
    { destruct (HQ b) as (_ & Hl & ->). destruct (last (L b)) as [a|] eqn:E; simpl.
      - apply last_Some_elem_of in E. by apply (HD b).
      - destruct (HQ b') as (_ & Hl' & _). by eapply lseg_nonnull. }
    eapply is_queue_ext; [..|apply HQ]; unfold Ptr.park_enqueue; simpl.
    + intros q Hq. assert (p ≠ q) by (intros ->; by apply (Hp b')).
      assert (queue_tail (buckets σ b) ≠ q) by (intros <-; done).
      destruct (queue_head (buckets σ b) =? 0); simpl; by fn_simp.
    + destruct (queue_head (buckets σ b) =? 0); simpl; by fn_simp.
    + destruct (queue_head (buckets σ b) =? 0); simpl; by fn_simp.
  - intros b1 b2 q Hne. rewrite !fn_insert_case.
    repeat case_decide; subst; try done; intros Hq Hq'.
    + apply elem_of_app in Hq as [Hq|Hq]; [by apply (HD b1 b2 q)|].
      apply list_elem_of_singleton in Hq as ->. by apply (Hp b2).
    + apply elem_of_app in Hq' as [Hq'|Hq']; [by apply (HD b1 b2 q)|].
      apply list_elem_of_singleton in Hq' as ->. by apply (Hp b1).
    + by apply (HD b1 b2 q).
Qed.

(** C19: A thread whose timeout has expired removes itself from its bucket:
    the removal terminates, it unlinks that thread only and keeps the order of
    the others, [was_last_thread] is true exactly when no other thread of the
    bucket is parked on the key, and no token, key or other bucket changes. *)
Theorem park_dequeue_refines fuel σ L b me k :
  all_queues σ L → (length (L b) < fuel)%nat →
  let '(r, l') := Spec.park_dequeue (keys σ) me k (L b) in
  ∃ σ', Ptr.park_dequeue fuel b me k σ = Some (r, σ') ∧
        all_queues σ' (<[b := l']> L) ∧ frame b (L b) σ σ'.
Proof.
  intros HA Hf. pose proof (proj1 HA b) as Hq.
  destruct (park_dequeue_loop_spec fuel σ b me k [] (L b) Hq) as (σ' & Hrun & Hq' & Hfr);
    [set_solver|done|]. cbn [app] in *. rewrite Spec.waiting_nil in Hrun.
  destruct (Spec.park_dequeue (keys σ) me k (L b)) as [r l'] eqn:E. exists σ'. split.
  - cbn [fst] in Hrun. rewrite <- Hrun.
    unfold Ptr.park_dequeue. by rewrite (is_queue_end _ _ _ Hq).
  - split; [|done]. eapply all_queues_local; [done|done| |apply Hfr|apply Hfr].
    unfold Spec.park_dequeue in E. case_decide; simplify_eq; [|done].
    apply filter_sub.
Qed.

(** C17: [unpark_one] on a well-formed table wakes the first thread parked on
    the key, in queue order, if there is one: it terminates, reports one
    unparked thread, whether another waits on the key and whether the unlock
    must be fair, hands over the token of the callback, and touches no other
    thread; with no such thread the table is unchanged and the callback sees
    the default result. *)
Theorem unpark_one_refines fuel now σ L b k (cb : UnparkResult → C → UnparkToken * C) c :
  all_queues σ L → (length (L b) < fuel)%nat →
  match Spec.unpark_one (keys σ) k (L b) with
  | (Some (p, more), l') =>
      let fair := (FairTimeout.should_timeout now (fair_timeout (buckets σ b))).1 in
      let res := MkUnparkResult 1 0 more fair in
      ∃ σ', Ptr.unpark_one fuel now b k cb σ c = Some (res, σ', (cb res c).2) ∧
            all_queues σ' (<[b := l']> L) ∧ woken b (L b) [p] (cb res c).1 σ σ'
  | (None, _) =>
      ∃ σ', Ptr.unpark_one fuel now b k cb σ c
              = Some (default_result, σ', (cb default_result c).2) ∧
            all_queues σ' L ∧ frame b (L b) σ σ'
  end.
Proof.
  intros HA Hf. pose proof (proj1 HA b) as Hq.
  destruct (unpark_one_loop_spec fuel σ b k [] (L b) Hq) as (σ1 & Hrun & Hq1 & Hfr);
    [done|done|]. simpl in Hrun, Hq1, Hfr.
  unfold link_at, prev_at in Hrun. simpl in Hrun. rewrite <- (is_queue_end _ _ _ Hq) in Hrun.
  unfold Ptr.unpark_one. rewrite Hrun. unfold Spec.unpark_one in *.
  destruct (Spec.pop_first (keys σ) k (L b)) as [[p l']|] eqn:E; cbn [fst snd] in *.
  - apply Spec.pop_first_sub in E as (Hp & Hl' & Hpl); [|apply Hq].
    rewrite should_timeout_bucket. cbv zeta. rewrite (frame_fair _ _ _ _ Hfr).
    set (f := FairTimeout.should_timeout _ _).
    set (res := MkUnparkResult _ _ _ _). destruct (cb res c) as [tok c'] eqn:Ecb.
    cbn [fst snd]. eexists. split; [done|]. apply woken_local; [done| |done|].
    + by apply wake_queue, set_fair_queue.
    + change [p] with ([] ++ [p]). eapply woken_trans; [set_solver| |by apply wake_woken].
      by apply fair_woken, frame_woken.
  - destruct (cb default_result c) as [tok c'] eqn:Ecb. eexists. split; [done|].
    split; [|done]. by eapply all_queues_same; [..|apply Hfr|apply Hfr].
Qed.

(** [unpark_all] wakes exactly the threads of the bucket parked on the
    key, all with the given token, returns their number, and leaves the others
    queued in the same order. *)
Theorem unpark_all_refines fuel σ L b k tok :
  all_queues σ L → (length (L b) < fuel)%nat →
  let '(ws, l') := Spec.unpark_all (keys σ) k (L b) in
  ∃ σ', Ptr.unpark_all fuel b k tok σ = Some (Z.of_nat (length ws), σ') ∧
        all_queues σ' (<[b := l']> L) ∧ woken b (L b) ws tok σ σ'.
Proof.
  intros HA Hf. pose proof (proj1 HA b) as Hq.
  destruct (unpark_all_loop_spec fuel (keys σ) σ b k tok [] (L b) [])
    as (σ' & Hrun & Hq' & Hw); [done..|]. cbn [app] in *.
  unfold link_at, prev_at in Hrun. cbn in Hrun. rewrite <- (is_queue_end _ _ _ Hq) in Hrun.
  unfold Spec.unpark_all, Ptr.unpark_all. rewrite Hrun. exists σ'. split; [done|].
  apply woken_local; [done|done|apply filter_sub|done].
Qed.

(** [unpark_filter] runs the filter on the park tokens in queue order,
    wakes exactly the threads it selects, stops where it says, reports their
    number and whether a thread was left, consults the fair timeout only if it
    wakes someone, and keeps the rest of the queue in order. *)
Theorem unpark_filter_refines {E} fuel now σ L b k (filt : E → ParkToken → FilterOp * E) e
    (cb : E → UnparkResult → C → UnparkToken * C) c :
  all_queues σ L → (length (L b) < fuel)%nat →
  let '(ws, l', more, e') := Spec.unpark_filter (keys σ) (tokens σ) filt k e (L b) in
  let fair := negb (bool_decide (ws = [])) &&
              (FairTimeout.should_timeout now (fair_timeout (buckets σ b))).1 in
  let res := MkUnparkResult (Z.of_nat (length ws)) 0 more fair in
  ∃ σ', Ptr.unpark_filter fuel now b k filt e cb σ c = Some (res, σ', (cb e' res c).2) ∧
        all_queues σ' (<[b := l']> L) ∧ woken b (L b) ws (cb e' res c).1 σ σ'.
Proof.
  intros HA Hf. pose proof (proj1 HA b) as Hq.
  pose proof (unpark_filter_loop_spec fuel (keys σ) (tokens σ) σ b k filt [] (L b) []
    false e ltac:(done) ltac:(done) Hq Hf) as Hloop.
  pose proof (Spec.filter_split (keys σ) (tokens σ) filt k e (L b) (proj1 Hq)) as Hsplit.
  destruct (Spec.unpark_filter _ _ filt k e (L b)) as [[[ws l'] more] e'].
  destruct Hloop as (σ1 & Hrun & Hq1 & Hfr). destruct Hsplit as (Hws & Hwl & Hl' & Hd).
  unfold link_at, prev_at in Hrun. cbn in Hrun. rewrite <- (is_queue_end _ _ _ Hq) in Hrun.
  unfold Ptr.unpark_filter. rewrite Hrun. cbv zeta.
  assert (Hn : (Z.of_nat (length ws) =? 0) = bool_decide (ws = [])).
  { destruct ws; [done|]. apply Z.eqb_neq. simpl. lia. }
  rewrite Hn, should_timeout_bucket, (frame_fair _ _ _ _ Hfr). cbv zeta.
  set (f := FairTimeout.should_timeout _ _).
  assert (Hend : ∀ σ2 tok, is_queue σ2 b l' → woken b (L b) [] tok σ σ2 →
    all_queues (Ptr.wake_all tok ws σ2) (<[b := l']> L) ∧
    woken b (L b) ws tok σ (Ptr.wake_all tok ws σ2)).
  { intros σ2 tok Hq2 Hw2. apply woken_local; [done|by apply wake_all_queue|done|].
    change ws with ([] ++ ws) at 1.
    eapply woken_trans; [set_solver|done|by apply wake_all_woken]. }
  destruct (bool_decide (ws = [])); cbn [negb andb].
  - set (res := MkUnparkResult _ _ _ _). destruct (cb e' res c) as [tok c'].
    eexists. split; [done|]. apply Hend; [done|]. by apply frame_woken.
  - set (res := MkUnparkResult _ _ _ _). destruct (cb e' res c) as [tok c'].
    eexists. split; [done|]. apply Hend; [by apply set_fair_queue|].
    by apply fair_woken, frame_woken.
Qed.
End refinement.

(** ** Appending the requeued threads to the destination *)

Section append.
Implicit Types (σ : lot) (L : nat → list Z) (m l : list Z).

Lemma is_queue_head_null σ b l :
  is_queue σ b l → (queue_head (buckets σ b) =? 0) = bool_decide (l = []).
Proof.
  intros (_ & Hl & _). rewrite (lseg_head _ _ _ _ Hl).
  pose proof (lseg_nonnull _ _ _ _ Hl). destruct l; [done|].
  apply Z.eqb_neq. simpl. set_solver.
Qed.

(** Linking a private segment behind a queue. *)
Lemma lseg_link h p l a m :
  NoDup (l ++ [a]) → (∀ q, q ∈ m → q ∉ l ++ [a]) →
  lseg h p (l ++ [a]) 0 → lseg h (cur_at m) m 0 →
  lseg (<[a := set_next (cur_at m) (h a)]> h) p ((l ++ [a]) ++ m) 0.
Proof.
  intros Hnd Hd Hl Hm. apply lseg_app. exists (cur_at m). split.
  - by eapply lseg_set_last.
  - eapply lseg_ext; [|exact Hm]. intros q Hq.
    assert (a ≠ q) by (intros ->; apply (Hd q Hq); set_solver). by fn_simp.
Qed.

Lemma rq_head_null r wk m more σ :
  rq_ok r wk m more σ → (Ptr.rq_head r =? 0) = bool_decide (m = []).
Proof.
  intros [H1 _ _ _ _ H6 _]. rewrite H1. destruct m; [done|].
  apply Z.eqb_neq. rewrite cur_at_cons. set_solver.
Qed.

(** The nodes keep everything but their links, and the buckets other than
    the destination, and all fair timeouts, are as before. *)
Record appended (b_to : nat) (l : list Z) (σ σ' : lot) : Prop := {
  appended_data p : set_next 0 (heap σ' p) = set_next 0 (heap σ p);
  appended_node p : p ∉ l → heap σ' p = heap σ p;
  appended_bucket b : b ≠ b_to → buckets σ' b = buckets σ b;
  appended_fair b : fair_timeout (buckets σ' b) = fair_timeout (buckets σ b);
}.

Lemma requeue_append_appended b_to r wk m more σ l :
  rq_ok r wk m more σ → is_queue σ b_to l →
  appended b_to (l ++ m) σ (Ptr.requeue_append b_to r σ).
Proof.
  intros Hr Hq. pose proof Hr as [H1 H2 _ _ _ _ _]. unfold Ptr.requeue_append.
  rewrite (rq_head_null _ _ _ _ _ Hr). case_bool_decide as Hm; [by split|].
  cbn [negb]. cbn [buckets upd_node].
  rewrite (is_queue_head_null _ _ _ Hq), H2.
  destruct Hq as (_ & _ & ->).
  destruct m as [|z m _] using rev_ind; [done|]. rewrite last_snoc.
  case_bool_decide as Hl; cbn [negb].
  - split; cbn.
    + intros p. fn_cases z p; [by destruct (heap σ p)|done].
    + intros p Hp. assert (z ≠ p) by set_solver. by fn_simp.
    + intros b Hb. by fn_simp.
    + intros b. by fn_cases b_to b.
  - destruct l as [|a l _] using rev_ind; [done|]. rewrite last_snoc. split; cbn.
    + intros p. fn_cases a p.
      * rewrite fn_insert_case. case_decide; subst; by destruct (heap σ p).
      * fn_cases z p; [by destruct (heap σ p)|done].
    + intros p Hp. assert (z ≠ p) by set_solver. assert (a ≠ p) by set_solver.
      by fn_simp.
    + intros b Hb. by fn_simp.
    + intros b. by fn_cases b_to b.
Qed.

Lemma requeue_append_queue b_to r wk m more σ l :
  rq_ok r wk m more σ → is_queue σ b_to l → (∀ p, p ∈ m → p ∉ l) →
  is_queue (Ptr.requeue_append b_to r σ) b_to (l ++ m).
Proof.
  intros Hr Hq Hd. pose proof Hr as [H1 H2 _ _ H5 _ [x H7]]. unfold Ptr.requeue_append.
  rewrite (rq_head_null _ _ _ _ _ Hr).
  case_bool_decide as Hm; [subst; by rewrite app_nil_r|].
  destruct m as [|z m _] using rev_ind; [done|]. cbn [negb]. rewrite H1, H2, last_snoc.
  change (default 0 (Some z)) with z. cbv zeta. set (σ1 := upd_node z (set_next 0) σ).
  assert (Hm1 : lseg (heap σ1) (cur_at (m ++ [z])) (m ++ [z]) 0)
    by (by eapply lseg_set_last).
  assert (Hq1 : is_queue σ1 b_to l) by (apply is_queue_upd_notin; [apply Hd; set_solver|done]).
  clearbody σ1. clear H1 H2 H7 Hr Hq σ. rename σ1 into σ.
  rewrite (is_queue_head_null _ _ _ Hq1). destruct Hq1 as (Hnd & Hl & Ht).
  assert (Hnd' : NoDup (l ++ m ++ [z])).
  { apply NoDup_app. split; [done|]. split; [|done].
    intros p Hp Hp'. by apply (Hd p). }
  split; [done|]. rewrite upd_bucket_eq. cbn [queue_tail set_tail].
  rewrite (assoc_L (++)), last_snoc. split; [|done]. rewrite <- (assoc_L (++)).
  case_bool_decide as Hl0; cbn [negb].
  - subst l. cbn. by fn_simp.
  - destruct l as [|a l _] using rev_ind; [done|]. rewrite Ht, last_snoc. cbn.
    by apply lseg_link.
Qed.

Lemma requeue_append_all b_to r wk m more σ L :
  all_queues σ L → rq_ok r wk m more σ → (∀ b p, p ∈ m → p ∉ L b) →
  all_queues (Ptr.requeue_append b_to r σ) (<[b_to := L b_to ++ m]> L).
Proof.
  intros [HQ HD] Hr Hd.
  pose proof (requeue_append_appended _ _ _ _ _ _ _ Hr (HQ b_to)) as [_ N B _]. split.
  - intros b. fn_cases b_to b; [apply (requeue_append_queue _ _ _ _ _ _ _ Hr); auto|].
    eapply is_queue_ext; [..|apply HQ]; [|by rewrite B..].
    intros p Hp. rewrite N; [done|]. intros [Hp'|Hp']%elem_of_app.
    + by apply (HD b b_to p).
    + by apply (Hd b p).
  - intros b1 b2 p Hne. rewrite !fn_insert_case.
    repeat case_decide; subst; try done; intros Hp Hp'.
    + apply elem_of_app in Hp as [Hp|Hp]; [by apply (HD b1 b2 p)|by apply (Hd b2 p)].
    + apply elem_of_app in Hp' as [Hp'|Hp']; [by apply (HD b1 b2 p)|by apply (Hd b1 p)].
    + by apply (HD b1 b2 p).
Qed.
End append.

(** What [unpark_requeue] does to a node, its link aside: the threads of [m]
    get the destination key, the thread [wk] is woken with [tok]. *)
Definition requeue_effect (m : list Z) (wk : option Z) (k_to : Z) (tok : UnparkToken)
    (p : Z) (n : Node) : Node :=
  if decide (wk = Some p) then set_parked false (set_token tok n)
  else if decide (p ∈ m) then set_key k_to n else n.

(** The queues after [unpark_requeue]: [rest] stays in the source bucket and
    [m] is appended to the destination, which may be the same bucket. *)
Definition requeue_queues (b_from b_to : nat) (rest m : list Z) (L : nat → list Z)
    : nat → list Z :=
  let L1 := <[b_from := rest]> L in <[b_to := L1 b_to ++ m]> L1.

Section requeue_all.
Context {C : Type}.
Implicit Types (σ : lot) (L : nat → list Z) (c : C).

(** The end of [unpark_requeue]: the fair timeout and the wake-up. *)
Definition requeue_finish (b : nat) (ft : option FairTimeout.t) (wk : option Z)
    (tok : UnparkToken) (σ : lot) : lot :=
  let σ := match ft with Some f => upd_bucket b (set_fair f) σ | None => σ end in
  match wk with Some p => Ptr.wake tok p σ | None => σ end.

Lemma requeue_finish_all b ft wk tok σ L :
  all_queues σ L → (∀ b' p, wk = Some p → p ∉ L b') →
  all_queues (requeue_finish b ft wk tok σ) L.
Proof.
  intros [HQ HD] Hw. split; [|done]. intros b'. unfold requeue_finish.
  assert (Hq : is_queue (match ft with Some f => upd_bucket b (set_fair f) σ
                         | None => σ end) b' (L b')).
  { destruct ft; [by apply set_fair_queue|done]. }
  destruct wk as [p|]; [|done]. apply wake_queue; [by apply Hw|done].
Qed.

Lemma requeue_finish_data b ft wk tok σ p :
  set_next 0 (heap (requeue_finish b ft wk tok σ) p) =
    if decide (wk = Some p) then set_parked false (set_token tok (set_next 0 (heap σ p)))
    else set_next 0 (heap σ p).
Proof.
  unfold requeue_finish. destruct wk as [q|]; cbn.
  - rewrite !fn_insert_case.
    destruct (decide (q = p)) as [->|Hne]; fn_simp.
    + rewrite !decide_True by done. by destruct ft; cbn; destruct (heap σ p).
    + rewrite decide_False by congruence. by destruct ft.
  - rewrite decide_False by done. by destruct ft.
Qed.

(** C18: [unpark_requeue] splits the threads parked on the first key, as the
    validated operation asks, into at most one to wake, the ones moved to the
    back of the destination bucket (which may be the same bucket) under the new
    key, and the ones that stay; the counters of its result are their numbers,
    every queue of the table stays well formed, and no other thread changes. *)
Theorem unpark_requeue_refines fuel now σ L b_from b_to k k_to
    (validate : C → RequeueOp * C) (cb : RequeueOp → UnparkResult → C → UnparkToken * C) c :
  all_queues σ L → (length (L b_from) < fuel)%nat → (validate c).1 ≠ Abort →
  let op := (validate c).1 in
  let '(wk, m, rest, more) := Spec.unpark_requeue (keys σ) op k (L b_from) in
  let fair := if wk is Some _
              then (FairTimeout.should_timeout now (fair_timeout (buckets σ b_from))).1
              else false in
  let res := MkUnparkResult (if wk is Some _ then 1 else 0) (Z.of_nat (length m)) more fair in
  ∃ σ', Ptr.unpark_requeue fuel now b_from b_to k k_to validate cb σ c
          = Some (res, σ', (cb op res (validate c).2).2) ∧
        all_queues σ' (requeue_queues b_from b_to rest m L) ∧
        ∀ p, set_next 0 (heap σ' p) =
             requeue_effect m wk k_to (cb op res (validate c).2).1 p
               (set_next 0 (heap σ p)).
Proof.
  intros HA Hf Hop. cbv zeta. pose proof (proj1 HA b_from) as Hq.
  unfold Ptr.unpark_requeue. destruct (validate c) as [op c1]. cbn [fst snd] in *.
  rewrite bool_decide_false by done.
  pose proof (unpark_requeue_loop_spec fuel b_from (L b_from) (keys σ) k k_to op [] (L b_from)
    (Ptr.MkRequeue 0 0 None default_result) None [] σ σ) as Hloop.
  rewrite requeue_scan_spec in Hloop.
  pose proof (Spec.requeue_split (keys σ) op k (L b_from) (proj1 Hq)) as Hsplit.
  destruct (Spec.unpark_requeue (keys σ) op k (L b_from)) as [[[wk m] rest] more].
  destruct Hsplit as [Hrest Hwk].
  destruct Hloop as (r & σ1 & Hrun & Hr & Hq1 & [K M N B F] & Hml & Hd); [|done|].
  { cbn [app]. split; [done..|set_solver|set_solver| |].
    - split; try done; [constructor|set_solver|by exists 0].
    - split; [done|set_solver|done..]. }
  unfold link_at, prev_at in Hrun. cbn in Hrun. rewrite <- (is_queue_end _ _ _ Hq) in Hrun.
  rewrite Hrun. cbn [app] in *. cbv zeta.
  assert (HA1 : all_queues σ1 (<[b_from := rest]> L)) by (by eapply all_queues_local).
  assert (Hdm : ∀ b p, p ∈ m → p ∉ (<[b_from := rest]> L : nat → list Z) b).
  { intros b p Hp. fn_cases b_from b; [by apply Hd|].
    apply (proj2 HA b_from b); [done|by apply Hml]. }
  pose proof (requeue_append_all b_to _ _ _ _ _ _ HA1 Hr Hdm) as HA2.
  pose proof (requeue_append_appended b_to _ _ _ _ _ _ Hr (proj1 HA1 b_to))
    as [D2 _ _ F2].
  change (all_queues (Ptr.requeue_append b_to r σ1) (requeue_queues b_from b_to rest m L))
    in HA2.
  set (σ2 := Ptr.requeue_append b_to r σ1) in *.
  pose proof Hr as [_ _ Hrw Hres _ _ _]. rewrite Hres, Hrw, should_timeout_bucket.
  cbv zeta. cbn [unparked_threads requeued_threads have_more_threads be_fair].
  rewrite F2, F. set (f := FairTimeout.should_timeout _ _).
  assert (Hfin : ∀ ft tok,
    all_queues (requeue_finish b_from ft wk tok σ2) (requeue_queues b_from b_to rest m L) ∧
    ∀ p, set_next 0 (heap (requeue_finish b_from ft wk tok σ2) p) =
         requeue_effect m wk k_to tok p (set_next 0 (heap σ p))).
  { intros ft tok. split.
    - apply requeue_finish_all; [done|]. intros b p Hp.
      destruct (Hwk p Hp) as (Hpl & Hpm & Hpr). unfold requeue_queues.
      assert (Hn1 : ∀ b0, p ∉ (<[b_from := rest]> L : nat → list Z) b0).
      { intros b0. fn_cases b_from b0; [done|]. by apply (proj2 HA b_from). }
      fn_cases b_to b; [|apply Hn1]. pose proof (Hn1 b). set_solver.
    - intros p. rewrite requeue_finish_data, D2. unfold requeue_effect.
      case_decide as Hp; [rewrite K by (by apply Hwk); done|].
      case_decide; [by apply M|by apply K]. }
  destruct wk as [w|]; cbn [Z.eqb negb].
  - set (res := MkUnparkResult _ _ _ _). destruct (cb op res c1) as [tok c2].
    eexists. split; [done|]. exact (Hfin (Some f.2) tok).
  - set (res := MkUnparkResult _ _ _ _). destruct (cb op res c1) as [tok c2].
    eexists. split; [done|]. exact (Hfin None tok).
Qed.
End requeue_all.

(** ** The claims on enqueueing, and concrete tables *)

(** [park] appends the thread at the back of the queue of its bucket, with
    its key, park token and flag set, keeps every queue of the table well formed,
    and changes nothing else of any other thread than the link of the former
    tail. *)
Theorem park_enqueue_refines σ L b p k tok timed :
  all_queues σ L → p ≠ 0 → (∀ b', p ∉ L b') →
  let σ' := Ptr.park_enqueue b p k tok timed σ in
  all_queues σ' (<[b := L b ++ [p]]> L) ∧
  (∀ q, set_next 0 (heap σ' q) =
        if decide (q = p) then MkNode 0 k (unpark_token (heap σ p)) tok timed true
        else set_next 0 (heap σ q)) ∧
  ∀ b', fair_timeout (buckets σ' b') = fair_timeout (buckets σ b').
Proof.
  intros HA Hp0 Hp σ'. split; [by apply park_enqueue_all|]. split.
  - intros q. apply park_enqueue_node. destruct (proj1 HA b) as (_ & _ & ->).
    destruct (last (L b)) as [a|] eqn:E; simpl; [|done].
    intros ->. apply last_Some_elem_of in E. by apply (Hp b).
  - intros b'. subst σ'. unfold Ptr.park_enqueue. simpl.
    destruct (queue_head (buckets σ b) =? 0); simpl; rewrite !fn_insert_case;
      repeat (case_decide; subst); done.
Qed.

Section examples.
Local Definition node0 : Node := MkNode 0 0 0 0 false false.
Local Definition lot0 : lot := MkLot (λ _, node0) (λ _, Ptr.bucket_new 0 1).
Local Definition queues0 : nat → list Z := λ _, [].

Lemma lot0_queues : all_queues lot0 queues0.
Proof. split; [|set_solver]. intros b. split; [constructor|done]. Qed.

(** Threads 1, 2 and 3 in bucket 0, parked on keys 7, 9 and 7. *)
Local Definition lot3 : lot :=
  Ptr.park_enqueue 0 3 7 30 false
    (Ptr.park_enqueue 0 2 9 20 true (Ptr.park_enqueue 0 1 7 10 false lot0)).
Local Definition queues3 : nat → list Z :=
  <[0%nat := [1; 2; 3]]> (<[0%nat := [1; 2]]> (<[0%nat := [1]]> queues0)).

Lemma lot3_queues : all_queues lot3 queues3.
Proof.
  pose proof (park_enqueue_all lot0 queues0 0 1 7 10 false lot0_queues
                ltac:(done) ltac:(set_solver)) as H1.
  assert (N1 : ∀ b, 2 ∉ (<[0%nat := [1]]> queues0 : nat → list Z) b)
    by (intros b; fn_cases 0%nat b; set_solver).
  pose proof (park_enqueue_all _ (<[0%nat := [1]]> queues0) 0 2 9 20 true H1
                ltac:(done) N1) as H2.
  assert (N2 : ∀ b, 3 ∉ (<[0%nat := [1; 2]]> (<[0%nat := [1]]> queues0) : nat → list Z) b)
    by (intros b; fn_cases 0%nat b; set_solver).
  exact (park_enqueue_all _ (<[0%nat := [1; 2]]> (<[0%nat := [1]]> queues0)) 0 3 7 30 false
           H2 ltac:(done) N2).
Qed.

Lemma park_enqueue_refines_witness :
  all_queues (Ptr.park_enqueue 1 4 5 0 false lot3) (<[1%nat := [4]]> queues3).
Proof.
  apply (park_enqueue_refines lot3 queues3 1 4 5 0 false lot3_queues); [done|].
  intros b. unfold queues3. fn_cases 0%nat b; set_solver.
Defined.

Lemma park_dequeue_refines_witness :
  ∃ σ', Ptr.park_dequeue 4 0 2 9 lot3 = Some (Some true, σ') ∧
        all_queues σ' (<[0%nat := [1; 3]]> queues3) ∧ frame 0 [1; 2; 3] lot3 σ'.
Proof.
  exact (park_dequeue_refines 4 lot3 queues3 0 2 9 lot3_queues ltac:(vm_compute; lia)).
Defined.

Local Definition callback (r : UnparkResult) (c : unit) : UnparkToken * unit := (6, c).

Lemma unpark_one_refines_witness :
  ∃ σ', Ptr.unpark_one 4 1 0 7 callback lot3 tt = Some (MkUnparkResult 1 0 true true, σ', tt) ∧
        all_queues σ' (<[0%nat := [2; 3]]> queues3) ∧ woken 0 [1; 2; 3] [1] 6 lot3 σ'.
Proof.
  exact (unpark_one_refines 4 1 lot3 queues3 0 7 callback tt lot3_queues
           ltac:(vm_compute; lia)).
Defined.

Lemma unpark_all_refines_witness :
  ∃ σ', Ptr.unpark_all 4 0 7 6 lot3 = Some (2, σ') ∧
        all_queues σ' (<[0%nat := [2]]> queues3) ∧ woken 0 [1; 2; 3] [1; 3] 6 lot3 σ'.
Proof.
  exact (unpark_all_refines 4 lot3 queues3 0 7 6 lot3_queues ltac:(vm_compute; lia)).
Defined.

(** Wake one thread, then stop. *)
Local Definition first_only (n : Z) (_ : ParkToken) : FilterOp * Z :=
  (if n =? 0 then Unpark else Stop, n + 1).

Lemma unpark_filter_refines_witness :
  ∃ σ', Ptr.unpark_filter 4 1 0 7 first_only 0 (λ _, callback) lot3 tt
          = Some (MkUnparkResult 1 0 true true, σ', tt) ∧
        all_queues σ' (<[0%nat := [2; 3]]> queues3) ∧ woken 0 [1; 2; 3] [1] 6 lot3 σ'.
Proof.
  exact (unpark_filter_refines 4 1 lot3 queues3 0 7 first_only 0 (λ _, callback) tt
           lot3_queues ltac:(vm_compute; lia)).
Defined.

Lemma unpark_requeue_refines_witness :
  ∃ σ', Ptr.unpark_requeue 4 1 0 1 7 5 (λ c, (UnparkOneRequeueRest, c)) (λ _, callback) lot3 tt
          = Some (MkUnparkResult 1 1 false true, σ', tt) ∧
        all_queues σ' (requeue_queues 0 1 [2] [3] queues3).
Proof.
  destruct (unpark_requeue_refines 4 1 lot3 queues3 0 1 7 5
              (λ c, (UnparkOneRequeueRest, c)) (λ _, callback) tt lot3_queues
              ltac:(vm_compute; lia) ltac:(discriminate)) as (σ' & Hrun & HA & _).
  exists σ'. split; [exact Hrun|exact HA].
Defined.
End examples.
