(* ===== verification/HashTable.v ===== *)
(** * The hash table of buckets (core/src/parking_lot.rs)

    The sizing of the table, the hash function, and the resizing: when a new
    thread makes the table too small, [grow_hashtable] moves every parked
    thread of the old table to the bucket its key hashes to in a new one.  The
    pointer code is modelled on the nodes and buckets of [BucketQueue]; the
    locking around it is in [TableLock]. *)

From S2P Require Import Prelude LotTypes FairTimeout BucketQueue BucketRefine.
Local Open Scope Z_scope.

Definition LOAD_FACTOR : Z := 3.

(** [usize::next_power_of_two] and [usize::leading_zeros]. *)
Definition next_power_of_two (x : Z) : Z := if x <=? 1 then 1 else 2 ^ Z.log2_up x.
Definition leading_zeros (w x : Z) : Z := if x =? 0 then w else w - 1 - Z.log2 x.

(** [struct HashTable]: the buckets with index below [len]. *)
Record HashTable := MkTable {
  len : Z;
  entries : nat → Bucket;
  hash_bits : Z;
}.

(** [HashTable::new]; [now] is the time read from the clock.  The seeds are
    [i as u32 + 1]. *)
Definition new_size (num_threads : Z) : Z := next_power_of_two (num_threads * LOAD_FACTOR).
Definition bucket_seed (i : nat) : Z := wrapping_add 32 (wrap 32 (Z.of_nat i)) 1.

Definition HashTable_new (now num_threads : Z) : HashTable :=
  let size := new_size num_threads in
  let hash_bits := leading_zeros usize_bits 0 - leading_zeros usize_bits size - 1 in
  MkTable size (λ i, Ptr.bucket_new now (bucket_seed i)) hash_bits.

(** [hash], for both pointer widths. *)
Definition hash_const (w : Z) : Z :=
  if w =? 32 then 0x9E3779B9 else 0x9E3779B97F4A7C15.
Definition hash_width (w key bits : Z) : Z :=
  Z.shiftr (wrapping_mul w key (hash_const w)) (w - bits).
Definition hash (key bits : Z) : Z := hash_width usize_bits key bits.

(** [create_hashtable]: the first table, when no other thread was faster. *)
Definition create_hashtable (now : Z) : HashTable := HashTable_new now LOAD_FACTOR.

(** [table.entries.len() >= LOAD_FACTOR * num_threads] *)
Definition big_enough (t : HashTable) (num_threads : Z) : bool :=
  LOAD_FACTOR * num_threads <=? len t.

(** The body of the loop of [rehash_bucket_into]; [σ] holds all nodes and the
    buckets of the new table. *)
Definition rehash_push (bits current : Z) (σ : lot) : lot :=
  let h := Z.to_nat (hash (key (heap σ current)) bits) in
  let σ := if queue_tail (buckets σ h) =? 0
           then upd_bucket h (set_head current) σ
           else upd_node (queue_tail (buckets σ h)) (set_next current) σ in
  let σ := upd_bucket h (set_tail current) σ in
  upd_node current (set_next 0) σ.

Fixpoint rehash_loop (fuel : nat) (bits current : Z) (σ : lot) : option lot :=
  match fuel with
  | O => None
  | S fuel =>
      if current =? 0 then Some σ
      else
        let next := next_in_queue (heap σ current) in
        rehash_loop fuel bits next (rehash_push bits current σ)
  end.

Definition rehash_bucket_into (fuel : nat) (bucket : Bucket) (bits : Z) (σ : lot)
    : option lot :=
  rehash_loop fuel bits (queue_head bucket) σ.

(** [for bucket in &old_table.entries[..]] *)
Fixpoint rehash_all (fuel : nat) (old : list Bucket) (bits : Z) (σ : lot) : option lot :=
  match old with
  | [] => Some σ
  | b :: old =>
      match rehash_bucket_into fuel b bits σ with
      | Some σ => rehash_all fuel old bits σ
      | None => None
      end
  end.

Definition table_buckets (t : HashTable) : list Bucket := entries t <$> seq 0 (Z.to_nat (len t)).

(** [grow_hashtable], once the buckets of the old table are locked.  [h] are
    the nodes; the result is the table then in use and the nodes. *)
Definition grow_hashtable (fuel : nat) (now num_threads : Z) (t : HashTable) (h : Z → Node)
    : option (HashTable * (Z → Node)) :=
  if big_enough t num_threads then Some (t, h)
  else
    let t' := HashTable_new now num_threads in
    match rehash_all fuel (table_buckets t) (hash_bits t') (MkLot h (entries t')) with
    | None => None
    | Some σ => Some (MkTable (len t') (buckets σ) (hash_bits t'), heap σ)
    end.

(** ** Sizes and hashes *)

Lemma next_power_of_two_spec x :
  x ≤ next_power_of_two x ∧ ∃ n, 0 ≤ n ∧ next_power_of_two x = 2 ^ n.
Proof.
  unfold next_power_of_two. destruct (Z.leb_spec x 1).
  - split; [lia|]. by exists 0.
  - split; [by apply Z.log2_up_spec|]. exists (Z.log2_up x).
    split; [apply Z.log2_up_nonneg|done].
Qed.

(** The smallest such power. *)
Lemma next_power_of_two_least x n : 0 ≤ n → x ≤ 2 ^ n → next_power_of_two x ≤ 2 ^ n.
Proof.
  intros Hn Hx. unfold next_power_of_two. destruct (Z.leb_spec x 1); [lia|].
  apply Z.pow_le_mono_r; [lia|]. apply Z.log2_up_le_pow2; lia.
Qed.

Lemma leading_zeros_bits w n :
  0 ≤ n < w → leading_zeros w 0 - leading_zeros w (2 ^ n) - 1 = n.
Proof.
  intros Hn. unfold leading_zeros. destruct (Z.eqb_spec (2 ^ n) 0); [lia|].
  rewrite Z.log2_pow2 by lia. simpl. lia.
Qed.

(** A table for [n] threads: [2^hash_bits] buckets, at least [LOAD_FACTOR]
    per thread and less than twice as many, and two hash bits or more. *)
Lemma HashTable_new_size now n :
  1 ≤ n → n * LOAD_FACTOR ≤ 2 ^ 63 →
  let t := HashTable_new now n in
  len t = 2 ^ hash_bits t ∧ 2 ≤ hash_bits t ≤ 63 ∧
  LOAD_FACTOR * n ≤ len t < 2 * (LOAD_FACTOR * n).
Proof.
  intros Hn Hmax t. unfold LOAD_FACTOR in *.
  destruct (next_power_of_two_spec (n * 3)) as (Hle & m & Hm & Heq).
  pose proof (next_power_of_two_least (n * 3) 63 ltac:(lia) Hmax) as Hub.
  rewrite Heq in Hub, Hle. apply Z.pow_le_mono_r_iff in Hub; [|lia..].
  assert (2 ≤ m).
  { destruct (Z.lt_ge_cases m 2); [|done].
    assert (2 ^ m ≤ 2 ^ 1) by (apply Z.pow_le_mono_r; lia). lia. }
  assert (Hb : hash_bits t = m).
  { subst t. cbn [hash_bits HashTable_new]. unfold new_size, LOAD_FACTOR. rewrite Heq.
    apply leading_zeros_bits. unfold usize_bits. lia. }
  assert (Hlen : len t = 2 ^ m) by (subst t; cbn; unfold new_size, LOAD_FACTOR; lia).
  rewrite Hb, Hlen. split; [done|]. split; [lia|]. split; [lia|].
  destruct (Z.lt_ge_cases (2 ^ m) (2 * (3 * n))) as [|Hge]; [done|].
  replace (2 ^ m) with (2 * 2 ^ (m - 1)) in Hge by (rewrite <- Z.pow_succ_r by lia; f_equal; lia).
  pose proof (next_power_of_two_least (n * 3) (m - 1) ltac:(lia) ltac:(lia)) as Hl.
  rewrite Heq in Hl. apply Z.pow_le_mono_r_iff in Hl; lia.
Qed.

Lemma hash_width_bounds w key bits :
  0 ≤ bits ≤ w → 0 ≤ hash_width w key bits < 2 ^ bits.
Proof.
  intros Hb. unfold hash_width. rewrite Z.shiftr_div_pow2 by lia.
  pose proof (wrap_in_width w (key * hash_const w) ltac:(lia)) as Hw.
  unfold wrapping_mul, in_width in *.
  split; [apply Z.div_pos; [lia|apply Z.pow_pos_nonneg; lia]|].
  apply Z.div_lt_upper_bound; [apply Z.pow_pos_nonneg; lia|].
  rewrite <- Z.pow_add_r by lia. replace (w - bits + bits) with w by lia. lia.
Qed.

Lemma bucket_seed_ok i : Z.of_nat i < 2 ^ 32 - 1 → FairTimeout.seed_ok (bucket_seed i).
Proof.
  intros Hi. unfold bucket_seed, wrapping_add, FairTimeout.seed_ok.
  rewrite !wrap_small; unfold in_width; rewrite ?wrap_small; unfold in_width; lia.
Qed.

(** ** Rehashing *)

Section rehash.
Implicit Types (σ : lot) (L : nat → list Z) (l done : list Z).

(** Every queue of the new table keeps the threads in the order in which
    they are moved. *)
Definition distribute (bits : Z) (κ : Z → Z) (l : list Z) (b : nat) : list Z :=
  filter (λ p, Z.to_nat (hash (κ p) bits) = b) l.

Lemma distribute_snoc bits κ l c b :
  (<[Z.to_nat (hash (κ c) bits) :=
      distribute bits κ l (Z.to_nat (hash (κ c) bits)) ++ [c]]>
     (distribute bits κ l)) b = distribute bits κ (l ++ [c]) b.
Proof.
  unfold distribute. rewrite fn_insert_case, (filter_app _ l [c]).
  case_decide as Hb; [subst b|].
  - by rewrite (filter_cons_True _ c) by done.
  - by rewrite (filter_cons_False _ c), app_nil_r by done.
Qed.

Lemma rehash_push_data bits c σ p :
  set_next 0 (heap (rehash_push bits c σ) p) = set_next 0 (heap σ p).
Proof.
  unfold rehash_push. set (h := Z.to_nat _). generalize (queue_tail (buckets σ h)) as a.
  intros a. destruct (a =? 0); cbn; rewrite !fn_insert_case;
    repeat (case_decide; subst); reflexivity.
Qed.

Lemma rehash_push_all bits c σ L :
  all_queues σ L → c ≠ 0 → (∀ b, c ∉ L b) →
  let h := Z.to_nat (hash (key (heap σ c)) bits) in
  all_queues (rehash_push bits c σ) (<[h := L h ++ [c]]> L) ∧
  ∀ p, p ≠ c → p ∉ L h → heap (rehash_push bits c σ) p = heap σ p.
Proof.
  intros [HQ HD] Hc0 Hc h. unfold rehash_push. fold h.
  destruct (HQ h) as (Hnd & Hl & Ht).
  assert (Hq : is_queue (rehash_push bits c σ) h (L h ++ [c])).
  { unfold rehash_push. fold h.
    assert (Hnd' : NoDup (L h ++ [c])).
    { apply NoDup_app. repeat split; [done|set_solver|apply NoDup_singleton]. }
    split; [done|]. cbn. fn_simp. cbn. rewrite last_snoc. split; [|done].
    destruct (L h) as [|a l _] eqn:E using rev_ind; cbn in Ht |- *.
    - rewrite Ht. cbn. fn_simp. done.
    - rewrite last_snoc in Ht. cbn in Ht. rewrite Ht.
      pose proof (lseg_nonnull _ _ _ _ Hl) as Hnn.
      destruct (Z.eqb_spec a 0) as [->|_]; [set_solver|]. cbn. fn_simp.
      assert (a ≠ c) by (intros ->; apply (Hc h); rewrite E; set_solver).
      apply lseg_app. exists c. split; [|cbn; fn_simp; done].
      eapply lseg_ext; [|by eapply (lseg_set_last _ _ _ _ _ c)].
      intros d Hd. assert (c ≠ d) by (intros ->; apply (Hc h); rewrite E; done).
      by fn_simp. }
  assert (Htail : queue_tail (buckets σ h) = 0 ∨ queue_tail (buckets σ h) ∈ L h).
  { rewrite Ht. destruct (last (L h)) eqn:E; [right|by left].
    by apply last_Some_elem_of in E. }
  assert (Hn : ∀ p, p ≠ c → p ∉ L h → heap (rehash_push bits c σ) p = heap σ p).
  { intros p Hp Hpl. unfold rehash_push. fold h.
    destruct (Z.eqb_spec (queue_tail (buckets σ h)) 0); cbn; fn_simp; [done|].
    assert (queue_tail (buckets σ h) ≠ p) by (intros <-; tauto). by fn_simp. }
  split; [|done]. split.
  - intros b. fn_cases h b; [exact Hq|].
    eapply is_queue_ext; [| | |apply HQ].
    + intros p Hp. f_equal. apply Hn.
      * intros ->. by apply (Hc b).
      * by apply (HD b).
    + destruct (queue_tail (buckets σ h) =? 0); cbn; by fn_simp.
    + destruct (queue_tail (buckets σ h) =? 0); cbn; by fn_simp.
  - intros b1 b2 q Hne. rewrite !fn_insert_case.
    repeat case_decide; subst; try done; intros Hp Hp'.
    + apply elem_of_app in Hp as [Hp|Hp%list_elem_of_singleton]; [|subst q].
      * by apply (HD h b2 q).
      * by apply (Hc b2).
    + apply elem_of_app in Hp' as [Hp'|Hp'%list_elem_of_singleton]; [|subst q].
      * by apply (HD b1 h q).
      * by apply (Hc b1).
    + by apply (HD b1 b2 q).
Qed.

(** Where the move stands: [done] has been moved, the rest of the nodes are
    as they were. *)
Record moved (bits : Z) (h0 : Z → Node) (done : list Z) (σ : lot) : Prop := {
  moved_queues : all_queues σ (distribute bits (λ p, key (h0 p)) done);
  moved_data p : set_next 0 (heap σ p) = set_next 0 (h0 p);
  moved_rest p : p ∉ done → heap σ p = h0 p;
}.

Lemma moved_key bits h0 done σ p : moved bits h0 done σ → key (heap σ p) = key (h0 p).
Proof. intros [_ Hd _]. exact (f_equal key (Hd p)). Qed.

Lemma moved_push bits h0 done σ c :
  moved bits h0 done σ → c ≠ 0 → c ∉ done →
  moved bits h0 (done ++ [c]) (rehash_push bits c σ).
Proof.
  intros Hm Hc0 Hc. pose proof (moved_key _ _ _ _ c Hm) as Hk.
  destruct Hm as [HA Hd Hr].
  assert (Hsub : ∀ b, distribute bits (λ p, key (h0 p)) done b ⊆ done)
    by (intros b; apply filter_sub).
  destruct (rehash_push_all bits c σ _ HA Hc0) as [HA' Hn].
  { intros b Hb. by apply Hsub in Hb. }
  rewrite Hk in HA', Hn. split.
  - eapply all_queues_eq; [|exact HA']. intros b. apply (distribute_snoc bits (λ p, key (h0 p))).
  - intros p. by rewrite rehash_push_data.
  - intros p Hp. rewrite Hn; [apply Hr; set_solver|set_solver|].
    intros Hp'. apply Hsub in Hp'. set_solver.
Qed.

Lemma rehash_loop_moved fuel bits h0 l done p σ :
  moved bits h0 done σ → lseg h0 p l 0 → NoDup l → (∀ q, q ∈ l → q ∉ done) →
  (length l < fuel)%nat →
  ∃ σ', rehash_loop fuel bits p σ = Some σ' ∧ moved bits h0 (done ++ l) σ'.
Proof.
  revert fuel done p σ. induction l as [|c l IH]; intros [|fuel] done p σ Hm Hl Hnd Hd Hf;
    try (simpl in Hf; lia); cbn [rehash_loop].
  - cbn in Hl. subst p. exists σ. by rewrite app_nil_r.
  - destruct Hl as (-> & Hc & Hl). destruct (Z.eqb_spec c 0); [done|].
    apply NoDup_cons in Hnd as [Hcl Hnd].
    assert (Hcd : c ∉ done) by (apply Hd; set_solver).
    rewrite (moved_rest _ _ _ _ Hm c Hcd), (cons_middle c done l), (assoc_L (++)).
    apply IH; [by apply moved_push|done|done|set_solver|simpl in Hf; lia].
Qed.

Lemma rehash_all_moved fuel bits h0 (L : list (list Z)) old done σ :
  moved bits h0 done σ →
  Forall2 (λ b l, lseg h0 (queue_head b) l 0 ∧ (length l < fuel)%nat) old L →
  NoDup (done ++ concat L) →
  ∃ σ', rehash_all fuel old bits σ = Some σ' ∧ moved bits h0 (done ++ concat L) σ'.
Proof.
  intros Hm Hall. revert done σ Hm.
  induction Hall as [|b l old L [Hl Hf] _ IH]; intros done σ Hm Hnd; cbn [rehash_all concat].
  { exists σ. by rewrite app_nil_r. }
  cbn in Hnd. rewrite (assoc_L (++)) in Hnd.
  apply NoDup_app in Hnd as Hnd3. destruct Hnd3 as (Hnd1 & _ & _).
  apply NoDup_app in Hnd1 as (_ & Hd & Hnl).
  destruct (rehash_loop_moved fuel bits h0 l done _ _ Hm Hl Hnl) as (σ1 & Hrun & Hm1);
    [set_solver|done|].
  unfold rehash_bucket_into. rewrite Hrun.
  rewrite (assoc_L (++)). by apply IH.
Qed.
End rehash.

(** ** Growing the table *)

(** A table in use: every queue is well formed and every parked thread is in
    the bucket its key hashes to. *)
Record table_ok (t : HashTable) (h : Z → Node) (L : nat → list Z) : Prop := {
  table_queues : all_queues (MkLot h (entries t)) L;
  table_hash b p : p ∈ L b → Z.to_nat (hash (key (h p)) (hash_bits t)) = b;
  table_len : len t = 2 ^ hash_bits t;
  table_bits : 0 ≤ hash_bits t ≤ 64;
}.

(** The threads parked on [k], in the order in which they will be woken. *)
Definition parked_on (t : HashTable) (h : Z → Node) (L : nat → list Z) (k : Z) : list Z :=
  filter (λ p, key (h p) = k) (L (Z.to_nat (hash k (hash_bits t)))).

Lemma filter_none {A} (P : A → Prop) `{!∀ x, Decision (P x)} (l : list A) :
  (∀ x, x ∈ l → ¬ P x) → filter P l = [].
Proof.
  induction l as [|a l IH]; intros HP; [done|].
  rewrite filter_cons_False by (apply HP; set_solver). apply IH. set_solver.
Qed.

Lemma filter_weaken {A} (P Q : A → Prop) `{!∀ x, Decision (P x)} `{!∀ x, Decision (Q x)}
    (l : list A) :
  (∀ x, P x → Q x) → filter P (filter Q l) = filter P l.
Proof.
  intros HPQ. induction l as [|a l IH]; [done|].
  destruct (decide (Q a)).
  - rewrite (filter_cons_True Q) by done. destruct (decide (P a)).
    + by rewrite !(filter_cons_True P), IH by done.
    + by rewrite !(filter_cons_False P), IH by done.
  - rewrite (filter_cons_False Q) by done.
    rewrite (filter_cons_False P) by auto. done.
Qed.

Lemma filter_concat_one {A} (P : A → Prop) `{!∀ x, Decision (P x)} (L : nat → list A) j m n :
  (∀ i p, p ∈ L i → P p → i = j) → (m ≤ j < m + n)%nat →
  filter P (concat (L <$> seq m n)) = filter P (L j).
Proof.
  intros Hone. revert m. induction n as [|n IH]; intros m Hj; [lia|].
  cbn. rewrite filter_app. destruct (decide (m = j)) as [->|Hne].
  - assert (filter P (concat (L <$> seq (S j) n)) = []) as ->; [|by rewrite app_nil_r].
    apply filter_none. intros p Hp HP.
    apply list_elem_of_In, in_concat in Hp as (l & Hl & Hp).
    apply list_elem_of_In, list_elem_of_fmap in Hl as (i & -> & Hi).
    apply elem_of_seq in Hi. apply list_elem_of_In in Hp.
    pose proof (Hone i p Hp HP). lia.
  - rewrite (filter_none P (L m)); [apply IH; lia|]. intros p Hp HP. naive_solver.
Qed.

Lemma NoDup_concat (L : nat → list Z) m n :
  (∀ b, NoDup (L b)) → (∀ b b' p, b ≠ b' → p ∈ L b → p ∉ L b') →
  NoDup (concat (L <$> seq m n)).
Proof.
  intros Hnd Hd. revert m. induction n as [|n IH]; intros m; cbn; [constructor|].
  apply NoDup_app. split; [done|]. split; [|apply IH].
  intros p Hp Hp'. apply list_elem_of_In, in_concat in Hp' as (l & Hl & Hp').
  apply list_elem_of_In, list_elem_of_fmap in Hl as (i & -> & Hi).
  apply elem_of_seq in Hi. apply list_elem_of_In in Hp'.
  apply (Hd m i p); [lia|done|done].
Qed.

Lemma empty_table_queues now n h :
  all_queues (MkLot h (entries (HashTable_new now n))) (λ _, []).
Proof. split; [|set_solver]. intros b. split; [constructor|done]. Qed.

(** C20: Growing the table for [n] threads terminates and gives a table with at
    least [LOAD_FACTOR] buckets per thread in which every queue is well formed
    and every thread sits in the bucket its key hashes to; for each key, the same
    threads are parked in the same order as before, and of the nodes nothing but
    the links changes. *)
Theorem grow_hashtable_ok fuel now n t h L :
  table_ok t h L → 1 ≤ n → n * LOAD_FACTOR ≤ 2 ^ 63 → (∀ b, (length (L b) < fuel)%nat) →
  ∃ t' h' L', grow_hashtable fuel now n t h = Some (t', h') ∧
    big_enough t' n = true ∧ table_ok t' h' L' ∧
    (∀ p, set_next 0 (h' p) = set_next 0 (h p)) ∧
    (∀ k, parked_on t' h' L' k = parked_on t h L k).
Proof.
  intros [[HQ HD] Hhash Hlen Hbits] Hn Hmax Hf. unfold grow_hashtable.
  destruct (big_enough t n) eqn:Hbig; [by exists t, h, L|].
  pose proof (HashTable_new_size now n Hn Hmax) as (Hlen' & Hbits' & Hsize).
  set (t' := HashTable_new now n) in *.
  destruct (rehash_all_moved fuel (hash_bits t') h
              (L <$> seq 0 (Z.to_nat (len t))) (table_buckets t) [] (MkLot h (entries t')))
    as (σ & Hrun & Hm).
  { split; [apply empty_table_queues|done|done]. }
  { apply Forall2_fmap_2, Forall_Forall2_diag, Forall_forall. intros b _.
    split; [apply (HQ b)|apply Hf]. }
  { apply NoDup_concat; [intros b; apply (HQ b)|apply HD]. }
  rewrite Hrun. pose proof (λ p, moved_key _ _ _ _ p Hm) as Hkey. cbn [app] in Hm.
  destruct Hm as [HA Hd _]. set (all := concat _) in *.
  exists (MkTable (len t') (buckets σ) (hash_bits t')), (heap σ),
    (distribute (hash_bits t') (λ p, key (h p)) all).
  split; [done|]. split; [|split; [|split; [done|]]].
  - unfold big_enough. apply Z.leb_le. cbn [len]. apply Hsize.
  - split; cbn [entries len hash_bits]; [by destruct σ| |done|lia].
    intros b p [Hp _]%list_elem_of_filter. by rewrite Hkey.
  - intros k. unfold parked_on, distribute. cbn.
    transitivity (filter (λ p, key (h p) = k)
      (filter (λ p, Z.to_nat (hash (key (h p)) (hash_bits t')) =
                    Z.to_nat (hash k (hash_bits t'))) all)).
    + apply list_filter_iff. intros p. by rewrite Hkey.
    + rewrite filter_weaken by (by intros p ->). apply filter_concat_one.
      * intros i p Hp <-. symmetry. by apply Hhash.
      * pose proof (hash_width_bounds usize_bits k (hash_bits t) ltac:(unfold usize_bits; lia)).
        unfold hash. lia.
Qed.

(** In a table made for [n] threads every key hashes to one of its buckets,
    and every bucket's generator starts from a non-zero seed (tables have less
    than [2^32 - 1] buckets on any machine with less than a billion threads). *)
Theorem HashTable_new_ok now n :
  1 ≤ n → n * LOAD_FACTOR ≤ 2 ^ 31 →
  let t := HashTable_new now n in
  len t = 2 ^ hash_bits t ∧ LOAD_FACTOR * n ≤ len t < 2 * (LOAD_FACTOR * n) ∧
  (∀ k, 0 ≤ hash k (hash_bits t) < len t) ∧
  (∀ i, Z.of_nat i < len t → FairTimeout.seed_ok (FairTimeout.seed (fair_timeout (entries t i)))).
Proof.
  intros Hn Hmax t. unfold LOAD_FACTOR in Hmax.
  destruct (HashTable_new_size now n Hn ltac:(unfold LOAD_FACTOR; lia)) as (Hl & Hb & Hs).
  fold t in Hl, Hb, Hs. split; [done|]. split; [done|]. split.
  - intros k. rewrite Hl. apply hash_width_bounds. unfold usize_bits. lia.
  - intros i Hi. apply bucket_seed_ok. unfold t in Hi. cbn in Hi. unfold new_size in Hi.
    pose proof (next_power_of_two_least (n * LOAD_FACTOR) 31 ltac:(lia) Hmax). lia.
Qed.

(** Two threads parked on key 7 in the first table, then a sixth thread. *)
Section example.
Local Definition b7 : nat := Eval vm_compute in Z.to_nat (hash 7 4).
Local Definition lot2 : lot :=
  Ptr.park_enqueue b7 2 7 0 false
    (Ptr.park_enqueue b7 1 7 0 false
       (MkLot (λ _, MkNode 0 0 0 0 false false) (entries (create_hashtable 0)))).
Local Definition table2 : HashTable := MkTable 16 (buckets lot2) 4.
Local Definition queues2 : nat → list Z :=
  <[b7 := [1; 2]]> (<[b7 := [1]]> (λ _, [])).

Lemma table2_ok : table_ok table2 (heap lot2) queues2.
Proof.
  split; [| |done|by vm_compute].
  - pose proof (park_enqueue_all _ _ b7 1 7 0 false
      (empty_table_queues 0 3 (λ _, MkNode 0 0 0 0 false false))
      ltac:(done) ltac:(set_solver)) as H1.
    assert (N1 : ∀ b, 2 ∉ (<[b7 := [1]]> (λ _, []) : nat → list Z) b)
      by (intros b; fn_cases b7 b; set_solver).
    exact (park_enqueue_all _ (<[b7 := [1]]> (λ _, [])) b7 2 7 0 false H1 ltac:(done) N1).
  - intros b p. unfold queues2. fn_cases b7 b; [|set_solver].
    intros [->|[->|[]%not_elem_of_nil]%elem_of_cons]%elem_of_cons; reflexivity.
Qed.

Lemma grow_hashtable_ok_witness :
  ∃ t' h' L', grow_hashtable 3 0 6 table2 (heap lot2) = Some (t', h') ∧
    big_enough t' 6 = true ∧ table_ok t' h' L' ∧ parked_on t' h' L' 7 = [1; 2].
Proof.
  destruct (grow_hashtable_ok 3 0 6 table2 (heap lot2) queues2 table2_ok)
    as (t' & h' & L' & Hg & Hb & Hok & _ & Hk);
    [lia|by vm_compute| |].
  - intros b. unfold queues2. fn_cases b7 b; cbn; lia.
  - exists t', h', L'. split; [exact Hg|]. split; [exact Hb|]. split; [exact Hok|].
    rewrite (Hk 7). vm_compute. reflexivity.
Defined.

Lemma HashTable_new_ok_witness :
  let t := HashTable_new 0 100 in len t = 512 ∧ hash_bits t = 9 ∧
  ∀ k, 0 ≤ hash k 9 < 512.
Proof.
  destruct (HashTable_new_ok 0 100) as (_ & _ & H & _); [lia|by vm_compute|].
  split; [done|]. split; [done|]. exact H.
Defined.
End example.
