(* ===== verification/TableLock.v ===== *)
(** * Locking the buckets of a table that may grow (core/src/parking_lot.rs)

    The protocol around the hash table: how the global pointer [HASHTABLE] is
    read, created and replaced, and how the buckets of the table it points to
    are locked.  A table is never freed, so a thread may lock a bucket of a
    table that is no longer in use, and checks after it has the lock.

    Tables are numbered in the order they are made; a bucket is a table and an
    index.  A bucket holds the list of the threads queued in it, whose keys
    are in their [ThreadData]: the queue of [BucketQueue].  A critical section
    on it is one action: [ARehash] is what the loop of [grow_hashtable] over
    [rehash_bucket_into] does under all locks ([HashTable]), the others are the
    effects of the operations on the queue of a key ([BucketRefine]).  A bucket of
    a table that is no longer in use keeps what its head led to when it was
    replaced; later changes of the links are not seen through it.  Only
    [check_wait_graph_fast] reads a bucket without a check, and what it reads
    there is of no consequence for the locks. *)

From S2P Require Import Prelude Conc LotTypes FairTimeout BucketQueue BucketRefine HashTable.
Local Open Scope Z_scope.
Local Open Scope prog_scope.

Module TableLock.
Abbreviation bucket := (nat * nat)%type.
Abbreviation meta := (Z * Z)%type.

Record state := MkState {
  cur : option nat;  (* [HASHTABLE] *)
  ntab : nat;  (* how many tables have been made *)
  tab : nat → meta;  (* [entries.len()] and [hash_bits] *)
  lk : bucket → option tid;  (* [bucket.mutex] *)
  items : bucket → list tid;  (* the queues *)
  cell : tid → Z;  (* the [key] of each [ThreadData] *)
  parked : tid → bool;  (* the state of its parker *)
  nthreads : Z;  (* [NUM_THREADS] *)
  live : tid → list Z;  (* the keys a thread works on: for the statements *)
  spec : Z → list tid;  (* the queue of each key: for the statements *)
}.

Definition set_cur (o : option nat) (s : state) : state :=
  MkState o (ntab s) (tab s) (lk s) (items s) (cell s) (parked s) (nthreads s) (live s) (spec s).
Definition set_lk (b : bucket) (o : option tid) (s : state) : state :=
  MkState (cur s) (ntab s) (tab s) (<[b := o]> (lk s)) (items s) (cell s) (parked s) (nthreads s)
    (live s) (spec s).
Definition set_queues (f : bucket → list tid) (c : tid → Z) (p : tid → bool) (q : Z → list tid)
    (s : state) : state :=
  MkState (cur s) (ntab s) (tab s) (lk s) f c p (nthreads s) (live s) q.
Definition set_nthreads (n : Z) (s : state) : state :=
  MkState (cur s) (ntab s) (tab s) (lk s) (items s) (cell s) (parked s) n (live s) (spec s).
Definition set_live (t : tid) (l : list Z) (s : state) : state :=
  MkState (cur s) (ntab s) (tab s) (lk s) (items s) (cell s) (parked s) (nthreads s)
    (<[t := l]> (live s)) (spec s).
Definition add_table (m : meta) (s : state) : state :=
  MkState (cur s) (S (ntab s)) (<[ntab s := m]> (tab s)) (lk s) (items s) (cell s) (parked s)
    (nthreads s) (live s) (spec s).

(** [hash(key, hashtable.hash_bits)] *)
Definition index (m : meta) (k : Z) : nat := Z.to_nat (hash k m.2).
Definition indices (m : meta) : list nat := seq 0 (Z.to_nat m.1).

(** The threads of a table, bucket by bucket, and the ones of each bucket of
    the new one. *)
Definition all_items (T : nat) (s : state) : list tid :=
  concat ((λ i, items s (T, i)) <$> indices (tab s T)).
Definition rehashed (T N : nat) (s : state) (i : nat) : list tid :=
  filter (λ x, index (tab s N) (cell s x) = i) (all_items T s).

(** The links of the old lists are overwritten, and the heads of the old buckets
    left in place: who follows one is led along the new list of its first
    thread, as it is at this moment. *)
Fixpoint suffix_from (x : tid) (l : list tid) : list tid :=
  match l with
  | [] => []
  | y :: l' => if decide (y = x) then l else suffix_from x l'
  end.
Definition stale (T N : nat) (s : state) (l : list tid) : list tid :=
  match l with
  | [] => []
  | x :: _ => suffix_from x (rehashed T N s (index (tab s N) (cell s x)))
  end.
Definition rehash (T N : nat) (s : state) : bucket → list tid :=
  λ b, if decide (b.1 = N) then rehashed T N s b.2
       else if decide (b.1 = T) then stale T N s (items s b) else items s b.

(** Give a value to some threads. *)
Definition set_all {B} (l : list tid) (v : B) (f : tid → B) : tid → B :=
  λ x, if decide (x ∈ l) then v else f x.

Inductive act : Type :=
| ALoadTable
| ANewTable (n : Z)
| ACasTable (new : nat)  (* from null *)
| AStoreTable (new : nat)
| AMeta (T : nat)
| ALock (b : bucket)
| AUnlock (b : bucket)
| ARehash (T N : nat)
| AFetchAdd (d : Z)
| AKey (u : tid)
| AEnter (k : Z)
| AExit
| AAppend (k : Z) (b : bucket)  (* the calling thread *)
| AWait  (* woken, or timed out *)
| AReadBucket (b : bucket)
| AReadAll (T : nat)  (* and work on all their keys *)
| ARemove (b : bucket)  (* the calling thread *)
| ATakeAll (k : Z) (b : bucket)
| ARequeue (k1 k2 : Z) (b1 b2 : bucket).

Definition resp (a : act) : Type :=
  match a with
  | ALoadTable | ACasTable _ => option nat
  | ANewTable _ => nat
  | AMeta _ => meta
  | AFetchAdd _ | AKey _ => Z
  | AWait => bool
  | AReadBucket _ | AReadAll _ => list (tid * Z)
  | _ => unit
  end.

Definition exec (t : tid) (c : choice) (a : act) : state → option (state * resp a) :=
  match a with
  | ALoadTable => λ s, Some (s, cur s)
  | ANewTable n => λ s,
      let h := HashTable_new c n in Some (add_table (len h, hash_bits h) s, ntab s)
  | ACasTable new => λ s,
      match cur s with
      | None => Some (set_cur (Some new) s, None)
      | Some old => Some (s, Some old)
      end
  | AStoreTable new => λ s, Some (set_cur (Some new) s, tt)
  | AMeta T => λ s, Some (s, tab s T)
  | ALock b => λ s, match lk s b with None => Some (set_lk b (Some t) s, tt) | Some _ => None end
  | AUnlock b => λ s, Some (set_lk b None s, tt)
  | ARehash T N => λ s,
      Some (set_queues (rehash T N s) (cell s) (parked s) (spec s) s, tt)
  | AFetchAdd d => λ s, Some (set_nthreads (wrapping_add usize_bits (nthreads s) d) s, nthreads s)
  | AKey u => λ s, Some (s, cell s u)
  | AEnter k => λ s, Some (set_live t (k :: live s t) s, tt)
  | AExit => λ s, Some (set_live t [] s, tt)
  | AAppend k b => λ s,
      Some (set_queues (<[b := items s b ++ [t]]> (items s)) (<[t := k]> (cell s))
              (<[t := true]> (parked s)) (<[k := spec s k ++ [t]]> (spec s)) s, tt)
  | AWait => λ s, Some (s, negb (parked s t) && (c =? 0))
  | AReadBucket b => λ s, Some (s, (λ x, (x, cell s x)) <$> items s b)
  | AReadAll T => λ s,
      let l := all_items T s in
      Some (set_live t ((cell s <$> l) ++ live s t) s, (λ x, (x, cell s x)) <$> l)
  | ARemove b => λ s,
      Some (set_queues (<[b := filter (λ x, x ≠ t) (items s b)]> (items s)) (cell s) (parked s)
              (<[cell s t := filter (λ x, x ≠ t) (spec s (cell s t))]> (spec s)) s, tt)
  | ATakeAll k b => λ s,
      let woken := filter (λ x, cell s x = k) (items s b) in
      Some (set_queues (<[b := filter (λ x, cell s x ≠ k) (items s b)]> (items s)) (cell s)
              (set_all woken false (parked s)) (<[k := []]> (spec s)) s, tt)
  | ARequeue k1 k2 b1 b2 => λ s,
      let moved := filter (λ x, cell s x = k1) (items s b1) in
      let f := <[b1 := filter (λ x, cell s x ≠ k1) (items s b1)]> (items s) in
      let q := <[k1 := []]> (spec s) in
      Some (set_queues (<[b2 := f b2 ++ moved]> f) (set_all moved k2 (cell s)) (parked s)
              (<[k2 := q k2 ++ spec s k1]> q) s, tt)
  end.

Abbreviation tprog := (prog act resp).

Definition load_table : tprog (option nat) := Act ALoadTable Ret.
Definition new_table (n : Z) : tprog nat := Act (ANewTable n) Ret.
Definition cas_table (new : nat) : tprog (option nat) := Act (ACasTable new) Ret.
Definition table_meta (T : nat) : tprog meta := Act (AMeta T) Ret.
Definition load_key (u : tid) : tprog Z := Act (AKey u) Ret.
Definition lock (b : bucket) : tprog unit := Act (ALock b) Ret.
Definition unlock (b : bucket) : tprog unit := Act (AUnlock b) Ret.
Definition perform (a : act) : tprog (resp a) := Act a Ret.

(** [&hashtable.entries[i]], which panics out of range. *)
Definition entry (T : nat) (m : meta) (i : nat) : tprog bucket :=
  if (i <? Z.to_nat m.1)%nat then Ret (T, i) else Panic "index out of bounds".

Definition create_hashtable : tprog nat :=
  new <- new_table LOAD_FACTOR;;
  r <- cas_table new;;
  match r with
  | None => Ret new
  | Some old_table => Ret old_table
  end.

Definition get_hashtable : tprog nat :=
  table <- load_table;;
  match table with
  | None => create_hashtable
  | Some table => Ret table
  end.

Definition lock_bucket_turn (key : Z) (_ : unit) : tprog (unit + bucket) :=
  hashtable <- get_hashtable;;
  m <- table_meta hashtable;;
  bucket <- entry hashtable m (index m key);;
  lock bucket;;
  now <- load_table;;
  if bool_decide (now = Some hashtable) then Ret (inr bucket)
  else unlock bucket;; Ret (inl tt).
Definition lock_bucket (key : Z) : tprog bucket := Iter (lock_bucket_turn key) tt.

Definition checked_turn (key : tid) (_ : unit) : tprog (unit + Z * bucket) :=
  hashtable <- get_hashtable;;
  current_key <- load_key key;;
  m <- table_meta hashtable;;
  bucket <- entry hashtable m (index m current_key);;
  lock bucket;;
  now <- load_table;;
  ok <- (if bool_decide (now = Some hashtable)
         then k <- load_key key;; Ret (k =? current_key) else Ret false);;
  if ok : bool then Ret (inr (current_key, bucket))
  else unlock bucket;; Ret (inl tt).
Definition lock_bucket_checked (key : tid) : tprog (Z * bucket) := Iter (checked_turn key) tt.

Definition lock_pair_turn (key1 key2 : Z) (_ : unit) : tprog (unit + bucket * bucket) :=
  hashtable <- get_hashtable;;
  m <- table_meta hashtable;;
  let hash1 := index m key1 in
  let hash2 := index m key2 in
  bucket1 <- entry hashtable m (if (hash1 <=? hash2)%nat then hash1 else hash2);;
  lock bucket1;;
  now <- load_table;;
  if bool_decide (now = Some hashtable) then
    if (hash1 =? hash2)%nat then Ret (inr (bucket1, bucket1))
    else if (hash1 <? hash2)%nat then
      bucket2 <- entry hashtable m hash2;;
      lock bucket2;;
      Ret (inr (bucket1, bucket2))
    else
      bucket2 <- entry hashtable m hash1;;
      lock bucket2;;
      Ret (inr (bucket2, bucket1))
  else unlock bucket1;; Ret (inl tt).
Definition lock_bucket_pair (key1 key2 : Z) : tprog (bucket * bucket) :=
  Iter (lock_pair_turn key1 key2) tt.

Definition unlock_bucket_pair (b1 b2 : bucket) : tprog unit :=
  unlock b1;;
  if bool_decide (b1 = b2) then Ret tt else unlock b2.

(** [for bucket in &table.entries[..]] *)
Fixpoint lock_all (T : nat) (l : list nat) : tprog unit :=
  match l with
  | [] => Ret tt
  | i :: l => lock (T, i);; lock_all T l
  end.
Fixpoint unlock_all (T : nat) (l : list nat) : tprog unit :=
  match l with
  | [] => Ret tt
  | i :: l => unlock (T, i);; unlock_all T l
  end.

(** The loop of [grow_hashtable]: it returns, or breaks with a table all of
    whose buckets are locked. *)
Definition grow_turn (num_threads : Z) (_ : unit) : tprog (unit + option (nat * meta)) :=
  table <- get_hashtable;;
  m <- table_meta table;;
  if LOAD_FACTOR * num_threads <=? m.1 then Ret (inr None)
  else
    lock_all table (indices m);;
    now <- load_table;;
    if bool_decide (now = Some table) then Ret (inr (Some (table, m)))
    else unlock_all table (indices m);; Ret (inl tt).

Definition grow_hashtable (num_threads : Z) : tprog unit :=
  r <- Iter (grow_turn num_threads) tt;;
  match r with
  | None => Ret tt
  | Some (old_table, m) =>
      new <- new_table num_threads;;
      perform (ARehash old_table new);;
      perform (AStoreTable new);;
      unlock_all old_table (indices m)
  end.

(** [ThreadData::new], less the fields of the thread itself, and
    [ThreadData::drop]. *)
Definition ThreadData_new : tprog unit :=
  n <- perform (AFetchAdd 1);;
  grow_hashtable (n + 1).

Definition ThreadData_drop : tprog unit := perform (AFetchAdd (-1));; Ret tt.

(** ** The deadlock detector

    It reads the queues twice: bucket by bucket, and, if it seems to have found
    a cycle, with all buckets of the table in use locked. *)

Fixpoint read_each (T : nat) (l : list nat) : tprog unit :=
  match l with
  | [] => Ret tt
  | i :: l =>
      lock (T, i);;
      perform (AReadBucket (T, i));;
      unlock (T, i);;
      read_each T l
  end.

Definition check_wait_graph_fast : tprog unit :=
  table <- get_hashtable;;
  m <- table_meta table;;
  read_each table (indices m).

(** Lock all buckets of the table; if it is not the latest one any more, unlock
    them and try again. *)
Definition lock_table_turn (table : nat) : tprog (nat + nat * meta) :=
  m <- table_meta table;;
  lock_all table (indices m);;
  new_table <- get_hashtable;;
  if bool_decide (new_table = table) then Ret (inr (table, m))
  else unlock_all table (indices m);; Ret (inl new_table).

Definition check_wait_graph_slow : tprog unit :=
  table <- get_hashtable;;
  r <- Iter lock_table_turn table;;
  perform (AReadAll r.1);; perform AExit;;
  unlock_all r.1 (indices r.2).

(** [found]: whether there is a cycle in what the fast check has read. *)
Definition check_deadlock (found : bool) : tprog unit :=
  check_wait_graph_fast;;
  if found then check_wait_graph_slow else Ret tt.

(** ** Threads that use the table

    What the operations of the parking lot do with the bucket they have
    locked: queue the calling thread (and take it out again when it times
    out), wake the threads of a key, or move them to another key. *)

Inductive op : Type :=
| OPark (k : Z)
| OUnparkAll (k : Z)
| ORequeue (k1 k2 : Z)
| OCheckDeadlock (found : bool).

Definition run_op (t : tid) (o : op) : tprog unit :=
  match o with
  | OPark k =>
      b <- lock_bucket k;;
      perform (AEnter k);; perform (AAppend k b);; perform AExit;;
      unlock b;;
      woken <- perform AWait;;
      if woken : bool then Ret tt
      else
        r <- lock_bucket_checked t;;
        perform (AEnter r.1);; perform (ARemove r.2);; perform AExit;;
        unlock r.2
  | OUnparkAll k =>
      b <- lock_bucket k;;
      perform (AEnter k);; perform (ATakeAll k b);; perform AExit;;
      unlock b
  | ORequeue k1 k2 =>
      r <- lock_bucket_pair k1 k2;;
      perform (AEnter k1);; perform (AEnter k2);; perform (ARequeue k1 k2 r.1 r.2);; perform AExit;;
      unlock_bucket_pair r.1 r.2
  | OCheckDeadlock found => check_deadlock found
  end.

Fixpoint run_ops (t : tid) (l : list op) : tprog unit :=
  match l with
  | [] => ThreadData_drop
  | o :: l => run_op t o;; run_ops t l
  end.

(** A thread creates its [ThreadData], runs a script, and exits. *)
Definition thread_main (t : tid) (l : list op) : tprog unit := ThreadData_new;; run_ops t l.

Definition start_state : state :=
  MkState None 0 (λ _, (0, 0)) (λ _, None) (λ _, []) (λ _, 0) (λ _, false) 0 (λ _, []) (λ _, []).
(** [n] threads *)
Definition start_pool (n : nat) (scripts : tid → list op) : tid → tprog unit :=
  λ t, if (t <? n)%nat then thread_main t (scripts t) else Ret tt.
End TableLock.
