(* ===== verification/TableLockInv.v ===== *)
(** * The invariant of the growing table (core/src/parking_lot.rs)

    What holds at every step of the threads of [TableLock], what each thread
    knows and holds while it works (its role), and the rule of each action:
    it keeps the invariant and gives the thread its next role. *)

From S2P Require Import Prelude Conc LotTypes FairTimeout BucketQueue BucketRefine HashTable TableLock.
Local Open Scope Z_scope.
Local Open Scope prog_scope.
Import TableLock.
Implicit Types (t u : tid) (b : bucket) (k : Z) (s : state) (T N : nat) (m : meta).

(** ** Invariant *)

(** What a thread knows and holds. *)
Record role := MkRole {
  rl : list bucket;  (* the bucket locks it holds *)
  rc : option nat;  (* a table it holds a lock of and has seen to be current *)
  ra : option nat;  (* a table all of whose locks it holds *)
  rn : option (nat * bool);  (* its private new table; whether it is filled *)
  rk : list Z;  (* the keys it works on *)
  rq : bool;  (* may be in a queue *)
  rp : option Z;  (* its own key, when no other thread can change it *)
  rm : option (nat * option meta);  (* a table it has read *)
  rt : bool;  (* counted in [NUM_THREADS] *)
}.

Definition meta_ok m : Prop := m.1 = 2 ^ m.2 ∧ 2 ≤ m.2 ≤ 63.

Lemma index_lt m k : meta_ok m → (index m k < Z.to_nat m.1)%nat.
Proof.
  intros [-> Hb]. unfold index, hash.
  pose proof (hash_width_bounds usize_bits k m.2 ltac:(unfold usize_bits; lia)). lia.
Qed.

(** The queues of table [T] are those of the keys. *)
Definition good s T : Prop :=
  (∀ k, filter (λ x, cell s x = k) (items s (T, index (tab s T) k)) = spec s k) ∧
  ∀ i x, x ∈ items s (T, i) → index (tab s T) (cell s x) = i.

Record thread_ok s (t : tid) (r : role) : Prop := {
  ok_rl b : b ∈ rl r → (b.1 < ntab s)%nat ∧ (b.2 < Z.to_nat (tab s b.1).1)%nat;
  ok_rc T : rc r = Some T → cur s = Some T ∧ ∃ i, (T, i) ∈ rl r;
  ok_ra T : ra r = Some T →
    (T < ntab s)%nat ∧ ∀ i, (i < Z.to_nat (tab s T).1)%nat → (T, i) ∈ rl r;
  ok_rn N : rn r = Some (N, false) →
    (N < ntab s)%nat ∧ cur s ≠ Some N ∧ ∀ i, items s (N, i) = [];
  ok_moved N : rn r = Some (N, true) →
    (N < ntab s)%nat ∧ cur s ≠ Some N ∧ good s N ∧ rk r = [] ∧
    ∃ T, rc r = Some T ∧ ra r = Some T;
  ok_live : live s t = rk r;
  ok_rk k : k ∈ rk r → ∃ T, rc r = Some T ∧ (T, index (tab s T) k) ∈ rl r;
  ok_rq : rq r = false → ∀ k, t ∉ spec s k;
  ok_rp k : rp r = Some k →
    cell s t = k ∧ ∃ T, rc r = Some T ∧ (T, index (tab s T) k) ∈ rl r;
  ok_rm T o : rm r = Some (T, o) → (T < ntab s)%nat ∧ ∀ m, o = Some m → tab s T = m;
}.

(** How many of the first [n] threads are counted. *)
Definition alive (n : nat) (ρ : tid → role) : nat :=
  length (filter (λ t, rt (ρ t) = true) (seq 0 n)).

Record TInv (n : nat) s (g : unit) (ρ : tid → role) : Prop := {
  ti_thread t : thread_ok s t (ρ t);
  ti_lk b t : lk s b = Some t ↔ b ∈ rl (ρ t);
  ti_tab T : (T < ntab s)%nat → meta_ok (tab s T);
  ti_cur T : cur s = Some T → (T < ntab s)%nat;
  ti_rn t u N x y : rn (ρ t) = Some (N, x) → rn (ρ u) = Some (N, y) → t = u;
  ti_fresh T i : (ntab s ≤ T)%nat → items s (T, i) = [];
  ti_good T : cur s = Some T → good s T ∨ ∃ t N, rn (ρ t) = Some (N, true);
  ti_none : cur s = None → ∀ k, spec s k = [];
  ti_parked t k : t ∈ spec s k → parked s t = true;
  ti_cell t k : t ∈ spec s k → cell s t = k;
  ti_count : nthreads s = Z.of_nat (alive n ρ);
  ti_rt t : rt (ρ t) = true → (t < n)%nat;
}.

(** ** Facts of the invariant *)

Lemma not_two_locks n s g ρ b t u : TInv n s g ρ → b ∈ rl (ρ t) → b ∈ rl (ρ u) → t = u.
Proof.
  intros HI Ht Hu. apply (ti_lk _ _ _ _ HI) in Ht, Hu. congruence.
Qed.

(** A thread with a lock of the current table keeps every other thread from
    having all of them. *)
Lemma rc_excludes n s g ρ t u T T' :
  TInv n s g ρ → rc (ρ t) = Some T → rc (ρ u) = Some T' → ra (ρ u) = Some T' → t = u.
Proof.
  intros HI Ht Hu Ha. destruct (ok_rc _ _ _ (ti_thread _ _ _ _ HI t) T Ht) as [Hc [i Hi]].
  destruct (ok_rc _ _ _ (ti_thread _ _ _ _ HI u) T' Hu) as [Hc' _].
  assert (T' = T) as -> by congruence.
  eapply not_two_locks; [done|exact Hi|]. apply (ok_ra _ _ _ (ti_thread _ _ _ _ HI u) T Ha).
  by destruct (ok_rl _ _ _ (ti_thread _ _ _ _ HI t) _ Hi) as [_ ?].
Qed.

Lemma rc_good n s g ρ t T :
  TInv n s g ρ → rc (ρ t) = Some T → (∀ N, rn (ρ t) ≠ Some (N, true)) →
  good s T ∧ ∀ u N, rn (ρ u) ≠ Some (N, true).
Proof.
  intros HI Ht Hn. assert (Hall : ∀ u N, rn (ρ u) ≠ Some (N, true)).
  { intros u N E. destruct (ok_moved _ _ _ (ti_thread _ _ _ _ HI u) N E) as (_ & _ & _ & _ & T' & E1 & E2).
    assert (t = u) as -> by (by eapply rc_excludes). by eapply Hn. }
  split; [|done]. destruct (ti_good _ _ _ _ HI T) as [?|(u & N & E)]; [|done|by apply Hall in E].
  by apply (ok_rc _ _ _ (ti_thread _ _ _ _ HI t)) in Ht as [? _].
Qed.

Lemma good_spec s T i x : good s T → x ∈ items s (T, i) → x ∈ spec s (cell s x).
Proof.
  intros [Hg Hp] Hx. rewrite <- (Hg (cell s x)), (Hp i x Hx). by apply list_elem_of_filter.
Qed.

Lemma alive_same n ρ t r : rt r = rt (ρ t) → alive n (<[t := r]> ρ) = alive n ρ.
Proof.
  intros E. unfold alive. f_equal. apply list_filter_iff. intros u. fn_cases t u; by rewrite ?E.
Qed.

Lemma alive_change n ρ t r :
  (t < n)%nat → rt (ρ t) = false → rt r = true →
  alive n (<[t := r]> ρ) = S (alive n ρ) ∧ (alive n ρ < n)%nat.
Proof.
  intros Ht E E'. unfold alive.
  assert (Hs : seq 0 n = seq 0 t ++ t :: seq (S t) (n - S t)).
  { replace n with (t + S (n - S t))%nat at 1 by lia. by rewrite seq_app. }
  assert (Hsame : ∀ l : list tid, t ∉ l → filter (λ u, rt ((<[t := r]> ρ) u) = true) l
                               = filter (λ u, rt (ρ u) = true) l).
  { induction l as [|u l IH]; [done|]. intros [Hu Hl]%not_elem_of_cons.
    rewrite !filter_cons, IH by done. fn_cases t u; [done|]. done. }
  assert (Hlen : ∀ l : list tid, (length (filter (λ u, rt (ρ u) = true) l) ≤ length l)%nat).
  { intros l. apply length_filter. }
  pose proof (Hlen (seq 0 t)). pose proof (Hlen (seq (S t) (n - S t))).
  rewrite length_seq in *.
  rewrite Hs, !(filter_app _ (seq 0 t)), !length_app.
  rewrite !Hsame by (rewrite elem_of_seq; lia).
  rewrite (filter_cons_True (λ u, rt ((<[t := r]> ρ) u) = true)) by (by rewrite fn_insert_eq).
  rewrite (filter_cons_False (λ u, rt (ρ u) = true)) by (by rewrite E).
  rewrite !Hsame by (rewrite elem_of_seq; lia). cbn. lia.
Qed.

(** A thread reads, or changes what it knows. *)
Lemma inv_role n s g ρ t r :
  TInv n s g ρ → thread_ok s t r → rl r = rl (ρ t) → rt r = rt (ρ t) →
  (∀ N x, rn r = Some (N, x) → rn (ρ t) = Some (N, x)) →
  (∀ N, rn (ρ t) = Some (N, true) → rn r = Some (N, true)) →
  TInv n s g (<[t := r]> ρ).
Proof.
  intros HI Hok El Et En Em. destruct HI. split; try done.
  - intros u. by fn_cases t u.
  - intros b u. fn_cases t u; rewrite ?El; apply ti_lk0.
  - intros u v N x y Hu Hv. rewrite fn_insert_case in Hu, Hv.
    destruct (decide (t = u)), (decide (t = v)); subst; eauto.
  - intros T HT. destruct (ti_good0 T HT) as [?|(u & N & E)]; [by left|right].
    exists u, N. rewrite fn_insert_case. destruct (decide (t = u)); subst; eauto.
  - by rewrite alive_same.
  - intros u. fn_cases t u; rewrite ?Et; eauto.
Qed.

(** ** Steps that change the table pointer *)

Lemma good_add m s T : (T < ntab s)%nat → good s T → good (add_table m s) T.
Proof.
  intros HT [Hg Hp]. assert (E : tab (add_table m s) T = tab s T).
  { cbn. by rewrite fn_insert_ne by lia. }
  split; intros; rewrite E; cbn in *; auto.
Qed.

Lemma thread_ok_add m s t r :
  (∀ T, cur s = Some T → (T < ntab s)%nat) →
  thread_ok s t r → thread_ok (add_table m s) t r.
Proof.
  intros Hcur H. assert (E : ∀ T, (T < ntab s)%nat → tab (add_table m s) T = tab s T).
  { intros T HT. cbn. by rewrite fn_insert_ne by lia. }
  assert (Hrc : ∀ T, rc r = Some T → (T < ntab s)%nat) by (intros T HT; by apply Hcur, H).
  destruct H as [Hl Hc Ha Hn Hm Hlv Hk Hq Hp Hr]. split; try done.
  - intros b Hb. destruct (Hl b Hb). rewrite E by done. cbn. lia.
  - intros T HT. destruct (Ha T HT) as [Hlt Hi]. rewrite E by done. cbn. split; [lia|done].
  - intros N EN. destruct (Hn N EN) as (? & ? & ?). cbn. split; [lia|done].
  - intros N EN. destruct (Hm N EN) as (? & ? & ? & ?). cbn. split; [lia|].
    split; [done|]. split; [by apply good_add|done].
  - intros k Hin. destruct (Hk k Hin) as (T & HT & ?). exists T. by rewrite E by auto.
  - intros k Hin. destruct (Hp k Hin) as (? & T & HT & ?). split; [done|]. exists T.
    by rewrite E by auto.
  - intros T o HT. destruct (Hr T o HT) as [? Hm']. rewrite E by done. cbn. split; [lia|done].
Qed.

(** A new table is private. *)
Lemma inv_new_table n s g ρ t r m :
  TInv n s g ρ → meta_ok m → rn (ρ t) = None → rl r = rl (ρ t) → rt r = rt (ρ t) →
  rn r = Some (ntab s, false) → thread_ok (add_table m s) t r →
  TInv n (add_table m s) g (<[t := r]> ρ).
Proof.
  intros HI Hm En El Et En' Hok.
  assert (Hold : ∀ u N x, rn (ρ u) = Some (N, x) → (N < ntab s)%nat).
  { intros u N [] E; [by apply (ok_moved _ _ _ (ti_thread _ _ _ _ HI u)) in E as [? _]|].
    by apply (ok_rn _ _ _ (ti_thread _ _ _ _ HI u)) in E as [? _]. }
  destruct HI. split; try done.
  - intros u. fn_cases t u; [done|]. by apply thread_ok_add.
  - intros b u. fn_cases t u; rewrite ?El; apply ti_lk0.
  - intros T HT. cbn in *. destruct (decide (ntab s = T)) as [<-|]; fn_simp; [done|].
    apply ti_tab0. lia.
  - intros T HT. cbn in *. apply ti_cur0 in HT. lia.
  - intros u v N x y Hu Hv. rewrite fn_insert_case in Hu, Hv.
    destruct (decide (t = u)) as [<-|], (decide (t = v)) as [<-|];
      rewrite ?En' in *; simplify_eq; eauto.
    + apply Hold in Hv. lia.
    + apply Hold in Hu. lia.
  - intros T i HT. cbn in *. apply ti_fresh0. lia.
  - intros T HT. destruct (ti_good0 T HT) as [?|(u & N & E)].
    + left. apply good_add; eauto.
    + right. exists u, N. rewrite fn_insert_ne; [done|]. intros ->. by rewrite En in E.
  - cbn. by rewrite alive_same.
  - intros u. fn_cases t u; rewrite ?Et; eauto.
Qed.

(** It is published when no other thread relies on the old one. *)
Lemma inv_publish n s g ρ t r N x :
  TInv n s g ρ → rn (ρ t) = Some (N, x) → good s N → (∀ u, u ≠ t → rc (ρ u) = None) →
  rl r = rl (ρ t) → rt r = rt (ρ t) → rn r = None → thread_ok (set_cur (Some N) s) t r →
  TInv n (set_cur (Some N) s) g (<[t := r]> ρ).
Proof.
  intros HI EN HG Hoth El Et En' Hok.
  assert (HN : (N < ntab s)%nat).
  { destruct x; [by apply (ok_moved _ _ _ (ti_thread _ _ _ _ HI t)) in EN as [? _]|].
    by apply (ok_rn _ _ _ (ti_thread _ _ _ _ HI t)) in EN as [? _]. }
  assert (Hne : ∀ u M y, u ≠ t → rn (ρ u) = Some (M, y) → M ≠ N).
  { intros u M y Hu HM ->. apply Hu. by apply (ti_rn _ _ _ _ HI _ _ _ _ _ HM EN). }
  destruct HI. split; try done.
  - intros u. fn_cases t u; [done|]. specialize (Hoth u ltac:(done)).
    specialize (ti_thread0 u) as [Hl Hc Ha Hn Hm Hlv Hk Hq Hp Hr]. split; try done.
    + intros T HT. congruence.
    + intros M EM. destruct (Hn M EM) as (? & _ & ?). split; [done|]. split; [|done].
      cbn. intros [= ->]. by apply (Hne _ _ _ (not_eq_sym n0) EM).
    + intros M EM. destruct (Hm M EM) as (_ & _ & _ & _ & T & ? & _). congruence.
  - intros b u. fn_cases t u; rewrite ?El; apply ti_lk0.
  - intros T [= <-]. done.
  - intros u v M y z Hu Hv. rewrite fn_insert_case in Hu, Hv.
    destruct (decide (t = u)), (decide (t = v)); subst; rewrite ?En' in *; simplify_eq; eauto.
  - intros T [= <-]. by left.
  - cbn. by rewrite alive_same.
  - intros u. fn_cases t u; rewrite ?Et; eauto.
Qed.

(** ** Steps on the locks, the counter and the keys in use *)

(** Facts of a thread that do not depend on the locks or on other threads. *)
Lemma thread_ok_same s s' t r :
  cur s' = cur s → ntab s' = ntab s → tab s' = tab s → items s' = items s →
  cell s' = cell s → spec s' = spec s → live s' t = live s t →
  thread_ok s t r → thread_ok s' t r.
Proof.
  destruct s, s'; cbn. intros -> -> -> -> -> -> El H. destruct H; cbn in *.
  split; cbn in *; try done; congruence.
Qed.

Lemma good_same s s' T :
  tab s' = tab s → items s' = items s → cell s' = cell s → spec s' = spec s →
  good s T → good s' T.
Proof. destruct s, s'; cbn. by intros -> -> -> ->. Qed.

(** A step that leaves the tables and the queues as they are. *)
Lemma inv_frame n s s' g ρ t r :
  TInv n s g ρ →
  cur s' = cur s → ntab s' = ntab s → tab s' = tab s → items s' = items s →
  cell s' = cell s → spec s' = spec s → parked s' = parked s →
  (∀ u, u ≠ t → live s' u = live s u) →
  (∀ b u, lk s' b = Some u ↔ b ∈ rl ((<[t := r]> ρ) u)) →
  nthreads s' = Z.of_nat (alive n (<[t := r]> ρ)) →
  rn r = rn (ρ t) → (rt r = true → (t < n)%nat) → thread_ok s' t r →
  TInv n s' g (<[t := r]> ρ).
Proof.
  intros HI Ec En Et Ei Ek Es Ep El Hlk Hn Er Hrt Hok. destruct HI. split; try done.
  - intros u. fn_cases t u; [done|]. apply (thread_ok_same s); try done. by apply El.
  - by rewrite Et, En.
  - by rewrite Ec, En.
  - intros u v N x y Hu Hv. rewrite fn_insert_case in Hu, Hv.
    destruct (decide (t = u)), (decide (t = v)); subst; rewrite ?Er in *; eauto.
  - by rewrite En, Ei.
  - intros T. rewrite Ec. intros HT. destruct (ti_good0 T HT) as [?|(u & N & E)].
    + left. by apply (good_same s).
    + right. exists u, N. fn_cases t u; by rewrite ?Er.
  - by rewrite Ec, Es.
  - by rewrite Es, Ep.
  - by rewrite Es, Ek.
  - intros u. fn_cases t u; eauto.
Qed.

Lemma inv_lock n s g ρ t r b :
  TInv n s g ρ → lk s b = None → rl r = b :: rl (ρ t) → rt r = rt (ρ t) →
  rn r = rn (ρ t) → thread_ok s t r → TInv n (set_lk b (Some t) s) g (<[t := r]> ρ).
Proof.
  intros HI Hb El Et En Hok. pose proof (ti_lk _ _ _ _ HI) as Hlk.
  apply (inv_frame n s); try done.
  - intros b' u. cbn. rewrite (fn_insert_case (lk s)). destruct (decide (b = b')) as [<-|Hne].
    + fn_cases t u; [rewrite El; set_solver|]. split; [congruence|].
      intros Hin%Hlk. congruence.
    + rewrite Hlk. fn_cases t u; [rewrite El|done]. set_solver.
  - rewrite alive_same by done. apply HI.
  - rewrite Et. apply HI.
  - by apply (thread_ok_same s).
Qed.

Lemma inv_unlock n s g ρ t r b :
  TInv n s g ρ → (∀ b', b' ∈ rl r ↔ b' ∈ rl (ρ t) ∧ b' ≠ b) → b ∈ rl (ρ t) →
  rt r = rt (ρ t) → rn r = rn (ρ t) → thread_ok s t r →
  TInv n (set_lk b None s) g (<[t := r]> ρ).
Proof.
  intros HI El Hb Et En Hok. pose proof (ti_lk _ _ _ _ HI) as Hlk.
  apply (inv_frame n s); try done.
  - intros b' u. cbn. rewrite (fn_insert_case (lk s)). destruct (decide (b = b')) as [<-|Hne].
    + split; [done|]. intros Hin. exfalso. rewrite fn_insert_case in Hin.
      destruct (decide (t = u)) as [<-|Hu]; [by apply El in Hin as [_ ?]|].
      by eapply Hu, not_two_locks.
    + rewrite Hlk. fn_cases t u; [|done]. rewrite El. naive_solver.
  - rewrite alive_same by done. apply HI.
  - rewrite Et. apply HI.
  - by apply (thread_ok_same s).
Qed.

Lemma inv_live n s g ρ t r l :
  TInv n s g ρ → rl r = rl (ρ t) → rt r = rt (ρ t) → rn r = rn (ρ t) →
  thread_ok (set_live t l s) t r → TInv n (set_live t l s) g (<[t := r]> ρ).
Proof.
  intros HI El Et En Hok. apply (inv_frame n s); try done.
  - intros u Hu. cbn. by rewrite fn_insert_ne.
  - intros b u. fn_cases t u; rewrite ?El; apply HI.
  - rewrite alive_same by done. apply HI.
  - rewrite Et. apply HI.
Qed.

Lemma inv_count n s g ρ t r x :
  TInv n s g ρ → rl r = rl (ρ t) → rn r = rn (ρ t) → (rt r = true → (t < n)%nat) →
  x = Z.of_nat (alive n (<[t := r]> ρ)) →
  thread_ok s t r → TInv n (set_nthreads x s) g (<[t := r]> ρ).
Proof.
  intros HI El En Et Ex Hok. apply (inv_frame n s); try done.
  - intros b u. fn_cases t u; rewrite ?El; apply HI.
  - by apply (thread_ok_same s).
Qed.

(** ** Steps on the queues *)

(** A step on the queues of the current table, by a thread that holds a lock
    of it. *)
Lemma inv_queues n s g ρ t r T f c p q :
  let s' := set_queues f c p q s in
  TInv n s g ρ → rc (ρ t) = Some T → rn (ρ t) = None →
  rl r = rl (ρ t) → rt r = rt (ρ t) → rn r = None →
  (∀ b, b.1 ≠ T → f b = items s b) → good s' T →
  (∀ u k, u ∈ q k → p u = true ∧ c u = k) →
  (∀ u, u ≠ t → (∀ k, u ∉ spec s k) → ∀ k, u ∉ q k) →
  (∀ u k, u ≠ t → rp (ρ u) = Some k → c u = k) →
  thread_ok s' t r → TInv n s' g (<[t := r]> ρ).
Proof.
  intros s' HI Hc Hrn El Et Er Hf Hg Hq Hsp Hp Hok.
  destruct (rc_good n s g ρ t T HI Hc ltac:(by rewrite Hrn)) as [_ Hno].
  destruct (ok_rc _ _ _ (ti_thread _ _ _ _ HI t) T Hc) as [Hcur _].
  pose proof (ti_cur _ _ _ _ HI T Hcur) as HT. destruct HI. split; try done.
  - intros u. fn_cases t u; [done|].
    destruct (ti_thread0 u) as [Hl Hc' Ha Hn Hm Hlv Hk Hq' Hp' Hr]. split; try done.
    + intros N EN. destruct (Hn N EN) as (? & HN & Hi). split; [done|]. split; [done|].
      intros i. cbn. rewrite Hf; [done|]. cbn. congruence.
    + intros N EN. by apply Hno in EN.
    + intros Eq. apply Hsp; auto.
    + intros k Ek. split; [by apply Hp|]. by apply Hp'.
  - intros b u. fn_cases t u; rewrite ?El; apply ti_lk0.
  - intros u v N x y Hu Hv. rewrite fn_insert_case in Hu, Hv.
    destruct (decide (t = u)), (decide (t = v)); subst; rewrite ?Er in *; eauto; done.
  - intros T' i HT'. cbn in *. rewrite Hf; [by apply ti_fresh0|]. cbn. lia.
  - intros T' HT'. left. cbn in HT'. by replace T' with T by congruence.
  - cbn. congruence.
  - intros u k Hu. by apply (Hq u k).
  - intros u k Hu. by apply (Hq u k).
  - cbn. by rewrite alive_same.
  - intros u. fn_cases t u; rewrite ?Et; eauto.
Qed.

(** The items of a table in the order of its buckets, one key at a time. *)
Lemma all_items_key s T k :
  meta_ok (tab s T) → good s T →
  filter (λ x, cell s x = k) (all_items T s) = spec s k.
Proof.
  intros Hm [Hg Hp]. unfold all_items, indices.
  rewrite (filter_concat_one _ (λ i, items s (T, i)) (index (tab s T) k)).
  - apply Hg.
  - intros i x Hx <-. by apply Hp in Hx as <-.
  - pose proof (index_lt (tab s T) k Hm). lia.
Qed.

Lemma rehash_good s T N :
  meta_ok (tab s T) → good s T →
  good (set_queues (rehash T N s) (cell s) (parked s) (spec s) s) N.
Proof.
  intros Hm Hg. split; cbn; unfold rehash; cbn.
  - intros k. rewrite decide_True by done. rewrite <- (all_items_key s T k Hm Hg).
    by apply filter_weaken; intros x <-.
  - intros i x. rewrite decide_True by done. by intros [? _]%list_elem_of_filter.
Qed.

Lemma inv_rehash n s g ρ t r T N :
  let s' := set_queues (rehash T N s) (cell s) (parked s) (spec s) s in
  TInv n s g ρ → rc (ρ t) = Some T → ra (ρ t) = Some T → rn (ρ t) = Some (N, false) →
  rk (ρ t) = [] →
  r = MkRole (rl (ρ t)) (Some T) (Some T) (Some (N, true)) (rk (ρ t)) (rq (ρ t)) (rp (ρ t))
        (rm (ρ t)) (rt (ρ t)) →
  TInv n s' g (<[t := r]> ρ).
Proof.
  intros s' HI Hc Ha Hrn Hrk ->. set (r := MkRole _ _ _ _ _ _ _ _ _).
  destruct (rc_good n s g ρ t T HI Hc ltac:(by rewrite Hrn)) as [Hg Hno].
  destruct (ok_rc _ _ _ (ti_thread _ _ _ _ HI t) T Hc) as [Hcur _].
  pose proof (ti_cur _ _ _ _ HI T Hcur) as HT.
  pose proof (rehash_good s T N (ti_tab _ _ _ _ HI T HT) Hg) as Hg'.
  destruct (ok_rn _ _ _ (ti_thread _ _ _ _ HI t) N Hrn) as (HN & HcN & _).
  assert (Hkeep : ∀ M i, M ≠ N → M ≠ T → items s' (M, i) = items s (M, i)).
  { intros M i H1 H2. cbn. unfold rehash. cbn. by rewrite !decide_False. }
  destruct HI. split; try done.
  - intros u. rewrite fn_insert_case. destruct (decide (t = u)) as [<-|Hu].
    + destruct (ti_thread0 t) as [Hl Hc' Ha' Hn Hm Hlv Hk Hq Hp Hr].
      rewrite Hc in Hc', Hk, Hp. rewrite Ha in Ha'. split; try done.
      cbn. intros M [= <-]. split; [done|]. split; [done|]. split; [done|].
      split; [done|]. by exists T.
    + destruct (ti_thread0 u) as [Hl Hc' Ha' Hn Hm Hlv Hk Hq Hp Hr]. split; try done.
      * intros M EM. destruct (Hn M EM) as (? & HM & Hi). split; [done|]. split; [done|].
        intros i. rewrite Hkeep; [done| |congruence].
        intros ->. apply Hu. by apply (ti_rn0 _ _ _ _ _ Hrn EM).
      * intros M EM. by apply Hno in EM.
  - intros b u. fn_cases t u; apply ti_lk0.
  - assert (Hr : ∀ u N' x, rn ((<[t:=r]> ρ) u) = Some (N', x) → ∃ y, rn (ρ u) = Some (N', y)).
    { intros u N' x. fn_cases t u; [|eauto]. cbn. intros [= <- <-]. eauto. }
    intros u v N' x y [? Hu]%Hr [? Hv]%Hr. eauto.
  - intros M i HM. rewrite Hkeep; [by apply ti_fresh0|cbn in HM; lia..].
  - intros T' _. right. exists t, N. by rewrite fn_insert_eq.
  - cbn. by rewrite alive_same.
  - intros u. fn_cases t u; apply ti_rt0.
Qed.

Lemma filter_ext_in {A} (P Q : A → Prop) `{!∀ x, Decision (P x), !∀ x, Decision (Q x)}
    (l : list A) :
  (∀ x, x ∈ l → P x ↔ Q x) → filter P l = filter Q l.
Proof.
  induction l as [|x l IH]; intros Hx; [done|]. rewrite !filter_cons, IH by set_solver.
  pose proof (Hx x ltac:(set_solver)). repeat case_decide; naive_solver.
Qed.

Lemma filter_all {A} (P : A → Prop) `{!∀ x, Decision (P x)} (l : list A) :
  (∀ x, x ∈ l → P x) → filter P l = l.
Proof.
  induction l as [|x l IH]; intros Hx; [done|].
  rewrite filter_cons_True, IH by set_solver. done.
Qed.

Lemma good_ext s f c c' p q T :
  (∀ x, c x = c' x) → good (set_queues f c p q s) T → good (set_queues f c' p q s) T.
Proof.
  intros E [Hg Hp]. split; cbn in *.
  - intros k. rewrite <- (Hg k). apply list_filter_iff. intros x. by rewrite E.
  - intros i x. rewrite <- E. apply Hp.
Qed.

Lemma set_all_in {B} (l : list tid) (v : B) f x : x ∈ l → set_all l v f x = v.
Proof. intros H. unfold set_all. by rewrite decide_True. Qed.
Lemma set_all_out {B} (l : list tid) (v : B) f x : x ∉ l → set_all l v f x = f x.
Proof. intros H. unfold set_all. by rewrite decide_False. Qed.

(** The bucket of another key than [k] holds none of the threads of [k], so a
    step on the threads of [k] is seen by no other key. *)
Section queue_steps.
Context (s : state) (T : nat) (Hg : good s T).
Local Definition bk k : bucket := (T, index (tab s T) k).

Lemma good_in k x : x ∈ items s (bk k) → cell s x = k → x ∈ spec s k.
Proof. intros Hx <-. by eapply good_spec. Qed.

Lemma in_spec k x : x ∈ spec s k → x ∈ items s (bk k) ∧ cell s x = k.
Proof. rewrite <- (proj1 Hg k). by intros [? ?]%list_elem_of_filter. Qed.

Lemma good_append k l p :
  (∀ x k', x ∈ l → x ∉ spec s k') →
  good (set_queues (<[bk k := items s (bk k) ++ l]> (items s)) (set_all l k (cell s)) p
          (<[k := spec s k ++ l]> (spec s)) s) T.
Proof.
  intros Hl. assert (Hx : ∀ i x, x ∈ items s (T, i) → set_all l k (cell s) x = cell s x).
  { intros i x Hx. apply set_all_out. intros Hin. by eapply Hl, good_spec. }
  assert (Hsame : ∀ k' i, filter (λ x, set_all l k (cell s) x = k') (items s (T, i))
                          = filter (λ x, cell s x = k') (items s (T, i))).
  { intros k' i. apply filter_ext_in. intros x Hin. by rewrite (Hx i x Hin). }
  split; cbn.
  - intros k'. fold (bk k'). rewrite (fn_insert_case (items s)), (fn_insert_case (spec s)).
    destruct (decide (bk k = bk k')) as [E|E].
    + rewrite filter_app, E. unfold bk at 1. rewrite Hsame, (proj1 Hg k').
      destruct (decide (k = k')) as [<-|].
      * f_equal. apply filter_all. intros x Hin. by rewrite set_all_in.
      * rewrite filter_none; [by rewrite app_nil_r|]. intros x Hin. by rewrite set_all_in.
    + destruct (decide (k = k')) as [->|]; [done|]. unfold bk. by rewrite Hsame, (proj1 Hg k').
  - intros i x. rewrite (fn_insert_case (items s)). destruct (decide (bk k = (T, i))) as [E|E].
    + rewrite E. intros [Hin|Hin]%elem_of_app.
      * rewrite (Hx i x Hin). by apply (proj2 Hg).
      * rewrite set_all_in by done. by injection E.
    + intros Hin. rewrite (Hx i x Hin). by apply (proj2 Hg).
Qed.

(** Keep the threads of the bucket of [k] that satisfy [P], which all threads
    of other keys do. *)
Lemma good_keep k (P : tid → Prop) `{!∀ x, Decision (P x)} p :
  (∀ x, cell s x ≠ k → P x) →
  good (set_queues (<[bk k := filter P (items s (bk k))]> (items s)) (cell s) p
          (<[k := filter P (spec s k)]> (spec s)) s) T.
Proof.
  intros HP. split; cbn.
  - intros k'. fold (bk k'). rewrite (fn_insert_case (items s)), (fn_insert_case (spec s)).
    destruct (decide (k = k')) as [<-|Hk].
    + rewrite decide_True by done. rewrite <- (proj1 Hg k), !list_filter_filter.
      apply list_filter_iff. naive_solver.
    + destruct (decide (bk k = bk k')) as [E|E]; [|by rewrite <- (proj1 Hg k')].
      rewrite E, <- (proj1 Hg k'). apply filter_weaken. intros x Hx. apply HP. congruence.
  - intros i x. rewrite (fn_insert_case (items s)). destruct (decide (bk k = (T, i))) as [E|E].
    + rewrite E. intros [_ ?]%list_elem_of_filter. by apply (proj2 Hg).
    + by apply (proj2 Hg).
Qed.
End queue_steps.

(** Taking all threads of a key, and moving them to another one. *)
Lemma good_take s T k p :
  good s T →
  good (set_queues (<[bk s T k := filter (λ x, cell s x ≠ k) (items s (bk s T k))]> (items s))
          (cell s) p (<[k := []]> (spec s)) s) T.
Proof.
  intros Hg. assert (E : filter (λ x, cell s x ≠ k) (spec s k) = []).
  { apply filter_none. intros x Hx. apply (in_spec s T Hg) in Hx as [_ ?]. naive_solver. }
  rewrite <- E. by apply good_keep.
Qed.

Lemma good_requeue s T k1 k2 :
  good s T →
  let moved := filter (λ x, cell s x = k1) (items s (bk s T k1)) in
  let f := <[bk s T k1 := filter (λ x, cell s x ≠ k1) (items s (bk s T k1))]> (items s) in
  let q := <[k1 := []]> (spec s) in
  good (set_queues (<[bk s T k2 := f (bk s T k2) ++ moved]> f) (set_all moved k2 (cell s))
          (parked s) (<[k2 := q k2 ++ spec s k1]> q) s) T.
Proof.
  intros Hg moved f q.
  assert (E : moved = spec s k1) by apply (proj1 Hg). rewrite <- E.
  pose proof (good_take s T k1 (parked s) Hg) as Hg1.
  assert (Hl : ∀ x k', x ∈ moved → x ∉ q k').
  { intros x k' Hx. unfold q. fn_cases k1 k'; [set_solver|]. rewrite E in Hx.
    intros Hx'. apply (in_spec s T Hg) in Hx as [_ ?], Hx' as [_ ?]. congruence. }
  exact (good_append _ T Hg1 k2 moved (parked s) Hl).
Qed.

(** ** Rules for the actions *)

Definition set_rl l r := MkRole l (rc r) (ra r) (rn r) (rk r) (rq r) (rp r) (rm r) (rt r).
Definition set_rc o r := MkRole (rl r) o (ra r) (rn r) (rk r) (rq r) (rp r) (rm r) (rt r).
Definition set_ra o r := MkRole (rl r) (rc r) o (rn r) (rk r) (rq r) (rp r) (rm r) (rt r).
Definition set_rn o r := MkRole (rl r) (rc r) (ra r) o (rk r) (rq r) (rp r) (rm r) (rt r).
Definition set_rk l r := MkRole (rl r) (rc r) (ra r) (rn r) l (rq r) (rp r) (rm r) (rt r).
Definition set_rq q r := MkRole (rl r) (rc r) (ra r) (rn r) (rk r) q (rp r) (rm r) (rt r).
Definition set_rp o r := MkRole (rl r) (rc r) (ra r) (rn r) (rk r) (rq r) o (rm r) (rt r).
Definition set_rm o r := MkRole (rl r) (rc r) (ra r) (rn r) (rk r) (rq r) (rp r) o (rt r).
Definition set_rt a r := MkRole (rl r) (rc r) (ra r) (rn r) (rk r) (rq r) (rp r) (rm r) a.

(** What is left when a bucket is unlocked. *)
Definition drop_lock b r :=
  MkRole (filter (λ b', b' ≠ b) (rl r)) None None (rn r) [] (rq r) None (rm r) (rt r).

(** A thread waits only for a bucket of the table of the ones it holds, with
    a larger index. *)
Definition blocked (t : tid) (r : role) (s : state) : Prop :=
  ∃ b u, lk s b = Some u ∧ ∀ b', b' ∈ rl r → b'.1 = b.1 ∧ (b'.2 < b.2)%nat.

Ltac always := intros; left; exists 0; cbn; repeat case_match; by eexists.
Ltac act_step s g ρ c HI :=
  apply wp_act; [always|];
  let Hr := fresh "Hr" in let Hex := fresh "Hex" in
  intros s g ρ c ?s' ?v Hr HI Hex; cbn in Hex; injection Hex as <- <-.

Section rules.
Context (n : nat).
Context (t : tid).
Abbreviation twp := (wp exec (TInv n) (λ _ _, False) blocked t).
Implicit Types (r : role).

Lemma new_meta_ok c x :
  1 ≤ x → x * LOAD_FACTOR ≤ 2 ^ 63 → meta_ok (len (HashTable_new c x), hash_bits (HashTable_new c x)).
Proof. intros H1 H2. destruct (HashTable_new_size c x H1 H2) as (? & ? & _). by split. Qed.

(** The state is unchanged: what the thread learns. *)
Lemma inv_learn s g ρ r r' :
  TInv n s g ρ → ρ t = r → rl r' = rl r → rt r' = rt r → rn r' = rn r →
  thread_ok s t r' → TInv n s g (<[t := r']> ρ).
Proof.
  intros HI <- El Et En Hok. apply inv_role; try done; intros *; by rewrite En.
Qed.

Lemma thread_of s g ρ r : TInv n s g ρ → ρ t = r → thread_ok s t r.
Proof. intros HI <-. apply HI. Qed.

Lemma twp_table_meta r T o Q :
  rm r = Some (T, o) → (∀ m, meta_ok m → Q m (set_rm (Some (T, Some m)) r)) →
  twp (table_meta T) r Q.
Proof.
  intros Er HQ. act_step s g ρ c HI. pose proof (thread_of _ _ _ _ HI Hr) as Hok.
  destruct (ok_rm _ _ _ Hok T o Er) as [HT _].
  exists g, (set_rm (Some (T, Some (tab s T))) r). split.
  - eapply inv_learn; try done. destruct Hok. split; try done. cbn.
    intros T' o' [= <- <-]. split; [done|]. by intros m [= <-].
  - apply wp_ret, HQ. by apply (ti_tab _ _ _ _ HI).
Qed.

Lemma twp_lock r T m i Q :
  rm r = Some (T, Some m) → (i < Z.to_nat m.1)%nat →
  (∀ b, b ∈ rl r → b.1 = T ∧ (b.2 < i)%nat) →
  Q tt (set_rl ((T, i) :: rl r) r) → twp (lock (T, i)) r Q.
Proof.
  intros Er Hi Hord HQ. apply wp_act.
  - intros s g ρ Hr HI. cbn. destruct (lk s (T, i)) as [u|] eqn:E.
    + right. exists (T, i), u. split; [done|]. exact Hord.
    + left. exists 0. by eexists.
  - intros s g ρ c s' [] Hr HI Hex. cbn in Hex.
    destruct (lk s (T, i)) eqn:E; [done|]. injection Hex as <-.
    pose proof (thread_of _ _ _ _ HI Hr) as Hok.
    exists g, (set_rl ((T, i) :: rl r) r). split; [|by apply wp_ret].
    apply inv_lock; rewrite ?Hr; try done.
    destruct (ok_rm _ _ _ Hok _ _ Er) as [HT Em].
    destruct Hok as [Hl Hc Ha Hn' Hm Hlv Hk Hq Hp Hr']. split; try done; cbn.
    + intros b [->|?]%elem_of_cons; [|by apply Hl]. split; [done|]. cbn. by rewrite (Em _ eq_refl).
    + intros T' HT'. destruct (Hc T' HT') as [? [j ?]]. split; [done|]. exists j. by right.
    + intros T' HT'. destruct (Ha T' HT') as [? Hall]. split; [done|]. intros j ?. right. auto.
    + intros k Hk'. destruct (Hk k Hk') as (T' & ? & ?). exists T'. split; [done|]. by right.
    + intros k Hk'. destruct (Hp k Hk') as (? & T' & ? & ?). split; [done|]. exists T'.
      split; [done|]. by right.
Qed.

Lemma twp_unlock r b Q :
  b ∈ rl r → rk r = [] → rn r = None → Q tt (drop_lock b r) → twp (unlock b) r Q.
Proof.
  intros Hb Ek En HQ. act_step s g ρ c HI. exists g, (drop_lock b r). split; [|by apply wp_ret].
  pose proof (thread_of _ _ _ _ HI Hr) as Hok.
  apply inv_unlock; rewrite ?Hr; try done.
  - intros b'. cbn. rewrite list_elem_of_filter. naive_solver.
  - destruct Hok as [Hl Hc Ha Hn' Hm Hlv Hk Hq Hp Hr']. split; try done; cbn; try (intros; congruence); [|set_solver].
    intros b' [_ ?]%list_elem_of_filter. by apply Hl.
Qed.

(** Read the table pointer with a bucket of [T] locked. *)
Lemma twp_confirm r T i Q :
  (T, i) ∈ rl r → rc r = None → rk r = [] → rp r = None → rn r = None →
  Q (Some T) (set_rc (Some T) r) → (∀ o, o ≠ Some T → Q o r) → twp load_table r Q.
Proof.
  intros Hi Ec Ek Ep En HT HF. act_step s g ρ c HI. pose proof (thread_of _ _ _ _ HI Hr) as Hok.
  destruct (decide (cur s = Some T)) as [E|E].
  - exists g, (set_rc (Some T) r). rewrite E. split; [|by apply wp_ret].
    eapply inv_learn; try done. destruct Hok. split; try done; cbn; try (intros; congruence); [|rewrite Ek; set_solver].
    intros T' [= <-]. eauto.
  - exists g, r. split; [|by apply wp_ret, HF]. by eapply inv_learn.
Qed.

Lemma twp_enter r T m k Q :
  rc r = Some T → rm r = Some (T, Some m) → (T, index m k) ∈ rl r → rn r = None →
  Q tt (set_rk (k :: rk r) r) → twp (perform (AEnter k)) r Q.
Proof.
  intros Ec Er Hi En HQ. act_step s g ρ c HI. pose proof (thread_of _ _ _ _ HI Hr) as Hok.
  exists g, (set_rk (k :: rk r) r). split; [|by apply wp_ret].
  apply inv_live; rewrite ?Hr; try done. destruct (ok_rm _ _ _ Hok _ _ Er) as [_ Em].
  specialize (Em _ eq_refl). destruct Hok. split; try done; cbn; try (intros; congruence).
  - rewrite fn_insert_eq. by f_equal.
  - intros k' [->|?]%elem_of_cons; [|by apply ok_rk0]. exists T. by rewrite Em.
Qed.

Lemma twp_exit r Q : Q tt (set_rk [] r) → twp (perform AExit) r Q.
Proof.
  intros HQ. act_step s g ρ c HI. pose proof (thread_of _ _ _ _ HI Hr) as Hok.
  exists g, (set_rk [] r). split; [|by apply wp_ret].
  apply inv_live; rewrite ?Hr; try done. destruct Hok. split; try done; cbn.
  - intros N EN. destruct (ok_moved0 N EN) as (? & ? & ? & ? & ?). done.
  - by rewrite fn_insert_eq.
  - set_solver.
Qed.

(** Read all the queues with all buckets of the table in use locked. *)
Lemma twp_read_all r T m Q :
  rc r = Some T → rm r = Some (T, Some m) → rn r = None → rk r = [] → meta_ok m →
  (∀ i, (i < Z.to_nat m.1)%nat → (T, i) ∈ rl r) →
  (∀ l ks, Q l (set_rk ks r)) → twp (perform (AReadAll T)) r Q.
Proof.
  intros Ec Er En Ek Hm Hall HQ. act_step s g ρ c HI. pose proof (thread_of _ _ _ _ HI Hr) as Hok.
  set (ks := (cell s <$> all_items T s) ++ rk r). exists g, (set_rk ks r). split; [|apply wp_ret, HQ].
  rewrite (ok_live _ _ _ Hok). apply inv_live; rewrite ?Hr; try done. destruct (ok_rm _ _ _ Hok _ _ Er) as [_ Em].
  specialize (Em _ eq_refl). destruct Hok. split; try done; cbn; try (intros; congruence).
  - by rewrite fn_insert_eq.
  - intros k _. exists T. split; [done|]. rewrite Em. by apply Hall, index_lt.
Qed.

Lemma twp_read_bucket r b Q : (∀ l, Q l r) → twp (perform (AReadBucket b)) r Q.
Proof.
  intros HQ. act_step s g ρ c HI. exists g, r. split; [|apply wp_ret, HQ].
  eapply inv_learn; try done. by eapply thread_of.
Qed.

(** [get_hashtable] returns a table: one that the thread has not locked, or one
    of which it holds a lock, and then it is the current one. *)
Section get_hashtable.
Context (r : role).
Hypotheses (En : rn r = None) (Ec : rc r = None) (Ek : rk r = []) (Ep : rp r = None).

Lemma learn_table s g ρ T :
  TInv n s g ρ → ρ t = r → cur s = Some T →
  ((∀ i, (T, i) ∉ rl r) ∧ TInv n s g (<[t := set_rm (Some (T, None)) r]> ρ)) ∨
  ((∃ i, (T, i) ∈ rl r) ∧ TInv n s g (<[t := set_rc (Some T) r]> ρ)).
Proof using All.
  intros HI Hr E. pose proof (thread_of _ _ _ _ HI Hr) as Hok.
  destruct (decide (T ∈ (rl r).*1)) as [([T' i] & -> & Hi)%list_elem_of_fmap|Hn].
  - right. split; [by exists i|]. cbn in *. eapply inv_learn; try done. destruct Hok. split; try done; cbn; try (intros; congruence); [|rewrite Ek; set_solver].
    intros T [= <-]. eauto.
  - left. split; [intros i Hi; apply Hn, list_elem_of_fmap; by exists (T, i)|].
    eapply inv_learn; try done. destruct Hok. split; try done. cbn.
    intros T' o [= <- <-]. split; [by apply (ti_cur _ _ _ _ HI)|done].
Qed.

Lemma twp_create_hashtable Q :
  (∀ T, (∀ i, (T, i) ∉ rl r) → Q T (set_rm (Some (T, None)) r)) →
  (∀ T i, (T, i) ∈ rl r → Q T (set_rc (Some T) r)) → twp create_hashtable r Q.
Proof using All.
  intros HQ HC. unfold create_hashtable, new_table, cas_table. wp_pure. act_step s g ρ c HI.
  pose proof (thread_of _ _ _ _ HI Hr) as Hok.
  assert (Hm : meta_ok (len (HashTable_new c LOAD_FACTOR), hash_bits (HashTable_new c LOAD_FACTOR)))
    by (apply new_meta_ok; unfold LOAD_FACTOR; lia).
  set (N := ntab s). set (r1 := set_rm (Some (N, None)) (set_rn (Some (N, false)) r)).
  assert (HNl : ∀ i, (N, i) ∉ rl r).
  { intros i Hi%(ok_rl _ _ _ Hok). cbn in Hi. unfold N in Hi. lia. }
  exists g, (set_rn (Some (N, false)) r). split.
  { apply inv_new_table; rewrite ?Hr; try done.
    apply (thread_ok_add (len (HashTable_new c LOAD_FACTOR), hash_bits (HashTable_new c LOAD_FACTOR)))
      in Hok; [|apply HI].
    destruct Hok. split; try done; cbn.
    intros N' [= <-]. split; [lia|]. split.
    - intros E%(ti_cur _ _ _ _ HI). unfold N in *. lia.
    - intros i. by apply (ti_fresh _ _ _ _ HI). }
  clearbody N. clear s g ρ c HI Hr Hok Hm r1. wp_pure. apply wp_act; [always|].
  intros s g ρ c s' v Hr HI Hex. cbn in Hex. pose proof (thread_of _ _ _ _ HI Hr) as Hok.
  destruct (ok_rn _ _ _ Hok N eq_refl) as (HN & HcN & Hi).
  destruct (cur s) as [old|] eqn:Ecur; injection Hex as <- <-.
  - destruct (decide (old ∈ (rl r).*1)) as [([T' i] & -> & Hin)%list_elem_of_fmap|Hn].
    + exists g, (set_rc (Some T') r). split; [|wp_pure; by eapply HC].
      apply inv_role; rewrite ?Hr; try done; [|intros N' x'; cbn; by rewrite En].
      destruct Hok. split; try done; cbn; try (intros; congruence); [|rewrite Ek; set_solver].
      intros T [= <-]. eauto.
    + exists g, (set_rm (Some (old, None)) r). split.
      * apply inv_role; rewrite ?Hr; try done; [|intros N' x'; cbn; by rewrite En].
        destruct Hok. split; try done; cbn; try (intros; congruence).
        intros T o [= <- <-]. split; [by apply (ti_cur _ _ _ _ HI)|done].
      * wp_pure. apply HQ. intros i Hi'. apply Hn, list_elem_of_fmap. by exists (old, i).
  - exists g, (set_rm (Some (N, None)) r). split; [|wp_pure; by apply HQ].
    assert (Hno : ∀ u, rc (ρ u) = None).
    { intros u. destruct (rc (ρ u)) as [T|] eqn:E; [|done].
      apply (ok_rc _ _ _ (ti_thread _ _ _ _ HI u)) in E as [? _]. congruence. }
    apply (inv_publish n s g ρ t _ N false); rewrite ?Hr; try done.
    + split; intros *; rewrite Hi; [|set_solver].
      by rewrite (ti_none _ _ _ _ HI Ecur).
    + destruct Hok. split; try done; cbn; try (intros; congruence).
      intros T o [= <- <-]. split; [lia|done].
Qed.

Lemma twp_get_hashtable_held Q :
  (∀ T, (∀ i, (T, i) ∉ rl r) → Q T (set_rm (Some (T, None)) r)) →
  (∀ T i, (T, i) ∈ rl r → Q T (set_rc (Some T) r)) → twp get_hashtable r Q.
Proof using All.
  intros HQ HC. unfold get_hashtable, load_table. wp_pure. act_step s g ρ c HI.
  destruct (cur s) as [T|] eqn:E.
  - destruct (learn_table s g ρ T HI Hr E) as [[Hn HI']|[[i Hi] HI']].
    + eexists g, _. split; [exact HI'|]. wp_pure. by apply HQ.
    + eexists g, _. split; [exact HI'|]. wp_pure. by eapply HC.
  - exists g, r. split; [eapply inv_learn; try done; by eapply thread_of|]. wp_pure. by apply twp_create_hashtable.
Qed.

Lemma twp_get_hashtable Q :
  rl r = [] → (∀ T, Q T (set_rm (Some (T, None)) r)) → twp get_hashtable r Q.
Proof using All. intros El HQ. apply twp_get_hashtable_held; [by auto|]. rewrite El. by intros T i ?%not_elem_of_nil. Qed.
End get_hashtable.

(** Read the own key with the bucket of [k] locked: it stays [k]. *)
Lemma twp_load_key r Q : (∀ k, Q k r) → twp (load_key t) r Q.
Proof.
  intros HQ. act_step s g ρ c HI. exists g, r. split; [|by apply wp_ret].
  eapply inv_learn; try done. by eapply thread_of.
Qed.

Lemma twp_pin_key r T m k Q :
  rc r = Some T → rm r = Some (T, Some m) → (T, index m k) ∈ rl r →
  Q k (set_rp (Some k) r) → (∀ k', k' ≠ k → Q k' r) → twp (load_key t) r Q.
Proof.
  intros Ec Er Hi HT HF. act_step s g ρ c HI. pose proof (thread_of _ _ _ _ HI Hr) as Hok.
  destruct (decide (cell s t = k)) as [E|E].
  - exists g, (set_rp (Some k) r). rewrite E. split; [|by apply wp_ret].
    eapply inv_learn; try done. destruct (ok_rm _ _ _ Hok _ _ Er) as [_ Em].
    specialize (Em _ eq_refl). destruct Hok. split; try done. cbn.
    intros k' [= <-]. split; [done|]. exists T. by rewrite Em.
  - exists g, r. split; [|by apply wp_ret, HF]. by eapply inv_learn.
Qed.

(** A thread that works on a queue: it holds the bucket of [k] in the current
    table. *)
Definition at_key r T m k : Prop :=
  rc r = Some T ∧ rm r = Some (T, Some m) ∧ (T, index m k) ∈ rl r ∧ rn r = None.

Lemma at_key_facts s g ρ r T m k :
  TInv n s g ρ → ρ t = r → at_key r T m k →
  good s T ∧ (T, index m k) = bk s T k ∧ thread_ok s t r ∧
  ∀ u k', u ≠ t → rp (ρ u) = Some k' → k' ≠ k.
Proof.
  intros HI Hr (Ec & Er & Hi & En). pose proof (thread_of _ _ _ _ HI Hr) as Hok.
  destruct (ok_rm _ _ _ Hok _ _ Er) as [_ Em]. specialize (Em _ eq_refl). subst r.
  destruct (rc_good n s g ρ t T HI Ec ltac:(by rewrite En)) as [Hg _].
  split; [done|]. split; [by unfold bk; rewrite Em|]. split; [done|].
  intros u k' Hu Hp ->. apply Hu.
  destruct (ok_rp _ _ _ (ti_thread _ _ _ _ HI u) k Hp) as (_ & T' & Ec' & Hi').
  destruct (ok_rc _ _ _ (ti_thread _ _ _ _ HI u) T' Ec') as [Hc' _].
  destruct (ok_rc _ _ _ Hok T Ec) as [Hc _]. assert (T' = T) as -> by congruence.
  rewrite Em in Hi'. by eapply not_two_locks.
Qed.

(** The role after a step on the queues; [q] is whether the thread itself may
    still be queued. *)
Lemma thread_ok_queues s r f c p q q' T :
  thread_ok s t r → rc r = Some T → rn r = None →
  (∀ k, rp r = Some k → c t = k) → (q' = false → ∀ k, t ∉ q k) →
  thread_ok (set_queues f c p q s) t (set_rq q' r).
Proof.
  intros Hok Ec En Hp Hq. destruct Hok. split; try done; cbn; try (intros; congruence).
  intros k Hk. split; [by apply Hp|]. by apply ok_rp0.
Qed.

Lemma twp_append r T m k Q :
  at_key r T m k → rq r = false → rp r = None →
  Q tt (set_rq true r) → twp (perform (AAppend k (T, index m k))) r Q.
Proof.
  intros Hat Eq Ep HQ. act_step s g ρ c HI.
  destruct (at_key_facts _ _ _ _ _ _ _ HI Hr Hat) as (Hg & Eb & Hok & _).
  pose proof Hat as (Ec & _ & _ & En). pose proof (ok_rq _ _ _ Hok Eq) as Hnq. rewrite Eb.
  exists g, (set_rq true r). split; [|by apply wp_ret].
  apply (inv_queues n s g ρ t _ T); rewrite ?Hr; try done.
  - intros b Hb. rewrite (fn_insert_ne (items s)); [done|]. by intros <-.
  - apply (good_ext s _ (set_all [t] k (cell s))).
    + intros x. unfold set_all. rewrite fn_insert_case. repeat case_decide; set_solver.
    + apply good_append; [done|]. intros x k' Hx%list_elem_of_singleton. subst x. by apply Hnq.
  - intros u k'. rewrite (fn_insert_case (spec s)). destruct (decide (k = k')) as [<-|].
    + intros [Hu|Hu%list_elem_of_singleton]%elem_of_app; [|subst u; by fn_simp].
      assert (t ≠ u) by (intros <-; by eapply Hnq). fn_simp.
      split; [by apply (ti_parked _ _ _ _ HI u k)|by apply (ti_cell _ _ _ _ HI)].
    + intros Hu. assert (t ≠ u) by (intros <-; by eapply Hnq). fn_simp.
      split; [by apply (ti_parked _ _ _ _ HI u k')|by apply (ti_cell _ _ _ _ HI)].
  - intros u Hu Hs k'. rewrite (fn_insert_case (spec s)). destruct (decide (k = k')); [|done].
    specialize (Hs k). set_solver.
  - intros u k' Hu Hp. fn_simp. by apply (ti_thread _ _ _ _ HI u).
  - apply (thread_ok_queues s r _ _ _ _ _ T); try done. by rewrite Ep.
Qed.

Lemma twp_wait r Q : rl r = [] → Q true (set_rq false r) → Q false r → twp (perform AWait) r Q.
Proof.
  intros _ HT HF. act_step s g ρ c HI. pose proof (thread_of _ _ _ _ HI Hr) as Hok.
  destruct (negb (parked s t) && (c =? 0)) eqn:E.
  - exists g, (set_rq false r). split; [|by apply wp_ret]. eapply inv_learn; try done.
    apply andb_true_iff in E as [E _]. apply negb_true_iff in E.
    destruct Hok. split; try done. intros _ k Hk. apply (ti_parked _ _ _ _ HI) in Hk. congruence.
  - exists g, r. split; [by eapply inv_learn|by apply wp_ret].
Qed.

(** Threads leave the queue of [k]. *)
Lemma inv_keep s g ρ r T m k (P : tid → Prop) `{!∀ x, Decision (P x)} p q' :
  TInv n s g ρ → ρ t = r → at_key r T m k → (∀ x, cell s x ≠ k → P x) →
  (∀ x k', x ∈ spec s k' → (k' = k → P x) → p x = true) →
  (q' = false → (∀ x, P x → x ≠ t) ∨ rq r = false) →
  (q' = false → cell s t = k ∨ rq r = false) →
  TInv n (set_queues (<[bk s T k := filter P (items s (bk s T k))]> (items s)) (cell s) p
            (<[k := filter P (spec s k)]> (spec s)) s) g (<[t := set_rq q' r]> ρ).
Proof.
  intros HI Hr Hat HP Hp Hq Hq2.
  destruct (at_key_facts _ _ _ _ _ _ _ HI Hr Hat) as (Hg & Eb & Hok & _).
  pose proof Hat as (Ec & _ & _ & En).
  assert (Hsub : ∀ u k', u ∈ (<[k := filter P (spec s k)]> (spec s)) k' →
    u ∈ spec s k' ∧ (k' = k → P u)).
  { intros u k'. rewrite fn_insert_case. destruct (decide (k = k')) as [<-|]; [|naive_solver].
    intros [? ?]%list_elem_of_filter. done. }
  apply (inv_queues n s g ρ t _ T); rewrite ?Hr; try done.
  - intros b Hb. rewrite (fn_insert_ne (items s)); [done|]. by intros <-.
  - by apply good_keep.
  - intros u k' [Hu HPu]%Hsub. split; [by eapply Hp|by apply (ti_cell _ _ _ _ HI)].
  - intros u Hu Hs k' [Hin _]%Hsub. by eapply Hs.
  - intros u k' Hu Hpu. by apply (ti_thread _ _ _ _ HI u).
  - apply (thread_ok_queues s r _ _ _ _ _ T); try done.
    + intros k'. by apply (ok_rp _ _ _ Hok).
    + intros Eq k' [Hin HPt]%Hsub. destruct (Hq Eq) as [Hne|E']; [|by eapply ok_rq].
      destruct (Hq2 Eq) as [Hc|E']; [|by eapply ok_rq].
      apply (ti_cell _ _ _ _ HI) in Hin. apply (Hne t); [|done]. apply HPt. congruence.
Qed.

Lemma twp_remove r T m k Q :
  at_key r T m k → rp r = Some k →
  Q tt (set_rq false r) → twp (perform (ARemove (T, index m k))) r Q.
Proof.
  intros Hat Ep HQ. act_step s g ρ c HI.
  destruct (at_key_facts _ _ _ _ _ _ _ HI Hr Hat) as (Hg & Eb & Hok & _).
  destruct (ok_rp _ _ _ Hok k Ep) as [Ek _]. rewrite Eb, Ek.
  exists g, (set_rq false r). split; [|by apply wp_ret].
  apply (inv_keep s g ρ r T m k); try done.
  - intros x Hx ->. done.
  - intros x k' Hx _. by apply (ti_parked _ _ _ _ HI x k').
  - intros _. left. naive_solver.
  - intros _. by left.
Qed.

Lemma twp_take r T m k Q :
  at_key r T m k → Q tt r → twp (perform (ATakeAll k (T, index m k))) r Q.
Proof.
  intros Hat HQ. act_step s g ρ c HI.
  destruct (at_key_facts _ _ _ _ _ _ _ HI Hr Hat) as (Hg & Eb & Hok & _). rewrite Eb.
  exists g, r. split; [|by apply wp_ret].
  assert (E : filter (λ x, cell s x ≠ k) (spec s k) = []).
  { apply filter_none. intros x Hx. apply (in_spec s T Hg) in Hx as [_ ?]. naive_solver. }
  replace r with (set_rq (rq r) r) by (by destruct r).
  rewrite <- E. apply (inv_keep s g ρ r T m k); try done; [|naive_solver..].
  intros x k' Hx Hne. rewrite set_all_out; [by apply (ti_parked _ _ _ _ HI x k')|].
  intros [Hxk _]%list_elem_of_filter. apply (ti_cell _ _ _ _ HI) in Hx. naive_solver.
Qed.

Lemma twp_requeue r T m k1 k2 Q :
  at_key r T m k1 → at_key r T m k2 → rp r = None → Q tt r →
  twp (perform (ARequeue k1 k2 (T, index m k1) (T, index m k2))) r Q.
Proof.
  intros Hat1 Hat2 Ep HQ. act_step s g ρ c HI.
  destruct (at_key_facts _ _ _ _ _ _ _ HI Hr Hat1) as (Hg & Eb1 & Hok & Hpin).
  destruct (at_key_facts _ _ _ _ _ _ _ HI Hr Hat2) as (_ & Eb2 & _ & _). rewrite Eb1, Eb2.
  pose proof Hat1 as (Ec & _ & _ & En). exists g, r. split; [|by apply wp_ret].
  pose proof (good_requeue s T k1 k2 Hg) as Hg'. cbn zeta in Hg'.
  set (moved := filter (λ x, cell s x = k1) (items s (bk s T k1))) in *.
  assert (Em : moved = spec s k1) by apply (proj1 Hg).
  assert (Hspec : ∀ u k', u ∈ (<[k2 := (<[k1 := []]> (spec s)) k2 ++ spec s k1]> (<[k1 := []]> (spec s))) k' →
    (u ∈ moved ∧ k' = k2) ∨ (u ∉ moved ∧ u ∈ spec s k')).
  { intros u k'. rewrite Em, !(fn_insert_case _ k2), !(fn_insert_case _ k1).
    assert (Hd : k1 ≠ k' → u ∈ spec s k' → u ∉ spec s k1).
    { intros Hk Hu%(ti_cell _ _ _ _ HI) Hu'%(ti_cell _ _ _ _ HI). congruence. }
    destruct (decide (k2 = k')), (decide (k1 = k2)), (decide (k1 = k')); set_solver. }
  replace r with (set_rq (rq r) r) by (by destruct r).
  apply (inv_queues n s g ρ t _ T); rewrite ?Hr; try done.
  - intros b Hb. rewrite !(fn_insert_ne _ _ b); [done|by intros <-..].
  - intros u k' [[Hu ->]|[Hu Hin]]%Hspec.
    + rewrite set_all_in by done. rewrite Em in Hu. by apply (ti_parked _ _ _ _ HI) in Hu.
    + rewrite set_all_out by done.
      split; [by apply (ti_parked _ _ _ _ HI u k')|by apply (ti_cell _ _ _ _ HI)].
  - intros u Hu Hs k' [[Hin _]|[_ Hin]]%Hspec; [rewrite Em in Hin|]; by eapply Hs.
  - intros u k' Hu Hp. destruct (ok_rp _ _ _ (ti_thread _ _ _ _ HI u) k' Hp) as [Hk _].
    rewrite set_all_out; [done|]. intros Hin. rewrite Em in Hin.
    apply (ti_cell _ _ _ _ HI) in Hin. eapply (Hpin u k'); try done. congruence.
  - apply (thread_ok_queues s r _ _ _ _ _ T); try done; [by rewrite Ep|].
    intros Eq k' [[Hin _]|[_ Hin]]%Hspec; [rewrite Em in Hin|]; by eapply ok_rq.
Qed.
End rules.
