(* ===== verification/TableLockProof.v ===== *)
(** * The growing table (core/src/parking_lot.rs)

    The buckets of the table are a correct lock of a key, and its queues the
    queues of the keys, while other threads replace the table: at most one
    thread works on a key, what it finds in its bucket is the queue of the key
    (no thread is lost or reordered when the table grows or when its key is
    changed), and the bucket locks do not deadlock. *)

From S2P Require Import Prelude Conc LotTypes FairTimeout BucketQueue BucketRefine HashTable TableLock TableLockInv.
Local Open Scope Z_scope.
Local Open Scope prog_scope.
Import TableLock.

(** ** The programs *)

(** A thread between two operations, and one that has the bucket of a key. *)
Definition idle (q al : bool) (r : role) : Prop :=
  ∃ o, r = MkRole [] None None None [] q None o al.
Definition locked (q al : bool) (T : nat) (m : meta) (i : nat) : role :=
  MkRole [(T, i)] (Some T) None None [] q None (Some (T, Some m)) al.

Lemma drop_one (b : bucket) : filter (λ b', b' ≠ b) [b] = [].
Proof. rewrite filter_cons_False; naive_solver. Qed.

Section programs.
Context (n : nat).
Context (t : tid).
Abbreviation twp := (wp exec (TInv n) (λ _ _, False) blocked t).
Implicit Types (r : role) (T : nat) (m : meta) (k : Z) (q al : bool).

Lemma twp_entry T m i r (Q : bucket → role → Prop) :
  (i < Z.to_nat m.1)%nat → Q (T, i) r → twp (entry T m i) r Q.
Proof.
  intros Hi HQ. unfold entry. rewrite (proj2 (Nat.ltb_lt _ _) Hi). by apply wp_ret.
Qed.

(** Lock one bucket and look at the table pointer. *)
Lemma twp_lock_one q al T m i o {A} (k : option nat → tprog A) (Q : A → role → Prop) :
  (i < Z.to_nat m.1)%nat → o = Some (T, Some m) →
  twp (k (Some T)) (locked q al T m i) Q →
  (∀ x, x ≠ Some T → twp (k x) (MkRole [(T, i)] None None None [] q None o al) Q) →
  twp (lock (T, i)) (MkRole [] None None None [] q None o al)
    (λ _ r, twp (now <- load_table;; k now) r Q).
Proof.
  intros Hi -> HT HF. wp_pure. eapply twp_lock; [done..|set_solver|]. wp_pure.
  apply (twp_confirm n t _ T i); try done. set_solver.
Qed.

Lemma twp_unlock_one q al b c o (Q : unit → role → Prop) :
  (∀ r, idle q al r → Q tt r) → twp (unlock b) (MkRole [b] c None None [] q None o al) Q.
Proof.
  intros HQ. apply twp_unlock; [set_solver|done..|]. apply HQ. unfold drop_lock, idle. cbn [rl rq rm rt rn].
  rewrite drop_one. by eexists.
Qed.

Lemma twp_lock_bucket q al k r Q :
  idle q al r → (∀ T m, meta_ok m → Q (T, index m k) (locked q al T m (index m k))) →
  twp (lock_bucket k) r Q.
Proof.
  intros Hr HQ. unfold lock_bucket. apply (wp_iter _ _ _ _ _ (λ _, idle q al)); [done|].
  clear r Hr. intros [] r [o ->]. unfold lock_bucket_turn. wp_pure.
  apply twp_get_hashtable; [done..|]. intros T. wp_pure. eapply twp_table_meta; [done|].
  intros m Hm. wp_pure. apply twp_entry; [by apply index_lt|]. wp_pure.
  apply (twp_lock_one q al T m (index m k)); [by apply index_lt|done| |].
  - rewrite bool_decide_eq_true_2 by done. wp_pure. by apply HQ.
  - intros x Hx. rewrite bool_decide_eq_false_2 by done. wp_pure.
    apply twp_unlock_one. intros r Hr. by wp_pure.
Qed.

Lemma twp_lock_bucket_checked q al r Q :
  idle q al r →
  (∀ k T m, meta_ok m → Q (k, (T, index m k)) (set_rp (Some k) (locked q al T m (index m k)))) →
  twp (lock_bucket_checked t) r Q.
Proof.
  intros Hr HQ. unfold lock_bucket_checked. apply (wp_iter _ _ _ _ _ (λ _, idle q al)); [done|].
  clear r Hr. intros [] r [o ->]. unfold checked_turn. wp_pure.
  apply twp_get_hashtable; [done..|]. intros T. wp_pure. apply twp_load_key. intros k. wp_pure.
  eapply twp_table_meta; [done|]. intros m Hm. wp_pure.
  apply twp_entry; [by apply index_lt|]. wp_pure.
  apply (twp_lock_one q al T m (index m k)); [by apply index_lt|done| |].
  - rewrite bool_decide_eq_true_2 by done. wp_pure.
    apply (twp_pin_key n t _ T m k); try done; [set_solver| |].
    + wp_pure. rewrite Z.eqb_refl. wp_pure. by apply HQ.
    + intros k' Hk. wp_pure. rewrite (proj2 (Z.eqb_neq _ _) Hk). wp_pure.
      apply twp_unlock_one. intros r Hr. by wp_pure.
  - intros x Hx. rewrite bool_decide_eq_false_2 by done. wp_pure.
    apply twp_unlock_one. intros r Hr. by wp_pure.
Qed.

(** The buckets of two keys: [l] are the locks held. *)
Definition locked2 (q al : bool) (T : nat) (m : meta) (l : list bucket) : role :=
  MkRole l (Some T) None None [] q None (Some (T, Some m)) al.

Lemma twp_lock_bucket_pair q al k1 k2 r Q :
  idle q al r →
  (∀ T m l, meta_ok m → (∀ b, b ∈ l ↔ b = (T, index m k1) ∨ b = (T, index m k2)) →
     Q ((T, index m k1), (T, index m k2)) (locked2 q al T m l)) →
  twp (lock_bucket_pair k1 k2) r Q.
Proof.
  intros Hr HQ. unfold lock_bucket_pair. apply (wp_iter _ _ _ _ _ (λ _, idle q al)); [done|].
  clear r Hr. intros [] r [o ->]. unfold lock_pair_turn. wp_pure.
  apply twp_get_hashtable; [done..|]. intros T. wp_pure. eapply twp_table_meta; [done|].
  intros m Hm. wp_pure.
  pose proof (index_lt m k1 Hm) as L1. pose proof (index_lt m k2 Hm) as L2.
  specialize (λ l, HQ T m l Hm). set (h1 := index m k1) in *. set (h2 := index m k2) in *.
  apply twp_entry; [by case_match|]. wp_pure.
  apply (twp_lock_one q al T m (if (h1 <=? h2)%nat then h1 else h2)); [by case_match|done| |].
  - rewrite bool_decide_eq_true_2 by done.
    destruct (Nat.eqb_spec h1 h2) as [E|Hne].
    + rewrite E, Nat.leb_refl. wp_pure. rewrite <- E at 1. apply HQ. rewrite E. set_solver.
    + destruct (Nat.ltb_spec h1 h2) as [Hlt|Hge].
      * rewrite (proj2 (Nat.leb_le h1 h2)) by lia. wp_pure. apply twp_entry; [done|]. wp_pure.
        eapply twp_lock; [done..| |].
        -- cbn. intros b [= ->]%list_elem_of_singleton. done.
        -- wp_pure. apply HQ. set_solver.
      * rewrite (proj2 (Nat.leb_gt h1 h2)) by lia. wp_pure. apply twp_entry; [done|]. wp_pure.
        eapply twp_lock; [done..| |].
        -- cbn. intros b [= ->]%list_elem_of_singleton. split; [done|]. cbn. lia.
        -- wp_pure. apply HQ. set_solver.
  - intros x Hx. rewrite bool_decide_eq_false_2 by done. wp_pure.
    apply twp_unlock_one. intros r Hr. by wp_pure.
Qed.

Lemma twp_lock_all q al T m c i l Q :
  (i + c = Z.to_nat m.1)%nat → (∀ b, b ∈ l ↔ b.1 = T ∧ (b.2 < i)%nat) →
  (∀ l', (∀ b, b ∈ l' ↔ b.1 = T ∧ (b.2 < i + c)%nat) →
     Q tt (MkRole l' None None None [] q None (Some (T, Some m)) al)) →
  twp (lock_all T (seq i c)) (MkRole l None None None [] q None (Some (T, Some m)) al) Q.
Proof.
  revert i l. induction c as [|c IH]; intros i l Hi Hl HQ; cbn [seq lock_all].
  - apply wp_ret, HQ. by rewrite Nat.add_0_r.
  - wp_pure. eapply twp_lock; [done|lia|by intros b Hb%Hl|]. cbn.
    apply IH; [lia| |].
    + intros [T' j]. rewrite elem_of_cons, Hl. cbn. split; [naive_solver lia|].
      intros [-> Hj]. destruct (decide (j = i)) as [->|]; [by left|right; lia].
    + intros l' Hl'. apply HQ. intros b. rewrite Hl'. by replace (S i + c)%nat with (i + S c)%nat by lia.
Qed.

Lemma twp_unlock_all_rm q al T c i l x y o Q :
  (∀ b, b ∈ l ↔ b.1 = T ∧ (i ≤ b.2 < i + c)%nat) → (c = O → x = None ∧ y = None) →
  Q tt (MkRole [] None None None [] q None o al) →
  twp (unlock_all T (seq i c)) (MkRole l x y None [] q None o al) Q.
Proof.
  revert i l x y. induction c as [|c IH]; intros i l x y Hl Hxy HQ; cbn [seq unlock_all].
  - apply wp_ret. destruct (Hxy eq_refl) as [-> ->].
    destruct l as [|b l]; [done|]. pose proof (proj1 (Hl b) ltac:(set_solver)). lia.
  - wp_pure. apply twp_unlock; [by apply Hl; cbn; lia|done..|]. unfold drop_lock. cbn [rl rn rq rm rt].
    apply IH; [|done..]. intros [T' j]. rewrite list_elem_of_filter, Hl. cbn.
    split; [|naive_solver lia]. intros (Hne & -> & Hj). split; [done|].
    assert (j ≠ i) by congruence. lia.
Qed.

Lemma twp_unlock_all q al T c i l x y o Q :
  (∀ b, b ∈ l ↔ b.1 = T ∧ (i ≤ b.2 < i + c)%nat) → (c = O → x = None ∧ y = None) →
  (∀ r, idle q al r → Q tt r) →
  twp (unlock_all T (seq i c)) (MkRole l x y None [] q None o al) Q.
Proof. intros Hl Hxy HQ. apply twp_unlock_all_rm; [done..|]. apply HQ. by exists o. Qed.

(** The growing thread, with all buckets of the old table locked. *)
Lemma twp_grow_new q al l T m x Q :
  (∀ b, b ∈ l ↔ b.1 = T ∧ (b.2 < Z.to_nat m.1)%nat) →
  1 ≤ x → x * LOAD_FACTOR ≤ 2 ^ 63 →
  (∀ N, Q N (MkRole l (Some T) (Some T) (Some (N, false)) [] q None (Some (T, Some m)) al)) →
  twp (new_table x) (MkRole l (Some T) None None [] q None (Some (T, Some m)) al) Q.
Proof.
  intros Hl H1 H2 HQ. act_step s g ρ c HI. pose proof (thread_of _ _ _ _ _ _ HI Hr) as Hok.
  pose proof (new_meta_ok c x H1 H2) as Hm. set (m' := (len _, _)) in *.
  set (r := MkRole l (Some T) (Some T) (Some (ntab s, false)) [] q None (Some (T, Some m)) al).
  exists g, r. split; [|by apply wp_ret]. apply inv_new_table; rewrite ?Hr; try done.
  destruct (ok_rm _ _ _ Hok T _ eq_refl) as [HT Em]. specialize (Em _ eq_refl).
  apply (thread_ok_add m') in Hok; [|apply HI]. destruct Hok. split; try done; cbn.
  - intros T' [= <-]. split; [lia|]. intros i Hi. rewrite fn_insert_ne in Hi by lia.
    rewrite Em in Hi. by apply Hl.
  - intros N [= <-]. split; [lia|]. split.
    + intros E%(ti_cur _ _ _ _ HI). lia.
    + intros i. by apply (ti_fresh _ _ _ _ HI).
Qed.

Lemma twp_grow_rehash q al l T m N Q :
  Q tt (MkRole l (Some T) (Some T) (Some (N, true)) [] q None (Some (T, Some m)) al) →
  twp (perform (ARehash T N))
    (MkRole l (Some T) (Some T) (Some (N, false)) [] q None (Some (T, Some m)) al) Q.
Proof.
  intros HQ. act_step s g ρ c HI. eexists g, _. split; [|by apply wp_ret].
  apply (inv_rehash n s g ρ t _ T N); rewrite ?Hr; done.
Qed.

Lemma twp_grow_store q al l T m N Q :
  Q tt (MkRole l None None None [] q None (Some (T, Some m)) al) →
  twp (perform (AStoreTable N))
    (MkRole l (Some T) (Some T) (Some (N, true)) [] q None (Some (T, Some m)) al) Q.
Proof.
  intros HQ. act_step s g ρ c HI. pose proof (thread_of _ _ _ _ _ _ HI Hr) as Hok.
  destruct (ok_moved _ _ _ Hok N eq_refl) as (_ & _ & Hg & _).
  eexists g, _. split; [|by apply wp_ret].
  apply (inv_publish n s g ρ t _ N true); rewrite ?Hr; try done.
  - intros u Hu. destruct (rc (ρ u)) as [T'|] eqn:E; [|done]. exfalso. apply Hu.
    eapply (rc_excludes n s g ρ u t T' T); rewrite ?Hr; done.
  - destruct Hok. split; try done; cbn. set_solver.
Qed.

Lemma twp_grow_hashtable q al x r Q :
  idle q al r → 1 ≤ x → x * LOAD_FACTOR ≤ 2 ^ 63 → (∀ r, idle q al r → Q tt r) →
  twp (grow_hashtable x) r Q.
Proof.
  intros Hr H1 H2 HQ. unfold grow_hashtable. wp_pure.
  apply (wp_iter _ _ _ _ _ (λ _, idle q al)); [done|].
  clear r Hr. intros [] r [o ->]. unfold grow_turn. wp_pure.
  apply twp_get_hashtable; [done..|]. intros T. wp_pure. eapply twp_table_meta; [done|].
  intros m Hm. wp_pure. case_match; [wp_pure; apply HQ; by eexists|].
  unfold indices. wp_pure. pose proof (index_lt m 0 Hm) as Hpos.
  apply twp_lock_all; [done|cbn; set_solver by lia|]. intros l Hl. wp_pure.
  apply (twp_confirm n t _ T 0); try done; [by apply Hl; cbn; lia| |].
  - rewrite bool_decide_eq_true_2 by done. wp_pure.
    apply twp_grow_new; [done..|]. intros N. wp_pure. apply twp_grow_rehash. wp_pure.
    apply twp_grow_store. wp_pure. apply twp_unlock_all; [|done..].
    intros b. rewrite Hl. naive_solver lia.
  - intros x' Hx. rewrite bool_decide_eq_false_2 by done. wp_pure.
    apply twp_unlock_all; [|done..|by intros r Hr; wp_pure].
    intros b. rewrite Hl. naive_solver lia.
Qed.

(** The deadlock detector. *)
Lemma twp_read_each q al T m l r Q :
  (∀ i, i ∈ l → (i < Z.to_nat m.1)%nat) → r = MkRole [] None None None [] q None (Some (T, Some m)) al →
  (∀ r, idle q al r → Q tt r) → twp (read_each T l) r Q.
Proof.
  intros Hl -> HQ. induction l as [|i l IH]; cbn [read_each]; [apply wp_ret, HQ; by eexists|].
  wp_pure. eapply twp_lock; [done|apply Hl; by left|cbn; set_solver|]. wp_pure.
  apply twp_read_bucket. intros _. wp_pure. apply twp_unlock; [cbn; by left|done..|].
  unfold drop_lock. cbn [rl rn rq rm rt set_rl]. rewrite drop_one. apply IH. intros j Hj. apply Hl. by right.
Qed.

Lemma twp_check_deadlock q al found r Q :
  idle q al r → (∀ r, idle q al r → Q tt r) → twp (check_deadlock found) r Q.
Proof.
  intros [o ->] HQ. unfold check_deadlock, check_wait_graph_fast. wp_pure.
  apply twp_get_hashtable; [done..|]. intros T. wp_pure. eapply twp_table_meta; [done|]. intros m Hm. wp_pure.
  eapply (twp_read_each q al T m); [|done|].
  { intros i (_ & Hi)%elem_of_seq. by rewrite Nat.add_0_l in Hi. }
  clear T m Hm o. intros r [o ->]. destruct found; [|wp_pure; apply HQ; by eexists].
  unfold check_wait_graph_slow. wp_pure. apply twp_get_hashtable; [done..|]. intros T0. wp_pure.
  apply (wp_iter _ _ _ _ _ (λ T r, ∃ o, r = MkRole [] None None None [] q None (Some (T, o)) al)); [by eexists|].
  clear T0 o. intros T r [o ->]. unfold lock_table_turn. wp_pure. eapply twp_table_meta; [done|]. intros m Hm. wp_pure.
  unfold indices. pose proof (index_lt m 0 Hm) as Hpos.
  apply twp_lock_all; [done|cbn; set_solver by lia|]. intros l Hl. wp_pure.
  apply twp_get_hashtable_held; [done..| |].
  - intros T' HT'. assert (T' ≠ T) by (intros ->; apply (HT' 0%nat), Hl; cbn; lia).
    rewrite bool_decide_eq_false_2 by done. wp_pure. cbn [set_rm rl rc ra rn rk rq rp rt].
    apply twp_unlock_all_rm; [|lia|wp_pure; by eexists].
    intros b. rewrite Hl. naive_solver lia.
  - intros T' i Hi. assert (T' = T) as -> by (apply Hl in Hi as [? _]; done).
    rewrite bool_decide_eq_true_2 by done. wp_pure. cbn [set_rc rl rc ra rn rk rq rp rm rt].
    apply (twp_read_all n t _ T m); try done.
    { intros j Hj. apply Hl. cbn. lia. }
    intros rs ks. wp_pure. apply twp_exit. wp_pure. cbn [set_rk rl rc ra rn rk rq rp rm rt].
    apply twp_unlock_all; [|lia|done]. intros b. rewrite Hl. naive_solver lia.
Qed.

Lemma twp_op q0 o r Q :
  q0 = false → idle q0 true r → (∀ r, idle false true r → Q tt r) → twp (run_op t o) r Q.
Proof.
  intros -> Hr HQ. destruct o as [k|k|k1 k2|found]; cbn [run_op]; wp_pure.
  - apply (twp_lock_bucket false true); [done|]. intros T m Hm. wp_pure.
    assert (Hin : (T, index m k) ∈ [(T, index m k)]) by set_solver.
    apply (twp_enter n t _ T m); try done. wp_pure.
    apply (twp_append n t _ T m); try done. wp_pure. apply twp_exit. wp_pure.
    apply (twp_unlock_one true true). clear r Hr. intros r [x ->]. wp_pure.
    apply twp_wait; [done|wp_pure; apply HQ; by eexists|]. wp_pure.
    apply (twp_lock_bucket_checked true true); [by eexists|]. clear T m Hm Hin k.
    intros k T m Hm. wp_pure.
    assert (Hin : (T, index m k) ∈ [(T, index m k)]) by set_solver.
    apply (twp_enter n t _ T m); try done. wp_pure.
    apply (twp_remove n t _ T m k); try done. wp_pure. apply twp_exit.
    apply twp_unlock; [done..|]. unfold drop_lock. cbn [rl rn rq rm rt set_rk set_rq set_rp locked].
    rewrite drop_one. apply HQ. by eexists.
  - apply (twp_lock_bucket false true); [done|]. intros T m Hm. wp_pure.
    assert (Hin : (T, index m k) ∈ [(T, index m k)]) by set_solver.
    apply (twp_enter n t _ T m); try done. wp_pure.
    apply (twp_take n t _ T m); try done. wp_pure. apply twp_exit. wp_pure.
    by apply (twp_unlock_one false true).
  - apply (twp_lock_bucket_pair false true); [done|]. intros T m l Hm Hl. wp_pure.
    assert (H1 : (T, index m k1) ∈ l) by (apply Hl; by left).
    assert (H2 : (T, index m k2) ∈ l) by (apply Hl; by right).
    apply (twp_enter n t _ T m); try done. wp_pure.
    apply (twp_enter n t _ T m); try done. wp_pure.
    apply (twp_requeue n t _ T m); try done. wp_pure. apply twp_exit.
    unfold unlock_bucket_pair. wp_pure. apply twp_unlock; [done..|].
    unfold drop_lock. cbn [rl rn rq rm rt set_rk locked2].
    assert (Hf : ∀ b, b ∈ filter (λ b', b' ≠ (T, index m k1)) l ↔
      b = (T, index m k2) ∧ (T, index m k1) ≠ (T, index m k2)).
    { intros b. rewrite list_elem_of_filter, Hl. naive_solver. }
    destruct (decide ((T, index m k1) = (T, index m k2))) as [E|E].
    + rewrite bool_decide_eq_true_2 by done. wp_pure. apply HQ. eexists. f_equal.
      destruct (filter _ l) as [|b l']; [done|]. by destruct (proj1 (Hf b) ltac:(set_solver)).
    + rewrite bool_decide_eq_false_2 by done. apply twp_unlock; [by apply Hf|done..|].
      apply HQ. unfold drop_lock. cbn [rl rn rq rm rt]. eexists. f_equal.
      apply filter_none. intros b [-> _]%Hf. naive_solver.
  - by apply (twp_check_deadlock false true).
Qed.

Lemma alive_le ρ : (alive n ρ ≤ n)%nat.
Proof. unfold alive. rewrite length_filter, length_seq. done. Qed.

Context (Hn : Z.of_nat n * LOAD_FACTOR ≤ 2 ^ 63) (Ht : (t < n)%nat).

Lemma twp_drop r Q :
  idle false true r → (∀ r, idle false false r → Q tt r) → twp ThreadData_drop r Q.
Proof.
  intros [o ->] HQ. unfold ThreadData_drop. wp_pure. act_step s g ρ c HI.
  set (r := MkRole [] None None None [] false None o false). exists g, r.
  split; [|wp_pure; apply HQ; by eexists].
  pose proof (thread_of _ _ _ _ _ _ HI Hr) as Hok.
  apply inv_count; rewrite ?Hr; try done; [|by destruct Hok].
  destruct (alive_change n (<[t := r]> ρ) t (ρ t) Ht) as [E Hlt]; [by rewrite fn_insert_eq|by rewrite Hr|].
  assert (E' : alive n (<[t := ρ t]> (<[t := r]> ρ)) = alive n ρ).
  { unfold alive. f_equal. apply list_filter_iff. intros u. fn_cases t u; done. }
  rewrite (ti_count _ _ _ _ HI). unfold wrapping_add. unfold LOAD_FACTOR in Hn.
  rewrite wrap_small; unfold in_width, usize_bits; lia.
Qed.

Lemma twp_ops l r : idle false true r → twp (run_ops t l) r (λ _, idle false false).
Proof.
  revert r. induction l as [|o l IH]; intros r Hr; cbn [run_ops].
  - by apply twp_drop.
  - wp_pure. eapply twp_op; [done..|]. auto.
Qed.

Lemma twp_main l r : idle false false r → twp (thread_main t l) r (λ _, idle false false).
Proof.
  intros [o ->]. unfold thread_main, ThreadData_new. wp_pure. act_step s g ρ c HI.
  set (r := MkRole [] None None None [] false None o true). exists g, r.
  pose proof (thread_of _ _ _ _ _ _ HI Hr) as Hok.
  destruct (alive_change n ρ t r Ht) as [E Hlt]; [by rewrite Hr|done|].
  pose proof (ti_count _ _ _ _ HI) as Hc. unfold LOAD_FACTOR in Hn. split.
  - apply inv_count; rewrite ?Hr; try done; [|by destruct Hok].
    unfold wrapping_add. rewrite wrap_small; unfold in_width, usize_bits; lia.
  - wp_pure. apply (twp_grow_hashtable false true); [by eexists|lia|unfold LOAD_FACTOR; lia|].
    intros r' Hr'. by apply twp_ops.
Qed.
End programs.

(** ** Reachable states *)

Abbreviation tverified n := (verified exec (TInv n) (λ _ _, False) blocked (idle false false)).

Lemma table_start_verified n scripts :
  Z.of_nat n * LOAD_FACTOR ≤ 2 ^ 63 → tverified n (start_state, start_pool n scripts).
Proof.
  intros Hn. exists tt, (λ _, MkRole [] None None None [] false None None false). split.
  - split; try done; cbn; try (intros; lia); try (by intros ? ? []%not_elem_of_nil).
    + intros t. split; try done; cbn; try (by intros ? []%not_elem_of_nil).
      intros _ k. apply not_elem_of_nil.
    + intros b t. split; [done|by intros []%not_elem_of_nil].
    + unfold alive. rewrite filter_none; [done|naive_solver].
  - intros t. cbn. unfold start_pool. destruct (Nat.ltb_spec t n).
    + apply twp_main; [done..|]. by eexists.
    + apply wp_ret. by eexists.
Qed.

(** A chain of threads that wait for buckets ends: the indices grow. *)
Lemma no_wait_cycle n s g ρ (ps : tid → tprog unit) :
  TInv n s g ρ →
  (∀ u, wp exec (TInv n) (λ _ _, False) blocked u (ps u) (ρ u) (λ _, idle false false)) →
  (∀ u c, step1 exec u c (ps u) s = None) →
  ∀ u, rl (ρ u) = [].
Proof.
  intros HI Hwp Hstuck.
  assert (Hb : ∀ u b, b ∈ rl (ρ u) → blocked u (ρ u) s).
  { intros u b Hin. destruct (wp_progress _ _ _ _ u (ps u) s g ρ _ (Hwp u) HI)
      as [(a & _ & o & E)|[(? & _ & [])|[[c [x E]]|]]]; [| |done].
    - rewrite E in Hin. by apply not_elem_of_nil in Hin.
    - by rewrite Hstuck in E. }
  assert (Hmax : ∀ d u b, b ∈ rl (ρ u) → (Z.to_nat (tab s b.1).1 ≤ b.2 + d)%nat → False).
  { induction d as [|d IH]; intros u b Hin Hd.
    - apply (ok_rl _ _ _ (ti_thread _ _ _ _ HI u)) in Hin. lia.
    - destruct (Hb u b Hin) as (b' & v & Hv & Hord). apply (ti_lk _ _ _ _ HI) in Hv.
      destruct (Hord b Hin) as [E Hlt]. apply (IH v b' Hv). rewrite <- E. lia. }
  intros u. destruct (rl (ρ u)) as [|b l] eqn:E; [done|]. exfalso.
  apply (Hmax (Z.to_nat (tab s b.1).1) u b); [rewrite E; set_solver|lia].
Qed.

Section theorems.
Context (n : nat) (Hn : Z.of_nat n * LOAD_FACTOR ≤ 2 ^ 63).
Implicit Types (scripts : tid → list op) (s : state) (ps : tid → tprog unit) (t u : tid) (k : Z).

Lemma table_reachable_verified scripts s ps :
  reachable exec start_state (start_pool n scripts) s ps → tverified n (s, ps).
Proof. intros Hr. eapply adequacy; [|exact Hr]. by apply table_start_verified. Qed.

(** C29: A bucket is a lock for its keys, also while the table grows: at every
    moment at most one thread is between locking the bucket of a key (with
    [lock_bucket], [lock_bucket_checked] or [lock_bucket_pair]) and unlocking
    it, whichever tables the threads have found. *)
Theorem table_key_exclusive scripts s ps t u k :
  reachable exec start_state (start_pool n scripts) s ps →
  k ∈ live s t → k ∈ live s u → t = u.
Proof.
  intros (g & ρ & HI & _)%table_reachable_verified Ht Hu. cbn in HI.
  assert (Hk : ∀ v, k ∈ live s v → ∃ T, cur s = Some T ∧ (T, index (tab s T) k) ∈ rl (ρ v)).
  { intros v Hv. pose proof (ti_thread _ _ _ _ HI v) as Hok. rewrite (ok_live _ _ _ Hok) in Hv.
    destruct (ok_rk _ _ _ Hok k Hv) as (T & Ec & Hi). exists T. split; [|done].
    by apply (ok_rc _ _ _ Hok). }
  destruct (Hk t Ht) as (T & Hc & Hi), (Hk u Hu) as (T' & Hc' & Hi').
  assert (T' = T) as -> by congruence. by eapply not_two_locks.
Qed.

(** C28: The growing table implements one queue per key: a thread that has
    locked the bucket of a key has locked the bucket of that key in the table
    in use, and the threads with this key in it are, in order, the ones queued
    on the key and not yet taken out, whatever was rehashed, requeued or timed
    out in between. *)
Theorem table_refines_queues scripts s ps t k :
  reachable exec start_state (start_pool n scripts) s ps → k ∈ live s t →
  ∃ T, cur s = Some T ∧ lk s (T, index (tab s T) k) = Some t ∧
    filter (λ x, cell s x = k) (items s (T, index (tab s T) k)) = spec s k.
Proof.
  intros (g & ρ & HI & _)%table_reachable_verified Hk. cbn in HI.
  pose proof (ti_thread _ _ _ _ HI t) as Hok. rewrite (ok_live _ _ _ Hok) in Hk.
  destruct (ok_rk _ _ _ Hok k Hk) as (T & Ec & Hi). exists T.
  split; [by apply (ok_rc _ _ _ Hok)|]. split; [by apply (ti_lk _ _ _ _ HI)|].
  apply (rc_good n s g ρ t T HI Ec). intros N EN.
  destruct (ok_moved _ _ _ Hok N EN) as (_ & _ & _ & E & _). rewrite E in Hk.
  by apply not_elem_of_nil in Hk.
Qed.

(** C30: The bucket locks do not deadlock: threads that lock one bucket, two
    buckets, all buckets of a table to replace it, or all buckets to look for
    deadlocks, never all wait for each other. If no thread can take a step, every thread has finished, and
    [NUM_THREADS] is back to zero. *)
Theorem table_no_deadlock scripts s ps :
  reachable exec start_state (start_pool n scripts) s ps →
  (∀ t c, step1 exec t c (ps t) s = None) →
  (∀ t, ps t = Ret tt) ∧ nthreads s = 0.
Proof.
  intros (g & ρ & HI & Hwp)%table_reachable_verified Hstuck. cbn in HI, Hwp.
  pose proof (no_wait_cycle n s g ρ ps HI Hwp Hstuck) as Hl.
  assert (Hdone : ∀ t, ps t = Ret tt ∧ rt (ρ t) = false).
  { intros t. destruct (wp_progress _ _ _ _ t (ps t) s g ρ _ (Hwp t) HI)
      as [([] & E & o & Er)|[(? & _ & [])|[[c [x E]]|(b & u & Hb & _)]]].
    - by rewrite Er.
    - by rewrite Hstuck in E.
    - apply (ti_lk _ _ _ _ HI) in Hb. rewrite Hl in Hb. by apply not_elem_of_nil in Hb. }
  split; [intros t; by apply Hdone|]. rewrite (ti_count _ _ _ _ HI). unfold alive.
  rewrite filter_none; [done|]. intros t _. rewrite (proj2 (Hdone t)). done.
Qed.

(** The index of a key is in range for the table it is looked up in: no
    thread panics, whichever table it has read. *)
Theorem table_no_panic scripts s ps t msg :
  reachable exec start_state (start_pool n scripts) s ps → ps t ≠ Panic msg.
Proof.
  intros (g & ρ & HI & Hwp)%table_reachable_verified E. cbn in Hwp.
  specialize (Hwp t). rewrite E in Hwp. by apply wp_no_panic in Hwp.
Qed.
End theorems.

(** ** A run: the table grows while a thread is queued

    Thread 0 queues itself on key 7 in the first table; five more threads
    start, and the last one replaces the table; thread 1 locks the bucket of
    the key in the new table and finds thread 0 there. *)

Section example.
Local Definition scripts (t : tid) : list op :=
  match t with 0%nat => [OPark 7] | 1%nat => [OUnparkAll 7] | _ => [] end.
Local Definition runs (l : list (tid * nat)) : list (tid * choice) :=
  l ≫= λ x, repeat (x.1, 0) x.2.
Local Definition sched1 : list (tid * choice) :=
  runs [(0, 35); (1, 1); (2, 1); (3, 1); (4, 1); (5, 86); (1, 24)]%nat.
Local Definition sched2 : list (tid * choice) :=
  sched1 ++ runs [(1, 9); (0, 6); (2, 12); (3, 12); (4, 12)]%nat.
Local Definition start := (start_state, start_pool 6 scripts).
Local Definition demo sched : state * (tid → tprog unit) :=
  default start (run exec sched start.1 start.2).

Lemma table_demo_reachable sched :
  bool_decide (is_Some (run exec sched start.1 start.2)) = true →
  reachable exec start_state (start_pool 6 scripts) (demo sched).1 (demo sched).2.
Proof.
  intros H. apply (run_reachable _ sched). unfold demo.
  apply bool_decide_eq_true in H as [[s ps] E]. by rewrite E.
Qed.

Lemma demo_bound : Z.of_nat 6 * LOAD_FACTOR ≤ 2 ^ 63.
Proof. by vm_compute. Qed.

Lemma table_key_exclusive_witness :
  live (demo sched1).1 1%nat = [7] ∧ cur (demo sched1).1 = Some 1%nat ∧
  (7 ∈ live (demo sched1).1 1%nat → 1%nat = 1%nat).
Proof.
  assert (Hl : live (demo sched1).1 1%nat = [7]) by (vm_compute; reflexivity).
  split; [exact Hl|]. split; [vm_compute; reflexivity|]. intros Hu.
  apply (table_key_exclusive 6 demo_bound scripts (demo sched1).1 (demo sched1).2 1%nat 1%nat 7);
    [|exact Hu..].
  apply table_demo_reachable. vm_compute. reflexivity.
Defined.

Lemma table_refines_queues_witness :
  ∃ T, cur (demo sched1).1 = Some T ∧
    lk (demo sched1).1 (T, index (tab (demo sched1).1 T) 7) = Some 1%nat ∧
    filter (λ x, cell (demo sched1).1 x = 7)
      (items (demo sched1).1 (T, index (tab (demo sched1).1 T) 7)) = [0%nat].
Proof.
  assert (Hs : spec (demo sched1).1 7 = [0%nat]) by (vm_compute; reflexivity).
  rewrite <- Hs.
  apply (table_refines_queues 6 demo_bound scripts (demo sched1).1 (demo sched1).2 1%nat 7).
  - apply table_demo_reachable. vm_compute. reflexivity.
  - assert (Hl : live (demo sched1).1 1%nat = [7]) by (vm_compute; reflexivity).
    rewrite Hl. apply list_elem_of_singleton. reflexivity.
Defined.

Lemma table_no_deadlock_witness :
  (∀ t c, step1 exec t c ((demo sched2).2 t) (demo sched2).1 = None) ∧
  (∀ t, (demo sched2).2 t = Ret tt) ∧ nthreads (demo sched2).1 = 0.
Proof.
  assert (Hstuck : ∀ t c, step1 exec t c ((demo sched2).2 t) (demo sched2).1 = None).
  { intros [|[|[|[|[|[|t]]]]]] c; vm_compute; reflexivity. }
  split; [exact Hstuck|].
  apply (table_no_deadlock 6 demo_bound scripts (demo sched2).1 (demo sched2).2); [|exact Hstuck].
  apply table_demo_reachable. vm_compute. reflexivity.
Defined.

Lemma table_no_panic_witness : (demo sched2).2 5%nat ≠ Panic "index out of bounds".
Proof.
  apply (table_no_panic 6 demo_bound scripts (demo sched2).1 (demo sched2).2 5%nat).
  apply table_demo_reachable. vm_compute. reflexivity.
Defined.
End example.
