(* ===== verification/ParkingLot.v ===== *)
(** * The parking lot as a concurrent component (core/src/parking_lot.rs)

    The shared machine the primitives run on: memory words updated by atomic
    operations, the buckets with their locks and queues, and the data of each
    thread.  [park], [unpark_one], [unpark_all], [unpark_requeue] and
    [unpark_filter] are programs over the atomic actions of the machine, with
    the callbacks of the source as programs that run at the same place, under
    the bucket lock.  What a function does to a queue under the lock is one
    action, given by [BucketQueue.Spec], which the pointer code implements
    ([BucketRefine]).

    The hash table is abstract here: [bucket_of] maps a key to its bucket and
    is arbitrary, so all theorems hold for any number of collisions.  The
    [parked] flag of a thread is the state of its [ThreadParker]: set by
    [prepare_park], cleared by [unpark_lock]. *)

From S2P Require Import Prelude Conc LotTypes SpinWait FairTimeout BucketQueue.
Local Open Scope Z_scope.

(** ** The machine *)

(** [struct ThreadData], less the link. *)
Record ThreadData := MkTD {
  td_key : Z;
  td_unpark_token : UnparkToken;
  td_park_token : ParkToken;
  td_timed : bool;
  td_parked : bool;
}.

(** [ThreadData::new] *)
Definition ThreadData_new : ThreadData :=
  MkTD 0 DEFAULT_UNPARK_TOKEN DEFAULT_PARK_TOKEN false false.

(** The guards that are alive, for the statements on mutual exclusion: a
    client registers the guard a successful acquisition returns, and removes
    it before the release. *)
Inductive guard := GShared | GUpgradable | GExclusive.

#[export] Instance guard_eq_dec : EqDecision guard.
Proof. solve_decision. Defined.

Record state := MkState {
  mem : Z → Z;
  bmutex : nat → option tid;
  bqueue : nat → list tid;
  bfair : nat → FairTimeout.t;
  td : tid → ThreadData;
  live : Z → list (tid * guard);
}.

Definition init_state (m : Z → Z) : state :=
  MkState m (λ _, None) (λ _, []) (λ b, FairTimeout.new 0 1) (λ _, ThreadData_new) (λ _, []).

Definition set_mem (a v : Z) (s : state) : state :=
  MkState (<[a := v]> (mem s)) (bmutex s) (bqueue s) (bfair s) (td s) (live s).
Definition set_bmutex (b : nat) (o : option tid) (s : state) : state :=
  MkState (mem s) (<[b := o]> (bmutex s)) (bqueue s) (bfair s) (td s) (live s).
Definition set_bqueue (b : nat) (l : list tid) (s : state) : state :=
  MkState (mem s) (bmutex s) (<[b := l]> (bqueue s)) (bfair s) (td s) (live s).
Definition set_bfair (b : nat) (f : FairTimeout.t) (s : state) : state :=
  MkState (mem s) (bmutex s) (bqueue s) (<[b := f]> (bfair s)) (td s) (live s).
Definition set_td (t : tid) (d : ThreadData) (s : state) : state :=
  MkState (mem s) (bmutex s) (bqueue s) (bfair s) (<[t := d]> (td s)) (live s).
Definition set_live (a : Z) (l : list (tid * guard)) (s : state) : state :=
  MkState (mem s) (bmutex s) (bqueue s) (bfair s) (td s) (<[a := l]> (live s)).

Abbreviation key_of s := (λ t, td_key (td s t)).
Abbreviation token_of s := (λ t, td_park_token (td s t)).

(** ** Actions *)

Inductive act : Type :=
(* atomic operations on a word *)
| ALoad (a : Z)
| AStore (a v : Z)
| ARmw (a : Z) (f : Z → Z)
| ACas (weak : bool) (a old new : Z)
(* the processor, the operating system and the clock *)
| AYield
| ANow
(* buckets *)
| ABucketLock (b : nat)
| ABucketUnlock (b : nat)
| AEnqueue (b : nat) (k : Z) (tok : ParkToken) (timed : bool)
| ADequeue (b : nat) (k : Z)
| AUnparkOne (b : nat) (k : Z)
| AUnparkAll (b : nat) (k : Z)
| AUnparkFilter (b : nat) (k : Z) {E : Type} (filt : E → ParkToken → FilterOp * E) (e : E)
| ARequeue (b_from b_to : nat) (k k_to : Z) (op : RequeueOp)
(* our own thread data and that of a thread to wake *)
| AKey
| AToken
| APark (timeout : option Z)
| ATimedOut
| ASetToken (t : tid) (tok : UnparkToken)
| AUnparkLock (t : tid)
| AWake (t : tid)
(* guards *)
| AEnter (a : Z) (g : guard)
| AExit (a : Z) (g : guard)  (* all those of the thread *)
| ADrop (a : Z) (g : guard).  (* one of them *)

Definition resp (a : act) : Type :=
  match a with
  | ALoad _ | ARmw _ _ | ANow | AKey | AToken => Z
  | ACas _ _ _ _ => bool * Z
  | ADequeue _ _ => option bool
  | AUnparkOne _ _ => option tid * UnparkResult
  | AUnparkAll _ _ => list tid
  | @AUnparkFilter _ _ E _ _ => list tid * E * UnparkResult
  | ARequeue _ _ _ _ _ => option tid * UnparkResult
  | APark _ | ATimedOut => bool
  | _ => unit
  end.

(** [bucket.fair_timeout.should_timeout()], read at time [now]. *)
Definition should_timeout (now : Z) (b : nat) (s : state) : bool * state :=
  let '(fair, f) := FairTimeout.should_timeout now (bfair s b) in (fair, set_bfair b f s).

(** [timeout <= Instant::now()] *)
Definition deadline_passed (timeout : option Z) (now : Z) : bool :=
  match timeout with Some d => d <=? now | None => false end.

(** One atomic action of thread [t].  The choice [c] is the time for the
    actions that read the clock; a weak compare-exchange fails spuriously
    when it is not zero.  [APark] blocks until the flag is cleared or the
    deadline has passed. *)
Definition exec (t : tid) (c : choice) (a : act) : state → option (state * resp a) :=
  match a with
  | ALoad a => λ s, Some (s, mem s a)
  | AStore a v => λ s, Some (set_mem a v s, tt)
  | ARmw a f => λ s, Some (set_mem a (f (mem s a)) s, mem s a)
  | ACas weak a old new => λ s,
      if weak && negb (c =? 0) then Some (s, (false, mem s a))
      else if mem s a =? old then Some (set_mem a new s, (true, old))
      else Some (s, (false, mem s a))
  | AYield => λ s, Some (s, tt)
  | ANow => λ s, Some (s, c)
  | ABucketLock b => λ s,
      match bmutex s b with None => Some (set_bmutex b (Some t) s, tt) | Some _ => None end
  | ABucketUnlock b => λ s, Some (set_bmutex b None s, tt)
  | AEnqueue b k tok timed => λ s,
      let d := MkTD k (td_unpark_token (td s t)) tok timed true in
      Some (set_bqueue b (bqueue s b ++ [t]) (set_td t d s), tt)
  | ADequeue b k => λ s,
      let '(r, l) := Spec.park_dequeue (key_of s) t k (bqueue s b) in
      Some (set_bqueue b l s, r)
  | AUnparkOne b k => λ s,
      match Spec.unpark_one (key_of s) k (bqueue s b) with
      | (Some (w, more), l) =>
          let '(fair, s) := should_timeout c b (set_bqueue b l s) in
          Some (s, (Some w, MkUnparkResult 1 0 more fair))
      | (None, _) => Some (s, (None, default_result))
      end
  | AUnparkAll b k => λ s,
      let '(ws, l) := Spec.unpark_all (key_of s) k (bqueue s b) in
      Some (set_bqueue b l s, ws)
  | AUnparkFilter b k filt e => λ s,
      let '(ws, l, more, e) :=
        Spec.unpark_filter (key_of s) (token_of s) filt k e (bqueue s b) in
      let s := set_bqueue b l s in
      let '(fair, s) := if bool_decide (ws = []) then (false, s) else should_timeout c b s in
      Some (s, (ws, e, MkUnparkResult (Z.of_nat (length ws)) 0 more fair))
  | ARequeue b_from b_to k k_to op => λ s,
      let '(wk, m, rest, more) := Spec.unpark_requeue (key_of s) op k (bqueue s b_from) in
      let s := set_bqueue b_from rest s in
      let s := set_bqueue b_to (bqueue s b_to ++ m) s in
      let s := foldl (λ s w, let d := td s w in
                 set_td w (MkTD k_to (td_unpark_token d) (td_park_token d) (td_timed d)
                             (td_parked d)) s) s m in
      let '(fair, s) := if wk is Some _ then should_timeout c b_from s else (false, s) in
      Some (s, (wk, MkUnparkResult (if wk is Some _ then 1 else 0)
                      (Z.of_nat (length m)) more fair))
  | AKey => λ s, Some (s, td_key (td s t))
  | AToken => λ s, Some (s, td_unpark_token (td s t))
  | APark timeout => λ s,
      if negb (td_parked (td s t)) then Some (s, true)
      else if deadline_passed timeout c then Some (s, false)
      else None
  | ATimedOut => λ s, Some (s, td_parked (td s t))
  | ASetToken w tok => λ s,
      let d := td s w in
      Some (set_td w (MkTD (td_key d) tok (td_park_token d) (td_timed d) (td_parked d)) s, tt)
  | AUnparkLock w => λ s,
      let d := td s w in
      Some (set_td w (MkTD (td_key d) (td_unpark_token d) (td_park_token d) (td_timed d) false) s,
            tt)
  | AWake _ => λ s, Some (s, tt)
  | AEnter a g => λ s, Some (set_live a ((t, g) :: live s a) s, tt)
  | AExit a g => λ s, Some (set_live a (filter (λ x, x ≠ (t, g)) (live s a)) s, tt)
  | ADrop a g => λ s, Some (set_live a (remove_first (t, g) (live s a)) s, tt)
  end.

Abbreviation iprog := (prog act resp).

Local Open Scope prog_scope.

Definition load (a : Z) : iprog Z := Act (ALoad a) Ret.
Definition store (a v : Z) : iprog unit := Act (AStore a v) Ret.
Definition rmw (a : Z) (f : Z → Z) : iprog Z := Act (ARmw a f) Ret.
Definition fetch_or (a v : Z) : iprog Z := rmw a (λ x, Z.lor x v).
(** [fetch_and(!v)] *)
Definition fetch_clear (a v : Z) : iprog Z := rmw a (λ x, clear_bits x v).
Definition fetch_add (w a v : Z) : iprog Z := rmw a (λ x, wrapping_add w x v).
Definition fetch_sub (w a v : Z) : iprog Z := rmw a (λ x, wrapping_sub w x v).
Definition swap (a v : Z) : iprog Z := rmw a (λ _, v).
Definition compare_exchange (a old new : Z) : iprog (bool * Z) := Act (ACas false a old new) Ret.
Definition compare_exchange_weak (a old new : Z) : iprog (bool * Z) :=
  Act (ACas true a old new) Ret.
Definition yield : iprog unit := Act AYield Ret.
Definition now : iprog Z := Act ANow Ret.

(** [SpinWait::spin] and [spin_no_yield]: the state of the counter is
    [SpinWait]'s, the time wasted is one [AYield]. *)
Definition spin (w : SpinWait.t) : iprog (bool * SpinWait.t) :=
  match SpinWait.spin w with
  | (b, Some _, w) => yield;; Ret (b, w)
  | (b, None, w) => Ret (b, w)
  end.
Definition spin_no_yield (w : SpinWait.t) : iprog SpinWait.t :=
  let '(_, w) := SpinWait.spin_no_yield w in yield;; Ret w.

(** [Instant::checked_add]: an instant is a number of nanoseconds whose
    seconds fit an [i64]. *)
Definition instant_checked_add (i d : Z) : option Z :=
  if i + d <? 2 ^ 63 * 1000000000 then Some (i + d) else None.

(** [util::to_deadline] (src/util.rs) *)
Definition to_deadline (timeout : Z) : iprog (option Z) :=
  n <- now;; Ret (instant_checked_add n timeout).

(** ** The functions of the parking lot *)

Section lot.
Context (bucket_of : Z → nat).

(** [lock_bucket], and [bucket.mutex.unlock()]. *)
Definition lock_bucket (k : Z) : iprog nat :=
  Act (ABucketLock (bucket_of k)) (λ _, Ret (bucket_of k)).
Definition unlock_bucket (b : nat) : iprog unit := Act (ABucketUnlock b) Ret.

(** [lock_bucket_checked(&thread_data.key)] *)
Definition lock_bucket_checked : iprog (Z * nat) :=
  Iter (λ _ : unit,
    current_key <- Act AKey Ret;;
    bucket <- lock_bucket current_key;;
    key <- Act AKey Ret;;
    if key =? current_key then Ret (inr (current_key, bucket))
    else unlock_bucket bucket;; Ret (inl tt)) tt.

(** [lock_bucket_pair], the bucket with the lowest index first, and
    [unlock_bucket_pair]. *)
Definition lock_bucket_pair (k1 k2 : Z) : iprog (nat * nat) :=
  let hash1 := bucket_of k1 in
  let hash2 := bucket_of k2 in
  let first := if (hash1 <=? hash2)%nat then hash1 else hash2 in
  Act (ABucketLock first) (λ _,
    if (hash1 =? hash2)%nat then Ret (first, first)
    else if (hash1 <? hash2)%nat then
      Act (ABucketLock hash2) (λ _, Ret (first, hash2))
    else
      Act (ABucketLock hash1) (λ _, Ret (hash1, first))).

Definition unlock_bucket_pair (b1 b2 : nat) : iprog unit :=
  unlock_bucket b1;;
  if (b1 =? b2)%nat then Ret tt else unlock_bucket b2.

(** [park].  [E] is what the closures [validate] and [timed_out] capture
    and write; [timeout] is the deadline. *)
Definition park {E : Type} (key : Z) (validate : E → iprog (bool * E))
    (before_sleep : iprog unit) (timed_out : E → Z → bool → iprog E)
    (park_token : ParkToken) (timeout : option Z) (e : E) : iprog (ParkResult * E) :=
  bucket <- lock_bucket key;;
  v <- validate e;;
  let '(valid, e) := v in
  if negb valid then
    unlock_bucket bucket;;
    Ret (Invalid, e)
  else
    Act (AEnqueue bucket key park_token (bool_decide (is_Some timeout))) (λ _,
    unlock_bucket bucket;;
    before_sleep;;
    unparked <- Act (APark timeout) Ret;;
    if unparked : bool then
      token <- Act AToken Ret;;
      Ret (Unparked token, e)
    else
      kb <- lock_bucket_checked;;
      let '(key, bucket) := kb in
      to <- Act ATimedOut Ret;;
      if negb to then
        unlock_bucket bucket;;
        token <- Act AToken Ret;;
        Ret (Unparked token, e)
      else
        was_last_thread <- Act (ADequeue bucket key) Ret;;
        match was_last_thread with
        | Some was_last_thread =>
            e <- timed_out e key was_last_thread;;
            unlock_bucket bucket;;
            Ret (TimedOut, e)
        | None => Panic "debug_assert!(!current.is_null())"
        end).

(** [unpark_token.set(token)], [unpark_lock()] for each thread; later
    [handle.unpark()]. *)
Fixpoint prepare_unpark (ws : list tid) (tok : UnparkToken) : iprog unit :=
  match ws with
  | [] => Ret tt
  | w :: ws =>
      Act (ASetToken w tok) (λ _, Act (AUnparkLock w) (λ _, prepare_unpark ws tok))
  end.

Fixpoint wake_handles (ws : list tid) : iprog unit :=
  match ws with
  | [] => Ret tt
  | w :: ws => Act (AWake w) (λ _, wake_handles ws)
  end.

Definition unpark_one (key : Z) (callback : UnparkResult → iprog UnparkToken)
    : iprog UnparkResult :=
  bucket <- lock_bucket key;;
  r <- Act (AUnparkOne bucket key) Ret;;
  match r with
  | (Some w, result) =>
      token <- callback result;;
      Act (ASetToken w token) (λ _,
      Act (AUnparkLock w) (λ _,
      unlock_bucket bucket;;
      Act (AWake w) (λ _,
      Ret result)))
  | (None, result) =>
      callback result;;
      unlock_bucket bucket;;
      Ret result
  end.

Definition unpark_all (key : Z) (tok : UnparkToken) : iprog Z :=
  bucket <- lock_bucket key;;
  threads <- Act (AUnparkAll bucket key) Ret;;
  prepare_unpark threads tok;;
  unlock_bucket bucket;;
  wake_handles threads;;
  Ret (Z.of_nat (length threads)).

Definition unpark_filter {E : Type} (key : Z) (filt : E → ParkToken → FilterOp * E) (e : E)
    (callback : E → UnparkResult → iprog UnparkToken) : iprog UnparkResult :=
  bucket <- lock_bucket key;;
  r <- Act (AUnparkFilter bucket key filt e) Ret;;
  let '(threads, e, result) := r in
  token <- callback e result;;
  prepare_unpark threads token;;
  unlock_bucket bucket;;
  wake_handles threads;;
  Ret result.

Definition unpark_requeue {E : Type} (key_from key_to : Z) (validate : E → iprog (RequeueOp * E))
    (callback : E → RequeueOp → UnparkResult → iprog UnparkToken) (e : E)
    : iprog UnparkResult :=
  bs <- lock_bucket_pair key_from key_to;;
  let '(bucket_from, bucket_to) := bs in
  v <- validate e;;
  let '(op, e) := v in
  if bool_decide (op = Abort) then
    unlock_bucket_pair bucket_from bucket_to;;
    Ret default_result
  else
    r <- Act (ARequeue bucket_from bucket_to key_from key_to op) Ret;;
    let '(wakeup_thread, result) := r in
    token <- callback e op result;;
    match wakeup_thread with
    | Some w =>
        Act (ASetToken w token) (λ _,
        Act (AUnparkLock w) (λ _,
        unlock_bucket_pair bucket_from bucket_to;;
        Act (AWake w) (λ _,
        Ret result)))
    | None =>
        unlock_bucket_pair bucket_from bucket_to;;
        Ret result
    end.
End lot.
