(* ===== verification/LotInv.v ===== *)
(** * The invariant of the parking lot

    What a verified client keeps true of the buckets, their queues and the
    data of the threads, whatever the client is.  The client gives each thread
    a role; [LotRole] is the interface it implements: which buckets a role
    holds, whether the thread is parked, and which threads it has taken out of
    a queue and not yet released.  Each lemma below is one action of the
    parking lot, and says how the role must change with it. *)

From S2P Require Import Prelude Conc LotTypes FairTimeout BucketQueue ParkingLot.

(** ** What [unpark_requeue] does to queues and keys *)

Definition with_key (k : Z) (d : ThreadData) : ThreadData :=
  MkTD k (td_unpark_token d) (td_park_token d) (td_timed d) (td_parked d).

(** The queues once the threads [m] have gone from bucket [b1] to [b2]. *)
Definition moved_queues (b1 b2 : nat) (rest m : list tid) (q : nat → list tid) : nat → list tid :=
  let q1 := <[b1 := rest]> q in <[b2 := q1 b2 ++ m]> q1.

Lemma elem_of_moved b1 b2 rest m q b u :
  u ∈ moved_queues b1 b2 rest m q b ↔
  (if decide (b = b1) then u ∈ rest else u ∈ q b) ∨ (b = b2 ∧ u ∈ m).
Proof.
  unfold moved_queues. rewrite !fn_insert_case.
  repeat case_decide; subst; rewrite ?elem_of_app; naive_solver.
Qed.

(** The keys of the moved threads. *)
Lemma rekey_fold k (m : list tid) (s : state) :
  let s' := foldl (λ s w, let d := td s w in
              set_td w (MkTD k (td_unpark_token d) (td_park_token d) (td_timed d)
                          (td_parked d)) s) s m in
  mem s' = mem s ∧ bmutex s' = bmutex s ∧ bqueue s' = bqueue s ∧ live s' = live s ∧ bfair s' = bfair s ∧
  ∀ u, td s' u = if decide (u ∈ m) then with_key k (td s u) else td s u.
Proof.
  revert s. induction m as [|w m IH]; intros s; cbn [foldl].
  { by repeat split. }
  destruct (IH (set_td w (with_key k (td s w)) s)) as (E1 & E2 & E3 & E4 & E5 & E6).
  unfold with_key in *. cbn in *. repeat split; try done. intros u. rewrite E6.
  rewrite fn_insert_case. destruct (decide (w = u)) as [->|Hne].
  - rewrite (decide_True (P := u ∈ u :: m)) by (apply elem_of_cons; by left).
    by case_decide.
  - destruct (decide (u ∈ m)) as [Hm|Hm].
    + rewrite decide_True; [done|]. apply elem_of_cons. by right.
    + rewrite decide_False; [done|]. intros [->|?]%elem_of_cons; done.
Qed.

(** The action itself. *)
Lemma requeue_exec t c s b1 b2 k1 k2 op wk m rest more :
  Spec.unpark_requeue (key_of s) op k1 (bqueue s b1) = (wk, m, rest, more) →
  ∃ s' fair,
    exec t c (ARequeue b1 b2 k1 k2 op) s =
      Some (s', (wk, MkUnparkResult (if wk is Some _ then 1 else 0) (Z.of_nat (length m))
                       more fair)) ∧
    mem s' = mem s ∧ bmutex s' = bmutex s ∧ bqueue s' = moved_queues b1 b2 rest m (bqueue s) ∧
    live s' = live s ∧
    ∀ u, td s' u = if decide (u ∈ m) then with_key k2 (td s u) else td s u.
Proof.
  intros E. cbn -[foldl]. rewrite E.
  set (s1 := set_bqueue b2 _ _).
  destruct (rekey_fold k2 m s1) as (E1 & E2 & E3 & E4 & E5 & E6). cbn zeta in *.
  set (s2 := foldl _ s1 m) in *. destruct wk as [w|].
  - unfold should_timeout. destruct (FairTimeout.should_timeout c (bfair s2 b1)) as [fair f].
    eexists _, fair. split; [reflexivity|]. cbn. by rewrite E1, E2, E3, E4.
  - eexists _, false. split; [reflexivity|]. by rewrite E1, E2, E3, E4.
Qed.

Class LotRole (R : Type) := {
  r_hold : R → list nat;  (* buckets whose lock the thread holds *)
  r_wait : R → bool;  (* enqueued, and not yet back from [park] *)
  r_cust : R → list tid;  (* threads dequeued that are still to be released *)
}.

Section lot_inv.
Context {R : Type} `{!LotRole R} (bucket_of : Z → nat).
Implicit Types (bm : nat → option tid) (bq : nat → list tid) (d : tid → ThreadData)
  (ρ : tid → R) (t u w : tid) (r : R).

Record LotInv bm bq d ρ : Prop := {
  li_lock b t : bm b = Some t ↔ b ∈ r_hold (ρ t);
  li_nodup b : NoDup (bq b);
  li_queue b t : t ∈ bq b →
    r_wait (ρ t) = true ∧ bucket_of (td_key (d t)) = b ∧ td_parked (d t) = true;
  li_wait t : r_wait (ρ t) = true → td_parked (d t) = true →
    t ∈ bq (bucket_of (td_key (d t))) ∨ ∃ u, t ∈ r_cust (ρ u);
  li_cust u t : t ∈ r_cust (ρ u) →
    r_wait (ρ t) = true ∧ td_parked (d t) = true ∧
    t ∉ bq (bucket_of (td_key (d t))) ∧ bucket_of (td_key (d t)) ∈ r_hold (ρ u);
}.

(** A thread is in one bucket at most. *)
Lemma lot_queue_unique bm bq d ρ b b' t :
  LotInv bm bq d ρ → t ∈ bq b → t ∈ bq b' → b = b'.
Proof.
  intros HI Ht Ht'. apply (li_queue _ _ _ _ HI) in Ht as (_ & <- & _).
  by apply (li_queue _ _ _ _ HI) in Ht' as (_ & <- & _).
Qed.

(** Two threads do not hold the same bucket. *)
Lemma lot_hold_unique bm bq d ρ b t u :
  LotInv bm bq d ρ → b ∈ r_hold (ρ t) → b ∈ r_hold (ρ u) → t = u.
Proof.
  intros HI Ht Hu. apply (li_lock _ _ _ _ HI) in Ht. apply (li_lock _ _ _ _ HI) in Hu.
  congruence.
Qed.

(** The role changes but not in what concerns the parking lot. *)
Lemma lot_role bm bq d ρ t r :
  LotInv bm bq d ρ →
  r_hold r = r_hold (ρ t) → r_wait r = r_wait (ρ t) → r_cust r = r_cust (ρ t) →
  LotInv bm bq d (<[t := r]> ρ).
Proof.
  intros [H1 H2 H3 H4 H5] Eh Ew Ec.
  assert (Eh' : ∀ u, r_hold ((<[t := r]> ρ : tid → R) u) = r_hold (ρ u))
    by (intros u; by fn_cases t u).
  assert (Ew' : ∀ u, r_wait ((<[t := r]> ρ : tid → R) u) = r_wait (ρ u))
    by (intros u; by fn_cases t u).
  assert (Ec' : ∀ u, r_cust ((<[t := r]> ρ : tid → R) u) = r_cust (ρ u))
    by (intros u; by fn_cases t u).
  split.
  - intros b u. by rewrite Eh'.
  - done.
  - intros b u. rewrite Ew'. auto.
  - intros u. rewrite Ew'. intros Hw Hp. destruct (H4 u Hw Hp) as [?|[v Hv]]; [by left|].
    right. exists v. by rewrite Ec'.
  - intros u v. rewrite Ec', Ew', Eh'. auto.
Qed.

Lemma lot_lock bm bq d ρ t b r :
  LotInv bm bq d ρ → bm b = None →
  (∀ b', b' ∈ r_hold r ↔ b' = b ∨ b' ∈ r_hold (ρ t)) →
  r_wait r = r_wait (ρ t) → r_cust r = r_cust (ρ t) →
  LotInv (<[b := Some t]> bm) bq d (<[t := r]> ρ).
Proof.
  intros [H1 H2 H3 H4 H5] Hb Eh Ew Ec.
  assert (Ew' : ∀ u, r_wait ((<[t := r]> ρ : tid → R) u) = r_wait (ρ u))
    by (intros u; by fn_cases t u).
  assert (Ec' : ∀ u, r_cust ((<[t := r]> ρ : tid → R) u) = r_cust (ρ u))
    by (intros u; by fn_cases t u).
  split.
  - intros b' u. fn_cases b b'; fn_cases t u.
    + rewrite Eh. naive_solver.
    + split; [congruence|]. intros Hu%H1. congruence.
    + rewrite Eh, H1. naive_solver.
    + apply H1.
  - done.
  - intros b' u. rewrite Ew'. auto.
  - intros u. rewrite Ew'. intros Hw Hp. destruct (H4 u Hw Hp) as [?|[v Hv]]; [by left|].
    right. exists v. by rewrite Ec'.
  - intros u v. rewrite Ec', Ew'. intros Hv. destruct (H5 u v Hv) as (? & ? & ? & ?).
    repeat split; try done. fn_cases t u; [|done]. apply Eh. auto.
Qed.

Lemma lot_unlock bm bq d ρ t b r :
  LotInv bm bq d ρ → b ∈ r_hold (ρ t) → r_cust (ρ t) = [] →
  (∀ b', b' ∈ r_hold r ↔ b' ∈ r_hold (ρ t) ∧ b' ≠ b) →
  r_wait r = r_wait (ρ t) → r_cust r = [] →
  LotInv (<[b := None]> bm) bq d (<[t := r]> ρ).
Proof.
  intros [H1 H2 H3 H4 H5] Hb Ec0 Eh Ew Ec.
  assert (Ew' : ∀ u, r_wait ((<[t := r]> ρ : tid → R) u) = r_wait (ρ u))
    by (intros u; by fn_cases t u).
  assert (Ec' : ∀ u, r_cust ((<[t := r]> ρ : tid → R) u) = r_cust (ρ u)).
  { intros u. fn_cases t u; [congruence|done]. }
  split.
  - intros b' u. fn_cases b b'; fn_cases t u.
    + rewrite Eh. naive_solver.
    + split; [done|]. intros Hu%H1. apply H1 in Hb. congruence.
    + rewrite Eh, H1. naive_solver.
    + apply H1.
  - done.
  - intros b' u. rewrite Ew'. auto.
  - intros u. rewrite Ew'. intros Hw Hp. destruct (H4 u Hw Hp) as [?|[v Hv]]; [by left|].
    right. exists v. by rewrite Ec'.
  - intros u v. rewrite Ec', Ew'. intros Hv. destruct (H5 u v Hv) as (? & ? & ? & ?).
    repeat split; try done. fn_cases t u; [|done]. rewrite Ec0 in Hv. set_solver.
Qed.

(** Appending ourselves to the queue of a bucket we hold. *)
Lemma lot_enqueue bm bq d ρ t k dt r :
  LotInv bm bq d ρ → r_wait (ρ t) = false → td_key dt = k → td_parked dt = true →
  r_hold r = r_hold (ρ t) → r_wait r = true → r_cust r = r_cust (ρ t) →
  LotInv bm (<[bucket_of k := bq (bucket_of k) ++ [t]]> bq) (<[t := dt]> d) (<[t := r]> ρ).
Proof.
  intros [H1 H2 H3 H4 H5] Hw <- Hp Eh Ew Ec.
  assert (Hnq : ∀ b, t ∉ bq b) by (intros b Hb%H3; destruct Hb; congruence).
  assert (Hnc : ∀ u, t ∉ r_cust (ρ u)) by (intros u Hu%H5; destruct Hu; congruence).
  assert (Ec' : ∀ u, r_cust ((<[t := r]> ρ : tid → R) u) = r_cust (ρ u))
    by (intros u; by fn_cases t u).
  split.
  - intros b u. fn_cases t u; [|apply H1]. rewrite Eh. apply H1.
  - intros b. fn_cases (bucket_of (td_key dt)) b; [|done].
    apply NoDup_app. repeat split; [done| |apply NoDup_singleton].
    intros u Hu ->%list_elem_of_singleton. by apply Hnq in Hu.
  - intros b u Hu. fn_cases t u.
    + split; [done|]. split; [|done]. revert Hu.
      fn_cases (bucket_of (td_key dt)) b; [done|]. intros Hu. by apply Hnq in Hu.
    + apply H3. revert Hu. fn_cases (bucket_of (td_key dt)) b; [|done]. set_solver.
  - intros u. fn_cases t u.
    + intros _ _. left. fn_simp. set_solver.
    + intros Hwu Hpu. destruct (H4 u Hwu Hpu) as [Hq|[v Hv]].
      * left. rewrite fn_insert_case. case_decide as e; [|done]. rewrite e. set_solver.
      * right. exists v. by rewrite Ec'.
  - intros u v. rewrite Ec'. intros Hv. pose proof (Hnc u) as Hne.
    destruct (H5 u v Hv) as (Hwv & Hpv & Hqv & Hhv).
    assert (t ≠ v) by (intros ->; done). fn_simp. split; [done|]. split; [done|]. split.
    + rewrite fn_insert_case. case_decide as e; [|done]. rewrite e. set_solver.
    + fn_cases t u; [by rewrite Eh|done].
Qed.

(** Back from [park]: the thread finds its flag cleared. *)
Lemma lot_leave bm bq d ρ t r :
  LotInv bm bq d ρ → td_parked (d t) = false →
  r_hold r = r_hold (ρ t) → r_wait r = false → r_cust r = r_cust (ρ t) →
  LotInv bm bq d (<[t := r]> ρ).
Proof.
  intros [H1 H2 H3 H4 H5] Hp Eh Ew Ec.
  assert (Ec' : ∀ u, r_cust ((<[t := r]> ρ : tid → R) u) = r_cust (ρ u))
    by (intros u; by fn_cases t u).
  split.
  - intros b u. fn_cases t u; [|apply H1]. rewrite Eh. apply H1.
  - done.
  - intros b u Hu. fn_cases t u; [|by apply H3].
    apply H3 in Hu as (_ & _ & ?). congruence.
  - intros u. fn_cases t u; [congruence|]. intros Hw Hpu.
    destruct (H4 u Hw Hpu) as [?|[v Hv]]; [by left|]. right. exists v. by rewrite Ec'.
  - intros u v. rewrite Ec'. intros Hv. destruct (H5 u v Hv) as (Hwv & Hpv & Hqv & Hhv).
    assert (t ≠ v) by (intros ->; congruence). fn_simp. repeat split; try done.
    fn_cases t u; [by rewrite Eh|done].
Qed.

(** With its own bucket locked, a thread that is still parked is queued. *)
Lemma lot_in_queue bm bq d ρ t :
  LotInv bm bq d ρ → r_wait (ρ t) = true → td_parked (d t) = true →
  bucket_of (td_key (d t)) ∈ r_hold (ρ t) → r_cust (ρ t) = [] →
  t ∈ bq (bucket_of (td_key (d t))).
Proof.
  intros HI Hw Hp Hh Hc. destruct (li_wait _ _ _ _ HI t Hw Hp) as [?|[u Hu]]; [done|].
  destruct (li_cust _ _ _ _ HI u t Hu) as (_ & _ & _ & Hhu).
  rewrite (lot_hold_unique _ _ _ _ _ _ _ HI Hhu Hh), Hc in Hu. set_solver.
Qed.

Lemma lot_dequeue bm bq d ρ t b r :
  LotInv bm bq d ρ → t ∈ bq b → 
  r_hold r = r_hold (ρ t) → r_wait r = false → r_cust r = r_cust (ρ t) →
  LotInv bm (<[b := filter (λ u, u ≠ t) (bq b)]> bq) d (<[t := r]> ρ).
Proof.
  intros HI Ht Eh Ew Ec. pose proof (λ b', lot_queue_unique _ _ _ _ b b' t HI Ht) as Huniq.
  destruct HI as [H1 H2 H3 H4 H5].
  assert (Ec' : ∀ u, r_cust ((<[t := r]> ρ : tid → R) u) = r_cust (ρ u))
    by (intros u; by fn_cases t u).
  assert (Hsub : ∀ b' u, u ∈ (<[b := filter (λ u, u ≠ t) (bq b)]> bq : nat → list tid) b' ↔
                         u ∈ bq b' ∧ u ≠ t).
  { intros b' u. fn_cases b b'; [rewrite list_elem_of_filter; tauto|].
    split; [|tauto]. intros Hu. split; [done|]. intros ->. naive_solver. }
  split.
  - intros b' u. fn_cases t u; [|apply H1]. rewrite Eh. apply H1.
  - intros b'. fn_cases b b'; [by apply NoDup_filter|done].
  - intros b' u [Hu Hne]%Hsub. fn_simp. by apply H3.
  - intros u. fn_cases t u; [congruence|]. intros Hwu Hpu.
    destruct (H4 u Hwu Hpu) as [?|[v Hv]].
    + left. by apply Hsub.
    + right. exists v. by rewrite Ec'.
  - intros u v. rewrite Ec'. intros Hv. destruct (H5 u v Hv) as (Hwv & Hpv & Hqv & Hhv).
    assert (t ≠ v) as Hne. { intros ->. apply Hqv. by destruct (H3 b v Ht) as (_ & -> & _). }
    fn_simp. repeat split; try done.
    + rewrite Hsub. tauto.
    + fn_cases t u; [by rewrite Eh|done].
Qed.

(** Taking threads out of the queue of a bucket we hold. *)
Lemma lot_take bm bq d ρ t b ws l r :
  LotInv bm bq d ρ → b ∈ r_hold (ρ t) → r_cust (ρ t) = [] →
  NoDup l → (∀ u, u ∈ bq b ↔ u ∈ ws ∨ u ∈ l) → (∀ u, u ∈ ws → u ∉ l) →
  r_hold r = r_hold (ρ t) → r_wait r = r_wait (ρ t) → r_cust r = ws →
  LotInv bm (<[b := l]> bq) d (<[t := r]> ρ).
Proof.
  intros HI Hb Hc0 Hnd Hsplit Hdis Eh Ew <-. pose proof HI as [H1 H2 H3 H4 H5].
  assert (Ew' : ∀ u, r_wait ((<[t := r]> ρ : tid → R) u) = r_wait (ρ u))
    by (intros u; by fn_cases t u).
  assert (Eh' : ∀ u, r_hold ((<[t := r]> ρ : tid → R) u) = r_hold (ρ u))
    by (intros u; by fn_cases t u).
  split.
  - intros b' u. rewrite Eh'. apply H1.
  - intros b'. by fn_cases b b'.
  - intros b' u. rewrite Ew'. intros Hu. apply H3. revert Hu.
    fn_cases b b'; [|done]. rewrite Hsplit. auto.
  - intros u. rewrite Ew'. intros Hwu Hpu. destruct (H4 u Hwu Hpu) as [Hq|[v Hv]].
    + fn_cases b (bucket_of (td_key (d u))); [|by left].
      apply Hsplit in Hq as [Hq|Hq]; [|by left].
      right. exists t. by fn_simp.
    + right. exists v. fn_cases t v; [|done]. rewrite Hc0 in Hv. set_solver.
  - intros u v. rewrite Ew', Eh'. fn_cases t u.
    + intros Hv.
      destruct (H3 b v) as (? & Hbv & ?); [apply Hsplit; auto|].
      rewrite Hbv. fn_simp. repeat split; auto.
    + intros Hv. destruct (H5 u v Hv) as (? & ? & Hq & Hh). repeat split; try done.
      fn_cases b (bucket_of (td_key (d v))); [|done]. intros Hl. apply Hq. 
      apply Hsplit. auto.
Qed.

(** The data of a thread changes, not its key or flag. *)
Lemma lot_data bm bq d ρ w dw :
  LotInv bm bq d ρ → td_key dw = td_key (d w) → td_parked dw = td_parked (d w) →
  LotInv bm bq (<[w := dw]> d) ρ.
Proof.
  intros [H1 H2 H3 H4 H5] Hk Hp.
  assert (Ek : ∀ u, td_key ((<[w := dw]> d : tid → ThreadData) u) = td_key (d u))
    by (intros u; by fn_cases w u).
  assert (Ep : ∀ u, td_parked ((<[w := dw]> d : tid → ThreadData) u) = td_parked (d u))
    by (intros u; by fn_cases w u).
  split; [done|done|..].
  - intros b u. rewrite Ek, Ep. apply H3.
  - intros u. rewrite Ek, Ep. apply H4.
  - intros u v. rewrite Ek, Ep. apply H5.
Qed.

(** Releasing a thread we have taken. *)
Lemma lot_wake bm bq d ρ t w dw r :
  LotInv bm bq d ρ → w ∈ r_cust (ρ t) → td_key dw = td_key (d w) → td_parked dw = false →
  r_hold r = r_hold (ρ t) → r_wait r = r_wait (ρ t) →
  (∀ u, u ∈ r_cust r ↔ u ∈ r_cust (ρ t) ∧ u ≠ w) →
  LotInv bm bq (<[w := dw]> d) (<[t := r]> ρ).
Proof.
  intros HI Hw Hk Hp Eh Ew Ec. pose proof HI as [H1 H2 H3 H4 H5].
  destruct (H5 t w Hw) as (Hww & Hpw & Hqw & Hhw).
  assert (Ew' : ∀ u, r_wait ((<[t := r]> ρ : tid → R) u) = r_wait (ρ u))
    by (intros u; by fn_cases t u).
  assert (Eh' : ∀ u, r_hold ((<[t := r]> ρ : tid → R) u) = r_hold (ρ u))
    by (intros u; by fn_cases t u).
  assert (Ek : ∀ u, td_key ((<[w := dw]> d : tid → ThreadData) u) = td_key (d u))
    by (intros u; by fn_cases w u).
  split.
  - intros b u. rewrite Eh'. apply H1.
  - done.
  - intros b u. rewrite Ew', Ek. intros Hu. destruct (H3 b u Hu) as (? & Hbu & ?).
    repeat split; try done. rewrite fn_insert_case. case_decide; [|done]. by subst.
  - intros u. rewrite Ew', Ek. fn_cases w u; [congruence|]. intros Hwu Hpu.
    destruct (H4 u Hwu Hpu) as [?|[v Hv]]; [by left|]. right. exists v.
    fn_cases t v; [|done]. apply Ec. auto.
  - intros u v. rewrite Ew', Eh', Ek. intros Hv.
    assert (v ∈ r_cust (ρ u) ∧ v ≠ w) as [Hv' Hne].
    { revert Hv. fn_cases t u; [apply Ec|]. intros Hv. split; [done|]. intros ->.
      destruct (H5 u w Hv) as (_ & _ & _ & Hhu).
      by pose proof (lot_hold_unique _ _ _ _ _ _ _ HI Hhu Hhw). }
    fn_simp. apply (H5 u v Hv').
Qed.

(** Threads move to the queue of another bucket that we hold, and one is taken
    out. *)
Lemma lot_requeue bm bq d ρ t b1 k wk m rest d' r :
  LotInv bm bq d ρ → b1 ∈ r_hold (ρ t) → bucket_of k ∈ r_hold (ρ t) → r_cust (ρ t) = [] →
  bq b1 ≡ₚ option_list wk ++ m ++ rest →
  (∀ u, d' u = if decide (u ∈ m) then with_key k (d u) else d u) →
  r_hold r = r_hold (ρ t) → r_wait r = r_wait (ρ t) → r_cust r = option_list wk →
  LotInv bm (moved_queues b1 (bucket_of k) rest m bq) d' (<[t := r]> ρ).
Proof.
  intros HI Hb1 Hb2 Hc0 Hp Hd Eh Ew Ec.
  pose proof (λ b b' u, lot_queue_unique _ _ _ _ b b' u HI) as Huniq. pose proof HI as [H1 H2 H3 H4 H5].
  assert (Hnd : NoDup (option_list wk ++ m ++ rest)) by (rewrite <- Hp; apply H2).
  assert (Hin : ∀ u, u ∈ bq b1 ↔ u ∈ option_list wk ∨ u ∈ m ∨ u ∈ rest).
  { intros u. rewrite Hp. set_solver. }
  apply NoDup_app in Hnd as (_ & Hwd & (Hndm & Hmd & Hndr)%NoDup_app).
  assert (Ew' : ∀ u, r_wait ((<[t := r]> ρ : tid → R) u) = r_wait (ρ u)) by (intros u; by fn_cases t u).
  assert (Eh' : ∀ u, r_hold ((<[t := r]> ρ : tid → R) u) = r_hold (ρ u)) by (intros u; by fn_cases t u).
  assert (Ep : ∀ u, td_parked (d' u) = td_parked (d u)) by (intros u; rewrite Hd; by case_decide).
  assert (Hold : ∀ b u, u ∈ moved_queues b1 (bucket_of k) rest m bq b → ∃ b', u ∈ bq b').
  { intros b u. rewrite elem_of_moved. case_decide; [subst b|]; intros [?|[_ ?]]; eauto; exists b1; apply Hin; auto. }
  split.
  - intros b u. by rewrite Eh'.
  - intros b. unfold moved_queues. rewrite !fn_insert_case.
    assert (Hx : ∀ b', NoDup (if decide (b1 = b') then rest else bq b')) by (intros b'; by case_decide).
    destruct (decide (bucket_of k = b)) as [<-|]; [|apply Hx]. apply NoDup_app. split; [apply Hx|].
    split; [|done]. intros u. case_decide as E; [intros Hu Hm; by apply (Hmd u)|].
    intros Hu Hm. apply E. apply (Huniq _ _ u); [apply Hin; auto|done].
  - intros b u Hu. rewrite Ew', Ep. destruct (Hold b u Hu) as [b' Hb'].
    destruct (H3 b' u Hb') as (Hw & Hbu & Hpk). split; [done|]. split; [|done]. rewrite Hd.
    apply elem_of_moved in Hu. destruct (decide (u ∈ m)) as [Hm|Hm]; cbn [td_key with_key].
    + destruct Hu as [Hu|[E _]]; [exfalso|done]. destruct (decide (b = b1)) as [E|E]; [by apply (Hmd u)|].
      apply E. symmetry. apply (Huniq _ _ u); [apply Hin; auto|done].
    + destruct Hu as [Hu|[_ ?]]; [|done].
      destruct (decide (b = b1)) as [->|E]; [|by destruct (H3 b u Hu) as (_ & ? & _)].
      destruct (H3 b1 u) as (_ & ? & _); [apply Hin; auto|done].
  - intros u. rewrite Ew', Ep. intros Hw Hpk. rewrite Hd. setoid_rewrite elem_of_moved.
    destruct (H4 u Hw Hpk) as [Hq|[v Hv]].
    + destruct (decide (u ∈ m)) as [Hm|Hm]; [left; by right|].
      destruct (decide (bucket_of (td_key (d u)) = b1)) as [E|E]; [|left; by left].
      rewrite E in Hq. apply Hin in Hq as [Hq|[?|?]]; [|done|left; by left].
      right. exists t. fn_simp. by rewrite Ec.
    + right. exists v. fn_cases t v; [|done]. rewrite Hc0 in Hv. set_solver.
  - intros v u. rewrite Ew', Eh', Ep. setoid_rewrite elem_of_moved. fn_cases t v.
    + rewrite Ec. intros Hu. assert (Hm : u ∉ m) by (intros Hm; apply (Hwd u Hu); set_solver).
      assert (Hr : u ∉ rest) by (intros Hr; apply (Hwd u Hu); set_solver).
      destruct (H3 b1 u) as (? & Hbu & ?); [apply Hin; auto|].
      rewrite Hd, (decide_False (P := u ∈ m)) by done. rewrite Hbu. split_and!; try done. rewrite decide_True by done. by intros [?|[_ ?]].
    + intros Hu. destruct (H5 v u Hu) as (? & ? & Hq & Hh).
      assert (Hno : ∀ b, u ∉ bq b) by (intros b Hb; apply Hq; by destruct (H3 b u Hb) as (_ & -> & _)).
      assert (Hm : u ∉ m) by (intros Hm; apply (Hno b1), Hin; auto).
      rewrite Hd, (decide_False (P := u ∈ m)) by done. split_and!; try done.
      destruct (decide (_ = b1)) as [E|E]; [|by intros [?|[_ ?]]].
      intros [Hr|[_ ?]]; [|done]. apply (Hno b1), Hin; auto.
Qed.
End lot_inv.


(** The guards of one lock that may be alive together. *)
Definition compatible (l : list (tid * guard)) : Prop :=
  (∃ t, l = [(t, GExclusive)]) ∨
  (GExclusive ∉ l.*2 ∧ (length (filter (λ gd, gd = GUpgradable) l.*2) ≤ 1)%nat).
