(* ===== verification/RawMutex.v ===== *)
(** * RawMutex (src/raw_mutex.rs, src/raw_fair_mutex.rs)

    The programs of the mutex, over the machine of [ParkingLot].  The address
    of the mutex is the address of its [state] word and the key its waiters
    park on.  The deadlock-detection hooks are empty here: they are, unless
    the feature [deadlock_detection] is enabled. *)

From S2P Require Import Prelude Conc LotTypes SpinWait FairTimeout BucketQueue ParkingLot.
Local Open Scope Z_scope.
Local Open Scope prog_scope.

Module RawMutex.
Definition TOKEN_NORMAL : UnparkToken := 0.
Definition TOKEN_HANDOFF : UnparkToken := 1.
Definition LOCKED_BIT : Z := 1.
Definition PARKED_BIT : Z := 2.

(** [RawMutex::INIT] *)
Definition INIT : Z := 0.

Section mutex.
Context (bucket_of : Z → nat).

(** The closures of [lock_slow]. *)
Definition validate (a : Z) (_ : unit) : iprog (bool * unit) :=
  state <- load a;;
  Ret (state =? Z.lor LOCKED_BIT PARKED_BIT, tt).

Definition timed_out (a : Z) (_ : unit) (_ : Z) (was_last_thread : bool) : iprog unit :=
  if was_last_thread then fetch_clear a PARKED_BIT;; Ret tt else Ret tt.

(** The loop of [lock_slow]; [inl] is [continue].  First the end of one
    turn: set the parked bit, then park. *)
Definition lock_slow_park (a : Z) (timeout : option Z) (spinwait : SpinWait.t) (state : Z)
    : iprog ((SpinWait.t * Z) + bool) :=
  r <- (if negb (has_bits state PARKED_BIT)
        then compare_exchange_weak a state (Z.lor state PARKED_BIT)
        else Ret (true, state));;
  if negb r.1 then Ret (inl (spinwait, r.2))
  else
    p <- park bucket_of a (validate a) (Ret tt) (timed_out a)
           DEFAULT_PARK_TOKEN timeout tt;;
    match p.1 with
    | Unparked token =>
        if token =? TOKEN_HANDOFF then Ret (inr true)
        else state <- load a;; Ret (inl (SpinWait.reset spinwait, state))
    | Invalid => state <- load a;; Ret (inl (SpinWait.reset spinwait, state))
    | TimedOut => Ret (inr false)
    end.

Definition lock_slow_body (a : Z) (timeout : option Z) (x : SpinWait.t * Z)
    : iprog ((SpinWait.t * Z) + bool) :=
  let '(spinwait, state) := x in
  if negb (has_bits state LOCKED_BIT) then
    r <- compare_exchange_weak a state (Z.lor state LOCKED_BIT);;
    Ret (if r.1 then inr true else inl (spinwait, r.2))
  else
    sp <- (if negb (has_bits state PARKED_BIT) then spin spinwait
           else Ret (false, spinwait));;
    let '(spun, spinwait) := sp in
    if spun : bool then state <- load a;; Ret (inl (spinwait, state))
    else lock_slow_park a timeout spinwait state.

Definition lock_slow (a : Z) (timeout : option Z) : iprog bool :=
  state <- load a;;
  Iter (lock_slow_body a timeout) (SpinWait.new, state).

Definition lock (a : Z) : iprog unit :=
  r <- compare_exchange_weak a 0 LOCKED_BIT;;
  if r.1 : bool then Ret tt else lock_slow a None;; Ret tt.

Definition try_lock (a : Z) : iprog bool :=
  state <- load a;;
  Iter (λ state,
    if has_bits state LOCKED_BIT then Ret (inr false)
    else
      r <- compare_exchange_weak a state (Z.lor state LOCKED_BIT);;
      Ret (if r.1 then inr true else inl r.2)) state.

Definition is_locked (a : Z) : iprog bool :=
  state <- load a;; Ret (has_bits state LOCKED_BIT).

Definition try_lock_until (a timeout : Z) : iprog bool :=
  r <- compare_exchange_weak a 0 LOCKED_BIT;;
  if r.1 : bool then Ret true else lock_slow a (Some timeout).

Definition try_lock_for (a timeout : Z) : iprog bool :=
  r <- compare_exchange_weak a 0 LOCKED_BIT;;
  if r.1 : bool then Ret true
  else deadline <- to_deadline timeout;; lock_slow a deadline.

(** The callback of [unlock_slow]. *)
Definition unlock_callback (a : Z) (force_fair : bool) (result : UnparkResult)
    : iprog UnparkToken :=
  if negb (unparked_threads result =? 0) && (force_fair || be_fair result) then
    if negb (have_more_threads result) then store a LOCKED_BIT;; Ret TOKEN_HANDOFF
    else Ret TOKEN_HANDOFF
  else if have_more_threads result then store a PARKED_BIT;; Ret TOKEN_NORMAL
  else store a 0;; Ret TOKEN_NORMAL.

Definition unlock_slow (a : Z) (force_fair : bool) : iprog unit :=
  unpark_one bucket_of a (unlock_callback a force_fair);; Ret tt.

Definition unlock (a : Z) : iprog unit :=
  r <- compare_exchange a LOCKED_BIT 0;;
  if r.1 : bool then Ret tt else unlock_slow a false.

Definition unlock_fair (a : Z) : iprog unit :=
  r <- compare_exchange a LOCKED_BIT 0;;
  if r.1 : bool then Ret tt else unlock_slow a true.

Definition bump_slow (a : Z) : iprog unit :=
  unlock_slow a true;; lock a.

Definition bump (a : Z) : iprog unit :=
  state <- load a;;
  if has_bits state PARKED_BIT then bump_slow a else Ret tt.

(** Used by the condition variable when it requeues threads to us. *)
Definition mark_parked_if_locked (a : Z) : iprog bool :=
  state <- load a;;
  Iter (λ state,
    if negb (has_bits state LOCKED_BIT) then Ret (inr false)
    else
      r <- compare_exchange_weak a state (Z.lor state PARKED_BIT);;
      Ret (if r.1 then inr true else inl r.2)) state.

Definition mark_parked (a : Z) : iprog unit :=
  fetch_or a PARKED_BIT;; Ret tt.
End mutex.
End RawMutex.

(** src/raw_fair_mutex.rs: every unlock is a fair one. *)
Module RawFairMutex.
Section fair_mutex.
Context (bucket_of : Z → nat).

Definition lock (a : Z) : iprog unit := RawMutex.lock bucket_of a.
Definition try_lock (a : Z) : iprog bool := RawMutex.try_lock a.
Definition unlock (a : Z) : iprog unit := RawMutex.unlock_fair bucket_of a.
Definition unlock_fair (a : Z) : iprog unit := RawMutex.unlock_fair bucket_of a.
Definition is_locked (a : Z) : iprog bool := RawMutex.is_locked a.
Definition bump (a : Z) : iprog unit := RawMutex.bump bucket_of a.
Definition try_lock_until (a timeout : Z) : iprog bool :=
  RawMutex.try_lock_until bucket_of a timeout.
Definition try_lock_for (a timeout : Z) : iprog bool :=
  RawMutex.try_lock_for bucket_of a timeout.
End fair_mutex.
End RawFairMutex.
