(* ===== verification/RawMutexInv.v ===== *)
(** * The invariant of RawMutex and of the condition variables that use it

    Any number of mutexes, condition variables, threads and hash collisions: a
    thread's role says which mutexes it owns, where it is in the slow paths, and
    whether it is queued by a condition variable; the ghost state is the owner of
    each mutex.  The invariant is the state table in the comment of
    [struct RawMutex]: the locked bit is set exactly when the mutex has an owner,
    the parked bit is set when a thread is queued, and an unlocked mutex with
    queued threads has a thread on its way to it.  The word of a condition
    variable is the address of the mutex of the threads queued on it. *)

From S2P Require Import Prelude Conc LotTypes SpinWait FairTimeout BucketQueue ParkingLot LotInv RawMutex.
Import RawMutex.
Local Open Scope Z_scope.

(** ** Roles *)

(** Where a thread is in the slow paths. *)
Inductive pc :=
| Idle
(* [lock_slow] *)
| Slow (a : Z)  (* about to look at the state again *)
| SlowL (a : Z)  (* in [park], with the bucket locked *)
| SlowOk (a : Z)  (* [validate] has returned true *)
| WaitL (a : Z)  (* enqueued, with the bucket locked *)
| Wait (a : Z)  (* asleep, or on the way to it or back *)
| TimeL (a : Z)  (* the wait has expired; the bucket is locked again *)
| TimeQ (a : Z)  (* and the thread was still parked *)
| TimeD (a : Z) (last : bool)  (* dequeued *)
| TimeE (a : Z)  (* [timed_out] has run *)
| AwakeL (a : Z)  (* the wait expired, but the thread had been unparked *)
| Awake (a : Z)  (* unparked *)
(* [unlock_slow] *)
| UnL (a : Z)  (* the bucket is locked *)
| UnN (a : Z)  (* no thread was found *)
| UnP (a : Z) (w : tid) (more : bool)  (* [w] has been dequeued *)
| UnS (a : Z) (w : tid)  (* and the mutex has been unlocked *)
| UnT (a : Z) (w : tid)  (* [w] has its token *)
| UnE (a : Z)  (* nothing left but to unlock the bucket *)
(* [wait_until_internal] of condition variable [c] with mutex [a] *)
| CvL (k : Z)  (* the bucket of [k] is locked *)
| CvOk (c a : Z)  (* [validate] has returned true *)
| CvTimeL (k : Z)  (* the wait has expired; the bucket of [k] is locked *)
| CvTimeK (k : Z)  (* and [k] is our key *)
| CvTimeQ (k : Z)  (* and we are still parked *)
| CvTimeD (a k : Z) (last : bool)  (* dequeued *)
| CvAwakeL (a k : Z)  (* the wait expired, but the thread had been unparked *)
(* [notify_one] and [notify_all] *)
| NtF (b : nat)  (* one bucket is locked *)
| NtL (c a : Z)  (* both are *)
| NtV (c a : Z)  (* the word has been validated *)
| NtR (c a : Z)  (* and the mutex is locked and marked *)
| NtZ (c a : Z)  (* the word has been cleared *)
| NtZR (c a : Z)  (* and the mutex is locked and marked *)
| NtQ (c a : Z) (w : option tid) (more : bool)  (* the queues are done *)
| NtP (c a : Z) (w : tid)  (* but the mutex is still to be marked *)
| NtT (c a : Z) (w : tid).  (* [w] has its token *)

#[export] Instance pc_eq_dec : EqDecision pc.
Proof. solve_decision. Defined.

(** [held]: the mutexes the thread owns; [guards]: those whose guard it has
    registered; [rcv]: the condition variable that has queued it, and the mutex
    it gave for it. *)
Record role := MkRole { held : list Z; guards : list Z; rpc : pc; rcv : option (Z * Z) }.

Definition at_pc (r : role) (p : pc) : role := MkRole (held r) (guards r) p (rcv r).

Section invariant.
(* which addresses are those of condition variables *)
Context (bucket_of : Z → nat) (cv : Z → bool).

Definition pc_hold (p : pc) : list nat :=
  match p with
  | Idle | Slow _ | Wait _ | Awake _ => []
  | SlowL a | SlowOk a | WaitL a | TimeL a | TimeQ a | TimeD a _ | TimeE a | AwakeL a
  | UnL a | UnN a | UnP a _ _ | UnS a _ | UnT a _ | UnE a
  | CvL a | CvOk a _ | CvTimeL a | CvTimeK a | CvTimeQ a | CvTimeD _ a _ | CvAwakeL _ a => [bucket_of a]
  | NtF b => [b]
  | NtL c a | NtV c a | NtR c a | NtZ c a | NtZR c a | NtQ c a _ _ | NtP c a _ | NtT c a _ =>
      [bucket_of c; bucket_of a]
  end.

Definition pc_wait (p : pc) : bool :=
  match p with WaitL _ | Wait _ | TimeL _ | TimeQ _ => true | _ => false end.

Definition pc_cust (p : pc) : list tid :=
  match p with
  | UnP _ w _ | UnS _ w | UnT _ w | NtP _ _ w | NtT _ _ w => [w]
  | NtQ _ _ w _ => option_list w
  | _ => []
  end.

(** Where a thread may be that a condition variable has queued. *)
Definition pc_cv (p : pc) : bool :=
  match p with
  | Idle | CvL _ | CvTimeL _ | CvTimeK _ | CvTimeQ _
  | UnL _ | UnN _ | UnP _ _ _ | UnS _ _ | UnT _ _ | UnE _ => true
  | _ => false
  end.

#[export] Instance role_lot : LotRole role := {
  r_hold r := pc_hold (rpc r);
  r_wait r := pc_wait (rpc r) || bool_decide (is_Some (rcv r));
  r_cust r := pc_cust (rpc r);
}.

Implicit Types (s : state) (g : Z → option tid) (ρ : tid → role) (a c : Z) (t u w : tid).

Definition waiter s a u : Prop := u ∈ bqueue s (bucket_of a) ∧ td_key (td s u) = a.
Definition no_waiter s a : Prop := ∀ u, ¬ waiter s a u.

(** If [u] has the token of a handoff, it owns [a]. *)
Definition claims s g a u : Prop := td_unpark_token (td s u) = TOKEN_HANDOFF → g a = Some u.

(** What holds of thread [t], which owns the mutexes [h]. *)
Definition pc_ok s g t (h : list Z) (p : pc) : Prop :=
  match p with
  | Idle | Slow _ | SlowL _ | TimeE _ | UnE _ | CvL _ | CvTimeL _ | NtF _ | NtL _ _ => True
  | SlowOk a => mem s a = 3
  | WaitL a | TimeQ a => cv a = false ∧ td_key (td s t) = a ∧ td_parked (td s t) = true
  | Wait a | TimeL a =>
      cv a = false ∧ td_key (td s t) = a ∧ (td_parked (td s t) = false → claims s g a t)
  | AwakeL a | Awake a | CvAwakeL a _ => claims s g a t
  | TimeD a last | CvTimeD _ a last => last = true → no_waiter s a
  | UnL a => a ∈ h
  | UnN a => a ∈ h ∧ no_waiter s a
  | UnP a w more => a ∈ h ∧ td_key (td s w) = a ∧ (more = false → no_waiter s a)
  | UnS a w => td_key (td s w) = a
  | UnT a w => cv a = false ∧ td_key (td s w) = a ∧ claims s g a w
  | CvOk c a | NtV c a => cv c = true ∧ mem s c = a
  | CvTimeK k => td_key (td s t) = k
  | CvTimeQ k => td_key (td s t) = k ∧ td_parked (td s t) = true
  | NtR c a => cv c = true ∧ mem s c = a ∧ mem s a = 3
  | NtZ c a => cv c = true ∧ mem s c = 0
  | NtZR c a => cv c = true ∧ mem s c = 0 ∧ mem s a = 3
  | NtQ c a w more => (∀ x, w = Some x → td_key (td s x) = c) ∧ (more = false → no_waiter s c)
  | NtP c a w => td_key (td s w) = c
  | NtT c a w => td_key (td s w) = c ∧ td_unpark_token (td s w) ≠ TOKEN_HANDOFF
  end.

(** Condition variable [c] has queued the thread, which gave mutex [a]. *)
Definition cv_ok s g t (r : role) : Prop :=
  match rcv r with
  | None => True
  | Some (c, a) =>
      cv c = true ∧ cv a = false ∧ a ≠ 0 ∧ pc_cv (rpc r) = true ∧
      (td_key (td s t) = c ∨ td_key (td s t) = a) ∧
      (td_parked (td s t) = false → td_unpark_token (td s t) = TOKEN_HANDOFF →
       g a = Some t ∧ a ∉ held r)
  end.

Definition thread_ok s g t (r : role) : Prop :=
  guards r ⊆ held r ∧ (∀ a, a ∈ held r → g a = Some t) ∧ pc_ok s g t (held r) (rpc r) ∧
  cv_ok s g t r.

(** What holds of the role of a thread in custody. *)
Definition cust_ok (p : pc) (r : role) : Prop :=
  match p with
  | UnS a _ | UnT a _ => a ∉ held r
  | NtP _ a _ => ∃ c, rcv r = Some (c, a)
  | _ => True
  end.

(** Thread [u] waits, and will look at the state of [a] once it is out of the
    queues. *)
Definition goes a (r : role) : Prop := rpc r = Wait a ∨ rpc r = TimeL a ∨ ∃ c, rcv r = Some (c, a).

(** Thread [u] has been woken for [a], or never went to sleep, and will look
    at the state again. *)
Definition coming s a u (r : role) : Prop :=
  match rpc r with
  | Slow a' | SlowL a' | AwakeL a' | Awake a' | CvAwakeL a' _ => a' = a
  | _ => False
  end ∨ (goes a r ∧ ∀ b, u ∉ bqueue s b).

(** The word of [c] has been cleared, but its queue has not. *)
Definition cleared (p : pc) c a : Prop := p = NtZ c a ∨ p = NtZR c a.

(** Only finitely many buckets are locked. *)
Definition few_locked s : Prop := ∃ n, ∀ b u, bmutex s b = Some u → (b < n)%nat.

Record MInv s g ρ : Prop := {
  mi_lot : LotInv bucket_of (bmutex s) (bqueue s) (td s) ρ;
  mi_word a : cv a = false → 0 ≤ mem s a ≤ 3;
  mi_cond c : cv c = true → g c = None ∧ (mem s c = 0 ∨ cv (mem s c) = false);
  mi_locked a : cv a = false → has_bits (mem s a) LOCKED_BIT = true ↔ is_Some (g a);
  mi_parked a u : waiter s a u → cv a = false →
    has_bits (mem s a) PARKED_BIT = true ∨ ∃ t c w, rpc (ρ t) = NtP c a w;
  mi_thread t : thread_ok s g t (ρ t);
  mi_cust t w : w ∈ pc_cust (rpc (ρ t)) → cust_ok (rpc (ρ t)) (ρ w);
  mi_wake a u : waiter s a u → cv a = false → g a = None → ∃ v, coming s a v (ρ v);
  mi_cvq c u a : waiter s c u → rcv (ρ u) = Some (c, a) →
    mem s c = a ∨ ∃ t, cleared (rpc (ρ t)) c a;
  mi_live a t gd : (t, gd) ∈ live s a ↔ gd = GExclusive ∧ a ∈ guards (ρ t);
  mi_live_nodup a : NoDup (live s a);
  mi_few : few_locked s;
}.

(** ** Framing *)

(** What others may do to the data of a thread [u] that is parked: give it a
    token, move it to the queue of the mutex, and unpark it. *)
Definition td_step g (d d' : ThreadData) u (r : role) : Prop :=
  d' = d ∨
  (r_wait r = true ∧ td_parked d = true ∧ bucket_of (td_key d) ∉ pc_hold (rpc r) ∧
   (td_key d' = td_key d ∨ rcv r = Some (td_key d, td_key d')) ∧
   (td_parked d' = false → td_unpark_token d' = TOKEN_HANDOFF →
    cv (td_key d') = false ∧ g (td_key d') = Some u ∧ td_key d' ∉ held r)).

Lemma waits_cases s g t r :
  cv_ok s g t r → r_wait r = true →
  (∃ a, rpc r = WaitL a ∨ rpc r = Wait a ∨ rpc r = TimeL a ∨ rpc r = TimeQ a) ∨
  (∃ c a, rcv r = Some (c, a) ∧ pc_cv (rpc r) = true).
Proof.
  unfold cv_ok. cbn. intros Hc Hw. destruct (pc_wait (rpc r)) eqn:E.
  - left. destruct (rpc r); try done; eexists; naive_solver.
  - right. apply bool_decide_eq_true in Hw as [[c a] Hrc]. rewrite Hrc in *. exists c, a. tauto.
Qed.

Lemma thread_frame s g s' g' u r :
  thread_ok s g u r →
  (∀ a v, bucket_of a ∈ pc_hold (rpc r) → v = 3 ∨ cv a = true → mem s a = v → mem s' a = v) →
  (∀ a, bucket_of a ∈ pc_hold (rpc r) → no_waiter s a → no_waiter s' a) →
  td_step g' (td s u) (td s' u) u r → (∀ w, w ∈ pc_cust (rpc r) → td s' w = td s w) →
  (∀ a, g a = Some u → g' a = Some u) →
  (∀ w a, rpc r = UnT a w → g a = Some w → g' a = Some w) →
  thread_ok s' g' u r.
Proof.
  intros (Hg & Hh & Hp & Hc) F1 F2 F3 F4 F5 F6. split; [done|]. split; [auto|].
  assert (Hpc : rpc r = Idle ∨ rpc r ≠ Idle) by (destruct (rpc r); auto).
  assert (F4' : ∀ w, [w] = pc_cust (rpc r) → td s' w = td s w) by (intros w E; apply F4; rewrite <- E; set_solver).
  split.
  - destruct F3 as [F3|(Hw & Hpk & Hb & Hk & Hcl)].
    + destruct (rpc r) eqn:E; cbn in *; unfold claims in *; rewrite ?F3;
        try rewrite (F4' w) by done; destruct_and?; split_and?;
        try done; auto;
        try (by apply F1; [set_solver|auto|]); try (by intros; apply F2; [set_solver|auto]);
        try (by intros; eapply F6; eauto).
      intros x ->. rewrite F4 by set_solver. auto.
    + destruct (waits_cases _ _ _ _ Hc Hw) as [(a & [E|[E|[E|E]]])|(c & a & Erc & E)].
      1,3,4: rewrite E in Hp, Hb; cbn in Hp, Hb; destruct_and? Hp; subst a; set_solver.
      * rewrite E in Hp |- *. cbn in Hp |- *. destruct Hp as (Ha & <- & Hp).
        destruct Hk as [Hk|Hk].
        -- rewrite Hk in *. split; [done|]. split; [done|]. intros H1 H2. naive_solver.
        -- unfold cv_ok in Hc. rewrite Hk in Hc. destruct Hc. congruence.
      * destruct (rpc r) eqn:E'; cbn in *; unfold claims in *; try done;
          try rewrite (F4' w) by done; destruct_and?; split_and?;
          try done; auto; try (by intros; apply F2; [set_solver|auto]); try (by intros; eapply F6; eauto);
          subst k; set_solver.
  - destruct F3 as [F3|(Hw & Hpk & Hb & Hk & Hcl)]; unfold cv_ok in *; destruct (rcv r) as [[c a]|]; try done;
      destruct Hc as (H1 & H2 & H3 & H4 & H5 & H6); split_and!; try done.
    + by rewrite F3.
    + rewrite F3. intros P1 P2. destruct (H6 P1 P2). auto.
    + destruct Hk as [->|[= E1 E2]]; auto.
    + intros P1 P2. destruct (Hcl P1 P2) as (G1 & G2 & G3).
      destruct Hk as [Hk|[= E1 E2]]; [|by subst a].
      rewrite Hk in G1, G2, G3. destruct H5 as [H5|H5]; [congruence|]. by rewrite H5 in G2, G3.
Qed.

(** The word [v]: the four states. *)
Lemma word_cases v : 0 ≤ v ≤ 3 → v = 0 ∨ v = 1 ∨ v = 2 ∨ v = 3.
Proof. lia. Qed.

Lemma held_mutex s g ρ t a : MInv s g ρ → a ∈ held (ρ t) → cv a = false.
Proof.
  intros HI Ha. destruct (cv a) eqn:E; [|done].
  destruct (mi_thread _ _ _ HI t) as (_ & Hh & _). apply Hh in Ha.
  destruct (mi_cond _ _ _ HI a E). congruence.
Qed.

(** A thread that waits: for a mutex, or for a condition variable, which may
    have moved it to the queue of the mutex. *)
Lemma wait_key s g ρ u :
  MInv s g ρ → r_wait (ρ u) = true →
  (cv (td_key (td s u)) = false ∧
    (rpc (ρ u) = Wait (td_key (td s u)) ∨ bucket_of (td_key (td s u)) ∈ pc_hold (rpc (ρ u)))) ∨
  ∃ c a, rcv (ρ u) = Some (c, a) ∧ cv c = true ∧ cv a = false ∧ (td_key (td s u) = c ∨ td_key (td s u) = a).
Proof.
  intros HI Hw. destruct (mi_thread _ _ _ HI u) as (_ & _ & Hp & Hc).
  destruct (waits_cases _ _ _ _ Hc Hw) as [(a & [E|[E|[E|E]]])|(c & a & E & _)].
  1,2,3,4: left; rewrite E in Hp |- *; cbn in *; destruct Hp as (H1 & <- & _); split; [done|]; set_solver.
  right. unfold cv_ok in Hc. rewrite E in Hc. exists c, a. tauto.
Qed.

(** Custody: the thread is asleep in [park], or on its way to it. *)
Lemma cust_wait s g ρ t w :
  MInv s g ρ → w ∈ pc_cust (rpc (ρ t)) →
  r_wait (ρ w) = true ∧ td_parked (td s w) = true ∧ (∀ b, w ∉ bqueue s b) ∧
  bucket_of (td_key (td s w)) ∈ pc_hold (rpc (ρ t)) ∧
  (w ≠ t → bucket_of (td_key (td s w)) ∉ pc_hold (rpc (ρ w))).
Proof.
  intros HI Hw. pose proof (mi_lot _ _ _ HI) as HL.
  destruct (li_cust _ _ _ _ _ HL t w Hw) as (Hwait & Hpk & Hq & Hh).
  split; [done|]. split; [done|]. split; [|split; [done|]].
  - intros b Hb. apply Hq. by destruct (li_queue _ _ _ _ _ HL b w Hb) as (_ & -> & _).
  - intros Hne Hin. by destruct (Hne (lot_hold_unique bucket_of _ _ _ _ _ _ _ HL Hin Hh)).
Qed.

(** A thread in custody is on its way to the mutex. *)
Lemma cust_coming s g ρ t w :
  MInv s g ρ → w ∈ pc_cust (rpc (ρ t)) → cv (td_key (td s w)) = false →
  coming s (td_key (td s w)) w (ρ w).
Proof.
  intros HI Hw Hcv.
  assert (Hne : pc_wait (rpc (ρ t)) = false) by (destruct (rpc (ρ t)); try done; set_solver). destruct (cust_wait _ _ _ _ _ HI Hw) as (Hwait & _ & Hq & Hh & Hno).
  right. split; [|done]. destruct (wait_key _ _ _ _ HI Hwait) as [[_ [E|Hin]]|(c & a & E & Hc & Ha & [Ek|Ek])].
  - by left.
  - destruct (decide (w = t)) as [->|]; [|by apply Hno in Hin].
    cbn in Hwait. rewrite Hne in Hwait. apply bool_decide_eq_true in Hwait as [[c a] E].
    destruct (mi_thread _ _ _ HI t) as (_ & _ & _ & Hc). unfold cv_ok in Hc. rewrite E in Hc.
    destruct Hc as (? & ? & _ & _ & [Ek|Ek] & _); [congruence|]. right; right. rewrite Ek. eauto.
  - congruence.
  - right; right. rewrite Ek. eauto.
Qed.

Lemma queued_key s g ρ b u :
  MInv s g ρ → u ∈ bqueue s b → waiter s (td_key (td s u)) u.
Proof.
  intros HI Hu. destruct (li_queue _ _ _ _ _ (mi_lot _ _ _ HI) b u Hu) as (_ & Hb & _).
  split; [by rewrite Hb|done].
Qed.

(** The threads in the queue of a condition variable. *)
Lemma cv_waiter s g ρ c u :
  MInv s g ρ → waiter s c u → cv c = true → ∃ a, rcv (ρ u) = Some (c, a) ∧ cv a = false ∧ a ≠ 0.
Proof.
  intros HI [Hq Hk] Hc. destruct (li_queue _ _ _ _ _ (mi_lot _ _ _ HI) _ u Hq) as (Hw & _ & _).
  destruct (wait_key _ _ _ _ HI Hw) as [[E _]|(c' & a & E & Hc' & Ha & Hor)]; [congruence|].
  destruct (mi_thread _ _ _ HI u) as (_ & _ & _ & Hok). unfold cv_ok in Hok. rewrite E in Hok.
  destruct Hok as (_ & _ & H0 & _). exists a. destruct Hor; [|congruence]. split; [congruence|done].
Qed.

(** ** The actions *)

Lemma coming_shrink s s' a u r :
  (∀ b, u ∉ bqueue s b → u ∉ bqueue s' b) → coming s a u r → coming s' a u r.
Proof. intros Hq [?|[? Hn]]; [by left|right]. split; [done|]. intros b. apply Hq, Hn. Qed.

Lemma waiter_shrink s s' a u :
  (∀ b, bqueue s' b ⊆ bqueue s b) → td s' = td s → waiter s' a u → waiter s a u.
Proof. intros Hq Hd [Hu Hk]. rewrite Hd in Hk. split; [by apply Hq|done]. Qed.

(** A thread that is queued is not coming. *)
Lemma coming_not_queued s g ρ a u b : MInv s g ρ → coming s a u (ρ u) → u ∉ bqueue s b.
Proof.
  intros HI [Hc|[_ Hn]] Hq; [|by apply (Hn b)].
  destruct (li_queue _ _ _ _ _ (mi_lot _ _ _ HI) _ u Hq) as (Hw & _ & _).
  destruct (mi_thread _ _ _ HI u) as (_ & _ & _ & Hok).
  destruct (waits_cases _ _ _ _ Hok Hw) as [(x & [E|[E|[E|E]]])|(c & x & _ & E)].
  1,2,3,4: by rewrite E in Hc.
  by destruct (rpc (ρ u)).
Qed.

(** The new role of [t] keeps what the invariant says of two threads. *)
Definition keeps s' ρ t r : Prop :=
  guards r = guards (ρ t) ∧
  ((rcv r = rcv (ρ t) ∧ held r ⊆ held (ρ t)) ∨ r_wait r = false) ∧
  (∀ w, w ∈ pc_cust (rpc r) → cust_ok (rpc r) ((<[t := r]> ρ : tid → role) w)) ∧
  (∀ c a w, rpc (ρ t) = NtP c a w → rpc r = NtP c a w ∨ has_bits (mem s' a) PARKED_BIT = true) ∧
  (∀ c a, cleared (rpc (ρ t)) c a → cleared (rpc r) c a ∨ no_waiter s' c).

(** What it keeps, with the new invariant of the parking lot. *)
Lemma keeps_cust s g ρ t r s' u w :
  MInv s g ρ → LotInv bucket_of (bmutex s') (bqueue s') (td s') (<[t := r]> ρ) → keeps s' ρ t r →
  let ρ' := <[t := r]> ρ in w ∈ pc_cust (rpc (ρ' u)) → cust_ok (rpc (ρ' u)) (ρ' w).
Proof.
  intros HI HL (_ & Hr & Hc & _) ρ'. subst ρ'. destruct (decide (t = u)) as [<-|Hu]; fn_simp; [apply Hc|].
  intros Hw. pose proof (mi_cust _ _ _ HI u w Hw) as Hok. destruct (decide (t = w)) as [<-|Hne]; fn_simp; [|done].
  destruct Hr as [[E Hh]|E].
  - destruct (rpc (ρ u)); cbn in *; try done; [set_solver..|by rewrite E].
  - destruct (li_cust _ _ _ _ _ HL u t) as (Hwt & _); [by fn_simp|]. fn_simp. congruence.
Qed.

Lemma keeps_cvq s g ρ t r s' c u a :
  MInv s g ρ → LotInv bucket_of (bmutex s') (bqueue s') (td s') (<[t := r]> ρ) → keeps s' ρ t r →
  (waiter s' c u → waiter s c u) → (mem s' c = mem s c) →
  let ρ' := <[t := r]> ρ in waiter s' c u → rcv (ρ' u) = Some (c, a) →
  mem s' c = a ∨ ∃ t, cleared (rpc (ρ' t)) c a.
Proof.
  intros HI HL (_ & Hr & _ & _ & Hcl) Hw Em ρ' Hu E. subst ρ'.
  assert (E' : rcv (ρ u) = Some (c, a)).
  { destruct (decide (t = u)) as [<-|]; fn_simp; [|done]. destruct Hr as [[<- _]|Hr]; [done|].
    destruct Hu as [Hu _]. apply (li_queue _ _ _ _ _ HL) in Hu as (Hwt & _). fn_simp. congruence. }
  destruct (mi_cvq _ _ _ HI c u a (Hw Hu) E') as [?|[v Hv]]; [left; congruence|].
  destruct (decide (t = v)) as [<-|Hne]; [|right; exists v; by fn_simp].
  destruct (Hcl _ _ Hv) as [?|Hn]; [right; exists t; by fn_simp|]. by apply Hn in Hu.
Qed.

Lemma keeps_parked s g ρ t r s' a :
  MInv s g ρ → keeps s' ρ t r → (∃ v c w, rpc (ρ v) = NtP c a w) →
  let ρ' := <[t := r]> ρ in
  has_bits (mem s' a) PARKED_BIT = true ∨ ∃ v c w, rpc (ρ' v) = NtP c a w.
Proof.
  intros HI (_ & _ & _ & Hp & _) (v & c & w & E) ρ'. subst ρ'.
  destruct (decide (t = v)) as [<-|]; [|right; exists v, c, w; by fn_simp].
  destruct (Hp _ _ _ E) as [?|?]; [right; exists t, c, w; by fn_simp|by left].
Qed.

(** Roles that these conditions do not concern. *)
Definition plain_from (p : pc) : bool :=
  match p with NtZ _ _ | NtZR _ _ | NtP _ _ _ => false | _ => true end.
Definition plain_to (p : pc) : bool :=
  match p with UnS _ _ | UnT _ _ | NtP _ _ _ => false | _ => true end.

Lemma keeps_plain s' ρ t r :
  plain_from (rpc (ρ t)) = true → plain_to (rpc r) = true → guards r = guards (ρ t) →
  (rcv r = rcv (ρ t) ∧ held r ⊆ held (ρ t)) ∨ r_wait r = false → keeps s' ρ t r.
Proof.
  intros H1 H2 H3 H4. split; [done|]. split; [done|]. split; [|split].
  - intros w _. by destruct (rpc r).
  - intros c a w E. by rewrite E in H1.
  - intros c a [E|E]; by rewrite E in H1.
Qed.

Lemma keeps_same s g s' ρ t : MInv s g ρ → keeps s' ρ t (ρ t).
Proof.
  intros HI. split; [done|]. split; [by left|]. split; [|split].
  - intros w Hw. rewrite fn_insert_case. case_decide; [subst w|]; by apply (mi_cust _ _ _ HI t).
  - intros c a w E. by left.
  - intros c a E. by left.
Qed.

(** The role changes; of the state, at most the bucket locks, and threads
    that leave the queues. *)
Lemma m_pc s g ρ t r s' :
  MInv s g ρ →
  mem s' = mem s → (∀ b, bqueue s' b ⊆ bqueue s b) → td s' = td s → live s' = live s →
  LotInv bucket_of (bmutex s') (bqueue s') (td s') (<[t := r]> ρ) → few_locked s' →
  keeps s' ρ t r → thread_ok s' g t r →
  (∀ a, g a = None → coming s a t (ρ t) → coming s a t r) →
  MInv s' g (<[t := r]> ρ).
Proof.
  intros HI Em Hq Ed El HL Hf Hr Ht Hc. pose proof HI as [_ H2 H3 H4 H5 H6 H7 H8 H9 H10 H11 _].
  pose proof (λ a u, waiter_shrink s s' a u Hq Ed) as Hw. split.
  - done.
  - intros a. rewrite Em. apply H2.
  - intros c. rewrite Em. apply H3.
  - intros a. rewrite Em. apply H4.
  - intros a u Hu Ha. destruct (H5 a u (Hw _ _ Hu) Ha) as [?|?]; [left; by rewrite Em|].
    by eapply keeps_parked.
  - intros u. fn_cases t u; [done|]. eapply thread_frame; [apply (H6 u)|..].
    + by rewrite Em.
    + intros a _ Hn x Hx. apply (Hn x). auto.
    + left. by rewrite Ed.
    + intros w _. by rewrite Ed.
    + done.
    + done.
  - intros u w. by eapply keeps_cust.
  - intros a u Hu Ha Hn. destruct (H8 a u (Hw _ _ Hu) Ha Hn) as [v Hv]. exists v.
    apply (coming_shrink s); [intros b Hb Hb'; by apply Hb, Hq|]. fn_cases t v; [by apply Hc|done].
  - intros c u a Hu. eapply keeps_cvq; eauto. by rewrite Em.
  - intros a u gd. rewrite El, H10. fn_cases t u; [|done]. by rewrite (proj1 Hr).
  - intros a. by rewrite El.
  - done.
Qed.

(** The word of one mutex changes, and perhaps its owner. *)
Lemma m_mem s g ρ t r a v o :
  MInv s g ρ → cv a = false →
  r_hold r = r_hold (ρ t) → r_wait r = r_wait (ρ t) → r_cust r = r_cust (ρ t) →
  0 ≤ v ≤ 3 → (has_bits v LOCKED_BIT = true ↔ is_Some o) →
  (has_bits v PARKED_BIT = true ∨ has_bits (mem s a) PARKED_BIT = false ∨ no_waiter s a) →
  (a ∈ held (ρ t) ∨ g a = None ∨ o = g a) →
  (mem s a = 3 → v = 3 ∨ bucket_of a ∈ pc_hold (rpc (ρ t))) →
  keeps (set_mem a v s) ρ t r → thread_ok (set_mem a v s) (<[a := o]> g) t r →
  (∀ a', (<[a := o]> g : Z → option tid) a' = None → coming s a' t (ρ t) → coming s a' t r) →
  (o = None → ∀ u, waiter s a u → g a = None ∨ ∃ v, coming s a v ((<[t := r]> ρ : tid → role) v)) →
  MInv (set_mem a v s) (<[a := o]> g) (<[t := r]> ρ).
Proof.
  intros HI Ha Eh Ew Ec Hv Hl Hp Ho H3 Hr Ht Hc Hw.
  pose proof HI as [I1 I2 I3 I4 I5 I6 I7 I8 I9 I10 I11 I12].
  assert (HL : LotInv bucket_of (bmutex s) (bqueue s) (td s) (<[t := r]> ρ)) by (by apply lot_role).
  assert (Hown : a ∈ held (ρ t) → g a = Some t).
  { intros Hin. destruct (I6 t) as (_ & Hh & _). auto. }
  split; cbn [mem bmutex bqueue td live set_mem].
  - done.
  - intros a'. fn_cases a a'; [done|apply I2].
  - intros c Hcv. assert (a ≠ c) by congruence. fn_simp. by apply I3.
  - intros a'. fn_cases a a'; [done|apply I4].
  - intros a' u Hu Ha'. destruct (I5 a' u Hu Ha') as [Hpk|Hex].
    + fn_cases a a'; [|by left]. destruct Hp as [?|[?|Hn]]; [by left|congruence|]. by apply Hn in Hu.
    + pose proof (keeps_parked s g ρ t r (set_mem a v s) a' HI Hr Hex) as HK. cbn [mem set_mem] in HK. exact HK.
  - intros u. fn_cases t u; [done|]. eapply thread_frame; [apply (I6 u)|..]; cbn; try done.
    + intros a' x Hh Hx <-. fn_cases a a'; [|done]. destruct Hx as [Hm|?]; [|congruence].
      destruct (H3 Hm) as [?|Hh']; [congruence|].
      by pose proof (lot_hold_unique bucket_of _ _ _ _ _ _ _ I1 Hh Hh').
    + by left.
    + intros a' Hg. fn_cases a a'; [|done]. destruct Ho as [?|[|]]; [|congruence..].
      rewrite Hown in Hg by done. congruence.
    + intros w a' E Hg. fn_cases a a'; [|done]. destruct Ho as [Hin|[|]]; [|congruence..].
      rewrite Hown in Hg by done. assert (w = t) as -> by congruence.
      pose proof (I7 u t) as Hcu. rewrite E in Hcu. cbn in Hcu. exfalso. apply Hcu; [set_solver|done].
  - intros u w. by eapply (keeps_cust _ _ _ _ _ (set_mem a v s)).
  - intros a' u Hu Ha' Hn.
    destruct (decide (a = a')) as [<-|Hne]; fn_simp.
    + destruct (Hw Hn u Hu) as [Hga|Hx]; [|done].
      destruct (I8 a u Hu Ha' Hga) as [x Hx]. exists x. fn_cases t x; [apply Hc; [by fn_simp|done]|done].
    + destruct (I8 a' u Hu Ha' Hn) as [x Hx]. exists x. fn_cases t x; [apply Hc; [by fn_simp|done]|done].
  - intros c u a' Hu. destruct (decide (cv c = true)) as [Hcv|Hcv].
    + assert (a ≠ c) by congruence.
      apply (keeps_cvq s g ρ t r (set_mem a v s) c u a' HI); [done|done|done| |done]. cbn. by fn_simp.
    + intros E. exfalso. apply Hcv. fn_cases t u.
      * destruct Ht as (_ & _ & _ & Hok). unfold cv_ok in Hok. rewrite E in Hok. apply Hok.
      * destruct (I6 u) as (_ & _ & _ & Hok). unfold cv_ok in Hok. rewrite E in Hok. apply Hok.
  - intros a' u gd. rewrite I10. fn_cases t u; [|done]. by rewrite (proj1 Hr).
  - done.
  - done.
Qed.

(** Threads moved to the queue of a mutex that is not marked yet: one more is
    about to be woken for it. *)
Lemma unmarked_coming s g ρ t c a w :
  MInv s g ρ → rpc (ρ t) = NtP c a w → coming s a w (ρ w).
Proof.
  intros HI E. assert (Hw : w ∈ pc_cust (rpc (ρ t))) by (rewrite E; set_solver).
  destruct (cust_wait _ _ _ _ _ HI Hw) as (_ & _ & Hq & _). right. split; [|done].
  pose proof (mi_cust _ _ _ HI t w Hw) as Hok. rewrite E in Hok. right; right. exact Hok.
Qed.

(** The word of one condition variable changes, with its bucket locked. *)
Lemma m_cond s g ρ t r c v :
  MInv s g ρ → cv c = true → bucket_of c ∈ pc_hold (rpc (ρ t)) →
  r_hold r = r_hold (ρ t) → r_wait r = r_wait (ρ t) → r_cust r = r_cust (ρ t) →
  (v = 0 ∨ cv v = false) → keeps (set_mem c v s) ρ t r → thread_ok (set_mem c v s) g t r →
  (∀ a, g a = None → coming s a t (ρ t) → coming s a t r) →
  (∀ u a, waiter s c u → rcv (ρ u) = Some (c, a) → v = a ∨ cleared (rpc r) c a) →
  MInv (set_mem c v s) g (<[t := r]> ρ).
Proof.
  intros HI Hc Hb Eh Ew Ec Hv Hr Ht Hco Hq.
  pose proof HI as [I1 I2 I3 I4 I5 I6 I7 I8 I9 I10 I11 I12].
  assert (HL : LotInv bucket_of (bmutex s) (bqueue s) (td s) (<[t := r]> ρ)) by (by apply lot_role).
  split; cbn [mem bmutex bqueue td live set_mem].
  - done.
  - intros a Ha. assert (c ≠ a) by congruence. fn_simp. by apply I2.
  - intros c' Hc'. split; [by apply I3|]. fn_cases c c'; [done|]. by apply I3.
  - intros a Ha. assert (c ≠ a) by congruence. fn_simp. by apply I4.
  - intros a u Hu Ha. assert (c ≠ a) by congruence. fn_simp. destruct (I5 a u Hu Ha) as [?|Hex]; [by left|].
    pose proof (keeps_parked s g ρ t r (set_mem c v s) a HI Hr Hex) as HK. cbn in HK. by fn_simp.
  - intros u. fn_cases t u; [done|]. eapply thread_frame; [apply (I6 u)|..]; cbn; try done.
    + intros a x Hh _ <-. fn_cases c a; [|done].
      by pose proof (lot_hold_unique bucket_of _ _ _ _ _ _ _ I1 Hh Hb).
    + by left.
  - intros u w. by eapply (keeps_cust _ _ _ _ _ (set_mem c v s)).
  - intros a u Hu Ha Hn. destruct (I8 a u Hu Ha Hn) as [x Hx]. exists x. by fn_cases t x; [apply Hco|].
  - intros c' u a Hu E. destruct (decide (c = c')) as [<-|Hne].
    + assert (E' : rcv (ρ u) = Some (c, a)).
      { fn_cases t u; [|done]. destruct Hr as (_ & [[<- _]|Hr] & _); [done|].
        destruct Hu as [Hu _]. apply (li_queue _ _ _ _ _ I1) in Hu as (Hwt & _). congruence. }
      fn_simp. destruct (Hq u a Hu E'); [by left|right; exists t; by fn_simp].
    + apply (keeps_cvq s g ρ t r (set_mem c v s) c' u a HI); [done|done|done| |done|done]. cbn. by fn_simp.
  - intros a u gd. rewrite I10. fn_cases t u; [|done]. by rewrite (proj1 Hr).
  - done.
  - done.
Qed.

(** [AEnqueue]: after [validate]. *)
Lemma m_enqueue s g ρ t r k dt :
  MInv s g ρ → r_wait (ρ t) = false → bucket_of k ∈ pc_hold (rpc (ρ t)) →
  td_key dt = k → td_parked dt = true → pc_cust (rpc (ρ t)) = [] →
  (∀ a, ¬ coming s a t (ρ t)) → plain_from (rpc (ρ t)) = true →
  r_hold r = r_hold (ρ t) → r_wait r = true → r_cust r = [] → guards r = guards (ρ t) →
  (cv k = false → mem s k = 3) → (∀ c a, rcv r = Some (c, a) → c = k ∧ mem s c = a) →
  let s' := set_bqueue (bucket_of k) (bqueue s (bucket_of k) ++ [t]) (set_td t dt s) in
  thread_ok s' g t r → MInv s' g (<[t := r]> ρ).
Proof.
  intros HI Hnw Hb Hk Hpk Hc0 Hnc Hpl Eh Ew Ec Eg Hm Hcv s' Ht.
  pose proof HI as [I1 I2 I3 I4 I5 I6 I7 I8 I9 I10 I11 I12].
  assert (Hold : ∀ a u, u ≠ t → waiter s' a u → waiter s a u).
  { intros a u Hne [Hq Hku]. cbn in Hq, Hku. fn_simp. split; [|done]. revert Hq.
    rewrite fn_insert_case. case_decide as E; [rewrite E; set_solver|done]. }
  assert (Hself : ∀ a, waiter s' a t → a = k).
  { intros a [_ Hka]. cbn in Hka. fn_simp. congruence. }
  assert (Hnot : ∀ u, t ∉ pc_cust (rpc (ρ u))).
  { intros u Hu. destruct (cust_wait _ _ _ _ _ HI Hu) as (E & _). congruence. }
  assert (Hlk : cv k = false → g k ≠ None).
  { intros E En. assert (Hs : is_Some (g k)) by (apply I4; [done|]; by rewrite (Hm E)).
    rewrite En in Hs. by destruct Hs. }
  split; cbn [mem bmutex bqueue td live set_bqueue set_td s']; try done.
  - apply lot_enqueue; try done. by rewrite Ec.
  - intros a u Hu Ha. destruct (decide (u = t)) as [->|Hne].
    + apply Hself in Hu as ->. left. by rewrite Hm.
    + destruct (I5 a u (Hold _ _ Hne Hu) Ha) as [?|(v & c & w & E)]; [by left|right; exists v, c, w].
      assert (t ≠ v) by (intros <-; by rewrite E in Hpl). by fn_simp.
  - intros u. fn_cases t u; [done|]. eapply thread_frame; [apply (I6 u)|..]; try done; cbn.
    + intros a Hh Hn x Hx. destruct (decide (x = t)) as [->|Hne].
      * apply Hself in Hx as ->. by pose proof (lot_hold_unique bucket_of _ _ _ _ _ _ _ I1 Hh Hb).
      * by apply (Hn x), Hold.
    + left. by fn_simp.
    + intros w Hw. assert (t ≠ w) by (intros ->; by apply (Hnot u)). by fn_simp.
  - intros u w. fn_cases t u; [cbn in Ec; rewrite Ec; set_solver|]. intros Hw.
    assert (t ≠ w) by (intros ->; by apply (Hnot u)). fn_simp. by apply I7.
  - intros a u Hu Ha Hn. destruct (decide (u = t)) as [->|Hne].
    { apply Hself in Hu as ->. by destruct (Hlk Ha). }
    destruct (I8 a u ltac:(by apply Hold) Ha Hn) as [v Hv]. exists v.
    assert (t ≠ v) as Htv by (intros <-; by apply Hnc in Hv). fn_simp.
    destruct Hv as [?|[? Hv]]; [by left|right]. split; [done|]. intros b. cbn.
    rewrite fn_insert_case. case_decide as E; [subst b; pose proof (Hv (bucket_of k)); set_solver|done].
  - intros c u a Hu E. destruct (decide (u = t)) as [->|Hne].
    + fn_simp. left. by apply Hcv in E as [_ ?].
    + fn_simp. destruct (I9 c u a (Hold _ _ Hne Hu) E) as [?|[v Hv]]; [by left|right; exists v].
      assert (t ≠ v) by (intros <-; destruct Hv as [E'|E']; by rewrite E' in Hpl). by fn_simp.
  - intros a u gd. rewrite I10. fn_cases t u; [by rewrite Eg|done].
Qed.

(** [ADequeue]: the thread was still queued. *)
Lemma m_dequeue s g ρ t r k :
  MInv s g ρ → t ∈ bqueue s (bucket_of k) → bucket_of k ∈ pc_hold (rpc (ρ t)) →
  r_hold r = r_hold (ρ t) → r_wait r = false → r_cust r = r_cust (ρ t) → guards r = guards (ρ t) →
  plain_from (rpc (ρ t)) = true → plain_to (rpc r) = true →
  let s' := set_bqueue (bucket_of k) (filter (λ u, u ≠ t) (bqueue s (bucket_of k))) s in
  thread_ok s' g t r → MInv s' g (<[t := r]> ρ).
Proof.
  intros HI Hq Hb Eh Ew Ec Eg Hp1 Hp2 s' Ht. apply (m_pc s); try done; cbn.
  - intros b. fn_cases (bucket_of k) b; [apply filter_sub|done].
  - apply lot_dequeue; [apply HI|done..].
  - apply HI.
  - apply keeps_plain; auto.
  - intros a _ Hco. by destruct (coming_not_queued s g ρ a t (bucket_of k) HI Hco).
Qed.

(** The threads left in a queue say whether some are left for the key. *)
Lemma waiting_no_waiter s k l :
  (∀ u, waiter s k u → u ∈ l) → Spec.waiting (key_of s) k l = false → no_waiter s k.
Proof.
  intros Hl Hn u Hu. apply Spec.waiting_false in Hn. rewrite Forall_forall in Hn.
  apply (Hn u); [by apply Hl|]. apply Hu.
Qed.

(** [AUnparkOne]: a thread was found. *)
Lemma m_pop s g ρ t r a w l f :
  MInv s g ρ → ρ t = r → rpc r = UnL a →
  Spec.pop_first (key_of s) a (bqueue s (bucket_of a)) = Some (w, l) →
  MInv (set_bfair (bucket_of a) f (set_bqueue (bucket_of a) l s)) g
    (<[t := at_pc r (UnP a w (Spec.waiting (key_of s) a l))]> ρ).
Proof.
  intros HI Hr Hpc Hpop. destruct (mi_thread _ _ _ HI t) as (Hgd & Hhd & Hown & Hcv).
  rewrite Hr in Hgd, Hhd, Hown, Hcv. rewrite Hpc in Hown.
  destruct (Spec.pop_first_Some _ _ _ _ _ Hpop) as (pre & suf & El & -> & Hk & _).
  pose proof (li_nodup _ _ _ _ _ (mi_lot _ _ _ HI) (bucket_of a)) as Hnd.
  assert (Hw : w ∉ pre ++ suf).
  { by destruct (Spec.pop_first_sub _ _ _ _ _ Hnd Hpop) as (_ & _ & ?). }
  apply (m_pc s); try done; cbn.
  - intros b. fn_cases (bucket_of a) b; [rewrite El; set_solver|done].
  - apply (lot_take _ _ _ _ _ _ _ [w]); cbn; rewrite ?Hr, ?Hpc; try done; [apply HI|set_solver| | |].
    + rewrite El in Hnd. apply NoDup_app in Hnd as (? & ? & [? ?]%NoDup_cons).
      apply NoDup_app. set_solver.
    + intros u. rewrite El. set_solver.
    + set_solver.
  - apply HI.
  - apply keeps_plain; rewrite ?Hr, ?Hpc; try done. by left.
  - split; [done|]. split; [done|]. split.
    + cbn. split; [done|]. split; [done|]. intros Hm. apply waiting_no_waiter with (pre ++ suf); [|done].
      intros u [Hu _]. cbn in Hu. by fn_simp.
    + unfold cv_ok in *. cbn. destruct (rcv r) as [[c x]|]; [|done]. by rewrite Hpc in Hcv.
  - intros a' _. unfold coming, goes. rewrite Hr, Hpc. intros [[]|[[|[|]] ?]]; [done..|]. right. cbn. auto.
Qed.

(** [ASetToken]: the new owner, if any, is the thread to wake. *)
Lemma m_set_token s g ρ t r w tok :
  MInv s g ρ → w ∈ pc_cust (rpc (ρ t)) →
  r_hold r = r_hold (ρ t) → r_wait r = r_wait (ρ t) → r_cust r = r_cust (ρ t) →
  (tok = TOKEN_HANDOFF → td_key (td s w) ∈ held (ρ t)) → (∀ a, coming s a t (ρ t) → coming s a t r) →
  let d := td s w in
  let s' := set_td w (MkTD (td_key d) tok (td_park_token d) (td_timed d) (td_parked d)) s in
  let g' := if decide (tok = TOKEN_HANDOFF) then <[td_key d := Some w]> g else g in
  keeps s' ρ t r → thread_ok s' g' t r → MInv s' g' (<[t := r]> ρ).
Proof.
  intros HI Hw Eh Ew Ec Hown Hnc d s' g' Hr Ht.
  pose proof HI as [I1 I2 I3 I4 I5 I6 I7 I8 I9 I10 I11 I12].
  destruct (cust_wait _ _ _ _ _ HI Hw) as (Hwait & Hpk & Hq & Hh & Hno).
  assert (Hgs : ∀ x, g' x = g x ∨
    (x = td_key d ∧ g x = Some t ∧ g' x = Some w ∧ cv x = false)).
  { intros x. unfold g'. case_decide as Etok; [|by left]. specialize (Hown Etok).
    fn_cases (td_key d) x; [right|by left]. destruct (I6 t) as (_ & Hheld & _).
    split; [done|]. split; [by apply Hheld|]. split; [done|]. by eapply held_mutex. }
  assert (HL : LotInv bucket_of (bmutex s') (bqueue s') (td s') (<[t := r]> ρ)).
  { apply lot_data; [|done|done]. by apply lot_role. }
  assert (Hwa : ∀ x u, waiter s' x u → waiter s x u).
  { intros x u [Hu Hku]. split; [done|]. cbn in Hku. revert Hku. by fn_cases w u. }
  assert (Hone : ∀ u, u ≠ t → w ∉ pc_cust (rpc (ρ u))).
  { intros u Hne Hx. destruct (li_cust _ _ _ _ _ I1 u w Hx) as (_ & _ & _ & Hhu).
    by pose proof (lot_hold_unique bucket_of _ _ _ _ _ _ _ I1 Hhu Hh). }
  split; cbn [mem bmutex bqueue td live set_td s']; try done.
  - intros c Hc. split; [|by apply I3]. destruct (Hgs c) as [->|(_ & _ & _ & ?)]; [by apply I3|congruence].
  - intros x Hx. rewrite I4 by done. destruct (Hgs x) as [->|(-> & -> & -> & _)]; [done|].
    split; by eexists.
  - intros x u Hu Hx. destruct (I5 x u (Hwa _ _ Hu) Hx) as [?|Hex]; [by left|].
    pose proof (keeps_parked s g ρ t r s' x HI Hr Hex) as HK. exact HK.
  - intros u. fn_cases t u; [done|]. eapply thread_frame; [apply (I6 u)|..]; try done; cbn.
    + intros x _ Hn y Hy. apply (Hn y). by apply Hwa.
    + fn_cases w u; [|by left]. right. cbn. split; [done|]. split; [done|]. split; [by apply Hno|].
      split; [by left|]. unfold d. congruence.
    + intros x Hx. assert (w ≠ x) by (intros <-; by apply (Hone u)). by fn_simp.
    + intros x Hx. destruct (Hgs x) as [->|(-> & Hgt & _)]; [done|]. congruence.
    + intros y x E Hx. destruct (Hgs x) as [->|(-> & Hgt & _)]; [done|].
      assert (Hbu : bucket_of (td_key d) ∈ pc_hold (rpc (ρ u))) by (rewrite E; set_solver).
      by pose proof (lot_hold_unique bucket_of _ _ _ _ _ _ _ I1 Hbu Hh).
  - intros u x. by eapply keeps_cust.
  - intros x u Hu Hx Hn.
    assert (Hgx : g x = None) by (destruct (Hgs x) as [<-|(_ & _ & Hs & _)]; congruence).
    destruct (I8 x u (Hwa _ _ Hu) Hx Hgx) as [v Hv]. exists v.
    fn_cases t v; [by apply Hnc|done].
  - intros c u x Hu. eapply (keeps_cvq s g ρ t r s'); eauto.
  - intros x u gd. rewrite I10. fn_cases t u; [|done]. by rewrite (proj1 Hr).
Qed.

(** [AUnparkLock]: the thread can go. *)
Lemma m_unpark_lock s g ρ t r w :
  MInv s g ρ → pc_cust (rpc (ρ t)) = [w] →
  r_hold r = r_hold (ρ t) → r_wait r = r_wait (ρ t) → r_cust r = [] →
  (td_unpark_token (td s w) = TOKEN_HANDOFF →
   cv (td_key (td s w)) = false ∧ g (td_key (td s w)) = Some w ∧ td_key (td s w) ∉ held (ρ w)) →
  (∀ a, coming s a t (ρ t) → coming s a t r) →
  let d := td s w in
  let s' := set_td w (MkTD (td_key d) (td_unpark_token d) (td_park_token d) (td_timed d) false) s in
  keeps s' ρ t r → thread_ok s' g t r → MInv s' g (<[t := r]> ρ).
Proof.
  intros HI Hw1 Eh Ew Ec Htok Hnc d s' Hr Ht.
  assert (Hw : w ∈ pc_cust (rpc (ρ t))) by (rewrite Hw1; set_solver).
  pose proof HI as [I1 I2 I3 I4 I5 I6 I7 I8 I9 I10 I11 I12].
  destruct (cust_wait _ _ _ _ _ HI Hw) as (Hwait & Hpk & Hq & Hh & Hno).
  assert (HL : LotInv bucket_of (bmutex s') (bqueue s') (td s') (<[t := r]> ρ)).
  { eapply lot_wake; try done. intros u. rewrite Ec. cbn. rewrite Hw1. set_solver. }
  assert (Hwa : ∀ x u, waiter s' x u → waiter s x u).
  { intros x u [Hu Hku]. split; [done|]. cbn in Hku. revert Hku. by fn_cases w u. }
  assert (Hone : ∀ u, u ≠ t → w ∉ pc_cust (rpc (ρ u))).
  { intros u Hne Hx. destruct (li_cust _ _ _ _ _ I1 u w Hx) as (_ & _ & _ & Hhu).
    by pose proof (lot_hold_unique bucket_of _ _ _ _ _ _ _ I1 Hhu Hh). }
  split; cbn [mem bmutex bqueue td live set_td s']; try done.
  - intros x u Hu Hx. destruct (I5 x u (Hwa _ _ Hu) Hx) as [?|Hex]; [by left|].
    pose proof (keeps_parked s g ρ t r s' x HI Hr Hex) as HK. exact HK.
  - intros u. fn_cases t u; [done|]. eapply thread_frame; [apply (I6 u)|..]; try done; cbn.
    + intros x _ Hn y Hy. apply (Hn y). by apply Hwa.
    + fn_cases w u; [|by left]. right. cbn. split; [done|]. split; [done|]. split; [by apply Hno|].
      split; [by left|done].
    + intros x Hx. assert (w ≠ x) by (intros <-; by apply (Hone u)). by fn_simp.
  - intros u x. by eapply keeps_cust.
  - intros x u Hu Hx Hn. destruct (I8 x u (Hwa _ _ Hu) Hx Hn) as [v Hv]. exists v.
    fn_cases t v; [by apply Hnc|done].
  - intros c u x Hu. eapply (keeps_cvq s g ρ t r s'); eauto.
  - intros x u gd. rewrite I10. fn_cases t u; [|done]. by rewrite (proj1 Hr).
Qed.

(** Guards: only they change. *)
Lemma m_guards s g ρ t a l' gs :
  MInv s g ρ → rpc (ρ t) = Idle → rcv (ρ t) = None → gs ⊆ held (ρ t) → NoDup l' →
  (∀ u gd, (u, gd) ∈ l' ↔ gd = GExclusive ∧ a ∈ (if decide (u = t) then gs else guards (ρ u))) →
  (∀ x, x ≠ a → x ∈ gs ↔ x ∈ guards (ρ t)) →
  MInv (set_live a l' s) g (<[t := MkRole (held (ρ t)) gs Idle None]> ρ).
Proof.
  intros HI Hpc Hcv Hgs Hnd Hl Hoth. pose proof HI as [I1 I2 I3 I4 I5 I6 I7 I8 I9 I10 I11 I12].
  set (r' := MkRole (held (ρ t)) gs Idle None).
  assert (Hpc' : ∀ u, rpc ((<[t := r']> ρ : tid → role) u) = rpc (ρ u)).
  { intros u. fn_cases t u; [|done]. by rewrite Hpc. }
  assert (Hcv' : ∀ u, rcv ((<[t := r']> ρ : tid → role) u) = rcv (ρ u)).
  { intros u. fn_cases t u; [|done]. by rewrite Hcv. }
  split; cbn [mem bmutex bqueue td live set_live]; try done.
  - apply lot_role; [done|..]; cbn; by rewrite Hpc, ?Hcv.
  - intros x u Hu Hx. setoid_rewrite Hpc'. by apply (I5 x u).
  - intros u. destruct (decide (t = u)) as [<-|]; fn_simp; [|apply (I6 u)]. destruct (I6 t) as (_ & T2 & _).  by split.
  - intros u w. rewrite Hpc'. intros Hw. pose proof (I7 u w Hw) as Hok.
    destruct (decide (t = w)) as [<-|]; fn_simp; [|done].
    destruct (cust_wait _ _ _ _ _ HI Hw) as (E & _). cbn in E. by rewrite Hpc, Hcv in E.
  - intros x u Hu Hx Hn. destruct (I8 x u Hu Hx Hn) as [v Hv]. exists v.
    revert Hv. unfold coming, goes. by rewrite Hpc', Hcv'.
  - intros c u x Hu E. setoid_rewrite Hpc'. rewrite Hcv' in E. by apply (I9 c u x).
  - intros x u gd. fn_cases a x.
    + rewrite Hl. destruct (decide (u = t)) as [->|]; by fn_simp.
    + rewrite I10. destruct (decide (u = t)) as [->|]; fn_simp; [|done]. cbn [guards r']. rewrite (Hoth x) by done. done.
  - intros x. by fn_cases a x.
Qed.

Lemma m_enter s g ρ t r a :
  MInv s g ρ → ρ t = r → rpc r = Idle → rcv r = None → a ∈ held r → a ∉ guards r →
  MInv (set_live a ((t, GExclusive) :: live s a) s) g
    (<[t := MkRole (held r) (a :: guards r) Idle None]> ρ).
Proof.
  intros HI <- Hpc Hcv Ha Hg. pose proof (mi_live _ _ _ HI) as Hl.
  destruct (mi_thread _ _ _ HI t) as (T1 & _).
  apply m_guards; try done; [set_solver| | |set_solver].
  - constructor; [|apply HI]. by intros [_ Hu]%Hl.
  - intros u gd. rewrite elem_of_cons, Hl. case_decide as E; [subst u; set_solver|]. naive_solver.
Qed.

Lemma m_exit s g ρ t r a l' :
  MInv s g ρ → ρ t = r → rpc r = Idle → rcv r = None → NoDup l' →
  (∀ u gd, (u, gd) ∈ l' ↔ (u, gd) ≠ (t, GExclusive) ∧ (u, gd) ∈ live s a) →
  MInv (set_live a l' s) g
    (<[t := MkRole (held r) (filter (λ x, x ≠ a) (guards r)) Idle None]> ρ).
Proof.
  intros HI <- Hpc Hcv Hnd Hl. destruct (mi_thread _ _ _ HI t) as (T1 & _).
  apply m_guards; try done.
  - intros x [_ Hx]%list_elem_of_filter. auto.
  - intros u gd. rewrite Hl, (mi_live _ _ _ HI). case_decide as E; [subst u|naive_solver].
    rewrite list_elem_of_filter. naive_solver.
  - intros x Hx. rewrite list_elem_of_filter. naive_solver.
Qed.

(** [ARequeue]: all the threads queued on [c] have given mutex [a]. *)
Section requeue.
Context s g ρ t c a (op : RequeueOp) (wk : option tid) (m rest : list tid) (more : bool) s' (p : pc).
Context (HI : MInv s g ρ) (Hc : cv c = true) (Ha : cv a = false).
Context (Hh : pc_hold (rpc (ρ t)) = [bucket_of c; bucket_of a]) (Hnw : r_wait (ρ t) = false).
Context (Hc0 : pc_cust (rpc (ρ t)) = []) (Hcm : ∀ u x, waiter s c u → rcv (ρ u) = Some (c, x) → x = a).
Context (Hsp : Spec.unpark_requeue (key_of s) op c (bqueue s (bucket_of c)) = (wk, m, rest, more)).
Context (Em : mem s' = mem s) (Eb : bmutex s' = bmutex s).
Context (Eq : bqueue s' = moved_queues (bucket_of c) (bucket_of a) rest m (bqueue s)).
Context (El : live s' = live s).
Context (Ed : ∀ u, td s' u = if decide (u ∈ m) then with_key a (td s u) else td s u).
Context (Hp : p = NtQ c a wk more ∨ ∃ w, wk = Some w ∧ p = NtP c a w).
Context (Hmark : mem s a = 3 ∨ m = [] ∨ ∃ w, p = NtP c a w).
Context (Hcl : ∀ c' x, cleared (rpc (ρ t)) c' x → c' = c ∧ more = false).
Context (Hnp : ∀ c x w, rpc (ρ t) ≠ NtP c x w) (Hnc : ∀ a', ¬ coming s a' t (ρ t)).

Abbreviation r := (at_pc (ρ t) p).

Lemma rq_perm : bqueue s (bucket_of c) ≡ₚ option_list wk ++ m ++ rest.
Proof using All. apply (Spec.requeue_perm _ _ _ _ _ _ _ _ Hsp). Qed.

Lemma rq_hold_c : bucket_of c ∈ pc_hold (rpc (ρ t)).
Proof using All. rewrite Hh. set_solver. Qed.
Lemma rq_hold_a : bucket_of a ∈ pc_hold (rpc (ρ t)).
Proof using All. rewrite Hh. set_solver. Qed.

Lemma rq_left u : u ∈ option_list wk ++ m → waiter s c u.
Proof using All.
  intros Hu. split.
  - rewrite rq_perm, app_assoc. set_solver.
  - destruct (Spec.requeue_perm _ _ _ _ _ _ _ _ Hsp) as (_ & Hk & _). by apply Hk.
Qed.

Lemma rq_cv u : u ∈ option_list wk ++ m → rcv (ρ u) = Some (c, a).
Proof using All.
  intros Hu%rq_left. destruct (cv_waiter _ _ _ _ _ HI Hu Hc) as (x & E & _). by rewrite <- (Hcm u x Hu E).
Qed.

Lemma rq_nodup : NoDup (option_list wk ++ m ++ rest).
Proof using All. rewrite <- rq_perm. apply (li_nodup _ _ _ _ _ (mi_lot _ _ _ HI)). Qed.

Lemma rq_woken w : wk = Some w → w ∉ m ∧ td s' w = td s w ∧ (∀ b, w ∉ bqueue s' b).
Proof using All.
  intros Ew. pose proof rq_nodup as Hnd. rewrite Ew in Hnd. cbn in Hnd. apply NoDup_cons in Hnd as [Hn _].
  assert (Hm : w ∉ m) by set_solver. split; [done|]. split; [by rewrite Ed, decide_False|].
  assert (Hl : waiter s c w) by (apply rq_left; rewrite Ew; cbn; set_solver).
  intros b. rewrite Eq, elem_of_moved. intros [Hb|[_ ?]]; [|done].
  case_decide as E; [set_solver|]. apply E.
  apply (lot_queue_unique bucket_of _ _ _ _ _ _ w (mi_lot _ _ _ HI)); [done|apply Hl].
Qed.

(** The threads in the queues after it. *)
Lemma rq_waiter x u :
  waiter s' x u → (u ∈ m ∧ x = a) ∨ (u ∉ m ∧ waiter s x u ∧ (x = c → u ∈ rest)).
Proof using All.
  intros [Hq Hk]. rewrite Ed in Hk. rewrite Eq in Hq. apply elem_of_moved in Hq.
  destruct (decide (u ∈ m)) as [Hm|Hm]; [by left|right]. split; [done|].
  destruct Hq as [Hq|[_ ?]]; [|done]. destruct (decide (bucket_of x = bucket_of c)) as [E|E].
  - split; [|done]. split; [|done]. rewrite E, rq_perm. set_solver.
  - split; [by split|]. by intros ->.
Qed.

Lemma rq_no_waiter : more = false → no_waiter s' c.
Proof using All.
  intros Hm u [[_ E]|(_ & [_ Hk] & Hr)]%rq_waiter; [congruence|].
  destruct (Spec.requeue_perm _ _ _ _ _ _ _ _ Hsp) as (_ & _ & Hf & _).
  specialize (Hf Hm). rewrite Forall_forall in Hf. by apply (Hf u (Hr eq_refl)).
Qed.

Lemma rq_lot : LotInv bucket_of (bmutex s') (bqueue s') (td s') (<[t := r]> ρ).
Proof using All.
  rewrite Eb, Eq. eapply lot_requeue; [apply HI|apply rq_hold_c|apply rq_hold_a|done|apply rq_perm|done|..]; cbn.
  - rewrite Hh. by destruct Hp as [-> |(w & _ & ->)].
  - by destruct Hp as [-> |(w & _ & ->)]; destruct (rpc (ρ t)).
  - by destruct Hp as [-> |(w & -> & ->)].
Qed.

Lemma rq_thread u : u ≠ t → thread_ok s' g u (ρ u).
Proof using All.
  intros Hu. pose proof (mi_lot _ _ _ HI) as HL.
  eapply thread_frame; [apply (mi_thread _ _ _ HI u)|..]; try done.
  - by rewrite Em.
  - intros x Hx Hn y [[_ ->]|(_ & Hy & _)]%rq_waiter; [|by apply Hn in Hy].
    by pose proof (lot_hold_unique bucket_of _ _ _ _ _ _ _ HL Hx rq_hold_a).
  - rewrite Ed. destruct (decide (u ∈ m)) as [Hm|]; [|by left]. right.
    assert (Hin : u ∈ option_list wk ++ m) by set_solver.
    pose proof (rq_left u Hin) as [Hq Hk]. destruct (li_queue _ _ _ _ _ HL _ _ Hq) as (H1 & _ & H3).
    split; [done|]. split; [done|]. cbn. rewrite Hk. split; [|split; [|by rewrite H3]].
    + intros Hb. by pose proof (lot_hold_unique bucket_of _ _ _ _ _ _ _ HL Hb rq_hold_c).
    + right. by apply rq_cv.
  - intros w Hw. rewrite Ed, decide_False; [done|]. intros Hm.
    destruct (cust_wait _ _ _ _ _ HI Hw) as (_ & _ & Hq & _). apply (Hq (bucket_of c)).
    apply rq_left. set_solver.
Qed.

Lemma rq_marked w : p = NtP c a w → wk = Some w.
Proof using All. intros E. destruct Hp as [E'|(x & Ex & E')]; congruence. Qed.

Lemma m_requeue : MInv s' g (<[t := r]> ρ).
Proof using All.
  pose proof HI as [I1 I2 I3 I4 I5 I6 I7 I8 I9 I10 I11 I12].
  assert (Hpt : ∀ u x, rpc ((<[t := r]> ρ : tid → role) u) = x → u = t ∧ p = x ∨ u ≠ t ∧ rpc (ρ u) = x).
  { intros u x. fn_cases t u; auto. }
  assert (Hrc : ∀ u, rcv ((<[t := r]> ρ : tid → role) u) = rcv (ρ u)) by (intros u; by fn_cases t u).
  assert (Hco : ∀ x v, coming s x v (ρ v) → coming s' x v ((<[t := r]> ρ : tid → role) v)).
  { intros x v Hv. assert (t ≠ v) by (intros <-; by apply Hnc in Hv). fn_simp.
    apply (coming_shrink s); [|done]. intros b _ Hb.
    pose proof (λ b, coming_not_queued s g ρ x v b HI Hv) as Hno. rewrite Eq in Hb. apply elem_of_moved in Hb.
    assert (Hr : ∀ l, v ∈ l → l ⊆ option_list wk ++ m ++ rest → False).
    { intros l Hl Hs. apply (Hno (bucket_of c)). rewrite rq_perm. by apply Hs. }
    destruct Hb as [Hb|[_ Hb]]; [case_decide|]; [by apply (Hr rest); [|set_solver]|by apply (Hno b)|].
    by apply (Hr m); [|set_solver]. }
  split.
  - apply rq_lot.
  - by rewrite Em.
  - by rewrite Em.
  - by rewrite Em.
  - rewrite Em. intros x u [[Hu ->]|(_ & Hu & _)]%rq_waiter Hx.
    + destruct Hmark as [->|[->|[w E]]]; [by left|set_solver|right]. exists t, c, w. fn_simp. done.
    + destruct (I5 x u Hu Hx) as [?|(v & c' & w & E)]; [by left|right]. exists v, c', w.
      assert (t ≠ v) by (intros <-; by apply Hnp in E). by fn_simp.
  - intros u. destruct (decide (t = u)) as [<-|]; fn_simp; [|by apply rq_thread].
    destruct (I6 t) as (T1 & T2 & _ & T4). split; [done|]. split; [done|]. split.
    + cbn. destruct Hp as [E|(w & Ew & E)]; rewrite E; cbn.
      * split; [|apply rq_no_waiter]. intros x Ex. destruct (rq_woken x Ex) as (_ & -> & _).
        apply rq_left. rewrite Ex. cbn. set_solver.
      * destruct (rq_woken w Ew) as (_ & -> & _). apply rq_left. rewrite Ew. cbn. set_solver.
    + unfold cv_ok. cbn. destruct (rcv (ρ t)) as [[c' x]|] eqn:E; [|done]. cbn in Hnw. rewrite E in Hnw.
      by destruct (pc_wait (rpc (ρ t))).
  - intros u w. destruct (decide (t = u)) as [<-|]; fn_simp.
    + cbn [rpc at_pc]. intros Hw. pose proof (Hrc w) as Hrw. revert Hrw.
      generalize ((<[t := at_pc (ρ t) p]> ρ : tid → role) w). intros R Hrw.
      destruct Hp as [E|(x & Ex & E)]; rewrite E in Hw |- *; [done|]. cbn in Hw |- *.
      apply list_elem_of_singleton in Hw. subst w. exists c. rewrite Hrw. apply rq_cv. rewrite Ex. cbn. set_solver.
    + intros Hw. pose proof (I7 u w Hw) as Hok. destruct (decide (t = w)) as [<-|]; fn_simp; [|done].
      destruct (cust_wait _ _ _ _ _ HI Hw). congruence.
  - intros x u [[Hu ->]|(_ & Hu & _)]%rq_waiter Hx Hn.
    + destruct Hmark as [E|[->|[w E]]]; [|set_solver|].
      { assert (Hs : is_Some (g a)) by (apply I4; [done|]; by rewrite E). rewrite Hn in Hs. by destruct Hs. }
      exists w. pose proof (rq_marked w E) as Ew. destruct (rq_woken w Ew) as (_ & _ & Hq). right. split; [|done].
      right; right. exists c. rewrite Hrc. apply rq_cv. rewrite Ew. cbn. set_solver.
    + destruct (I8 x u Hu Hx Hn) as [v Hv]. exists v. by apply Hco.
  - rewrite Em. intros c' u x Hu0 E. rewrite Hrc in E. destruct (rq_waiter _ _ Hu0) as [[Hu ->]|(_ & Hu & _)].
    + assert (E' : rcv (ρ u) = Some (c, a)) by (apply rq_cv; set_solver). congruence.
    + destruct (I9 c' u x Hu E) as [?|[v Hv]]; [by left|right]. exists v. destruct (decide (t = v)) as [<-|]; fn_simp; [|done].
      destruct (Hcl _ _ Hv) as [-> Hm]. by apply (rq_no_waiter Hm) in Hu0.
  - intros x u gd. rewrite El, I10. by fn_cases t u.
  - by rewrite El.
  - unfold few_locked. by rewrite Eb.
Qed.
End requeue.
End invariant.
