(* ===== verification/RawMutexProof.v ===== *)
(** * Correctness of RawMutex

    The operations of the mutex keep the invariant of [RawMutexInv], whatever
    the other threads do with mutexes and condition variables.  At the end, the
    theorems on threads that only use mutexes. *)

From S2P Require Import Prelude Conc LotTypes SpinWait FairTimeout BucketQueue ParkingLot LotInv RawMutex RawMutexInv.
Import RawMutex.
Local Open Scope Z_scope.

(** The action can always be taken. *)
Ltac always :=
  intros; left; exists 0; cbn; repeat case_match; by eexists.

(** The role while the bucket locks change. *)
Definition same_but_hold (r r' : role) : Prop :=
  pc_cust (rpc r') = pc_cust (rpc r) ∧ pc_wait (rpc r') = pc_wait (rpc r) ∧ rcv r' = rcv r ∧
  guards r' = guards r ∧ held r' ⊆ held r ∧ plain_from (rpc r) = true ∧ plain_to (rpc r') = true.

(** Side conditions on roles, in a known place of the code. *)
Ltac pc_side Hpc :=
  unfold same_but_hold, coming, goes; cbn; rewrite ?Hpc; cbn;
  first [done|split_and!; first [done|set_solver]|set_solver|naive_solver].

(** A thread that only waits for a condition variable is still coming. *)
Ltac stays_coming :=
  unfold coming, goes;
  repeat match goal with H : rpc ?r = _ |- context [rpc ?r] => rewrite H end;
  cbn; intros [[]|[[|[|?]] ?]]; [done..|]; right; auto.

Section proof.
(* the messages with which a thread may panic, and its role then *)
Context (bucket_of : Z → nat) (cv : Z → bool) (panic_ok : string → role → Prop).
Implicit Types (s : state) (g : Z → option tid) (ρ : tid → role) (a c : Z) (t u w : tid).

Abbreviation MInv := (MInv bucket_of cv).
Abbreviation thread_ok := (thread_ok bucket_of cv).
Abbreviation no_waiter := (no_waiter bucket_of).
Abbreviation pc_hold := (pc_hold bucket_of).
Abbreviation keeps := (keeps bucket_of).

(** ** Verified operations *)

(** A thread waits for a bucket lock while it holds none, or one with a smaller
    number; or for its turn. *)
Definition blocked (t : tid) (r : role) (s : state) : Prop :=
  (pc_hold (rpc r) = [] ∧ ∃ b u, bmutex s b = Some u) ∨
  (∃ b b' u, rpc r = NtF b ∧ (b < b')%nat ∧ bmutex s b' = Some u) ∨
  (td_parked (td s t) = true ∧
   ((∃ a, rpc r = Wait a) ∨ (rpc r = Idle ∧ is_Some (rcv r)))).

Abbreviation mwp := (wp exec MInv panic_ok blocked).

Definition acquired a (r : role) : role := MkRole (a :: held r) (guards r) Idle (rcv r).
Definition released a (r : role) : role :=
  MkRole (filter (λ x, x ≠ a) (held r)) (guards r) Idle (rcv r).

(** A thread that has been unqueued by the condition variables, if ever queued. *)
Lemma cv_ok_none s g t r : rcv r = None → cv_ok cv s g t r.
Proof. unfold cv_ok. by intros ->. Qed.

Lemma cv_ok_pc s g s' g' t r r' :
  cv_ok cv s g t r → rcv r' = rcv r → pc_cv (rpc r') = true ∨ rcv r = None → td s' t = td s t →
  held r' ⊆ held r → (∀ a, a ∉ held r → g a = Some t → g' a = Some t) → cv_ok cv s' g' t r'.
Proof.
  unfold cv_ok. intros H -> Hpc -> Hh Hg. destruct (rcv r) as [[c a]|]; [|done].
  destruct H as (? & ? & ? & ? & ? & Hcl). destruct Hpc as [?|]; [|done]. split_and!; try done.
  intros P1 P2. destruct (Hcl P1 P2). split; auto.
Qed.

Lemma m_pc_only s g ρ t r :
  MInv s g ρ →
  pc_hold (rpc r) = pc_hold (rpc (ρ t)) → pc_wait (rpc r) = pc_wait (rpc (ρ t)) →
  pc_cust (rpc r) = pc_cust (rpc (ρ t)) → rcv r = rcv (ρ t) → keeps s ρ t r → thread_ok s g t r →
  (∀ a, g a = None → coming s a t (ρ t) → coming s a t r) →
  MInv s g (<[t := r]> ρ).
Proof.
  intros HI ? E2 ? E4 ? ? ?. apply (m_pc _ _ s); try done; [|apply HI].
  apply lot_role; [apply HI|done| |done]. cbn. by rewrite E2, E4.
Qed.

Lemma m_same s g ρ t r : MInv s g ρ → ρ t = r → MInv s g (<[t := r]> ρ).
Proof. intros HI <-. apply m_pc_only; try done; [by eapply keeps_same|]. apply HI. Qed.

(** An action that leaves the state alone, in a role that stays. *)
Lemma wp_look {A} t (x : act) (k : resp x → iprog A) r Q :
  (∀ c s s' v, exec t c x s = Some (s', v) → s' = s) → (∀ s, is_Some (exec t 0 x s)) →
  (∀ s g ρ c v, MInv s g ρ → ρ t = r → exec t c x s = Some (s, v) → mwp t (k v) r Q) →
  mwp t (Act x k) r Q.
Proof.
  intros Hs Hen Hk. apply wp_act; [intros; left; exists 0; apply Hen|]. intros s g ρ c s' v Hr HI Hex. pose proof (Hs _ _ _ _ Hex) as ->.
  exists g, r. split; [by apply m_same|eauto].
Qed.

Lemma wp_load {A} t a (k : Z → iprog A) r Q :
  cv a = false → (∀ v, 0 ≤ v ≤ 3 → mwp t (k v) r Q) → mwp t (Act (ALoad a) k) r Q.
Proof.
  intros Ha Hk. apply wp_look; [by intros; simplify_eq/=|by eexists|].
  intros s g ρ c v HI Hr Hex. simplify_eq/=. apply Hk. by apply HI.
Qed.

Lemma same_keeps s ρ t r r' : ρ t = r → same_but_hold r r' → keeps s ρ t r'.
Proof. intros <- (_ & _ & H1 & H2 & H3 & H4 & H5). apply keeps_plain; try done. by left. Qed.

Lemma wp_bucket_unlock {A} t b (k : unit → iprog A) r r' Q :
  b ∈ pc_hold (rpc r) → (∀ b', b' ∈ pc_hold (rpc r') ↔ b' ∈ pc_hold (rpc r) ∧ b' ≠ b) →
  same_but_hold r r' → pc_cust (rpc r) = [] →
  (∀ s g, thread_ok s g t r → thread_ok s g t r') →
  (∀ s a, coming s a t r → coming s a t r') →
  mwp t (k tt) r' Q → mwp t (Act (ABucketUnlock b) k) r Q.
Proof.
  intros Hb Hh' Hsame Hc Hok Hco Hk. apply wp_act; [always|]. intros s g ρ c s' v Hr HI Hex.
  cbn in Hex. injection Hex as <- <-. exists g, r'. split; [|done].
  pose proof Hsame as (E1 & E2 & E3 & _). apply (m_pc _ _ s); try done; cbn.
  - apply lot_unlock; cbn; rewrite ?Hr, ?E2, ?E3, ?E1; try done. apply HI.
  - destruct (mi_few _ _ _ _ _ HI) as [n Hn]. exists n. intros b' u. cbn. fn_cases b b'; [done|apply Hn].
  - by eapply same_keeps.
  - apply (Hok s g). rewrite <- Hr. apply HI.
  - intros a _. rewrite Hr. apply Hco.
Qed.

Lemma wp_bucket_lock {A} t b (k : unit → iprog A) r r' Q :
  (∀ b', b' ∈ pc_hold (rpc r') ↔ b' = b ∨ b' ∈ pc_hold (rpc r)) → same_but_hold r r' →
  pc_hold (rpc r) = [] ∨ (∃ b0, rpc r = NtF b0 ∧ (b0 < b)%nat) →
  (∀ s g, thread_ok s g t r → thread_ok s g t r') →
  (∀ s a, coming s a t r → coming s a t r') →
  mwp t (k tt) r' Q → mwp t (Act (ABucketLock b) k) r Q.
Proof.
  intros Hh' Hsame Hord Hok Hco Hk. apply wp_act.
  { intros s g ρ _ _. destruct (bmutex s b) as [u|] eqn:E.
    - right. destruct Hord as [?|(b0 & ? & ?)]; [left; eauto|right; left; eauto 10].
    - left. exists 0. cbn. rewrite E. by eexists. }
  intros s g ρ c s' v Hr HI Hex. cbn in Hex.
  destruct (bmutex s b) eqn:Eb; [done|]. injection Hex as <- <-. exists g, r'. split; [|done].
  pose proof Hsame as (E1 & E2 & E3 & _). apply (m_pc _ _ s); try done; cbn.
  - apply lot_lock; cbn; rewrite ?Hr, ?E2, ?E3, ?E1; try done. apply HI.
  - destruct (mi_few _ _ _ _ _ HI) as [n Hn]. exists (n + S b)%nat. intros b' u. cbn.
    fn_cases b b'; [lia|]. intros Hu%Hn. lia.
  - by eapply same_keeps.
  - apply (Hok s g). rewrite <- Hr. apply HI.
  - intros a _. rewrite Hr. apply Hco.
Qed.

(** Reading the token on the way out of [park]: either the mutex has been
    handed to us, or we try again. *)
Lemma wp_token {A} t a (k : Z → iprog A) r Q :
  rpc r = Awake a → rcv r = None →
  (∀ tok, mwp t (k tok) (if tok =? TOKEN_HANDOFF then acquired a r else at_pc r (Slow a)) Q) →
  mwp t (Act AToken k) r Q.
Proof.
  intros Hpc Hcv Hk. apply wp_act; [always|]. intros s g ρ c s' v Hr HI Hex. cbn in Hex. injection Hex as <- <-.
  destruct (mi_thread _ _ _ _ _ HI t) as (T1 & T2 & T3 & _). rewrite Hr in T1, T2, T3.
  rewrite Hpc in T3. eexists g, _. split; [|apply Hk].
  destruct (Z.eqb_spec (td_unpark_token (td s t)) TOKEN_HANDOFF) as [E|E];
    apply m_pc_only; cbn; rewrite ?Hr, ?Hpc; try done.
  - apply keeps_plain; rewrite ?Hr, ?Hpc; try done. right. cbn. by rewrite Hcv.
  - split; [cbn; set_solver|]. split; [|split; [done|by apply cv_ok_none]].
    cbn. intros x [->|Hx]%elem_of_cons; auto.
  - intros x Hx. unfold coming, goes. rewrite Hpc, Hcv. intros [<-|[[|[|[]]] _]]; [|done..].
    rewrite (T3 E) in Hx. done.
  - apply keeps_plain; rewrite ?Hr, ?Hpc; try done. by left.
  - split; [done|]. split; [done|]. split; [done|by apply cv_ok_none].
  - intros x _. unfold coming, goes. rewrite Hpc, Hcv. cbn. rewrite Hcv. intros [<-|[[|[|[]]] _]]; by auto.
Qed.

(** [lock_bucket_checked]: the key does not change while we wait. *)
Lemma wp_lock_bucket_checked t a r Q :
  rpc r = Wait a → rcv r = None → Q (a, bucket_of a) (at_pc r (TimeL a)) →
  mwp t (lock_bucket_checked bucket_of) r Q.
Proof.
  intros Hpc Hcv HQ. apply (wp_iter _ _ _ _ _ (λ _ r', r' = r)); [done|].
  intros [] ? ->. unfold lock_bucket. wp_pure.
  apply (wp_look t AKey); [by intros; simplify_eq/=|by eexists|].
  intros s g ρ c v HI Hr Hex. cbn in Hex. injection Hex as <-.
  destruct (mi_thread _ _ _ _ _ HI t) as (_ & _ & T3 & _). rewrite Hr, Hpc in T3.
  destruct T3 as (_ & -> & _). clear s g ρ c HI Hr. wp_pure.
  apply (wp_bucket_lock _ _ _ _ (at_pc r (TimeL a))); try (pc_side Hpc).
  { intros s g (G1 & G2 & G3 & _). rewrite Hpc in G3. split_and!; try done. by apply cv_ok_none. }
  wp_pure. apply (wp_look t AKey); [by intros; simplify_eq/=|by eexists|].
  intros s g ρ c v HI Hr Hex. cbn in Hex. injection Hex as <-.
  destruct (mi_thread _ _ _ _ _ HI t) as (_ & _ & T3 & _). rewrite Hr in T3. destruct T3 as (_ & -> & _).
  wp_pure. rewrite Z.eqb_refl. wp_pure. exact HQ.
Qed.

(** The end of the wait, when the flag is found cleared. *)
Lemma m_leave s g ρ t r r' :
  MInv s g ρ → ρ t = r → td_parked (td s t) = false →
  pc_hold (rpc r') = pc_hold (rpc r) → pc_wait (rpc r') = false → rcv r' = None → pc_cust (rpc r) = [] → pc_cust (rpc r') = [] →
  guards r' = guards r → plain_from (rpc r) = true → plain_to (rpc r') = true →
  thread_ok s g t r' → (∀ a, g a = None → coming s a t r → coming s a t r') →
  MInv s g (<[t := r']> ρ).
Proof.
  intros HI <- Hp Eh Ew Ecv Ec Ec' Eg P1 P2 Ht Hco. apply (m_pc _ _ s); try done.
  - apply lot_leave; [apply HI|done..| |]; cbn; [by rewrite Ew, Ecv|congruence].
  - apply HI.
  - apply keeps_plain; try done. right. cbn. by rewrite Ew, Ecv.
Qed.

(** After the wait has expired: dequeue, or find that we were unparked. *)
Lemma wp_timed_out t a r Q :
  rpc r = TimeL a → rcv r = None →
  (∀ tok, Q (Unparked tok, tt)
            (if tok =? TOKEN_HANDOFF then acquired a r else at_pc r (Slow a))) →
  Q (TimedOut, tt) (at_pc r Idle) →
  mwp t (Bind (Act ATimedOut Ret) (λ to : bool,
           if negb to then
             Bind (unlock_bucket (bucket_of a)) (λ _,
             Bind (Act AToken Ret) (λ token, Ret (Unparked token, tt)))
           else
             Bind (Act (ADequeue (bucket_of a) a) Ret) (λ was_last_thread : option bool,
               match was_last_thread with
               | Some was_last_thread =>
                   Bind (timed_out a tt a was_last_thread) (λ e,
                   Bind (unlock_bucket (bucket_of a)) (λ _, Ret (TimedOut, e)))
               | None => Panic "debug_assert!(!current.is_null())"
               end)))%prog r Q.
Proof.
  intros Hpc Hcv HU HT. assert (HT' : mwp t (Ret (TimedOut, tt)) (at_pc r Idle) Q) by by wp_pure.
  wp_pure. apply wp_act; [always|]. intros s g ρ c s' v Hr HI Hex. cbn in Hex. injection Hex as <- <-.
  destruct (mi_thread _ _ _ _ _ HI t) as (T1 & T2 & T3 & _). rewrite Hr in T1, T2, T3.
  rewrite Hpc in T3. destruct T3 as (Ha & Hk & Hclaim).
  destruct (td_parked (td s t)) eqn:Hp; cbn [negb].
  - exists g, (at_pc r (TimeQ a)). split.
    { apply m_pc_only; cbn; rewrite ?Hr, ?Hpc; try done.
      - apply keeps_plain; rewrite ?Hr, ?Hpc; try done. by left.
      - split_and!; try done. by apply cv_ok_none.
      - intros x _ [Hx|[_ Hn]]; [by rewrite Hpc in Hx|]. exfalso. apply (Hn (bucket_of a)).
        rewrite <- Hk. apply (lot_in_queue bucket_of _ _ _ _ t (mi_lot _ _ _ _ _ HI)); cbn;
          rewrite ?Hr, ?Hpc, ?Hk; try done. set_solver. }
    clear s g ρ c Hr HI T1 T2 Hk Hclaim Hp.
    wp_pure. apply wp_act; [always|]. intros s g ρ c s' v Hr HI Hex. cbn in Hex.
    destruct (mi_thread _ _ _ _ _ HI t) as (T1 & T2 & T3 & _). rewrite Hr in T1, T2, T3. destruct T3 as (_ & Hk & Hp).
    assert (Hq : t ∈ bqueue s (bucket_of a)).
    { rewrite <- Hk. apply (lot_in_queue bucket_of _ _ _ _ t (mi_lot _ _ _ _ _ HI)); cbn;
        rewrite ?Hr, ?Hk; try done. set_solver. }
    unfold Spec.park_dequeue in Hex. rewrite decide_True in Hex by done.
    injection Hex as <- <-. set (l := filter _ _). set (last := negb _).
    eexists g, (at_pc r (TimeD a last)). split.
    { apply m_dequeue; rewrite ?Hr; try done; cbn; [set_solver|by rewrite Hcv|].
      split; [done|]. split; [done|]. split; [|by apply cv_ok_none].
      cbn. intros Hl%negb_true_iff. apply (waiting_no_waiter _ _ _ l); [|done].
      intros u [Hu _]. cbn in Hu. by fn_simp. }
    clearbody last. clear s g ρ c Hr HI Hk Hp Hq l T1 T2. wp_pure.
    assert (Hend : ∀ r', (rpc r' = TimeD a false ∨ rpc r' = TimeE a) → held r' = held r →
      guards r' = guards r → rcv r' = None →
      mwp t (unlock_bucket (bucket_of a)) r' (λ _ r', mwp t (Ret (TimedOut, tt)) r' Q)).
    { intros r' Hr' Eh Eg Ecv. unfold unlock_bucket.
      apply (wp_bucket_unlock _ _ _ _ (at_pc r Idle)); [| | | | | |exact HT'].
      - destruct Hr' as [-> | ->]; cbn; set_solver.
      - destruct Hr' as [-> | ->]; cbn; set_solver.
      - unfold same_but_hold. cbn. rewrite Eh, Eg, Ecv, Hcv. by destruct Hr' as [-> | ->].
      - by destruct Hr' as [-> | ->].
      - intros s g (G1 & G2 & _). rewrite Eh in G1, G2. rewrite Eg in G1. split_and!; try done. by apply cv_ok_none.
      - intros s x. unfold coming, goes. rewrite Ecv. by destruct Hr' as [-> | ->]; cbn; intros [[]|[[|[|[]]] _]]. }
    unfold timed_out, fetch_clear, rmw.
    destruct last; [wp_pure|by wp_pure; apply Hend; [left|..]]. apply wp_act; [always|]. intros s g ρ c s' v Hr HI Hex. cbn in Hex. injection Hex as <- <-.
    destruct (mi_thread _ _ _ _ _ HI t) as (T1 & T2 & T3 & _). rewrite Hr in T1, T2, T3.
    exists (<[a := g a]> g), (at_pc r (TimeE a)).
    split; [|by wp_pure; apply Hend; [right|..]].
    pose proof (mi_word _ _ _ _ _ HI a Ha) as Hw. pose proof (mi_locked _ _ _ _ _ HI a Ha) as Hl.
    apply m_mem; cbn; rewrite ?Hr; try done.
    + destruct (word_cases _ Hw) as [-> |[-> |[-> | ->]]]; cbn; lia.
    + rewrite <- Hl. destruct (word_cases _ Hw) as [-> |[-> |[-> | ->]]]; done.
    + right; right. by apply T3.
    + tauto.
    + intros _. right. cbn. set_solver.
    + apply keeps_plain; rewrite ?Hr; try done. by left.
    + split; [done|]. split; [|split; [done|by apply cv_ok_none]]. intros x Hx. rewrite fn_insert_id. by apply T2.
    + intros x _. unfold coming, goes. cbn. rewrite Hcv. by intros [[]|[[|[|[]]] _]].
    + intros _ u Hu. by apply T3 in Hu.
  - exists g, (at_pc r (AwakeL a)). split.
    { apply (m_leave _ _ _ _ r); try done; cbn; rewrite ?Hcv, ?Hpc; try done.
      - split_and!; try done; [by apply Hclaim|by apply cv_ok_none].
      - intros x _. unfold coming, goes. rewrite Hpc, Hcv. cbn. rewrite Hcv.
        intros [[]|[[|[|[]]] _]]; [done| |done]. left. congruence. }
    unfold unlock_bucket. wp_pure.
    apply (wp_bucket_unlock _ _ _ _ (at_pc r (Awake a))); [pc_side Hpc..| | |].
    + intros s' g' (G1 & G2 & G3 & _). split_and!; try done. by apply cv_ok_none.
    + pc_side Hpc.
    + wp_pure. apply (wp_token t a); [done|done|]. intros tok. wp_pure. apply HU.
Qed.

(** [park], as [lock_slow] calls it. *)
Lemma wp_park t a timeout r Q :
  cv a = false → rpc r = Slow a → rcv r = None →
  (∀ tok, Q (Unparked tok, tt)
            (if tok =? TOKEN_HANDOFF then acquired a r else at_pc r (Slow a))) →
  Q (Invalid, tt) r → (is_Some timeout → Q (TimedOut, tt) (at_pc r Idle)) →
  mwp t (park bucket_of a (validate a) (Ret tt) (timed_out a) DEFAULT_PARK_TOKEN timeout tt)
    r Q.
Proof.
  intros Ha Hpc Hcv HU HV HT. unfold park, lock_bucket. wp_pure.
  apply (wp_bucket_lock _ _ _ _ (at_pc r (SlowL a))); [pc_side Hpc..| | |].
  { intros s g (G1 & G2 & _). split_and!; try done. by apply cv_ok_none. }
  { pc_side Hpc. }
  unfold validate, load. wp_pure. apply wp_act; [always|].
  intros s g ρ c s' v Hr HI Hex. cbn in Hex. injection Hex as <- <-.
  destruct (mi_thread _ _ _ _ _ HI t) as (T1 & T2 & _). rewrite Hr in T1, T2.
  destruct (Z.eqb_spec (mem s a) (Z.lor LOCKED_BIT PARKED_BIT)) as [Ev|Ev]; cbn [negb].
  2:{ exists g, (at_pc r (SlowL a)). split; [by apply m_same|]. unfold unlock_bucket. wp_pure.
      destruct (Z.eqb_spec (mem s a) (Z.lor LOCKED_BIT PARKED_BIT)); [done|]. cbn [negb].
      wp_pure. apply (wp_bucket_unlock _ _ _ _ r); [pc_side Hpc..| | |by wp_pure].
      - intros s' g' (G1 & G2 & _). split_and!; try done; [by rewrite Hpc|by apply cv_ok_none].
      - pc_side Hpc. }
  exists g, (at_pc r (SlowOk a)). split.
  { apply m_pc_only; cbn; rewrite ?Hr; try done.
    - apply keeps_plain; rewrite ?Hr; try done. by left.
    - split_and!; try done. by apply cv_ok_none.
    - intros x Hx. unfold coming, goes. cbn. rewrite Hcv. intros [<-|[[|[|[]]] _]]; try done.
      assert (Hs : is_Some (g a)) by (apply (mi_locked _ _ _ _ _ HI); [done|]; by rewrite Ev).
      rewrite Hx in Hs. by destruct Hs. }
  wp_pure. rewrite Ev. cbn [Z.eqb negb]. rewrite Z.eqb_refl. cbn [negb].
  clear s g ρ c Hr HI T1 T2 Ev. apply wp_act; [always|].
  intros s g ρ c s' v Hr HI Hex. cbn in Hex. injection Hex as <- <-.
  destruct (mi_thread _ _ _ _ _ HI t) as (T1 & T2 & T3 & _). rewrite Hr in T1, T2, T3.
  eexists g, (at_pc r (WaitL a)). split.
  { apply m_enqueue; rewrite ?Hr; try done; cbn; rewrite ?Hcv; try done; [set_solver| |].
    - intros x. unfold coming, goes. cbn. rewrite Hcv. by intros [[]|[[|[|[]]] _]].
    - split_and!; try done; cbn; [by fn_simp|by apply cv_ok_none]. }
  clear s g ρ c Hr HI T1 T2 T3. unfold unlock_bucket. wp_pure.
  apply (wp_bucket_unlock _ _ _ _ (at_pc r (Wait a))); [pc_side Hpc..| | |].
  { intros s g (G1 & G2 & G3 & _). cbn in G3. destruct G3 as (_ & Hk & Hp). split; [done|].
    split; [done|]. split; [|by apply cv_ok_none]. cbn. split_and!; try done. congruence. }
  { intros s x. unfold coming, goes. cbn. rewrite Hcv. by intros [[]|[[|[|[]]] _]]. }
  wp_pure. apply wp_act.
  { intros s g ρ _ _. destruct (td_parked (td s t)) eqn:E; [right; right; right; eauto|].
    left. exists 0. cbn. rewrite E. by eexists. }
  intros s g ρ c s' v Hr HI Hex. cbn in Hex.
  destruct (mi_thread _ _ _ _ _ HI t) as (T1 & T2 & T3 & _). rewrite Hr in T1, T2, T3.
  cbn in T3. destruct T3 as (_ & Hk & Hcl).
  destruct (td_parked (td s t)) eqn:Hp; cbn [negb] in Hex.
  - destruct (deadline_passed timeout c) eqn:Hd; [|done]. injection Hex as <- <-.
    assert (Hto : is_Some timeout) by (destruct timeout; [by eexists|done]).
    exists g, (at_pc r (Wait a)). split; [by apply m_same|]. wp_pure.
    apply (wp_lock_bucket_checked _ a); [done|done|]. cbn beta iota zeta.
    apply wp_timed_out; [done|done|exact HU|by apply HT].
  - injection Hex as <- <-. exists g, (at_pc r (Awake a)). split.
    { apply (m_leave _ _ _ _ (at_pc r (Wait a))); try done.
      - split_and!; try done; [by apply Hcl|by apply cv_ok_none].
      - intros x _. unfold coming, goes. cbn. rewrite Hcv. intros [[]|[[|[|[]]] _]]; try done. left. congruence. }
    wp_pure. apply (wp_token _ a); [done|done|]. intros tok. wp_pure. apply HU.
Qed.

(** The role in which a thread may take a mutex. *)
Definition ready a (r : role) : Prop := (rpc r = Idle ∨ rpc r = Slow a) ∧ rcv r = None.
Definition idle (r : role) : Prop := rpc r = Idle ∧ rcv r = None.

Lemma idle_ready a r : idle r → ready a r.
Proof. intros []. split; auto. Qed.
Lemma slow_ready a r : rcv r = None → ready a (at_pc r (Slow a)).
Proof. split; auto. Qed.
#[local] Hint Resolve idle_ready slow_ready : core.

(** Compare-exchange from an unlocked state: the mutex is ours. *)
Lemma wp_cas_lock {A} t weak a v (k : bool * Z → iprog A) r Q :
  cv a = false → ready a r → 0 ≤ v ≤ 3 → has_bits v LOCKED_BIT = false →
  (a ∉ held r → mwp t (k (true, v)) (acquired a r) Q) →
  (∀ v', 0 ≤ v' ≤ 3 → mwp t (k (false, v')) r Q) →
  mwp t (Act (ACas weak a v (Z.lor v LOCKED_BIT)) k) r Q.
Proof.
  intros Ha [Hpc Hcv] Hv Hl Hok Hfail. apply wp_act; [always|]. intros s g ρ c s' x Hr HI Hex. cbn in Hex.
  pose proof (mi_word _ _ _ _ _ HI a Ha) as Hw.
  destruct (weak && negb (c =? 0)); [|destruct (Z.eqb_spec (mem s a) v) as [<-|]];
    injection Hex as <- <-.
  1,3: exists g, r; split; [by apply m_same|by apply Hfail].
  assert (Hg : g a = None).
  { destruct (g a) eqn:E; [|done]. assert (Hx : is_Some (g a)) by (by eexists).
    apply (mi_locked _ _ _ _ _ HI) in Hx; [congruence|done]. }
  destruct (mi_thread _ _ _ _ _ HI t) as (T1 & T2 & _). rewrite Hr in T1, T2.
  exists (<[a := Some t]> g), (acquired a r).
  split; [|apply Hok; intros Hin; apply T2 in Hin; congruence].
  apply m_mem; cbn; rewrite ?Hr, ?Hcv; try done; try (destruct Hpc as [-> | ->]; done).
  - destruct (word_cases _ Hw) as [-> |[-> |[-> | ->]]]; vm_compute; split; discriminate.
  - split; [by eexists|]. intros _. by destruct (word_cases _ Hw) as [-> |[-> |[-> | ->]]].
  - destruct (has_bits (mem s a) PARKED_BIT) eqn:E; [left|by right; left].
    destruct (word_cases _ Hw) as [E'|[E'|[E'|E']]]; rewrite E' in *; done.
  - auto.
  - intros E. rewrite E in Hl. done.
  - apply keeps_plain; rewrite ?Hr; try done; [by destruct Hpc as [-> | ->]|]. right. cbn. by rewrite Hcv.
  - split; [cbn; set_solver|]. split; [|split; [done|by apply cv_ok_none]]. cbn. intros y [->|Hy]%elem_of_cons; [by fn_simp|].
    fn_cases a y; [done|auto].
  - intros y Hy. unfold coming, goes. rewrite Hcv. cbn.
    destruct Hpc as [-> | ->]; (intros [Hx|[[|[|[]]] _]]; [|done..]); [done|]. subst y. by fn_simp.
Qed.

(** What a turn of the loop of [lock_slow] leaves. *)
Definition turn_post a r (Q : bool → role → Prop) (res : SpinWait.t * Z + bool) (r' : role)
    : Prop :=
  match res with
  | inl x => r' = at_pc r (Slow a) ∧ 0 ≤ x.2 ≤ 3
  | inr b => Q b r'
  end.

Lemma wp_retry t a sw r Q :
  cv a = false →
  mwp t (load a) (at_pc r (Slow a)) (λ state r', mwp t (Ret (inl (sw, state))) r' (turn_post a r Q)).
Proof. intros Ha. unfold load. apply wp_load; [done|]. intros v Hv. by wp_pure. Qed.

Lemma wp_lock_slow_park t a timeout sw state r Q :
  cv a = false → rcv r = None → 0 ≤ state ≤ 3 → has_bits state LOCKED_BIT = true →
  Q true (acquired a r) → (is_Some timeout → Q false (at_pc r Idle)) →
  mwp t (lock_slow_park bucket_of a timeout sw state) (at_pc r (Slow a)) (turn_post a r Q).
Proof.
  intros Ha Hcv Hst Hl HT HF. unfold lock_slow_park.
  assert (Hpark : mwp t (park bucket_of a (validate a) (Ret tt) (timed_out a)
               DEFAULT_PARK_TOKEN timeout tt) (at_pc r (Slow a)) (λ p r', mwp t
        (match p.1 with
        | Unparked token =>
            if token =? TOKEN_HANDOFF then Ret (inr true)
            else Bind (load a) (λ state, Ret (inl (SpinWait.reset sw, state)))
        | Invalid => Bind (load a) (λ state, Ret (inl (SpinWait.reset sw, state)))
        | TimedOut => Ret (inr false)
        end)%prog r' (turn_post a r Q))).
  { apply wp_park; [done..| | |]; cbn [fst].
    - intros tok. destruct (tok =? TOKEN_HANDOFF); wp_pure; [done|by apply (wp_retry t a _ r Q)].
    - wp_pure. by apply (wp_retry t a _ r Q).
    - intros Hto. wp_pure. by apply HF. }
  destruct (has_bits state PARKED_BIT) eqn:Hp; [by wp_pure|].
  unfold compare_exchange_weak. wp_pure. apply wp_act; [always|].
  intros s g ρ c s' x Hr HI Hex. cbn in Hex. pose proof (mi_word _ _ _ _ _ HI a Ha) as Hw.
  destruct (negb (c =? 0)); [|destruct (Z.eqb_spec (mem s a) state) as [<-|]];
    injection Hex as <- <-.
  1,3: exists g, (at_pc r (Slow a)); split; [by apply m_same|]; by wp_pure.
  destruct (mi_thread _ _ _ _ _ HI t) as (T1 & T2 & _). rewrite Hr in T1, T2.
  assert (E1 : mem s a = 1).
  { destruct (word_cases _ Hw) as [E|[E|[E|E]]]; rewrite E in Hl, Hp; done. }
  exists (<[a := g a]> g), (at_pc r (Slow a)). split; [|by wp_pure].
  rewrite E1. apply m_mem; cbn; rewrite ?Hr; try done.
  - rewrite <- (mi_locked _ _ _ _ _ HI a Ha). by rewrite E1.
  - by left.
  - auto.
  - intros _. by left.
  - apply keeps_plain; rewrite ?Hr; try done. by left.
  - split; [done|]. split; [|split; [done|by apply cv_ok_none]]. intros y Hy. rewrite fn_insert_id. auto.
  - intros Hn. by left.
Qed.

Lemma wp_lock_slow t a timeout r Q :
  cv a = false → ready a r → Q true (acquired a r) → (is_Some timeout → Q false (at_pc r Idle)) →
  mwp t (lock_slow bucket_of a timeout) r Q.
Proof.
  intros Ha [Hpc Hcv] HT HF. unfold lock_slow, load. wp_pure. apply wp_act; [always|].
  intros s g ρ c s' v Hr HI Hex. cbn in Hex. injection Hex as <- <-.
  exists g, (at_pc r (Slow a)). split.
  { destruct (mi_thread _ _ _ _ _ HI t) as (T1 & T2 & _). rewrite Hr in T1, T2.
    apply m_pc_only; cbn; rewrite ?Hr; try done; try (by destruct Hpc as [-> | ->]).
    - apply keeps_plain; rewrite ?Hr; try done; [by destruct Hpc as [-> | ->]|by left].
    - split_and!; try done. by apply cv_ok_none.
    - intros x _. unfold coming, goes. cbn. rewrite Hcv.
      destruct Hpc as [-> | ->]; intros [Hx|[[|[|[]]] _]]; try done; by left. }
  pose proof (mi_word _ _ _ _ _ HI a Ha) as Hw. wp_pure.
  apply (wp_iter _ _ _ _ _ (λ x r', r' = at_pc r (Slow a) ∧ 0 ≤ x.2 ≤ 3)); [done|].
  clear s g ρ c Hr HI Hw. intros [sw state] ? [-> Hst]. cbn [snd] in Hst.
  change (mwp t (lock_slow_body bucket_of a timeout (sw, state)) (at_pc r (Slow a))
            (turn_post a r Q)).
  unfold lock_slow_body. destruct (has_bits state LOCKED_BIT) eqn:Hl.
  2:{ unfold compare_exchange_weak. wp_pure. apply wp_cas_lock; [done|auto|done|done|..].
      - by wp_pure.
      - intros v' Hv'. by wp_pure. }
  destruct (has_bits state PARKED_BIT) eqn:Hp; [by wp_pure; apply wp_lock_slow_park|].
  unfold spin. wp_pure. destruct (SpinWait.spin sw) as [[[] [bo|]] sw']; unfold yield; wp_pure.
  - apply wp_look; [by intros; simplify_eq/=|by eexists|]. intros s g ρ c v _ _ _. wp_pure. by apply wp_retry.
  - by apply wp_retry.
  - apply wp_look; [by intros; simplify_eq/=|by eexists|]. intros s g ρ c v _ _ _.
    by wp_pure; apply wp_lock_slow_park.
  - by apply wp_lock_slow_park.
Qed.

Lemma wp_lock t a r Q :
  cv a = false → ready a r → Q tt (acquired a r) → mwp t (lock bucket_of a) r Q.
Proof.
  intros Ha Hpc HQ. unfold lock, compare_exchange_weak. wp_pure.
  apply (wp_cas_lock t true a 0); [done|done|lia|done|by wp_pure|].
  intros v _. wp_pure. apply wp_lock_slow; [done|done|by wp_pure|by intros [? ?]].
Qed.

Lemma at_pc_idle r : idle r → at_pc r Idle = r.
Proof. intros [Hpc _]. destruct r; cbn in *; by subst. Qed.

Lemma wp_try_lock t a r Q :
  cv a = false → idle r → (a ∉ held r → Q true (acquired a r)) → Q false r → mwp t (try_lock a) r Q.
Proof.
  intros Ha Hpc HT HF. unfold try_lock, load. wp_pure. apply wp_load; [done|]. intros v Hv. wp_pure.
  apply (wp_iter _ _ _ _ _ (λ v r', r' = r ∧ 0 ≤ v ≤ 3)); [done|].
  clear v Hv. intros v ? [-> Hv].
  destruct (has_bits v LOCKED_BIT) eqn:Hl; [by wp_pure|].
  unfold compare_exchange_weak. wp_pure. apply wp_cas_lock; [done|auto|done|done|by intros Hn; wp_pure; auto|].
  intros v' Hv'. by wp_pure.
Qed.

Lemma wp_try_lock_until t a timeout r Q :
  cv a = false → idle r → Q true (acquired a r) → Q false r →
  mwp t (try_lock_until bucket_of a timeout) r Q.
Proof.
  intros Ha Hpc HT HF. unfold try_lock_until, compare_exchange_weak. wp_pure.
  apply (wp_cas_lock t true a 0); [done|auto|lia|done|by wp_pure|].
  intros v _. wp_pure. apply wp_lock_slow; [done|auto|done|]. by rewrite at_pc_idle.
Qed.

Lemma wp_try_lock_for t a timeout r Q :
  cv a = false → idle r → Q true (acquired a r) → Q false r →
  mwp t (try_lock_for bucket_of a timeout) r Q.
Proof.
  intros Ha Hpc HT HF. unfold try_lock_for, compare_exchange_weak. wp_pure.
  apply (wp_cas_lock t true a 0); [done|auto|lia|done|by wp_pure|].
  intros v _. unfold to_deadline, now. wp_pure. apply wp_look; [by intros; simplify_eq/=|by eexists|].
  intros s g ρ c n _ _ _. wp_pure. apply wp_lock_slow; [done|auto|done|]. by rewrite at_pc_idle.
Qed.

Lemma wp_is_locked t a r Q : cv a = false → (∀ b, Q b r) → mwp t (is_locked a) r Q.
Proof.
  intros Ha HQ. unfold is_locked, load. wp_pure. apply wp_load; [done|]. intros v _. wp_pure. apply HQ.
Qed.

(** ** Unlocking *)

(** A store by the owner, with the bucket locked. *)
Lemma wp_owner_store {A} t a v (k : unit → iprog A) r r' Q :
  pc_hold (rpc r) = [bucket_of a] → a ∈ held r →
  pc_hold (rpc r') = pc_hold (rpc r) → pc_wait (rpc r') = pc_wait (rpc r) →
  pc_cust (rpc r') = pc_cust (rpc r) → rcv r' = rcv r →
  0 ≤ v ≤ 3 → (∀ s a', coming s a' t r → coming s a' t r') →
  (∀ s g ρ, MInv s g ρ → ρ t = r →
     let o := if has_bits v LOCKED_BIT then Some t else None in
     (has_bits v PARKED_BIT = true ∨ no_waiter s a) ∧
     keeps (set_mem a v s) ρ t r' ∧ thread_ok (set_mem a v s) (<[a := o]> g) t r' ∧
     (o = None → ∀ u, waiter bucket_of s a u → ∃ v, coming s a v ((<[t := r']> ρ : tid → role) v))) →
  mwp t (k tt) r' Q → mwp t (Act (AStore a v) k) r Q.
Proof.
  intros Hh Ha Eh Ew Ec Ecv Hv Hnc Hcond Hk. apply wp_act; [always|].
  intros s g ρ c s' x Hr HI Hex. cbn in Hex. injection Hex as <- <-.
  destruct (Hcond s g ρ HI Hr) as (Hp & Hkeep & Hok & Hw).
  set (o := if has_bits v LOCKED_BIT then Some t else None) in *.
  exists (<[a := o]> g), r'. split; [|done].
  apply m_mem; cbn; rewrite ?Hr; try done.
  - apply (held_mutex _ _ _ _ _ t a HI). by rewrite Hr.
  - by rewrite Ew, Ecv.
  - subst o. destruct (has_bits v LOCKED_BIT);
      (split; intros Hx; [first [done|by eexists]|first [done|by destruct Hx]]).
  - destruct Hp; auto.
  - by left.
  - intros _. right. rewrite Hh. set_solver.
  - intros a' _. apply Hnc.
  - intros Hn u Hu. right. by apply (Hw Hn u).
Qed.

(** The thread [w] is ours to wake with [tok]: the mutex has been released, or
    is still ours to hand over. *)
Definition td_ready (r : role) a w (tok : UnparkToken) : Prop :=
  (rpc r = UnS a w ∧ tok ≠ TOKEN_HANDOFF ∧ cv a = false) ∨
  (∃ more, rpc r = UnP a w more ∧ tok = TOKEN_HANDOFF).

(** Who owns [a] is not in custody with it. *)
Lemma owner_not_cust s g ρ t a w :
  MInv s g ρ → a ∈ held (ρ t) → w ≠ t → a ∉ held (ρ w).
Proof.
  intros HI Ha Hne Hw. destruct (mi_thread _ _ _ _ _ HI t) as (_ & T & _).
  destruct (mi_thread _ _ _ _ _ HI w) as (_ & W & _). apply T in Ha. apply W in Hw. congruence.
Qed.

Lemma wp_set_token {A} t a w tok (k : unit → iprog A) r Q :
  td_ready r a w tok → guards r ⊆ filter (λ x, x ≠ a) (held r) →
  mwp t (k tt) (MkRole (filter (λ x, x ≠ a) (held r)) (guards r) (UnT a w) (rcv r)) Q →
  mwp t (Act (ASetToken w tok) k) r Q.
Proof.
  intros Hready Hg HQ. apply wp_act; [always|]. intros s g ρ c s' x Hr HI Hex.
  cbn in Hex. injection Hex as <- <-.
  destruct (mi_thread _ _ _ _ _ HI t) as (T1 & T2 & T3 & T4). rewrite Hr in T1, T2, T3, T4.
  set (r1 := MkRole _ _ _ _) in HQ. eexists _, r1. split; [|exact HQ].
  assert (Hpc : pc_hold (rpc r) = [bucket_of a] ∧ pc_cust (rpc r) = [w] ∧ pc_wait (rpc r) = false ∧
    pc_cv (rpc r) = true ∧ plain_from (rpc r) = true ∧
    ∀ s a', coming s a' t r → coming s a' t r1).
  { destruct Hready as [(E & _)|[more [E _]]]; split_and!; try (by rewrite E);
      intros s' a'; stays_coming. }
  destruct Hpc as (P1 & P2 & P3 & P4 & P5 & P6).
  assert (Hw : w ∈ pc_cust (rpc (ρ t))) by (rewrite Hr, P2; set_solver).
  assert (Hown : tok = TOKEN_HANDOFF → a ∈ held r ∧ td_key (td s w) = a).
  { intros Etok. destruct Hready as [(_ & ? & _)|[more [E _]]]; [done|]. rewrite E in T3. cbn in T3. tauto. }
  assert (Hk : td_key (td s w) = a ∧ cv a = false).
  { destruct Hready as [(E & _ & ?)|[more [E _]]]; rewrite E in T3; [done|]. cbn in T3. split; [tauto|].
    apply (held_mutex _ _ _ _ _ t a HI). rewrite Hr. tauto. }
  assert (Hnot : w ≠ t → a ∉ held (ρ w)).
  { intros Hne. destruct Hready as [(E & _ & _)|[more [E _]]]; rewrite E in T3.
    - pose proof (mi_cust _ _ _ _ _ HI t w Hw) as H. by rewrite Hr, E in H.
    - apply (owner_not_cust s g ρ t); [done| |done]. rewrite Hr. apply T3. }
  destruct Hk as [Hk Ha]. apply m_set_token; rewrite ?Hr; cbn; try done.
  - by rewrite P2; left.
  - by rewrite P3.
  - intros Etok. rewrite Hk. by apply Hown.
  - intros a'. apply P6.
  - split; [by rewrite Hr|]. split; [left; rewrite Hr; split; [done|apply filter_sub]|].
    split; [|split].
    + intros y Hy%list_elem_of_singleton. subst y. cbn. fn_cases t w; [|auto].
      cbn. rewrite list_elem_of_filter. tauto.
    + intros c' y z E. rewrite Hr in E. by rewrite E in P5.
    + intros c' y [E|E]; rewrite Hr in E; by rewrite E in P5.
  - split; [done|]. rewrite Hk. split; [|split].
    + cbn. intros y [Hne Hy]%list_elem_of_filter. case_decide; fn_simp; auto.
    + cbn. fn_simp. cbn. split; [done|]. split; [done|]. unfold claims. cbn. fn_simp. cbn. intros ->.
      rewrite decide_True by done. by fn_simp.
    + destruct (cust_wait _ _ _ _ _ _ _ HI Hw) as (_ & Hpk & _). unfold cv_ok in T4 |- *. cbn.
      destruct (rcv r) as [[c' m]|]; [|done]. destruct T4 as (Q1 & Q2 & Q3 & Q4 & Q5 & Q6).
      fn_cases w t; cbn; [split_and!; try done; congruence|]. split_and!; try done.
      intros G1 G2. destruct (Q6 G1 G2) as [Q7 Q8]. split.
      * case_decide as Etok; [|done]. assert (a ≠ m) by (intros ->; apply Q8, Hown; done). by fn_simp.
      * rewrite list_elem_of_filter. tauto.
Qed.

Lemma wp_unlock_of_unpark {A} t a w (k : unit → iprog A) r Q :
  rpc r = UnT a w → mwp t (k tt) (at_pc r (UnE a)) Q → mwp t (Act (AUnparkLock w) k) r Q.
Proof.
  intros Hpc HQ. apply wp_act; [always|]. intros s g ρ c s' x Hr HI Hex. cbn in Hex. injection Hex as <- <-.
  destruct (mi_thread _ _ _ _ _ HI t) as (T1 & T2 & T3 & T4). rewrite Hr in T1, T2, T3, T4.
  rewrite Hpc in T3. destruct T3 as (Ha & Hk & Hcl).
  assert (Hw : w ∈ pc_cust (rpc (ρ t))) by (rewrite Hr, Hpc; set_solver).
  assert (Hnot : a ∉ held (ρ w)).
  { pose proof (mi_cust _ _ _ _ _ HI t w Hw) as H. by rewrite Hr, Hpc in H. }
  exists g, (at_pc r (UnE a)). split; [|done]. apply m_unpark_lock; rewrite ?Hr; cbn; rewrite ?Hpc; try done.
  - rewrite Hk. intros Htok. auto.
  - intros a'. stays_coming.
  - apply keeps_plain; rewrite ?Hr, ?Hpc; try done. by left.
  - split; [done|]. split; [done|]. split; [done|]. unfold cv_ok in *. cbn. destruct (rcv r) as [[c' m]|]; [|done].
    rewrite Hpc in T4. destruct T4 as (Q1 & Q2 & Q3 & _ & Q5 & Q6).
    destruct (decide (w = t)) as [->|]; fn_simp; cbn; split_and!; try done.
    intros _ Htok. assert (m = a) as ->.
    { destruct Q5 as [E|E]; [congruence|]. congruence. }
    split; [by apply Hcl|]. by rewrite Hr in Hnot.
Qed.

(** The end of [unpark_one]: hand over the token, release the thread and the
    bucket. *)
Lemma wp_wake t a w tok (res : UnparkResult) r Q :
  td_ready r a w tok → guards r ⊆ filter (λ x, x ≠ a) (held r) →
  Q res (released a r) →
  mwp t (Act (ASetToken w tok) (λ _, Act (AUnparkLock w) (λ _,
           Bind (unlock_bucket (bucket_of a)) (λ _, Act (AWake w) (λ _, Ret res))))
         : iprog UnparkResult) r Q.
Proof.
  intros Hready Hg HQ. eapply wp_set_token; [done|done|]. set (r1 := MkRole _ _ _ _).
  apply (wp_unlock_of_unpark _ a); [done|]. unfold unlock_bucket. wp_pure.
  apply (wp_bucket_unlock _ _ _ _ (released a r)); [| | | | | |].
  - cbn. set_solver.
  - cbn. set_solver.
  - by split_and!.
  - done.
  - intros s' g' (G1 & G2 & _ & G4). split; [done|]. split; [done|]. split; [done|].
    eapply cv_ok_pc; [exact G4|..]; try done. by left.
  - intros s' a'. stays_coming.
  - wp_pure. apply wp_look; [by intros; simplify_eq/=|by eexists|]. intros. by wp_pure.
Qed.

(** The role of the owner once it has released [a]. *)
Lemma released_ok s g t a r v (p : pc) :
  thread_ok s g t r → a ∈ held r → guards r ⊆ filter (λ x, x ≠ a) (held r) → pc_cv p = true →
  guards r ⊆ filter (λ x, x ≠ a) (held r) ∧
  (∀ y, y ∈ filter (λ x, x ≠ a) (held r) → (<[a := v]> g : Z → option tid) y = Some t) ∧
  ∀ x, cv_ok cv (set_mem a x s) (<[a := v]> g) t (MkRole (filter (λ x, x ≠ a) (held r)) (guards r) p (rcv r)).
Proof.
  intros (_ & T2 & _ & T4) Ha Hg Hp. split; [done|]. split.
  - intros y [Hne Hy]%list_elem_of_filter. fn_simp. auto.
  - intros x. eapply cv_ok_pc; [exact T4|done|by left|done|by apply filter_sub|].
    intros y Hy Hgy. assert (a ≠ y) by congruence. by fn_simp.
Qed.

Lemma wp_unlock_slow t a force_fair r Q :
  rpc r = Idle → a ∈ held r → cv a = false → guards r ⊆ filter (λ x, x ≠ a) (held r) →
  Q tt (released a r) → mwp t (unlock_slow bucket_of a force_fair) r Q.
Proof.
  intros Hpc Ha Hcv Hg HQ. unfold unlock_slow, unpark_one, lock_bucket. wp_pure.
  apply (wp_bucket_lock _ _ _ _ (at_pc r (UnL a))); [pc_side Hpc..| | |].
  { intros s g (G1 & G2 & _ & G4). split; [done|]. split; [done|]. split; [done|].
    eapply cv_ok_pc; [exact G4|done|by left|done..]. }
  { intros s a'. stays_coming. }
  wp_pure. apply wp_act; [always|]. intros s g ρ c s' x Hr HI Hex. cbn in Hex.
  unfold Spec.unpark_one in Hex.
  destruct (Spec.pop_first (key_of s) a (bqueue s (bucket_of a))) as [[w l]|] eqn:Epop.
  - unfold should_timeout in Hex. cbn [bfair set_bqueue] in Hex.
    destruct (FairTimeout.should_timeout c (bfair s (bucket_of a))) as [fair f].
    injection Hex as <- <-. eexists g, _.
    split; [by apply (m_pop _ _ s g ρ t (at_pc r (UnL a)))|].
    set (more := Spec.waiting _ _ _). clearbody more. clear s g ρ c Hr HI Epop.
    set (r0 := at_pc _ _).
    assert (Hkeep : ∀ s a', coming s a' t r0 → coming s a' t (MkRole (filter (λ x, x ≠ a) (held r)) (guards r) (UnS a w) (rcv r))).
    { intros s a'. stays_coming. }
    wp_pure. unfold unlock_callback, store. cbn [unparked_threads have_more_threads be_fair].
    destruct (force_fair || fair); cbn [Z.eqb negb andb].
    + assert (Hend : mwp t (Act (ASetToken w TOKEN_HANDOFF) (λ _, Act (AUnparkLock w) (λ _,
           Bind (unlock_bucket (bucket_of a)) (λ _, Act (AWake w)
           (λ _, Ret (MkUnparkResult 1 0 more fair))))) : iprog UnparkResult)
           r0 (λ _ r', mwp t (Ret tt) r' Q)).
      { apply wp_wake; [right; by exists more|done|]. wp_pure. exact HQ. }
      destruct more eqn:Em; wp_pure; [exact Hend|].
      apply (wp_owner_store _ _ _ _ _ r0); try done.
      intros s g ρ HI Hr o. pose proof (mi_thread _ _ _ _ _ HI t) as T. rewrite Hr in T.
      destruct T as (T1 & T2 & T3 & T4). cbn in T3. split; [right; tauto|].
      split; [rewrite <- Hr; by eapply keeps_same|]. split; [|done].
      assert (Ho : ∀ y, g y = Some t → (<[a := o]> g : Z → option tid) y = Some t).
      { intros y Hy. cbn in o. fn_cases a y; [done|auto]. }
      split; [done|]. split; [intros y Hy; auto|]. split; [done|].
      eapply cv_ok_pc; [exact T4|done|by left|done|done|auto].
    + set (r1 := MkRole (filter (λ x, x ≠ a) (held r)) (guards r) (UnS a w) (rcv r)) in *.
      assert (Hend : ∀ v, 0 ≤ v ≤ 3 → has_bits v LOCKED_BIT = false →
        (has_bits v PARKED_BIT = false → more = false) →
        mwp t (Act (AStore a v) Ret) r0
          (λ _ r', mwp t (Ret TOKEN_NORMAL) r' (λ tok r', mwp t
             (Act (ASetToken w tok) (λ _, Act (AUnparkLock w) (λ _,
             Bind (unlock_bucket (bucket_of a)) (λ _, Act (AWake w)
             (λ _, Ret (MkUnparkResult 1 0 more fair))))) : iprog UnparkResult) r'
             (λ _ r', mwp t (Ret tt) r' Q)))).
      { intros v Hv Hl Hp. apply (wp_owner_store _ _ _ _ _ r1); try done.
        - rewrite Hl. intros s g ρ HI Hr o.
          pose proof (mi_thread _ _ _ _ _ HI t) as T. rewrite Hr in T.
          destruct (released_ok s g t a r0 o (UnS a w) T Ha Hg) as (G1 & G2 & G3); [done|].
          destruct T as (T1 & T2 & T3 & T4). cbn in T3. destruct T3 as (_ & Hk & Hm).
          assert (Hw : w ∈ pc_cust (rpc (ρ t))) by (rewrite Hr; cbn; set_solver).
          split; [|split; [|split; [split; [exact G1|split; [exact G2|split; [done|apply G3]]]|]]].
          + destruct (has_bits v PARKED_BIT); [by left|]. right. auto.
          + split; [by rewrite Hr|]. split; [left; rewrite Hr; split; [done|apply filter_sub]|].
            split; [|split; [intros c' y z E; by rewrite Hr in E|intros c' y [E|E]; by rewrite Hr in E]].
            intros y Hy%list_elem_of_singleton. subst y. cbn. fn_cases t w; [cbn; rewrite list_elem_of_filter; tauto|].
            apply (owner_not_cust s g ρ t); [done| |done]. by rewrite Hr.
          + intros _ y _. exists w.
            pose proof (cust_coming _ _ s g ρ t w HI Hw) as Hco. rewrite Hk in Hco. specialize (Hco Hcv).
            fn_cases t w; [|done]. apply Hkeep. by rewrite <- Hr.
        - wp_pure. apply wp_wake; [by left| |].
          + cbn. intros y Hy. apply list_elem_of_filter. split; [|by apply Hg].
            apply Hg, list_elem_of_filter in Hy. tauto.
          + wp_pure. unfold released. cbn. rewrite list_filter_filter_l; [exact HQ|done]. }
      destruct more eqn:Em; wp_pure; by apply Hend.
  - injection Hex as <- <-. exists g, (at_pc r (UnN a)).
    assert (Hnone : no_waiter s a).
    { intros u [Hu Hk]. apply Spec.pop_first_None_inv in Epop.
      rewrite Forall_forall in Epop. by apply (Epop u). }
    destruct (mi_thread _ _ _ _ _ HI t) as (T1 & T2 & T3 & T4). rewrite Hr in T1, T2, T3, T4. split.
    { apply m_pc_only; cbn; rewrite ?Hr; try done.
      - apply keeps_plain; rewrite ?Hr; try done. by left.
      - intros y _. stays_coming. }
    unfold unlock_callback, store. wp_pure. cbn [unparked_threads have_more_threads default_result].
    rewrite Z.eqb_refl. wp_pure. clear s g ρ c Hr HI Epop Hnone T1 T2 T3 T4.
    apply (wp_owner_store _ _ _ _ _ (MkRole (filter (λ x, x ≠ a) (held r)) (guards r) (UnE a) (rcv r))); try done.
    + intros s y. stays_coming.
    + intros s g ρ HI Hr o. pose proof (mi_thread _ _ _ _ _ HI t) as T. rewrite Hr in T.
      destruct (released_ok s g t a (at_pc r (UnN a)) o (UnE a) T Ha Hg) as (G1 & G2 & G3); [done|].
      destruct T as (T1 & T2 & T3 & T4). cbn in T3. split; [tauto|]. split; [|split; [split; [exact G1|split; [exact G2|split; [done|apply G3]]]|]];
        [|intros _ u Hu; by apply T3 in Hu].
      apply keeps_plain; rewrite ?Hr; try done. left. split; [done|apply filter_sub].
    + wp_pure. unfold unlock_bucket. apply (wp_bucket_unlock _ _ _ _ (released a r)); [cbn; set_solver..| | | | |].
      * by split_and!.
      * done.
      * intros s' g' (G1 & G2 & _ & G4). split; [done|]. split; [done|]. split; [done|].
        eapply cv_ok_pc; [exact G4|..]; try done. by left.
      * intros s' a'. stays_coming.
      * by wp_pure.
Qed.

Lemma wp_unlock_fast t a force_fair r Q :
  rpc r = Idle → a ∈ held r → cv a = false → guards r ⊆ filter (λ x, x ≠ a) (held r) →
  Q tt (released a r) →
  mwp t (Bind (compare_exchange a LOCKED_BIT 0) (λ x,
           if x.1 : bool then Ret tt else unlock_slow bucket_of a force_fair))%prog r Q.
Proof.
  intros Hpc Ha Hcv Hg HQ. unfold compare_exchange. wp_pure. apply wp_act; [always|].
  intros s g ρ c s' x Hr HI Hex. cbn in Hex.
  destruct (Z.eqb_spec (mem s a) LOCKED_BIT) as [E|E]; injection Hex as <- <-.
  2:{ exists g, r. split; [by apply m_same|]. wp_pure. by apply wp_unlock_slow. }
  pose proof (mi_thread _ _ _ _ _ HI t) as T. rewrite Hr in T.
  destruct (released_ok s g t a r None Idle T Ha Hg) as (G1 & G2 & G3); [done|].
  assert (Hco : ∀ y, coming s y t r → coming s y t (released a r)).
  { intros y. stays_coming. }
  exists (<[a := None]> g), (released a r). split; [|by wp_pure].
  apply m_mem; cbn; rewrite ?Hr, ?Hpc; try done.
  - right; left. by rewrite E.
  - by left.
  - intros E3. rewrite E3 in E. done.
  - apply keeps_plain; rewrite ?Hr, ?Hpc; try done. left. split; [done|apply filter_sub].
  - intros y _. apply Hco.
  - intros _ u Hu. right. destruct (mi_parked _ _ _ _ _ HI a u Hu Hcv) as [Hp|(v & c' & w & E')];
      [by rewrite E in Hp|]. exists w. pose proof (unmarked_coming _ _ _ _ _ _ _ _ _ HI E') as Hw.
    destruct (decide (t = w)) as [<-|]; fn_simp; [|done]. rewrite Hr in Hw. by apply Hco.
Qed.

Lemma wp_unlock t a r Q :
  rpc r = Idle → a ∈ held r → cv a = false → guards r ⊆ filter (λ x, x ≠ a) (held r) →
  Q tt (released a r) → mwp t (unlock bucket_of a) r Q.
Proof. apply wp_unlock_fast. Qed.

Lemma wp_unlock_fair t a r Q :
  rpc r = Idle → a ∈ held r → cv a = false → guards r ⊆ filter (λ x, x ≠ a) (held r) →
  Q tt (released a r) → mwp t (unlock_fair bucket_of a) r Q.
Proof. apply wp_unlock_fast. Qed.

Lemma wp_bump t a r Q :
  idle r → a ∈ held r → cv a = false → guards r ⊆ filter (λ x, x ≠ a) (held r) →
  Q tt r → Q tt (acquired a (released a r)) → mwp t (bump bucket_of a) r Q.
Proof.
  intros [Hpc Hrc] Ha Hcv Hg HQ HQ'. unfold bump, load. wp_pure. apply wp_load; [done|]. intros v _. wp_pure.
  destruct (has_bits v PARKED_BIT); [|by wp_pure]. unfold bump_slow. wp_pure.
  apply wp_unlock_slow; [done..|]. apply wp_lock; [done| |done]. apply idle_ready. by split.
Qed.

(** ** Clients *)

(** A client owns the mutexes of [held].  It unlocks or bumps only a mutex
    it owns, as the contract of [unlock] asks, and does not block on one it
    owns. *)
Inductive op :=
| OLock (a : Z) | OTryLock (a : Z) | OTryLockUntil (a d : Z) | OTryLockFor (a d : Z)
| OUnlock (a : Z) | OUnlockFair (a : Z) | OBump (a : Z) | OIsLocked (a : Z).

Definition op_mutex (o : op) : Z :=
  match o with
  | OLock a | OTryLock a | OTryLockUntil a _ | OTryLockFor a _
  | OUnlock a | OUnlockFair a | OBump a | OIsLocked a => a
  end.

Definition enter (a : Z) : iprog unit := Act (AEnter a GExclusive) Ret.
Definition leave (a : Z) : iprog unit := Act (AExit a GExclusive) Ret.

(** The effect of one operation: the mutexes owned after it. *)
Definition run_op (o : op) (held : list Z) : iprog (list Z) :=
  match o with
  | OLock a =>
      if decide (a ∈ held) then Ret held
      else lock bucket_of a;; enter a;; Ret (a :: held)
  | OTryLock a =>
      ok <- try_lock a;;
      if ok : bool then enter a;; Ret (a :: held) else Ret held
  | OTryLockUntil a d =>
      if decide (a ∈ held) then Ret held
      else
        ok <- try_lock_until bucket_of a d;;
        if ok : bool then enter a;; Ret (a :: held) else Ret held
  | OTryLockFor a d =>
      if decide (a ∈ held) then Ret held
      else
        ok <- try_lock_for bucket_of a d;;
        if ok : bool then enter a;; Ret (a :: held) else Ret held
  | OUnlock a =>
      if decide (a ∈ held)
      then leave a;; unlock bucket_of a;; Ret (filter (λ x, x ≠ a) held) else Ret held
  | OUnlockFair a =>
      if decide (a ∈ held)
      then leave a;; unlock_fair bucket_of a;; Ret (filter (λ x, x ≠ a) held) else Ret held
  | OBump a =>
      if decide (a ∈ held)
      then leave a;; bump bucket_of a;; enter a;; Ret (a :: filter (λ x, x ≠ a) held)
      else Ret held
  | OIsLocked a => is_locked a;; Ret held
  end%prog.

Fixpoint client (ops : list op) (held : list Z) : iprog unit :=
  match ops with
  | [] => Ret tt
  | o :: ops => held <- run_op o held;; client ops held
  end%prog.

(** The role of a client between two operations. *)
Definition owns (l : list Z) (r : role) : Prop :=
  idle r ∧ (∀ x, x ∈ held r ↔ x ∈ l) ∧ (∀ x, x ∈ guards r ↔ x ∈ l).

Lemma wp_enter t a r Q :
  idle r → a ∈ held r → a ∉ guards r →
  Q tt (MkRole (held r) (a :: guards r) Idle None) → mwp t (enter a) r Q.
Proof.
  intros [Hpc Hcv] Ha Hg HQ. apply wp_act; [always|]. intros s g ρ c s' x Hr HI Hex.
  cbn in Hex. injection Hex as <- <-. eexists g, _. split; [by apply (m_enter _ _ s g ρ t r)|].
  by wp_pure.
Qed.

Lemma wp_leave t a r Q :
  idle r → Q tt (MkRole (held r) (filter (λ x, x ≠ a) (guards r)) Idle None) →
  mwp t (leave a) r Q.
Proof.
  intros [Hpc Hcv] HQ. apply wp_act; [always|]. intros s g ρ c s' x Hr HI Hex.
  cbn in Hex. injection Hex as <- <-. eexists g, _. split; [|by wp_pure].
  apply (m_exit _ _ s g ρ t r); [done..|apply NoDup_filter, HI|]. intros u gd. by rewrite list_elem_of_filter.
Qed.

Lemma wp_take_guard t a l r :
  owns l r → a ∉ l →
  mwp t (enter a) (acquired a r) (λ _ r', mwp t (Ret (a :: l)) r' owns).
Proof.
  intros ([Hpc Hcv] & Hh & Hg) Ha. apply wp_enter; cbn; [by split|set_solver|by rewrite Hg|].
  wp_pure. split; [by split|]. cbn. set_solver.
Qed.

(** The role once the guard is gone, before the unlock. *)
Lemma owns_leave a l r :
  owns l r → a ∈ l →
  let r1 := MkRole (held r) (filter (λ x, x ≠ a) (guards r)) Idle None in
  a ∈ held r1 ∧ guards r1 ⊆ filter (λ x, x ≠ a) (held r1) ∧
  owns (filter (λ x, x ≠ a) l) (released a r1).
Proof.
  intros (Hpc & Hh & Hg) Ha. cbn. split; [by apply Hh|]. split; [|split; [by split|]].
  - intros x. rewrite !list_elem_of_filter, Hg, Hh. done.
  - cbn. split; intros x; rewrite !list_elem_of_filter; [by rewrite Hh|by rewrite Hg].
Qed.

Lemma wp_run_op t o l r : cv (op_mutex o) = false → owns l r → mwp t (run_op o l) r owns.
Proof.
  intros Hm Ho. pose proof Ho as (Hpc & Hh & Hg).
  destruct o as [a|a|a d|a d|a|a|a|a]; cbn [run_op op_mutex] in *; try (case_decide as Ha; [|by wp_pure]);
    try (case_decide as Ha; [by wp_pure|]); wp_pure.
  - apply wp_lock; [done|auto|]. wp_pure. by apply wp_take_guard.
  - apply wp_try_lock; [done|done|intros Hn; wp_pure|by wp_pure].
    apply wp_take_guard; [done|]. by rewrite <- Hh.
  - apply wp_try_lock_until; [done|done|wp_pure|by wp_pure]. by apply wp_take_guard.
  - apply wp_try_lock_for; [done|done|wp_pure|by wp_pure]. by apply wp_take_guard.
  - destruct (owns_leave a l r Ho Ha) as (H1 & H2 & H3). apply wp_leave; [done|].
    wp_pure. apply wp_unlock; [done..|]. by wp_pure.
  - destruct (owns_leave a l r Ho Ha) as (H1 & H2 & H3). apply wp_leave; [done|].
    wp_pure. apply wp_unlock_fair; [done..|]. by wp_pure.
  - destruct (owns_leave a l r Ho Ha) as (H1 & H2 & H3). apply wp_leave; [done|]. wp_pure.
    apply wp_bump; [done..| |]; wp_pure.
    + apply wp_enter; [done|done|cbn; rewrite list_elem_of_filter; tauto|]. wp_pure.
      split; [done|]. cbn. split; intros x; rewrite !elem_of_cons, !list_elem_of_filter, ?Hh, ?Hg;
        destruct (decide (x = a)); naive_solver.
    + apply wp_take_guard; [done|]. rewrite list_elem_of_filter. tauto.
  - by apply wp_is_locked; [|intros b; wp_pure].
Qed.

Lemma wp_client t ops l r :
  Forall (λ o, cv (op_mutex o) = false) ops → owns l r → mwp t (client ops l) r (λ _ r, idle r).
Proof.
  intros Hops. revert l r. induction Hops as [|o ops Ho Hops IH]; intros l r Hl; cbn [client]; wp_pure; [apply Hl|].
  eapply wp_mono; [|by apply wp_run_op]. cbn. intros l' r' Ho'. by apply IH.
Qed.

(** ** Every reachable configuration *)

(** The words of all locks and condition variables start as zero. *)
Definition start_state : state := init_state (λ _, INIT).

Lemma start_inv : MInv start_state (λ _, None) (λ _, MkRole [] [] Idle None).
Proof.
  split; cbn; try done.
  - split; cbn; try done; [|constructor|set_solver|set_solver].
    intros b t. split; [done|set_solver].
  - intros c _. split; [done|by left].
  - intros a u [Hu _]. cbn in Hu. set_solver.
  - intros t. split; [done|]. split; [set_solver|done].
  - intros a u [Hu _]. cbn in Hu. set_solver.
  - set_solver.
  - constructor.
  - by exists 0%nat.
Qed.


(** ** When nobody can go on *)

Section stuck.
Context s g ρ (HI : MInv s g ρ) (Hall : ∀ u, idle (ρ u) ∨ blocked u (ρ u) s).

(** A thread that holds a bucket waits for one with a greater number. *)
Lemma stuck_free b u : bmutex s b ≠ Some u.
Proof using HI Hall.
  destruct (mi_few _ _ _ _ _ HI) as [n Hn].
  assert (H : ∀ k b u, (n - b < k)%nat → bmutex s b ≠ Some u); [|apply (H (S (n - b))%nat); lia].
  clear b u. intros k. induction k as [|k IH]; intros b u Hk Hb; [lia|].
  pose proof (Hn _ _ Hb) as Hbn. pose proof Hb as Hin. apply (li_lock _ _ _ _ _ (mi_lot _ _ _ _ _ HI)) in Hin.
  cbn in Hin. destruct (Hall u) as [[E _]|[[E _]|[(b0 & b' & u' & E & Hlt & Hb')|(_ & [[a E]|[E _]])]]];
    rewrite E in Hin; cbn in Hin; try set_solver.
  apply list_elem_of_singleton in Hin as ->. pose proof (Hn _ _ Hb'). apply (IH b' u'); [lia|done].
Qed.

(** A thread that waits is queued. *)
Lemma stuck_queued u : ¬ idle (ρ u) → td_parked (td s u) = true ∧ ((∃ a, rpc (ρ u) = Wait a) ∨ rpc (ρ u) = Idle ∧ is_Some (rcv (ρ u)))
  ∧ u ∈ bqueue s (bucket_of (td_key (td s u))).
Proof using HI Hall.
  intros Hu. pose proof (mi_lot _ _ _ _ _ HI) as HL.
  destruct (Hall u) as [?|[(_ & b & v & Hb)|[(b & b' & v & _ & _ & Hb)|(Hp & Hw)]]];
    [done|by apply stuck_free in Hb..|]. split; [done|]. split; [done|].
  destruct (li_wait _ _ _ _ _ HL u) as [Hin|[v Hv]]; [|done|done|].
  - cbn. destruct Hw as [[a ->]|[-> Hs]]; [done|]. by rewrite bool_decide_true.
  - destruct (li_cust _ _ _ _ _ HL v u Hv) as (_ & _ & _ & Hh).
    apply (li_lock _ _ _ _ _ HL) in Hh. by apply stuck_free in Hh.
Qed.

(** Who is queued for a mutex waits for its owner; who is queued for a condition
    variable waits for a notification, which will find it. *)
Lemma all_blocked t :
  (idle (ρ t) ∧ ¬ blocked t (ρ t) s) ∨
  ∃ b, t ∈ bqueue s b ∧
    let k := td_key (td s t) in
    (cv k = false ∧ has_bits (mem s k) LOCKED_BIT = true) ∨ (cv k = true ∧ mem s k ≠ 0).
Proof using HI Hall.
  destruct (decide (rpc (ρ t) = Idle ∧ rcv (ρ t) = None)) as [[E1 E2]|Hpc]; [left; split; [done|]|right].
  { intros [(_ & b & u & Hb)|[(b & b' & u & _ & _ & Hb)|(_ & [[a E]|[_ Hs]])]]; [by apply stuck_free in Hb..|congruence|].
    rewrite E2 in Hs. by destruct Hs. }
  destruct (stuck_queued t Hpc) as (Hp & Hw & Hq). exists (bucket_of (td_key (td s t))). split; [done|].
  cbn. set (k := td_key _) in *. assert (Hwt : waiter bucket_of s k t) by done.
  destruct (cv k) eqn:Hk; [right|left]; (split; [done|]).
  - destruct (cv_waiter _ _ _ _ _ k t HI Hwt Hk) as (a & E & _ & Ha).
    destruct (mi_cvq _ _ _ _ _ HI k t a Hwt E) as [->|[v Hv]]; [done|exfalso].
    assert (Hh : bucket_of k ∈ pc_hold (rpc (ρ v))) by (destruct Hv as [-> | ->]; cbn; set_solver).
    apply (li_lock _ _ _ _ _ (mi_lot _ _ _ _ _ HI)) in Hh. by apply stuck_free in Hh.
  - apply (mi_locked _ _ _ _ _ HI k Hk). destruct (g k) as [o|] eqn:Hg; [by eexists|exfalso].
    destruct (mi_wake _ _ _ _ _ HI k t Hwt Hk Hg) as [v Hv].
    assert (Hvp : ¬ idle (ρ v)).
    { intros [E1 E2]. unfold coming, goes in Hv. rewrite E1, E2 in Hv. by destruct Hv as [[]|[[|[|[]]] _]]. }
    destruct (stuck_queued v Hvp) as (_ & _ & Hqv). by eapply coming_not_queued.
Qed.
End stuck.

Lemma live_unique s g ρ a : MInv s g ρ → (length (live s a) ≤ 1)%nat.
Proof.
  intros HI. pose proof (mi_live_nodup _ _ _ _ _ HI a) as Hnd.
  destruct (live s a) as [|[t gt] [|[u gu] l]] eqn:El; cbn; [lia..|exfalso].
  assert (Hown : ∀ x gx, (x, gx) ∈ live s a → gx = GExclusive ∧ g a = Some x).
  { intros x gx [-> Hx]%(mi_live _ _ _ _ _ HI). split; [done|].
    destruct (mi_thread _ _ _ _ _ HI x) as (T1 & T2 & _). auto. }
  destruct (Hown t gt) as [-> Ht]; [rewrite El; set_solver|].
  destruct (Hown u gu) as [-> Hu]; [rewrite El; set_solver|].
  apply NoDup_cons in Hnd as [Hnd _]. apply Hnd. replace u with t by congruence. set_solver.
Qed.

End proof.

(** ** The theorems *)

Section theorems.
Context (bucket_of : Z → nat).

(** The threads run any scripts, on mutexes that all start unlocked. *)
Definition start_pool (scripts : tid → list op) : tid → iprog unit :=
  λ t, client bucket_of (scripts t) [].

(** There is no condition variable. *)
Abbreviation no_cv := (λ _ : Z, false).
Abbreviation no_panic := (λ (_ : string) (_ : role), False).
Abbreviation mverified :=
  (verified exec (MInv bucket_of no_cv) no_panic (blocked bucket_of) idle).

Lemma reachable_verified scripts s ps :
  reachable exec start_state (start_pool scripts) s ps → mverified (s, ps).
Proof.
  intros Hr. eapply adequacy; [|exact Hr].
  exists (λ _, None), (λ _, MkRole [] [] Idle None). split; [apply start_inv|].
  intros t. apply wp_client; [by apply Forall_true|]. split; [done|]. cbn. set_solver.
Qed.

Implicit Types (scripts : tid → list op) (s : state) (ps : tid → iprog unit).

(** C1: Mutual exclusion. In every reachable configuration of any number of
    threads that run any operations on any number of mutexes, with any hash
    function, fair or unfair unlocks, timeouts and spurious failures, at most
    one guard of a mutex is alive. *)
Theorem mutex_exclusive scripts s ps a :
  reachable exec start_state (start_pool scripts) s ps →
  (length (live s a) ≤ 1)%nat.
Proof.
  intros (g & ρ & HI & _)%reachable_verified. by eapply live_unique.
Qed.

(** C3: The state table of [RawMutex]: the word has no bit set but the two of
    the table, a mutex with a live guard is locked, and a mutex with queued
    threads has its parked bit set. *)
Theorem mutex_state_table scripts s ps a :
  reachable exec start_state (start_pool scripts) s ps →
  0 ≤ mem s a ≤ 3 ∧
  (live s a ≠ [] → has_bits (mem s a) LOCKED_BIT = true) ∧
  (∀ b u, u ∈ bqueue s b → td_key (td s u) = a → has_bits (mem s a) PARKED_BIT = true).
Proof.
  intros (g & ρ & HI & _)%reachable_verified. cbn in HI. split; [by apply (mi_word _ _ _ _ _ HI)|]. split.
  - intros Hl. destruct (live s a) as [|[t gd] l] eqn:El; [done|].
    assert (Hin : (t, gd) ∈ live s a) by (rewrite El; set_solver).
    apply (mi_live _ _ _ _ _ HI) in Hin as [_ Hin].
    destruct (mi_thread _ _ _ _ _ HI t) as (T1 & T2 & _).
    apply (mi_locked _ _ _ _ _ HI); [done|]. exists t. auto.
  - intros b u Hu <-. destruct (mi_parked _ _ _ _ _ HI (td_key (td s u)) u) as [?|(t & c & w & E)];
      [by eapply queued_key|done|done|exfalso].
    pose proof (mi_cust _ _ _ _ _ HI t w) as Hok. rewrite E in Hok. destruct Hok as [c' Ec]; [cbn; set_solver|].
    destruct (mi_thread _ _ _ _ _ HI w) as (_ & _ & _ & Hcv). unfold cv_ok in Hcv. rewrite Ec in Hcv.
    by destruct Hcv.
Qed.

(** C2: No lost wake-up, hence no deadlock inside the mutex: if no thread can
    take a step, every thread has finished its script or is queued on a mutex
    that is locked.  A thread is never left parked on an unlocked mutex, and
    never stuck on a bucket lock. *)
Theorem mutex_no_lost_wakeup scripts s ps :
  reachable exec start_state (start_pool scripts) s ps →
  (∀ t c, step1 exec t c (ps t) s = None) →
  ∀ t, ps t = Ret tt ∨
       ∃ b, t ∈ bqueue s b ∧ has_bits (mem s (td_key (td s t))) LOCKED_BIT = true.
Proof.
  intros (g & ρ & HI & Hwp)%reachable_verified Hstuck t. cbn in HI, Hwp.
  assert (Hall : ∀ u, (ps u = Ret tt ∧ idle (ρ u)) ∨ blocked bucket_of u (ρ u) s).
  { intros u. destruct (wp_progress _ _ _ _ _ _ s g ρ _ (Hwp u) HI)
      as [([] & ? & ?)|[(? & _ & [])|[[c Hs]|?]]]; [by left| |by right].
    rewrite Hstuck in Hs. by destruct Hs. }
  destruct (all_blocked _ _ s g ρ HI) with t as [[_ Hn]|(b & Hq & [[_ ?]|[? _]])]; [|left|right|done].
  - intros u. destruct (Hall u) as [[_ ?]|?]; auto.
  - by destruct (Hall t) as [[? _]|?].
  - by exists b.
Qed.

(** No operation of the mutex panics: in particular the thread that times
    out always finds itself in its bucket's queue, as the [debug_assert] of
    [park] says. *)
Theorem mutex_no_panic scripts s ps t m :
  reachable exec start_state (start_pool scripts) s ps → ps t ≠ Panic m.
Proof.
  intros (g & ρ & HI & Hwp)%reachable_verified E. cbn in Hwp.
  specialize (Hwp t). rewrite E in Hwp. by apply wp_no_panic in Hwp.
Qed.
End theorems.

(** ** A run: thread 0 locks mutex 7 and ends; thread 1 spins, then parks on it *)

Section example.
Local Definition scripts (t : tid) : list op :=
  match t with 0%nat | 1%nat => [OLock 7] | _ => [] end.
Local Definition sched : list (tid * choice) :=
  repeat (0%nat, 0) 6 ++ repeat (1%nat, 0) 87.
Local Definition demo : state * (tid → iprog unit) :=
  default (start_state, start_pool (λ _, 0%nat) scripts)
    (run exec sched start_state (start_pool (λ _, 0%nat) scripts)).

Lemma demo_reachable :
  reachable exec start_state (start_pool (λ _, 0%nat) scripts) demo.1 demo.2.
Proof.
  apply (run_reachable _ sched). unfold demo.
  assert (H : bool_decide (is_Some (run exec sched start_state
            (start_pool (λ _, 0%nat) scripts))) = true) by (vm_compute; reflexivity).
  apply bool_decide_eq_true in H as [[s ps] E]. by rewrite E.
Qed.

Lemma mutex_exclusive_witness :
  live demo.1 7 = [(0%nat, GExclusive)] ∧ (length (live demo.1 7) ≤ 1)%nat.
Proof.
  split; [vm_compute; reflexivity|].
  exact (mutex_exclusive (λ _, 0%nat) scripts demo.1 demo.2 7 demo_reachable).
Defined.

Lemma mutex_state_table_witness :
  bqueue demo.1 0 = [1%nat] ∧ mem demo.1 7 = 3 ∧
  has_bits (mem demo.1 7) LOCKED_BIT = true ∧ has_bits (mem demo.1 7) PARKED_BIT = true.
Proof.
  destruct (mutex_state_table (λ _, 0%nat) scripts demo.1 demo.2 7 demo_reachable)
    as (_ & Hl & Hp).
  split; [vm_compute; reflexivity|]. split; [vm_compute; reflexivity|]. split.
  - apply Hl. vm_compute. discriminate.
  - apply (Hp 0%nat 1%nat); [|vm_compute; reflexivity].
    apply (proj1 (bool_decide_eq_true _)). vm_compute. reflexivity.
Defined.

(** No thread can go on: thread 1 waits for ever, on a locked mutex. *)
Lemma mutex_no_lost_wakeup_witness :
  (∀ t c, step1 exec t c (demo.2 t) demo.1 = None) ∧
  ∃ b, 1%nat ∈ bqueue demo.1 b ∧
       has_bits (mem demo.1 (td_key (td demo.1 1%nat))) LOCKED_BIT = true.
Proof.
  assert (Hstuck : ∀ t c, step1 exec t c (demo.2 t) demo.1 = None).
  { intros [|[|t]] c; vm_compute; reflexivity. }
  split; [exact Hstuck|].
  destruct (mutex_no_lost_wakeup (λ _, 0%nat) scripts demo.1 demo.2 demo_reachable Hstuck 1%nat)
    as [H|H]; [|exact H].
  assert (E : match demo.2 1%nat with Ret _ => true | _ => false end = false)
    by (vm_compute; reflexivity).
  rewrite H in E. discriminate E.
Defined.

Lemma mutex_no_panic_witness : demo.2 1%nat ≠ Panic "debug_assert!(!current.is_null())".
Proof.
  exact (mutex_no_panic (λ _, 0%nat) scripts demo.1 demo.2 1%nat _ demo_reachable).
Defined.
End example.
