(* ===== verification/RawRwLock.v ===== *)
(** * RawRwLock (src/raw_rwlock.rs, src/elision.rs)

    The programs of the reader-writer lock, over the machine of [ParkingLot].
    The state word counts the readers in units of [ONE_READER] above four flag
    bits.  Waiting threads park on the address [a] of the word, a writer that
    waits for the last readers on [a + 1].  [elision] says whether hardware
    lock elision is compiled in; an elided compare-exchange is a
    compare-exchange as far as its result goes.  The deadlock-detection hooks
    are empty, as without the feature [deadlock_detection]. *)

From S2P Require Import Prelude Conc LotTypes SpinWait FairTimeout BucketQueue ParkingLot RawMutex.
Local Open Scope Z_scope.
Local Open Scope prog_scope.

Module RawRwLock.
Definition PARKED_BIT : Z := 1.
Definition WRITER_PARKED_BIT : Z := 2.
Definition UPGRADABLE_BIT : Z := 4.
Definition WRITER_BIT : Z := 8.
Definition READERS_MASK : Z := wrap usize_bits (Z.lnot 15).
Definition ONE_READER : Z := 16.

Definition TOKEN_SHARED : ParkToken := ONE_READER.
Definition TOKEN_EXCLUSIVE : ParkToken := WRITER_BIT.
Definition TOKEN_UPGRADABLE : ParkToken := Z.lor ONE_READER UPGRADABLE_BIT.

Abbreviation TOKEN_NORMAL := RawMutex.TOKEN_NORMAL.
Abbreviation TOKEN_HANDOFF := RawMutex.TOKEN_HANDOFF.

(** [RawRwLock::INIT] *)
Definition INIT : Z := 0.

(** [ONE_READER | UPGRADABLE_BIT]: what an upgradable lock adds. *)
Definition ONE_UPGRADABLE : Z := Z.lor ONE_READER UPGRADABLE_BIT.

(** [debug_assert!(result)] *)
Definition assert_true (b : bool) : iprog unit :=
  if b then Ret tt else Panic "debug_assert!(result)".

(** [.checked_add(v).expect("RwLock reader count overflow")] *)
Definition expect_add (state v : Z) : iprog Z :=
  match checked_add usize_bits state v with
  | Some new => Ret new
  | None => Panic "RwLock reader count overflow"
  end.

(** A shared lock is refused while there is a writer, except to a recursive
    reader when other readers hold the lock. *)
Definition shared_blocked (recursive : bool) (state : Z) : bool :=
  has_bits state WRITER_BIT && (negb recursive || negb (has_bits state READERS_MASK)).

(** The [filter] of [wake_parked_threads]; [s] is the captured [new_state]. *)
Definition wake_filter (s : Z) (token : ParkToken) : FilterOp * Z :=
  if has_bits s WRITER_BIT then (Stop, s)
  else if has_bits token (Z.lor UPGRADABLE_BIT WRITER_BIT) && has_bits s UPGRADABLE_BIT
  then (Skip, s)
  else (Unpark, s + token).

(** Set or clear [PARKED_BIT] as there are more threads or not. *)
Definition set_parked (more : bool) (state : Z) : Z :=
  if more then Z.lor state PARKED_BIT else clear_bits state PARKED_BIT.

Section rwlock.
Context (bucket_of : Z → nat) (elision : bool).

(** src/elision.rs: a compare-exchange and a subtraction, which begin and end
    a transaction. *)
Definition elision_compare_exchange_acquire (a current new : Z) : iprog (bool * Z) :=
  compare_exchange a current new.
Definition elision_fetch_sub_release (a v : Z) : iprog Z := fetch_sub usize_bits a v.

(** ** Taking the lock without waiting *)

Definition try_lock_shared_fast (a : Z) (recursive : bool) : iprog bool :=
  state <- load a;;
  if shared_blocked recursive state then Ret false
  else if elision && (state =? 0) then
    r <- elision_compare_exchange_acquire a 0 ONE_READER;; Ret r.1
  else
    match checked_add usize_bits state ONE_READER with
    | Some new_state => r <- compare_exchange_weak a state new_state;; Ret r.1
    | None => Ret false
    end.

Definition try_lock_shared_slow (a : Z) (recursive : bool) : iprog bool :=
  state <- load a;;
  Iter (λ state,
    if shared_blocked recursive state then Ret (inr false)
    else if elision && (state =? 0) then
      r <- elision_compare_exchange_acquire a 0 ONE_READER;;
      Ret (if r.1 then inr true else inl r.2)
    else
      new_state <- expect_add state ONE_READER;;
      r <- compare_exchange_weak a state new_state;;
      Ret (if r.1 then inr true else inl r.2)) state.

Definition try_lock_upgradable_fast (a : Z) : iprog bool :=
  state <- load a;;
  if has_bits state (Z.lor WRITER_BIT UPGRADABLE_BIT) then Ret false
  else
    match checked_add usize_bits state ONE_UPGRADABLE with
    | Some new_state => r <- compare_exchange_weak a state new_state;; Ret r.1
    | None => Ret false
    end.

Definition try_lock_upgradable_slow (a : Z) : iprog bool :=
  state <- load a;;
  Iter (λ state,
    if has_bits state (Z.lor WRITER_BIT UPGRADABLE_BIT) then Ret (inr false)
    else
      new_state <- expect_add state ONE_UPGRADABLE;;
      r <- compare_exchange_weak a state new_state;;
      Ret (if r.1 then inr true else inl r.2)) state.

(** ** Waking parked threads *)

Definition wake_parked_threads (a new_state : Z)
    (callback : Z → UnparkResult → iprog UnparkToken) : iprog unit :=
  unpark_filter bucket_of a wake_filter new_state callback;; Ret tt.

(** The callback shared by the downgrades and by a writer that gives up:
    clear the parked bit if there are no more parked threads. *)
Definition clear_parked_callback (a : Z) (_ : Z) (result : UnparkResult) : iprog UnparkToken :=
  if negb (have_more_threads result) then fetch_clear a PARKED_BIT;; Ret TOKEN_NORMAL
  else Ret TOKEN_NORMAL.

Definition downgrade_slow (a : Z) : iprog unit :=
  wake_parked_threads a ONE_READER (clear_parked_callback a).

Definition downgrade_to_upgradable_slow (a : Z) : iprog unit :=
  wake_parked_threads a ONE_UPGRADABLE (clear_parked_callback a).

Definition unlock_exclusive_callback (a : Z) (force_fair : bool) (new_state : Z)
    (result : UnparkResult) : iprog UnparkToken :=
  if negb (unparked_threads result =? 0) && (force_fair || be_fair result) then
    let new_state :=
      if have_more_threads result then Z.lor new_state PARKED_BIT else new_state in
    store a new_state;; Ret TOKEN_HANDOFF
  else if have_more_threads result then store a PARKED_BIT;; Ret TOKEN_NORMAL
  else store a 0;; Ret TOKEN_NORMAL.

Definition unlock_exclusive_slow (a : Z) (force_fair : bool) : iprog unit :=
  wake_parked_threads a 0 (unlock_exclusive_callback a force_fair).

Definition unlock_shared_slow (a : Z) : iprog unit :=
  unpark_one bucket_of (a + 1) (λ _, fetch_clear a WRITER_PARKED_BIT;; Ret TOKEN_NORMAL);;
  Ret tt.

(** The two loops of the callback of [unlock_upgradable_slow]; the first one
    ends without a token when the reader count would overflow. *)
Definition upgradable_handoff (a new_state : Z) (result : UnparkResult) (state : Z)
    : iprog (option UnparkToken * Z) :=
  Iter (λ state,
    match checked_add usize_bits (wrapping_sub usize_bits state ONE_UPGRADABLE) new_state with
    | Some new =>
        r <- compare_exchange_weak a state (set_parked (have_more_threads result) new);;
        Ret (if r.1 then inr (Some TOKEN_HANDOFF, state) else inl r.2)
    | None => Ret (inr (None, state))
    end) state.

Definition upgradable_release (a : Z) (result : UnparkResult) (state : Z) : iprog UnparkToken :=
  Iter (λ state,
    let new_state := wrapping_sub usize_bits state ONE_UPGRADABLE in
    r <- compare_exchange_weak a state (set_parked (have_more_threads result) new_state);;
    Ret (if r.1 then inr TOKEN_NORMAL else inl r.2)) state.

Definition unlock_upgradable_callback (a : Z) (force_fair : bool) (new_state : Z)
    (result : UnparkResult) : iprog UnparkToken :=
  state <- load a;;
  x <- (if force_fair || be_fair result then upgradable_handoff a new_state result state
        else Ret (None, state));;
  match x with
  | (Some token, _) => Ret token
  | (None, state) => upgradable_release a result state
  end.

Definition unlock_upgradable_slow (a : Z) (force_fair : bool) : iprog unit :=
  state <- load a;;
  released <- Iter (λ state,
    if negb (has_bits state PARKED_BIT) then
      r <- compare_exchange_weak a state (wrapping_sub usize_bits state ONE_UPGRADABLE);;
      Ret (if r.1 then inr true else inl r.2)
    else Ret (inr false)) state;;
  if released : bool then Ret tt
  else wake_parked_threads a 0 (unlock_upgradable_callback a force_fair).

(** ** Waiting for the readers to leave *)

Definition readers_validate (a : Z) (_ : unit) : iprog (bool * unit) :=
  state <- load a;;
  Ret (has_bits state READERS_MASK && has_bits state WRITER_PARKED_BIT, tt).

Definition readers_timed_out (a : Z) (_ : unit) (_ : Z) (was_last_thread : bool) : iprog unit :=
  if was_last_thread then fetch_clear a WRITER_PARKED_BIT;; Ret tt
  else Panic "debug_assert!(was_last_thread)".

(** The timeout has expired: give [WRITER_BIT] back. *)
Definition writer_gives_up (a prev_value : Z) : iprog unit :=
  state <- fetch_add usize_bits a (wrapping_sub usize_bits prev_value WRITER_BIT);;
  if has_bits state PARKED_BIT
  then wake_parked_threads a prev_value (clear_parked_callback a)
  else Ret tt.

(** The end of one turn of the loop: set [WRITER_PARKED_BIT], then park. *)
Definition wait_for_readers_park (a : Z) (timeout : option Z) (prev_value : Z)
    (spinwait : SpinWait.t) (state : Z) : iprog ((SpinWait.t * Z) + bool) :=
  r <- (if negb (has_bits state WRITER_PARKED_BIT)
        then compare_exchange_weak a state (Z.lor state WRITER_PARKED_BIT)
        else Ret (true, state));;
  if negb r.1 then Ret (inl (spinwait, r.2))
  else
    p <- park bucket_of (a + 1) (readers_validate a) (Ret tt) (readers_timed_out a)
           TOKEN_EXCLUSIVE timeout tt;;
    match p.1 with
    | Unparked _ | Invalid => state <- load a;; Ret (inl (spinwait, state))
    | TimedOut => writer_gives_up a prev_value;; Ret (inr false)
    end.

Definition wait_for_readers (a : Z) (timeout : option Z) (prev_value : Z) : iprog bool :=
  state <- load a;;
  Iter (λ x : SpinWait.t * Z,
    let '(spinwait, state) := x in
    if negb (has_bits state READERS_MASK) then Ret (inr true)
    else
      sp <- spin spinwait;;
      let '(spun, spinwait) := sp in
      if spun : bool then state <- load a;; Ret (inl (spinwait, state))
      else wait_for_readers_park a timeout prev_value spinwait state)
    (SpinWait.new, state).

(** ** Waiting for the lock *)

Definition common_validate (a validate_flags : Z) (_ : unit) : iprog (bool * unit) :=
  state <- load a;;
  Ret (has_bits state PARKED_BIT && has_bits state validate_flags, tt).

Definition common_timed_out (a : Z) (_ : unit) (_ : Z) (was_last_thread : bool) : iprog unit :=
  if was_last_thread then fetch_clear a PARKED_BIT;; Ret tt else Ret tt.

Definition lock_common_park (a : Z) (timeout : option Z) (token : ParkToken) (validate_flags : Z)
    (spinwait : SpinWait.t) (state : Z) : iprog ((SpinWait.t * Z) + bool) :=
  r <- (if negb (has_bits state PARKED_BIT)
        then compare_exchange_weak a state (Z.lor state PARKED_BIT)
        else Ret (true, state));;
  if negb r.1 then Ret (inl (spinwait, r.2))
  else
    p <- park bucket_of a (common_validate a validate_flags) (Ret tt) (common_timed_out a)
           token timeout tt;;
    match p.1 with
    | Unparked tok =>
        if tok =? TOKEN_HANDOFF then Ret (inr true)
        else state <- load a;; Ret (inl (SpinWait.reset spinwait, state))
    | Invalid => state <- load a;; Ret (inl (SpinWait.reset spinwait, state))
    | TimedOut => Ret (inr false)
    end.

(** [try_lock] takes [&mut state]: it returns whether it has the lock, and the
    state it has seen last. *)
Definition lock_common (a : Z) (timeout : option Z) (token : ParkToken)
    (try_lock : Z → iprog (bool * Z)) (validate_flags : Z) : iprog bool :=
  state <- load a;;
  Iter (λ x : SpinWait.t * Z,
    let '(spinwait, state) := x in
    tl <- try_lock state;;
    let '(locked, state) := tl in
    if locked : bool then Ret (inr true)
    else
      sp <- (if negb (has_bits state (Z.lor PARKED_BIT WRITER_PARKED_BIT)) then spin spinwait
             else Ret (false, spinwait));;
      let '(spun, spinwait) := sp in
      if spun : bool then state <- load a;; Ret (inl (spinwait, state))
      else lock_common_park a timeout token validate_flags spinwait state)
    (SpinWait.new, state).

(** The three [try_lock] closures. *)
Definition exclusive_try_lock (a state : Z) : iprog (bool * Z) :=
  Iter (λ state,
    if has_bits state (Z.lor WRITER_BIT UPGRADABLE_BIT) then Ret (inr (false, state))
    else
      r <- compare_exchange_weak a state (Z.lor state WRITER_BIT);;
      Ret (if r.1 then inr (true, state) else inl r.2)) state.

Definition lock_exclusive_slow (a : Z) (timeout : option Z) : iprog bool :=
  locked <- lock_common a timeout TOKEN_EXCLUSIVE (exclusive_try_lock a)
              (Z.lor WRITER_BIT UPGRADABLE_BIT);;
  if negb locked then Ret false else wait_for_readers a timeout 0.

Definition shared_try_lock (a : Z) (recursive : bool) (state : Z) : iprog (bool * Z) :=
  Iter (λ x : SpinWait.t * Z,
    let '(spinwait_shared, state) := x in
    r <- (if elision && (state =? 0) then elision_compare_exchange_acquire a 0 ONE_READER
          else Ret (false, state));;
    if r.1 : bool then Ret (inr (true, state))
    else
      let state := r.2 in
      if shared_blocked recursive state then Ret (inr (false, state))
      else
        new_state <- expect_add state ONE_READER;;
        r <- compare_exchange_weak a state new_state;;
        if r.1 : bool then Ret (inr (true, state))
        else
          spinwait_shared <- spin_no_yield spinwait_shared;;
          state <- load a;;
          Ret (inl (spinwait_shared, state))) (SpinWait.new, state).

Definition lock_shared_slow (a : Z) (recursive : bool) (timeout : option Z) : iprog bool :=
  lock_common a timeout TOKEN_SHARED (shared_try_lock a recursive) WRITER_BIT.

Definition upgradable_try_lock (a state : Z) : iprog (bool * Z) :=
  Iter (λ x : SpinWait.t * Z,
    let '(spinwait_shared, state) := x in
    if has_bits state (Z.lor WRITER_BIT UPGRADABLE_BIT) then Ret (inr (false, state))
    else
      new_state <- expect_add state ONE_UPGRADABLE;;
      r <- compare_exchange_weak a state new_state;;
      if r.1 : bool then Ret (inr (true, state))
      else
        spinwait_shared <- spin_no_yield spinwait_shared;;
        state <- load a;;
        Ret (inl (spinwait_shared, state))) (SpinWait.new, state).

Definition lock_upgradable_slow (a : Z) (timeout : option Z) : iprog bool :=
  lock_common a timeout TOKEN_UPGRADABLE (upgradable_try_lock a)
    (Z.lor WRITER_BIT UPGRADABLE_BIT).

(** ** Exclusive locks *)

Definition lock_exclusive (a : Z) : iprog unit :=
  r <- compare_exchange_weak a 0 WRITER_BIT;;
  if r.1 : bool then Ret tt
  else result <- lock_exclusive_slow a None;; assert_true result.

Definition try_lock_exclusive (a : Z) : iprog bool :=
  r <- compare_exchange a 0 WRITER_BIT;; Ret r.1.

Definition unlock_exclusive (a : Z) : iprog unit :=
  r <- compare_exchange a WRITER_BIT 0;;
  if r.1 : bool then Ret tt else unlock_exclusive_slow a false.

Definition unlock_exclusive_fair (a : Z) : iprog unit :=
  r <- compare_exchange a WRITER_BIT 0;;
  if r.1 : bool then Ret tt else unlock_exclusive_slow a true.

Definition try_lock_exclusive_for (a timeout : Z) : iprog bool :=
  r <- compare_exchange_weak a 0 WRITER_BIT;;
  if r.1 : bool then Ret true
  else deadline <- to_deadline timeout;; lock_exclusive_slow a deadline.

Definition try_lock_exclusive_until (a timeout : Z) : iprog bool :=
  r <- compare_exchange_weak a 0 WRITER_BIT;;
  if r.1 : bool then Ret true else lock_exclusive_slow a (Some timeout).

Definition bump_exclusive_slow (a : Z) : iprog unit :=
  unlock_exclusive_slow a true;; lock_exclusive a.

Definition bump_exclusive (a : Z) : iprog unit :=
  state <- load a;;
  if has_bits state PARKED_BIT then bump_exclusive_slow a else Ret tt.

Definition downgrade (a : Z) : iprog unit :=
  state <- fetch_add usize_bits a (ONE_READER - WRITER_BIT);;
  if has_bits state PARKED_BIT then downgrade_slow a else Ret tt.

(** ** Shared locks *)

Definition lock_shared (a : Z) : iprog unit :=
  ok <- try_lock_shared_fast a false;;
  if ok : bool then Ret tt
  else result <- lock_shared_slow a false None;; assert_true result.

Definition try_lock_shared (a : Z) : iprog bool :=
  ok <- try_lock_shared_fast a false;;
  if ok : bool then Ret true else try_lock_shared_slow a false.

Definition unlock_shared (a : Z) : iprog unit :=
  state <- (if elision then elision_fetch_sub_release a ONE_READER
            else fetch_sub usize_bits a ONE_READER);;
  if Z.land state (Z.lor READERS_MASK WRITER_PARKED_BIT) =? Z.lor ONE_READER WRITER_PARKED_BIT
  then unlock_shared_slow a else Ret tt.

Definition unlock_shared_fair (a : Z) : iprog unit := unlock_shared a.

Definition bump_shared_slow (a : Z) : iprog unit := unlock_shared a;; lock_shared a.

Definition bump_shared (a : Z) : iprog unit :=
  state <- load a;;
  if has_bits state WRITER_BIT then bump_shared_slow a else Ret tt.

Definition try_lock_shared_for (a timeout : Z) : iprog bool :=
  ok <- try_lock_shared_fast a false;;
  if ok : bool then Ret true
  else deadline <- to_deadline timeout;; lock_shared_slow a false deadline.

Definition try_lock_shared_until (a timeout : Z) : iprog bool :=
  ok <- try_lock_shared_fast a false;;
  if ok : bool then Ret true else lock_shared_slow a false (Some timeout).

Definition lock_shared_recursive (a : Z) : iprog unit :=
  ok <- try_lock_shared_fast a true;;
  if ok : bool then Ret tt
  else result <- lock_shared_slow a true None;; assert_true result.

Definition try_lock_shared_recursive (a : Z) : iprog bool :=
  ok <- try_lock_shared_fast a true;;
  if ok : bool then Ret true else try_lock_shared_slow a true.

Definition try_lock_shared_recursive_for (a timeout : Z) : iprog bool :=
  ok <- try_lock_shared_fast a true;;
  if ok : bool then Ret true
  else deadline <- to_deadline timeout;; lock_shared_slow a true deadline.

Definition try_lock_shared_recursive_until (a timeout : Z) : iprog bool :=
  ok <- try_lock_shared_fast a true;;
  if ok : bool then Ret true else lock_shared_slow a true (Some timeout).

(** ** Upgradable locks *)

Definition lock_upgradable (a : Z) : iprog unit :=
  ok <- try_lock_upgradable_fast a;;
  if ok : bool then Ret tt
  else result <- lock_upgradable_slow a None;; assert_true result.

Definition try_lock_upgradable (a : Z) : iprog bool :=
  ok <- try_lock_upgradable_fast a;;
  if ok : bool then Ret true else try_lock_upgradable_slow a.

(** [unlock_upgradable]; [unlock_upgradable_fair] has the same body. *)
Definition unlock_upgradable (a : Z) : iprog unit :=
  state <- load a;;
  if negb (has_bits state PARKED_BIT) then
    r <- compare_exchange_weak a state (wrapping_sub usize_bits state ONE_UPGRADABLE);;
    if r.1 : bool then Ret tt else unlock_upgradable_slow a false
  else unlock_upgradable_slow a false.

Definition unlock_upgradable_fair (a : Z) : iprog unit :=
  state <- load a;;
  if negb (has_bits state PARKED_BIT) then
    r <- compare_exchange_weak a state (wrapping_sub usize_bits state ONE_UPGRADABLE);;
    if r.1 : bool then Ret tt else unlock_upgradable_slow a false
  else unlock_upgradable_slow a false.

Definition upgrade_slow (a : Z) (timeout : option Z) : iprog bool :=
  wait_for_readers a timeout ONE_UPGRADABLE.

Definition upgrade (a : Z) : iprog unit :=
  state <- fetch_sub usize_bits a (ONE_UPGRADABLE - WRITER_BIT);;
  if negb (Z.land state READERS_MASK =? ONE_READER)
  then result <- upgrade_slow a None;; assert_true result
  else Ret tt.

Definition try_upgrade_slow (a : Z) : iprog bool :=
  state <- load a;;
  Iter (λ state,
    if negb (Z.land state READERS_MASK =? ONE_READER) then Ret (inr false)
    else
      r <- compare_exchange_weak a state
             (wrapping_add usize_bits (wrapping_sub usize_bits state ONE_UPGRADABLE) WRITER_BIT);;
      Ret (if r.1 then inr true else inl r.2)) state.

Definition try_upgrade (a : Z) : iprog bool :=
  r <- compare_exchange_weak a ONE_UPGRADABLE WRITER_BIT;;
  if r.1 : bool then Ret true else try_upgrade_slow a.

Definition try_upgrade_until (a timeout : Z) : iprog bool :=
  state <- fetch_sub usize_bits a (ONE_UPGRADABLE - WRITER_BIT);;
  if Z.land state READERS_MASK =? ONE_READER then Ret true
  else upgrade_slow a (Some timeout).

Definition try_upgrade_for (a timeout : Z) : iprog bool :=
  state <- fetch_sub usize_bits a (ONE_UPGRADABLE - WRITER_BIT);;
  if Z.land state READERS_MASK =? ONE_READER then Ret true
  else deadline <- to_deadline timeout;; upgrade_slow a deadline.

Definition try_lock_upgradable_until (a timeout : Z) : iprog bool :=
  ok <- try_lock_upgradable_fast a;;
  if ok : bool then Ret true else lock_upgradable_slow a (Some timeout).

Definition try_lock_upgradable_for (a timeout : Z) : iprog bool :=
  ok <- try_lock_upgradable_fast a;;
  if ok : bool then Ret true
  else deadline <- to_deadline timeout;; lock_upgradable_slow a deadline.

Definition bump_upgradable_slow (a : Z) : iprog unit :=
  unlock_upgradable_slow a true;; lock_upgradable a.

Definition bump_upgradable (a : Z) : iprog unit :=
  state <- load a;;
  if has_bits state PARKED_BIT then bump_upgradable_slow a else Ret tt.

Definition downgrade_upgradable (a : Z) : iprog unit :=
  state <- fetch_sub usize_bits a UPGRADABLE_BIT;;
  if has_bits state PARKED_BIT then downgrade_slow a else Ret tt.

Definition downgrade_to_upgradable (a : Z) : iprog unit :=
  state <- fetch_add usize_bits a (ONE_UPGRADABLE - WRITER_BIT);;
  if has_bits state PARKED_BIT then downgrade_to_upgradable_slow a else Ret tt.

(** ** Queries *)

Definition is_locked (a : Z) : iprog bool :=
  state <- load a;; Ret (has_bits state (Z.lor WRITER_BIT READERS_MASK)).

Definition is_locked_exclusive (a : Z) : iprog bool :=
  state <- load a;; Ret (has_bits state WRITER_BIT).
End rwlock.
End RawRwLock.
