(* ===== verification/RwLockWord.v ===== *)
(** * The word of a RawRwLock and the locks it stands for

    The locks held on a RawRwLock are counted by kind: shared, upgradable, a
    writer that still waits for readers to leave, and a writer that has the
    lock.  This file relates the counts to the bits of the word: which bits
    each test of the code looks at, and what each update does to the counts. *)

From S2P Require Import Prelude Conc LotTypes SpinWait FairTimeout BucketQueue ParkingLot RawMutex RawRwLock.
Import RawRwLock.
Local Open Scope Z_scope.

(** ** Locks *)

Inductive perm := PS | PU | PP | PW.

#[export] Instance perm_eq_dec : EqDecision perm.
Proof. solve_decision. Defined.

(** What a lock adds to the word. *)
Definition pval (p : perm) : Z :=
  match p with
  | PS => ONE_READER
  | PU => ONE_UPGRADABLE
  | PP | PW => WRITER_BIT
  end.

(** The lock a parked thread asks for. *)
Definition tperm (token : ParkToken) : perm :=
  if token =? TOKEN_SHARED then PS else if token =? TOKEN_UPGRADABLE then PU else PP.

Definition token_ok (token : ParkToken) : Prop :=
  token = TOKEN_SHARED ∨ token = TOKEN_UPGRADABLE ∨ token = TOKEN_EXCLUSIVE.

Lemma pval_token tok : token_ok tok → pval (tperm tok) = tok.
Proof. by intros [->|[->| ->]]. Qed.

(** How many locks of a kind. *)
Definition cnt (p : perm) (l : list perm) : Z := Z.of_nat (length (filter (λ x, x = p) l)).

Lemma cnt_nil p : cnt p [] = 0.
Proof. done. Qed.
Lemma cnt_cons p x l : cnt p (x :: l) = (if decide (x = p) then 1 else 0) + cnt p l.
Proof.
  unfold cnt. destruct (decide (x = p)) as [E|E].
  - rewrite filter_cons_True by done. cbn [length]. lia.
  - by rewrite filter_cons_False.
Qed.
Lemma cnt_app p l l' : cnt p (l ++ l') = cnt p l + cnt p l'.
Proof. unfold cnt. rewrite filter_app, length_app. lia. Qed.
Lemma cnt_perm p l l' : l ≡ₚ l' → cnt p l = cnt p l'.
Proof. intros E. unfold cnt. by rewrite E. Qed.
Lemma cnt_nonneg p l : 0 ≤ cnt p l.
Proof. unfold cnt. lia. Qed.
Lemma cnt_length l : cnt PS l + cnt PU l + cnt PP l + cnt PW l = Z.of_nat (length l).
Proof.
  induction l as [|x l IH]; [done|]. rewrite !cnt_cons. cbn [length].
  destruct x; repeat (case_decide; try done); lia.
Qed.

Ltac cnt_simp := rewrite ?cnt_app, ?cnt_cons, ?cnt_nil;
  repeat (rewrite decide_True by done) || (rewrite decide_False by done).

(** ** The word *)

(** The word [v], but for its two parked bits, counts [s] shared locks, [u]
    upgradable ones, [p] waiting writers and [w] writers, which do not
    conflict. *)
Record wd (v s u p w : Z) : Prop := {
  wd_range : 0 ≤ v < 2 ^ 64;
  wd_sum : v - v mod 4 = 16 * s + 20 * u + 8 * p + 8 * w;
  wd_pos : 0 ≤ s ∧ 0 ≤ u ∧ 0 ≤ p ∧ 0 ≤ w;
  wd_one : u + p + w ≤ 1;
  wd_alone : 1 ≤ w → s = 0;
}.

Abbreviation wdl v l := (wd v (cnt PS l) (cnt PU l) (cnt PP l) (cnt PW l)).

Lemma mod4 v : 0 ≤ v mod 4 < 4.
Proof. by apply Z.mod_pos_bound. Qed.

(** The word split at its fourth bit. *)
Lemma wd_split v s u p w :
  wd v s u p w → v = 16 * (s + u) + (8 * (p + w) + 4 * u + v mod 4) ∧
  0 ≤ 8 * (p + w) + 4 * u + v mod 4 < 16.
Proof. intros [Hr Hs Hp H1 Ha]. pose proof (mod4 v). lia. Qed.

(** Disjoint bits: a high part and a low one. *)
Lemma land_shiftl n k r : 0 ≤ k → 0 ≤ r < 2 ^ k → Z.land (Z.shiftl n k) r = 0.
Proof.
  intros Hk Hr. apply Z.bits_inj'. intros i Hi. rewrite Z.land_spec, Z.bits_0.
  destruct (Z.lt_ge_cases i k); [by rewrite Z.shiftl_spec_low|].
  rewrite <- (Z.mod_small r (2 ^ k)), Z.mod_pow2_bits_high by lia. apply andb_false_r.
Qed.

Lemma lor_shiftl n k r : 0 ≤ k → 0 ≤ r < 2 ^ k → Z.lor (Z.shiftl n k) r = Z.shiftl n k + r.
Proof.
  intros Hk Hr. pose proof (land_shiftl n k r Hk Hr) as E.
  by rewrite Z.add_nocarry_lxor, Z.lxor_lor.
Qed.

Lemma land_nibble n r m : 0 ≤ r < 16 → 0 ≤ m < 16 → Z.land (16 * n + r) m = Z.land r m.
Proof.
  intros Hr Hm. assert (Hm' : m = Z.land (Z.ones 4) m).
  { rewrite Z.land_comm, Z.land_ones by lia. change (2 ^ 4) with 16. by rewrite Z.mod_small. }
  rewrite Hm', !Z.land_assoc, !Z.land_ones by lia. f_equal. change (2 ^ 4) with 16.
  rewrite Z.add_comm, Z.mul_comm, Z.mod_add by lia. done.
Qed.

(** A property of all words with given counts, from the sixteen low parts. *)
Ltac low_cases H v :=
  let E := fresh in let B := fresh in
  pose proof (wd_split _ _ _ _ _ H) as [E B];
  pose proof (mod4 v); pose proof (wd_pos _ _ _ _ _ H); pose proof (wd_one _ _ _ _ _ H).

Section bits.
Context {v s u p w : Z} (H : wd v s u p w).

Lemma low_part m : 0 ≤ m < 16 → Z.land v m = Z.land (8 * (p + w) + 4 * u + v mod 4) m.
Proof.
  intros Hm. low_cases H v.
  set (r := 8 * (p + w) + 4 * u + v mod 4) in *. rewrite H0. by apply land_nibble.
Qed.

(** The low part has one of eight values up to the parked bits. *)
Lemma low_values :
  ∃ x y f, u = Z.b2z x ∧ p + w = Z.b2z y ∧ v mod 4 = f ∧ (f = 0 ∨ f = 1 ∨ f = 2 ∨ f = 3) ∧
    x && y = false.
Proof.
  low_cases H v. exists (u =? 1), (p + w =? 1), (v mod 4).
  destruct (Z.eqb_spec u 1), (Z.eqb_spec (p + w) 1); cbn; lia.
Qed.

Lemma writer_bit : has_bits v WRITER_BIT = (p + w =? 1).
Proof.
  unfold has_bits. rewrite low_part by (unfold WRITER_BIT; lia).
  destruct low_values as (x & y & f & -> & -> & -> & Hf & _).
  destruct x, y, Hf as [->|[->|[->| ->]]]; reflexivity.
Qed.

Lemma upgradable_bit : has_bits v UPGRADABLE_BIT = (u =? 1).
Proof.
  unfold has_bits. rewrite low_part by (unfold UPGRADABLE_BIT; lia).
  destruct low_values as (x & y & f & -> & -> & -> & Hf & _).
  destruct x, y, Hf as [->|[->|[->| ->]]]; reflexivity.
Qed.

Lemma writer_or_upgradable : has_bits v (Z.lor WRITER_BIT UPGRADABLE_BIT) = (u + p + w =? 1).
Proof.
  change (Z.lor WRITER_BIT UPGRADABLE_BIT) with 12. unfold has_bits. rewrite low_part by lia.
  destruct low_values as (x & y & f & Ex & Ey & -> & Hf & Hxy).
  replace (u + p + w) with (Z.b2z x + Z.b2z y) by lia. rewrite Ex, Ey.
  destruct x, y, Hf as [->|[->|[->| ->]]]; try done.
Qed.

Lemma readers_part : Z.land v READERS_MASK = 16 * (s + u).
Proof.
  low_cases H v. change READERS_MASK with (Z.shiftl (Z.ones 60) 4).
  assert (E : v = Z.shiftl (s + u) 4 + (8 * (p + w) + 4 * u + v mod 4)).
  { rewrite Z.shiftl_mul_pow2 by lia. change (2 ^ 4) with 16. lia. }
  set (r := 8 * (p + w) + 4 * u + v mod 4) in *.
  assert (Hv : v = Z.lor (Z.shiftl (s + u) 4) r) by (rewrite lor_shiftl; lia).
  rewrite Hv, Z.land_lor_distr_l, <- Z.shiftl_land.
  assert (Er : Z.land r (Z.shiftl (Z.ones 60) 4) = 0) by (rewrite Z.land_comm; apply land_shiftl; lia).
  rewrite Er, Z.lor_0_r, Z.land_ones, Z.mod_small by (pose proof (wd_range _ _ _ _ _ H); lia).
  rewrite Z.shiftl_mul_pow2 by lia. change (2 ^ 4) with 16. lia.
Qed.

Lemma readers_bits : has_bits v READERS_MASK = negb (s + u =? 0).
Proof.
  unfold has_bits. rewrite readers_part. pose proof (wd_pos _ _ _ _ _ H).
  destruct (Z.eqb_spec (16 * (s + u)) 0), (Z.eqb_spec (s + u) 0); lia || done.
Qed.
End bits.

(** ** Updates of the parked bits *)

Lemma lor_small r m : 0 ≤ r < 4 → 0 ≤ m < 4 → 0 ≤ Z.lor r m < 4.
Proof.
  intros Hr Hm. assert (r = 0 ∨ r = 1 ∨ r = 2 ∨ r = 3) as Hf by lia.
  assert (m = 0 ∨ m = 1 ∨ m = 2 ∨ m = 3) as Hm' by lia.
  destruct Hf as [->|[->|[->| ->]]], Hm' as [->|[->|[->| ->]]]; vm_compute; split; congruence.
Qed.

Lemma lor_flags v m : 0 ≤ m < 4 → Z.lor v m = 4 * (v / 4) + Z.lor (v mod 4) m.
Proof.
  intros Hm. rewrite (Z.div_mod v 4) at 1 by lia.
  assert (Hl : ∀ r, 0 ≤ r < 4 → 4 * (v / 4) + r = Z.lor (Z.shiftl (v / 4) 2) r).
  { intros r Hr. rewrite lor_shiftl, Z.shiftl_mul_pow2 by lia. change (2 ^ 2) with 4. lia. }
  pose proof (mod4 v). rewrite (Hl (v mod 4)), <- Z.lor_assoc by lia. symmetry. apply Hl.
  by apply lor_small.
Qed.

(** Only the two parked bits differ. *)
Definition same_body (v v' : Z) : Prop := 0 ≤ v' ∧ v' / 4 = v / 4.

Lemma same_body_refl v : 0 ≤ v → same_body v v.
Proof. by split. Qed.

Lemma same_body_lor v m : 0 ≤ v → 0 ≤ m < 4 → same_body v (Z.lor v m).
Proof.
  intros Hv Hm. rewrite lor_flags by done. pose proof (mod4 v).
  pose proof (lor_small (v mod 4) m ltac:(done) Hm).
  assert (0 ≤ v / 4) by (apply Z.div_pos; lia).
  split; [lia|]. rewrite (Z.mul_comm 4), Z.div_add_l by lia. rewrite (Z.div_small (Z.lor _ _)) by done. lia.
Qed.

Lemma same_body_clear v m : 0 ≤ v → 0 ≤ m < 4 → same_body v (clear_bits v m).
Proof.
  intros Hv Hm. unfold clear_bits. split; [by apply Z.ldiff_nonneg; left|].
  change 4 with (2 ^ 2). rewrite <- !Z.shiftr_div_pow2 by lia. rewrite Z.shiftr_ldiff.
  assert (E : Z.shiftr m 2 = 0) by (rewrite Z.shiftr_div_pow2 by lia; by apply Z.div_small).
  by rewrite E, Z.ldiff_0_r.
Qed.

Lemma wd_same_body v v' s u p w : same_body v v' → wd v s u p w → wd v' s u p w.
Proof.
  intros [Hv E] [Hr Hs Hp H1 Ha].
  pose proof (Z.div_mod v 4 ltac:(lia)). pose proof (Z.div_mod v' 4 ltac:(lia)).
  pose proof (mod4 v). pose proof (mod4 v'). split; try done; [|lia].
  assert (v / 4 < 2 ^ 62) by (apply Z.div_lt_upper_bound; lia). lia.
Qed.

(** ** Updates of the counts *)

(** The word after adding [d], a multiple of four, to it. *)
Lemma wd_shift v d s u p w s' u' p' w' :
  wd v s u p w → d = 16 * (s' - s) + 20 * (u' - u) + 8 * (p' - p) + 8 * (w' - w) →
  0 ≤ s' ∧ 0 ≤ u' ∧ 0 ≤ p' ∧ 0 ≤ w' → u' + p' + w' ≤ 1 → (1 ≤ w' → s' = 0) →
  16 * s' + 20 * u' + 8 * p' + 8 * w' + 3 < 2 ^ 64 → wd (v + d) s' u' p' w'.
Proof.
  intros [Hr Hs Hp H1 Ha] -> Hp' H1' Ha' Hb. pose proof (mod4 v).
  set (d := 16 * (s' - s) + _ + _ + _).
  assert (E : (v + d) mod 4 = v mod 4).
  { replace (v + d) with (v + (4 * (s' - s) + 5 * (u' - u) + 2 * (p' - p) + 2 * (w' - w)) * 4)
      by (unfold d; lia). by rewrite Z.mod_add. }
  split; try done; rewrite ?E; unfold d; lia.
Qed.

Lemma wd_wrap v d s u p w : wd (v + d) s u p w → wrap 64 (v + d) = v + d.
Proof. intros [Hr _ _ _ _]. apply wrap_small. exact Hr. Qed.

Lemma wd_wrapped v v' s u p w : wd v s u p w → v' mod 2 ^ 64 = v mod 2 ^ 64 → wd (wrap 64 v') s u p w.
Proof.
  intros H E. unfold wrap. rewrite E, Z.mod_small by apply H. done.
Qed.

(** ** What the bits say to those who wait *)

(** Somebody may be parked on the lock; it is held by more than readers; a
    writer that waits for readers may sleep. *)
Definition parked (v : Z) : bool := has_bits v PARKED_BIT.
Definition taken (v : Z) : bool := has_bits v (Z.lor WRITER_BIT UPGRADABLE_BIT).
Definition awaited (v : Z) : bool := has_bits v READERS_MASK && has_bits v WRITER_PARKED_BIT.

(** The parked bits are in the lowest part of the word. *)
Lemma has_bits_mod4 v v' m : 0 ≤ m < 4 → v' mod 4 = v mod 4 → has_bits v' m = has_bits v m.
Proof.
  intros Hm E. assert (Hl : ∀ x, Z.land x m = Z.land (x mod 4) m).
  { intros x. change 4 with (2 ^ 2). rewrite <- Z.land_ones, <- Z.land_assoc by lia. f_equal.
    rewrite Z.land_comm, Z.land_ones, Z.mod_small by (change (2 ^ 2) with 4; lia). done. }
  unfold has_bits. by rewrite (Hl v'), (Hl v), E.
Qed.

Lemma wrap_mod4 v d : d mod 4 = 0 → wrap usize_bits (v + d) mod 4 = v mod 4.
Proof.
  intros Hd. unfold wrap, usize_bits. change (2 ^ 64) with (4 * 2 ^ 62).
  rewrite Z.rem_mul_r, Z.mul_comm, Z.mod_add by lia.
  rewrite Z.mod_mod by lia. rewrite <- Z.add_mod_idemp_r, Hd, Z.add_0_r by lia. done.
Qed.

(** Setting or clearing one bit does not touch the others. *)
Lemma has_bits_lor_other v m k : Z.land m k = 0 → has_bits (Z.lor v m) k = has_bits v k.
Proof. intros E. unfold has_bits. by rewrite Z.land_lor_distr_l, E, Z.lor_0_r. Qed.
Lemma has_bits_clear_other v m k : Z.land m k = 0 → has_bits (clear_bits v m) k = has_bits v k.
Proof.
  intros E. unfold has_bits, clear_bits. f_equal. f_equal. apply Z.bits_inj'. intros i Hi.
  rewrite !Z.land_spec, Z.ldiff_spec. apply (f_equal (λ x, Z.testbit x i)) in E.
  rewrite Z.land_spec, Z.bits_0 in E.
  by destruct (Z.testbit v i), (Z.testbit m i), (Z.testbit k i).
Qed.
Lemma has_bits_lor_self v m : 0 < m → has_bits (Z.lor v m) m = true.
Proof.
  intros Hm. unfold has_bits. rewrite Z.land_lor_distr_l, Z.land_diag.
  destruct (Z.eqb_spec (Z.lor (Z.land v m) m) 0) as [E|]; [|done]. apply Z.lor_eq_0_iff in E. lia.
Qed.

Lemma taken_count v s u p w : wd v s u p w → taken v = (u + p + w =? 1).
Proof. intros H. unfold taken. by rewrite (writer_or_upgradable H). Qed.

(** A lock that is more than a reader's shows in the word. *)
Lemma taken_own v l q : wdl v l → q ∈ l → q ≠ PS → taken v = true.
Proof.
  intros H Hq Hne. rewrite (taken_count _ _ _ _ _ H). apply Z.eqb_eq.
  pose proof (wd_one _ _ _ _ _ H). apply elem_of_Permutation in Hq as [l' E].
  pose proof (cnt_nonneg PU l'). pose proof (cnt_nonneg PP l'). pose proof (cnt_nonneg PW l').
  pose proof (cnt_perm PU _ _ E) as EU. pose proof (cnt_perm PP _ _ E) as EP.
  pose proof (cnt_perm PW _ _ E) as EW. rewrite !cnt_cons in EU, EP, EW.
  destruct q; [done|..]; repeat case_decide; try done; lia.
Qed.

Lemma taken_same v v' l l' :
  wdl v l → wdl v' l' → cnt PU l' + cnt PP l' + cnt PW l' = cnt PU l + cnt PP l + cnt PW l →
  taken v' = taken v.
Proof. intros H H' E. by rewrite (taken_count _ _ _ _ _ H), (taken_count _ _ _ _ _ H'), E. Qed.

Lemma taken_one v l : wdl v l → taken v = true → ∃ q, q ∈ l ∧ q ≠ PS.
Proof.
  intros H. rewrite (taken_count _ _ _ _ _ H). intros E%Z.eqb_eq. clear H.
  induction l as [|q l IH]; [by rewrite !cnt_nil in E|]. revert E. rewrite !cnt_cons.
  destruct (decide (q = PS)) as [->|Hq]; [|exists q; split; [by left|done]].
  repeat (rewrite decide_False by done). intros E. destruct IH as (q & Hq & Hne); [lia|].
  exists q. split; [by right|done].
Qed.
