(* ===== verification/RwLockWake.v ===== *)
(** * Who is woken when a RawRwLock is released, and the lock on its own

    [wake_parked_threads] decides with a filter, thread by thread, who shares
    the next phase of the lock.  The first part shows what the filter selects
    from a queue: all the readers up to the first writer, and exactly one
    writer or upgradable reader if there is one.  The second part shows what
    the operations that do not wait do to the word, run on their own. *)

From S2P Require Import Prelude Conc LotTypes SpinWait FairTimeout BucketQueue ParkingLot RawMutex RawRwLock RwLockWord.
Import RawRwLock.
Local Open Scope Z_scope.

(** ** The filter *)

(** The lock a queued thread asks for, and the token it parks with. *)
Inductive kind := KShared | KUpgradable | KExclusive.

Definition kind_token (k : kind) : ParkToken :=
  match k with
  | KShared => TOKEN_SHARED
  | KUpgradable => TOKEN_UPGRADABLE
  | KExclusive => TOKEN_EXCLUSIVE
  end.

#[export] Instance kind_eq_dec : EqDecision kind.
Proof. solve_decision. Defined.

(** The phase the lock enters: [s = 16 * n], plus [4] if an upgradable lock
    is held, plus [8] if a writer has it. *)
Definition phase_word (n : Z) (u w : bool) : Z :=
  16 * n + (if u then UPGRADABLE_BIT else 0) + (if w then WRITER_BIT else 0).

Lemma phase_bits n u w m :
  0 ≤ m < 16 →
  has_bits (phase_word n u w) m =
    has_bits ((if u then UPGRADABLE_BIT else 0) + (if w then WRITER_BIT else 0)) m.
Proof.
  intros Hm. unfold has_bits, phase_word. rewrite <- Z.add_assoc.
  rewrite land_nibble; [done| |done].
  destruct u, w; unfold UPGRADABLE_BIT, WRITER_BIT; lia.
Qed.

(** One step of the filter. *)
Lemma wake_filter_step n u w k :
  wake_filter (phase_word n u w) (kind_token k) =
    if w then (Stop, phase_word n u w)
    else match k with
         | KShared => (Unpark, phase_word (n + 1) u w)
         | KUpgradable => if u then (Skip, phase_word n u w) else (Unpark, phase_word (n + 1) true w)
         | KExclusive => if u then (Skip, phase_word n u w) else (Unpark, phase_word n u true)
         end.
Proof.
  unfold wake_filter. rewrite !phase_bits by (unfold WRITER_BIT, UPGRADABLE_BIT; lia).
  destruct w; [by destruct u|].
  assert (Hk : kind_token k = match k with KShared => 16 | KUpgradable => 20 | KExclusive => 8 end)
    by (by destruct k).
  rewrite Hk. destruct k, u; cbn -[phase_word]; try done; f_equal;
    unfold phase_word, UPGRADABLE_BIT, WRITER_BIT; lia.
Qed.

Section filter.
Context {T : Type} (κ : T → Z) (τ : T → kind) (a : Z).
Implicit Types (l ws rest : list T).

(** What the scan of the queue [l] must select, from a phase in which an
    upgradable lock is held or not ([u]): every reader, the first thread that
    asks for more unless [u], and nothing once a writer has been taken. *)
Fixpoint next_phase (u : bool) l : list T * list T :=
  match l with
  | [] => ([], [])
  | p :: l =>
      if decide (κ p = a) then
        match τ p with
        | KShared => let '(ws, r) := next_phase u l in (p :: ws, r)
        | KUpgradable =>
            if u then let '(ws, r) := next_phase u l in (ws, p :: r)
            else let '(ws, r) := next_phase true l in (p :: ws, r)
        | KExclusive =>
            if u then let '(ws, r) := next_phase u l in (ws, p :: r)
            else ([p], l)
        end
      else let '(ws, r) := next_phase u l in (ws, p :: r)
  end.

Definition count_readers ws : Z :=
  Z.of_nat (length (filter (λ p, τ p ≠ KExclusive) ws)).
Definition takes_upgradable ws : bool := bool_decide (Exists (λ p, τ p = KUpgradable) ws).
Definition takes_writer ws : bool := bool_decide (Exists (λ p, τ p = KExclusive) ws).

Lemma count_readers_cons p ws :
  count_readers (p :: ws) = count_readers ws + (if decide (τ p = KExclusive) then 0 else 1).
Proof.
  unfold count_readers. case_decide.
  - rewrite filter_cons_False by tauto. lia.
  - rewrite filter_cons_True by done. cbn [length]. lia.
Qed.

Lemma takes_cons p ws :
  takes_upgradable (p :: ws) = bool_decide (τ p = KUpgradable) || takes_upgradable ws ∧
  takes_writer (p :: ws) = bool_decide (τ p = KExclusive) || takes_writer ws.
Proof.
  unfold takes_upgradable, takes_writer. split; rewrite <- bool_decide_or;
    apply bool_decide_ext; by rewrite Exists_cons.
Qed.

(** After a writer has been taken the scan stops at the next thread of the
    lock. *)
Lemma filter_after_writer n u l :
  let '(ws, rest, more, s) :=
    Spec.unpark_filter κ (λ p, kind_token (τ p)) wake_filter a (phase_word n u true) l in
  ws = [] ∧ rest = l ∧ more = bool_decide (Exists (λ p, κ p = a) l) ∧ s = phase_word n u true.
Proof.
  induction l as [|p l IH]; cbn [Spec.unpark_filter].
  { rewrite bool_decide_false; [done|]. by intros ?%Exists_nil. }
  case_decide as Hp.
  - rewrite wake_filter_step. cbn. rewrite bool_decide_true; [done|]. by left.
  - destruct (Spec.unpark_filter κ _ wake_filter a _ l) as [[[ws rest] more] s].
    destruct IH as (-> & -> & -> & ->). split; [done|]. split; [done|]. split; [|done].
    apply bool_decide_ext. rewrite Exists_cons. tauto.
Qed.

(** The filter selects the next phase, and leaves its word. *)
Lemma filter_next_phase n u l :
  let '(ws, rest, more, s) :=
    Spec.unpark_filter κ (λ p, kind_token (τ p)) wake_filter a (phase_word n u false) l in
  (ws, rest) = next_phase u l ∧ more = bool_decide (Exists (λ p, κ p = a) rest) ∧
  s = phase_word (n + count_readers ws) (u || takes_upgradable ws) (takes_writer ws).
Proof.
  revert n u. induction l as [|p l IH]; intros n u; cbn [Spec.unpark_filter next_phase].
  { split; [done|]. split; [by rewrite bool_decide_false by (by intros ?%Exists_nil)|].
    change (count_readers []) with 0. change (takes_upgradable []) with false.
    change (takes_writer []) with false. by rewrite Z.add_0_r, orb_false_r. }
  (* the thread is passed over *)
  assert (Hskip : ∀ m, let '(ws, rest, more, s) := Spec.unpark_filter κ (λ p, kind_token (τ p))
      wake_filter a (phase_word n u false) l in
    (ws, p :: rest) = (let '(ws, r) := next_phase u l in (ws, p :: r)) ∧
    (m || more = (m || bool_decide (Exists (λ p, κ p = a) rest))) ∧
    s = phase_word (n + count_readers ws) (u || takes_upgradable ws) (takes_writer ws)).
  { intros m. specialize (IH n u).
    destruct (Spec.unpark_filter κ _ wake_filter a _ l) as [[[ws rest] more] s].
    destruct IH as (E & -> & ->). by rewrite <- E. }
  case_decide as Hp.
  2:{ specialize (Hskip false).
      destruct (Spec.unpark_filter κ _ wake_filter a _ l) as [[[ws rest] more] s].
      cbn [orb] in Hskip. destruct Hskip as (-> & -> & ->). split; [done|]. split; [|done].
      apply bool_decide_ext. rewrite Exists_cons. tauto. }
  rewrite wake_filter_step.
  (* the thread is taken, and the phase goes on *)
  assert (Htake : ∀ u', τ p ≠ KExclusive → (u' = (u || bool_decide (τ p = KUpgradable))) →
    let '(ws, rest, more, s) := Spec.unpark_filter κ (λ p, kind_token (τ p))
      wake_filter a (phase_word (n + 1) u' false) l in
    (p :: ws, rest) = (let '(ws, r) := next_phase u' l in (p :: ws, r)) ∧
    more = bool_decide (Exists (λ p, κ p = a) rest) ∧
    s = phase_word (n + count_readers (p :: ws)) (u || takes_upgradable (p :: ws))
          (takes_writer (p :: ws))).
  { intros u' Hk Hu'. specialize (IH (n + 1) u').
    destruct (Spec.unpark_filter κ _ wake_filter a _ l) as [[[ws rest] more] s].
    destruct IH as (E & -> & ->). rewrite <- E. split; [done|]. split; [done|].
    destruct (takes_cons p ws) as [-> ->]. rewrite count_readers_cons, decide_False by done.
    rewrite (bool_decide_false (τ p = KExclusive)) by done. rewrite Hu', orb_assoc.
    f_equal. lia. }
  (* the thread is skipped *)
  assert (Hskip' : let '(ws, rest, _, s) := Spec.unpark_filter κ (λ p, kind_token (τ p))
      wake_filter a (phase_word n u false) l in
    (ws, p :: rest) = (let '(ws, r) := next_phase u l in (ws, p :: r)) ∧
    true = bool_decide (Exists (λ p, κ p = a) (p :: rest)) ∧
    s = phase_word (n + count_readers ws) (u || takes_upgradable ws) (takes_writer ws)).
  { specialize (Hskip true).
    destruct (Spec.unpark_filter κ _ wake_filter a _ l) as [[[ws rest] more] s].
    destruct Hskip as (-> & _ & ->). split; [done|]. split; [|done].
    rewrite bool_decide_true; [done|]. by left. }
  clear Hskip. destruct (τ p) eqn:Ek.
  - clear Hskip'. specialize (Htake u ltac:(done)). rewrite bool_decide_false, orb_false_r in Htake by done.
    specialize (Htake eq_refl).
    destruct (Spec.unpark_filter κ _ wake_filter a _ l) as [[[ws rest] more] s]. exact Htake.
  - destruct u.
    + clear Htake.
      destruct (Spec.unpark_filter κ _ wake_filter a _ l) as [[[ws rest] more] s]. exact Hskip'.
    + clear Hskip'. specialize (Htake true ltac:(done) eq_refl).
      destruct (Spec.unpark_filter κ _ wake_filter a _ l) as [[[ws rest] more] s]. exact Htake.
  - destruct u.
    + clear Htake.
      destruct (Spec.unpark_filter κ _ wake_filter a _ l) as [[[ws rest] more] s]. exact Hskip'.
    + clear Hskip' Htake. pose proof (filter_after_writer n false l) as Hend.
      destruct (Spec.unpark_filter κ _ wake_filter a _ l) as [[[ws rest] more] s].
      destruct Hend as (-> & -> & -> & ->). split; [done|]. split; [done|].
      destruct (takes_cons p []) as [-> ->]. rewrite count_readers_cons, Ek, decide_True by done.
      change (count_readers []) with 0. cbn -[phase_word]. f_equal. lia.
Qed.

(** ** What a phase is *)

(** Of the threads that ask for more than a shared lock, a phase has the first
    one in the queue, if no upgradable lock is held, and none otherwise. *)
Lemma next_phase_more u l :
  filter (λ p, τ p ≠ KShared) (next_phase u l).1 =
  if u then [] else take 1 (filter (λ p, κ p = a ∧ τ p ≠ KShared) l).
Proof.
  revert u. induction l as [|p l IH]; intros u; cbn [next_phase]; [by destruct u|].
  pose proof (IH u) as IHu. pose proof (IH true) as IHt. case_decide as Hp.
  2:{ rewrite (filter_cons_False (λ p, κ p = a ∧ _)) by tauto. by destruct (next_phase u l). }
  destruct (τ p) eqn:Ek.
  - rewrite (filter_cons_False (λ p, κ p = a ∧ _)) by (rewrite Ek; tauto).
    destruct (next_phase u l) as [ws r]. cbn [fst] in *. by rewrite filter_cons_False by (rewrite Ek; tauto).
  - rewrite (filter_cons_True (λ p, κ p = a ∧ _)) by (split; [done|by rewrite Ek]).
    destruct u; destruct (next_phase true l) as [ws r]; [exact IHt|]. cbn [fst] in *. rewrite filter_cons_True by (by rewrite Ek). by rewrite IHt.
  - rewrite (filter_cons_True (λ p, κ p = a ∧ _)) by (split; [done|by rewrite Ek]).
    destruct u; [by destruct (next_phase true l)|]. cbn [fst]. by rewrite filter_cons_True by (by rewrite Ek).
Qed.

(** Without a writer in it, a phase leaves no reader behind. *)
Lemma next_phase_readers u l :
  let '(ws, rest) := next_phase u l in
  takes_writer ws = false → Forall (λ p, κ p = a → τ p ≠ KShared) rest.
Proof.
  revert u. induction l as [|p l IH]; intros u; cbn [next_phase]; [by constructor|].
  assert (Hskip : ∀ u', (κ p = a → τ p ≠ KShared) →
    let '(ws, rest) := (let '(ws, r) := next_phase u' l in (ws, p :: r)) in
    takes_writer ws = false → Forall (λ p, κ p = a → τ p ≠ KShared) rest).
  { intros u' Hp. specialize (IH u'). destruct (next_phase u' l) as [ws r].
    intros Hw. constructor; auto. }
  assert (Htake : ∀ u',
    let '(ws, rest) := (let '(ws, r) := next_phase u' l in (p :: ws, r)) in
    takes_writer ws = false → Forall (λ p, κ p = a → τ p ≠ KShared) rest).
  { intros u'. specialize (IH u'). destruct (next_phase u' l) as [ws r].
    destruct (takes_cons p ws) as [_ ->]. intros [_ Hw]%orb_false_iff. auto. }
  case_decide; [|by apply Hskip]. destruct (τ p) eqn:Ek; [apply Htake|destruct u|destruct u].
  - by apply Hskip.
  - apply Htake.
  - by apply Hskip.
  - destruct (takes_cons p []) as [_ ->]. by rewrite Ek.
Qed.
End filter.

(** C24: Releasing a RawRwLock wakes the right threads: from the queue of the
    lock, in order, the filter of [wake_parked_threads] selects exactly the next
    phase (every reader until a writer is taken, one writer or upgradable reader
    if none is held); the new state it computes counts the readers woken and has
    the bits of that phase; [have_more_threads] says whether a thread of the lock
    is left. If an upgradable lock is held, no writer and no upgradable reader is
    woken; if not, exactly one is, the first of them in the queue, if there is
    any. A phase that takes no writer leaves no reader behind, also of those that
    came after a writer it passes over. *)
Theorem wake_filter_selects {T} (κ : T → Z) (τ : T → kind) a n u (l : list T) :
  let '(ws, rest, more, s) :=
    Spec.unpark_filter κ (λ p, kind_token (τ p)) wake_filter a (phase_word n u false) l in
  (ws, rest) = next_phase κ τ a u l ∧
  s = phase_word (n + count_readers τ ws) (u || takes_upgradable τ ws) (takes_writer τ ws) ∧
  more = bool_decide (Exists (λ p, κ p = a) rest) ∧
  filter (λ p, τ p ≠ KShared) ws =
    (if u then [] else take 1 (filter (λ p, κ p = a ∧ τ p ≠ KShared) l)) ∧
  (takes_writer τ ws = false → Forall (λ p, κ p = a → τ p ≠ KShared) rest).
Proof.
  pose proof (filter_next_phase κ τ a n u l) as H.
  destruct (Spec.unpark_filter κ _ wake_filter a _ l) as [[[ws rest] more] s].
  destruct H as (E & -> & ->). split; [done|]. split; [done|]. split; [done|].
  pose proof (next_phase_more κ τ a u l) as H1. pose proof (next_phase_readers κ τ a u l) as H2.
  rewrite <- E in H1, H2. done.
Qed.

(** An upgradable reader, a writer and a reader wait: the writer is passed over. *)
Lemma wake_filter_selects_witness :
  let τ p := if bool_decide (p = 1) then KUpgradable else if bool_decide (p = 2) then KExclusive else KShared in
  Spec.unpark_filter (λ _, 8) (λ p, kind_token (τ p)) wake_filter 8 0 [1; 2; 3] = ([1; 3], [2], true, 36) ∧
  filter (λ p, τ p ≠ KShared) [1; 3] = [1].
Proof.
  intros τ. split; [vm_compute; reflexivity|].
  exact (proj1 (proj2 (proj2 (proj2 (wake_filter_selects (λ _, 8) τ 8 0 false [1; 2; 3]))))).
Defined.

(** ** The operations that do not wait, on their own *)

(** The word of the lock, and the state with another word. *)
Section solo.
Context (elision : bool) (t : tid) (a : Z).
Implicit Types (s : state) (v : Z).

Lemma cas_succeeds weak s v new :
  mem s a = v →
  returns exec t 0 (Act (ACas weak a v new) Ret) s (set_mem a new s) (true, v).
Proof.
  intros E. eapply returns_act; [|apply returns_ret]. cbn.
  by rewrite E, Z.eqb_refl, andb_false_r.
Qed.

Lemma cas_fails weak s v new :
  mem s a ≠ v →
  returns exec t 0 (Act (ACas weak a v new) Ret) s s (false, mem s a).
Proof.
  intros E. eapply returns_act; [|apply returns_ret]. cbn.
  rewrite andb_false_r. by destruct (Z.eqb_spec (mem s a) v).
Qed.

Lemma load_returns s : returns exec t 0 (load a) s s (mem s a).
Proof. unfold load. solo. Qed.

(** The next steps of a program, given what it has just read. *)
Ltac run1 H := eapply returns_bind; [exact H|]; cbn beta iota zeta delta [fst snd negb].

(** [try_lock_shared] on its own: it fails without a change exactly when
    a writer has the lock or waits for it; otherwise it counts one more reader;
    and it panics when the count would overflow. *)
Theorem try_lock_shared_solo s :
  let v := mem s a in
  if has_bits v WRITER_BIT then returns exec t 0 (try_lock_shared elision a) s s false
  else match checked_add usize_bits v ONE_READER with
       | Some v' => returns exec t 0 (try_lock_shared elision a) s (set_mem a v' s) true
       | None => panics exec t 0 (try_lock_shared elision a) s "RwLock reader count overflow"
       end.
Proof.
  intros v. unfold try_lock_shared, try_lock_shared_fast, try_lock_shared_slow.
  assert (Hb : shared_blocked false v = has_bits v WRITER_BIT)
    by (unfold shared_blocked; cbn; apply andb_true_r).
  pose proof (load_returns s) as Hl. fold v in Hl.
  destruct (has_bits v WRITER_BIT) eqn:Ew.
  - eapply returns_bind; [run1 Hl; rewrite Hb; solo|]. cbn beta iota.
    run1 Hl. eapply returns_iter; [rewrite Hb|]; solo.
  - destruct (checked_add usize_bits v ONE_READER) as [v'|] eqn:Ea.
    + eapply (returns_bind _ _ _ _ _ _ (set_mem a v' s) true); [|solo]. run1 Hl. rewrite Hb.
      destruct (elision && (v =? 0)) eqn:Ee.
      * apply andb_true_iff in Ee as [_ E0%Z.eqb_eq].
        assert (v' = ONE_READER) as -> by (apply checked_Some in Ea; lia).
        eapply returns_bind; [by apply cas_succeeds|solo].
      * rewrite Ea. eapply returns_bind; [by apply cas_succeeds|solo].
    + assert (E0 : (v =? 0) = false).
      { apply Z.eqb_neq. intros E. rewrite E in Ea. done. }
      eapply panics_after; [run1 Hl; rewrite Hb, E0, andb_false_r, Ea; solo|]. cbn beta iota.
      eapply panics_after; [exact Hl|]. apply panics_iter. rewrite Hb, E0, andb_false_r.
      apply panics_bind. unfold expect_add. rewrite Ea. exists s. apply rtc_refl.
Qed.
End solo.
