(* ===== verification/RwLockInv.v ===== *)
(** * The invariant of RawRwLock

    The locks that threads hold on reader-writer locks are ghost state: a list
    of owned locks ([perm]).  The word of each lock counts them, whoever owns
    them.  A thread's role says which locks it owns and where it is in the
    slow paths.  A lock handed over by a fair unlock belongs to the thread
    that wakes until it releases the woken one, and then to the woken one.  The
    role also says what the thread owes to those that wait ([duty]), which the
    invariant of [RwLockQueue] is about. *)

From S2P Require Import Prelude Conc LotTypes SpinWait FairTimeout BucketQueue ParkingLot LotInv RawMutex RawRwLock RwLockWord.
Import RawRwLock.
Local Open Scope Z_scope.

(** ** Owned locks *)

Abbreviation ghost := (list (tid * (Z * perm))).
Implicit Types (g : ghost) (a : Z) (p : perm) (t u w : tid).

(** The entries of one key: of a thread among the owned locks. *)
Definition own {K B} `{EqDecision K} (l : list (K * B)) (k : K) : list B :=
  (filter (λ x, x.1 = k) l).*2.
Definition at_addr a g : list perm := (filter (λ x, x.2.1 = a) g).*2.*2.

#[export] Instance own_proper {K B} `{EqDecision K} :
  Proper ((≡ₚ) ==> (=) ==> (≡ₚ)) (own (K := K) (B := B)).
Proof. intros l l' E k ? <-. unfold own. by rewrite E. Qed.
#[export] Instance at_addr_proper : Proper ((=) ==> (≡ₚ) ==> (≡ₚ)) at_addr.
Proof. intros a ? <- g g' E. unfold at_addr. by rewrite E. Qed.

Lemma own_app g g' t : own (g ++ g') t = own g t ++ own g' t.
Proof. unfold own. by rewrite filter_app, fmap_app. Qed.
Lemma at_addr_app a g g' : at_addr a (g ++ g') = at_addr a g ++ at_addr a g'.
Proof. unfold at_addr. by rewrite filter_app, !fmap_app. Qed.

Lemma own_mine t (l : list (Z * perm)) : own (pair t <$> l) t = l.
Proof.
  induction l as [|x l IH]; [done|]. unfold own in *.
  rewrite fmap_cons, filter_cons_True by done. cbn. by rewrite IH.
Qed.
Lemma own_other t u (l : list (Z * perm)) : u ≠ t → own (pair t <$> l) u = [].
Proof.
  intros Hu. induction l as [|x l IH]; [done|]. unfold own in *.
  rewrite fmap_cons, filter_cons_False by (cbn; congruence). done.
Qed.
Lemma at_addr_mine t a (l : list perm) : at_addr a (pair t <$> (pair a <$> l)) = l.
Proof.
  induction l as [|x l IH]; [done|]. unfold at_addr in *.
  rewrite !fmap_cons, filter_cons_True by done. cbn. by rewrite IH.
Qed.
Lemma at_addr_other t a a' (l : list perm) :
  a' ≠ a → at_addr a' (pair t <$> (pair a <$> l)) = [].
Proof.
  intros Ha. induction l as [|x l IH]; [done|]. unfold at_addr in *.
  rewrite !fmap_cons, filter_cons_False by (cbn; congruence). done.
Qed.

Lemma own_cons {K B} `{EqDecision K} (k : K) (y : B) (l : list (K * B)) (k' : K) :
  own ((k, y) :: l) k' = if decide (k = k') then y :: own l k' else own l k'.
Proof. unfold own. rewrite filter_cons. cbn. by destruct (decide (k = k')). Qed.

Lemma own_elem {K B} `{EqDecision K} (l : list (K * B)) (t : K) (x : B) : x ∈ own l t ↔ (t, x) ∈ l.
Proof.
  unfold own. rewrite list_elem_of_fmap. setoid_rewrite list_elem_of_filter. split.
  - by intros ([? ?] & -> & <- & ?).
  - intros Hx. by exists (t, x).
Qed.

(** A list of entries is contained in another if it is for each key. *)
Lemma own_submseteq {K B} `{EqDecision K} (l l' : list (K * B)) :
  (∀ k, own l k ⊆+ own l' k) → l ⊆+ l'.
Proof.
  revert l'. induction l as [|[k y] l IH]; intros l' H; [apply submseteq_nil_l|].
  assert (Hy : (k, y) ∈ l').
  { apply own_elem. eapply elem_of_submseteq; [|apply H]. rewrite own_cons, decide_True by done. by left. }
  apply elem_of_Permutation in Hy as [l0 E]. rewrite E. apply submseteq_skip, IH. intros k'.
  specialize (H k'). rewrite E, !own_cons in H. destruct (decide (k = k')); [|done].
  by apply (submseteq_app_inv_l _ _ [y]) in H.
Qed.

(** Some of what a thread owns, taken apart. *)
Lemma own_split g t (l1 l2 : list (Z * perm)) :
  own g t ≡ₚ l1 ++ l2 → ∃ g0, g ≡ₚ (pair t <$> l1) ++ g0 ∧ own g0 t ≡ₚ l2.
Proof.
  revert g. induction l1 as [|x l1 IH]; intros g E; [by exists g|].
  assert (Hx : (t, x) ∈ g) by (apply own_elem; rewrite E; set_solver).
  apply elem_of_Permutation in Hx as [g1 E1].
  assert (E2 : own g1 t ≡ₚ l1 ++ l2).
  { rewrite E1 in E. change ((t, x) :: g1) with ((pair t <$> [x]) ++ g1) in E.
    rewrite own_app, own_mine in E. cbn in E. by apply Permutation_cons_inv in E. }
  destruct (IH g1 E2) as (g0 & E3 & E4). exists g0. split; [|done].
  cbn. rewrite E1, E3. done.
Qed.

(** A thread replaces the locks [X] it owns at [a] by [Y]. *)
Lemma own_update g t a X Y rest :
  own g t ≡ₚ (pair a <$> X) ++ rest →
  ∃ g' l, own g' t ≡ₚ (pair a <$> Y) ++ rest ∧ (∀ u, u ≠ t → own g' u ≡ₚ own g u) ∧
    at_addr a g ≡ₚ X ++ l ∧ at_addr a g' ≡ₚ Y ++ l ∧
    (∀ a', a' ≠ a → at_addr a' g' ≡ₚ at_addr a' g).
Proof.
  intros E. destruct (own_split _ _ _ _ E) as (g0 & E0 & E1).
  exists ((pair t <$> (pair a <$> Y)) ++ g0), (at_addr a g0). repeat split.
  - by rewrite own_app, own_mine, E1.
  - intros u Hu. by rewrite E0, !own_app, !own_other.
  - by rewrite E0, at_addr_app, at_addr_mine.
  - by rewrite at_addr_app, at_addr_mine.
  - intros a' Ha. by rewrite E0, !at_addr_app, !at_addr_other.
Qed.

(** A thread gives a lock to another one. *)
Lemma own_move g t w (x : Z * perm) rest :
  t ≠ w → own g t ≡ₚ x :: rest →
  ∃ g', own g' t ≡ₚ rest ∧ own g' w ≡ₚ x :: own g w ∧
    (∀ u, u ≠ t → u ≠ w → own g' u ≡ₚ own g u) ∧ ∀ a, at_addr a g' ≡ₚ at_addr a g.
Proof.
  intros Hne E. destruct (own_split g t [x] rest E) as (g0 & E0 & E1).
  exists ((pair w <$> [x]) ++ g0). repeat split.
  - by rewrite own_app, own_other, E1.
  - by rewrite E0, !own_app, own_mine, own_other.
  - intros u Ht Hw. by rewrite E0, !own_app, !own_other.
  - intros a. rewrite E0, !at_addr_app. f_equiv. destruct x as [a' p].
    unfold at_addr. rewrite !list_fmap_singleton, !filter_cons, !filter_nil.
    cbn. by destruct (decide (a' = a)).
Qed.

(** No more locks than [m] for each of [n] threads. *)
Lemma own_bound (m n : nat) g :
  (∀ t, (length (own g t) ≤ m)%nat) → (∀ t, (n ≤ t)%nat → own g t = []) →
  (length g ≤ n * m)%nat.
Proof.
  revert g. induction n as [|n IH]; intros g Hm Hn.
  - destruct g as [|[t x] g]; [done|]. specialize (Hn t ltac:(lia)).
    exfalso. assert (Hx : x ∈ own ((t, x) :: g) t) by (apply own_elem; set_solver).
    rewrite Hn in Hx. by apply not_elem_of_nil in Hx.
  - set (g1 := filter (λ x : tid * (Z * perm), x.1 ≠ n) g).
    assert (Ho : ∀ t, own g1 t = if decide (t = n) then [] else own g t).
    { intros t. unfold own, g1. rewrite list_filter_filter. case_decide as Ht.
      - rewrite (list_filter_iff _ (λ _, False)) by naive_solver.
        clear. by induction g.
      - f_equal. apply list_filter_iff. naive_solver. }
    assert (H1 : (length g1 ≤ n * m)%nat).
    { apply IH; intros t; rewrite Ho; [case_decide; [cbn; lia|apply Hm]|].
      intros Ht. case_decide; [done|]. apply Hn. lia. }
    assert (H2 : length g = (length (own g n) + length g1)%nat).
    { unfold own, g1. rewrite length_fmap. clear. induction g as [|y g IHg]; [done|].
      rewrite !filter_cons. repeat case_decide; cbn [length]; try done; try lia. }
    specialize (Hm n). lia.
Qed.

(** ** Roles *)

(** Where a thread is in [park] and [unpark_*].  [k] is the key: the address
    of the lock, which is even, or the odd address after it for a writer that
    waits for readers to leave. *)
Inductive pc :=
| Run
| Lk (k : Z)  (* the bucket of [k] is locked *)
| WaitL (k : Z) (tok : ParkToken)  (* enqueued, with the bucket locked *)
| Wait (k : Z) (tok : ParkToken)  (* asleep, or on the way to it or back *)
| TimeL (k : Z) (tok : ParkToken)  (* the wait has expired; bucket locked again *)
| TimeQ (k : Z) (tok : ParkToken)  (* and the thread was still parked *)
| WokenL (k : Z) (tok : ParkToken)  (* the wait expired, but it had been unparked *)
| Woken (k : Z) (tok : ParkToken)  (* unparked *)
| Cust (k : Z) (ws : list (tid * ParkToken)) (gr : bool)
    (* the threads [ws] are dequeued; [gr]: the lock is handed to them *)
| CustT (k : Z) (w : tid) (tok : ParkToken) (ws : list (tid * ParkToken)) (gr : bool).
    (* and [w] has its unpark token *)

(** What a thread owes to the threads that wait, or knows of them ([RwLockQueue]). *)
Inductive duty :=
| Free
| Seen (k : Z) (more : bool)
    (* the bucket of [k] is locked; without [more], no thread is queued on [k] *)
| Coming (a : Z)  (* it will take the lock, find it held, or wake the threads on it *)
| Leaver (a : Z)  (* it will wake the writer that waits for readers *)
| Valid (k : Z).  (* it is about to queue itself on [k] *)

Record role := MkRole {
  rh : list (Z * perm);  (* the locks it owns *)
  rv : list (Z * guard);  (* the guards it has registered *)
  bud : nat;  (* how many operations it has left *)
  rpc : pc;
  dt : duty;
}.
Definition at_duty (r : role) (p : pc) (d : duty) : role := MkRole (rh r) (rv r) (bud r) p d.
Abbreviation at_pc r p := (at_duty r p Free).

Definition gperm (gd : guard) : perm :=
  match gd with GShared => PS | GUpgradable => PU | GExclusive => PW end.

(** The locks that guards stand for. *)
Definition vperms (gv : list (Z * guard)) : list (Z * perm) := (λ x, (x.1, gperm x.2)) <$> gv.

Section inv.
Context (bucket_of : Z → nat) (n lim : nat).
Implicit Types (s : state) (ρ : tid → role) (r : role) (k : Z).

Definition pc_hold (p : pc) : list nat :=
  match p with
  | Run | Wait _ _ | Woken _ _ => []
  | Lk k | WaitL k _ | TimeL k _ | TimeQ k _ | WokenL k _ | Cust k _ _ | CustT k _ _ _ _ =>
      [bucket_of k]
  end.
Definition pc_wait (p : pc) : bool :=
  match p with WaitL _ _ | Wait _ _ | TimeL _ _ | TimeQ _ _ => true | _ => false end.
Definition pc_cust (p : pc) : list tid :=
  match p with Cust _ ws _ => ws.*1 | CustT _ w _ ws _ => w :: ws.*1 | _ => [] end.

#[export] Instance rw_role_lot : LotRole role := {
  r_hold r := pc_hold (rpc r);
  r_wait r := pc_wait (rpc r);
  r_cust r := pc_cust (rpc r);
}.

(** The lock a woken thread finds it has been given. *)
Definition given (d : ThreadData) k (tok : ParkToken) : list (Z * perm) :=
  if Z.even k && (td_unpark_token d =? TOKEN_HANDOFF) then [(k, tperm tok)] else [].

(** The locks a thread owns by where it is. *)
Definition extra s t (p : pc) : list (Z * perm) :=
  match p with
  | Wait k tok | TimeL k tok => if td_parked (td s t) then [] else given (td s t) k tok
  | WokenL k tok | Woken k tok => given (td s t) k tok
  | Cust k ws true => (λ x, (k, tperm x.2)) <$> ws
  | CustT k w tok ws true => (λ x, (k, tperm x.2)) <$> ((w, tok) :: ws)
  | _ => []
  end.

Definition key_ok s t k (tok : ParkToken) : Prop :=
  td_key (td s t) = k ∧ td_park_token (td s t) = tok ∧ (Z.even k = true → token_ok tok).

Definition pc_ok s t (p : pc) : Prop :=
  match p with
  | Run | Lk _ | WokenL _ _ | Woken _ _ => True
  | WaitL k tok | TimeQ k tok => key_ok s t k tok ∧ td_parked (td s t) = true
  | Wait k tok | TimeL k tok => key_ok s t k tok
  | Cust k ws gr =>
      NoDup ws.*1 ∧ (gr = true → Z.even k = true) ∧
      ∀ x, x ∈ ws → td_key (td s x.1) = k ∧ td_park_token (td s x.1) = x.2
  | CustT k w tok ws gr =>
      NoDup (w :: ws.*1) ∧ (gr = true → Z.even k = true) ∧
      td_unpark_token (td s w) = (if gr then TOKEN_HANDOFF else TOKEN_NORMAL) ∧
      ∀ x, x ∈ (w, tok) :: ws → td_key (td s x.1) = k ∧ td_park_token (td s x.1) = x.2
  end.

Record RInv s g ρ : Prop := {
  ri_lot : LotInv bucket_of (bmutex s) (bqueue s) (td s) ρ;
  ri_own t : own g t ≡ₚ rh (ρ t) ++ extra s t (rpc (ρ t));
  ri_pc t : pc_ok s t (rpc (ρ t));
  ri_word a : Z.even a = true → wdl (mem s a) (at_addr a g);
  ri_live a t : own (live s a) t ≡ₚ own (rv (ρ t)) a;
  ri_rv t : vperms (rv (ρ t)) ⊆+ rh (ρ t);
  ri_bud t : (length (rh (ρ t)) + bud (ρ t) ≤ lim)%nat;
  ri_idle t : (n ≤ t)%nat → rh (ρ t) = [] ∧ rpc (ρ t) = Run;
}.

Lemma wdl_perm v l l' : l ≡ₚ l' → wdl v l → wdl v l'.
Proof. intros E. by rewrite !(cnt_perm _ _ _ E). Qed.

(** A thread in custody is asleep, and is not its keeper. *)
Lemma rw_cust_wait s g ρ t w :
  RInv s g ρ → w ∈ pc_cust (rpc (ρ t)) →
  w ≠ t ∧ (w < n)%nat ∧ td_parked (td s w) = true ∧
  ∃ k tok, rpc (ρ w) = Wait k tok ∧ key_ok s w k tok ∧
    ∀ u, u ≠ t → w ∉ pc_cust (rpc (ρ u)).
Proof.
  intros HI Hw. pose proof (ri_lot _ _ _ HI) as HL.
  destruct (li_cust _ _ _ _ _ HL t w Hw) as (Hwait & Hpk & Hq & Hh).
  assert (Hne : w ≠ t).
  { intros ->. cbn in Hwait. destruct (rpc (ρ t)); try done; by apply not_elem_of_nil in Hw. }
  split; [done|]. split.
  { destruct (decide (w < n)%nat); [done|]. destruct (ri_idle _ _ _ HI w ltac:(lia)) as [_ E].
    cbn in Hwait. by rewrite E in Hwait. }
  split; [done|]. pose proof (ri_pc _ _ _ HI w) as Hok.
  assert (Hno : bucket_of (td_key (td s w)) ∉ pc_hold (rpc (ρ w))).
  { intros Hin. apply Hne. exact (lot_hold_unique bucket_of _ _ _ _ _ _ _ HL Hin Hh). }
  cbn in Hwait. destruct (rpc (ρ w)) as [| |k tok|k tok|k tok|k tok| | | |]; try done; cbn in *.
  - destruct Hok as [(<- & _) _]. set_solver.
  - exists k, tok. split; [done|]. split; [done|]. intros u Hu Hin.
    destruct (li_cust _ _ _ _ _ HL u w Hin) as (_ & _ & _ & Hh').
    apply Hu. exact (lot_hold_unique bucket_of _ _ _ _ _ _ _ HL Hh' Hh).
  - destruct Hok as (<- & _). set_solver.
  - destruct Hok as [(<- & _) _]. set_solver.
Qed.

(** There are not many owned locks. *)
Lemma cust_length s g ρ t :
  RInv s g ρ → (length (extra s t (rpc (ρ t))) ≤ n + 1)%nat.
Proof.
  intros HI. assert (Hc : NoDup (pc_cust (rpc (ρ t)))).
  { pose proof (ri_pc _ _ _ HI t) as Hok.
    destruct (rpc (ρ t)); try (by apply NoDup_nil_2); by destruct Hok. }
  assert (Hl : (length (pc_cust (rpc (ρ t))) ≤ n)%nat).
  { rewrite <- (length_seq n 0). apply submseteq_length, NoDup_submseteq; [done|].
    intros w Hw. apply elem_of_seq. destruct (rw_cust_wait _ _ _ _ _ HI Hw) as (_ & ? & _). lia. }
  unfold extra, given. destruct (rpc (ρ t)) as [| | | | | | | |k ws []|k w tok ws []]; cbn in *;
    rewrite ?length_fmap in *; try lia; repeat case_match; cbn; lia.
Qed.

Lemma owned_bound s g ρ : RInv s g ρ → (length g ≤ n * (lim + n + 1))%nat.
Proof.
  intros HI. apply own_bound.
  - intros t. rewrite (ri_own _ _ _ HI t), length_app.
    pose proof (cust_length _ _ _ t HI). pose proof (ri_bud _ _ _ HI t). lia.
  - intros t Ht. destruct (ri_idle _ _ _ HI t Ht) as [E1 E2].
    apply Permutation_nil. pose proof (ri_own _ _ _ HI t) as E. rewrite E1, E2 in E. by symmetry.
Qed.

Lemma at_addr_length a g : (length (at_addr a g) ≤ length g)%nat.
Proof. unfold at_addr. rewrite !length_fmap. apply length_filter. Qed.

(** ** Steps *)

(** Is thread [u] the one that takes the step? *)
Ltac me_or t u := destruct (decide (t = u)) as [<-|?]; fn_simp.

Lemma extra_td s s' t (x : pc) : td s' = td s → extra s' t x = extra s t x.
Proof. intros E. unfold extra. by rewrite E. Qed.
Lemma pc_ok_td s s' t (x : pc) : td s' = td s → pc_ok s' t x = pc_ok s t x.
Proof. intros E. unfold pc_ok, key_ok. by rewrite E. Qed.

(** A step of [t] that leaves the data of the threads alone. *)
Lemma r_step s g ρ t r s' g' :
  RInv s g ρ → td s' = td s →
  LotInv bucket_of (bmutex s') (bqueue s') (td s') (<[t := r]> ρ) →
  own g' t ≡ₚ rh r ++ extra s t (rpc r) → (∀ u, u ≠ t → own g' u ≡ₚ own g u) →
  (∀ a, Z.even a = true → wdl (mem s' a) (at_addr a g')) → pc_ok s t (rpc r) →
  (∀ a u, own (live s' a) u ≡ₚ if decide (u = t) then own (rv r) a else own (live s a) u) →
  vperms (rv r) ⊆+ rh r →
  (length (rh r) + bud r ≤ lim)%nat → (t < n)%nat → RInv s' g' (<[t := r]> ρ).
Proof.
  intros HI Ed HL Ho Hoth Hw Hpc Hlv Hrv Hb Ht. destruct HI. split; try done.
  - intros u. rewrite (extra_td s) by done. fn_cases t u; [done|].
    rewrite Hoth by done. apply ri_own0.
  - intros u. rewrite (pc_ok_td s) by done. by fn_cases t u.
  - intros a u. rewrite Hlv. destruct (decide (u = t)) as [->|]; fn_simp; [done|]. apply ri_live0.
  - intros u. fn_cases t u; auto.
  - intros u. fn_cases t u; auto.
  - intros u. fn_cases t u; auto. lia.
Qed.

(** The role changes, and at most the buckets. *)
Lemma r_pc s g ρ t r s' :
  RInv s g ρ → mem s' = mem s → td s' = td s → live s' = live s →
  LotInv bucket_of (bmutex s') (bqueue s') (td s') (<[t := r]> ρ) →
  rh r ++ extra s t (rpc r) ≡ₚ rh (ρ t) ++ extra s t (rpc (ρ t)) →
  rh (ρ t) ⊆+ rh r → rv r = rv (ρ t) → (length (rh r) + bud r ≤ lim)%nat →
  pc_ok s t (rpc r) → (t < n)%nat → RInv s' g (<[t := r]> ρ).
Proof.
  intros HI Em Ed El HL Ee Eh Ev Eb Hpc Ht. apply (r_step s g); try done.
  - by rewrite Ee, (ri_own _ _ _ HI t).
  - intros a Ha. rewrite Em. by apply (ri_word _ _ _ HI).
  - intros a u. rewrite El. destruct (decide (u = t)) as [->|]; [|done].
    rewrite Ev. apply (ri_live _ _ _ HI).
  - rewrite Ev, <- Eh. apply (ri_rv _ _ _ HI).
Qed.

(** The word of [a] changes, and the locks the thread owns there. *)
Lemma r_word s g ρ t r a v X Y rest :
  RInv s g ρ → (t < n)%nat →
  pc_hold (rpc r) = pc_hold (rpc (ρ t)) → pc_wait (rpc r) = pc_wait (rpc (ρ t)) →
  pc_cust (rpc r) = pc_cust (rpc (ρ t)) →
  rh (ρ t) ++ extra s t (rpc (ρ t)) ≡ₚ (pair a <$> X) ++ rest →
  rh r ++ extra s t (rpc r) ≡ₚ (pair a <$> Y) ++ rest →
  pc_ok s t (rpc r) → rv r = rv (ρ t) → vperms (rv r) ⊆+ rh r →
  (length (rh r) + bud r ≤ lim)%nat →
  (∀ l, (length (X ++ l) ≤ n * (lim + n + 1))%nat → wdl (mem s a) (X ++ l) → wdl v (Y ++ l)) →
  ∃ g', RInv (set_mem a v s) g' (<[t := r]> ρ).
Proof.
  intros HI Ht Eh Ew Ec E1 E2 Hpc Ev Hrv Hb Htr.
  pose proof (ri_own _ _ _ HI t) as Eo. rewrite E1 in Eo.
  destruct (own_update g t a X Y rest Eo) as (g' & l & Eo' & Hoth & Ea & Ea' & Hadr).
  exists g'. apply (r_step s g); try done.
  - apply lot_role; [apply HI|done..].
  - by rewrite E2.
  - intros a' Ha. cbn. rewrite fn_insert_case. destruct (decide (a = a')) as [<-|Hne].
    + apply (wdl_perm _ (Y ++ l)); [by symmetry|]. apply Htr.
      * rewrite <- Ea. pose proof (at_addr_length a g). pose proof (owned_bound _ _ _ HI). lia.
      * eapply wdl_perm; [exact Ea|]. by apply (ri_word _ _ _ HI).
    + eapply wdl_perm; [symmetry; by apply Hadr|]. by apply (ri_word _ _ _ HI).
  - intros a' u. cbn. destruct (decide (u = t)) as [->|]; [|done].
    rewrite Ev. apply (ri_live _ _ _ HI).
Qed.

(** The thread queues itself. *)
Lemma r_enqueue s g ρ t r k tok timed :
  RInv s g ρ → (t < n)%nat → ρ t = r → rpc r = Lk k → (Z.even k = true → token_ok tok) →
  RInv (set_bqueue (bucket_of k) (bqueue s (bucket_of k) ++ [t])
          (set_td t (MkTD k (td_unpark_token (td s t)) tok timed true) s))
    g (<[t := at_pc r (WaitL k tok)]> ρ).
Proof.
  intros HI Ht Hr Hpc Htok. pose proof HI as [I1 I2 I3 I4 I5 I6 I7 I8].
  assert (Hnc : ∀ u, t ∉ pc_cust (rpc (ρ u))).
  { intros u Hu. destruct (rw_cust_wait _ _ _ _ _ HI Hu) as (_ & _ & _ & ? & ? & E & _).
    rewrite Hr, Hpc in E. done. }
  split; cbn [mem bmutex bqueue td live set_bqueue set_td]; try done.
  - apply lot_enqueue; [done|..]; cbn; by rewrite ?Hr, ?Hpc.
  - intros u. rewrite (I2 u). me_or t u.
    + by rewrite Hr, Hpc.
    + apply Permutation_app_head. unfold extra. cbn. by fn_simp.
  - intros u. me_or t u; [cbn; unfold key_ok; cbn; by fn_simp|].
    specialize (I3 u). specialize (Hnc u).
    unfold pc_ok, key_ok in *. cbn. destruct (rpc (ρ u)); cbn in *; try done; fn_simp; try done.
    + destruct I3 as (? & ? & Hx). split; [done|]. split; [done|]. intros x Hin.
      assert (t ≠ x.1) by (intros ->; apply Hnc; by apply list_elem_of_fmap_2). fn_simp. auto.
    + destruct I3 as (? & ? & Hw & Hx). assert (t ≠ w) by set_solver. fn_simp.
      split; [done|]. split; [done|]. split; [done|]. intros x Hin.
      assert (t ≠ x.1); [|by fn_simp; auto]. intros ->. apply Hnc.
      change (x.1 ∈ ((w, tok0) :: ws).*1). by apply list_elem_of_fmap_2.
  - intros a u. me_or t u; rewrite ?Hr; [cbn; rewrite <- Hr|]; apply I5.
  - intros u. me_or t u; [cbn; rewrite <- Hr; apply I6|apply I6].
  - intros u. me_or t u; [cbn; rewrite <- Hr; apply I7|apply I7].
  - intros u. me_or t u; [lia|apply I8].
Qed.

(** The data of [w] changes; [w] is in the custody of [t]. *)
Lemma pc_ok_frame s u w d (x : pc) :
  u ≠ w → w ∉ pc_cust x → pc_ok s u x → pc_ok (set_td w d s) u x.
Proof.
  intros Hu Hw Hok. unfold pc_ok, key_ok in *. cbn.
  destruct x as [| | | | | | | |k ws gr|k w' tok ws gr]; cbn in *; fn_simp; try done.
  - destruct Hok as (? & ? & Hx). split; [done|]. split; [done|]. intros y Hy.
    assert (w ≠ y.1) by (intros ->; apply Hw; by apply list_elem_of_fmap_2). fn_simp. auto.
  - destruct Hok as (? & ? & Hw' & Hx). assert (w ≠ w') by set_solver. fn_simp.
    split; [done|]. split; [done|]. split; [done|]. intros y Hy.
    assert (w ≠ y.1); [|by fn_simp; auto]. intros ->. apply Hw.
    change (y.1 ∈ ((w', tok) :: ws).*1). by apply list_elem_of_fmap_2.
Qed.

Lemma extra_frame s u w d (x : pc) : u ≠ w → extra (set_td w d s) u x = extra s u x.
Proof. intros Hu. unfold extra. cbn. by rewrite fn_insert_ne. Qed.

(** The keeper [t] changes its place and the data of [w]; [g'] differs from [g]
    in what [t] and [w] own. *)
Lemma r_cust s g g' ρ t r w d k tok :
  RInv s g ρ → (t < n)%nat → w ∈ pc_cust (rpc (ρ t)) →
  td_key d = td_key (td s w) → td_park_token d = td_park_token (td s w) →
  rpc (ρ w) = Wait k tok → key_ok s w k tok →
  LotInv bucket_of (bmutex s) (bqueue s) (<[w := d]> (td s)) (<[t := r]> ρ) →
  own g' t ≡ₚ rh r ++ extra (set_td w d s) t (rpc r) →
  own g' w ≡ₚ rh (ρ w) ++ extra (set_td w d s) w (Wait k tok) →
  (∀ u, u ≠ t → u ≠ w → own g' u ≡ₚ own g u) → (∀ a, at_addr a g' ≡ₚ at_addr a g) →
  pc_ok (set_td w d s) t (rpc r) → rv r = rv (ρ t) → rh r = rh (ρ t) → bud r = bud (ρ t) →
  RInv (set_td w d s) g' (<[t := r]> ρ).
Proof.
  intros HI Ht Hw Dk Dp Ew Hk HL Ho How Hoth Hadr Hpc Ev Eh Eb.
  destruct (rw_cust_wait _ _ _ _ _ HI Hw) as (Hne & _ & _ & _ & _ & _ & _ & Hnc).
  pose proof HI as [I1 I2 I3 I4 I5 I6 I7 I8].
  split; cbn [mem bmutex bqueue td live set_td]; try done.
  - intros u. me_or t u; [done|]. destruct (decide (u = w)) as [->|Hu]; [by rewrite Ew|].
    rewrite extra_frame, Hoth by done. apply I2.
  - intros u. me_or t u; [done|]. destruct (decide (u = w)) as [->|Hu].
    + rewrite Ew. unfold pc_ok, key_ok. cbn. fn_simp. rewrite Dk, Dp. exact Hk.
    + apply pc_ok_frame; [done|by apply Hnc|apply I3].
  - intros a Ha. eapply wdl_perm; [symmetry; apply Hadr|]. by apply I4.
  - intros a u. me_or t u; [rewrite Ev|]; apply I5.
  - intros u. me_or t u; [rewrite Ev, Eh|]; apply I6.
  - intros u. me_or t u; [rewrite Eb, Eh|]; apply I7.
  - intros u. me_or t u; [lia|apply I8].
Qed.

Lemma r_set_token s g ρ t r k w tok ws gr :
  let d := td s w in let tk := if gr : bool then TOKEN_HANDOFF else TOKEN_NORMAL in
  RInv s g ρ → (t < n)%nat → ρ t = r → rpc r = Cust k ((w, tok) :: ws) gr →
  RInv (set_td w (MkTD (td_key d) tk (td_park_token d) (td_timed d) (td_parked d)) s) g
    (<[t := at_pc r (CustT k w tok ws gr)]> ρ).
Proof.
  intros d tk HI Ht Hr Hpc.
  assert (Hw : w ∈ pc_cust (rpc (ρ t))) by (rewrite Hr, Hpc; cbn; set_solver).
  destruct (rw_cust_wait _ _ _ _ _ HI Hw) as (Hne & _ & Hpk & k' & tok' & Ew & Hk & _).
  pose proof (ri_pc _ _ _ HI t) as Hok. rewrite Hr, Hpc in Hok. destruct Hok as (Hnd & He & Hx).
  eapply (r_cust s g g); try done; cbn; rewrite ?Hr; try done.
  - apply lot_data; [|done..]. apply lot_role; [apply HI|..]; cbn; by rewrite Hr, Hpc.
  - rewrite (ri_own _ _ _ HI t), Hr, Hpc. done.
  - rewrite (ri_own _ _ _ HI w), Ew. cbn. fn_simp. cbn. unfold d. by rewrite Hpk.
  - split; [done|]. split; [done|]. split; [by fn_simp|]. intros x Hin.
    destruct (Hx x Hin) as [E1 E2]. destruct (decide (w = x.1)) as [E|]; fn_simp; [|done].
    rewrite <- E in *. fn_simp. done.
Qed.

Lemma r_unpark_lock s g ρ t r k w tok ws gr :
  let d := td s w in
  RInv s g ρ → (t < n)%nat → ρ t = r → rpc r = CustT k w tok ws gr →
  ∃ g', RInv (set_td w (MkTD (td_key d) (td_unpark_token d) (td_park_token d) (td_timed d) false) s)
    g' (<[t := at_pc r (Cust k ws gr)]> ρ).
Proof.
  intros d HI Ht Hr Hpc.
  assert (Hw : w ∈ pc_cust (rpc (ρ t))) by (rewrite Hr, Hpc; cbn; set_solver).
  destruct (rw_cust_wait _ _ _ _ _ HI Hw) as (Hne & _ & Hpk & k' & tok' & Ew & Hk & _).
  pose proof (ri_pc _ _ _ HI t) as Hok. rewrite Hr, Hpc in Hok.
  destruct Hok as (Hnd & He & Htk & Hx).
  destruct (Hx (w, tok) ltac:(set_solver)) as [Kw Tw]. cbn in Kw, Tw.
  pose proof Hk as (Kw' & Tw' & _). assert (k' = k) as -> by congruence.
  assert (tok' = tok) as -> by congruence.
  apply NoDup_cons in Hnd as [Hnw Hnd].
  pose proof (ri_own _ _ _ HI t) as Eo. rewrite Hr, Hpc in Eo.
  pose proof (ri_own _ _ _ HI w) as Eow. rewrite Ew in Eow. cbn in Eow.
  rewrite Hpk, app_nil_r in Eow.
  assert (HL : LotInv bucket_of (bmutex s) (bqueue s)
    (<[w := MkTD (td_key d) (td_unpark_token d) (td_park_token d) (td_timed d) false]> (td s))
    (<[t := at_pc r (Cust k ws gr)]> ρ)).
  { eapply lot_wake; [apply HI|exact Hw|done|done|..]; cbn; rewrite ?Hr, ?Hpc; [done|done|].
    cbn. set_solver. }
  assert (Hpc' : pc_ok (set_td w (MkTD (td_key d) (td_unpark_token d) (td_park_token d)
     (td_timed d) false) s) t (Cust k ws gr)).
  { cbn. split; [done|]. split; [done|]. intros x Hin.
    assert (w ≠ x.1); [|fn_simp; apply Hx; by right]. intros ->. apply Hnw.
    by apply list_elem_of_fmap_2. }
  destruct gr.
  - cbn in Eo. rewrite <- Permutation_middle in Eo.
    destruct (own_move g t w _ _ (not_eq_sym Hne) Eo) as (g' & O1 & O2 & O3 & O4).
    exists g'. eapply (r_cust s g); try done; cbn; rewrite ?Hr; try done.
    rewrite O2, Eow. fn_simp. cbn. unfold given. cbn. unfold d. rewrite Htk, He by done. cbn.
    by rewrite Permutation_app_comm.
  - exists g. eapply (r_cust s g); try done; cbn; rewrite ?Hr; try done.
    rewrite Eow. fn_simp. cbn. unfold given. cbn. unfold d. rewrite Htk.
    cbn. rewrite andb_false_r. by rewrite app_nil_r.
Qed.
End inv.
