(* ===== verification/RwLockQueue.v ===== *)
(** * Nobody waits in vain for a RawRwLock

    A second invariant beside that of [RwLockInv], on the threads that are
    queued.  A thread on the queue of a lock finds [PARKED_BIT] set, and the
    lock held by more than readers, unless another thread is coming: one that
    has been woken to ask for more than a shared lock, or is about to wake
    threads.  A writer that waits for the readers finds [WRITER_PARKED_BIT] set
    and readers left, unless the last one is about to wake it.  The [duty] of a
    thread says what it owes. *)

From S2P Require Import Prelude Conc LotTypes SpinWait FairTimeout BucketQueue ParkingLot LotInv RawMutex RawRwLock RwLockWord RwLockInv.
Import RawRwLock.
Local Open Scope Z_scope.

Section queue.
Context (bucket_of : Z → nat) (n lim : nat).
Implicit Types (s : state) (g : ghost) (ρ : tid → role) (r : role) (a k v : Z) (t u w : tid).

(** ** Who waits, and who comes *)

Definition queued s u k : Prop := u ∈ bqueue s (bucket_of k) ∧ td_key (td s u) = k.
Definition waits s ρ u k : Prop := queued s u k ∨ dt (ρ u) = Valid k.

(** Woken for [a], not with the lock in hand, to ask for more than to read. *)
Definition woken_for s u k (tok : ParkToken) a : Prop :=
  k = a ∧ tok ≠ TOKEN_SHARED ∧ td_unpark_token (td s u) ≠ TOKEN_HANDOFF.
Definition wakes k (ws : list (tid * ParkToken)) a : Prop :=
  k = a ∧ ∃ x, x ∈ ws ∧ x.2 ≠ TOKEN_SHARED.

Definition coming s u r a : Prop :=
  dt r = Coming a ∨
  match rpc r with
  | Wait k tok | TimeL k tok => td_parked (td s u) = false ∧ woken_for s u k tok a
  | WokenL k tok | Woken k tok => woken_for s u k tok a
  | Cust k ws false => wakes k ws a
  | CustT k w tok ws false => wakes k ((w, tok) :: ws) a
  | _ => False
  end.

(** The locks of a thread that sleeps are those of its guards, and the one of a
    writer that waits for readers. *)
Definition calm r k : Prop :=
  rh r ≡ₚ if Z.even k then vperms (rv r) else (k - 1, PP) :: vperms (rv r).

Definition duty_ok s r : Prop :=
  match dt r with
  | Free => True
  | Seen k more => bucket_of k ∈ pc_hold bucket_of (rpc r) ∧ (more = false → ∀ u, ¬ queued s u k)
  | Coming a => rpc r = Run ∨ rpc r = Lk a
  | Leaver a => rpc r = Run ∨ rpc r = Lk (a + 1)
  | Valid k => rpc r = Lk k ∧ calm r k
  end ∧
  match rpc r with
  | WaitL k _ | Wait k _ | TimeL k _ | TimeQ k _ => dt r = Free ∧ calm r k
  | _ => True
  end.

Record QInv s ρ : Prop := {
  q_parked a u : Z.even a = true → waits s ρ u a → parked (mem s a) = true;
  q_cover a u : Z.even a = true → waits s ρ u a →
    taken (mem s a) = true ∨ ∃ w, coming s w (ρ w) a;
  q_readers a u : Z.even a = true → waits s ρ u (a + 1) →
    awaited (mem s a) = true ∨ ∃ w, dt (ρ w) = Leaver a;
  q_duty t : duty_ok s (ρ t);
}.

Definition RwInv s g ρ : Prop := RInv bucket_of n lim s g ρ ∧ QInv s ρ.

Abbreviation rinv := (RInv bucket_of n lim).

(** ** Who waits alone *)

Lemma even_odd a : Z.even a = true → Z.even (a + 1) = false.
Proof. intros Ha. by rewrite Z.even_add, Ha. Qed.

Lemma waits_calm s g ρ u k : rinv s g ρ → QInv s ρ → waits s ρ u k → calm (ρ u) k.
Proof.
  intros HI HQ [[Hq Hk]|Hv].
  - destruct (li_queue _ _ _ _ _ (ri_lot _ _ _ _ _ _ HI) _ _ Hq) as (Hw & _).
    pose proof (ri_pc _ _ _ _ _ _ HI u) as Hok. destruct (q_duty _ _ HQ u) as [_ Hd].
    cbn in Hw. destruct (rpc (ρ u)); try done; cbn in Hok; unfold key_ok in Hok; destruct Hd as [_ Hd];
      naive_solver.
  - destruct (q_duty _ _ HQ u) as [Hd _]. rewrite Hv in Hd. tauto.
Qed.

(** Two threads do not own locks of one address that are both more than shared. *)
Lemma own_two s g ρ a t u p q :
  rinv s g ρ → Z.even a = true → t ≠ u → (a, p) ∈ own g t → (a, q) ∈ own g u →
  p ≠ PS → q ≠ PS → False.
Proof.
  intros HI Ha Hne Hp Hq Hp' Hq'.
  apply (proj1 (own_elem g t (a, p))) in Hp. apply (proj1 (own_elem g u (a, q))) in Hq.
  pose proof (wd_one _ _ _ _ _ (ri_word _ _ _ _ _ _ HI a Ha)) as H1.
  apply elem_of_Permutation in Hp as [g1 E1]. rewrite E1 in Hq.
  apply elem_of_cons in Hq as [[=]|Hq]; [congruence|].
  apply elem_of_Permutation in Hq as [g2 E2]. rewrite E2 in E1.
  assert (E : at_addr a g ≡ₚ p :: q :: at_addr a g2).
  { rewrite E1. unfold at_addr. by rewrite !filter_cons_True. }
  pose proof (cnt_perm PU _ _ E) as EU. pose proof (cnt_perm PP _ _ E) as EP.
  pose proof (cnt_perm PW _ _ E) as EW. rewrite !cnt_cons in EU, EP, EW.
  pose proof (cnt_nonneg PU (at_addr a g2)). pose proof (cnt_nonneg PP (at_addr a g2)).
  pose proof (cnt_nonneg PW (at_addr a g2)).
  destruct p, q; try done; repeat case_decide; try done; lia.
Qed.

Lemma waits_owns s g ρ u a :
  rinv s g ρ → QInv s ρ → Z.even a = true → waits s ρ u (a + 1) → (a, PP) ∈ own g u.
Proof.
  intros HI HQ Ha Hw. pose proof (waits_calm _ _ _ _ _ HI HQ Hw) as Hc. unfold calm in Hc.
  rewrite even_odd in Hc by done. rewrite Z.add_simpl_r in Hc.
  rewrite (ri_own _ _ _ _ _ _ HI u), Hc. set_solver.
Qed.

(** Only the thread that owns more than a shared lock waits for the readers. *)
Lemma waits_alone s g ρ t u a p :
  rinv s g ρ → QInv s ρ → Z.even a = true → (a, p) ∈ own g t → p ≠ PS →
  waits s ρ u (a + 1) → u = t.
Proof.
  intros HI HQ Ha Hp Hne Hw. destruct (decide (u = t)) as [|Hu]; [done|exfalso].
  eapply (own_two s g ρ a u t); [done|done|done|by eapply waits_owns|exact Hp|done|done].
Qed.

Lemma waits_unique s g ρ u w a :
  rinv s g ρ → QInv s ρ → Z.even a = true → waits s ρ u (a + 1) → waits s ρ w (a + 1) → u = w.
Proof.
  intros HI HQ Ha Hu Hw.
  eapply (waits_alone s g ρ w); [done|done|done| | |exact Hu]; [by eapply waits_owns|done].
Qed.

(** The thread that has seen the queue empty. *)
Lemma seen_none s g ρ t k u :
  rinv s g ρ → QInv s ρ → dt (ρ t) = Seen k false → ¬ waits s ρ u k.
Proof.
  intros HI HQ Ht. destruct (q_duty _ _ HQ t) as [Hd _]. rewrite Ht in Hd. destruct Hd as [Hb Hn].
  intros [Hq|Hv]; [by apply (Hn eq_refl u)|].
  destruct (q_duty _ _ HQ u) as [Hu _]. rewrite Hv in Hu. destruct Hu as [Hu _].
  assert (Hbu : bucket_of k ∈ pc_hold bucket_of (rpc (ρ u))) by (rewrite Hu; cbn; set_solver).
  pose proof (lot_hold_unique bucket_of _ _ _ _ _ _ _ (ri_lot _ _ _ _ _ _ HI) Hb Hbu). congruence.
Qed.

(** ** Steps *)

Lemma coming_td s s' u r a : td s' = td s → coming s' u r a = coming s u r a.
Proof. intros E. unfold coming, woken_for. by rewrite E. Qed.
Lemma queued_same s s' u k : bqueue s' = bqueue s → td s' = td s → queued s' u k = queued s u k.
Proof. intros E1 E2. unfold queued. by rewrite E1, E2. Qed.
Lemma duty_ok_same s s' r : bqueue s' = bqueue s → td s' = td s → duty_ok s r → duty_ok s' r.
Proof.
  intros E1 E2 [Hd Hp]. split; [|exact Hp]. destruct (dt r); try done.
  destruct Hd as [Hb Hn]. split; [done|]. intros Hm u. rewrite (queued_same s) by done. auto.
Qed.

(** The witness of a cover after the step of [t]. *)
Lemma cover_step s s' ρ t r r' a :
  ρ t = r → (∀ w, w ≠ t → coming s w (ρ w) a → coming s' w (ρ w) a) →
  (∃ w, coming s w (ρ w) a) → coming s t r a ∨ ∃ w, coming s' w ((<[t := r']> ρ : tid → role) w) a.
Proof.
  intros <- Hoth [w Hw]. destruct (decide (t = w)) as [<-|Hne]; [by left|]. right. exists w. fn_simp.
  by apply Hoth.
Qed.

(** The word of [a] changes, and the role of [t]; no thread is queued or leaves. *)
Lemma q_word s s' ρ t r r' a v :
  QInv s ρ → ρ t = r → Z.even a = true →
  (∀ a', a' ≠ a → mem s' a' = mem s a') → mem s' a = v → bqueue s' = bqueue s → td s' = td s →
  (∀ k, dt r' = Valid k → dt r = Valid k ∨ (k = a ∧ parked v = true ∧ taken v = true) ∨
     (k = a + 1 ∧ awaited v = true)) →
  (parked (mem s a) = true → parked v = true ∨ ∀ u, ¬ waits s ρ u a) →
  (parked (mem s a) = true → taken (mem s a) = true ∨ coming s t r a →
     taken v = true ∨ coming s t r' a ∨ ∀ u, ¬ waits s ρ u a) →
  (awaited (mem s a) = true ∨ dt r = Leaver a →
     awaited v = true ∨ dt r' = Leaver a ∨ ∀ u, ¬ waits s ρ u (a + 1)) →
  (∀ a', Z.even a' = true → a' ≠ a → coming s t r a' → coming s t r' a') →
  (∀ a', a' ≠ a → dt r = Leaver a' → dt r' = Leaver a') →
  duty_ok s r' → QInv s' (<[t := r']> ρ).
Proof.
  intros HQ <- Ha Em Ev Eq Et Hval Hpk Hcov Hrd Hco Hlv Hd. pose proof HQ as [Q1 Q2 Q3 Q4].
  assert (Hw : ∀ k u, waits s' (<[t := r']> ρ) u k → waits s ρ u k ∨
    (k = a ∧ parked v = true ∧ taken v = true) ∨ (k = a + 1 ∧ awaited v = true)).
  { intros k u [Hq|Hv]; [left; left; by rewrite <- (queued_same s s')|].
    revert Hv. fn_cases t u; [|intros Hv; left; by right]. intros Hv.
    destruct (Hval k Hv) as [H|H]; [|by right]. left. by right. }
  assert (Hcs : ∀ b, (∃ w, coming s w (ρ w) b) →
    coming s t (ρ t) b ∨ ∃ w, coming s' w ((<[t := r']> ρ : tid → role) w) b).
  { intros b. apply cover_step; [done|]. intros w _. by rewrite (coming_td s s'). }
  assert (Hme : ∀ b, coming s t r' b → ∃ w, coming s' w ((<[t := r']> ρ : tid → role) w) b).
  { intros b Hb. exists t. fn_simp. by rewrite (coming_td s s'). }
  assert (Hls : ∀ b, (∃ w, dt (ρ w) = Leaver b) →
    dt (ρ t) = Leaver b ∨ ∃ w, dt ((<[t := r']> ρ : tid → role) w) = Leaver b).
  { intros b [w Hb]. destruct (decide (t = w)) as [<-|]; [by left|]. right. exists w. by fn_simp. }
  assert (Hml : ∀ b, dt r' = Leaver b → ∃ w, dt ((<[t := r']> ρ : tid → role) w) = Leaver b).
  { intros b Hb. exists t. by fn_simp. }
  split.
  - intros a' u Ha' Hu. destruct (decide (a' = a)) as [->|Hne].
    + rewrite Ev. destruct (Hw _ _ Hu) as [H|[(_ & ? & _)|[E _]]]; [|done|lia].
      destruct (Hpk (Q1 a u Ha H)) as [?|Hn]; [done|by destruct (Hn u)].
    + rewrite Em by done. destruct (Hw _ _ Hu) as [H|[(? & _)|[-> _]]]; [by eapply Q1|done|].
      by rewrite (even_odd a) in Ha'.
  - intros a' u Ha' Hu. destruct (decide (a' = a)) as [->|Hne].
    + rewrite Ev. destruct (Hw _ _ Hu) as [H|[(_ & _ & ?)|[E _]]]; [|by left|lia].
      assert (Hx : taken (mem s a) = true ∨ coming s t (ρ t) a ∨
        ∃ w, coming s' w ((<[t := r']> ρ : tid → role) w) a).
      { destruct (Q2 a u Ha H) as [?|Hc]; [by left|right; by apply Hcs]. }
      destruct Hx as [Hx|[Hx|Hx]]; [| |by right];
        (destruct (Hcov (Q1 a u Ha H)) as [?|[?|Hn]]; [auto|by left|right; by apply Hme|by destruct (Hn u)]).
    + rewrite Em by done. destruct (Hw _ _ Hu) as [H|[(? & _)|[-> _]]]; [|done|by rewrite (even_odd a) in Ha'].
      destruct (Q2 a' u Ha' H) as [?|Hc]; [by left|right].
      destruct (Hcs _ Hc) as [?|?]; [|done]. apply Hme. by apply Hco.
  - intros a' u Ha' Hu. destruct (decide (a' = a)) as [->|Hne].
    + rewrite Ev. destruct (Hw _ _ Hu) as [H|[(E & _)|[_ ?]]]; [|lia|by left].
      assert (Hx : awaited (mem s a) = true ∨ dt (ρ t) = Leaver a ∨
        ∃ w, dt ((<[t := r']> ρ : tid → role) w) = Leaver a).
      { destruct (Q3 a u Ha H) as [?|Hc]; [by left|right; by apply Hls]. }
      destruct Hx as [Hx|[Hx|Hx]]; [| |by right];
        (destruct Hrd as [?|[?|Hn]]; [auto|by left|right; by apply Hml|by destruct (Hn u)]).
    + rewrite Em by done. destruct (Hw _ _ Hu) as [H|[(E & _)|[E _]]]; [| |lia].
      * destruct (Q3 a' u Ha' H) as [?|Hc]; [by left|right].
        destruct (Hls _ Hc) as [?|?]; [|done]. by apply Hml, Hlv.
      * subst a. by rewrite even_odd in Ha.
  - intros u. apply (duty_ok_same s); [done|done|]. by fn_cases t u.
Qed.

(** Only the role changes, and nothing that concerns the queues. *)
Lemma q_role s s' ρ t r r' :
  QInv s ρ → ρ t = r → mem s' = mem s → bqueue s' = bqueue s → td s' = td s →
  (∀ k, dt r' = Valid k → dt r = Valid k) →
  (∀ a, Z.even a = true → coming s t r a → coming s t r' a) →
  (∀ a, dt r = Leaver a → dt r' = Leaver a) → duty_ok s r' → QInv s' (<[t := r']> ρ).
Proof.
  intros HQ Hr Em Eq Et Hval Hco Hlv Hd. apply (q_word s s' ρ t r r' 0 (mem s 0)); try done; try by rewrite Em.
  - by left; apply Hval.
  - by left.
  - intros _ [?|?]; [by left|]. right; left. auto.
  - intros [?|?]; [by left|]. right; left. auto.
  - auto.
  - auto.
Qed.

(** The words stay as they are, and nobody begins to wait. *)
Lemma q_frame s s' ρ t r' :
  QInv s ρ → mem s' = mem s →
  (∀ u k, waits s' (<[t := r']> ρ) u k → waits s ρ u k) →
  (∀ a, Z.even a = true → (∃ w, coming s w (ρ w) a) →
     (∃ w, coming s' w ((<[t := r']> ρ : tid → role) w) a) ∨ ∀ u, ¬ waits s' (<[t := r']> ρ) u a) →
  (∀ a, (∃ w, dt (ρ w) = Leaver a) →
     (∃ w, dt ((<[t := r']> ρ : tid → role) w) = Leaver a) ∨ ∀ u, ¬ waits s' (<[t := r']> ρ) u (a + 1)) →
  duty_ok s' r' → (∀ u, u ≠ t → duty_ok s (ρ u) → duty_ok s' (ρ u)) → QInv s' (<[t := r']> ρ).
Proof.
  intros [Q1 Q2 Q3 Q4] Em Hw Hc Hl Hd Ho. split.
  - intros a u Ha Hu. rewrite Em. eauto.
  - intros a u Ha Hu. rewrite Em. destruct (Q2 a u Ha (Hw _ _ Hu)) as [?|H]; [by left|right].
    destruct (Hc a Ha H) as [?|Hn]; [done|by destruct (Hn u)].
  - intros a u Ha Hu. rewrite Em. destruct (Q3 a u Ha (Hw _ _ Hu)) as [?|H]; [by left|right].
    destruct (Hl a H) as [?|Hn]; [done|by destruct (Hn u)].
  - intros u. fn_cases t u; auto.
Qed.

(** The thread queues itself, as it has announced. *)
Lemma q_enqueue s g ρ t r k tok timed :
  rinv s g ρ → QInv s ρ → ρ t = r → rpc r = Lk k → dt r = Valid k →
  QInv (set_bqueue (bucket_of k) (bqueue s (bucket_of k) ++ [t])
          (set_td t (MkTD k (td_unpark_token (td s t)) tok timed true) s))
    (<[t := at_pc r (WaitL k tok)]> ρ).
Proof.
  intros HI HQ <- Hpc Hdt. set (s' := set_bqueue _ _ _).
  assert (Hq : ∀ u k', queued s' u k' → queued s u k' ∨ (u = t ∧ k' = k)).
  { intros u k' [Hu Hk']. revert Hu Hk'. unfold s'. cbn. fn_cases t u; cbn.
    - intros _ <-. by right.
    - intros Hu Hk'. left. split; [|done]. revert Hu. rewrite fn_insert_case. case_decide as E; [|done].
      rewrite E, elem_of_app, list_elem_of_singleton. naive_solver. }
  pose proof (q_duty _ _ HQ t) as [Ht _]. rewrite Hdt in Ht. destruct Ht as [_ Hcalm].
  apply (q_frame s); try done.
  - intros u k' [Hu|Hv].
    + destruct (Hq _ _ Hu) as [H|[-> ->]]; [by left|by right].
    + revert Hv. fn_cases t u; [done|]. intros ?. by right.
  - intros a _ [w Hw]. left. exists w. fn_cases t w.
    + unfold coming in Hw. rewrite Hdt, Hpc in Hw. by destruct Hw.
    + unfold coming, woken_for, s' in *. cbn. by fn_simp.
  - intros a [w Hw]. left. exists w. fn_cases t w; [by rewrite Hdt in Hw|done].
  - intros u Hu [Hd Hp]. split; [|exact Hp]. destruct (dt (ρ u)) as [|k' more| | |]; try done.
    destruct Hd as [Hb Hn]. split; [done|]. intros Hm w Hw.
    destruct (Hq _ _ Hw) as [H|[_ ->]]; [by apply (Hn Hm w)|]. apply Hu.
    apply (lot_hold_unique bucket_of _ _ _ _ _ _ _ (ri_lot _ _ _ _ _ _ HI) Hb). cbn. rewrite Hpc. cbn. set_solver.
Qed.

(** Threads leave the queue of [k], whose bucket is locked; [rest] is left. *)
Lemma q_shrink s s' ρ t r r' k rest :
  QInv s ρ → ρ t = r → mem s' = mem s → td s' = td s →
  bqueue s' = <[bucket_of k := rest]> (bqueue s) → (∀ u, u ∈ rest → u ∈ bqueue s (bucket_of k)) →
  (∀ k', dt r' ≠ Valid k') → (∀ k', dt r ≠ Valid k') →
  (∀ a, Z.even a = true → coming s t r a → coming s t r' a ∨ (a = k ∧ ∀ u, u ∈ rest → td_key (td s u) ≠ k)) →
  (∀ a, dt r = Leaver a → dt r' = Leaver a ∨ (a + 1 = k ∧ ∀ u, u ∈ rest → td_key (td s u) ≠ k)) →
  (∀ u, bucket_of k ∈ pc_hold bucket_of (rpc (ρ u)) → u = t) →
  duty_ok s' r' → QInv s' (<[t := r']> ρ).
Proof.
  intros HQ <- Em Et Eq Hsub Hv Hv' Hc Hl Hhold Hd.
  assert (Hq : ∀ u k', queued s' u k' → queued s u k').
  { intros u k' [Hu Hk']. rewrite Et in Hk'. split; [|done]. revert Hu. rewrite Eq, fn_insert_case. case_decide as E; [|done]. rewrite <- E. apply Hsub. }
  assert (Hnone : (∀ u, u ∈ rest → td_key (td s u) ≠ k) → ∀ u, ¬ waits s' (<[t := r']> ρ) u k).
  { intros Hr u [[Hu Hk]|Hu].
    - rewrite Et in Hk. rewrite Eq in Hu. fn_simp. by apply (Hr u).
    - revert Hu. fn_cases t u; [apply Hv|]. intros Hu.
      destruct (q_duty _ _ HQ u) as [Hdu _]. rewrite Hu in Hdu. destruct Hdu as [Hdu _].
      destruct (decide (u = t)) as [->|Hne]; [done|]. apply Hne, Hhold. rewrite Hdu. cbn. set_solver. }
  apply (q_frame s); try done.
  - intros u k' [Hu|Hu]; [left; auto|]. revert Hu. fn_cases t u; [intros Hu; by apply Hv in Hu|]. by right.
  - intros a Ha [w Hw]. destruct (decide (t = w)) as [<-|Hne].
    + destruct (Hc a Ha Hw) as [H|[-> H]]; [left|right; by apply Hnone].
      exists t. fn_simp. by rewrite (coming_td s s').
    + left. exists w. fn_simp. by rewrite (coming_td s s').
  - intros a [w Hw]. destruct (decide (t = w)) as [<-|Hne].
    + destruct (Hl a Hw) as [H|[E H]]; [left; exists t; by fn_simp|right]. rewrite E. by apply Hnone.
    + left. exists w. by fn_simp.
  - intros u Hu [Hdu Hp]. split; [|exact Hp]. destruct (dt (ρ u)) as [|k' more| | |]; try done.
    destruct Hdu as [Hb Hn]. split; [done|]. intros Hm w Hw. by apply (Hn Hm w), Hq.
Qed.

(** The data of a thread in custody changes: its token, and whether it is parked. *)
Lemma q_data s ρ t r r' w d :
  QInv s ρ → ρ t = r → w ≠ t → td_key d = td_key (td s w) →
  (∀ k', dt r' ≠ Valid k') → (∀ a, dt r ≠ Leaver a) →
  (∀ a, ¬ coming s w (ρ w) a) →
  (∀ a, Z.even a = true → coming s t r a → coming (set_td w d s) t r' a ∨ coming (set_td w d s) w (ρ w) a) →
  duty_ok s r' → QInv (set_td w d s) (<[t := r']> ρ).
Proof.
  intros HQ <- Hne Hk Hv Hl Hnw Hc Hd.
  assert (Hq : ∀ u k, queued (set_td w d s) u k ↔ queued s u k).
  { intros u k. unfold queued. cbn. fn_cases w u; [by rewrite Hk|done]. }
  assert (Hdo : ∀ r, duty_ok s r → duty_ok (set_td w d s) r).
  { intros x [Hx Hp]. split; [|exact Hp]. destruct (dt x); try done.
    destruct Hx as [Hb Hn]. split; [done|]. intros Hm u Hu. by apply (Hn Hm u), Hq. }
  apply (q_frame s); auto.
  - intros u k [Hu|Hu]; [left; by apply Hq|]. revert Hu. fn_cases t u; [intros Hu; by apply Hv in Hu|]. by right.
  - intros a Ha [u Hu]. left. destruct (decide (t = u)) as [<-|Hu'].
    + destruct (Hc a Ha Hu) as [H|H]; [exists t; by fn_simp|exists w; by fn_simp].
    + exists u. fn_simp. destruct (decide (w = u)) as [<-|]; [by apply Hnw in Hu|].
      unfold coming, woken_for in *. cbn. by fn_simp.
  - intros a [u Hu]. left. exists u. fn_cases t u; [by apply Hl in Hu|done].
Qed.
End queue.
