(* ===== verification/RwLockRules.v ===== *)
(** * Rules for the steps of RawRwLock

    What each step of an operation does to the invariant of [RwLockInv] and
    [RwLockQueue]: on the word of a lock, on a bucket, on the threads that sleep
    in it. The rules say which change of the word, of the owned locks and of the
    duties they allow, and the operations of [RwLockProof] are put together from
    them. *)

From S2P Require Import Prelude Conc LotTypes SpinWait FairTimeout BucketQueue ParkingLot LotInv RawMutex RawRwLock RwLockWord RwLockInv RwLockQueue.
Import RawRwLock.
Local Open Scope Z_scope.

(** ** The threads a filter selects *)

(** The phase word that [wake_filter] builds. *)
Definition phase (e s u p : Z) : Prop :=
  e = 16 * (s + u) + (8 * p + 4 * u) ∧ 0 ≤ s ∧ 0 ≤ u ∧ 0 ≤ p ∧ u + p ≤ 1.

Lemma phase_word_bits e s u p :
  phase e s u p → has_bits e WRITER_BIT = (p =? 1) ∧ has_bits e UPGRADABLE_BIT = (u =? 1).
Proof.
  intros (-> & Hs & Hu & Hp & H1).
  assert (Hc : (u = 0 ∧ p = 0) ∨ (u = 1 ∧ p = 0) ∨ (u = 0 ∧ p = 1)) by lia.
  unfold has_bits. rewrite !land_nibble by (unfold WRITER_BIT, UPGRADABLE_BIT; lia).
  by destruct Hc as [[-> ->]|[[-> ->]|[-> ->]]].
Qed.

Lemma wake_filter_phase e s u p tok :
  phase e s u p → token_ok tok →
  match wake_filter e tok with
  | (Unpark, e') => e' = e + tok ∧
      phase e' (s + cnt PS [tperm tok]) (u + cnt PU [tperm tok]) (p + cnt PP [tperm tok])
  | (_, e') => e' = e
  end.
Proof.
  intros Hph Htok. destruct (phase_word_bits _ _ _ _ Hph) as [Hw Hu]. unfold wake_filter.
  rewrite Hw, Hu. destruct (Z.eqb_spec p 1) as [|Hp]; [done|].
  destruct Hph as (He & Hs & Hu0 & Hp0 & H1).
  destruct Htok as [->|[->| ->]];
    [change (tperm TOKEN_SHARED) with PS; change TOKEN_SHARED with 16
    |change (tperm TOKEN_UPGRADABLE) with PU; change TOKEN_UPGRADABLE with 20
    |change (tperm TOKEN_EXCLUSIVE) with PP; change TOKEN_EXCLUSIVE with 8];
    destruct (Z.eqb_spec u 1) as [|Hu1]; cbn [has_bits andb Z.land Z.lor]; try done;
    (split; [done|]); rewrite !cnt_cons, !cnt_nil; unfold phase;
    repeat first [rewrite decide_True by done|rewrite decide_False by done]; lia.
Qed.

Section selected.
Context {T : Type} (κ : T → Z) (τ : T → ParkToken) (a : Z).

Lemma filter_phase e s u p l ws rest more e' :
  (∀ x, x ∈ l → κ x = a → token_ok (τ x)) → phase e s u p →
  Spec.unpark_filter κ τ wake_filter a e l = (ws, rest, more, e') →
  let ps := (λ x, tperm (τ x)) <$> ws in
  phase e' (s + cnt PS ps) (u + cnt PU ps) (p + cnt PP ps) ∧
  ∀ x, x ∈ ws → κ x = a ∧ token_ok (τ x).
Proof.
  revert e s u p ws rest more. induction l as [|x l IH]; intros e s u p ws rest more Htok Hph E;
    cbn [Spec.unpark_filter] in E.
  { injection E as <- <- <- <-. cbn. rewrite !cnt_nil, !Z.add_0_r.
    split; [done|]. by intros ? ?%not_elem_of_nil. }
  assert (Hrec : ∀ y, y ∈ l → κ y = a → token_ok (τ y)) by (intros y ?; apply Htok; by right).
  destruct (decide (κ x = a)) as [Hx|Hx].
  - pose proof (wake_filter_phase e s u p (τ x) Hph (Htok x ltac:(by left) Hx)) as Hf.
    destruct (wake_filter e (τ x)) as [[] e1].
    + destruct Hf as [_ Hph1].
      destruct (Spec.unpark_filter κ τ wake_filter a e1 l) as [[[ws1 rest1] more1] e2] eqn:E1.
      injection E as <- <- <- <-. destruct (IH _ _ _ _ _ _ _ Hrec Hph1 E1) as [Hp2 Hin].
      assert (Ec : ∀ q l', cnt q (tperm (τ x) :: l') = cnt q [tperm (τ x)] + cnt q l')
        by (intros q l'; apply (cnt_app q [_])).
      cbn zeta. rewrite fmap_cons, (Ec PS), (Ec PU), (Ec PP), !Z.add_assoc.
      split; [done|]. intros y [->|Hy]%elem_of_cons; auto using list_elem_of_here.
    + subst e1.
      destruct (Spec.unpark_filter κ τ wake_filter a e l) as [[[ws1 rest1] more1] e2] eqn:E1.
      injection E as <- <- <- <-. by apply (IH _ _ _ _ _ _ _ Hrec Hph E1).
    + subst e1. injection E as <- <- <- <-. cbn. rewrite !cnt_nil, !Z.add_0_r.
      split; [done|]. by intros ? ?%not_elem_of_nil.
  - destruct (Spec.unpark_filter κ τ wake_filter a e l) as [[[ws1 rest1] more1] e2] eqn:E1.
    injection E as <- <- <- <-. by apply (IH _ _ _ _ _ _ _ Hrec Hph E1).
Qed.

(** If threads are left, the phase has more than readers. *)
Lemma filter_more e s u p l ws rest more e' :
  (∀ x, x ∈ l → κ x = a → token_ok (τ x)) → phase e s u p →
  Spec.unpark_filter κ τ wake_filter a e l = (ws, rest, more, e') → more = true →
  let ps := (λ x, tperm (τ x)) <$> ws in u + cnt PU ps + (p + cnt PP ps) = 1.
Proof.
  revert e s u p ws rest more. induction l as [|x l IH]; intros e s u p ws rest more Htok Hph E Hm;
    cbn [Spec.unpark_filter] in E; [by injection E as <- <- <- <-|].
  assert (Hrec : ∀ y, y ∈ l → κ y = a → token_ok (τ y)) by (intros y ?; apply Htok; by right).
  assert (Hnow : ∀ ws1, u + p = 1 → (∃ s' e1, phase e1 s' (u + cnt PU ws1) (p + cnt PP ws1)) →
    u + cnt PU ws1 + (p + cnt PP ws1) = 1).
  { intros ws1 H1 (s' & e1 & _ & _ & _ & _ & H). pose proof (cnt_nonneg PU ws1). pose proof (cnt_nonneg PP ws1). lia. }
  destruct (decide (κ x = a)) as [Hx|Hx].
  - pose proof (wake_filter_phase e s u p (τ x) Hph (Htok x ltac:(by left) Hx)) as Hf.
    assert (Hskip : (∃ f e1, wake_filter e (τ x) = (f, e1) ∧ f ≠ Unpark) → u + p = 1).
    { intros (f & e1 & Ef & Hne). destruct (phase_word_bits _ _ _ _ Hph) as [Hw Hu].
      unfold wake_filter in Ef. rewrite Hw, Hu in Ef. destruct Hph as (_ & _ & ? & ? & ?).
      destruct (Z.eqb_spec p 1); [lia|]. destruct (Z.eqb_spec u 1); [lia|].
      rewrite andb_false_r in Ef. by injection Ef as <- <-. }
    destruct (wake_filter e (τ x)) as [[] e1].
    + destruct Hf as [_ Hph1].
      destruct (Spec.unpark_filter κ τ wake_filter a e1 l) as [[[ws1 rest1] more1] e2] eqn:E1.
      injection E as <- <- <- <-. specialize (IH _ _ _ _ _ _ _ Hrec Hph1 E1 Hm).
      assert (Ec : ∀ q l', cnt q (tperm (τ x) :: l') = cnt q [tperm (τ x)] + cnt q l')
        by (intros q l'; apply (cnt_app q [_])).
      cbn zeta in *. rewrite fmap_cons, (Ec PU), (Ec PP). lia.
    + subst e1.
      destruct (Spec.unpark_filter κ τ wake_filter a e l) as [[[ws1 rest1] more1] e2] eqn:E1.
      injection E as <- <- <- <-. apply Hnow; [apply Hskip; by eexists _, _|].
      destruct (filter_phase _ _ _ _ _ _ _ _ _ Hrec Hph E1) as [H _]. eauto.
    + subst e1. injection E as <- <- <- <-. apply Hnow; [apply Hskip; by eexists _, _|].
      cbn. rewrite !cnt_nil, !Z.add_0_r. eauto.
  - destruct (Spec.unpark_filter κ τ wake_filter a e l) as [[[ws1 rest1] more1] e2] eqn:E1.
    injection E as <- <- <- <-. by apply (IH _ _ _ _ _ _ _ Hrec Hph E1).
Qed.

(** If none is left, the filter has gone through the whole queue. *)
Lemma filter_no_more {E} (f : E → ParkToken → FilterOp * E) e l ws rest more e' :
  Spec.unpark_filter κ τ f a e l = (ws, rest, more, e') → more = false → ∀ x, x ∈ rest → κ x ≠ a.
Proof.
  revert e ws rest more. induction l as [|y l IH]; intros e ws rest more H Hm;
    cbn [Spec.unpark_filter] in H; [injection H as <- <- <- <-; by intros x ?%not_elem_of_nil|].
  destruct (decide (κ y = a)); [destruct (f e (τ y)) as [[] e1]|].
  3:{ by injection H as <- <- <- <-. }
  all: destruct (Spec.unpark_filter κ τ f a _ l) as [[[ws1 r1] m1] e2] eqn:E1;
    injection H as <- <- <- <-; try done; specialize (IH _ _ _ _ E1 Hm); try done.
  intros x [->|Hx]%elem_of_cons; auto.
Qed.

(** Every thread is either selected or left. *)
Lemma filter_permutation {E} (f : E → ParkToken → FilterOp * E) e l ws rest more e' :
  Spec.unpark_filter κ τ f a e l = (ws, rest, more, e') → ws ++ rest ≡ₚ l.
Proof.
  revert e ws rest more. induction l as [|y l IH]; intros e ws rest more H;
    cbn [Spec.unpark_filter] in H; [by injection H as <- <- <- <-|].
  destruct (decide (κ y = a)); [destruct (f e (τ y)) as [[] e1]|].
  3:{ by injection H as <- <- <- <-. }
  all: destruct (Spec.unpark_filter κ τ f a _ l) as [[[ws1 r1] m1] e2] eqn:E1;
    injection H as <- <- <- <-; apply IH in E1.
  1: by rewrite <- E1.
  all: by rewrite <- Permutation_middle, E1.
Qed.
End selected.

(** ** Rules *)

(** A thread may have to wait for a bucket, while it holds none, or for its turn. *)
Definition rw_blocked (bucket_of : Z → nat) (t : tid) (r : role) (s : state) : Prop :=
  (pc_hold bucket_of (rpc r) = [] ∧ ∃ b u, bmutex s b = Some u) ∨
  (td_parked (td s t) = true ∧ ∃ k tok, rpc r = Wait k tok).
Definition rw_panic (_ : string) (_ : role) : Prop := False.

Section rules.
Context (bucket_of : Z → nat) (n lim : nat).
Context (Hlim : Z.of_nat (n * (lim + n + 1)) ≤ 2 ^ 58).
Context (t : tid) (Ht : (t < n)%nat).
Implicit Types (s : state) (g : ghost) (ρ : tid → role) (r : role) (a k : Z).

Abbreviation rinv := (RwInv bucket_of n lim).
Abbreviation rwp := (wp exec rinv rw_panic (rw_blocked bucket_of) t).

(** The action can always be taken. *)
Ltac enabled := intros; left; exists 0%Z; cbn; repeat case_match; by eexists.
Ltac safe := apply wp_act; [enabled|].
Ltac safe_step s g ρ c HI :=
  safe; let Hr := fresh "Hr" in let Hex := fresh "Hex" in
  intros s g ρ c ?s' ?v Hr HI Hex; cbn in Hex; injection Hex as <- <-.

Lemma r_same s g ρ r : rinv s g ρ → ρ t = r → rinv s g (<[t := r]> ρ).
Proof.
  intros [HI HQ] <-. split.
  - apply (r_pc _ _ _ s g ρ t); try done; [|apply HI|apply HI].
    by apply lot_role; [apply HI|..].
  - apply (q_role bucket_of s s ρ t (ρ t)); try done. apply HQ.
Qed.

(** An action that changes nothing. *)
Lemma rwp_look {A} (x : act) (k : resp x → iprog A) r Q :
  (∀ s, is_Some (exec t 0 x s)) → (∀ c s s' v, exec t c x s = Some (s', v) → s' = s) →
  (∀ v, rwp (k v) r Q) → rwp (Act x k) r Q.
Proof.
  intros He Hs Hk. apply wp_act; [left; by exists 0|]. intros s g ρ c s' v Hr HI Hex. apply Hs in Hex as ->.
  exists g, r. split; [by apply r_same|done].
Qed.

(** The word of [a] when the thread owns the locks [X] of it. *)
Definition seen (old : Z) (X : list perm) : Prop :=
  ∃ l, Z.of_nat (length (X ++ l)) ≤ 2 ^ 58 ∧ wdl old (X ++ l).

(** A change of the word when the thread's locks change from [X] to [Y]. *)
Definition trans (old new : Z) (X Y : list perm) : Prop :=
  ∀ l, Z.of_nat (length (X ++ l)) ≤ 2 ^ 58 → wdl old (X ++ l) → wdl new (Y ++ l).

(** The locks of the threads in custody. *)
Definition cust_perms (x : pc) : list (Z * perm) :=
  match x with
  | Cust k ws true => (λ x, (k, tperm x.2)) <$> ws
  | CustT k w tok ws true => (λ x, (k, tperm x.2)) <$> ((w, tok) :: ws)
  | _ => []
  end.
Definition static (x : pc) : bool :=
  match x with Run | Lk _ | Cust _ _ _ | CustT _ _ _ _ _ => true | _ => false end.

Lemma static_extra s x : static x = true → extra s t x = cust_perms x.
Proof. by destruct x. Qed.

(** The thread is coming, whatever the state. *)
Definition comes a r : Prop :=
  dt r = Coming a ∨
  match rpc r with
  | Cust k ws false => wakes k ws a
  | CustT k w tok ws false => wakes k ((w, tok) :: ws) a
  | _ => False
  end.

Lemma static_coming s a r : static (rpc r) = true → coming s t r a ↔ comes a r.
Proof. unfold coming, comes. by destruct (rpc r). Qed.

(** The role changes from [r] to [r'] with the locks owned at [a]. *)
Record step_to a r r' (X Y : list perm) : Prop := {
  st_static : static (rpc r) = true ∧ static (rpc r') = true;
  st_hold : pc_hold bucket_of (rpc r') = pc_hold bucket_of (rpc r);
  st_cust : pc_cust (rpc r') = pc_cust (rpc r);
  st_own : ∃ rest, rh r ++ cust_perms (rpc r) ≡ₚ (pair a <$> X) ++ rest ∧
                   rh r' ++ cust_perms (rpc r') ≡ₚ (pair a <$> Y) ++ rest;
  st_rv : rv r' = rv r;
  st_rv_ok : vperms (rv r') ⊆+ rh r';
  st_bud : (length (rh r') + bud r' ≤ lim)%nat;
  st_pc s : pc_ok s t (rpc r) → pc_ok s t (rpc r');
}.

(** The word changes from [old] to [v], and nobody is left waiting for nothing. *)
Definition heavy (X : list perm) : bool := existsb (λ p, bool_decide (p ≠ PS)) X.

Record duty_to a r r' (X : list perm) (old v : Z) : Prop := {
  du_from k : dt r ≠ Valid k;
  du_duty : match dt r' with
            | Free => True
            | Seen _ _ => dt r' = dt r
            | Coming b => rpc r' = Run ∨ rpc r' = Lk b
            | Leaver b => rpc r' = Run ∨ rpc r' = Lk (b + 1)
            | Valid k => rpc r' = Lk k ∧ calm r' k ∧
                ((k = a ∧ parked v = true ∧ taken v = true) ∨ (k = a + 1 ∧ awaited v = true))
            end;
  du_parked : parked old = true → parked v = true ∨ dt r = Seen a false;
  du_cover : parked old = true → taken old = true ∨ comes a r →
    taken v = true ∨ comes a r' ∨ dt r = Seen a false;
  du_readers : awaited old = true ∨ dt r = Leaver a →
    awaited v = true ∨ dt r' = Leaver a ∨ dt r = Seen (a + 1) false ∨ heavy X = true;
  du_comes b : b ≠ a → comes b r → comes b r';
  du_leaver b : b ≠ a → dt r = Leaver b → dt r' = Leaver b;
}.

(** All that a step on the word of [a] must respect. *)
Definition moves a r r' X old v : Prop :=
  ∃ Y, step_to a r r' X Y ∧ trans old v X Y ∧ duty_to a r r' X old v.

Lemma static_wait x : static x = true → pc_wait x = false.
Proof. by destruct x. Qed.

Lemma heavy_elem X : heavy X = true → ∃ p, p ∈ X ∧ p ≠ PS.
Proof. intros (p & Hp & Hne)%existsb_exists. exists p. split; [by apply list_elem_of_In|]. by apply bool_decide_eq_true in Hne. Qed.

Lemma static_not_waits s ρ k g :
  rinv s g ρ → static (rpc (ρ t)) = true → (∀ k, dt (ρ t) ≠ Valid k) → ¬ waits bucket_of s ρ t k.
Proof.
  intros [HI _] Hs Hv [[Hq _]|Hq]; [|by apply Hv in Hq].
  apply (li_queue _ _ _ _ _ (ri_lot _ _ _ _ _ _ HI)) in Hq as (Hw & _). cbn in Hw. by rewrite static_wait in Hw.
Qed.

Lemma q_moves s g ρ r r' a v X Y :
  rinv s g ρ → ρ t = r → Z.even a = true → step_to a r r' X Y → duty_to a r r' X (mem s a) v →
  QInv bucket_of (set_mem a v s) (<[t := r']> ρ).
Proof.
  intros [HI HQ] <- Ha [[S1 S2] Sh _ (rest & E1 & _) _ _ _ _] [D1 D2 D3 D4 D5 D6 D7].
  assert (Hseen : ∀ k u, dt (ρ t) = Seen k false → ¬ waits bucket_of s ρ u k).
  { intros k u Hk. by eapply (seen_none bucket_of n lim s g ρ t k u). }
  apply (q_word bucket_of s _ ρ t (ρ t) r' a v); try done; cbn.
  - intros a' Hne. by rewrite fn_insert_ne.
  - by rewrite fn_insert_eq.
  - intros k Hk. right. rewrite Hk in D2. tauto.
  - intros Hp. destruct (D3 Hp); [by left|right; auto].
  - rewrite !static_coming by done. intros Hp Hc. destruct (D4 Hp Hc) as [?|[?|?]]; auto.
  - intros Hw. destruct (D5 Hw) as [?|[?|[?|Hx]]]; auto. right; right. intros u Hu.
    apply heavy_elem in Hx as (p & Hp & Hne).
    assert (u = t) as ->.
    { apply (waits_alone bucket_of n lim s g ρ t u a p); try done. rewrite (ri_own _ _ _ _ _ _ HI t).
      rewrite static_extra, E1 by done. set_solver. }
    by eapply static_not_waits.
  - intros a' _ Hne. rewrite !static_coming by done. by apply D6.
  - split; [|by destruct (rpc r')]. destruct (dt r') as [|k m| | |] eqn:E; try tauto; auto.
    destruct (q_duty _ _ _ HQ t) as [Hd _]. rewrite <- D2 in Hd. by rewrite Sh.
Qed.

Lemma r_trans s g ρ r r' a v X :
  rinv s g ρ → ρ t = r → Z.even a = true → moves a r r' X (mem s a) v →
  ∃ g', rinv (set_mem a v s) g' (<[t := r']> ρ).
Proof.
  intros HI Hr Ha (Y & Hst & Htr & Hd). pose proof (q_moves _ _ _ _ _ _ _ _ _ HI Hr Ha Hst Hd) as HQ'.
  subst r. destruct HI as [HI HQ]. destruct Hst as [[S1 S2] Sh Sc (rest & E1 & E2) Sv Srv Sb Spc].
  destruct (r_word bucket_of n lim s g ρ t r' a v X Y rest) as [g' HI']; try done.
  - by rewrite !static_wait.
  - by rewrite static_extra.
  - by rewrite static_extra.
  - apply Spc, HI.
  - intros l Hl. apply Htr. lia.
  - by exists g'.
Qed.

Lemma r_seen s g ρ r a X rest :
  rinv s g ρ → ρ t = r → Z.even a = true → static (rpc r) = true →
  rh r ++ cust_perms (rpc r) ≡ₚ (pair a <$> X) ++ rest → seen (mem s a) X.
Proof.
  intros [HI _] <- Ha Hs E. pose proof (ri_own _ _ _ _ _ _ HI t) as Eo.
  rewrite static_extra, E in Eo by done.
  destruct (own_update g t a X X rest Eo) as (_ & l & _ & _ & El & _). exists l.
  rewrite <- El at 1. split.
  - pose proof (at_addr_length a g). pose proof (owned_bound _ _ _ _ _ _ HI). lia.
  - eapply wdl_perm; [exact El|]. by apply (ri_word _ _ _ _ _ _ HI).
Qed.

(** What the invariant says of the role alone. *)
Definition role_ok r : Prop :=
  vperms (rv r) ⊆+ rh r ∧ (length (rh r) + bud r ≤ lim)%nat.

Lemma r_role s g ρ r : rinv s g ρ → ρ t = r → role_ok r.
Proof. intros [HI _] <-. split; apply HI. Qed.

Definition owns_at a r (X : list perm) : Prop :=
  static (rpc r) = true ∧ ∃ rest, rh r ++ cust_perms (rpc r) ≡ₚ (pair a <$> X) ++ rest.

Lemma owns_none a r : static (rpc r) = true → owns_at a r [].
Proof. intros H. split; [done|]. by exists (rh r ++ cust_perms (rpc r)). Qed.

(** Read-modify-write. *)
Lemma rwp_rmw {A} a f (k : Z → iprog A) r X Q :
  Z.even a = true → owns_at a r X →
  (∀ old, seen old X → role_ok r → ∃ r', moves a r r' X old (f old) ∧ rwp (k old) r' Q) →
  rwp (Act (ARmw a f) k) r Q.
Proof.
  intros Ha [Hs [rest E]] Hk. safe_step s g ρ c HI.
  destruct (Hk (mem s a)) as (r' & Hm & Hwp); [exact (r_seen _ _ _ _ _ _ _ HI Hr Ha Hs E)|by eapply r_role|].
  destruct (r_trans _ _ _ _ _ _ _ _ HI Hr Ha Hm) as [g' HI']. by exists g', r'.
Qed.

Lemma r_set_same s g a r ρ :
  (∃ g', rinv (set_mem a (mem s a) s) g' (<[t := r]> ρ)) → ∃ g', rinv s g' (<[t := r]> ρ).
Proof.
  assert (Em : ∀ a', mem (set_mem a (mem s a) s) a' = mem s a') by (intros a'; cbn; by rewrite fn_insert_id).
  intros [g' [[I1 I2 I3 I4 I5 I6 I7 I8] [Q1 Q2 Q3 Q4]]]. exists g'. split; split; try done.
  - intros a' Ha. rewrite <- Em. auto.
  - intros a' u. rewrite <- Em. apply Q1.
  - intros a' u. rewrite <- Em. apply Q2.
  - intros a' u. rewrite <- Em. apply Q3.
Qed.

Lemma rwp_load {A} a (k : Z → iprog A) r X Q :
  Z.even a = true → owns_at a r X →
  (∀ old, seen old X → role_ok r → ∃ r', moves a r r' X old old ∧ rwp (k old) r' Q) →
  rwp (Act (ALoad a) k) r Q.
Proof.
  intros Ha [Hs [rest E]] Hk. safe_step s g ρ c HI.
  destruct (Hk (mem s a)) as (r' & Hm & Hwp); [exact (r_seen _ _ _ _ _ _ _ HI Hr Ha Hs E)|by eapply r_role|].
  destruct (r_set_same s g a r' ρ (r_trans _ _ _ _ _ _ _ _ HI Hr Ha Hm)) as [g' HI'].
  by exists g', r'.
Qed.

Lemma rwp_store {A} a v (k : unit → iprog A) r r' X Q :
  Z.even a = true → owns_at a r X →
  (∀ old, seen old X → role_ok r → moves a r r' X old v) →
  rwp (k tt) r' Q → rwp (Act (AStore a v) k) r Q.
Proof.
  intros Ha [Hs [rest E]] Hm Hk. safe_step s g ρ c HI.
  destruct (r_trans _ _ _ _ r' _ v X HI Hr Ha) as [g' HI']; [|by exists g', r'].
  apply Hm; [exact (r_seen _ _ _ _ _ _ _ HI Hr Ha Hs E)|by eapply r_role].
Qed.

(** A compare-exchange that fails is a load. *)
Lemma rwp_cas_load {A} weak a old new (k : bool * Z → iprog A) r r' X Q :
  Z.even a = true → owns_at a r X → (seen old X → role_ok r → moves a r r' X old new) →
  rwp (k (true, old)) r' Q →
  (∀ v, seen v X → role_ok r → ∃ r'', moves a r r'' X v v ∧ rwp (k (false, v)) r'' Q) →
  rwp (Act (ACas weak a old new) k) r Q.
Proof.
  intros Ha [Hs [rest E]] Hm Hok Hfail. safe. intros s g ρ c s' v Hr HI Hex. cbn in Hex.
  pose proof (r_role _ _ _ _ HI Hr) as Hro.
  pose proof (r_seen _ _ _ _ _ _ _ HI Hr Ha Hs E) as Hseen.
  assert (Hf : ∃ g' r'', rinv s g' (<[t := r'']> ρ) ∧ rwp (k (false, mem s a)) r'' Q).
  { destruct (Hfail (mem s a) Hseen Hro) as (r'' & Hm' & Hwp).
    destruct (r_set_same s g a r'' ρ (r_trans _ _ _ _ _ _ _ _ HI Hr Ha Hm')) as [g' HI'].
    by exists g', r''. }
  destruct (weak && negb (c =? 0)); [|destruct (Z.eqb_spec (mem s a) old) as [<-|]];
    injection Hex as <- <-; [done| |done].
  destruct (r_trans _ _ _ _ r' _ new X HI Hr Ha) as [g' HI']; [by apply Hm|].
  by exists g', r'.
Qed.

Lemma step_refl a r X : owns_at a r X → role_ok r → step_to a r r X X.
Proof. intros [Hs [rest E]] [Hrv Hb]. split; try done. by exists rest. Qed.

(** ** Buckets *)

(** The role changes but for what concerns queues and guards. *)
Lemma rwp_bucket_lock {A} b (k : unit → iprog A) r (x y : pc) Q :
  rpc r = x → pc_hold bucket_of x = [] → pc_hold bucket_of y = [b] →
  pc_cust y = pc_cust x → pc_wait y = pc_wait x →
  (∀ s, extra s t y = extra s t x) → (∀ s, pc_ok s t x → pc_ok s t y) →
  (∀ s a, coming s t r a → coming s t (at_duty r y (dt r)) a) →
  (∀ s, duty_ok bucket_of s r → duty_ok bucket_of s (at_duty r y (dt r))) →
  rwp (k tt) (at_duty r y (dt r)) Q → rwp (Act (ABucketLock b) k) r Q.
Proof.
  intros Hx Hh Hh' Hc Hw He Hok Hco Hd Hk. apply wp_act.
  { intros s g ρ Hr HI. cbn. destruct (bmutex s b) as [u|] eqn:Eb; [|left; exists 0; by eexists].
    right. left. rewrite Hx. split; [done|]. by exists b, u. }
  intros s g ρ c s' v Hr HI Hex. cbn in Hex.
  destruct (bmutex s b) eqn:Eb; [done|]. injection Hex as <- <-.
  pose proof (r_role _ _ _ _ HI Hr) as [_ Hb]. exists g, (at_duty r y (dt r)). split; [|done].
  destruct HI as [HI HQ]. split.
  - apply (r_pc _ _ _ s g ρ t); cbn; rewrite ?Hr, ?Hx, ?He; try done.
    + apply lot_lock; cbn; rewrite ?Hr, ?Hx, ?Hh, ?Hh', ?Hc, ?Hw; try done; [apply HI|].
      intros b'. set_solver.
    + apply Hok. rewrite <- Hx, <- Hr. apply HI.
  - apply (q_role bucket_of s _ ρ t r); try done; [by intros; apply Hco|]. apply Hd. rewrite <- Hr. apply HQ.
Qed.

Definition no_duty (d : duty) : Prop := match d with Free | Seen _ _ => True | _ => False end.

Lemma rwp_bucket_unlock {A} b (k : unit → iprog A) r (x y : pc) Q :
  rpc r = x → pc_hold bucket_of x = [b] → pc_hold bucket_of y = [] →
  pc_cust x = [] → pc_cust y = [] → pc_wait y = pc_wait x →
  (∀ s, pc_ok s t x → extra s t y = extra s t x ∧ pc_ok s t y) →
  no_duty (dt r) → (∀ s a, coming s t r a → coming s t (at_pc r y) a) →
  (∀ s, duty_ok bucket_of s r → duty_ok bucket_of s (at_pc r y)) →
  rwp (k tt) (at_pc r y) Q → rwp (Act (ABucketUnlock b) k) r Q.
Proof.
  intros Hx Hh Hh' Hc Hc' Hw Hok Hn Hco Hd Hk. safe_step s g ρ c HI.
  pose proof (r_role _ _ _ _ HI Hr) as [_ Hb]. exists g, (at_pc r y). split; [|done].
  destruct HI as [HI HQ]. pose proof (ri_pc _ _ _ _ _ _ HI t) as Hpc. rewrite Hr, Hx in Hpc.
  destruct (Hok s Hpc) as [He Hy]. split.
  - apply (r_pc _ _ _ s g ρ t); cbn; rewrite ?Hr, ?Hx, ?He; try done.
    apply lot_unlock; cbn; rewrite ?Hr, ?Hx, ?Hh, ?Hh', ?Hc, ?Hc', ?Hw; try done; [apply HI|set_solver|].
    intros b'. set_solver.
  - apply (q_role bucket_of s _ ρ t r); try done; [by intros; apply Hco|by intros a E; rewrite E in Hn|].
    apply Hd. rewrite <- Hr. apply HQ.
Qed.

(** The thread leaves the bucket of [k], having nothing in custody. *)
Lemma rwp_leave_bucket {A} k (K : unit → iprog A) r Q :
  rpc r = Lk k ∨ (∃ gr, rpc r = Cust k [] gr) → no_duty (dt r) →
  rwp (K tt) (at_pc r Run) Q → rwp (Act (ABucketUnlock (bucket_of k)) K) r Q.
Proof.
  intros Hx Hn HK. apply (rwp_bucket_unlock _ _ _ (rpc r) Run); try done.
  - by destruct Hx as [->|[gr ->]].
  - by destruct Hx as [->|[gr ->]].
  - by destruct Hx as [->|[[] ->]].
  - intros s _. by destruct Hx as [->|[[] ->]].
  - intros s a [E|Hc]; [by rewrite E in Hn|].
    destruct Hx as [E|[[] E]]; rewrite E in Hc; try done. destruct Hc as (_ & x & Hin & _). set_solver.
Qed.

(** The duty of a thread that has been woken with token [v]. *)
Definition wake_duty k (tok : ParkToken) (v : UnparkToken) : duty :=
  if Z.even k && (negb (v =? TOKEN_HANDOFF) && negb (tok =? TOKEN_SHARED)) then Coming k else Free.

(** The thread was woken: it goes on with what it has been given. *)
Lemma rwp_token {A} k tok (K : Z → iprog A) r Q :
  rpc r = Woken k tok → dt r = Free → (Z.even k = true → (length (rh r) + bud r < lim)%nat) →
  (∀ v, rwp (K v) (MkRole ((if Z.even k && (v =? TOKEN_HANDOFF) then [(k, tperm tok)] else [])
                             ++ rh r) (rv r) (bud r) Run (wake_duty k tok v)) Q) →
  rwp (Act AToken K) r Q.
Proof.
  intros Hx Hdt Hb HQ. safe_step s g ρ c HI. pose proof (r_role _ _ _ _ HI Hr) as [_ Hb'].
  destruct HI as [HI HQu]. eexists g, _. split; [|apply HQ]. split.
  - apply (r_pc _ _ _ s g ρ t); cbn; rewrite ?Hr, ?Hx; try done.
    + apply lot_role; [apply HI|..]; cbn; by rewrite Hr, Hx.
    + unfold given. rewrite app_nil_r. apply Permutation_app_comm.
    + apply submseteq_inserts_l; done.
    + rewrite length_app. destruct (Z.even k); cbn; [specialize (Hb eq_refl); case_match; cbn; lia|done].
  - apply (q_role bucket_of s _ ρ t r); try done; cbn; unfold wake_duty.
    + intros k'. by case_match.
    + intros a Ha. unfold coming. rewrite Hx, Hdt. intros [?|(-> & Htok & Hv)]; [done|]. left. cbn.
      rewrite Ha. apply Z.eqb_neq in Htok, Hv. by rewrite Htok, Hv.
    + intros a. by rewrite Hdt.
    + split; [|done]. cbn. destruct (Z.even k && _); [by left|done].
Qed.

(** [lock_bucket_checked]: the key does not change while we wait. *)
Lemma rwp_lock_bucket_checked k tok r Q :
  rpc r = Wait k tok → dt r = Free → Q (k, bucket_of k) (at_pc r (TimeL k tok)) →
  rwp (lock_bucket_checked bucket_of) r Q.
Proof.
  intros Hpc Hdt HQ. apply (wp_iter _ _ _ _ _ (λ _ r', r' = r)); [done|].
  intros [] ? ->. unfold lock_bucket. wp_pure. safe_step s g ρ c HI. exists g, r.
  split; [by apply r_same|]. destruct HI as [HI _]. pose proof (ri_pc _ _ _ _ _ _ HI t) as Hok.
  rewrite Hr, Hpc in Hok. destruct Hok as (-> & _). clear s g ρ c HI Hr. wp_pure.
  apply (rwp_bucket_lock _ _ _ _ (TimeL k tok) _ Hpc); try done.
  { intros s a. unfold coming. by rewrite Hpc. }
  { intros s. unfold duty_ok. rewrite Hpc. cbn. rewrite Hdt. tauto. }
  rewrite Hdt. wp_pure.
  safe_step s g ρ c HI. eexists g, _. split; [by apply r_same|].
  destruct HI as [HI _]. pose proof (ri_pc _ _ _ _ _ _ HI t) as Hok. rewrite Hr in Hok. destruct Hok as (-> & _).
  wp_pure. rewrite Z.eqb_refl. by wp_pure.
Qed.

(** [park]: the locks of the thread change only if one is handed to it. *)
Section park.
Context (k : Z) (tok : ParkToken) (validate : unit → iprog (bool * unit))
  (timed_out : unit → Z → bool → iprog unit) (timeout : option Z) (r : role).
Context (Hpc : rpc r = Run) (Hdt : dt r = Free).
Context (Hbud : Z.even k = true → (length (rh r) + bud r < lim)%nat)
  (Htok : Z.even k = true → token_ok tok).
Context (Hval : rwp (validate tt) (at_pc r (Lk k))
  (λ v r', r' = at_duty r (Lk k) (if v.1 then Valid k else Free))).
Context (Hout : ∀ last, (Z.even k = false → last = true) →
  rwp (timed_out tt k last) (at_duty r (Lk k) (Seen k (negb last)))
    (λ _ r', ∃ d, no_duty d ∧ r' = at_duty r (Lk k) d)).

Definition granted (v : UnparkToken) : role :=
  MkRole ((if Z.even k && (v =? TOKEN_HANDOFF) then [(k, tperm tok)] else []) ++ rh r)
    (rv r) (bud r) Run (wake_duty k tok v).

Lemma at_run : at_pc r Run = r.
Proof. destruct r. cbn in *. by subst. Qed.

(** The thread takes itself out of the queue. *)
Lemma rwp_dequeue {A} (K : option bool → iprog A) Q :
  (∀ last, (Z.even k = false → last = true) →
     rwp (K (Some last)) (at_duty r (Lk k) (Seen k (negb last))) Q) →
  rwp (Act (ADequeue (bucket_of k) k) K) (at_pc r (TimeQ k tok)) Q.
Proof.
  intros HK. safe. intros s g ρ c s' v Hr HI Hex. cbn in Hex.
  pose proof (r_role _ _ _ _ HI Hr) as [_ Hb]. cbn in Hb.
  pose proof (ri_pc _ _ _ _ _ _ (proj1 HI) t) as Hok. rewrite Hr in Hok. destruct Hok as [(Hk & _) Hp].
  assert (Hq : t ∈ bqueue s (bucket_of k)).
  { rewrite <- Hk. apply (lot_in_queue bucket_of _ _ _ _ t (ri_lot _ _ _ _ _ _ (proj1 HI))); cbn;
      rewrite ?Hr, ?Hk; try done. set_solver. }
  unfold Spec.park_dequeue in Hex. rewrite decide_True in Hex by done.
  injection Hex as <- <-. set (l' := filter _ _).
  assert (Hl' : ∀ u, u ∈ l' → u ∈ bqueue s (bucket_of k) ∧ u ≠ t) by (intros u; unfold l'; rewrite list_elem_of_filter; tauto).
  assert (Hnone : Spec.waiting (key_of s) k l' = false → ∀ u, u ∈ l' → td_key (td s u) ≠ k).
  { intros Hw u Hu E. apply bool_decide_eq_false in Hw. apply Hw, Exists_exists. eauto. }
  eexists g, _. split; [|apply (HK (negb (Spec.waiting (key_of s) k l')))].
  2:{ intros Hodd. apply negb_true_iff, bool_decide_eq_false. intros (u & Hu & E)%Exists_exists.
      destruct (Hl' u Hu) as [Hu' Hne]. apply Hne. destruct HI as [HI HQ].
      apply (waits_unique bucket_of n lim s g ρ u t (k - 1)); rewrite ?Z.sub_add; try done.
      - by rewrite Z.even_sub, Hodd.
      - by left.
      - by left. }
  destruct HI as [HI HQ]. split.
  - apply (r_pc _ _ _ s g ρ t); cbn; rewrite ?Hr; try done.
    apply lot_dequeue; [apply HI|done|..]; cbn; by rewrite ?Hr.
  - apply (q_shrink bucket_of s _ ρ t _ _ k l' HQ Hr); try done.
    + intros u Hu. by apply Hl'.
    + intros a _ Hc. unfold coming in Hc. cbn in Hc. by destruct Hc.
    + intros u Hu. apply (lot_hold_unique bucket_of _ _ _ _ _ _ _ (ri_lot _ _ _ _ _ _ HI) Hu). rewrite Hr. cbn. set_solver.
    + split; [|done]. cbn. split; [set_solver|]. rewrite negb_involutive. intros Hw u [Hu E]. cbn in Hu, E.
      rewrite fn_insert_eq in Hu. by apply (Hnone Hw u).
Qed.

Lemma rwp_timed_out (Q : ParkResult * unit → role → Prop) :
  (∀ v, Q (Unparked v, tt) (granted v)) → Q (TimedOut, tt) r →
  rwp (Bind (Act ATimedOut Ret) (λ to : bool,
           if negb to then
             Bind (unlock_bucket (bucket_of k)) (λ _,
             Bind (Act AToken Ret) (λ token, Ret (Unparked token, tt)))
           else
             Bind (Act (ADequeue (bucket_of k) k) Ret) (λ was_last_thread : option bool,
               match was_last_thread with
               | Some was_last_thread =>
                   Bind (timed_out tt k was_last_thread) (λ e,
                   Bind (unlock_bucket (bucket_of k)) (λ _, Ret (TimedOut, e)))
               | None => Panic "debug_assert!(!current.is_null())"
               end)))%prog (at_pc r (TimeL k tok)) Q.
Proof.
  intros HU HT. wp_pure. safe_step s g ρ c HI.
  pose proof (ri_pc _ _ _ _ _ _ (proj1 HI) t) as Hok. rewrite Hr in Hok. cbn in Hok.
  pose proof (r_role _ _ _ _ HI Hr) as [_ Hb]. cbn in Hb. destruct HI as [HI HQ].
  destruct (q_duty _ _ _ HQ t) as [_ Hd]. rewrite Hr in Hd. cbn in Hd.
  destruct (td_parked (td s t)) eqn:Hp; cbn [negb].
  - exists g, (at_pc r (TimeQ k tok)). split; [split|].
    { apply (r_pc _ _ _ s g ρ t); cbn; rewrite ?Hr; cbn; rewrite ?Hp; try done.
      apply lot_role; [apply HI|..]; cbn; by rewrite Hr. }
    { apply (q_role bucket_of s _ ρ t _ _ HQ Hr); try done. intros a _. unfold coming. cbn. rewrite Hp. by intros [|[]]. }
    clear s g ρ c HI HQ Hr Hok Hp Hd. wp_pure. apply rwp_dequeue. intros last Hlast.
    wp_pure. eapply wp_mono; [|by apply Hout]. intros [] ? (d & Hd & ->). unfold unlock_bucket. wp_pure.
    apply rwp_leave_bucket; [by left|done|]. rewrite <- at_run in HT. by wp_pure.
  - exists g, (at_pc r (WokenL k tok)). split; [split|].
    { apply (r_pc _ _ _ s g ρ t); cbn; rewrite ?Hr; cbn; rewrite ?Hp; try done.
      apply lot_leave; [apply HI|done|..]; cbn; by rewrite ?Hr. }
    { apply (q_role bucket_of s _ ρ t _ _ HQ Hr); try done. intros a _. unfold coming. cbn. by intros [|[_ ?]]; [|right]. }
    unfold unlock_bucket. wp_pure.
    apply (rwp_bucket_unlock _ _ _ (WokenL k tok) (Woken k tok)); try done. wp_pure.
    apply (rwp_token k tok); [done|done|exact Hbud|]. intros v. wp_pure. apply HU.
Qed.

Lemma rwp_park (Q : ParkResult * unit → role → Prop) :
  (∀ v, Q (Unparked v, tt) (granted v)) → Q (Invalid, tt) r →
  (is_Some timeout → Q (TimedOut, tt) r) →
  rwp (park bucket_of k validate (Ret tt) timed_out tok timeout tt) r Q.
Proof.
  intros HU HV HT. unfold park, lock_bucket. wp_pure.
  apply (rwp_bucket_lock _ _ _ Run (Lk k) _ Hpc); try done.
  { intros s a. unfold coming. by rewrite Hpc. }
  { intros s _. unfold duty_ok. cbn. by rewrite Hdt. }
  rewrite Hdt. wp_pure.
  eapply wp_mono; [|apply Hval]. intros [valid []] ? ->. cbn [fst].
  destruct valid; cbn [negb].
  2:{ unfold unlock_bucket. wp_pure. apply rwp_leave_bucket; [by left|done|].
      wp_pure. rewrite <- at_run in HV. exact HV. }
  safe_step s g ρ c HI. exists g, (at_pc r (WaitL k tok)). split.
  { destruct HI as [HI HQ]. split.
    - by apply (r_enqueue bucket_of n lim s g ρ t (at_duty r (Lk k) (Valid k)) k tok).
    - by apply (q_enqueue bucket_of n lim s g ρ t (at_duty r (Lk k) (Valid k)) k tok). }
  clear s g ρ c Hr HI. unfold unlock_bucket. wp_pure.
  apply (rwp_bucket_unlock _ _ _ (WaitL k tok) (Wait k tok)); try done.
  { intros s [Hk Hp]. cbn. by rewrite Hp. }
  { intros s a. unfold coming. cbn. by intros [|[]]. }
  wp_pure. apply wp_act.
  { intros s g ρ Hr HI. cbn. destruct (td_parked (td s t)) eqn:Hp; [right|left; exists 0; by eexists].
    right. split; [done|]. by exists k, tok. }
  intros s g ρ c s' v Hr HI Hex. cbn in Hex.
  pose proof (r_role _ _ _ _ HI Hr) as [_ Hb]. cbn in Hb.
  destruct (td_parked (td s t)) eqn:Hp; cbn [negb] in Hex.
  - destruct timeout as [d|]; [|done]. destruct (deadline_passed (Some d) c); [|done]. injection Hex as <- <-.
    eexists g, _. split; [by apply r_same|]. wp_pure.
    apply (rwp_lock_bucket_checked k tok); [done|done|]. cbn beta iota zeta.
    apply (rwp_timed_out Q HU). by apply HT.
  - injection Hex as <- <-. exists g, (at_pc r (Woken k tok)). split.
    { destruct HI as [HI HQ]. destruct (q_duty _ _ _ HQ t) as [_ Hd]. rewrite Hr in Hd. split.
      - apply (r_pc _ _ _ s g ρ t); cbn; rewrite ?Hr; cbn; rewrite ?Hp; try done.
        apply lot_leave; [apply HI|done|..]; cbn; by rewrite ?Hr.
      - apply (q_role bucket_of s _ ρ t _ _ HQ Hr); try done. intros a _. unfold coming. cbn.
        by intros [|[_ ?]]; [|right]. }
    wp_pure. apply (rwp_token k tok); [done|done|exact Hbud|]. intros v. wp_pure. apply HU.
Qed.
End park.

(** ** Waking threads *)

Definition grant_token (gr : bool) : UnparkToken := if gr then TOKEN_HANDOFF else TOKEN_NORMAL.

Lemma wait_not_coming s w k tok r a :
  rpc r = Wait k tok → dt r = Free → td_parked (td s w) = true → ¬ coming s w r a.
Proof. unfold coming. intros -> -> ->. by intros [|[]]. Qed.

(** The token of the first thread in custody is set, then the thread released. *)
Lemma rwp_set_token {A} k w tok ws gr (K : unit → iprog A) r Q :
  rpc r = Cust k ((w, tok) :: ws) gr → rwp (K tt) (at_pc r (CustT k w tok ws gr)) Q →
  rwp (Act (ASetToken w (grant_token gr)) K) r Q.
Proof.
  intros Hpc HK. safe_step s g ρ c HI. exists g, (at_pc r (CustT k w tok ws gr)). split; [|exact HK].
  destruct HI as [HI HQ]. split; [by apply (r_set_token bucket_of n lim s g ρ t r k w tok ws gr)|].
  assert (Hw : w ∈ pc_cust (rpc (ρ t))) by (rewrite Hr, Hpc; cbn; set_solver).
  destruct (rw_cust_wait _ _ _ _ _ _ _ _ HI Hw) as (Hne & _ & Hpk & k' & tok' & Ew & Hk & _).
  destruct (q_duty _ _ _ HQ w) as [_ Hdw]. rewrite Ew in Hdw. destruct Hdw as [Hdw _].
  destruct (q_duty _ _ _ HQ t) as [Hdt _]. rewrite Hr, Hpc in Hdt.
  apply (q_data bucket_of s ρ t r); try done.
  - intros a E. rewrite E in Hdt. by destruct Hdt.
  - intros a. by eapply wait_not_coming.
  - intros a _ Hc. left. unfold coming in *. rewrite Hpc in Hc. cbn.
    destruct Hc as [E|Hc]; [rewrite E in Hdt; by destruct Hdt|by right].
Qed.

Lemma rwp_unpark_lock {A} k w tok ws gr (K : unit → iprog A) r Q :
  rpc r = CustT k w tok ws gr → rwp (K tt) (at_pc r (Cust k ws gr)) Q →
  rwp (Act (AUnparkLock w) K) r Q.
Proof.
  intros Hpc HK. safe_step s g ρ c HI.
  assert (HQ' : QInv bucket_of (set_td w (MkTD (td_key (td s w)) (td_unpark_token (td s w))
    (td_park_token (td s w)) (td_timed (td s w)) false) s) (<[t := at_pc r (Cust k ws gr)]> ρ)).
  { destruct HI as [HI HQ].
    assert (Hw : w ∈ pc_cust (rpc (ρ t))) by (rewrite Hr, Hpc; cbn; set_solver).
    destruct (rw_cust_wait _ _ _ _ _ _ _ _ HI Hw) as (Hne & _ & Hpk & k' & tok' & Ew & Hk & _).
    destruct (q_duty _ _ _ HQ w) as [_ Hdw]. rewrite Ew in Hdw. destruct Hdw as [Hdw _].
    destruct (q_duty _ _ _ HQ t) as [Hdt _]. rewrite Hr, Hpc in Hdt.
    pose proof (ri_pc _ _ _ _ _ _ HI t) as Hok. rewrite Hr, Hpc in Hok. destruct Hok as (_ & _ & Htk & Hx).
    destruct (Hx (w, tok) ltac:(by left)) as [Hkw Hpw]. cbn in Hkw, Hpw.
    destruct Hk as (Hk1 & Hk2 & _).
    assert (k' = k) as -> by congruence. assert (tok' = tok) as -> by congruence.
    apply (q_data bucket_of s ρ t r); try done.
    - intros a E. rewrite E in Hdt. by destruct Hdt.
    - intros a. by eapply wait_not_coming.
    - intros a _ Hc. unfold coming in Hc. rewrite Hpc in Hc.
      destruct Hc as [E|Hc]; [rewrite E in Hdt; by destruct Hdt|]. destruct gr; [done|].
      destruct Hc as (-> & x & [->|Hin]%elem_of_cons & Hsh).
      + right. unfold coming. rewrite Ew. right. unfold woken_for. cbn. fn_simp. cbn. rewrite Htk. done.
      + left. right. cbn. split; [done|]. by exists x. }
  destruct HI as [HI HQ].
  destruct (r_unpark_lock bucket_of n lim s g ρ t r k w tok ws gr HI Ht Hr Hpc) as [g' HI'].
  exists g', (at_pc r (Cust k ws gr)). split; [|exact HK]. by split.
Qed.

Lemma rwp_prepare k ws gr r Q :
  rpc r = Cust k ws gr → (∀ d, no_duty d → Q tt (at_duty r (Cust k [] gr) d)) → no_duty (dt r) →
  rwp (prepare_unpark ws.*1 (grant_token gr)) r Q.
Proof.
  revert r. induction ws as [|[w tok] ws IH]; intros r Hpc HQ Hd; cbn [fmap list_fmap fst prepare_unpark].
  { apply wp_ret. destruct r as [h v b x d]. cbn in Hpc, Hd. subst x. by apply HQ. }
  apply (rwp_set_token k w tok ws gr); [done|]. apply (rwp_unpark_lock k w tok ws gr); [done|]. by apply IH.
Qed.

Lemma rwp_wake_handles ws r Q : Q tt r → rwp (wake_handles ws) r Q.
Proof.
  intros HQ. induction ws as [|w ws IH]; cbn; [by apply wp_ret|].
  apply (rwp_look (AWake w)); [by eexists|by intros; simplify_eq/=|done].
Qed.

(** The threads taken out of the queue of [k]. *)
Lemma r_take s g ρ r k ws rest f m :
  rinv s g ρ → ρ t = r → rpc r = Lk k →
  NoDup ws → NoDup rest → (∀ u, u ∈ bqueue s (bucket_of k) ↔ u ∈ ws ∨ u ∈ rest) →
  (∀ u, u ∈ ws → u ∉ rest) → (∀ u, u ∈ ws → td_key (td s u) = k) →
  (∀ k', dt r ≠ Valid k') → (m = false → ∀ u, u ∈ rest → td_key (td s u) ≠ k) →
  (m = true → dt r = Coming k → ∃ u, u ∈ ws ∧ td_park_token (td s u) ≠ TOKEN_SHARED) →
  (m = true → ∀ a, dt r ≠ Leaver a) →
  let cs := (λ u, (u, td_park_token (td s u))) <$> ws in
  rinv (MkState (mem s) (bmutex s) (<[bucket_of k := rest]> (bqueue s)) f (td s) (live s)) g
    (<[t := at_duty r (Cust k cs false) (Seen k m)]> ρ) ∧
  Z.of_nat (length ws) ≤ 2 ^ 58.
Proof.
  intros [HI HQ] Hr Hpc Hnd Hnr Hcov Hdis Hk Hv Hm Hcom Hlv cs.
  assert (Ews : cs.*1 = ws).
  { unfold cs. rewrite <- list_fmap_compose. cbn. apply list_fmap_id. }
  pose proof (r_role s g ρ r (conj HI HQ) Hr) as [_ Hb].
  destruct (q_duty _ _ _ HQ t) as [Hd _]. rewrite Hr, Hpc in Hd. split; [split|].
  - apply (r_pc _ _ _ s g ρ t); cbn; rewrite ?Hr, ?Hpc; try done.
    + apply (lot_take _ _ _ _ _ _ _ ws); cbn; rewrite ?Hr, ?Hpc, ?Ews; try done; [apply HI|set_solver].
    + rewrite Ews. split; [done|]. split; [done|].
      intros x (u & -> & Hu)%list_elem_of_fmap. cbn. auto.
  - apply (q_shrink bucket_of s _ ρ t r _ k rest HQ Hr); try done; cbn.
    + intros u Hu. apply Hcov. by right.
    + intros a _ Hc. unfold coming in Hc. rewrite Hpc in Hc. destruct Hc as [E|[]].
      rewrite E in Hd. destruct Hd as [?|[= ->]]; [done|]. destruct m; [left; right|right; auto].
      cbn. split; [done|]. destruct (Hcom eq_refl E) as (u & Hu & Hs). exists (u, td_park_token (td s u)).
      split; [|done]. unfold cs. apply list_elem_of_fmap. eauto.
    + intros a E. rewrite E in Hd. destruct Hd as [?|[= ->]]; [done|]. right.
      destruct m; [by destruct (Hlv eq_refl a)|auto].
    + intros u Hu. apply (lot_hold_unique bucket_of _ _ _ _ _ _ _ (ri_lot _ _ _ _ _ _ HI) Hu). rewrite Hr. cbn.
      rewrite Hpc. cbn. set_solver.
    + split; [|done]. cbn. split; [set_solver|]. intros E u [Hu Eu]. cbn in Hu, Eu. rewrite fn_insert_eq in Hu.
      by apply (Hm E u).
  - assert (length ws ≤ length (seq 0 n))%nat.
    { apply submseteq_length, NoDup_submseteq; [done|]. intros u Hu. apply elem_of_seq.
      assert (Hq : u ∈ bqueue s (bucket_of k)) by (apply Hcov; by left).
      apply (li_queue _ _ _ _ _ (ri_lot _ _ _ _ _ _ HI)) in Hq as (Hw & _).
      destruct (decide (u < n)%nat); [lia|].
      destruct (ri_idle _ _ _ _ _ _ HI u ltac:(lia)) as [_ E]. cbn in Hw. by rewrite E in Hw. }
    rewrite length_seq in *. assert (n ≤ n * (lim + n + 1))%nat by nia. lia.
Qed.

Lemma queued_token s g ρ a x :
  rinv s g ρ → Z.even a = true → x ∈ bqueue s (bucket_of a) → td_key (td s x) = a →
  token_ok (td_park_token (td s x)).
Proof.
  intros [HI _] Ha Hx Hk. pose proof (li_queue _ _ _ _ _ (ri_lot _ _ _ _ _ _ HI) _ _ Hx) as (Hwt & _).
  pose proof (ri_pc _ _ _ _ _ _ HI x) as Hok. cbn in Hwt.
  destruct (rpc (ρ x)); try done; cbn in Hok; unfold key_ok in Hok; naive_solver.
Qed.

(** Threads that ask for more than to read. *)
Lemma not_only_readers {T} (τ : T → ParkToken) (ws : list T) :
  (∀ x, x ∈ ws → token_ok (τ x)) →
  0 < cnt PU ((λ x, tperm (τ x)) <$> ws) + cnt PP ((λ x, tperm (τ x)) <$> ws) →
  ∃ x, x ∈ ws ∧ τ x ≠ TOKEN_SHARED.
Proof.
  induction ws as [|x ws IH]; intros Hok H; [by rewrite !cnt_nil in H|].
  destruct (decide (τ x = TOKEN_SHARED)) as [E|E]; [|exists x; split; [by left|done]].
  destruct IH as (y & Hy & Hne); [intros y Hy; apply Hok; by right| |exists y; split; [by right|done]].
  rewrite fmap_cons, !cnt_cons, E in H. exact H.
Qed.

Lemma rwp_unpark_filter a (s0 u0 p0 : Z) (callback : Z → UnparkResult → iprog UnparkToken) r Q :
  Z.even a = true → rpc r = Run → (∃ x, phase s0 x u0 p0) →
  dt r = Free ∨ (dt r = Coming a ∧ u0 + p0 = 0) →
  (∀ ws e result, (∀ x, x ∈ ws → token_ok x.2) → Z.of_nat (length ws) ≤ 2 ^ 58 →
     let ps := (λ x : tid * ParkToken, tperm x.2) <$> ws in
     (s0 = 0 → phase e (cnt PS ps) (cnt PU ps) (cnt PP ps)) →
     (have_more_threads result = true → taken e = true ∧
        (u0 + p0 = 0 → ∃ x, x ∈ ws ∧ x.2 ≠ TOKEN_SHARED)) →
     rwp (callback e result) (at_duty r (Cust a ws false) (Seen a (have_more_threads result))) (λ tok r',
       ∃ r1 gr d, r' = at_duty r1 (Cust a ws gr) d ∧ no_duty d ∧ tok = grant_token gr ∧
         Q result (at_pc r1 Run))) →
  rwp (unpark_filter bucket_of a wake_filter s0 callback) r Q.
Proof.
  intros Ha Hpc [x0 Hs0] Hdt Hcb. unfold unpark_filter, lock_bucket. wp_pure.
  apply (rwp_bucket_lock _ _ _ Run (Lk a) _ Hpc); try done.
  { intros s b. unfold coming. by rewrite Hpc. }
  { intros s _. unfold duty_ok. cbn. destruct Hdt as [->|[-> _]]; [done|]. split; [by right|done]. }
  wp_pure. safe. intros s g ρ c s' v Hr HI Hex. cbn in Hex.
  destruct (Spec.unpark_filter (key_of s) (token_of s) wake_filter a s0 (bqueue s (bucket_of a)))
    as [[[ws rest] more] e] eqn:Ef.
  pose proof (li_nodup _ _ _ _ _ (ri_lot _ _ _ _ _ _ (proj1 HI)) (bucket_of a)) as Hnd.
  pose proof (filter_permutation _ _ _ _ _ _ _ _ _ _ Ef) as Hperm.
  rewrite <- Hperm in Hnd. apply NoDup_app in Hnd as (Hnw & Hdis & Hnr).
  assert (Htok : ∀ x, x ∈ bqueue s (bucket_of a) → td_key (td s x) = a →
                 token_ok (td_park_token (td s x))) by (intros x; by eapply queued_token).
  pose proof (λ x y z Hp, filter_phase _ _ a s0 x y z _ _ _ _ _ Htok Hp Ef) as Hph.
  destruct (Hph _ _ _ Hs0) as [Hp0 Hin].
  pose proof (filter_no_more _ _ _ _ _ _ _ _ _ _ Ef) as Hnone.
  pose proof (filter_more _ _ _ _ _ _ _ _ _ _ _ _ Htok Hs0 Ef) as Hmore. cbn zeta in Hmore.
  assert (Hsome : more = true → u0 + p0 = 0 → ∃ u, u ∈ ws ∧ td_park_token (td s u) ≠ TOKEN_SHARED).
  { intros Hm H0. apply (not_only_readers (token_of s)); [intros u Hu; by apply Hin|]. specialize (Hmore Hm). lia. }
  assert (Htaken : more = true → taken e = true).
  { intros Hm. specialize (Hmore Hm). unfold taken, has_bits. destruct (phase_word_bits _ _ _ _ Hp0) as [Hw Hu].
    unfold has_bits in Hw, Hu. rewrite Z.land_lor_distr_r, negb_true_iff, Z.eqb_neq, Z.lor_eq_0_iff.
    intros [E1 E2]. rewrite E1 in Hw. rewrite E2 in Hu. cbn in Hw, Hu. symmetry in Hw, Hu.
    apply Z.eqb_neq in Hw, Hu. destruct Hp0 as (_ & _ & ? & ? & ?). lia. }
  assert (Hs' : ∃ f b, s' = MkState (mem s) (bmutex s) (<[bucket_of a := rest]> (bqueue s)) f (td s) (live s) ∧
    v = (ws, e, MkUnparkResult (Z.of_nat (length ws)) 0 more b)).
  { destruct (bool_decide (ws = [])); [injection Hex as <- <-; by eexists _, _|].
    unfold should_timeout in Hex. destruct (FairTimeout.should_timeout _ _) as [b f].
    injection Hex as <- <-. by eexists _, _. }
  destruct Hs' as (f & b & -> & ->).
  destruct (r_take s g ρ _ a ws rest f more HI Hr eq_refl) as [HI' Hlen]; try done.
  { intros u. by rewrite <- Hperm, elem_of_app. }
  { intros u Hu. by apply Hin. }
  { intros k'. cbn. by destruct Hdt as [->|[-> _]]. }
  { intros Hm E. cbn in E. destruct Hdt as [E'|[_ H0]]; [congruence|auto]. }
  { intros _ b'. cbn. by destruct Hdt as [->|[-> _]]. }
  set (cs := (λ u, (u, td_park_token (td s u))) <$> ws) in *.
  assert (Ecs : cs.*1 = ws).
  { unfold cs. rewrite <- list_fmap_compose. cbn. apply list_fmap_id. }
  eexists g, _. split; [exact HI'|]. wp_pure.
  eapply wp_mono; [|apply (Hcb cs e (MkUnparkResult (Z.of_nat (length ws)) 0 more b))].
  - intros tok r' (r1 & gr & d & -> & Hd & -> & HQ). wp_pure. rewrite <- Ecs.
    apply (rwp_prepare a cs gr); [done| |done]. intros d' Hd'. unfold unlock_bucket. wp_pure.
    apply rwp_leave_bucket; [right; by exists gr|done|].
    wp_pure. apply rwp_wake_handles. wp_pure. rewrite Ecs. exact HQ.
  - intros x (u & -> & Hu)%list_elem_of_fmap. by apply Hin.
  - unfold cs. by rewrite length_fmap.
  - intros ->. destruct (Hph 0 0 0) as [Hp _]; [by unfold phase|].
    unfold cs. rewrite <- list_fmap_compose. exact Hp.
  - cbn. intros Hm. split; [auto|]. intros H0. destruct (Hsome Hm H0) as (u & Hu & Hs).
    exists (u, td_park_token (td s u)). split; [|done]. unfold cs. apply list_elem_of_fmap. eauto.
Qed.

(** [unpark_one] on the key of the writer that waits for the readers. *)
Lemma rwp_unpark_one a callback r Q :
  Z.even a = true → rpc r = Run → dt r = Free ∨ dt r = Leaver a →
  (∀ result x, static x = true → cust_perms x = [] →
     rwp (callback result) (at_duty r x (Seen (a + 1) false)) (λ tok r', r' = at_pc r x ∧ tok = TOKEN_NORMAL)) →
  (∀ result, Q result (at_pc r Run)) → rwp (unpark_one bucket_of (a + 1) callback) r Q.
Proof.
  intros Ha Hpc Hdt Hcb HQ. unfold unpark_one, lock_bucket. set (k := a + 1) in *. wp_pure.
  apply (rwp_bucket_lock _ _ _ Run (Lk k) _ Hpc); try done.
  { intros s b. unfold coming. by rewrite Hpc. }
  { intros s _. unfold duty_ok. cbn. destruct Hdt as [->| ->]; [done|]. split; [by right|done]. }
  wp_pure. safe. intros s g ρ c s' v Hr HI Hex. cbn in Hex. unfold Spec.unpark_one in Hex.
  destruct (Spec.pop_first (key_of s) k (bqueue s (bucket_of k))) as [[w l]|] eqn:Ep.
  - unfold should_timeout in Hex. destruct (FairTimeout.should_timeout _ _) as [fr f].
    injection Hex as <- <-.
    destruct (Spec.pop_first_Some _ _ _ _ _ Ep) as (pre & suf & El & -> & Hk & _).
    pose proof (li_nodup _ _ _ _ _ (ri_lot _ _ _ _ _ _ (proj1 HI)) (bucket_of k)) as Hnd.
    rewrite El in Hnd. apply NoDup_app in Hnd as (Hn1 & Hd & [Hw Hn2]%NoDup_cons).
    destruct (r_take s g ρ _ k [w] (pre ++ suf) (<[bucket_of k := f]> (bfair s)) false HI Hr eq_refl)
      as [HI' _]; [apply NoDup_singleton|apply NoDup_app; set_solver|rewrite El; set_solver
                  |set_solver|set_solver|intros k'; cbn; by destruct Hdt as [->| ->]| |done|done|].
    { intros _ u Hu E. assert (u = w) as ->; [|set_solver]. destruct HI as [HI HQi].
      apply (waits_unique bucket_of n lim s g ρ u w a); try done; left; (split; [fold k; rewrite El; set_solver|done]). }
    eexists g, _. split; [exact HI'|]. wp_pure.
    eapply wp_mono; [|by apply (Hcb _ (Cust k _ false))]. intros tok r' [-> ->].
    change ((λ u, (u, td_park_token (td s u))) <$> [w]) with [(w, td_park_token (td s w))].
    generalize (td_park_token (td s w)). intros tok0.
    apply (rwp_set_token k w tok0 [] false); [done|]. apply (rwp_unpark_lock k w tok0 [] false); [done|].
    unfold unlock_bucket. wp_pure. apply rwp_leave_bucket; [right; by exists false|done|]. wp_pure.
    apply (rwp_look (AWake w)); [by eexists|by intros; simplify_eq/=|]. intros _. apply wp_ret, HQ.
  - injection Hex as <- <-. apply Spec.pop_first_None_inv in Ep. rewrite Forall_forall in Ep.
    exists g, (at_duty r (Lk k) (Seen k false)). split.
    { destruct HI as [HI HQi]. split.
      - apply (r_pc _ _ _ s g ρ t); cbn; rewrite ?Hr; try done; [|].
        + apply lot_role; [apply HI|..]; cbn; by rewrite Hr.
        + pose proof (r_role s g ρ _ (conj HI HQi) Hr) as [_ Hb]. exact Hb.
      - apply (q_frame bucket_of s); try done.
        + intros u k' [Hu|Hu]; [by left|]. revert Hu. fn_cases t u; [done|]. by right.
        + intros b _ [u Hu]. left. exists u. fn_cases t u; [|done].
          unfold coming in Hu. rewrite Hr in Hu. cbn in Hu. destruct Hu as [Hu|[]]. by destruct Hdt as [E|E]; rewrite E in Hu.
        + intros b [u Hu]. destruct (decide (t = u)) as [<-|Hne]; [|left; exists u; by fn_simp].
          right. rewrite Hr in Hu. cbn in Hu. destruct Hdt as [E|E]; rewrite E in Hu; [done|].
          injection Hu as ->. intros u Hu.
          assert (Hd : dt (ρ u) = Valid k → False).
          { intros Ev. destruct (q_duty _ _ _ HQi u) as [Hdu _]. rewrite Ev in Hdu. destruct Hdu as [Hdu _].
            assert (u = t) as ->; [|rewrite Hr in Ev; cbn in Ev; congruence].
            apply (lot_hold_unique bucket_of _ _ _ _ (bucket_of k) _ _ (ri_lot _ _ _ _ _ _ HI)).
            - cbn. rewrite Hdu. cbn. set_solver.
            - rewrite Hr. cbn. set_solver. }
          destruct Hu as [[Hu Ek]|Hu]; [by apply (Ep u)|]. revert Hu. fn_cases t u; [done|]. exact Hd.
        + split; [|done]. cbn. split; [set_solver|]. intros _ u [Hu Ek]. by apply (Ep u). }
    wp_pure. eapply wp_mono; [|by apply (Hcb _ (Lk k))]. intros tok r' [-> _]. unfold unlock_bucket. wp_pure.
    apply rwp_leave_bucket; [by left|done|]. wp_pure. apply HQ.
Qed.
End rules.
