(* ===== verification/RwLockProof.v ===== *)
(** * The operations of RawRwLock

    Every operation of the reader-writer lock is verified with the rules of
    [RwLockRules]: for any number of locks, threads and hash collisions, with
    any interleaving of shared, upgradable and exclusive locks, upgrades,
    downgrades, timeouts, and fair and unfair unlocks, a writer's guard is
    alone, nothing panics, and who leaves a lock wakes those that wait for it. *)

From S2P Require Import Prelude Conc LotTypes SpinWait FairTimeout BucketQueue ParkingLot LotInv RawMutex RawRwLock RwLockWord RwLockInv RwLockQueue RwLockRules.
Import RawRwLock.
Local Open Scope Z_scope.

Section operations.
Context (bucket_of : Z → nat) (n lim : nat).
Context (Hlim : Z.of_nat (n * (lim + n + 1)) ≤ 2 ^ 58).
Context (t : tid) (Ht : (t < n)%nat).
Implicit Types (s : state) (g : ghost) (ρ : tid → role) (r : role) (a k : Z).

Abbreviation rwp := (wp exec (RwInv bucket_of n lim) rw_panic (rw_blocked bucket_of) t).
Abbreviation moves := (RwLockRules.moves bucket_of lim t).
Abbreviation step_to := (RwLockRules.step_to bucket_of lim t).
Abbreviation rwp_load := (RwLockRules.rwp_load bucket_of n lim Hlim t Ht).
Abbreviation rwp_look := (RwLockRules.rwp_look bucket_of n lim t Ht).
Abbreviation rwp_park := (RwLockRules.rwp_park bucket_of n lim Hlim t Ht).
Abbreviation rwp_unpark_one := (RwLockRules.rwp_unpark_one bucket_of n lim Hlim t Ht).
Abbreviation rwp_rmw := (RwLockRules.rwp_rmw bucket_of n lim Hlim t Ht).
Abbreviation rwp_store := (RwLockRules.rwp_store bucket_of n lim Hlim t Ht).
Abbreviation rwp_cas_load := (RwLockRules.rwp_cas_load bucket_of n lim Hlim t Ht).
Abbreviation rwp_unpark_filter := (RwLockRules.rwp_unpark_filter bucket_of n lim Hlim t Ht).

(** ** Changes of the word *)

(** The counts of the locks of the thread, computed. *)
Ltac counts H :=
  cbn [app] in H |- *; rewrite ?cnt_cons in H; rewrite ?cnt_cons;
  repeat first [rewrite decide_True in H by done|rewrite decide_False in H by done
               |rewrite decide_True by done|rewrite decide_False by done];
  rewrite ?Z.add_0_l in H; rewrite ?Z.add_0_l.
Ltac trans_intro l H :=
  let Hn := fresh "Hlen" in
  intros l Hn H; rewrite length_app in Hn;
  pose proof (cnt_nonneg PS l); pose proof (cnt_nonneg PU l);
  pose proof (cnt_nonneg PP l); pose proof (cnt_nonneg PW l);
  pose proof (cnt_length l); counts H;
  pose proof (wd_one _ _ _ _ _ H); pose proof (wd_alone _ _ _ _ _ H).

Lemma seen_range old X : seen old X → 0 ≤ old < 2 ^ 64.
Proof. intros (l & _ & H). apply H. Qed.

Lemma trans_body old new X : same_body old new → trans old new X X.
Proof. intros Hb l _. by apply wd_same_body. Qed.

(** The sum of the word with the next lock fits. *)
Lemma fits (v s u p w d : Z) :
  wd v s u p w → d mod 4 = 0 → v + d < 2 ^ 64 →
  16 * s + 20 * u + 8 * p + 8 * w + d + 3 < 2 ^ 64.
Proof.
  intros H Hd Hv. destruct (wd_split _ _ _ _ _ H) as [E _]. pose proof (mod4 v).
  pose proof (Z.div_mod d 4 ltac:(lia)). lia.
Qed.

Lemma trans_shared recursive v :
  shared_blocked recursive v = false → v + ONE_READER < 2 ^ 64 →
  trans v (v + ONE_READER) [] [PS].
Proof.
  intros Hb Hv. trans_intro l H. unfold shared_blocked in Hb.
  rewrite (writer_bit H), (readers_bits H), negb_involutive in Hb.
  pose proof (fits _ _ _ _ _ 16 H eq_refl Hv) as Hf.
  assert (cnt PW l = 0).
  { destruct (Z.eqb_spec (cnt PP l + cnt PW l) 1), (Z.eqb_spec (cnt PS l + cnt PU l) 0),
      recursive; cbn in Hb; try done; lia. }
  eapply wd_shift; [exact H|..]; unfold ONE_READER; lia.
Qed.

Lemma trans_upgradable v :
  has_bits v (Z.lor WRITER_BIT UPGRADABLE_BIT) = false → v + ONE_UPGRADABLE < 2 ^ 64 →
  trans v (v + ONE_UPGRADABLE) [] [PU].
Proof.
  intros Hb Hv. trans_intro l H. rewrite (writer_or_upgradable H) in Hb.
  change ONE_UPGRADABLE with 20 in *. pose proof (fits _ _ _ _ _ 20 H eq_refl Hv) as Hf.
  destruct (Z.eqb_spec (cnt PU l + cnt PP l + cnt PW l) 1); [done|].
  eapply wd_shift; [exact H|..]; lia.
Qed.

Lemma lor_writer (v s : Z) : wd v s 0 0 0 → Z.lor v WRITER_BIT = v + 8.
Proof.
  intros H. destruct (wd_split _ _ _ _ _ H) as [E _]. pose proof (mod4 v).
  assert (Hs : ∀ x, 0 ≤ x < 16 → 16 * s + x = Z.lor (Z.shiftl s 4) x).
  { intros x Hx. rewrite lor_shiftl, Z.shiftl_mul_pow2 by lia. change (2 ^ 4) with 16. lia. }
  replace (v + 8) with (16 * s + (v mod 4 + 8)) by lia. rewrite Hs by lia.
  replace v with (16 * s + v mod 4) at 1 by lia. rewrite Hs, <- Z.lor_assoc by lia. f_equal.
  assert (Hf : v mod 4 = 0 ∨ v mod 4 = 1 ∨ v mod 4 = 2 ∨ v mod 4 = 3) by lia.
  by destruct Hf as [->|[->|[->| ->]]].
Qed.

Lemma trans_writer v :
  has_bits v (Z.lor WRITER_BIT UPGRADABLE_BIT) = false →
  trans v (Z.lor v WRITER_BIT) [] [PP].
Proof.
  intros Hb. trans_intro l H. rewrite (writer_or_upgradable H) in Hb.
  destruct (Z.eqb_spec (cnt PU l + cnt PP l + cnt PW l) 1); [done|].
  assert (Eu : cnt PU l = 0) by lia. assert (Ep : cnt PP l = 0) by lia.
  assert (Ew : cnt PW l = 0) by lia. rewrite Eu, Ep, Ew in *.
  rewrite (lor_writer _ _ H). eapply wd_shift; [exact H|..]; lia.
Qed.

Lemma trans_exclusive : trans 0 WRITER_BIT [] [PW].
Proof.
  trans_intro l H. pose proof (wd_sum _ _ _ _ _ H) as Hs. rewrite Zmod_0_l in Hs.
  change WRITER_BIT with (0 + 8). eapply wd_shift; [exact H|..]; lia.
Qed.

(** Giving a lock back: the word less [d]. *)
Lemma trans_wrap old d X Y :
  trans old (old + d) X Y → trans old (wrap 64 (old + d)) X Y.
Proof. intros H l Hl Hw. apply wd_wrapped with (old + d); [by apply H|done]. Qed.

(** A change of the locks of the thread by kind, as numbers. *)
Lemma trans_shift old X Y d :
  d = 16 * (cnt PS Y - cnt PS X) + 20 * (cnt PU Y - cnt PU X) + 8 * (cnt PP Y - cnt PP X)
      + 8 * (cnt PW Y - cnt PW X) →
  (length Y ≤ length X + 1)%nat →
  (∀ s u p w : Z, wd old (cnt PS X + s) (cnt PU X + u) (cnt PP X + p) (cnt PW X + w) →
     0 ≤ s → 0 ≤ u → 0 ≤ p → 0 ≤ w →
     cnt PU Y + u + (cnt PP Y + p) + (cnt PW Y + w) ≤ 1 ∧
     (1 ≤ cnt PW Y + w → cnt PS Y + s = 0)) →
  trans old (old + d) X Y.
Proof.
  intros Ed Hl Hc l Hlen H. rewrite !cnt_app in *. rewrite length_app in Hlen.
  pose proof (cnt_nonneg PS l). pose proof (cnt_nonneg PU l).
  pose proof (cnt_nonneg PP l). pose proof (cnt_nonneg PW l). pose proof (cnt_length l).
  pose proof (cnt_nonneg PS Y). pose proof (cnt_nonneg PU Y).
  pose proof (cnt_nonneg PP Y). pose proof (cnt_nonneg PW Y). pose proof (cnt_length Y).
  pose proof (cnt_length X). pose proof (cnt_nonneg PS X). pose proof (cnt_nonneg PU X).
  pose proof (cnt_nonneg PP X). pose proof (cnt_nonneg PW X).
  destruct (Hc _ _ _ _ H) as [Hone Halone]; try done.
  eapply wd_shift; [exact H|lia|lia|lia|lia|]. lia.
Qed.

(** ** Operations on one lock

    The thread owns the locks [X] of [a], and [rest]: other locks, also of [a].
    Its registered guards are those of [rest]. *)

Lemma tperm_shared tok : tperm tok = PS ↔ tok = TOKEN_SHARED.
Proof.
  unfold tperm. destruct (Z.eqb_spec tok TOKEN_SHARED); [done|]. by destruct (tok =? TOKEN_UPGRADABLE).
Qed.

(** How many of the locks are counted as readers. *)
Definition readers_in (X : list perm) : Z := cnt PS X + cnt PU X.

Lemma heavy_false X : heavy X = false → cnt PU X = 0 ∧ cnt PP X = 0 ∧ cnt PW X = 0.
Proof.
  induction X as [|p X IH]; [done|]. unfold heavy. cbn [existsb]. intros [Hp HX]%orb_false_iff.
  apply bool_decide_eq_false in Hp. assert (p = PS) as -> by by apply dec_stable.
  rewrite !cnt_cons. repeat (rewrite decide_False by done). by apply IH.
Qed.

Lemma heavy_app_elem X l : heavy X = true → ∃ q, q ∈ X ++ l ∧ q ≠ PS.
Proof. intros (q & Hq & Hne)%heavy_elem. exists q. split; [set_solver|done]. Qed.

(** What becomes of a duty when the thread sees the word [v]. *)
Definition settle (d : duty) (v : Z) : duty :=
  match d with Coming _ => if taken v then Free else d | _ => d end.

Section ops.
Context (elision : bool) (a : Z) (Ha : Z.even a = true).
Context (rest : list (Z * perm)) (gv : list (Z * guard)) (b : nat).
Context (Hrv : vperms gv ≡ₚ rest).
Context (Hb : (length rest + 1 + b ≤ lim)%nat).
Implicit Types (X Y : list perm) (d : duty).

Definition RD X (x : pc) d : role := MkRole ((pair a <$> X) ++ rest) gv b x d.
Abbreviation R X x := (RD X x Free).

Lemma owns_R X x d : static x = true → owns_at a (RD X x d) X.
Proof. intros Hx. split; [done|]. exists (rest ++ cust_perms x). cbn. by rewrite <- app_assoc. Qed.

Lemma st_R X Y x d d' :
  static x = true → (length Y ≤ 1)%nat → step_to a (RD X x d) (RD Y x d') X Y.
Proof.
  intros Hx HY. split; try done; cbn.
  - exists (rest ++ cust_perms x). by rewrite <- !app_assoc.
  - rewrite Hrv. apply submseteq_inserts_l. done.
  - rewrite length_app, length_fmap. lia.
Qed.

Lemma st_grant X ws d d' :
  step_to a (RD X (Cust a ws false) d) (RD [] (Cust a ws true) d') X ((λ x, tperm x.2) <$> ws).
Proof.
  split; try done; cbn.
  - exists rest. rewrite app_nil_r, <- list_fmap_compose. split; [done|]. apply Permutation_app_comm.
  - by rewrite Hrv.
  - lia.
  - intros s (H1 & _ & H2). split; [done|]. done.
Qed.

Lemma calm_R X x d k :
  X = (if Z.even k then [] else [PP]) → k = a ∨ k = a + 1 → calm (RD X x d) k.
Proof.
  intros -> [-> | ->]; unfold calm; [by rewrite Ha; cbn; rewrite Hrv|].
  rewrite even_odd by done. cbn. by rewrite Z.add_simpl_r, Hrv.
Qed.

(** *** The steps on the word *)

(** A thread with this duty may look at the word. *)
Definition looks (x : pc) d : Prop :=
  match d with Valid _ => False | Coming b => b = a ∧ x = Run | Leaver _ => x = Run | _ => True end.

Lemma moves_look X Y x d v :
  static x = true → (length Y ≤ 1)%nat → looks x d → trans v v X Y →
  moves a (RD X x d) (RD Y x (settle d v)) X v v.
Proof.
  intros Hx HY Hd Htr. exists Y. split; [by apply st_R|]. split; [done|].
  assert (Hs : ∀ y, settle d v = y → d = y ∨ (y = Free ∧ d = Coming a ∧ taken v = true)).
  { intros y <-. unfold settle. destruct d; auto. destruct Hd as [-> _]. destruct (taken v); auto. }
  split; unfold comes; cbn [RD dt rpc].
  - intros k. by destruct d.
  - destruct d; cbn; try done; [|by left]. destruct Hd as [-> ->]. destruct (taken v); [done|by left].
  - by left.
  - destruct (Hs _ eq_refl) as [<-|(_ & _ & ->)]; [tauto|by left].
  - destruct (Hs _ eq_refl) as [<-|(_ & -> & _)]; [tauto|]. intros [?|?]; [by left|done].
  - intros c Hc. destruct (Hs _ eq_refl) as [<-|(_ & -> & _)]; [done|]. intros [[=]|?]; [congruence|by right].
  - intros c Hc. by destruct (Hs _ eq_refl) as [<-|(_ & -> & _)].
Qed.

Lemma moves_keep X Y x v :
  static x = true → (length Y ≤ 1)%nat → trans v v X Y → moves a (R X x) (R Y x) X v v.
Proof. intros Hx HY. by apply (moves_look X Y x Free). Qed.

Lemma trans_refl v X : trans v v X X.
Proof. by intros l. Qed.

(** The thread will queue itself. *)
Lemma moves_valid X k v :
  X = (if Z.even k then [] else [PP]) →
  (k = a ∧ parked v = true ∧ taken v = true) ∨ (k = a + 1 ∧ awaited v = true) →
  moves a (R X (Lk k)) (RD X (Lk k) (Valid k)) X v v.
Proof.
  intros EX Hk. exists X. split; [apply st_R; [done|]; rewrite EX; destruct (Z.even k); cbn; lia|].
  split; [by intros l|]. split; unfold comes; cbn [RD dt rpc]; try tauto; try done.
  - split; [done|]. split; [|done]. apply calm_R; [done|tauto].
  - intros _ [?|[?|?]]; [by left|done|done].
  - intros [?|?]; [by left|done].
  - by intros c _ [|].
Qed.

(** The word in its parts. *)
Lemma mod4_bits v v' :
  v' mod 4 = v mod 4 →
  parked v' = parked v ∧ has_bits v' WRITER_PARKED_BIT = has_bits v WRITER_PARKED_BIT.
Proof. intros E. by split; apply has_bits_mod4. Qed.

Lemma awaited_more v v' X Y :
  seen v X → trans v v' X Y → v' mod 4 = v mod 4 → readers_in X ≤ readers_in Y →
  awaited v = true → awaited v' = true.
Proof.
  intros (l & Hl & Hw) Htr E Hr. pose proof (Htr l Hl Hw) as Hw'. unfold awaited.
  destruct (mod4_bits _ _ E) as [_ ->]. rewrite (readers_bits Hw), (readers_bits Hw').
  unfold readers_in in Hr. rewrite !cnt_app. rewrite !andb_true_iff, !negb_true_iff, !Z.eqb_neq.
  intros [H1 H2]. split; [|done]. pose proof (cnt_nonneg PS l). pose proof (cnt_nonneg PU l).
  pose proof (cnt_nonneg PS X). pose proof (cnt_nonneg PU X). lia.
Qed.

(** The thread takes a lock, or exchanges one for another. *)
Lemma moves_grow X Y d old v :
  d = Free ∨ d = Coming a → (length Y ≤ 1)%nat → seen old X → trans old v X Y →
  v mod 4 = old mod 4 → heavy Y = true ∨ (d = Free ∧ heavy X = false ∧ heavy Y = false) →
  heavy X = true ∨ readers_in X ≤ readers_in Y → moves a (RD X Run d) (R Y Run) X old v.
Proof.
  intros Hd HY Hs Htr E HhY HrX. exists Y. split; [by apply st_R|]. split; [done|].
  pose proof Hs as (l & Hl & Hw). pose proof (Htr l Hl Hw) as Hw'. destruct (mod4_bits _ _ E) as [Ep _].
  split; unfold comes; cbn [RD dt rpc]; try done.
  - intros k. by destruct Hd as [->| ->].
  - rewrite Ep. by left.
  - intros _ Ht'. left. destruct HhY as [H|(-> & HX & HY')].
    + destruct (heavy_app_elem _ l H) as (q & Hq & Hne). by eapply taken_own.
    + destruct Ht' as [Ht'|[?|?]]; [|done|done]. rewrite <- Ht'. eapply taken_same; [exact Hw|exact Hw'|].
      rewrite !cnt_app. destruct (heavy_false _ HX) as (-> & -> & ->). by destruct (heavy_false _ HY') as (-> & -> & ->).
  - intros [Hr|Hr]; [|by destruct Hd as [->| ->]]. destruct HrX as [?|HrX]; [tauto|].
    left. by eapply awaited_more.
  - intros c Hc [->|[]]. destruct Hd as [?|[= ->]]; done.
  - intros c Hc ->. by destruct Hd.
Qed.

(** The thread gives up a lock that is more than a reader's, or weakens it. *)
Lemma moves_leave X Y old v :
  heavy X = true → (length Y ≤ 1)%nat → seen old X → trans old v X Y → v mod 4 = old mod 4 →
  moves a (R X Run) (RD Y Run (if parked old && negb (heavy Y) then Coming a else Free)) X old v.
Proof.
  intros HX HY Hs Htr E. exists Y. split; [by apply st_R|]. split; [done|].
  pose proof Hs as (l & Hl & Hw). pose proof (Htr l Hl Hw) as Hw'. destruct (mod4_bits _ _ E) as [Ep _].
  split; unfold comes; cbn [RD dt rpc]; try done.
  - destruct (parked old && _); [by left|done].
  - rewrite Ep. by left.
  - intros -> _. destruct (heavy Y) eqn:HhY; cbn; [left|by right; left; left].
    destruct (heavy_app_elem _ l HhY) as (q & Hq & Hne). by eapply taken_own.
  - tauto.
  - by intros c _ [|].
Qed.

(** Bits of the parked threads. *)
Lemma moves_set_flag X x v m :
  static x = true → (length X ≤ 1)%nat → m = PARKED_BIT ∨ m = WRITER_PARKED_BIT → 0 ≤ v →
  moves a (R X x) (R X x) X v (Z.lor v m).
Proof.
  intros Hx HX Hm Hv. exists X. split; [by apply st_R|]. split.
  { intros l _. apply wd_same_body, same_body_lor; [done|]. destruct Hm as [->| ->]; done. }
  assert (Ht' : taken (Z.lor v m) = taken v) by (apply has_bits_lor_other; by destruct Hm as [->| ->]).
  assert (Hr : has_bits (Z.lor v m) READERS_MASK = has_bits v READERS_MASK)
    by (apply has_bits_lor_other; by destruct Hm as [->| ->]).
  split; unfold comes; cbn [RD dt rpc]; try done.
  - intros Hp. left. destruct Hm as [->| ->]; [by apply has_bits_lor_self|]. unfold parked.
    by rewrite has_bits_lor_other.
  - rewrite Ht'. tauto.
  - intros [H|]; [|done]. left. unfold awaited in *. rewrite Hr. apply andb_true_iff in H as [-> H].
    cbn. destruct Hm as [->| ->]; [by rewrite has_bits_lor_other|by apply has_bits_lor_self].
Qed.

(** The bucket is locked, and no thread is queued on its key. *)
Lemma moves_clear X x k m v :
  static x = true → (length X ≤ 1)%nat → 0 ≤ v →
  (k = a ∧ m = PARKED_BIT) ∨ (k = a + 1 ∧ m = WRITER_PARKED_BIT) →
  moves a (RD X x (Seen k false)) (R X x) X v (clear_bits v m).
Proof.
  intros Hx HX Hv Hm. exists X. split; [by apply st_R|]. split.
  { intros l _. apply wd_same_body, same_body_clear; [done|]. by destruct Hm as [[_ ->]|[_ ->]]. }
  assert (Ht' : taken (clear_bits v m) = taken v)
    by (apply has_bits_clear_other; by destruct Hm as [[_ ->]|[_ ->]]).
  assert (Hr : has_bits (clear_bits v m) READERS_MASK = has_bits v READERS_MASK)
    by (apply has_bits_clear_other; by destruct Hm as [[_ ->]|[_ ->]]).
  split; unfold comes; cbn [RD dt rpc]; try done.
  - destruct Hm as [[-> ->]|[-> ->]]; [by right|]. intros Hp. left. unfold parked. by rewrite has_bits_clear_other.
  - rewrite Ht'. intros _ [?|[?|?]]; [by left|done|tauto].
  - destruct Hm as [[-> ->]|[-> ->]]; [|tauto]. intros [H|?]; [|done]. left. unfold awaited in *. rewrite Hr.
    by rewrite has_bits_clear_other.
  - intros c _ [|]; [done|tauto].
Qed.

(** Under the bucket lock, with the threads [ws] taken from the queue. *)
Lemma moves_callback X (ws : list (tid * ParkToken)) (gr more : bool) old v :
  heavy X = true → seen old X →
  trans old v X (if gr then (λ x : tid * ParkToken, tperm x.2) <$> ws else []) →
  (more = true → parked v = true ∧ ∃ x, x ∈ ws ∧ x.2 ≠ TOKEN_SHARED) →
  moves a (RD X (Cust a ws false) (Seen a more)) (RD [] (Cust a ws gr) Free) X old v.
Proof.
  intros HX (l & Hl & Hw) Htr Hm. pose proof (Htr l Hl Hw) as Hw'.
  exists (if gr then (λ x : tid * ParkToken, tperm x.2) <$> ws else []). split.
  { destruct gr; [apply st_grant|apply st_R; [done|cbn; lia]]. }
  split; [done|]. split; unfold comes; cbn [RD dt rpc]; try done.
  - intros _. destruct more; [left; by apply Hm|by right].
  - intros _ _. destruct more; [|by right; right]. destruct (Hm eq_refl) as (_ & x & Hx & Hne).
    destruct gr; [left|right; left; right; split; [done|by exists x]].
    apply (taken_own _ _ (tperm x.2) Hw'); [|by rewrite <- (tperm_shared x.2) in Hne].
    apply elem_of_app. left. by apply (list_elem_of_fmap_2 (λ x : tid * ParkToken, tperm x.2)).
  - tauto.
  - intros c Hc [|[? _]]; [done|congruence].
Qed.

(** *** Rules for the word *)

Lemma wpR_load_duty {A} X x d (k : Z → iprog A) Q :
  static x = true → (length X ≤ 1)%nat → looks x d →
  (∀ old, seen old X → rwp (k old) (RD X x (settle d old)) Q) → rwp (Act (ALoad a) k) (RD X x d) Q.
Proof.
  intros Hx HX Hd Hk. apply (rwp_load a k _ X); [done|by apply owns_R|]. intros old Hs _.
  eexists. split; [|by apply Hk]. apply moves_look; [done..|apply trans_refl].
Qed.

Lemma wpR_load {A} X x (k : Z → iprog A) Q :
  static x = true → (length X ≤ 1)%nat →
  (∀ old, seen old X → rwp (k old) (R X x) Q) → rwp (Act (ALoad a) k) (R X x) Q.
Proof. intros Hx HX Hk. by apply (wpR_load_duty X x Free _ _ Hx HX). Qed.

(** A change of the word that depends on nothing. *)
Lemma wpR_rmw {A} X Y x d (d' : Z → duty) f (k : Z → iprog A) Q :
  static x = true →
  (∀ old, seen old X → moves a (RD X x d) (RD Y x (d' old)) X old (f old)) →
  (∀ old, seen old X → rwp (k old) (RD Y x (d' old)) Q) → rwp (Act (ARmw a f) k) (RD X x d) Q.
Proof.
  intros Hx Hf Hk. apply (rwp_rmw a f k _ X); [done|by apply owns_R|]. intros old Hs _.
  eexists. split; [by apply Hf|by apply Hk].
Qed.

Lemma wpR_cas_duty {A} weak X x d r' old new (k : bool * Z → iprog A) Q :
  static x = true → (length X ≤ 1)%nat → looks x d →
  (seen old X → moves a (RD X x d) r' X old new) →
  rwp (k (true, old)) r' Q →
  (∀ v, seen v X → rwp (k (false, v)) (RD X x (settle d v)) Q) →
  rwp (Act (ACas weak a old new) k) (RD X x d) Q.
Proof.
  intros Hx HX Hd Hm Hok Hf. apply (rwp_cas_load weak a old new k _ r' X); try done; [by apply owns_R|auto|].
  intros v Hs _. eexists. split; [|by apply Hf]. apply moves_look; [done..|apply trans_refl].
Qed.

Lemma wpR_cas {A} weak X Y x old new (k : bool * Z → iprog A) Q :
  static x = true → (length X ≤ 1)%nat →
  (seen old X → moves a (R X x) (R Y x) X old new) →
  rwp (k (true, old)) (R Y x) Q → (∀ v, seen v X → rwp (k (false, v)) (R X x) Q) →
  rwp (Act (ACas weak a old new) k) (R X x) Q.
Proof. intros Hx HX Hm Hok Hf. by apply (wpR_cas_duty weak X x Free (R Y x) _ _ _ _ Hx HX). Qed.

Lemma wpR_spin w r (Q : bool * SpinWait.t → role → Prop) :
  (∀ x, Q x r) → rwp (spin w) r Q.
Proof.
  intros HQ. unfold spin, yield. destruct (SpinWait.spin w) as [[ok o] w']. destruct o; wp_pure; [|apply HQ].
  apply rwp_look; [by eexists|by intros; simplify_eq/=|]. intros ?. wp_pure. apply HQ.
Qed.

Lemma wpR_spin_no_yield w r (Q : SpinWait.t → role → Prop) :
  (∀ x, Q x r) → rwp (spin_no_yield w) r Q.
Proof.
  intros HQ. unfold spin_no_yield, yield. destruct (SpinWait.spin_no_yield w) as [o w']. wp_pure.
  apply rwp_look; [by eexists|by intros; simplify_eq/=|]. intros ?. wp_pure. apply HQ.
Qed.

(** The result of an operation that acquires [p]. *)
Definition post p (ok : bool) (r : role) : Prop := r = R (if ok then [p] else []) Run.

Lemma checked_add_Some x y z : checked_add usize_bits x y = Some z → z = x + y ∧ x + y < 2 ^ 64.
Proof. unfold checked_add. intros [-> H]%checked_Some. unfold usize_bits in H. lia. Qed.

(** The readers are too few for the count to overflow. *)
Lemma seen_fits st z : seen st [] → 0 ≤ z ≤ 20 → 0 ≤ st ∧ st + z < 2 ^ 64.
Proof.
  intros (l & Hl & H) Hd. cbn [app] in *. pose proof (wd_sum _ _ _ _ _ H). pose proof (wd_range _ _ _ _ _ H).
  pose proof (wd_one _ _ _ _ _ H). pose proof (mod4 st). pose proof (cnt_length l).
  pose proof (cnt_nonneg PS l). pose proof (cnt_nonneg PU l). pose proof (cnt_nonneg PP l).
  pose proof (cnt_nonneg PW l). lia.
Qed.

Lemma wp_expect_add st z r (Q : Z → role → Prop) :
  seen st [] → 0 ≤ z ≤ 20 → (st + z < 2 ^ 64 → Q (st + z) r) → rwp (expect_add st z) r Q.
Proof.
  intros Hs Hz HQ. destruct (seen_fits st z Hs Hz) as [H0 H1]. unfold expect_add, checked_add.
  rewrite (proj2 (checked_Some usize_bits (st + z) (st + z))); [by apply wp_ret, HQ|]. unfold usize_bits. split; [done|lia].
Qed.

(** *** Taking a lock *)

Lemma add_mod4 v z : z mod 4 = 0 → (v + z) mod 4 = v mod 4.
Proof. intros Hz. rewrite <- Z.add_mod_idemp_r, Hz, Z.add_0_r by lia. done. Qed.

Lemma moves_shared recursive v :
  shared_blocked recursive v = false → v + ONE_READER < 2 ^ 64 → seen v [] →
  moves a (R [] Run) (R [PS] Run) [] v (v + ONE_READER).
Proof.
  intros Hs Hv Hseen. apply moves_grow; [by left|cbn; lia|done|by apply (trans_shared recursive)|by apply add_mod4|by right|].
  right. by vm_compute.
Qed.

Lemma moves_upgradable d v :
  d = Free ∨ d = Coming a → taken v = false → v + ONE_UPGRADABLE < 2 ^ 64 → seen v [] →
  moves a (RD [] Run d) (R [PU] Run) [] v (v + ONE_UPGRADABLE).
Proof.
  intros Hd Hs Hv Hseen. apply moves_grow; [done|cbn; lia|done|by apply trans_upgradable|by apply add_mod4|by left|].
  right. by vm_compute.
Qed.

Lemma moves_writer d v :
  d = Free ∨ d = Coming a → taken v = false → seen v [] →
  moves a (RD [] Run d) (R [PP] Run) [] v (Z.lor v WRITER_BIT).
Proof.
  intros Hd Hs Hseen. apply moves_grow; [done|cbn; lia|done|by apply trans_writer| |by left|].
  - change 4 with (2 ^ 2). rewrite <- !Z.land_ones, Z.land_lor_distr_l by lia.
    change (Z.land WRITER_BIT (Z.ones 2)) with 0. by rewrite Z.lor_0_r.
  - right. by vm_compute.
Qed.

Lemma moves_exclusive : seen 0 [] → moves a (R [] Run) (R [PW] Run) [] 0 WRITER_BIT.
Proof.
  intros Hseen. apply moves_grow; [by left|cbn; lia|done|apply trans_exclusive|done|by left|].
  right. by vm_compute.
Qed.

(** *** Without waiting *)

Lemma wp_try_lock_shared_fast recursive :
  rwp (try_lock_shared_fast elision a recursive) (R [] Run) (post PS).
Proof.
  unfold try_lock_shared_fast, load, elision_compare_exchange_acquire, compare_exchange,
    compare_exchange_weak. wp_pure. apply wpR_load; [done|cbn; lia|]. intros old Hs. wp_pure.
  destruct (shared_blocked recursive old) eqn:Eb; [by wp_pure|].
  destruct (elision && (old =? 0)) eqn:El.
  - wp_pure. apply (wpR_cas _ _ [PS]); [done|cbn; lia| |by wp_pure|intros v _; by wp_pure].
    intros Hs'. change ONE_READER with (0 + ONE_READER). by apply (moves_shared false).
  - destruct (checked_add usize_bits old ONE_READER) as [new|] eqn:Ec; [|by wp_pure].
    apply checked_add_Some in Ec as [-> Hlt]. wp_pure.
    apply (wpR_cas _ _ [PS]); [done|cbn; lia| |by wp_pure|intros v _; by wp_pure].
    intros Hs'. by apply (moves_shared recursive).
Qed.

Lemma wp_try_lock_shared_slow recursive :
  rwp (try_lock_shared_slow elision a recursive) (R [] Run) (post PS).
Proof.
  unfold try_lock_shared_slow, load, elision_compare_exchange_acquire, compare_exchange,
    compare_exchange_weak. wp_pure. apply wpR_load; [done|cbn; lia|]. intros old Hs. wp_pure.
  apply (wp_iter _ _ _ _ _ (λ st r, r = R [] Run ∧ seen st [])); [done|]. clear old Hs. intros old ? [-> Hs].
  destruct (shared_blocked recursive old) eqn:Eb; [by wp_pure|].
  destruct (elision && (old =? 0)) eqn:El.
  - wp_pure. apply (wpR_cas _ _ [PS]); [done|cbn; lia| |by wp_pure|intros v Hv; by wp_pure].
    intros Hs'. change ONE_READER with (0 + ONE_READER). by apply (moves_shared false).
  - wp_pure. apply wp_expect_add; [done|unfold ONE_READER; lia|]. intros Hlt. wp_pure.
    apply (wpR_cas _ _ [PS]); [done|cbn; lia| |by wp_pure|intros v Hv; by wp_pure].
    intros Hs'. by apply (moves_shared recursive).
Qed.

Lemma wp_try_lock_upgradable_fast : rwp (try_lock_upgradable_fast a) (R [] Run) (post PU).
Proof.
  unfold try_lock_upgradable_fast, load, compare_exchange_weak. wp_pure.
  apply wpR_load; [done|cbn; lia|]. intros old Hs. wp_pure.
  destruct (has_bits old (Z.lor WRITER_BIT UPGRADABLE_BIT)) eqn:Eb; [by wp_pure|].
  destruct (checked_add usize_bits old ONE_UPGRADABLE) as [new|] eqn:Ec; [|by wp_pure].
  apply checked_add_Some in Ec as [-> Hlt]. wp_pure.
  apply (wpR_cas _ _ [PU]); [done|cbn; lia| |by wp_pure|intros v _; by wp_pure].
  intros Hs'. apply moves_upgradable; auto.
Qed.

Lemma wp_try_lock_upgradable_slow : rwp (try_lock_upgradable_slow a) (R [] Run) (post PU).
Proof.
  unfold try_lock_upgradable_slow, load, compare_exchange_weak. wp_pure.
  apply wpR_load; [done|cbn; lia|]. intros old Hs. wp_pure.
  apply (wp_iter _ _ _ _ _ (λ st r, r = R [] Run ∧ seen st [])); [done|]. clear old Hs. intros old ? [-> Hs].
  destruct (has_bits old (Z.lor WRITER_BIT UPGRADABLE_BIT)) eqn:Eb; [by wp_pure|].
  wp_pure. apply wp_expect_add; [done|change ONE_UPGRADABLE with 20; lia|]. intros Hlt. wp_pure.
  apply (wpR_cas _ _ [PU]); [done|cbn; lia| |by wp_pure|intros v Hv; by wp_pure].
  intros Hs'. apply moves_upgradable; auto.
Qed.

(** *** The closures of the slow paths *)

(** The duty of a thread that asks for the lock with [token] and has seen [st]:
    it may have been woken for it. *)
Definition asks (token : ParkToken) (st : Z) d : Prop :=
  d = Free ∨ (token ≠ TOKEN_SHARED ∧ d = Coming a ∧ taken st = false).

Lemma asks_coming token st d : asks token st d → d = Free ∨ d = Coming a.
Proof. intros [|(_ & ? & _)]; auto. Qed.
Lemma asks_looks token st d : asks token st d → looks Run d.
Proof. by intros [->|(_ & -> & _)]. Qed.
Lemma asks_taken token st d : asks token st d → taken st = true → d = Free.
Proof. intros [|(_ & _ & ->)]; done. Qed.

(** Whatever the thread has come for, it has seen [v] now. *)
Lemma asks_settle token d v : (d = Coming a → token ≠ TOKEN_SHARED) → d = Free ∨ d = Coming a → asks token v (settle d v).
Proof.
  intros Htok [->| ->]; [by left|]. cbn. destruct (taken v) eqn:E; [by left|]. right. auto.
Qed.
Lemma asks_next token st d v : asks token st d → asks token v (settle d v).
Proof.
  intros Hd. apply asks_settle; [|by eapply asks_coming]. intros ->. by destruct Hd as [|(? & _)].
Qed.

Definition tries token (f : Z → iprog (bool * Z)) : Prop :=
  ∀ st d, asks token st d → seen st [] →
    rwp (f st) (RD [] Run d) (λ x r, if x.1 : bool then r = R [tperm token] Run else r = R [] Run ∧ seen x.2 []).

Lemma wp_exclusive_try_lock : tries TOKEN_EXCLUSIVE (exclusive_try_lock a).
Proof.
  intros st d Hd Hs. unfold exclusive_try_lock, compare_exchange_weak.
  apply (wp_iter _ _ _ _ _ (λ st r, ∃ d, r = RD [] Run d ∧ asks TOKEN_EXCLUSIVE st d ∧ seen st [])); [by exists d|].
  clear st d Hd Hs. intros old ? (d & -> & Hd & Hs).
  destruct (has_bits old (Z.lor WRITER_BIT UPGRADABLE_BIT)) eqn:Eb; wp_pure.
  { by rewrite (asks_taken _ _ _ Hd Eb). }
  apply (wpR_cas_duty _ _ _ _ (R [PP] Run)); [done|cbn; lia|by eapply asks_looks| |by wp_pure|].
  - intros Hs'. apply moves_writer; [by eapply asks_coming|done|done].
  - intros v Hv. wp_pure. eexists. split; [done|]. split; [by eapply asks_next|done].
Qed.

Lemma wp_shared_try_lock recursive : tries TOKEN_SHARED (shared_try_lock elision a recursive).
Proof.
  intros st d Hd Hs. assert (d = Free) as -> by (by destruct Hd as [|(? & _)]).
  unfold shared_try_lock, load, elision_compare_exchange_acquire, compare_exchange,
    compare_exchange_weak.
  apply (wp_iter _ _ _ _ _ (λ x r, r = R [] Run ∧ seen x.2 [])); [done|]. clear st Hd Hs. intros [w old] ? [-> Hs].
  cbn [snd] in Hs.
  assert (Hrest : ∀ old, seen old [] → rwp (if shared_blocked recursive old then Ret (inr (false, old))
      else (new_state <- expect_add old ONE_READER;;
        r <- Act (ACas true a old new_state) Ret;;
        if r.1 : bool then Ret (inr (true, old))
        else
          spinwait_shared <- spin_no_yield w;;
          state <- Act (ALoad a) Ret;;
          Ret (inl (spinwait_shared, state)))%prog) (R [] Run)
    (λ res r', match res with
               | inl x => r' = R [] Run ∧ seen x.2 []
               | inr x => if x.1 : bool then r' = R [tperm TOKEN_SHARED] Run else r' = R [] Run ∧ seen x.2 []
               end)).
  { clear old Hs. intros old Hs. destruct (shared_blocked recursive old) eqn:Eb; [by wp_pure|].
    wp_pure. apply wp_expect_add; [done|unfold ONE_READER; lia|]. intros Hlt. wp_pure.
    apply (wpR_cas _ _ [PS]); [done|cbn; lia| |by wp_pure|].
    - intros Hs'. by apply (moves_shared recursive).
    - intros v _. wp_pure. apply wpR_spin_no_yield. intros w'. wp_pure.
      apply wpR_load; [done|cbn; lia|]. intros st Hst. by wp_pure. }
  destruct (elision && (old =? 0)) eqn:El; wp_pure; [|by apply Hrest].
  apply (wpR_cas _ _ [PS]); [done|cbn; lia| |by wp_pure|intros v Hv; wp_pure; by apply Hrest].
  intros Hs'. change ONE_READER with (0 + ONE_READER). by apply (moves_shared false).
Qed.

Lemma wp_upgradable_try_lock : tries TOKEN_UPGRADABLE (upgradable_try_lock a).
Proof.
  intros st d Hd Hs. unfold upgradable_try_lock, load, compare_exchange_weak.
  apply (wp_iter _ _ _ _ _ (λ x r, ∃ d, r = RD [] Run d ∧ asks TOKEN_UPGRADABLE x.2 d ∧ seen x.2 [])); [by exists d|].
  clear st d Hd Hs. intros [w old] ? (d & -> & Hd & Hs). cbn [snd] in *.
  destruct (has_bits old (Z.lor WRITER_BIT UPGRADABLE_BIT)) eqn:Eb.
  { wp_pure. by rewrite (asks_taken _ _ _ Hd Eb). }
  wp_pure. apply wp_expect_add; [done|change ONE_UPGRADABLE with 20; lia|]. intros Hlt. wp_pure.
  apply (wpR_cas_duty _ _ _ _ (R [PU] Run)); [done|cbn; lia|by eapply asks_looks| |by wp_pure|].
  - intros Hs'. apply moves_upgradable; [by eapply asks_coming|done|done|done].
  - intros v _. wp_pure. apply wpR_spin_no_yield. intros w'. wp_pure.
    pose proof (asks_next _ _ _ v Hd) as Hd'.
    apply wpR_load_duty; [done|cbn; lia|by eapply asks_looks|]. intros st Hst. wp_pure.
    eexists. split; [done|]. split; [by eapply asks_next|done].
Qed.

(** *** Waiting for the lock *)

Lemma at_duty_R X x y d d' : at_duty (RD X x d) y d' = RD X y d'.
Proof. done. Qed.

(** A turn of the loop ends with the lock, without it, or with the next turn. *)
Definition turn token (res : (SpinWait.t * Z) + bool) (r : role) : Prop :=
  match res with
  | inl x => ∃ d, r = RD [] Run d ∧ asks token x.2 d ∧ seen x.2 []
  | inr ok => post (tperm token) ok r
  end.

Definition turn_for (timeout : option Z) token res r : Prop :=
  turn token res r ∧ (res = inr false → is_Some timeout).

Lemma turn_load timeout token w d :
  d = Free ∨ d = Coming a → (d = Coming a → token ≠ TOKEN_SHARED) →
  rwp (state <- load a;; Ret (inl (w, state)))%prog (RD [] Run d) (turn_for timeout token).
Proof.
  intros Hd Htok. unfold load. wp_pure.
  apply wpR_load_duty; [done|cbn; lia|by destruct Hd as [->| ->]|]. intros st Hst. wp_pure. split; [|done].
  eexists. split; [done|]. split; [by apply asks_settle|done].
Qed.

Lemma wp_common_park timeout token flags w :
  token_ok token → (∀ v, has_bits v flags = true → taken v = true) →
  rwp (park bucket_of a (common_validate a flags) (Ret tt) (common_timed_out a) token timeout tt) (R [] Run)
    (λ p r, rwp (
      match p.1 with
      | Unparked tok =>
          if tok =? TOKEN_HANDOFF then Ret (inr true)
          else state <- load a;; Ret (inl (SpinWait.reset w, state))
      | Invalid => state <- load a;; Ret (inl (SpinWait.reset w, state))
      | TimedOut => Ret (inr false)
      end)%prog r (turn_for timeout token)).
Proof.
  intros Htok Hfl. apply rwp_park; [done|done|cbn; lia|done|..].
  - unfold common_validate, load. wp_pure. rewrite at_duty_R.
    apply (rwp_load a _ _ []); [done|by apply (owns_R [] (Lk a))|]. intros v Hv _.
    exists (RD [] (Lk a) (if has_bits v PARKED_BIT && has_bits v flags then Valid a else Free)).
    split; [|by wp_pure]. destruct (has_bits v PARKED_BIT && has_bits v flags) eqn:E.
    + apply andb_true_iff in E as [Ep Ef]. apply moves_valid; [by rewrite Ha|]. left. auto.
    + apply moves_keep; [done|cbn; lia|apply trans_refl].
  - intros last _. rewrite at_duty_R. unfold common_timed_out, fetch_clear, rmw. destruct last; wp_pure.
    + apply (wpR_rmw [] [] (Lk a) _ (λ _, Free)); [done| |intros v _; wp_pure; by exists Free].
      intros old Hs. apply moves_clear; [done|cbn; lia| |by left]. pose proof (seen_range _ _ Hs). lia.
    + by exists (Seen a true).
  - intros v. unfold granted, wake_duty. cbn [rh rv bud RD]. rewrite Ha. cbn [andb fst].
    destruct (Z.eqb_spec v TOKEN_HANDOFF); cbn [andb negb].
    + wp_pure. split; [|done]. done.
    + apply turn_load; [case_match; auto|]. destruct (Z.eqb_spec token TOKEN_SHARED); done.
  - cbn [fst]. apply turn_load; [by left|done].
  - intros Hsome. wp_pure. split; done.
Qed.

Lemma wp_lock_common timeout token f flags :
  token_ok token → (∀ v, has_bits v flags = true → taken v = true) → tries token f →
  rwp (lock_common bucket_of a timeout token f flags) (R [] Run)
    (λ ok r, post (tperm token) ok r ∧ (ok = false → is_Some timeout)).
Proof.
  intros Htok Hfl Hf. unfold lock_common, load. wp_pure. apply wpR_load; [done|cbn; lia|].
  intros old Hs. wp_pure.
  apply (wp_iter _ _ _ _ _ (λ x r, ∃ d, r = RD [] Run d ∧ asks token x.2 d ∧ seen x.2 []));
    [exists Free; split; [done|]; split; [by left|done]|].
  clear old Hs. intros [w old] ? (d & -> & Hd & Hs). cbn [snd] in *. wp_pure.
  eapply wp_mono; [|by apply Hf].
  intros [locked st] r Hp. cbn [fst snd] in Hp. destruct locked; [by wp_pure|]. destruct Hp as [-> Hst].
  assert (Hpark : ∀ w, rwp (lock_common_park bucket_of a timeout token flags w st) (R [] Run)
    (turn_for timeout token)).
  { clear w. intros w. unfold lock_common_park, compare_exchange_weak. wp_pure.
    destruct (negb (has_bits st PARKED_BIT)); wp_pure; [|by apply wp_common_park].
    apply (wpR_cas _ _ []); [done|cbn; lia| |wp_pure; by apply wp_common_park|].
    - intros Hs'. apply moves_set_flag; [done|cbn; lia|by left|]. pose proof (seen_range _ _ Hs'). lia.
    - intros v Hv. wp_pure. split; [|done]. exists Free. split; [done|]. split; [by left|done]. }
  assert (Hend : ∀ res r, turn_for timeout token res r → match res with
    | inl x => ∃ d, r = RD [] Run d ∧ asks token x.2 d ∧ seen x.2 []
    | inr ok => post (tperm token) ok r ∧ (ok = false → is_Some timeout) end).
  { intros [x|ok] r [Hr Ho]; [done|]. split; [done|]. intros ->. by apply Ho. }
  cbn beta iota.
  destruct (negb (has_bits st (Z.lor PARKED_BIT WRITER_PARKED_BIT))); wp_pure;
    [|eapply wp_mono; [|apply Hpark]; apply Hend].
  apply wpR_spin. intros [spun w']. destruct spun; [|eapply wp_mono; [|apply Hpark]; apply Hend]. wp_pure.
  apply wpR_load; [done|cbn; lia|]. intros st' Hst'. wp_pure. exists Free. split; [done|]. split; [by left|done].
Qed.

(** *** Waking the threads parked on the lock *)

(** The callback that keeps the locks: nothing is handed over. *)
Lemma wp_wake_clear X d (s0 x0 u0 p0 : Z) :
  (length X ≤ 1)%nat → phase s0 x0 u0 p0 → d = Free ∨ (d = Coming a ∧ u0 + p0 = 0) →
  rwp (wake_parked_threads bucket_of a s0 (clear_parked_callback a)) (RD X Run d)
    (λ _ r, r = R X Run).
Proof.
  intros HX Hs0 Hd. unfold wake_parked_threads. wp_pure.
  apply (rwp_unpark_filter a s0 u0 p0); [done|done|by exists x0|done|].
  intros ws e result _ _ ps _ _. rewrite at_duty_R. unfold clear_parked_callback, fetch_clear, rmw.
  destruct (have_more_threads result); cbn [negb]; wp_pure.
  - exists (R X Run), false, (Seen a true). split; [done|]. split; [done|]. split; [done|]. by wp_pure.
  - apply (wpR_rmw X X (Cust a ws false) _ (λ _, Free)); [done| |].
    + intros old Hs. apply moves_clear; [done|done| |by left]. pose proof (seen_range _ _ Hs). lia.
    + intros old _. wp_pure. exists (R X Run), false, Free. split; [done|]. split; [done|]. split; [done|]. by wp_pure.
Qed.

Lemma phase_zero : phase 0 0 0 0.
Proof. unfold phase. lia. Qed.
Lemma phase_reader : phase ONE_READER 1 0 0.
Proof. unfold phase, ONE_READER. lia. Qed.
Lemma phase_upgradable : phase ONE_UPGRADABLE 0 1 0.
Proof. unfold phase. change ONE_UPGRADABLE with 20. lia. Qed.

(** *** Changes of one's own lock *)

Lemma trans_last v : has_bits v READERS_MASK = false → trans v v [PP] [PW].
Proof.
  intros Hr. trans_intro l H. rewrite (readers_bits H) in Hr.
  destruct (Z.eqb_spec (cnt PS l + cnt PU l) 0) as [E|]; [|done].
  rewrite <- (Z.add_0_r v). eapply wd_shift; [exact H|..]; lia.
Qed.

(** The sum with a difference that is computed with wrap-around. *)
Lemma trans_mod old c c' X Y :
  c' mod 2 ^ 64 = c mod 2 ^ 64 → trans old (old + c) X Y → trans old (wrap 64 (old + c')) X Y.
Proof.
  intros E H l Hl Hw. apply wd_wrapped with (old + c); [by apply H|].
  by rewrite Z.add_mod, E, <- Z.add_mod.
Qed.

Lemma trans_sub old c X Y :
  trans old (old + - c) X Y → trans old (wrapping_sub usize_bits old c) X Y.
Proof. intros H. by apply (trans_mod old (- c)). Qed.

Lemma sub_mod4 v c : c mod 4 = 0 → wrapping_sub usize_bits v c mod 4 = v mod 4.
Proof.
  intros Hc. unfold wrapping_sub. rewrite <- Z.add_opp_r. apply wrap_mod4.
  rewrite Z.mod_opp_l_z; lia.
Qed.

(** The counts of lists that are given. *)
Ltac cnt_eval :=
  repeat match goal with
    | _ : context [cnt ?p ?X] |- _ => let v := eval vm_compute in (cnt p X) in
        first [is_ground v; change (cnt p X) with v in *]
    | |- context [cnt ?p ?X] => let v := eval vm_compute in (cnt p X) in
        first [is_ground v; change (cnt p X) with v in *]
    end.
Ltac shifts :=
  apply trans_shift; [done|cbn; lia|];
  let H := fresh in intros ? ? ? ? H ? ? ? ?;
  pose proof (wd_one _ _ _ _ _ H); pose proof (wd_alone _ _ _ _ _ H); cnt_eval.

(** *** A writer waits for the readers *)

(** The lock a thread that gives up is left with: that of before an upgrade. *)
Definition before (prev : Z) (X : list perm) : Prop :=
  (prev = 0 ∧ X = []) ∨ (prev = ONE_UPGRADABLE ∧ X = [PU]).

Lemma before_length prev X : before prev X → (length X ≤ 1)%nat.
Proof. intros [[_ ->]|[_ ->]]; cbn; lia. Qed.

Lemma trans_give_up old prev X :
  before prev X →
  trans old (wrapping_add usize_bits old (wrapping_sub usize_bits prev WRITER_BIT)) [PP] X.
Proof.
  intros HX. unfold wrapping_add, wrapping_sub, usize_bits. apply trans_mod with (prev - 8).
  { unfold wrap. by rewrite Zmod_mod. }
  destruct HX as [[-> ->]|[-> ->]]; shifts; lia.
Qed.

(** After a change that leaves [X], the threads parked on the lock are woken. *)
Lemma wp_leave_wake {A} X Y f (s0 x0 u0 p0 : Z) (k : Z → iprog A) Q :
  heavy X = true → (length Y ≤ 1)%nat → phase s0 x0 u0 p0 → (heavy Y = false → u0 + p0 = 0) →
  (∀ old, seen old X → trans old (f old) X Y ∧ f old mod 4 = old mod 4) →
  (∀ old d, d = Free ∨ (d = Coming a ∧ u0 + p0 = 0) → (has_bits old PARKED_BIT = false → d = Free) →
     rwp (k old) (RD Y Run d) Q) →
  rwp (Act (ARmw a f) k) (R X Run) Q.
Proof.
  intros HX HY Hs0 HuY Hf Hk.
  apply (wpR_rmw X Y Run Free (λ old, if parked old && negb (heavy Y) then Coming a else Free)); [done|..].
  - intros old Hs. destruct (Hf old Hs) as [Htr E]. by apply moves_leave.
  - intros old _. apply Hk.
    + destruct (parked old); [|by left]. destruct (heavy Y) eqn:E; [by left|right; auto].
    + unfold parked. by intros ->.
Qed.

Lemma wp_writer_gives_up prev X :
  before prev X → rwp (writer_gives_up bucket_of a prev) (R [PP] Run) (λ _ r, r = R X Run).
Proof.
  intros HX. pose proof (before_length _ _ HX) as HlX.
  assert (Hph : ∃ u0, phase prev 0 u0 0 ∧ (heavy X = false → u0 + 0 = 0)).
  { destruct HX as [[-> ->]|[-> ->]]; [exists 0; split; [apply phase_zero|done]|exists 1; split; [apply phase_upgradable|done]]. }
  destruct Hph as (u0 & Hph & Hu0). unfold writer_gives_up, fetch_add, rmw. wp_pure.
  apply (wp_leave_wake [PP] X _ prev 0 u0 0); [done|done|done|done| |].
  - intros old _. split; [by apply trans_give_up|]. unfold wrapping_add.
    apply wrap_mod4. by destruct HX as [[-> _]|[-> _]].
  - intros old d Hd Hfree. wp_pure. destruct (has_bits old PARKED_BIT); [by eapply wp_wake_clear|].
    rewrite Hfree by done. by wp_pure.
Qed.

(** Whether the waiting writer has the lock, by the word it saw last. *)
Definition writer (state : Z) : list perm := [if has_bits state READERS_MASK then PP else PW].

Lemma moves_writer_seen v : moves a (R [PP] Run) (R (writer v) Run) [PP] v v.
Proof.
  apply moves_keep; [done|cbn; lia|]. unfold writer. destruct (has_bits v READERS_MASK) eqn:E; [|by apply trans_last].
  apply trans_refl.
Qed.

Lemma wpR_load_readers {A} (k : Z → iprog A) Q :
  (∀ old, rwp (k old) (R (writer old) Run) Q) → rwp (Act (ALoad a) k) (R [PP] Run) Q.
Proof.
  intros Hk. apply (rwp_load a k _ [PP]); [done|by apply (owns_R [PP] Run)|]. intros old Hs _.
  exists (R (writer old) Run). split; [|by apply Hk]. apply moves_writer_seen.
Qed.

(** The state of the loop, and its result. *)
Definition waits_for (timeout : option Z) (X : list perm) (res : (SpinWait.t * Z) + bool) (r : role) : Prop :=
  match res with
  | inl x => r = R (writer x.2) Run
  | inr ok => r = R (if ok then [PW] else X) Run ∧ (ok = false → is_Some timeout)
  end.

Lemma wp_readers_park timeout prev X w :
  before prev X →
  rwp (park bucket_of (a + 1) (readers_validate a) (Ret tt) (readers_timed_out a)
         TOKEN_EXCLUSIVE timeout tt) (R [PP] Run) (λ p r, rwp (
    match p.1 with
    | Unparked _ | Invalid => state <- load a;; Ret (inl (w, state))
    | TimedOut => writer_gives_up bucket_of a prev;; Ret (inr false)
    end)%prog r (waits_for timeout X)).
Proof.
  intros HX. pose proof (even_odd a Ha) as Hodd.
  assert (Hload : rwp (state <- load a;; Ret (inl (w, state)))%prog (R [PP] Run) (waits_for timeout X)).
  { unfold load. wp_pure. apply wpR_load_readers. intros old. by wp_pure. }
  apply rwp_park; [done|done|by rewrite Hodd|by rewrite Hodd|..]; [| | |exact Hload|].
  - unfold readers_validate, load. wp_pure. rewrite at_duty_R.
    apply (rwp_load a _ _ [PP]); [done|by apply (owns_R [PP] (Lk (a + 1)))|]. intros v Hv _.
    exists (RD [PP] (Lk (a + 1)) (if has_bits v READERS_MASK && has_bits v WRITER_PARKED_BIT then Valid (a + 1) else Free)).
    split; [|by wp_pure]. destruct (has_bits v READERS_MASK && has_bits v WRITER_PARKED_BIT) eqn:E.
    + apply moves_valid; [by rewrite Hodd|]. right. auto.
    + apply moves_keep; [done|cbn; lia|apply trans_refl].
  - intros last Hlast. rewrite (Hlast Hodd), at_duty_R. unfold readers_timed_out, fetch_clear, rmw. wp_pure.
    apply (wpR_rmw [PP] [PP] (Lk (a + 1)) _ (λ _, Free)); [done| |intros v _; wp_pure; by exists Free].
    intros old Hs. apply moves_clear; [done|cbn; lia| |by right]. pose proof (seen_range _ _ Hs). lia.
  - intros v. unfold granted, wake_duty. cbn [rh rv bud RD]. rewrite Hodd. exact Hload.
  - intros Hsome. wp_pure. eapply wp_mono; [|by apply wp_writer_gives_up]. intros [] ? ->. by wp_pure.
Qed.

Lemma wp_wait_for_readers_park timeout prev X w (state : Z) :
  before prev X →
  rwp (wait_for_readers_park bucket_of a timeout prev w state) (R [PP] Run) (waits_for timeout X).
Proof.
  intros HX. unfold wait_for_readers_park, compare_exchange_weak. wp_pure.
  destruct (negb (has_bits state WRITER_PARKED_BIT)); wp_pure; [|by apply wp_readers_park].
  apply (rwp_cas_load _ a _ _ _ _ (R [PP] Run) [PP]); [done|by apply (owns_R [PP] Run)|..].
  - intros Hs _. apply moves_set_flag; [done|cbn; lia|by right|]. pose proof (seen_range _ _ Hs). lia.
  - wp_pure. by apply wp_readers_park.
  - intros v Hs _. exists (R (writer v) Run). split; [apply moves_writer_seen|]. by wp_pure.
Qed.

Lemma wp_wait_for_readers timeout prev X :
  before prev X →
  rwp (wait_for_readers bucket_of a timeout prev) (R [PP] Run)
    (λ ok r, r = R (if ok : bool then [PW] else X) Run ∧ (ok = false → is_Some timeout)).
Proof.
  intros HX. unfold wait_for_readers, load. wp_pure. apply wpR_load_readers. intros old. wp_pure.
  apply (wp_iter _ _ _ _ _ (λ x r, r = R (writer x.2) Run)); [done|]. clear old.
  intros [w state] ? ->. unfold writer. cbn [snd].
  destruct (has_bits state READERS_MASK) eqn:Er; wp_pure; [|done].
  apply wpR_spin. intros [spun w']. destruct spun.
  - wp_pure. apply wpR_load_readers. intros old. by wp_pure.
  - eapply wp_mono; [|by apply (wp_wait_for_readers_park timeout prev X)]. intros [x|ok] r Hw; exact Hw.
Qed.

(** *** Releasing *)

Lemma trans_trans old v v' X Y : trans old v X Y → same_body v v' → trans old v' X Y.
Proof. intros H Hbd l Hl Hw. eapply wd_same_body; [exact Hbd|by apply H]. Qed.

Lemma tperms_no_writer (ws : list (tid * ParkToken)) : cnt PW ((λ x, tperm x.2) <$> ws) = 0.
Proof.
  induction ws as [|[w tok] ws IH]; [done|]. rewrite fmap_cons, cnt_cons, IH. unfold tperm. cbn.
  by repeat case_match.
Qed.

(** A writer hands the lock to the threads it wakes. *)
Lemma trans_handoff_exclusive old e ps :
  phase e (cnt PS ps) (cnt PU ps) (cnt PP ps) → cnt PW ps = 0 → Z.of_nat (length ps) ≤ 2 ^ 58 →
  trans old e [PW] ps.
Proof.
  intros (He & Hs & Hu & Hp & H1) Hw Hlen. trans_intro l H. rewrite !cnt_app.
  pose proof (cnt_length ps).
  assert (Em : e mod 4 = 0).
  { rewrite He. replace (16 * _ + _) with ((4 * (cnt PS ps + cnt PU ps) + 2 * cnt PP ps + cnt PU ps) * 4)
      by lia. by apply Z.mod_mul. }
  split; rewrite ?Em; lia.
Qed.

(** The role in the callback once the token is chosen. *)
Definition chosen ws (tok : UnparkToken) (r : role) : Prop :=
  ∃ gr, r = R [] (Cust a ws gr) ∧ tok = grant_token gr.

(** The end of an unlock by [unpark_filter]. *)
Lemma wp_unlock_filter X (callback : Z → UnparkResult → iprog UnparkToken) :
  (length X ≤ 1)%nat →
  (∀ ws e result, (∀ x, x ∈ ws → token_ok x.2) → Z.of_nat (length ws) ≤ 2 ^ 58 →
     let ps := (λ x : tid * ParkToken, tperm x.2) <$> ws in
     phase e (cnt PS ps) (cnt PU ps) (cnt PP ps) →
     (have_more_threads result = true → ∃ x, x ∈ ws ∧ x.2 ≠ TOKEN_SHARED) →
     rwp (callback e result) (RD X (Cust a ws false) (Seen a (have_more_threads result))) (chosen ws)) →
  rwp (wake_parked_threads bucket_of a 0 callback) (R X Run) (λ _ r, r = R [] Run).
Proof.
  intros HX Hcb. unfold wake_parked_threads. wp_pure.
  apply (rwp_unpark_filter a 0 0 0); [done|done|exists 0; apply phase_zero|by left|].
  intros ws e result Htok Hlen ps Hph Hmore. specialize (Hph eq_refl). rewrite at_duty_R.
  eapply wp_mono; [|by apply Hcb; [..|intros Hm; apply Hmore]].
  intros tok r (gr & -> & ->). exists (R [] Run), gr, Free. split; [done|]. split; [done|]. split; [done|]. by wp_pure.
Qed.

Lemma wp_unlock_exclusive_slow force_fair :
  rwp (unlock_exclusive_slow bucket_of a force_fair) (R [PW] Run) (λ _ r, r = R [] Run).
Proof.
  unfold unlock_exclusive_slow. apply wp_unlock_filter; [cbn; lia|].
  intros ws e result Htok Hlen ps Hph Hmore. unfold unlock_exclusive_callback, store.
  destruct (negb (unparked_threads result =? 0) && (force_fair || be_fair result)).
  - wp_pure. apply (rwp_store a _ _ _ (R [] (Cust a ws true)) [PW]); [done|by apply owns_R| |wp_pure; by exists true].
    intros old Hs _. pose proof Hph as (He & ?). apply moves_callback; [done|done| |].
    + apply trans_trans with e.
      * apply trans_handoff_exclusive; [done|apply tperms_no_writer|]. unfold ps. by rewrite length_fmap.
      * destruct (have_more_threads result); [apply same_body_lor; [lia|done]|apply same_body_refl; lia].
    + intros Hm. rewrite Hm in *. split; [by apply has_bits_lor_self|auto].
  - assert (Hst : ∀ v : Z, v = 0 ∨ v = PARKED_BIT → ∀ old, trans old v [PW] []).
    { intros v Hv old. apply trans_trans with 0; [|by destruct Hv as [->| ->]].
      by apply trans_handoff_exclusive. }
    destruct (have_more_threads result) eqn:Em; wp_pure;
      (apply (rwp_store a _ _ _ (R [] (Cust a ws false)) [PW]); [done|by apply owns_R| |wp_pure; by exists false]);
      intros old Hs _; (apply moves_callback; [done|done|apply Hst; auto|]); [|done].
    intros _. split; [done|auto].
Qed.

Lemma wp_unlock_exclusive_fast force_fair :
  rwp (r <- compare_exchange a WRITER_BIT 0;;
       if r.1 : bool then Ret tt else unlock_exclusive_slow bucket_of a force_fair)%prog
    (R [PW] Run) (λ _ r, r = R [] Run).
Proof.
  unfold compare_exchange. wp_pure. apply (wpR_cas _ _ []); [done|cbn; lia| |by wp_pure|].
  - intros Hs. apply (moves_leave [PW] [] WRITER_BIT 0); [done|cbn; lia|done| |done].
    change 0 with (WRITER_BIT + -8). shifts; lia.
  - intros v _. wp_pure. apply wp_unlock_exclusive_slow.
Qed.

Lemma wp_unlock_exclusive : rwp (unlock_exclusive bucket_of a) (R [PW] Run) (λ _ r, r = R [] Run).
Proof. apply wp_unlock_exclusive_fast. Qed.
Lemma wp_unlock_exclusive_fair :
  rwp (unlock_exclusive_fair bucket_of a) (R [PW] Run) (λ _ r, r = R [] Run).
Proof. apply wp_unlock_exclusive_fast. Qed.

Lemma wp_unlock_shared_slow d :
  d = Free ∨ d = Leaver a →
  rwp (unlock_shared_slow bucket_of a) (RD [] Run d) (λ _ r, r = R [] Run).
Proof.
  intros Hd. unfold unlock_shared_slow. wp_pure. apply rwp_unpark_one; [done|done|done| |intros result; by wp_pure].
  intros result x Hx Hc. rewrite !at_duty_R. unfold fetch_clear, rmw. wp_pure.
  apply (wpR_rmw [] [] x _ (λ _, Free)); [done| |intros old _; by wp_pure].
  intros old Hs. apply moves_clear; [done|cbn; lia| |by right]. pose proof (seen_range _ _ Hs). lia.
Qed.

(** The last reader leaves, and a writer waits for it. *)
Definition last_reader (state : Z) : bool :=
  Z.land state (Z.lor READERS_MASK WRITER_PARKED_BIT) =? Z.lor ONE_READER WRITER_PARKED_BIT.

Lemma has_bit_land v m : m = WRITER_PARKED_BIT → has_bits v m = true → Z.land v m = m.
Proof.
  intros -> H. change WRITER_PARKED_BIT with (2 ^ 1) in *. unfold has_bits in H.
  apply negb_true_iff, Z.eqb_neq in H.
  assert (E : Z.land v (2 ^ 1) = if Z.testbit v 1 then 2 ^ 1 else 0).
  { apply Z.bits_inj'. intros i Hi. rewrite Z.land_spec, Z.pow2_bits_eqb by done.
    destruct (Z.eqb_spec 1 i) as [<-|Hne]; destruct (Z.testbit v 1) eqn:Ev;
      rewrite ?Z.bits_0, ?Z.pow2_bits_eqb, ?Ev, ?andb_false_r by done; try done.
    symmetry. by apply Z.eqb_neq. }
  rewrite E in *. by destruct (Z.testbit v 1).
Qed.

Lemma trans_unshare old : trans old (wrapping_sub usize_bits old ONE_READER) [PS] [].
Proof. apply trans_sub. shifts; lia. Qed.

Lemma moves_unshare old :
  seen old [PS] →
  moves a (R [PS] Run) (RD [] Run (if last_reader old then Leaver a else Free)) [PS] old
    (wrapping_sub usize_bits old ONE_READER).
Proof.
  intros (l & Hl & Hw). pose proof (trans_unshare old l Hl Hw) as Hw'.
  exists []. split; [apply st_R; [done|cbn; lia]|]. split; [apply trans_unshare|].
  assert (E : wrapping_sub usize_bits old ONE_READER mod 4 = old mod 4) by by apply sub_mod4.
  destruct (mod4_bits _ _ E) as [Ep Ewp].
  split; unfold comes; cbn [RD dt rpc]; try done.
  - destruct (last_reader old); [by left|done].
  - rewrite Ep. by left.
  - intros _ [Ht'|[?|?]]; [left|done|done]. rewrite <- Ht'. eapply taken_same; [exact Hw|exact Hw'|].
    by rewrite !cnt_app.
  - intros [Haw|?]; [|done]. unfold awaited in *. rewrite Ewp. apply andb_true_iff in Haw as [Hr Hwp].
    rewrite Hwp, andb_true_r, (readers_bits Hw'). destruct (Z.eqb_spec (cnt PS ([] ++ l) + cnt PU ([] ++ l)) 0) as [E0|]; [|by left].
    right; left. unfold last_reader. rewrite Z.land_lor_distr_r, (readers_part Hw), (has_bit_land _ _ eq_refl Hwp).
    cbn [app] in *. rewrite !cnt_cons, (decide_True (P := PS = PS)), (decide_False (P := PS = PU)) by done.
    replace (16 * (1 + cnt PS l + (0 + cnt PU l))) with ONE_READER by (unfold ONE_READER; lia). by rewrite Z.eqb_refl.
  - by intros c _ [|].
Qed.

Lemma wp_unlock_shared :
  rwp (unlock_shared bucket_of elision a) (R [PS] Run) (λ _ r, r = R [] Run).
Proof.
  assert (Hsub : ∀ Q, (∀ old, Q old (RD [] Run (if last_reader old then Leaver a else Free))) →
    rwp (fetch_sub usize_bits a ONE_READER) (R [PS] Run) Q).
  { intros Q HQ. unfold fetch_sub, rmw.
    apply (wpR_rmw [PS] [] Run Free (λ old, if last_reader old then Leaver a else Free)); [done| |].
    - intros old Hs. by apply moves_unshare.
    - intros old _. by wp_pure. }
  unfold unlock_shared, elision_fetch_sub_release. destruct elision; wp_pure; apply Hsub; intros old;
    unfold last_reader; (case_match; [apply wp_unlock_shared_slow; by right|by wp_pure]).
Qed.

Lemma trans_release_upgradable old :
  trans old (wrapping_sub usize_bits old ONE_UPGRADABLE) [PU] [].
Proof. apply trans_sub. shifts; lia. Qed.

Lemma set_parked_body more v : 0 ≤ v → same_body v (set_parked more v).
Proof. intros Hv. unfold set_parked. destruct more; [by apply same_body_lor|by apply same_body_clear]. Qed.

Lemma set_parked_true v : parked (set_parked true v) = true.
Proof. by apply has_bits_lor_self. Qed.

Lemma wrapping_sub_nonneg x y : 0 ≤ wrapping_sub usize_bits x y.
Proof. apply Z.mod_pos_bound. done. Qed.

Lemma trans_handoff_upgradable old e v ps :
  phase e (cnt PS ps) (cnt PU ps) (cnt PP ps) → cnt PW ps = 0 →
  checked_add usize_bits (wrapping_sub usize_bits old ONE_UPGRADABLE) e = Some v →
  trans old v [PU] ps.
Proof.
  intros (He & Hs & Hu & Hp & H1) Hw [-> Hv]%checked_add_Some. trans_intro l H. rewrite !cnt_app.
  destruct (wd_split _ _ _ _ _ H) as [E _]. pose proof (mod4 old). change ONE_UPGRADABLE with 20 in *.
  assert (Eo : wrapping_sub usize_bits old 20 = old - 20).
  { apply wrap_small. pose proof (wd_range _ _ _ _ _ H). unfold in_width, usize_bits. lia. }
  rewrite Eo in *. replace (old - 20 + e) with (old + (e - 20)) in * by lia.
  assert (Hd : (e - 20) mod 4 = 0).
  { rewrite He. replace (16 * _ + _ - 20)
      with ((4 * (cnt PS ps + cnt PU ps) + 2 * cnt PP ps + cnt PU ps - 5) * 4) by lia.
    by apply Z.mod_mul. }
  pose proof (fits _ _ _ _ _ (e - 20) H Hd Hv).
  eapply wd_shift; [exact H|..]; lia.
Qed.

Section upgradable.
Context (ws : list (tid * ParkToken)) (result : UnparkResult).
Context (Hmore : have_more_threads result = true → ∃ x, x ∈ ws ∧ x.2 ≠ TOKEN_SHARED).
Abbreviation more := (have_more_threads result).

Lemma callback_parked v :
  more = true → parked (set_parked more v) = true ∧ ∃ x, x ∈ ws ∧ x.2 ≠ TOKEN_SHARED.
Proof using Hmore. intros Hm. split; [|auto]. rewrite Hm. apply set_parked_true. Qed.

Lemma wp_upgradable_handoff (e : Z) (state : Z) :
  phase e (cnt PS ((λ x, tperm x.2) <$> ws)) (cnt PU ((λ x, tperm x.2) <$> ws))
    (cnt PP ((λ x, tperm x.2) <$> ws)) →
  rwp (upgradable_handoff a e result state) (RD [PU] (Cust a ws false) (Seen a more))
    (λ x r, match x.1 with
            | Some tok => chosen ws tok r
            | None => r = RD [PU] (Cust a ws false) (Seen a more)
            end).
Proof using Ha Hb Hlim Hmore Hrv Ht.
  intros Hph. unfold upgradable_handoff, compare_exchange_weak.
  apply (wp_iter _ _ _ _ _ (λ _ r, r = RD [PU] (Cust a ws false) (Seen a more))); [done|]. clear state.
  intros state ? ->.
  destruct (checked_add _ _ e) as [v|] eqn:Ev; [|by wp_pure]. wp_pure.
  apply (wpR_cas_duty _ _ _ _ (R [] (Cust a ws true))); [done|cbn; lia|done| |wp_pure; by exists true|intros v' _; by wp_pure].
  intros Hs. apply moves_callback; [done|done| |apply callback_parked].
  apply (trans_trans _ v).
  - by apply (trans_handoff_upgradable _ e); [|apply tperms_no_writer|].
  - apply set_parked_body. apply checked_add_Some in Ev as [-> _]. destruct Hph as (-> & ?).
    pose proof (wrapping_sub_nonneg state ONE_UPGRADABLE). lia.
Qed.

Lemma wp_upgradable_release (state : Z) :
  rwp (upgradable_release a result state) (RD [PU] (Cust a ws false) (Seen a more)) (chosen ws).
Proof using Ha Hb Hlim Hmore Hrv Ht.
  unfold upgradable_release, compare_exchange_weak.
  apply (wp_iter _ _ _ _ _ (λ _ r, r = RD [PU] (Cust a ws false) (Seen a more))); [done|]. clear state.
  intros state ? ->. wp_pure.
  apply (wpR_cas_duty _ _ _ _ (R [] (Cust a ws false))); [done|cbn; lia|done| |wp_pure; by exists false|intros v _; by wp_pure].
  intros Hs. apply moves_callback; [done|done| |apply callback_parked].
  apply (trans_trans _ _ _ _ _ (trans_release_upgradable state)), set_parked_body, wrapping_sub_nonneg.
Qed.
End upgradable.

Lemma moves_release_upgradable old :
  has_bits old PARKED_BIT = false → seen old [PU] →
  moves a (R [PU] Run) (R [] Run) [PU] old (wrapping_sub usize_bits old ONE_UPGRADABLE).
Proof.
  intros Hp Hs. pose proof (moves_leave [PU] [] old (wrapping_sub usize_bits old ONE_UPGRADABLE)) as H.
  unfold parked in H. rewrite Hp in H. apply H; [done|cbn; lia|done|apply trans_release_upgradable|by apply sub_mod4].
Qed.

Lemma wp_unlock_upgradable_slow force_fair :
  rwp (unlock_upgradable_slow bucket_of a force_fair) (R [PU] Run) (λ _ r, r = R [] Run).
Proof.
  unfold unlock_upgradable_slow, load, compare_exchange_weak. wp_pure.
  apply wpR_load; [done|cbn; lia|]. intros old _. wp_pure.
  apply (wp_iter _ _ _ _ _ (λ _ r, r = R [PU] Run)); [done|]. clear old. intros old ? ->.
  destruct (has_bits old PARKED_BIT) eqn:Ep; cbn [negb]; wp_pure.
  2:{ apply (wpR_cas _ _ []); [done|cbn; lia| |by wp_pure|intros v _; by wp_pure].
      intros Hs. by apply moves_release_upgradable. }
  apply wp_unlock_filter; [cbn; lia|]. intros ws e result Htok Hlen ps Hph Hmore.
  unfold unlock_upgradable_callback, load. wp_pure.
  apply (wpR_load_duty [PU] (Cust a ws false)); [done|cbn; lia|done|]. intros st _. wp_pure.
  destruct (force_fair || be_fair result); [|wp_pure; by apply wp_upgradable_release].
  eapply wp_mono; [|by apply wp_upgradable_handoff]. intros [[tok|] st'] r Hr; cbn [fst] in Hr.
  - by wp_pure.
  - subst r. by apply wp_upgradable_release.
Qed.

Lemma wp_unlock_upgradable :
  rwp (unlock_upgradable bucket_of a) (R [PU] Run) (λ _ r, r = R [] Run).
Proof.
  unfold unlock_upgradable, load, compare_exchange_weak. wp_pure.
  apply wpR_load; [done|cbn; lia|]. intros old _. wp_pure.
  destruct (has_bits old PARKED_BIT) eqn:Ep; cbn [negb]; wp_pure; [apply wp_unlock_upgradable_slow|].
  apply (wpR_cas _ _ []); [done|cbn; lia| |by wp_pure|intros v _; wp_pure; apply wp_unlock_upgradable_slow].
  intros Hs. by apply moves_release_upgradable.
Qed.

Lemma wp_unlock_upgradable_fair :
  rwp (unlock_upgradable_fair bucket_of a) (R [PU] Run) (λ _ r, r = R [] Run).
Proof. exact wp_unlock_upgradable. Qed.

(** *** Acquiring *)

(** The result of an operation that may only fail if it has a timeout. *)
Definition post_for (timeout : option Z) p (ok : bool) (r : role) : Prop :=
  post p ok r ∧ (ok = false → is_Some timeout).

Lemma post_for_post timeout p (prog : iprog bool) :
  rwp prog (R [] Run) (post_for timeout p) → rwp prog (R [] Run) (post p).
Proof. intros H. eapply wp_mono; [|exact H]. by intros ok r []. Qed.

Lemma flags_taken v : has_bits v WRITER_BIT = true → taken v = true.
Proof.
  unfold taken, has_bits. rewrite Z.land_lor_distr_r, !negb_true_iff, !Z.eqb_neq, Z.lor_eq_0_iff. tauto.
Qed.

Lemma wp_lock_exclusive_slow timeout :
  rwp (lock_exclusive_slow bucket_of a timeout) (R [] Run) (post_for timeout PW).
Proof.
  unfold lock_exclusive_slow. wp_pure. eapply wp_mono.
  2: { apply (wp_lock_common timeout TOKEN_EXCLUSIVE); [by right; right|done|]. apply wp_exclusive_try_lock. }
  intros locked r [-> Ho]. destruct locked; wp_pure; [|by split].
  eapply wp_mono; [|apply (wp_wait_for_readers timeout 0 []); by left]. intros ok r [-> Ho']. by split.
Qed.

Lemma wp_lock_shared_slow recursive timeout :
  rwp (lock_shared_slow bucket_of elision a recursive timeout) (R [] Run) (post_for timeout PS).
Proof.
  apply (wp_lock_common timeout TOKEN_SHARED); [by left|apply flags_taken|]. apply wp_shared_try_lock.
Qed.

Lemma wp_lock_upgradable_slow timeout :
  rwp (lock_upgradable_slow bucket_of a timeout) (R [] Run) (post_for timeout PU).
Proof.
  apply (wp_lock_common timeout TOKEN_UPGRADABLE); [by right; left|done|]. apply wp_upgradable_try_lock.
Qed.

Lemma wp_assert ok p r Q :
  post_for None p ok r → Q tt (R [p] Run) → rwp (assert_true ok) r Q.
Proof.
  intros [-> Ho] HQ. destruct ok; [by apply wp_ret|]. by destruct (Ho eq_refl).
Qed.

Lemma wp_deadline timeout r (Q : option Z → role → Prop) :
  (∀ c, Q c r) → rwp (to_deadline timeout) r Q.
Proof.
  intros HQ. unfold to_deadline, now. wp_pure. apply (rwp_look ANow); [by eexists|by intros; simplify_eq/=|].
  intros v. wp_pure. apply HQ.
Qed.

(** The first attempt of an exclusive lock. *)
Lemma wp_try_writer {A} weak (k : bool * Z → iprog A) Q :
  rwp (k (true, 0)) (R [PW] Run) Q → (∀ v, rwp (k (false, v)) (R [] Run) Q) →
  rwp (Act (ACas weak a 0 WRITER_BIT) k) (R [] Run) Q.
Proof.
  intros Hok Hf. apply (wpR_cas _ _ [PW]); [done|cbn; lia|apply moves_exclusive|done|].
  intros v _. apply Hf.
Qed.

Lemma wp_lock_exclusive : rwp (lock_exclusive bucket_of a) (R [] Run) (λ _, post PW true).
Proof.
  unfold lock_exclusive, compare_exchange_weak. wp_pure.
  apply wp_try_writer; [by wp_pure|]. intros v. wp_pure.
  eapply wp_mono; [|apply wp_lock_exclusive_slow]. intros ok r Hp. by eapply wp_assert.
Qed.

Lemma wp_try_lock_exclusive : rwp (try_lock_exclusive a) (R [] Run) (post PW).
Proof.
  unfold try_lock_exclusive, compare_exchange. wp_pure.
  apply wp_try_writer; [by wp_pure|]. intros v. by wp_pure.
Qed.

Lemma wp_try_lock_exclusive_for timeout :
  rwp (try_lock_exclusive_for bucket_of a timeout) (R [] Run) (post PW).
Proof.
  unfold try_lock_exclusive_for, compare_exchange_weak. wp_pure.
  apply wp_try_writer; [by wp_pure|]. intros v. wp_pure. apply wp_deadline. intros c.
  eapply post_for_post, wp_lock_exclusive_slow.
Qed.

Lemma wp_try_lock_exclusive_until timeout :
  rwp (try_lock_exclusive_until bucket_of a timeout) (R [] Run) (post PW).
Proof.
  unfold try_lock_exclusive_until, compare_exchange_weak. wp_pure.
  apply wp_try_writer; [by wp_pure|]. intros v. wp_pure. eapply post_for_post, wp_lock_exclusive_slow.
Qed.

(** A fast path, then a slow one. *)
Lemma wp_fast_slow {A} p (fast : iprog bool) (slow : bool → iprog A) (Q : A → role → Prop) :
  rwp fast (R [] Run) (post p) → rwp (slow true) (R [p] Run) Q → rwp (slow false) (R [] Run) Q →
  rwp (Bind fast slow) (R [] Run) Q.
Proof.
  intros Hf Ht' Hs. wp_pure. eapply wp_mono; [|exact Hf]. intros ok r ->. by destruct ok.
Qed.

(** The three shapes of the acquisitions with a fast path. *)
Lemma wp_lock_shape p (fast slow : iprog bool) :
  rwp fast (R [] Run) (post p) → rwp slow (R [] Run) (post_for None p) →
  rwp (ok <- fast;; if ok : bool then Ret tt else result <- slow;; assert_true result)%prog
    (R [] Run) (λ _, post p true).
Proof.
  intros Hf Hs. apply (wp_fast_slow p); [done|by wp_pure|]. wp_pure.
  eapply wp_mono; [|exact Hs]. intros ok r Hp. by eapply wp_assert.
Qed.

Lemma wp_try_shape p (fast slow : iprog bool) :
  rwp fast (R [] Run) (post p) → rwp slow (R [] Run) (post p) →
  rwp (ok <- fast;; if ok : bool then Ret true else slow)%prog (R [] Run) (post p).
Proof. intros Hf Hs. apply (wp_fast_slow p); [done|by wp_pure|done]. Qed.

Lemma wp_for_shape p (fast : iprog bool) timeout (slow : option Z → iprog bool) :
  rwp fast (R [] Run) (post p) → (∀ c, rwp (slow c) (R [] Run) (post_for c p)) →
  rwp (ok <- fast;; if ok : bool then Ret true else deadline <- to_deadline timeout;; slow deadline)%prog
    (R [] Run) (post p).
Proof.
  intros Hf Hs. apply (wp_fast_slow p); [done|by wp_pure|]. wp_pure. apply wp_deadline.
  intros c. by eapply post_for_post.
Qed.

Local Hint Resolve wp_try_lock_shared_fast wp_try_lock_shared_slow wp_lock_shared_slow
  wp_try_lock_upgradable_fast wp_try_lock_upgradable_slow wp_lock_upgradable_slow : core.
Local Hint Extern 1 (rwp _ _ (post _)) => eapply post_for_post : core.

Lemma wp_lock_shared : rwp (lock_shared bucket_of elision a) (R [] Run) (λ _, post PS true).
Proof. by apply (wp_lock_shape PS). Qed.
Lemma wp_lock_shared_recursive :
  rwp (lock_shared_recursive bucket_of elision a) (R [] Run) (λ _, post PS true).
Proof. by apply (wp_lock_shape PS). Qed.
Lemma wp_lock_upgradable : rwp (lock_upgradable bucket_of a) (R [] Run) (λ _, post PU true).
Proof. by apply (wp_lock_shape PU). Qed.

Lemma wp_try_lock_shared : rwp (try_lock_shared elision a) (R [] Run) (post PS).
Proof. by apply (wp_try_shape PS). Qed.
Lemma wp_try_lock_shared_until timeout :
  rwp (try_lock_shared_until bucket_of elision a timeout) (R [] Run) (post PS).
Proof. apply (wp_try_shape PS); [auto|]. eapply post_for_post, wp_lock_shared_slow. Qed.
Lemma wp_try_lock_shared_recursive : rwp (try_lock_shared_recursive elision a) (R [] Run) (post PS).
Proof. by apply (wp_try_shape PS). Qed.
Lemma wp_try_lock_shared_recursive_until timeout :
  rwp (try_lock_shared_recursive_until bucket_of elision a timeout) (R [] Run) (post PS).
Proof. apply (wp_try_shape PS); [auto|]. eapply post_for_post, wp_lock_shared_slow. Qed.
Lemma wp_try_lock_upgradable : rwp (try_lock_upgradable a) (R [] Run) (post PU).
Proof. by apply (wp_try_shape PU). Qed.
Lemma wp_try_lock_upgradable_until timeout :
  rwp (try_lock_upgradable_until bucket_of a timeout) (R [] Run) (post PU).
Proof. apply (wp_try_shape PU); [auto|]. eapply post_for_post, wp_lock_upgradable_slow. Qed.

Lemma wp_try_lock_shared_for timeout :
  rwp (try_lock_shared_for bucket_of elision a timeout) (R [] Run) (post PS).
Proof. apply (wp_for_shape PS _ _ (lock_shared_slow bucket_of elision a false)); auto. Qed.
Lemma wp_try_lock_shared_recursive_for timeout :
  rwp (try_lock_shared_recursive_for bucket_of elision a timeout) (R [] Run) (post PS).
Proof. apply (wp_for_shape PS _ _ (lock_shared_slow bucket_of elision a true)); auto. Qed.
Lemma wp_try_lock_upgradable_for timeout :
  rwp (try_lock_upgradable_for bucket_of a timeout) (R [] Run) (post PU).
Proof. apply (wp_for_shape PU _ _ (lock_upgradable_slow bucket_of a)); auto. Qed.

(** *** Changing the kind of a lock *)

(** Upgrading: the thread becomes the writer, waiting or not. *)
Lemma wp_fetch_upgrade (Q : Z → role → Prop) :
  (∀ old, Q old (R [if Z.land old READERS_MASK =? ONE_READER then PW else PP] Run)) →
  rwp (fetch_sub usize_bits a (ONE_UPGRADABLE - WRITER_BIT)) (R [PU] Run) Q.
Proof.
  intros HQ. unfold fetch_sub, rmw. apply (rwp_rmw a _ _ _ [PU]); [done|by apply (owns_R [PU] Run)|].
  intros old Hs _.
  exists (R [if Z.land old READERS_MASK =? ONE_READER then PW else PP] Run). split; [|by wp_pure].
  apply moves_grow; [by left|cbn; lia|done| |by apply sub_mod4|by left; case_match|by left].
  apply trans_sub. destruct (Z.eqb_spec (Z.land old READERS_MASK) ONE_READER) as [E|E]; shifts;
    rewrite (readers_part H) in E; unfold ONE_READER in E; lia.
Qed.

Lemma wp_upgrade_slow timeout :
  rwp (upgrade_slow bucket_of a timeout) (R [PP] Run)
    (λ ok r, r = R [if ok : bool then PW else PU] Run ∧ (ok = false → is_Some timeout)).
Proof.
  eapply wp_mono; [|apply (wp_wait_for_readers timeout ONE_UPGRADABLE [PU]); by right].
  intros ok r [-> Ho]. by destruct ok.
Qed.

(** The kind after a conversion that may fail. *)
Definition turned p q (ok : bool) (r : role) : Prop := r = R [if ok then q else p] Run.

Lemma wp_upgrade : rwp (upgrade bucket_of a) (R [PU] Run) (λ _, turned PU PW true).
Proof.
  unfold upgrade. wp_pure. apply wp_fetch_upgrade. intros old.
  destruct (Z.land old READERS_MASK =? ONE_READER); wp_pure; [done|].
  eapply wp_mono; [|apply wp_upgrade_slow]. intros ok r [-> Ho].
  destruct ok; [by apply wp_ret|]. by destruct (Ho eq_refl).
Qed.

Lemma wp_try_upgrade_until timeout :
  rwp (try_upgrade_until bucket_of a timeout) (R [PU] Run) (turned PU PW).
Proof.
  unfold try_upgrade_until. wp_pure. apply wp_fetch_upgrade. intros old.
  destruct (Z.land old READERS_MASK =? ONE_READER); wp_pure; [done|].
  eapply wp_mono; [|apply wp_upgrade_slow]. by intros ok r [-> _].
Qed.

Lemma wp_try_upgrade_for timeout :
  rwp (try_upgrade_for bucket_of a timeout) (R [PU] Run) (turned PU PW).
Proof.
  unfold try_upgrade_for. wp_pure. apply wp_fetch_upgrade. intros old.
  destruct (Z.land old READERS_MASK =? ONE_READER); wp_pure; [done|].
  apply wp_deadline. intros c. eapply wp_mono; [|apply wp_upgrade_slow]. by intros ok r [-> _].
Qed.

Lemma wp_try_upgrade : rwp (try_upgrade a) (R [PU] Run) (turned PU PW).
Proof.
  unfold try_upgrade, compare_exchange_weak. wp_pure.
  apply (wpR_cas _ _ [PW]); [done|cbn; lia| |by wp_pure|].
  { intros Hs. apply moves_grow; [by left|cbn; lia|done| |done|by left|by left].
    change WRITER_BIT with (ONE_UPGRADABLE + -12). shifts.
    pose proof (wd_sum _ _ _ _ _ H) as E. change (ONE_UPGRADABLE mod 4) with 0 in E.
    change ONE_UPGRADABLE with 20 in E. lia. }
  intros v _. wp_pure. unfold try_upgrade_slow, load, compare_exchange_weak. wp_pure.
  apply wpR_load; [done|cbn; lia|]. intros old _. wp_pure.
  apply (wp_iter _ _ _ _ _ (λ _ r, r = R [PU] Run)); [done|]. clear v old. intros old ? ->.
  destruct (Z.eqb_spec (Z.land old READERS_MASK) ONE_READER) as [E|]; wp_pure; [|done].
  apply (wpR_cas _ _ [PW]); [done|cbn; lia| |by wp_pure|intros v _; by wp_pure].
  intros Hs.
  assert (Ev : wrapping_add usize_bits (wrapping_sub usize_bits old ONE_UPGRADABLE) WRITER_BIT = wrap 64 (old + -12)).
  { unfold wrapping_add, wrapping_sub, wrap, usize_bits. rewrite Zplus_mod_idemp_l. f_equal.
    unfold WRITER_BIT. change ONE_UPGRADABLE with 20. lia. }
  rewrite Ev. apply moves_grow; [by left|cbn; lia|done| |by apply wrap_mod4|by left|by left].
  apply (trans_mod _ (-12)); [done|]. shifts; rewrite (readers_part H) in E; unfold ONE_READER in E; lia.
Qed.

(** Downgrading: the word changes at once, then threads are woken. *)
Lemma wp_downgrade_shape p q f z (s0 x0 u0 p0 : Z) :
  (∀ old, f old = wrap 64 (old + z)) → z mod 4 = 0 → heavy [p] = true →
  (∀ old, trans old (old + z) [p] [q]) → phase s0 x0 u0 p0 → (heavy [q] = false → u0 + p0 = 0) →
  rwp (state <- rmw a f;;
       if has_bits state PARKED_BIT
       then wake_parked_threads bucket_of a s0 (clear_parked_callback a) else Ret tt)%prog
    (R [p] Run) (λ _, turned p q true).
Proof.
  intros Ef Hz Hp Htr Hs0 Hu0. unfold rmw. wp_pure.
  apply (wp_leave_wake [p] [q] _ s0 x0 u0 p0); [done|cbn; lia|done|done| |].
  - intros old _. rewrite Ef. split; [by apply trans_wrap|by apply wrap_mod4].
  - intros old d Hd Hfree. wp_pure. destruct (has_bits old PARKED_BIT); [|rewrite Hfree by done; by wp_pure].
    eapply wp_mono; [|apply (wp_wake_clear [q] d s0 x0 u0 p0); [cbn; lia|done|done]]. by intros _ r ->.
Qed.

Lemma wp_downgrade : rwp (downgrade bucket_of a) (R [PW] Run) (λ _, turned PW PS true).
Proof.
  apply (wp_downgrade_shape PW PS _ 8 _ 1 0 0); [done|done|done| |apply phase_reader|done].
  intros old. shifts; lia.
Qed.

Lemma wp_downgrade_upgradable :
  rwp (downgrade_upgradable bucket_of a) (R [PU] Run) (λ _, turned PU PS true).
Proof.
  apply (wp_downgrade_shape PU PS _ (-4) _ 1 0 0); [done|done|done| |apply phase_reader|done].
  intros old. shifts; lia.
Qed.

Lemma wp_downgrade_to_upgradable :
  rwp (downgrade_to_upgradable bucket_of a) (R [PW] Run) (λ _, turned PW PU true).
Proof.
  apply (wp_downgrade_shape PW PU _ 12 _ 0 1 0); [done|done|done| |apply phase_upgradable|done].
  intros old. shifts; lia.
Qed.

(** Letting others in for a moment. *)
Lemma wp_bump_exclusive : rwp (bump_exclusive bucket_of a) (R [PW] Run) (λ _, turned PW PW true).
Proof.
  unfold bump_exclusive, bump_exclusive_slow, load. wp_pure.
  apply wpR_load; [done|cbn; lia|]. intros old _. wp_pure.
  destruct (has_bits old PARKED_BIT); wp_pure; [|done].
  eapply wp_mono; [|apply wp_unlock_exclusive_slow]. intros [] ? ->. apply wp_lock_exclusive.
Qed.

Lemma wp_bump_shared :
  rwp (bump_shared bucket_of elision a) (R [PS] Run) (λ _, turned PS PS true).
Proof.
  unfold bump_shared, bump_shared_slow, load. wp_pure.
  apply wpR_load; [done|cbn; lia|]. intros old _. wp_pure.
  destruct (has_bits old WRITER_BIT); wp_pure; [|done].
  eapply wp_mono; [|apply wp_unlock_shared]. intros [] ? ->. apply wp_lock_shared.
Qed.

Lemma wp_bump_upgradable : rwp (bump_upgradable bucket_of a) (R [PU] Run) (λ _, turned PU PU true).
Proof.
  unfold bump_upgradable, bump_upgradable_slow, load. wp_pure.
  apply wpR_load; [done|cbn; lia|]. intros old _. wp_pure.
  destruct (has_bits old PARKED_BIT); wp_pure; [|done].
  eapply wp_mono; [|apply wp_unlock_upgradable_slow]. intros [] ? ->. apply wp_lock_upgradable.
Qed.
End ops.
End operations.

(** What a thread owns between two operations. *)
Abbreviation R a rest gv b X x := (RD a rest gv b X x Free).
