(* ===== verification/RwLockExclusive.v ===== *)
(** * What RawRwLock promises

    Clients of reader-writer locks: any number of threads run scripts of any
    of the operations of src/raw_rwlock.rs on any number of locks, converting
    and releasing only guards they have.  In every reachable configuration a
    writer's guard is alone, and at most one guard is upgradable; and when all
    threads are done, the word of a lock counts exactly the guards left. *)

From S2P Require Import Prelude Conc LotTypes SpinWait FairTimeout BucketQueue ParkingLot LotInv RawMutex RawRwLock RwLockWord RwLockInv RwLockQueue RwLockRules RwLockProof.
Import RawRwLock.
Local Open Scope Z_scope.
Local Open Scope prog_scope.

(** ** Clients *)

Inductive acquisition :=
| LockExclusive | TryLockExclusive | TryLockExclusiveFor (d : Z) | TryLockExclusiveUntil (d : Z)
| LockShared | TryLockShared | TryLockSharedFor (d : Z) | TryLockSharedUntil (d : Z)
| LockSharedRecursive | TryLockSharedRecursive | TryLockSharedRecursiveFor (d : Z)
| TryLockSharedRecursiveUntil (d : Z)
| LockUpgradable | TryLockUpgradable | TryLockUpgradableFor (d : Z) | TryLockUpgradableUntil (d : Z).

Inductive conversion :=
| Upgrade | TryUpgrade | TryUpgradeFor (d : Z) | TryUpgradeUntil (d : Z)
| Downgrade | DowngradeUpgradable | DowngradeToUpgradable
| BumpExclusive | BumpShared | BumpUpgradable.

Inductive release :=
| UnlockExclusive | UnlockExclusiveFair | UnlockShared | UnlockSharedFair
| UnlockUpgradable | UnlockUpgradableFair.

Inductive command :=
| Acquire (a : Z) (o : acquisition)
| Convert (a : Z) (o : conversion)
| Release (a : Z) (o : release)
| IsLocked (a : Z)
| IsLockedExclusive (a : Z).

Definition acquired (o : acquisition) : guard :=
  match o with
  | LockExclusive | TryLockExclusive | TryLockExclusiveFor _ | TryLockExclusiveUntil _ => GExclusive
  | LockUpgradable | TryLockUpgradable | TryLockUpgradableFor _ | TryLockUpgradableUntil _ => GUpgradable
  | _ => GShared
  end.

(** The guard a conversion takes, and the one it returns if it succeeds. *)
Definition converts (o : conversion) : guard * guard :=
  match o with
  | Upgrade | TryUpgrade | TryUpgradeFor _ | TryUpgradeUntil _ => (GUpgradable, GExclusive)
  | Downgrade => (GExclusive, GShared)
  | DowngradeUpgradable => (GUpgradable, GShared)
  | DowngradeToUpgradable => (GExclusive, GUpgradable)
  | BumpExclusive => (GExclusive, GExclusive)
  | BumpShared => (GShared, GShared)
  | BumpUpgradable => (GUpgradable, GUpgradable)
  end.

Definition released (o : release) : guard :=
  match o with
  | UnlockExclusive | UnlockExclusiveFair => GExclusive
  | UnlockShared | UnlockSharedFair => GShared
  | UnlockUpgradable | UnlockUpgradableFair => GUpgradable
  end.

Definition address (c : command) : Z :=
  match c with
  | Acquire a _ | Convert a _ | Release a _ | IsLocked a | IsLockedExclusive a => a
  end.

Section clients.
Context (bucket_of : Z → nat) (elision : bool).

Definition always (p : iprog unit) : iprog bool := p;; Ret true.

Definition acquire (a : Z) (o : acquisition) : iprog bool :=
  match o with
  | LockExclusive => always (lock_exclusive bucket_of a)
  | TryLockExclusive => try_lock_exclusive a
  | TryLockExclusiveFor d => try_lock_exclusive_for bucket_of a d
  | TryLockExclusiveUntil d => try_lock_exclusive_until bucket_of a d
  | LockShared => always (lock_shared bucket_of elision a)
  | TryLockShared => try_lock_shared elision a
  | TryLockSharedFor d => try_lock_shared_for bucket_of elision a d
  | TryLockSharedUntil d => try_lock_shared_until bucket_of elision a d
  | LockSharedRecursive => always (lock_shared_recursive bucket_of elision a)
  | TryLockSharedRecursive => try_lock_shared_recursive elision a
  | TryLockSharedRecursiveFor d => try_lock_shared_recursive_for bucket_of elision a d
  | TryLockSharedRecursiveUntil d => try_lock_shared_recursive_until bucket_of elision a d
  | LockUpgradable => always (lock_upgradable bucket_of a)
  | TryLockUpgradable => try_lock_upgradable a
  | TryLockUpgradableFor d => try_lock_upgradable_for bucket_of a d
  | TryLockUpgradableUntil d => try_lock_upgradable_until bucket_of a d
  end.

Definition convert (a : Z) (o : conversion) : iprog bool :=
  match o with
  | Upgrade => always (upgrade bucket_of a)
  | TryUpgrade => try_upgrade a
  | TryUpgradeFor d => try_upgrade_for bucket_of a d
  | TryUpgradeUntil d => try_upgrade_until bucket_of a d
  | Downgrade => always (downgrade bucket_of a)
  | DowngradeUpgradable => always (downgrade_upgradable bucket_of a)
  | DowngradeToUpgradable => always (downgrade_to_upgradable bucket_of a)
  | BumpExclusive => always (bump_exclusive bucket_of a)
  | BumpShared => always (bump_shared bucket_of elision a)
  | BumpUpgradable => always (bump_upgradable bucket_of a)
  end.

Definition unlock_of (a : Z) (o : release) : iprog unit :=
  match o with
  | UnlockExclusive => unlock_exclusive bucket_of a
  | UnlockExclusiveFair => unlock_exclusive_fair bucket_of a
  | UnlockShared => unlock_shared bucket_of elision a
  | UnlockSharedFair => unlock_shared_fair bucket_of elision a
  | UnlockUpgradable => unlock_upgradable bucket_of a
  | UnlockUpgradableFair => unlock_upgradable_fair bucket_of a
  end.

(** One command of a thread that has the guards [held]. *)
Definition run_command (c : command) (held : list (Z * guard)) : iprog (list (Z * guard)) :=
  match c with
  | Acquire a o =>
      ok <- acquire a o;;
      if ok : bool then Act (AEnter a (acquired o)) Ret;; Ret ((a, acquired o) :: held)
      else Ret held
  | Convert a o =>
      let '(g, g') := converts o in
      if decide ((a, g) ∈ held) then
        Act (ADrop a g) Ret;;
        ok <- convert a o;;
        let g := if ok : bool then g' else g in
        Act (AEnter a g) Ret;; Ret ((a, g) :: remove_first (a, (converts o).1) held)
      else Ret held
  | Release a o =>
      if decide ((a, released o) ∈ held) then
        Act (ADrop a (released o)) Ret;; unlock_of a o;; Ret (remove_first (a, released o) held)
      else Ret held
  | IsLocked a => is_locked a;; Ret held
  | IsLockedExclusive a => is_locked_exclusive a;; Ret held
  end.

Fixpoint rw_client (cs : list command) (held : list (Z * guard)) : iprog unit :=
  match cs with
  | [] => Ret tt
  | c :: cs => held <- run_command c held;; rw_client cs held
  end.

(** ** Clients are verified *)

Section verify.
Context (n lim : nat) (Hlim : Z.of_nat (n * (lim + n + 1)) ≤ 2 ^ 58).
Context (t : tid) (Ht : (t < n)%nat).
Implicit Types (r : role) (held gv : list (Z * guard)).

Abbreviation rinv := (RwInv bucket_of n lim).
Abbreviation rwp := (wp exec rinv rw_panic (rw_blocked bucket_of) t).

(** The role of a thread with the guards [held] and [m] commands left. *)
Record idle held (m : nat) r : Prop := {
  id_pc : rpc r = Run;
  id_duty : dt r = Free;
  id_own : rh r ≡ₚ vperms held;
  id_guards : rv r ≡ₚ held;
  id_budget : (m ≤ bud r)%nat;
  id_bound : (length (rh r) + bud r + 1 ≤ lim)%nat;
}.

Lemma idle_less held m r : idle held (S m) r → idle held m r.
Proof. intros []. split; try done. lia. Qed.

#[export] Instance vperms_proper : Proper ((≡ₚ) ==> (≡ₚ)) vperms.
Proof. intros l l' E. unfold vperms. by rewrite E. Qed.

Lemma vperms_length l : length (vperms l) = length l.
Proof. apply length_fmap. Qed.

(** A thread that runs nothing changes the guards it has registered. *)
Lemma rwp_guards {A} a l (x : act) (k : resp x → iprog A) r r' Q :
  (∀ s, is_Some (exec t 0 x s)) →
  (∀ c s s' v, exec t c x s = Some (s', v) → s' = set_live a (l (live s a)) s) →
  rpc r = Run → rpc r' = Run → dt r = Free → dt r' = Free → rh r' ≡ₚ rh r → vperms (rv r') ⊆+ rh r' →
  (length (rh r') + bud r' ≤ lim)%nat →
  (∀ a', a' ≠ a → own (rv r') a' ≡ₚ own (rv r) a') →
  (∀ lv u, own lv t ≡ₚ own (rv r) a → own (l lv) u ≡ₚ if decide (u = t) then own (rv r') a else own lv u) →
  (∀ v, rwp (k v) r' Q) → rwp (Act x k) r Q.
Proof.
  intros He Hx Hpc Hpc' Hd Hd' Eh Hv Hb Hoth Hl Hk. apply wp_act; [by left; exists 0|].
  intros s g ρ c s' v Hr [HI HQ] Hex. apply Hx in Hex as ->. exists g, r'. split; [|apply Hk]. split.
  2:{ apply (q_role bucket_of s _ ρ t r); try done; rewrite ?Hd, ?Hd'; try done.
      - intros b _. unfold coming. rewrite Hd, Hpc. by intros [|].
      - split; [by rewrite Hd'|by rewrite Hpc']. }
  apply (r_step bucket_of n lim s g); cbn; try done.
  - apply lot_role; [apply HI|..]; cbn; by rewrite Hr, Hpc, Hpc'.
  - rewrite (ri_own _ _ _ _ _ _ HI t), Hr, Hpc, Hpc', Eh. done.
  - apply HI.
  - by rewrite Hpc'.
  - intros a' u. rewrite fn_insert_case. pose proof (ri_live _ _ _ _ _ _ HI a' t) as El.
    rewrite Hr in El. destruct (decide (a = a')) as [<-|Hne]; [by apply Hl|].
    destruct (decide (u = t)) as [->|]; [|done]. by rewrite Hoth.
Qed.

Lemma rwp_enter {A} a gd rest gv b b' (k : unit → iprog A) Q :
  vperms gv ⊆+ rest → (b' ≤ b)%nat → (length rest + 1 + b ≤ lim)%nat →
  rwp (k tt) (MkRole ((a, gperm gd) :: rest) ((a, gd) :: gv) b' Run Free) Q →
  rwp (Act (AEnter a gd) k) (R a rest gv b [gperm gd] Run) Q.
Proof.
  intros Hv Hb' Hb Hk. apply (rwp_guards a (cons (t, gd)) _ _ _
    (MkRole ((a, gperm gd) :: rest) ((a, gd) :: gv) b' Run Free));
    [by eexists|by intros; simplify_eq/=|done|done|done|done|..|by intros []]; cbn [RD rh rv bud rpc fmap list_fmap app]; try done; [|cbn; lia|..].
  - unfold vperms. cbn. by apply submseteq_skip.
  - intros a' Ha. by rewrite own_cons, decide_False.
  - intros lv u Hlv. rewrite !own_cons, (decide_True (P := a = a)) by done.
    destruct (decide (u = t)) as [->|]; [rewrite decide_True by done; by rewrite Hlv|by rewrite decide_False].
Qed.

Lemma own_perm {K B} `{EqDecision K} (l l' : list (K * B)) k : l ≡ₚ l' → own l k ≡ₚ own l' k.
Proof. by intros ->. Qed.

Lemma rwp_drop {A} a gd held m r (k : unit → iprog A) Q :
  idle held m r → (a, gd) ∈ held →
  let gv := remove_first (a, gd) held in
  rwp (k tt) (R a (vperms gv) gv (bud r) [gperm gd] Run) Q →
  rwp (Act (ADrop a gd) k) r Q.
Proof.
  intros [Hpc Hd Ho Hg Hm Hb] Hin gv Hk. pose proof (remove_first_perm _ _ Hin) as E. fold gv in E.
  assert (Er : ∀ a', own (rv r) a' ≡ₚ if decide (a = a') then gd :: own gv a' else own gv a').
  { intros a'. rewrite Hg, E. by rewrite own_cons. }
  apply (rwp_guards a (remove_first (t, gd)) _ _ _ (R a (vperms gv) gv (bud r) [gperm gd] Run));
    [by eexists|by intros; simplify_eq/=|done|done|done|done|..|intros []; exact Hk]; cbn [RD rh rv bud rpc fmap list_fmap app].
  - by rewrite Ho, E.
  - by apply submseteq_cons.
  - rewrite Ho, E, vperms_length in Hb. cbn [length] in *. rewrite vperms_length. lia.
  - intros a' Ha. rewrite Er. by rewrite decide_False.
  - intros lv u Hlv. rewrite Er, decide_True in Hlv by done.
    assert (Hin' : (t, gd) ∈ lv) by (apply own_elem; rewrite Hlv; by left).
    pose proof (own_perm _ _ u (remove_first_perm _ _ Hin')) as E'. rewrite own_cons in E'.
    destruct (decide (u = t)) as [->|].
    + rewrite decide_True, Hlv in E' by done. by apply Permutation_cons_inv in E'.
    + by rewrite decide_False in E'.
Qed.

Lemma wp_always p r (Q : bool → role → Prop) :
  rwp p r (λ _, Q true) → rwp (always p) r Q.
Proof. intros H. unfold always. wp_pure. eapply wp_mono; [|exact H]. intros []. by wp_pure. Qed.

(** ** Every command *)

Section commands.
Context (a : Z) (Ha : Z.even a = true) (rest : list (Z * perm)) (gv : list (Z * guard)) (b : nat).
Context (Hrv : vperms gv ≡ₚ rest) (Hb : (length rest + 1 + b ≤ lim)%nat).

Lemma wp_acquire o :
  rwp (acquire a o) (R a rest gv b [] Run) (post a rest gv b (gperm (acquired o))).
Proof.
  destruct o; cbn [acquire acquired gperm]; try (apply wp_always).
  - by apply wp_lock_exclusive.
  - by apply wp_try_lock_exclusive.
  - by apply wp_try_lock_exclusive_for.
  - by apply wp_try_lock_exclusive_until.
  - by apply wp_lock_shared.
  - by apply wp_try_lock_shared.
  - by apply wp_try_lock_shared_for.
  - by apply wp_try_lock_shared_until.
  - by apply wp_lock_shared_recursive.
  - by apply wp_try_lock_shared_recursive.
  - by apply wp_try_lock_shared_recursive_for.
  - by apply wp_try_lock_shared_recursive_until.
  - by apply wp_lock_upgradable.
  - by apply wp_try_lock_upgradable.
  - by apply wp_try_lock_upgradable_for.
  - by apply wp_try_lock_upgradable_until.
Qed.

Lemma wp_convert o :
  rwp (convert a o) (R a rest gv b [gperm (converts o).1] Run)
    (turned a rest gv b (gperm (converts o).1) (gperm (converts o).2)).
Proof.
  destruct o; cbn [convert converts gperm fst snd]; try (apply wp_always).
  - by apply wp_upgrade.
  - by apply wp_try_upgrade.
  - by apply wp_try_upgrade_for.
  - by apply wp_try_upgrade_until.
  - by apply wp_downgrade.
  - by apply wp_downgrade_upgradable.
  - by apply wp_downgrade_to_upgradable.
  - by apply wp_bump_exclusive.
  - by apply wp_bump_shared.
  - by apply wp_bump_upgradable.
Qed.

Lemma wp_unlock_of o :
  rwp (unlock_of a o) (R a rest gv b [gperm (released o)] Run) (λ _ r, r = R a rest gv b [] Run).
Proof.
  destruct o; cbn [unlock_of released gperm].
  - by apply wp_unlock_exclusive.
  - by apply wp_unlock_exclusive_fair.
  - by apply wp_unlock_shared.
  - by apply wp_unlock_shared.
  - by apply wp_unlock_upgradable.
  - by apply wp_unlock_upgradable_fair.
Qed.
End commands.

Lemma wp_query {A} a (k : Z → iprog A) held m r Q :
  Z.even a = true → idle held m r → (∀ v, rwp (k v) r Q) → rwp (Act (ALoad a) k) r Q.
Proof.
  intros Ha [Hpc Hd Ho Hg Hm Hb] Hk. apply (rwp_load bucket_of n lim Hlim t Ht a k r []); [done| |].
  { by apply owns_none; rewrite Hpc. }
  intros old Hs Hro. exists r. split; [|by apply Hk]. exists []. split; [by apply step_refl; [apply owns_none; rewrite Hpc|]|].
  split; [apply trans_refl|]. split; rewrite ?Hd; try done; tauto.
Qed.

Lemma wp_run_command c held m r :
  Z.even (address c) = true → idle held (S m) r →
  rwp (run_command c held) r (λ held' r', idle held' m r').
Proof.
  intros Ha Hid. pose proof Hid as [Hpc Hd Ho Hg Hm Hb].
  destruct c as [a o|a o|a o|a|a]; cbn [run_command address] in *.
  - assert (Er : r = R a (rh r) (rv r) (bud r) [] Run) by (destruct r; cbn in *; by subst).
    wp_pure. rewrite Er at 1. eapply wp_mono.
    2: { apply (wp_acquire a Ha (rh r) (rv r) (bud r)); [by rewrite Hg, Ho|lia]. }
    intros ok ? ->. destruct ok; wp_pure.
    + apply (rwp_enter _ _ _ _ _ (bud r - 1)); [by rewrite Hg, Ho|lia|lia|]. wp_pure.
      split; cbn; [done|done| |by rewrite Hg|lia|lia]. unfold vperms. cbn. by rewrite Ho.
    + apply idle_less. by rewrite <- Er.
  - destruct (converts o) as [gd gd'] eqn:Eo. case_decide as Hin; wp_pure; [|by apply idle_less].
    apply (rwp_drop _ _ held (S m)); [done|done|]. wp_pure.
    pose proof (remove_first_perm _ _ Hin) as E. set (gv := remove_first (a, gd) held) in *.
    assert (Hl : (length (vperms gv) + 1 + bud r + 1 ≤ lim)%nat).
    { rewrite Ho, E, vperms_length in Hb. rewrite vperms_length. cbn in Hb. lia. }
    eapply wp_mono.
    2: { pose proof (wp_convert a Ha (vperms gv) gv (bud r) ltac:(done) ltac:(lia) o) as Hc.
         rewrite Eo in Hc. exact Hc. }
    intros ok ? ->. cbn [fst snd]. wp_pure.
    assert (Eg : [if ok then gperm gd' else gperm gd] = [gperm (if ok then gd' else gd)])
      by (by destruct ok). rewrite Eg.
    apply (rwp_enter _ _ _ _ _ (bud r)); [done|lia|lia|]. wp_pure.
    split; cbn; [done|done|done|done|lia|]. lia.
  - case_decide as Hin; wp_pure; [|by apply idle_less].
    apply (rwp_drop _ _ held (S m)); [done|done|]. wp_pure.
    pose proof (remove_first_perm _ _ Hin) as E. set (gv := remove_first _ held) in *.
    assert (Hl : (length (vperms gv) + 1 + bud r + 1 ≤ lim)%nat).
    { rewrite Ho, E, vperms_length in Hb. rewrite vperms_length. cbn in Hb. lia. }
    eapply wp_mono; [|apply wp_unlock_of; [done|done|lia]]. intros [] ? ->. wp_pure.
    split; cbn; [done|done|done|done|lia|]. lia.
  - unfold is_locked, load. wp_pure. apply (wp_query _ _ held (S m)); [done|done|]. intros v. wp_pure.
    by apply idle_less.
  - unfold is_locked_exclusive, load. wp_pure. apply (wp_query _ _ held (S m)); [done|done|]. intros v.
    wp_pure. by apply idle_less.
Qed.

(** What holds of a thread that is done. *)
Definition finished r : Prop := rpc r = Run ∧ dt r = Free ∧ rh r ≡ₚ vperms (rv r).

Lemma idle_finished held m r : idle held m r → finished r.
Proof. intros [Hpc Hd Ho Hg _ _]. split; [done|]. split; [done|]. by rewrite Hg, Ho. Qed.

Lemma wp_rw_client cs held r :
  (∀ c, c ∈ cs → Z.even (address c) = true) → idle held (length cs) r →
  rwp (rw_client cs held) r (λ _, finished).
Proof.
  revert held r. induction cs as [|c cs IH]; intros held r Ha Hid; cbn [rw_client].
  { wp_pure. by eapply idle_finished. }
  wp_pure. eapply wp_mono; [|apply (wp_run_command _ _ (length cs)); [apply Ha; by left|done]].
  intros held' r' Hid'. apply IH; [|done]. intros c' Hc. apply Ha. by right.
Qed.
End verify.

(** ** Every reachable configuration *)

(** At most [n] threads run at most [m] commands each, few enough that no
    reader count overflows, on locks whose addresses are even, as those of a
    word are. *)
Record scripts_ok (n m : nat) (scripts : tid → list command) : Prop := {
  so_threads t : (n ≤ t)%nat → scripts t = [];
  so_length t : (length (scripts t) ≤ m)%nat;
  so_size : Z.of_nat (n * (m + n + 2)) ≤ 2 ^ 58;
  so_even t c : c ∈ scripts t → Z.even (address c) = true;
}.

Definition rw_state : state := init_state (λ _, INIT).
Definition rw_pool (scripts : tid → list command) : tid → iprog unit :=
  λ t, rw_client (scripts t) [].

Abbreviation rw_verified n m :=
  (verified exec (RwInv bucket_of n (m + 1)) rw_panic (rw_blocked bucket_of) finished).

Lemma wd_empty : wdl 0 [].
Proof. split; rewrite ?cnt_nil; try done; lia. Qed.

Lemma rw_start_inv n lim (b : tid → nat) :
  (∀ t, (b t ≤ lim)%nat) → RwInv bucket_of n lim rw_state [] (λ t, MkRole [] [] (b t) Run Free).
Proof.
  intros Hb. split; split; cbn; try done.
  - split; cbn; try done; [|constructor|set_solver|set_solver].
    intros c t. split; [done|set_solver].
  - intros a u _ [[Hu _]|Hu]; [by apply not_elem_of_nil in Hu|done].
  - intros a u _ [[Hu _]|Hu]; [by apply not_elem_of_nil in Hu|done].
  - intros a u _ [[Hu _]|Hu]; [by apply not_elem_of_nil in Hu|done].
Qed.

Lemma rw_start_verified n m scripts :
  scripts_ok n m scripts → rw_verified n m (rw_state, rw_pool scripts).
Proof.
  intros [Hthr Hlen Hsize Heven].
  exists [], (λ t, MkRole [] [] (length (scripts t)) Run Free). split.
  - apply rw_start_inv. intros t. specialize (Hlen t). lia.
  - intros t. cbn. unfold rw_pool. destruct (decide (t < n)%nat) as [Ht|Ht].
    + apply wp_rw_client; [|done|by apply Heven|].
      * replace (m + 1 + n + 1)%nat with (m + n + 2)%nat by lia. done.
      * split; cbn; try done. specialize (Hlen t). lia.
    + rewrite Hthr by lia. cbn. by wp_pure.
Qed.

Lemma rw_reachable_verified n m scripts s ps :
  scripts_ok n m scripts → reachable exec rw_state (rw_pool scripts) s ps → rw_verified n m (s, ps).
Proof. intros Hs Hr. eapply adequacy; [by apply rw_start_verified|exact Hr]. Qed.

(** ** Guards and owned locks *)

(** The guards of [a] as locks with their threads, and the owned locks. *)
Definition guards_at (s : state) a : list (tid * perm) := (λ x, (x.1, gperm x.2)) <$> live s a.
Definition owned_at (g : ghost) a : list (tid * perm) :=
  (λ x, (x.1, x.2.2)) <$> filter (λ x : tid * (Z * perm), x.2.1 = a) g.

Lemma own_fmap {K B C} `{EqDecision K} (f : B → C) (l : list (K * B)) k :
  own ((λ x, (x.1, f x.2)) <$> l) k = f <$> own l k.
Proof.
  induction l as [|[k' y] l IH]; [done|]. rewrite fmap_cons, !own_cons, IH. cbn. by case_decide.
Qed.

Lemma own_owned_at (g : ghost) a t : own (owned_at g a) t = own (own g t) a.
Proof.
  unfold owned_at. induction g as [|[t' [a' p]] g IH]; [done|]. rewrite filter_cons, own_cons. cbn.
  repeat case_decide; subst; rewrite ?fmap_cons, ?own_cons, ?IH; cbn;
    rewrite ?decide_True, ?decide_False by done; done.
Qed.

Lemma owned_at_addr (g : ghost) a : (owned_at g a).*2 = at_addr a g.
Proof. unfold owned_at, at_addr. by rewrite <- !list_fmap_compose. Qed.

Lemma own_mono (l l' : list (Z * perm)) a : l ⊆+ l' → own l a ⊆+ own l' a.
Proof.
  intros [k E]%submseteq_Permutation. rewrite E. unfold own. rewrite filter_app, fmap_app.
  by apply submseteq_inserts_r.
Qed.

Section invariant.
Context (n m : nat) (s : state) (g : ghost) (ρ : tid → role) (HI : RInv bucket_of n m s g ρ).

Lemma own_guards a t : own (guards_at s a) t ≡ₚ own (vperms (rv (ρ t))) a.
Proof.
  unfold guards_at, vperms. rewrite !own_fmap. by rewrite (ri_live _ _ _ _ _ _ HI a t).
Qed.

Lemma guards_owned a : (guards_at s a).*2 ⊆+ at_addr a g.
Proof.
  rewrite <- owned_at_addr. apply fmap_submseteq, own_submseteq. intros t.
  rewrite own_guards, own_owned_at. apply own_mono. rewrite (ri_own _ _ _ _ _ _ HI t).
  apply submseteq_inserts_r, (ri_rv _ _ _ _ _ _ HI).
Qed.

(** When all threads are done the guards are the owned locks. *)
Lemma guards_all_owned a : (∀ t, finished (ρ t)) → (guards_at s a).*2 ≡ₚ at_addr a g.
Proof.
  intros Hf. rewrite <- owned_at_addr. f_equiv. apply (anti_symm submseteq); apply own_submseteq;
    intros t; destruct (Hf t) as (Hpc & _ & Ho);
    assert (E : own (guards_at s a) t ≡ₚ own (owned_at g a) t) by
      (rewrite own_guards, own_owned_at, (ri_own _ _ _ _ _ _ HI t), Hpc, app_nil_r; by rewrite Ho);
    by rewrite E.
Qed.
End invariant.
End clients.

(** ** The theorems *)

Definition count (gd : guard) (l : list (tid * guard)) : Z :=
  Z.of_nat (length (filter (λ x, x = gd) l.*2)).

Lemma count_cnt gd (l : list (tid * guard)) : count gd l = cnt (gperm gd) (gperm <$> l.*2).
Proof.
  induction l as [|[t x] l IH]; [done|]. rewrite !fmap_cons, cnt_cons, <- IH. unfold count.
  rewrite fmap_cons, filter_cons. cbn [snd].
  destruct (decide (x = gd)) as [->|Hne]; [rewrite decide_True by done; cbn [length]; lia|].
  by rewrite decide_False by (by destruct x, gd).
Qed.

Lemma cnt_submseteq p l l' : l ⊆+ l' → cnt p l ≤ cnt p l'.
Proof. intros [k E]%submseteq_Permutation. rewrite (cnt_perm p _ _ E), cnt_app. pose proof (cnt_nonneg p k). lia. Qed.

Lemma count_elem gd (l : list (tid * guard)) : count gd l ≤ 0 → gd ∉ l.*2.
Proof.
  unfold count. intros H Hin. destruct (filter (λ x, x = gd) l.*2) as [|y k] eqn:E; [|cbn in H; lia].
  assert (Hf : gd ∈ filter (λ x, x = gd) l.*2) by by apply list_elem_of_filter.
  rewrite E in Hf. by apply not_elem_of_nil in Hf.
Qed.

Lemma guards_cnt s a : (guards_at s a).*2 = gperm <$> (live s a).*2.
Proof. unfold guards_at. by rewrite <- !list_fmap_compose. Qed.

Lemma cnt_pending (gs : list (tid * guard)) : cnt PP (gperm <$> gs.*2) = 0.
Proof. induction gs as [|[t []] gs IH]; [done|..]; by rewrite !fmap_cons, cnt_cons, IH. Qed.

(** Locks that a word can count are compatible. *)
Lemma wd_compatible v l (gs : list (tid * guard)) :
  wdl v l → gperm <$> gs.*2 ⊆+ l → compatible gs.
Proof.
  intros H Hsub. pose proof (wd_one _ _ _ _ _ H). pose proof (wd_alone _ _ _ _ _ H).
  pose proof (cnt_submseteq PS _ _ Hsub) as HS. pose proof (cnt_submseteq PU _ _ Hsub) as HU.
  pose proof (cnt_submseteq PW _ _ Hsub) as HW. pose proof (cnt_nonneg PP l).
  rewrite <- (count_cnt GShared) in HS. rewrite <- (count_cnt GUpgradable) in HU.
  rewrite <- (count_cnt GExclusive) in HW. pose proof (cnt_nonneg PU l). pose proof (cnt_nonneg PW l).
  assert (Hlen : count GShared gs + count GUpgradable gs + count GExclusive gs = Z.of_nat (length gs)).
  { pose proof (cnt_length (gperm <$> gs.*2)) as E. rewrite !length_fmap, cnt_pending in E.
    rewrite !count_cnt. cbn [gperm]. lia. }
  assert (Hnn : ∀ gd, 0 ≤ count gd gs) by (intros; unfold count; lia).
  pose proof (Hnn GShared). pose proof (Hnn GUpgradable). pose proof (Hnn GExclusive).
  destruct (decide (count GExclusive gs = 0)) as [E|E].
  - right. split; [by apply count_elem; lia|]. unfold count in HU. lia.
  - left. destruct gs as [|[t gd] [|? gs]]; cbn in Hlen; [done| |lia].
    exists t. by destruct gd.
Qed.

Lemma rwlock_compatible bucket_of n m s g ρ a :
  RInv bucket_of n m s g ρ → Z.even a = true → compatible (live s a).
Proof.
  intros HI Ha. eapply wd_compatible; [by apply (ri_word _ _ _ _ _ _ HI a Ha)|].
  rewrite <- guards_cnt. by eapply guards_owned.
Qed.

(** When all threads are done the word counts the guards. *)
Lemma finished_wdl bucket_of n m s g ρ a :
  RInv bucket_of n m s g ρ → Z.even a = true → (∀ t, finished (ρ t)) →
  wdl (mem s a) (gperm <$> (live s a).*2).
Proof.
  intros HI Ha Hfin. eapply wdl_perm; [|by apply (ri_word _ _ _ _ _ _ HI a Ha)].
  rewrite <- guards_cnt. symmetry. by eapply guards_all_owned.
Qed.

Section theorems.
Context (bucket_of : Z → nat) (elision : bool).

(** C15: Readers and writers exclude each other. In every reachable
    configuration of any number of threads that run any of the operations of
    RawRwLock on any number of locks, the live guards of a lock are a single
    exclusive one, or shared ones and at most one upgradable one. *)
Theorem rwlock_exclusive n m scripts s ps a :
  scripts_ok n m scripts → Z.even a = true →
  reachable exec rw_state (rw_pool bucket_of elision scripts) s ps → compatible (live s a).
Proof.
  intros Hok Ha (g & ρ & [HI _] & _)%(rw_reachable_verified _ _ n m); [|done]. cbn in HI.
  by eapply rwlock_compatible.
Qed.

(** No lock leaks. When all threads have finished, the word of each lock
    counts exactly the guards that were not released: its reader count is the
    number of shared and upgradable ones, and its bits say whether there is an
    exclusive or an upgradable one. *)
Theorem rwlock_word_counts n m scripts s ps a :
  scripts_ok n m scripts → Z.even a = true →
  reachable exec rw_state (rw_pool bucket_of elision scripts) s ps → (∀ t, ps t = Ret tt) →
  Z.land (mem s a) READERS_MASK = ONE_READER * (count GShared (live s a) + count GUpgradable (live s a)) ∧
  has_bits (mem s a) WRITER_BIT = (count GExclusive (live s a) =? 1) ∧
  has_bits (mem s a) UPGRADABLE_BIT = (count GUpgradable (live s a) =? 1).
Proof.
  intros Hok Ha (g & ρ & [HI _] & Hwp)%(rw_reachable_verified _ _ n m) Hret; [|done]. cbn in HI, Hwp.
  assert (Hfin : ∀ t, finished (ρ t)).
  { intros t. specialize (Hwp t). rewrite Hret in Hwp. by apply wp_ret_inv in Hwp. }
  pose proof (finished_wdl _ _ _ _ _ _ a HI Ha Hfin) as H.
  rewrite (readers_part H), (writer_bit H), (upgradable_bit H), !count_cnt. cbn [gperm].
  rewrite cnt_pending. unfold ONE_READER. split; [lia|]. by rewrite Z.add_0_l.
Qed.
End theorems.

(** ** A run: thread 1 parks while thread 0 writes, and reads once thread 0 downgrades *)

Section example.
Local Definition rw_scripts (t : tid) : list command :=
  match t with
  | 0%nat => [Acquire 8 LockExclusive; Convert 8 DowngradeToUpgradable]
  | 1%nat => [Acquire 8 LockShared; Acquire 8 TryLockSharedRecursive]
  | _ => []
  end.
Local Definition rw_sched : list (tid * choice) :=
  repeat (0%nat, 0) 8 ++ repeat (1%nat, 0) 132 ++ repeat (0%nat, 0) 23 ++ repeat (1%nat, 0) 32.
Local Definition rw_demo : state * (tid → iprog unit) :=
  default (rw_state, rw_pool (λ _, 0%nat) false rw_scripts)
    (run exec rw_sched rw_state (rw_pool (λ _, 0%nat) false rw_scripts)).

Lemma rw_demo_reachable :
  reachable exec rw_state (rw_pool (λ _, 0%nat) false rw_scripts) rw_demo.1 rw_demo.2.
Proof.
  apply (run_reachable _ rw_sched). unfold rw_demo.
  assert (H : bool_decide (is_Some (run exec rw_sched rw_state
            (rw_pool (λ _, 0%nat) false rw_scripts))) = true) by (vm_compute; reflexivity).
  apply bool_decide_eq_true in H as [[s ps] E]. by rewrite E.
Qed.

Lemma rw_scripts_ok : scripts_ok 2 2 rw_scripts.
Proof.
  split.
  - intros [|[|t]] Ht; [lia|lia|done].
  - intros [|[|t]]; cbn; lia.
  - done.
  - intros [|[|t]] c Hc; cbn in Hc; [| |by apply not_elem_of_nil in Hc];
      apply elem_of_cons in Hc as [->|[->|Hc%not_elem_of_nil]%elem_of_cons]; done.
Qed.

Lemma rwlock_exclusive_witness :
  live rw_demo.1 8 = [(1%nat, GShared); (1%nat, GShared); (0%nat, GUpgradable)] ∧
  compatible (live rw_demo.1 8).
Proof.
  split; [vm_compute; reflexivity|].
  exact (rwlock_exclusive (λ _, 0%nat) false 2 2 rw_scripts rw_demo.1 rw_demo.2 8 rw_scripts_ok
           eq_refl rw_demo_reachable).
Defined.

Lemma rwlock_word_counts_witness :
  count GShared (live rw_demo.1 8) = 2 ∧ Z.land (mem rw_demo.1 8) READERS_MASK = 48 ∧
  has_bits (mem rw_demo.1 8) UPGRADABLE_BIT = true.
Proof.
  assert (Hret : ∀ t, rw_demo.2 t = Ret tt) by (intros [|[|t]]; vm_compute; reflexivity).
  destruct (rwlock_word_counts (λ _, 0%nat) false 2 2 rw_scripts rw_demo.1 rw_demo.2 8 rw_scripts_ok
              eq_refl rw_demo_reachable Hret) as (E1 & _ & E2).
  assert (Ec : count GShared (live rw_demo.1 8) = 2 ∧ count GUpgradable (live rw_demo.1 8) = 1)
    by (vm_compute; split; reflexivity).
  destruct Ec as [Es Eu]. rewrite Es, Eu in E1. rewrite Eu in E2.
  split; [exact Es|]. split; [exact E1|exact E2].
Defined.
End example.
