(* ===== verification/RwLockProgress.v ===== *)
(** * Nobody is left asleep on a RawRwLock that is free

    When no thread can take a step, nobody has a duty any more, so each thread
    that has not finished sleeps on a lock that is held: of which some thread
    has a guard. *)

From S2P Require Import Prelude Conc LotTypes SpinWait FairTimeout BucketQueue ParkingLot LotInv RawMutex RawRwLock RwLockWord RwLockInv RwLockQueue RwLockRules RwLockProof RwLockExclusive.
Import RawRwLock.
Local Open Scope Z_scope.
Local Open Scope prog_scope.

Implicit Types (a k : Z) (t u w : tid) (r : role).

(** [t] sleeps on the lock at [a]: for the lock, or for its readers to leave. *)
Definition sleeps_on (bucket_of : Z → nat) (s : state) t a : Prop :=
  Z.even a = true ∧ t ∈ bqueue s (bucket_of (td_key (td s t))) ∧
  ((td_key (td s t) = a ∧ parked (mem s a) = true ∧ taken (mem s a) = true) ∨
   (td_key (td s t) = a + 1 ∧ awaited (mem s a) = true)).

(** The owned locks of an address, by their owners. *)
Lemma at_addr_own (g : ghost) a p : p ∈ at_addr a g ↔ ∃ u, (a, p) ∈ own g u.
Proof.
  unfold at_addr. setoid_rewrite own_elem. rewrite list_elem_of_fmap. setoid_rewrite list_elem_of_fmap.
  setoid_rewrite list_elem_of_filter. split.
  - intros ([a' q] & -> & [w x] & E & Ha & Hin). cbn in *. subst. by exists w.
  - intros [u Hu]. exists (a, p). split; [done|]. by exists (u, (a, p)).
Qed.

Section stuck.
Context (bucket_of : Z → nat) (n lim : nat) (s : state) (g : ghost) (ρ : tid → role).
Context (HI : RwInv bucket_of n lim s g ρ).
Context (Hall : ∀ u, finished (ρ u) ∨ rw_blocked bucket_of u (ρ u) s).

(** Who holds a bucket could go on. *)
Lemma rw_stuck_free b u : bmutex s b ≠ Some u.
Proof using HI Hall.
  intros Hin. apply (li_lock _ _ _ _ _ (ri_lot _ _ _ _ _ _ (proj1 HI))) in Hin. cbn in Hin.
  destruct (Hall u) as [(E & _)|[[E _]|(_ & k & tok & E)]]; rewrite E in Hin; by apply not_elem_of_nil in Hin.
Qed.

(** Who has not finished sleeps in a queue. *)
Lemma rw_stuck_asleep u :
  finished (ρ u) ∨
  ∃ k tok, rpc (ρ u) = Wait k tok ∧ td_parked (td s u) = true ∧ td_key (td s u) = k ∧
    u ∈ bqueue s (bucket_of k) ∧ calm (ρ u) k.
Proof using HI Hall.
  destruct (Hall u) as [?|[(_ & b & v & Hb)|(Hp & k & tok & E)]]; [by left|by apply rw_stuck_free in Hb|].
  right. exists k, tok. destruct HI as [HR HQ]. pose proof (ri_lot _ _ _ _ _ _ HR) as HL.
  pose proof (ri_pc _ _ _ _ _ _ HR u) as Hok. rewrite E in Hok. destruct Hok as (Hk & _ & _).
  split; [done|]. split; [done|]. split; [done|]. split.
  - destruct (li_wait _ _ _ _ _ HL u) as [Hin|[v Hv]]; [by cbn; rewrite E|done|by rewrite Hk in Hin|].
    destruct (li_cust _ _ _ _ _ HL v u Hv) as (_ & _ & _ & Hh).
    apply (li_lock _ _ _ _ _ HL) in Hh. by apply rw_stuck_free in Hh.
  - destruct (q_duty _ _ _ HQ u) as [_ Hd]. rewrite E in Hd. tauto.
Qed.

(** Nobody is coming, and nobody is about to wake a writer. *)
Lemma rw_stuck_coming u a : ¬ coming s u (ρ u) a.
Proof using HI Hall.
  destruct (rw_stuck_asleep u) as [(E & Hd & _)|(k & tok & E & Hp & _)].
  - unfold coming. rewrite E, Hd. by intros [|].
  - destruct (q_duty _ _ _ (proj2 HI) u) as [_ Hd]. rewrite E in Hd. destruct Hd as [Hd _].
    by apply (wait_not_coming s u k tok).
Qed.
Lemma rw_stuck_leaver u a : dt (ρ u) ≠ Leaver a.
Proof using HI Hall.
  intros Hl. destruct (rw_stuck_asleep u) as [(_ & Hd & _)|(k & tok & E & _)]; [congruence|].
  destruct (q_duty _ _ _ (proj2 HI) u) as [_ Hd]. rewrite E in Hd. destruct Hd. congruence.
Qed.

(** A lock is owned by a guard, or by a writer that waits for the readers. *)
Lemma rw_stuck_owner u a p :
  (a, p) ∈ own g u →
  (∃ gd, (u, gd) ∈ live s a ∧ gperm gd = p) ∨ (p = PP ∧ td_key (td s u) = a + 1 ∧ u ∈ bqueue s (bucket_of (a + 1))).
Proof using HI Hall.
  intros Hp. pose proof (ri_own _ _ _ _ _ _ (proj1 HI) u) as Eo.
  assert (Hlive : (a, p) ∈ vperms (rv (ρ u)) → ∃ gd, (u, gd) ∈ live s a ∧ gperm gd = p).
  { intros ([a' gd] & [= -> ->] & Hin)%list_elem_of_fmap. exists gd. split; [|done].
    rewrite <- own_elem, (ri_live _ _ _ _ _ _ (proj1 HI)), own_elem. exact Hin. }
  destruct (rw_stuck_asleep u) as [(E & _ & Ho)|(k & tok & E & Hpk & Hk & Hq & Hc)].
  - rewrite E, app_nil_r in Eo. left. apply Hlive. by rewrite <- Ho, <- Eo.
  - rewrite E in Eo. cbn in Eo. rewrite Hpk, app_nil_r in Eo. unfold calm in Hc.
    rewrite Eo, Hc in Hp. destruct (Z.even k); [by left; apply Hlive|].
    apply elem_of_cons in Hp as [[= -> ->]|Hp]; [right|by left; apply Hlive].
    rewrite Z.sub_add. by rewrite Hk.
Qed.

(** Readers that are counted have guards, if a writer waits for them. *)
Lemma rw_stuck_readers u a :
  Z.even a = true → td_key (td s u) = a + 1 → u ∈ bqueue s (bucket_of (a + 1)) →
  awaited (mem s a) = true ∧ ∃ w, (w, GShared) ∈ live s a.
Proof using HI Hall.
  intros Ha Hk Hq. assert (Hw : waits bucket_of s ρ u (a + 1)) by by left.
  destruct (q_readers _ _ _ (proj2 HI) a u Ha Hw) as [Haw|[w Hl]]; [|by apply rw_stuck_leaver in Hl].
  split; [done|]. pose proof (waits_owns _ _ _ _ _ _ _ _ (proj1 HI) (proj2 HI) Ha Hw) as Hpp.
  pose proof (ri_word _ _ _ _ _ _ (proj1 HI) a Ha) as Hwd.
  assert (Hin : PP ∈ at_addr a g).
  { apply at_addr_own. by exists u. }
  assert (HPS : PS ∈ at_addr a g).
  { unfold awaited in Haw. apply andb_true_iff in Haw as [Hr _]. rewrite (readers_bits Hwd) in Hr.
    pose proof (wd_one _ _ _ _ _ Hwd). apply elem_of_Permutation in Hin as [l E].
    pose proof (cnt_perm PU _ _ E) as EU. pose proof (cnt_perm PP _ _ E) as EP. pose proof (cnt_perm PS _ _ E) as ES.
    rewrite cnt_cons in EU, EP, ES. rewrite decide_True in EP by done. rewrite decide_False in EU by done. rewrite decide_False in ES by done.
    pose proof (cnt_nonneg PP l). pose proof (cnt_nonneg PU l). pose proof (cnt_nonneg PW (at_addr a g)).
    destruct (Z.eqb_spec (cnt PS (at_addr a g) + cnt PU (at_addr a g)) 0); [done|].
    assert (Hc : cnt PS (at_addr a g) ≠ 0) by lia. unfold cnt in Hc.
    destruct (filter (λ x, x = PS) (at_addr a g)) as [|x l'] eqn:Ef; [done|].
    assert (Hx : x ∈ filter (λ x, x = PS) (at_addr a g)) by (rewrite Ef; by left).
    apply list_elem_of_filter in Hx as [-> ?]. done. }
  apply at_addr_own in HPS as [w Hg]. exists w.
  destruct (rw_stuck_owner w a PS Hg) as [(gd & Hgd & Egd)|[? _]]; [|done]. by destruct gd.
Qed.

(** A thread that has not finished sleeps on a lock that has a guard. *)
Lemma rw_all_blocked t :
  finished (ρ t) ∨ ∃ a w gd, sleeps_on bucket_of s t a ∧ (w, gd) ∈ live s a.
Proof using HI Hall.
  destruct (rw_stuck_asleep t) as [?|(k & tok & E & Hp & Hk & Hq & Hc)]; [by left|right].
  destruct (Z.even k) eqn:Ek.
  - assert (Hw : waits bucket_of s ρ t k) by by left.
    pose proof (q_parked _ _ _ (proj2 HI) k t Ek Hw) as Hpk.
    destruct (q_cover _ _ _ (proj2 HI) k t Ek Hw) as [Ht|[w Hw']]; [|by apply rw_stuck_coming in Hw'].
    assert (Hs : sleeps_on bucket_of s t k) by (split; [done|]; rewrite Hk; auto).
    destruct (taken_one _ _ (ri_word _ _ _ _ _ _ (proj1 HI) k Ek) Ht) as (q & Hin & Hq').
    apply at_addr_own in Hin as [w Hg].
    destruct (rw_stuck_owner w k q Hg) as [(gd & Hgd & _)|(-> & Hk' & Hq'')]; [by exists k, w, gd|].
    destruct (rw_stuck_readers w k) as (_ & v & Hv); [done..|]. by exists k, v, GShared.
  - assert (Ea : Z.even (k - 1) = true) by (by rewrite Z.even_sub, Ek).
    replace k with (k - 1 + 1) in Hk, Hq by lia.
    destruct (rw_stuck_readers t (k - 1)) as (Haw & w & Hw); [done..|].
    exists (k - 1), w, GShared. split; [|done]. split; [done|]. rewrite Hk. auto.
Qed.
Lemma rw_stuck_blocked t :
  rw_blocked bucket_of t (ρ t) s → ∃ a w gd, sleeps_on bucket_of s t a ∧ (w, gd) ∈ live s a.
Proof using HI Hall.
  intros Hb. destruct (rw_all_blocked t) as [(E & _)|?]; [exfalso|done].
  destruct Hb as [(_ & b & u & Hb)|(_ & k & tok & E')]; [by apply rw_stuck_free in Hb|congruence].
Qed.
End stuck.

(** ** The theorems *)

Section theorems.
Context (bucket_of : Z → nat) (elision : bool).

(** C16: No lost wake-up, hence no deadlock inside the lock: if no thread can take a
    step, every thread has finished its script or sleeps on a lock of which
    some thread still has a guard. Who waits for a lock finds it held by a writer,
    an upgrader or an upgradable reader, and its parked bit set; a writer that
    waits for the readers to leave finds readers, and its own parked bit set. *)
Theorem rwlock_no_lost_wakeup n m scripts s ps :
  scripts_ok n m scripts → reachable exec rw_state (rw_pool bucket_of elision scripts) s ps →
  (∀ t c, step1 exec t c (ps t) s = None) →
  ∀ t, ps t = Ret tt ∨ ∃ a u gd, sleeps_on bucket_of s t a ∧ (u, gd) ∈ live s a.
Proof.
  intros Hok (g & ρ & HI & Hwp)%(rw_reachable_verified _ _ n m) Hstuck t; [|done]. cbn in HI, Hwp.
  assert (Hall : ∀ u, (ps u = Ret tt ∧ finished (ρ u)) ∨ rw_blocked bucket_of u (ρ u) s).
  { intros u. destruct (wp_progress _ _ _ _ _ _ s g ρ _ (Hwp u) HI)
      as [([] & ? & ?)|[(? & _ & [])|[[c Hs]|?]]]; [by left| |by right].
    rewrite Hstuck in Hs. by destruct Hs. }
  destruct (Hall t) as [[? _]|Hb]; [by left|right].
  eapply rw_stuck_blocked; [exact HI| |exact Hb]. intros u. destruct (Hall u) as [[_ ?]|?]; auto.
Qed.

(** No operation panics: the reader counts do not overflow, a lock without a
    timeout is acquired, and a thread that times out finds itself in its queue,
    the last one if it waits for readers. *)
Theorem rwlock_no_panic n m scripts s ps t msg :
  scripts_ok n m scripts → reachable exec rw_state (rw_pool bucket_of elision scripts) s ps →
  ps t ≠ Panic msg.
Proof.
  intros Hok (g & ρ & HI & Hwp)%(rw_reachable_verified _ _ n m) E; [|done]. cbn in Hwp.
  specialize (Hwp t). rewrite E in Hwp. by apply wp_no_panic in Hwp.
Qed.
End theorems.

(** ** A run: thread 0 reads and ends; thread 1, a writer, waits for it to leave;
    thread 2, a reader, waits for the writer *)

Section example.
Local Definition asleep_scripts (t : tid) : list command :=
  match t with
  | 0%nat | 2%nat => [Acquire 8 LockShared]
  | 1%nat => [Acquire 8 LockExclusive]
  | _ => []
  end.
Local Definition asleep_sched : list (tid * choice) :=
  repeat (0%nat, 0) 10 ++ repeat (1%nat, 0) 97 ++ repeat (2%nat, 0) 22.
Local Definition asleep : state * (tid → iprog unit) :=
  default (rw_state, rw_pool (λ _, 0%nat) false asleep_scripts)
    (run exec asleep_sched rw_state (rw_pool (λ _, 0%nat) false asleep_scripts)).

Lemma asleep_reachable :
  reachable exec rw_state (rw_pool (λ _, 0%nat) false asleep_scripts) asleep.1 asleep.2.
Proof.
  apply (run_reachable _ asleep_sched). unfold asleep.
  assert (H : bool_decide (is_Some (run exec asleep_sched rw_state
            (rw_pool (λ _, 0%nat) false asleep_scripts))) = true) by (vm_compute; reflexivity).
  apply bool_decide_eq_true in H as [[s ps] E]. by rewrite E.
Qed.

Lemma asleep_scripts_ok : scripts_ok 3 1 asleep_scripts.
Proof.
  split.
  - intros [|[|[|t]]] Ht; [lia|lia|lia|done].
  - intros [|[|[|t]]]; cbn; lia.
  - done.
  - intros [|[|[|t]]] c Hc; cbn in Hc; [| | |by apply not_elem_of_nil in Hc];
      apply list_elem_of_singleton in Hc as ->; done.
Qed.

(** Two threads wait in the bucket of the lock, for different things. *)
Lemma rwlock_no_lost_wakeup_witness :
  (∀ t c, step1 exec t c (asleep.2 t) asleep.1 = None) ∧
  bqueue asleep.1 0 = [1%nat; 2%nat] ∧
  (∃ a u gd, sleeps_on (λ _, 0%nat) asleep.1 1%nat a ∧ (u, gd) ∈ live asleep.1 a) ∧
  ∃ a u gd, sleeps_on (λ _, 0%nat) asleep.1 2%nat a ∧ (u, gd) ∈ live asleep.1 a.
Proof.
  assert (Hstuck : ∀ t c, step1 exec t c (asleep.2 t) asleep.1 = None).
  { intros [|[|[|t]]] c; vm_compute; reflexivity. }
  pose proof (rwlock_no_lost_wakeup (λ _, 0%nat) false 3 1 asleep_scripts asleep.1 asleep.2
                asleep_scripts_ok asleep_reachable Hstuck) as H.
  assert (E : ∀ t, (t = 1 ∨ t = 2)%nat → asleep.2 t ≠ Ret tt).
  { intros t Ht E. assert (E' : match asleep.2 t with Ret _ => true | _ => false end = false)
      by (destruct Ht as [-> | ->]; vm_compute; reflexivity). rewrite E in E'. discriminate E'. }
  split; [exact Hstuck|]. split; [vm_compute; reflexivity|]. split.
  - destruct (H 1%nat) as [H1|H1]; [|exact H1]. destruct (E 1%nat); [by left|exact H1].
  - destruct (H 2%nat) as [H2|H2]; [|exact H2]. destruct (E 2%nat); [by right|exact H2].
Defined.

Lemma rwlock_no_panic_witness : asleep.2 1%nat ≠ Panic "RwLock reader count overflow".
Proof.
  exact (rwlock_no_panic (λ _, 0%nat) false 3 1 asleep_scripts asleep.1 asleep.2 1%nat _
           asleep_scripts_ok asleep_reachable).
Defined.
End example.
