(* ===== verification/Once.v ===== *)
(** * Once (src/once.rs)

    The programs of the one-time initialisation primitive, over the machine of
    [ParkingLot].  The closure is a program that returns whether it completes
    ([true]) or panics ([false]); in the second case the [PanicGuard] poisons
    the [Once] and the panic goes on. *)

From S2P Require Import Prelude Conc LotTypes SpinWait FairTimeout BucketQueue ParkingLot.
Local Open Scope Z_scope.
Local Open Scope prog_scope.

Module Once.
Definition DONE_BIT : Z := 1.
Definition POISON_BIT : Z := 2.
Definition LOCKED_BIT : Z := 4.
Definition PARKED_BIT : Z := 8.

Inductive OnceState := New | Poisoned | InProgress | Done.

Definition poisoned (s : OnceState) : bool := match s with Poisoned => true | _ => false end.
Definition done (s : OnceState) : bool := match s with Done => true | _ => false end.

(** [Once::new] and [Once::new_completed] *)
Definition INIT : Z := 0.
Definition COMPLETED : Z := DONE_BIT.

(** What the word says, in the order of the tests of [state]. *)
Definition decode (state : Z) : OnceState :=
  if has_bits state DONE_BIT then Done
  else if has_bits state LOCKED_BIT then InProgress
  else if has_bits state POISON_BIT then Poisoned
  else New.

Section once.
Context (bucket_of : Z → nat).

Definition state (a : Z) : iprog OnceState :=
  s <- load a;; Ret (decode s).

Definition validate (a : Z) (_ : unit) : iprog (bool * unit) :=
  state <- load a;;
  Ret (state =? Z.lor LOCKED_BIT PARKED_BIT, tt).

Definition timed_out (_ : unit) (_ : Z) (_ : bool) : iprog unit := Panic "unreachable!()".

(** The end of one turn of the loop: set the parked bit, then park. *)
Definition call_once_park (a : Z) (spinwait : SpinWait.t) (state : Z)
    : iprog ((SpinWait.t * Z) + option Z) :=
  r <- (if negb (has_bits state PARKED_BIT)
        then compare_exchange_weak a state (Z.lor state PARKED_BIT)
        else Ret (true, state));;
  if negb r.1 then Ret (inl (spinwait, r.2))
  else
    park bucket_of a (validate a) (Ret tt) timed_out DEFAULT_PARK_TOKEN None tt;;
    state <- load a;;
    Ret (inl (SpinWait.reset spinwait, state)).

(** One turn of the loop: [inr None] returns, [inr (Some state)] leaves the
    loop with the lock, taken from [state]. *)
Definition call_once_turn (a : Z) (ignore_poison : bool) (x : SpinWait.t * Z)
    : iprog ((SpinWait.t * Z) + option Z) :=
  let '(spinwait, state) := x in
  if has_bits state DONE_BIT then Ret (inr None)
  else if has_bits state POISON_BIT && negb ignore_poison then
    Panic "Once instance has previously been poisoned"
  else if negb (has_bits state LOCKED_BIT) then
    r <- compare_exchange_weak a state (clear_bits (Z.lor state LOCKED_BIT) POISON_BIT);;
    Ret (if r.1 then inr (Some state) else inl (spinwait, r.2))
  else
    sp <- (if negb (has_bits state PARKED_BIT) then spin spinwait else Ret (false, spinwait));;
    let '(spun, spinwait) := sp in
    if spun : bool then state <- load a;; Ret (inl (spinwait, state))
    else call_once_park a spinwait state.

(** [swap(v)], then unpark all threads if there are any: [PanicGuard::drop]
    with [POISON_BIT], the end of [call_once_slow] with [DONE_BIT]. *)
Definition finish (a v : Z) : iprog unit :=
  state <- swap a v;;
  if has_bits state PARKED_BIT
  then unpark_all bucket_of a DEFAULT_UNPARK_TOKEN;; Ret tt else Ret tt.

Definition call_once_slow (a : Z) (ignore_poison : bool) (f : OnceState → iprog bool)
    : iprog unit :=
  state <- load a;;
  x <- Iter (call_once_turn a ignore_poison) (SpinWait.new, state);;
  match x with
  | None => Ret tt
  | Some state =>
      let once_state := if has_bits state POISON_BIT then Poisoned else New in
      ok <- f once_state;;
      if ok : bool then finish a DONE_BIT
      else finish a POISON_BIT;; Panic "the closure panicked"
  end.

Definition call_once (a : Z) (f : iprog bool) : iprog unit :=
  state <- load a;;
  if state =? DONE_BIT then Ret tt else call_once_slow a false (λ _, f).

Definition call_once_force (a : Z) (f : OnceState → iprog bool) : iprog unit :=
  state <- load a;;
  if state =? DONE_BIT then Ret tt else call_once_slow a true f.
End once.
End Once.
