(* ===== verification/OnceProof.v ===== *)
(** * Correctness of Once

    Any number of threads call [call_once] and [call_once_force] on any number
    of [Once]s, with closures that may panic.  A guard of kind [GExclusive]
    stands for a running closure, one of kind [GShared] for a thread that has
    returned from a call and relies on the initialisation. *)

From S2P Require Import Prelude Conc LotTypes SpinWait FairTimeout BucketQueue ParkingLot LotInv Once.
Import Once.
Local Open Scope Z_scope.

Inductive pc :=
| Idle
(* [call_once_slow] *)
| SlowL (a : Z)  (* in [park], with the bucket locked *)
| SlowOk (a : Z)  (* [validate] has returned true *)
| WaitL (a : Z)  (* enqueued, with the bucket locked *)
| Wait (a : Z)  (* asleep, or on the way to it or back *)
| Run (a : Z) (inside : bool)  (* has the lock; the closure is running *)
(* [unpark_all] *)
| End (a : Z)  (* the word has been swapped and had the parked bit *)
| EndL (a : Z)  (* and the bucket is locked *)
| EndC (a : Z) (ws : list tid).  (* these threads are still to be released *)

(** [got]: the [Once]s the thread has seen initialised. *)
Record role := MkRole { got : list Z; rpc : pc }.
Definition at_pc (r : role) (p : pc) : role := MkRole (got r) p.

Section proof.
Context (bucket_of : Z → nat).

Definition pc_hold (p : pc) : list nat :=
  match p with
  | SlowL a | SlowOk a | WaitL a | EndL a | EndC a _ => [bucket_of a]
  | _ => []
  end.
Definition pc_wait (p : pc) : bool :=
  match p with WaitL _ | Wait _ => true | _ => false end.
Definition pc_cust (p : pc) : list tid :=
  match p with EndC _ ws => ws | _ => [] end.

#[local] Instance once_role_lot : LotRole role := {
  r_hold r := pc_hold (rpc r);
  r_wait r := pc_wait (rpc r);
  r_cust r := pc_cust (rpc r);
}.

Implicit Types (s : ParkingLot.state) (g : Z → option tid) (ρ : tid → role) (a v : Z) (t u w : tid).

(** The words a [Once] can have. *)
Definition word_ok v : Prop := v = 0 ∨ v = 1 ∨ v = 2 ∨ v = 4 ∨ v = 12.

Definition thread_ok s g t (r : role) : Prop :=
  (∀ a, a ∈ got r → mem s a = DONE_BIT) ∧
  match rpc r with
  | WaitL a | Wait a => td_key (td s t) = a
  | Run a _ => g a = Some t
  | EndC _ ws => NoDup ws
  | _ => True
  end.

Definition waiter s a u : Prop := u ∈ bqueue s (bucket_of a) ∧ td_key (td s u) = a.

(** Somebody will unpark the threads parked on [a]: the thread that runs the
    closure, or one that has finished and is about to. *)
Definition pending s ρ a : Prop :=
  mem s a = 12 ∨ ∃ u, rpc (ρ u) = End a ∨ rpc (ρ u) = EndL a.

Record OInv s g ρ : Prop := {
  oi_lot : LotInv bucket_of (bmutex s) (bqueue s) (td s) ρ;
  oi_word a : word_ok (mem s a);
  oi_locked a : has_bits (mem s a) LOCKED_BIT = true ↔ is_Some (g a);
  oi_thread t : thread_ok s g t (ρ t);
  oi_pending a u : waiter s a u ∨ rpc (ρ u) = SlowOk a → pending s ρ a;
  oi_run a t : g a = Some t → ∃ b, rpc (ρ t) = Run a b;
  oi_live a t gd : (t, gd) ∈ live s a →
    (gd = GExclusive ∧ rpc (ρ t) = Run a true) ∨ (gd = GShared ∧ a ∈ got (ρ t));
}.

(** ** Steps *)

Lemma once_thread_frame s g s' g' u r :
  thread_ok s g u r →
  (∀ a, mem s a = DONE_BIT → mem s' a = DONE_BIT) →
  td_key (td s' u) = td_key (td s u) → (∀ a, g a = Some u → g' a = Some u) →
  thread_ok s' g' u r.
Proof.
  intros [Hg Hp] F1 F2 F3. split; [auto|]. destruct (rpc r); try done; rewrite ?F2; auto.
Qed.

(** One step of thread [t]. *)
Lemma o_step s g ρ t r s' g' :
  OInv s g ρ →
  LotInv bucket_of (bmutex s') (bqueue s') (td s') (<[t := r]> ρ) →
  (∀ a, word_ok (mem s' a)) →
  (∀ a, has_bits (mem s' a) LOCKED_BIT = true ↔ is_Some (g' a)) →
  (∀ a, mem s a = DONE_BIT → mem s' a = DONE_BIT) →
  (∀ u, u ≠ t → td_key (td s' u) = td_key (td s u)) →
  (∀ a u, u ≠ t → g a = Some u ↔ g' a = Some u) →
  thread_ok s' g' t r →
  (∀ a u, waiter s' a u ∨ rpc ((<[t := r]> ρ : tid → role) u) = SlowOk a →
     pending s' (<[t := r]> ρ) a) →
  (∀ a, g' a = Some t → ∃ b, rpc r = Run a b) →
  (∀ a u gd, (u, gd) ∈ live s' a →
     if decide (u = t) then (gd = GExclusive ∧ rpc r = Run a true) ∨ (gd = GShared ∧ a ∈ got r)
     else (u, gd) ∈ live s a) →
  OInv s' g' (<[t := r]> ρ).
Proof.
  intros HI HL Hw Hl H1 Hk Hg Ht Hp Hr Hv. split; try done.
  - intros u. fn_cases t u; [done|].
    eapply once_thread_frame; [apply (oi_thread _ _ _ HI u)|done|by apply Hk|].
    intros a. by apply Hg.
  - intros a u Hu. fn_cases t u; [by apply Hr|]. apply (oi_run _ _ _ HI). by apply (Hg a u).
  - intros a u gd Hu. specialize (Hv a u gd Hu). fn_cases t u.
    + by rewrite decide_True in Hv by done.
    + rewrite decide_False in Hv by done. by apply (oi_live _ _ _ HI).
Qed.

(** The pending wake-up survives steps that do not finish it. *)
Lemma pending_keep s ρ t r s' a :
  pending s ρ a → (mem s a = 12 → mem s' a = 12 ∨ rpc r = End a) →
  (rpc (ρ t) = End a ∨ rpc (ρ t) = EndL a → rpc r = End a ∨ rpc r = EndL a) →
  pending s' (<[t := r]> ρ) a.
Proof.
  intros [Hm|[u Hu]] H1 H2.
  - destruct (H1 Hm) as [?|E]; [by left|]. right. exists t. fn_simp. auto.
  - right. fn_cases t u.
    + exists u. fn_simp. auto.
    + exists u. by fn_simp.
Qed.

(** A change of role only, perhaps with a bucket lock taken or released. *)
Lemma o_pc s g ρ t r s' :
  OInv s g ρ → mem s' = mem s → bqueue s' = bqueue s → td s' = td s → live s' = live s →
  LotInv bucket_of (bmutex s') (bqueue s) (td s) (<[t := r]> ρ) →
  got r = got (ρ t) → (∀ b a, rpc (ρ t) ≠ Run a b) → (∀ b a, rpc r ≠ Run a b) →
  thread_ok s g t r → (∀ a, rpc r = SlowOk a → pending s ρ a) →
  (∀ a, rpc (ρ t) = End a ∨ rpc (ρ t) = EndL a → rpc r = End a ∨ rpc r = EndL a) →
  OInv s' g (<[t := r]> ρ).
Proof.
  destruct s' as [m bm bq bf d lv]. cbn. intros HI -> -> -> -> HL Hg Hn Hn' Ht Hs He.
  apply (o_step s g ρ t r); cbn; try done; try apply HI.
  - intros a u Hu.
    assert (Hp : pending s ρ a).
    { destruct Hu as [Hu|Hu]; [by apply (oi_pending _ _ _ HI a u); left|].
      fn_cases t u; [by apply Hs|]. apply (oi_pending _ _ _ HI a u). by right. }
    apply (pending_keep s ρ t r); auto.
  - intros a Ha. destruct (oi_run _ _ _ HI a t Ha) as [b E]. by apply Hn in E.
  - intros a u gd Hu. case_decide; [subst|done].
    destruct (oi_live _ _ _ HI a t gd Hu) as [[_ E]|]; [by apply Hn in E|]. by rewrite Hg; right.
Qed.

Lemma o_same s g ρ t r : OInv s g ρ → ρ t = r → OInv s g (<[t := r]> ρ).
Proof.
  intros HI <-. apply (o_step s g ρ t (ρ t)); try done; try apply HI.
  - by apply lot_role; [apply HI|..].
  - intros a u Hu. apply (pending_keep s ρ t (ρ t)); auto.
    apply (oi_pending _ _ _ HI a u). destruct Hu as [|Hu]; [by left|right].
    revert Hu. by fn_cases t u.
  - intros a. apply (oi_run _ _ _ HI).
  - intros a u gd Hu. case_decide; [subst|done]. by apply (oi_live _ _ _ HI).
Qed.

(** The word of one [Once] changes, and perhaps its owner. *)
Lemma o_mem s g ρ t r a v o :
  OInv s g ρ → pc_hold (rpc r) = pc_hold (rpc (ρ t)) → pc_wait (rpc r) = pc_wait (rpc (ρ t)) →
  pc_cust (rpc r) = pc_cust (rpc (ρ t)) →
  word_ok v → (has_bits v LOCKED_BIT = true ↔ is_Some o) → mem s a ≠ DONE_BIT →
  (o = g a ∨ ((o = Some t ∨ o = None) ∧ (g a = Some t ∨ g a = None))) →
  (mem s a = 12 → v = 12 ∨ rpc r = End a) →
  (∀ a', rpc r ≠ SlowOk a') →
  (∀ a', rpc (ρ t) ≠ End a' ∧ rpc (ρ t) ≠ EndL a') →
  thread_ok (set_mem a v s) (<[a := o]> g) t r →
  (∀ a', (<[a := o]> g : Z → option tid) a' = Some t → ∃ b, rpc r = Run a' b) →
  (∀ a' gd, (t, gd) ∈ live s a' →
     (gd = GExclusive ∧ rpc r = Run a' true) ∨ (gd = GShared ∧ a' ∈ got r)) →
  OInv (set_mem a v s) (<[a := o]> g) (<[t := r]> ρ).
Proof.
  intros HI Eh Ew Ec Hv Hl Hnd Ho H12 Hns Hne Ht Hr Hlv.
  apply (o_step s g ρ t r); cbn [mem bmutex bqueue td live set_mem]; try done.
  - by apply lot_role; [apply HI|..].
  - intros a'. fn_cases a a'; [done|apply HI].
  - intros a'. fn_cases a a'; [done|apply HI].
  - intros a' Ha. fn_cases a a'; done.
  - intros a' u Hu. fn_cases a a'; [|done]. destruct Ho as [->|[[->| ->] [->| ->]]]; naive_solver.
  - intros a' u Hu. apply (pending_keep s ρ t r).
    + apply (oi_pending _ _ _ HI a' u). destruct Hu as [Hu|Hu]; [by left|right].
      revert Hu. fn_cases t u; [|done]. by intros ?%Hns.
    + cbn. fn_cases a a'; [done|by left].
    + intros [E|E]; by apply Hne in E.
  - intros a' u gd Hu. case_decide; [subst|done]. by apply Hlv.
Qed.

(** A thread whose role is not about waiting or waking changes nothing for
    the others when its own data, or the data of threads it wakes, change. *)
Lemma o_lot s g ρ t r s' :
  OInv s g ρ → mem s' = mem s → live s' = live s →
  LotInv bucket_of (bmutex s') (bqueue s') (td s') (<[t := r]> ρ) →
  (∀ u, u ≠ t → td_key (td s' u) = td_key (td s u)) →
  got r = got (ρ t) → (∀ b a, rpc (ρ t) ≠ Run a b) → thread_ok s' g t r →
  (∀ a u, waiter s' a u → waiter s a u ∨ rpc (ρ u) = SlowOk a) →
  (∀ a, rpc r ≠ SlowOk a) →
  (∀ a u, rpc (ρ t) = End a ∨ rpc (ρ t) = EndL a →
     waiter s' a u ∨ (u ≠ t ∧ rpc (ρ u) = SlowOk a) → rpc r = End a ∨ rpc r = EndL a) →
  OInv s' g (<[t := r]> ρ).
Proof.
  destruct s' as [m bm bq bf d lv]. cbn. intros HI -> -> HL Hk Hg Hn Ht Hw Hs He.
  apply (o_step s g ρ t r); cbn; try done; try apply HI.
  - intros a u Hu. apply (pending_keep s ρ t r).
    + apply (oi_pending _ _ _ HI a u). destruct Hu as [Hu|Hu]; [by apply Hw|right].
      revert Hu. fn_cases t u; [|done]. by intros ?%Hs.
    + by left.
    + intros E. apply (He a u E). destruct Hu as [Hu|Hu]; [by left|right].
      revert Hu. fn_cases t u; [by intros ?%Hs|done].
  - intros a Ha. destruct (oi_run _ _ _ HI a t Ha) as [b E]. by apply Hn in E.
  - intros a u gd Hu. case_decide; [subst|done].
    destruct (oi_live _ _ _ HI a t gd Hu) as [[_ E]|]; [by apply Hn in E|]. by rewrite Hg; right.
Qed.

(** [AEnqueue]: after [validate]. *)
Lemma o_enqueue s g ρ t r a tok timed :
  OInv s g ρ → ρ t = r → rpc r = SlowOk a →
  OInv (set_bqueue (bucket_of a) (bqueue s (bucket_of a) ++ [t])
          (set_td t (MkTD a (td_unpark_token (td s t)) tok timed true) s))
    g (<[t := at_pc r (WaitL a)]> ρ).
Proof.
  intros HI Hr Hpc. destruct (oi_thread _ _ _ HI t) as [T1 _]. rewrite Hr in T1.
  apply (o_lot s); cbn; rewrite ?Hr, ?Hpc; try done.
  - apply lot_enqueue; [apply HI|..]; cbn; by rewrite ?Hr, ?Hpc.
  - intros u Hu. by fn_simp.
  - split; [done|]. cbn. by fn_simp.
  - intros a' u [Hq Hk]. cbn in Hq, Hk. destruct (decide (u = t)) as [->|Hne]; fn_simp.
    + right. cbn in Hk. by rewrite Hr, Hpc, Hk.
    + left. split; [|done]. revert Hq. rewrite fn_insert_case.
      case_decide as E; [rewrite E; set_solver|done].
  - intros a' u []; done.
Qed.

(** [AUnparkAll]: every thread parked on [a] is dequeued. *)
Lemma o_take s g ρ t r a :
  OInv s g ρ → ρ t = r → rpc r = EndL a →
  let k := λ u, td_key (td s u) in
  OInv (set_bqueue (bucket_of a) (filter (λ u, k u ≠ a) (bqueue s (bucket_of a))) s) g
    (<[t := at_pc r (EndC a (filter (λ u, k u = a) (bqueue s (bucket_of a))))]> ρ).
Proof.
  intros HI Hr Hpc k. destruct (oi_thread _ _ _ HI t) as [T1 _]. rewrite Hr in T1.
  pose proof (oi_lot _ _ _ HI) as HL. pose proof (li_nodup _ _ _ _ _ HL (bucket_of a)) as Hnd.
  apply (o_lot s); cbn; rewrite ?Hr, ?Hpc; try done.
  - eapply (lot_take _ _ _ _ _ _ _ (filter (λ u, k u = a) (bqueue s (bucket_of a)))); cbn;
      rewrite ?Hr, ?Hpc; try done; [set_solver|by apply NoDup_filter| |].
    + intros u. rewrite !list_elem_of_filter. destruct (decide (k u = a)); tauto.
    + intros u. rewrite !list_elem_of_filter. tauto.
  - split; [done|]. by apply NoDup_filter.
  - intros a' u [Hq Hk]. left. split; [|done]. revert Hq. cbn. rewrite fn_insert_case.
    case_decide as E; [rewrite E|done]. by intros [_ ?]%list_elem_of_filter.
  - intros a' u [[= <-]|[= <-]] Hu. exfalso. destruct Hu as [[Hq Hk]|[Hne Hu]].
    + cbn in Hq. fn_simp. by apply list_elem_of_filter in Hq as [? _].
    + apply Hne. apply (lot_hold_unique bucket_of _ _ _ _ (bucket_of a) _ _ HL); cbn;
        rewrite ?Hu, ?Hr, ?Hpc; set_solver.
Qed.

(** [ASetToken] *)
Lemma o_token s g ρ t r a w ws tok :
  OInv s g ρ → ρ t = r → rpc r = EndC a ws →
  let d := td s w in
  OInv (set_td w (MkTD (td_key d) tok (td_park_token d) (td_timed d) (td_parked d)) s) g
    (<[t := r]> ρ).
Proof.
  intros HI Hr Hpc d. pose proof (oi_thread _ _ _ HI t) as [T1 T2]. rewrite Hr in T1, T2. rewrite Hpc in T2.
  apply (o_lot s); cbn; rewrite ?Hr, ?Hpc; try done.
  - apply lot_data; [|done|done]. apply lot_role; [apply HI|..]; by rewrite Hr.
  - intros u Hu. by fn_cases w u.
  - split; [done|]. by rewrite Hpc.
  - intros a' u [Hq Hk]. left. split; [done|]. revert Hk. cbn. by fn_cases w u.
Qed.

(** [AUnparkLock] *)
Lemma o_wake s g ρ t r a w ws :
  OInv s g ρ → ρ t = r → rpc r = EndC a (w :: ws) →
  let d := td s w in
  OInv (set_td w (MkTD (td_key d) (td_unpark_token d) (td_park_token d) (td_timed d) false) s) g
    (<[t := at_pc r (EndC a ws)]> ρ).
Proof.
  intros HI Hr Hpc d. pose proof (oi_thread _ _ _ HI t) as [T1 T2]. rewrite Hr in T1, T2. rewrite Hpc in T2.
  apply NoDup_cons in T2 as [Hw Hnd].
  apply (o_lot s); cbn; rewrite ?Hr, ?Hpc; try done.
  - eapply lot_wake; [apply HI|..]; cbn; rewrite ?Hr, ?Hpc; try done; cbn; [set_solver|].
    intros u. destruct (decide (u = w)) as [->|]; set_solver.
  - intros u Hu. by fn_cases w u.
  - intros a' u [Hq Hk]. left. split; [done|]. revert Hk. cbn. by fn_cases w u.
  - by intros a' u [].
Qed.

(** Guards: the closure starts and ends; a call has returned. *)
Lemma o_live s g ρ t r r' a l :
  OInv s g ρ → ρ t = r →
  (rpc r' = rpc r ∨ (rpc r = Run a false ∧ rpc r' = Run a true) ∨
   (rpc r = Run a true ∧ rpc r' = Run a false)) →
  got r' = got r →
  (∀ u gd, (u, gd) ∈ l → if decide (u = t)
     then (gd = GExclusive ∧ rpc r' = Run a true) ∨ (gd = GShared ∧ a ∈ got r')
     else (u, gd) ∈ live s a) →
  OInv (set_live a l s) g (<[t := r']> ρ).
Proof.
  intros HI Hr Hpc Hg Hl. pose proof (oi_thread _ _ _ HI t) as [T1 T2].
  rewrite Hr in T1, T2.
  apply (o_step s g ρ t r'); cbn [mem bmutex bqueue td live set_live]; try done; try apply HI.
  - apply lot_role; [apply HI|..]; cbn; rewrite Hr;
      destruct Hpc as [-> |[[-> ->]|[-> ->]]]; done.
  - split; [by rewrite Hg|].
    destruct Hpc as [-> |[[E ->]|[E ->]]]; [done|rewrite E in T2; done..].
  - intros a' u Hu. apply (pending_keep s ρ t r').
    + apply (oi_pending _ _ _ HI a' u). destruct Hu as [Hu|Hu]; [by left|right].
      revert Hu. fn_cases t u; [|done].
      by destruct Hpc as [-> |[[E ->]|[E ->]]].
    + by left.
    + rewrite Hr. destruct Hpc as [-> |[[E ->]|[E ->]]]; [done|rewrite E; naive_solver..].
  - intros a' Ha. apply (oi_run _ _ _ HI) in Ha as [b Ha]. rewrite Hr in Ha.
    destruct Hpc as [-> |[[E ->]|[E ->]]]; [by exists b|rewrite E in Ha; injection Ha as -> <-; eauto..].
  - intros a' u gd. fn_cases a a'; [apply Hl|]. intros Hu. case_decide; [subst u|done].
    apply (oi_live _ _ _ HI) in Hu. rewrite Hr in Hu. rewrite Hg.
    destruct Hpc as [-> |[[E ->]|[E ->]]]; [done|..]; rewrite E in Hu; naive_solver.
Qed.

(** ** Verified operations *)

Definition blocked (t : tid) (r : role) (s : ParkingLot.state) : Prop :=
  (pc_hold (rpc r) = [] ∧ ∃ b u, bmutex s b = Some u) ∨
  (∃ a, rpc r = Wait a ∧ td_parked (td s t) = true).

Definition poison_msg : string := "Once instance has previously been poisoned".
Definition closure_msg : string := "the closure panicked".

(** A call may panic because the [Once] is poisoned or its closure panics,
    and it leaves nothing behind. *)
Definition panic_ok (m : string) (r : role) : Prop :=
  rpc r = Idle ∧ (m = poison_msg ∨ m = closure_msg).

Abbreviation owp := (wp exec OInv panic_ok blocked).

(** The thread has seen that [a] is initialised. *)
Definition learn a (r : role) : role := MkRole (a :: got r) (rpc r).

Ltac always := intros; left; exists 0; cbn; repeat case_match; by eexists.

Lemma once_wp_look {A} t (x : act) (k : resp x → iprog A) r Q :
  (∀ c s s' y, exec t c x s = Some (s', y) → s' = s) → (∀ s, is_Some (exec t 0 x s)) →
  (∀ y, owp t (k y) r Q) → owp t (Act x k) r Q.
Proof.
  intros Hs Hen Hk. apply wp_act; [intros; left; exists 0; apply Hen|].
  intros s g ρ c s' v Hr HI Hex. pose proof (Hs _ _ _ _ Hex) as ->.
  exists g, r. split; [by apply o_same|apply Hk].
Qed.

(** Reading [DONE_BIT] is enough to know that [a] is initialised. *)
Definition saw a v (r : role) : role := if v =? DONE_BIT then learn a r else r.

Lemma o_saw s g ρ t r a : OInv s g ρ → ρ t = r → OInv s g (<[t := saw a (mem s a) r]> ρ).
Proof.
  intros HI Hr. unfold saw. destruct (Z.eqb_spec (mem s a) DONE_BIT) as [E|]; [|by apply o_same].
  pose proof (oi_thread _ _ _ HI t) as [T1 T2]. rewrite Hr in T1, T2.
  apply (o_step s g ρ t); try done; try apply HI.
  - apply lot_role; [apply HI|..]; cbn; by rewrite Hr.
  - split; [|done]. cbn. intros x [->|Hx]%elem_of_cons; auto.
  - intros a' u Hu. apply (pending_keep s ρ t); [|by left|by rewrite Hr].
    apply (oi_pending _ _ _ HI a' u). destruct Hu as [|Hu]; [by left|right].
    revert Hu. by fn_cases t u; rewrite ?Hr.
  - intros a' Ha. apply (oi_run _ _ _ HI) in Ha. by rewrite Hr in Ha.
  - intros a' u gd Hu. case_decide; [subst u|done].
    apply (oi_live _ _ _ HI) in Hu. rewrite Hr in Hu. cbn. set_solver.
Qed.

Lemma once_wp_load {A} t a (k : Z → iprog A) r Q :
  (∀ v, word_ok v → owp t (k v) (saw a v r) Q) → owp t (Act (ALoad a) k) r Q.
Proof.
  intros Hk. apply wp_act; [always|]. intros s g ρ c s' v Hr HI Hex. cbn in Hex.
  injection Hex as <- <-. exists g, (saw a (mem s a) r).
  split; [by apply o_saw|apply Hk, HI].
Qed.

Lemma once_wp_bucket_unlock {A} t b (k : unit → iprog A) r r' Q :
  pc_hold (rpc r) = [b] → pc_cust (rpc r) = [] →
  pc_hold (rpc r') = [] → pc_cust (rpc r') = [] → pc_wait (rpc r') = pc_wait (rpc r) →
  got r' = got r → (∀ a, rpc r' ≠ SlowOk a) →
  (∀ a, rpc r ≠ End a ∧ rpc r ≠ EndL a) → (∀ b a, rpc r' ≠ Run a b) →
  (∀ s g, thread_ok s g t r → thread_ok (set_bmutex b None s) g t r') →
  owp t (k tt) r' Q → owp t (Act (ABucketUnlock b) k) r Q.
Proof.
  intros Hh Hc Hh' Hc' Hw' Hg' Hs He Hn Hok Hk. apply wp_act; [always|].
  intros s g ρ c s' v Hr HI Hex. cbn in Hex. injection Hex as <- <-.
  exists g, r'. split; [|done]. apply (o_lot s); cbn; rewrite ?Hr; try done.
  - apply lot_unlock; cbn; rewrite ?Hr, ?Hh, ?Hh', ?Hc, ?Hc'; try done; [apply HI|set_solver|].
    intros b'. set_solver.
  - intros b' a E. by rewrite E in Hh.
  - apply Hok. rewrite <- Hr. apply HI.
  - by left.
  - intros a u [E|E]; by apply He in E.
Qed.

Lemma once_wp_bucket_lock {A} t b (k : unit → iprog A) r r' Q :
  pc_hold (rpc r) = [] → pc_hold (rpc r') = [b] →
  pc_cust (rpc r') = pc_cust (rpc r) → pc_wait (rpc r') = pc_wait (rpc r) →
  got r' = got r → (∀ a, rpc r' ≠ SlowOk a) → (∀ b a, rpc r ≠ Run a b) →
  (∀ a, rpc r = End a → rpc r' = EndL a) →
  (∀ s g, thread_ok s g t r → thread_ok (set_bmutex b (Some t) s) g t r') →
  owp t (k tt) r' Q → owp t (Act (ABucketLock b) k) r Q.
Proof.
  intros Hh Hh' Hc' Hw' Hg' Hs Hn He Hok Hk. apply wp_act.
  { intros s g ρ _ _. destruct (bmutex s b) as [u|] eqn:E; [right; left; eauto|].
    left. exists 0. cbn. rewrite E. by eexists. }
  intros s g ρ c s' v Hr HI Hex. cbn in Hex.
  destruct (bmutex s b) eqn:Eb; [done|]. injection Hex as <- <-.
  exists g, r'. split; [|done]. apply (o_lot s); cbn; rewrite ?Hr; try done.
  - apply lot_lock; cbn; rewrite ?Hr, ?Hh, ?Hh', ?Hc', ?Hw'; try done; [apply HI|].
    intros b'. set_solver.
  - apply Hok. rewrite <- Hr. apply HI.
  - by left.
  - intros a u [E|E] _; [right; auto|by rewrite E in Hh].
Qed.

Lemma at_idle r : rpc r = Idle → at_pc r Idle = r.
Proof. destruct r. cbn. by intros ->. Qed.

(** [park], as [call_once_slow] calls it. *)
Lemma once_wp_park t a r Q :
  rpc r = Idle → (∀ res, Q (res, tt) r) →
  owp t (park bucket_of a (validate a) (Ret tt) timed_out DEFAULT_PARK_TOKEN None tt) r Q.
Proof.
  intros Hpc HQ. unfold park, lock_bucket. wp_pure.
  apply (once_wp_bucket_lock _ _ _ _ (at_pc r (SlowL a))); try done; try (by rewrite Hpc).
  { intros s g [G1 _]. by split. }
  unfold validate, load. wp_pure. apply wp_act; [always|].
  intros s g ρ c s' v Hr HI Hex. cbn in Hex. injection Hex as <- <-.
  destruct (oi_thread _ _ _ HI t) as [T1 _]. rewrite Hr in T1.
  destruct (Z.eqb_spec (mem s a) (Z.lor LOCKED_BIT PARKED_BIT)) as [Ev|Ev]; cbn [negb].
  2:{ exists g, (at_pc r (SlowL a)). split; [by apply o_same|]. unfold unlock_bucket. wp_pure.
      apply Z.eqb_neq in Ev. rewrite Ev. cbn [negb]. wp_pure.
      apply (once_wp_bucket_unlock _ _ _ _ r); try done; try (by rewrite Hpc).
      - intros s' g' [G1 _]. split; [done|]. by rewrite Hpc.
      - wp_pure. apply HQ. }
  exists g, (at_pc r (SlowOk a)). split.
  { apply (o_pc s); cbn; rewrite ?Hr; try done.
    - apply lot_role; [apply HI|..]; cbn; by rewrite Hr.
    - intros x [= <-]. by left.
    - by intros x []. }
  wp_pure. apply Z.eqb_eq in Ev. rewrite Ev. cbn [negb].
  clear s g ρ c Hr HI T1 Ev. apply wp_act; [always|].
  intros s g ρ c s' v Hr HI Hex. cbn in Hex. injection Hex as <- <-.
  eexists g, _. split; [by eapply (o_enqueue s g ρ t _ a)|]. clear s g ρ c Hr HI.
  unfold unlock_bucket. wp_pure.
  apply (once_wp_bucket_unlock _ _ _ _ (at_pc r (Wait a))); try done.
  wp_pure. apply wp_act.
  { intros s g ρ _ _. destruct (td_parked (td s t)) eqn:E; [right; right; eauto|].
    left. exists 0. cbn. rewrite E. by eexists. }
  intros s g ρ c s' v Hr HI Hex. cbn in Hex.
  destruct (oi_thread _ _ _ HI t) as [T1 _]. rewrite Hr in T1.
  destruct (td_parked (td s t)) eqn:Hp; cbn [negb] in Hex; [done|].
  injection Hex as <- <-. exists g, r. split.
  { apply (o_pc s); cbn; rewrite ?Hr, ?Hpc; try done.
    - apply lot_leave; [apply HI|done|..]; cbn; by rewrite ?Hr, ?Hpc.
    - split; [done|by rewrite Hpc].
    - by intros x []. }
  wp_pure. apply (once_wp_look t AToken); [by intros; simplify_eq/=|by eexists|].
  intros y. wp_pure. apply HQ.
Qed.

(** The thread that sets [LOCKED_BIT] runs the closure. *)
Lemma once_wp_cas_lock {A} t a v (k : bool * Z → iprog A) r Q :
  rpc r = Idle → word_ok v → has_bits v DONE_BIT = false → has_bits v LOCKED_BIT = false →
  owp t (k (true, v)) (at_pc r (Run a false)) Q →
  (∀ v', word_ok v' → owp t (k (false, v')) (saw a v' r) Q) →
  owp t (Act (ACas true a v (clear_bits (Z.lor v LOCKED_BIT) POISON_BIT)) k) r Q.
Proof.
  intros Hpc Hv Hd Hl Hok Hfail. apply wp_act; [always|].
  intros s g ρ c s' x Hr HI Hex. cbn in Hex. pose proof (oi_word _ _ _ HI a) as Hw.
  destruct (negb (c =? 0)); [|destruct (Z.eqb_spec (mem s a) v) as [<-|]];
    injection Hex as <- <-.
  1,3: exists g, (saw a (mem s a) r); split; [by apply o_saw|by apply Hfail].
  assert (Hg : g a = None).
  { destruct (g a) eqn:E; [|done]. assert (Hx : is_Some (g a)) by (by eexists).
    apply (oi_locked _ _ _ HI) in Hx. congruence. }
  destruct (oi_thread _ _ _ HI t) as [T1 _]. rewrite Hr in T1.
  exists (<[a := Some t]> g), (at_pc r (Run a false)). split; [|done].
  assert (Enew : clear_bits (Z.lor (mem s a) LOCKED_BIT) POISON_BIT = 4 ∧ mem s a ≠ 1 ∧ mem s a ≠ 12).
  { destruct Hw as [E|[E|[E|[E|E]]]]; rewrite E in *; done. }
  destruct Enew as (-> & Hn1 & Hn12).
  apply o_mem; cbn; rewrite ?Hr, ?Hpc; try done.
  - unfold word_ok. tauto.
  - auto.
  - split; [|cbn; by fn_simp]. cbn. intros x Hx. fn_cases a x; [|auto].
    by specialize (T1 _ Hx).
  - intros x. fn_cases a x; [eauto|]. intros Hx%(oi_run _ _ _ HI).
    rewrite Hr, Hpc in Hx. by destruct Hx.
  - intros x gd Hx%(oi_live _ _ _ HI). rewrite Hr, Hpc in Hx. naive_solver.
Qed.

(** Setting the parked bit. *)
Lemma wp_cas_park {A} t a v (k : bool * Z → iprog A) r Q :
  rpc r = Idle → word_ok v → has_bits v LOCKED_BIT = true →
  owp t (k (true, v)) r Q → (∀ v', word_ok v' → owp t (k (false, v')) (saw a v' r) Q) →
  owp t (Act (ACas true a v (Z.lor v PARKED_BIT)) k) r Q.
Proof.
  intros Hpc Hv Hl Hok Hfail. apply wp_act; [always|].
  intros s g ρ c s' x Hr HI Hex. cbn in Hex. pose proof (oi_word _ _ _ HI a) as Hw.
  destruct (negb (c =? 0)); [|destruct (Z.eqb_spec (mem s a) v) as [<-|]];
    injection Hex as <- <-.
  1,3: exists g, (saw a (mem s a) r); split; [by apply o_saw|by apply Hfail].
  destruct (oi_thread _ _ _ HI t) as [T1 _]. rewrite Hr in T1.
  exists (<[a := g a]> g), r. split; [|done].
  assert (Enew : Z.lor (mem s a) PARKED_BIT = 12 ∧ mem s a ≠ 1).
  { destruct Hw as [E|[E|[E|[E|E]]]]; rewrite E in *; done. }
  destruct Enew as (-> & Hn1).
  apply o_mem; cbn; rewrite ?Hr, ?Hpc; try done.
  - unfold word_ok. tauto.
  - by rewrite <- (oi_locked _ _ _ HI), Hl.
  - auto.
  - auto.
  - split; [|by rewrite Hpc]. cbn. intros x Hx. fn_cases a x; [|auto].
    by specialize (T1 _ Hx).
  - intros x. rewrite fn_insert_id. intros Hx%(oi_run _ _ _ HI).
    rewrite Hr, Hpc in Hx. by destruct Hx.
  - intros x gd Hx%(oi_live _ _ _ HI). rewrite Hr, Hpc in Hx. naive_solver.
Qed.

Lemma wp_prepare t a ws tok r Q :
  rpc r = EndC a ws → Q tt (at_pc r (EndC a [])) → owp t (prepare_unpark ws tok) r Q.
Proof.
  revert r. induction ws as [|w ws IH]; intros r Hpc HQ; cbn [prepare_unpark].
  { wp_pure. destruct r; cbn in *; by subst. }
  apply wp_act; [always|]. intros s g ρ c s' x Hr HI Hex. cbn in Hex. injection Hex as <- <-.
  exists g, r. split; [by eapply o_token|]. clear s g ρ c Hr HI.
  wp_pure. apply wp_act; [always|]. intros s g ρ c s' x Hr HI Hex. cbn in Hex.
  injection Hex as <- <-. exists g, (at_pc r (EndC a ws)). split; [by eapply o_wake|].
  by apply IH.
Qed.

Lemma wp_wake_handles t ws r Q : Q tt r → owp t (wake_handles ws) r Q.
Proof.
  intros HQ. induction ws as [|w ws IH]; cbn [wake_handles]; [by wp_pure|].
  by apply once_wp_look; [intros; simplify_eq/=|by eexists|].
Qed.

Lemma wp_unpark_all t a tok r Q :
  rpc r = End a → (∀ n, Q n (at_pc r Idle)) → owp t (unpark_all bucket_of a tok) r Q.
Proof.
  intros Hpc HQ. unfold unpark_all, lock_bucket. wp_pure.
  apply (once_wp_bucket_lock _ _ _ _ (at_pc r (EndL a))); try done; try (by rewrite Hpc).
  { intros x. rewrite Hpc. by intros [= ->]. }
  { intros s g [G1 _]. by split. }
  wp_pure. apply wp_act; [always|]. intros s g ρ c s' x Hr HI Hex. cbn in Hex.
  injection Hex as <- <-. eexists g, _. split; [by eapply o_take|].
  set (ws := filter _ _). clearbody ws. clear s g ρ c Hr HI. wp_pure.
  apply (wp_prepare _ a); [done|]. wp_pure. unfold unlock_bucket.
  apply (once_wp_bucket_unlock _ _ _ _ (at_pc r Idle)); try done.
  { intros s g [G1 _]. by split. }
  wp_pure. apply wp_wake_handles. wp_pure. apply HQ.
Qed.

(** The end of the closure: everyone who waits is told. *)
Lemma wp_finish t a v r Q :
  rpc r = Run a false → v = DONE_BIT ∨ v = POISON_BIT →
  Q tt (saw a v (at_pc r Idle)) → owp t (finish bucket_of a v) r Q.
Proof.
  intros Hpc Hv HQ. unfold finish, swap, rmw. wp_pure. apply wp_act; [always|].
  intros s g ρ c s' x Hr HI Hex. cbn in Hex. injection Hex as <- <-.
  pose proof (oi_word _ _ _ HI a) as Hw. destruct (oi_thread _ _ _ HI t) as [T1 T2].
  rewrite Hr in T1, T2. rewrite Hpc in T2.
  assert (Hl : has_bits (mem s a) LOCKED_BIT = true) by (apply (oi_locked _ _ _ HI); by eexists).
  assert (Hbits : mem s a ≠ 1 ∧ has_bits (mem s a) PARKED_BIT = (mem s a =? 12)).
  { destruct Hw as [E|[E|[E|[E|E]]]]; rewrite E in *; done. }
  destruct Hbits as [Hn1 Hp].
  set (p := if mem s a =? 12 then End a else Idle).
  exists (<[a := None]> g), (saw a v (at_pc r p)). split.
  - assert (Epc : rpc (saw a v (at_pc r p)) = p) by (unfold saw; by case_match).
    assert (Egot : ∀ x, x ∈ got (saw a v (at_pc r p)) ↔ x ∈ got r ∨ (x = a ∧ v = DONE_BIT)).
    { intros x. unfold saw. destruct (Z.eqb_spec v DONE_BIT); cbn; set_solver. }
    apply o_mem; rewrite ?Epc, ?Hr, ?Hpc; try done; try (subst p; by case_match).
    + unfold word_ok. destruct Hv as [-> | ->]; auto.
    + destruct Hv as [-> | ->]; (split; [done|by intros []]).
    + auto.
    + intros E. right. subst p. by rewrite E.
    + split; [|rewrite Epc; subst p; by case_match]. intros x. rewrite Egot. cbn.
      intros [Hx|[-> ->]]; [|by fn_simp]. fn_cases a x; [by specialize (T1 _ Hx)|auto].
    + intros x. fn_cases a x; [done|]. intros Hx%(oi_run _ _ _ HI).
      rewrite Hr, Hpc in Hx. naive_solver.
    + intros x gd Hx%(oi_live _ _ _ HI). rewrite Hr, Hpc in Hx. rewrite Egot. naive_solver.
  - wp_pure. rewrite Hp. subst p. clear Hp. destruct (mem s a =? 12); wp_pure; [|exact HQ].
    apply (wp_unpark_all _ a); [unfold saw; by case_match|]. intros n. wp_pure.
    revert HQ. unfold saw. by case_match.
Qed.

(** What a turn of the loop leaves: a word and what it tells, a return, or the
    closure to run. *)
Definition turn_post a r (res : SpinWait.t * Z + option Z) (r' : role) : Prop :=
  match res with
  | inl x => word_ok x.2 ∧ r' = saw a x.2 r
  | inr None => r' = learn a r
  | inr (Some v) => r' = at_pc r (Run a false) ∧ (v = 0 ∨ v = POISON_BIT)
  end.

Lemma wp_reload t a sw r :
  owp t (load a) r (λ v r', owp t (Ret (inl (sw, v))) r' (turn_post a r)).
Proof. unfold load. apply once_wp_load. intros v Hv. by wp_pure. Qed.

Lemma wp_turn_park t a sw v r :
  rpc r = Idle → word_ok v → has_bits v LOCKED_BIT = true →
  owp t (call_once_park bucket_of a sw v) r (turn_post a r).
Proof.
  intros Hpc Hv Hl. unfold call_once_park.
  assert (Hpark : owp t (Bind (park bucket_of a (validate a) (Ret tt) timed_out
      DEFAULT_PARK_TOKEN None tt) (λ _, Bind (load a) (λ state,
      Ret (inl (SpinWait.reset sw, state) : SpinWait.t * Z + option Z)))) r (turn_post a r)).
  { wp_pure. apply once_wp_park; [done|]. intros res. wp_pure. apply wp_reload. }
  destruct (has_bits v PARKED_BIT); wp_pure; [exact Hpark|].
  unfold compare_exchange_weak. apply wp_cas_park; [done..|wp_pure; exact Hpark|].
  intros v' Hv'. by wp_pure.
Qed.

Lemma wp_turn t a ignore sw v r :
  rpc r = Idle → word_ok v →
  owp t (call_once_turn bucket_of a ignore (sw, v)) (saw a v r) (turn_post a r).
Proof.
  intros Hpc Hv. unfold call_once_turn.
  destruct (has_bits v DONE_BIT) eqn:Hd.
  { wp_pure. assert (v = 1) as ->; [|done].
    by destruct Hv as [->|[->|[->|[->| ->]]]]. }
  assert (saw a v r = r) as ->.
  { unfold saw. destruct (Z.eqb_spec v DONE_BIT) as [->|]; done. }
  destruct (has_bits v POISON_BIT && negb ignore) eqn:Hpo.
  { apply wp_panic. split; [done|by left]. }
  destruct (has_bits v LOCKED_BIT) eqn:Hl; cbn [negb].
  - destruct (has_bits v PARKED_BIT); cbn [negb]; [wp_pure; by apply wp_turn_park|].
    unfold spin. destruct (SpinWait.spin sw) as [[[] [bo|]] sw']; unfold yield; wp_pure;
      try (apply (once_wp_look t AYield); [by intros; simplify_eq/=|by eexists|]; intros []; wp_pure);
      first [apply wp_reload|by apply wp_turn_park].
  - unfold compare_exchange_weak. wp_pure. apply once_wp_cas_lock; [done..| |].
    + wp_pure. split; [done|]. destruct Hv as [->|[->|[->|[->| ->]]]]; auto; done.
    + intros v' Hv'. by wp_pure.
Qed.

(** A closure, with what the rest of the development needs of it. *)
Definition closure_ok t a r (f : OnceState → iprog bool) : Prop :=
  ∀ st, st = New ∨ st = Poisoned →
    owp t (f st) (at_pc r (Run a false)) (λ _ r', r' = at_pc r (Run a false)).

Lemma wp_call_once_slow t a ignore f r Q :
  rpc r = Idle → closure_ok t a r f → Q tt (learn a r) →
  owp t (call_once_slow bucket_of a ignore f) r Q.
Proof.
  intros Hpc Hf HQ. unfold call_once_slow, load. wp_pure. apply once_wp_load. intros v Hv. wp_pure.
  apply (wp_iter _ _ _ _ _ (λ x r', word_ok x.2 ∧ r' = saw a x.2 r)); [done|].
  clear v Hv. intros [sw v] ? [Hv ->]. cbn [snd] in Hv |- *.
  eapply wp_mono; [|by apply wp_turn]. intros [x|[v'|]] r'; cbn; [done| |].
  - intros [-> Hv']. apply wp_bind. eapply wp_mono; [|apply Hf; by destruct (has_bits v' POISON_BIT); auto].
    cbn. intros ok ? ->. assert (Epc : at_pc (at_pc r (Run a false)) Idle = r).
    { destruct r; cbn in *; by subst. }
    destruct ok.
    + apply wp_finish; [done|by left|]. rewrite Epc. exact HQ.
    + wp_pure. apply wp_finish; [done|by right|]. rewrite Epc.
      apply wp_panic. split; [done|by right].
  - intros ->. by wp_pure.
Qed.

Lemma wp_fast t a (p : iprog unit) r Q :
  Q tt (learn a r) → owp t p r Q →
  owp t (Bind (load a) (λ state, if state =? DONE_BIT then Ret tt else p)) r Q.
Proof.
  intros HQ Hp. unfold load. wp_pure. apply once_wp_load. intros v _. wp_pure. unfold saw.
  by destruct (v =? DONE_BIT); [wp_pure|].
Qed.

Lemma wp_call_once t a f r Q :
  rpc r = Idle → closure_ok t a r (λ _, f) → Q tt (learn a r) →
  owp t (call_once bucket_of a f) r Q.
Proof. intros Hpc Hf HQ. by apply wp_fast, wp_call_once_slow. Qed.

Lemma wp_call_once_force t a f r Q :
  rpc r = Idle → closure_ok t a r f → Q tt (learn a r) →
  owp t (call_once_force bucket_of a f) r Q.
Proof. intros Hpc Hf HQ. by apply wp_fast, wp_call_once_slow. Qed.

(** ** Clients *)

(** A closure that does its work between two actions, and panics or not. *)
Definition closure (a : Z) (ok : bool) : iprog bool :=
  Act (AEnter a GExclusive) (λ _, Act (AExit a GExclusive) (λ _, Ret ok)).

Inductive op := OCall (a : Z) (ok : bool) | OForce (a : Z) (ok : bool) | OState (a : Z).

Definition run_op (o : op) : iprog unit :=
  match o with
  | OCall a ok => call_once bucket_of a (closure a ok);; Act (AEnter a GShared) Ret
  | OForce a ok => call_once_force bucket_of a (λ _, closure a ok);; Act (AEnter a GShared) Ret
  | OState a => state a;; Ret tt
  end%prog.

Fixpoint client (ops : list op) : iprog unit :=
  match ops with
  | [] => Ret tt
  | o :: ops => run_op o;; client ops
  end%prog.

Lemma closure_verified t a ok r : closure_ok t a r (λ _, closure a ok).
Proof.
  intros st _. unfold closure. apply wp_act; [always|]. intros s g ρ c s' x Hr HI Hex.
  cbn in Hex. injection Hex as <- <-. exists g, (at_pc r (Run a true)). split.
  { apply (o_live s g ρ t _ _ a _ HI Hr); [by right; left|done|]. intros u gd Hu.
    apply elem_of_cons in Hu as [[= -> ->]|Hu]; [rewrite decide_True by done; by left|].
    case_decide; [subst u|done]. apply (oi_live _ _ _ HI) in Hu. rewrite Hr in Hu.
    destruct Hu as [[_ [=]]|[-> Hu]]. by right. }
  clear s g ρ c Hr HI. apply wp_act; [always|]. intros s g ρ c s' x Hr HI Hex.
  cbn in Hex. injection Hex as <- <-. exists g, (at_pc r (Run a false)). split; [|by wp_pure].
  apply (o_live s g ρ t _ _ a _ HI Hr); [by right; right|done|]. intros u gd Hu.
  apply list_elem_of_filter in Hu as [Hne Hu]. case_decide; [subst u|done].
  apply (oi_live _ _ _ HI) in Hu. rewrite Hr in Hu. destruct Hu as [[-> _]|[-> Hu]]; [done|].
  by right.
Qed.

Lemma wp_returned t a r (Q : unit → role → Prop) :
  a ∈ got r → Q tt r → owp t (Act (AEnter a GShared) Ret) r Q.
Proof.
  intros Ha HQ. apply wp_act; [always|]. intros s g ρ c s' x Hr HI Hex.
  cbn in Hex. injection Hex as <- <-. exists g, r. split; [|by wp_pure].
  apply (o_live s g ρ t _ _ a _ HI Hr); [by left|done|]. intros u gd Hu.
  apply elem_of_cons in Hu as [[= -> ->]|Hu]; [rewrite decide_True by done; by right|].
  case_decide; [subst u|done]. apply (oi_live _ _ _ HI) in Hu. by rewrite Hr in Hu.
Qed.

Lemma once_wp_run_op t o r : rpc r = Idle → owp t (run_op o) r (λ _ r', rpc r' = Idle).
Proof.
  intros Hpc. destruct o as [a ok|a ok|a]; cbn [run_op]; wp_pure.
  - apply wp_call_once; [done|apply closure_verified|]. apply wp_returned; [cbn; set_solver|done].
  - apply wp_call_once_force; [done|apply closure_verified|].
    apply wp_returned; [cbn; set_solver|done].
  - unfold state, load. wp_pure. apply once_wp_load. intros v _. wp_pure. unfold saw. by case_match.
Qed.

Lemma once_wp_client t ops r : rpc r = Idle → owp t (client ops) r (λ _ r', rpc r' = Idle).
Proof.
  revert r. induction ops as [|o ops IH]; intros r Hpc; cbn [client]; wp_pure; [done|].
  eapply wp_mono; [|by apply once_wp_run_op]. cbn. intros _ r' Hr'. by apply IH.
Qed.

(** ** Every reachable configuration *)

Abbreviation overified := (verified exec OInv panic_ok blocked (λ r, rpc r = Idle)).

Definition start_state : ParkingLot.state := init_state (λ _, INIT).
Definition start_pool (scripts : tid → list op) : tid → iprog unit := λ t, client (scripts t).

Lemma once_start_verified scripts : overified (start_state, start_pool scripts).
Proof.
  exists (λ _, None), (λ _, MkRole [] Idle). split.
  - split; cbn; try done.
    + split; cbn; try done; [|constructor|set_solver|set_solver].
      intros b t. split; [done|set_solver].
    + intros a. by left.
    + intros t. split; [set_solver|done].
    + intros a u [[Hu _]|Hu]; [cbn in Hu; set_solver|done].
    + set_solver.
  - intros t. by apply once_wp_client.
Qed.

Lemma once_reachable_verified scripts s ps :
  reachable exec start_state (start_pool scripts) s ps → overified (s, ps).
Proof. intros Hr. eapply adequacy; [apply once_start_verified|exact Hr]. Qed.

(** If no thread can go on, none is blocked inside an operation. *)
Lemma stuck_idle s g ρ (ps : tid → iprog unit) :
  OInv s g ρ → (∀ t, owp t (ps t) (ρ t) (λ _ r, rpc r = Idle)) →
  (∀ t c, step1 exec t c (ps t) s = None) →
  ∀ t, (ps t = Ret tt ∨ ∃ m, ps t = Panic m ∧ panic_ok m (ρ t)).
Proof.
  intros HI Hwp Hstuck. pose proof (oi_lot _ _ _ HI) as HL.
  assert (Hcase : ∀ u, (ps u = Ret tt ∧ rpc (ρ u) = Idle) ∨
    (∃ m, ps u = Panic m ∧ panic_ok m (ρ u)) ∨ blocked u (ρ u) s).
  { intros u. destruct (wp_progress _ _ _ _ _ _ s g ρ _ (Hwp u) HI)
      as [([] & ? & ?)|[(m & ? & ?)|[[c Hs]|?]]]; [auto|eauto| |auto].
    rewrite Hstuck in Hs. by destruct Hs. }
  assert (Hfree : ∀ b u, bmutex s b ≠ Some u).
  { intros b u Hb. apply (li_lock _ _ _ _ _ HL) in Hb. cbn in Hb.
    destruct (Hcase u) as [[_ E]|[(m & _ & E & _)|[[E _]|(a & E & _)]]];
      rewrite E in Hb; cbn in Hb; set_solver. }
  assert (Hpc : ∀ u, rpc (ρ u) = Idle ∨ ∃ a, rpc (ρ u) = Wait a).
  { intros u. destruct (Hcase u) as [[_ E]|[(m & _ & E & _)|[(_ & b & v & Hb)|(a & E & _)]]];
      [by left|by left|by apply Hfree in Hb|right; eauto]. }
  intros t. destruct (Hcase t) as [[? _]|[?|[(_ & b & v & Hb)|(a & E & Hp)]]];
    [by left|by right|by apply Hfree in Hb|exfalso].
  destruct (oi_thread _ _ _ HI t) as [_ Hk]. rewrite E in Hk.
  assert (Hw : waiter s a t).
  { split; [|done]. destruct (li_wait _ _ _ _ _ HL t) as [Hq|[v Hv]]; [cbn; by rewrite E|done|..].
    - by rewrite Hk in Hq.
    - destruct (li_cust _ _ _ _ _ HL v t Hv) as (_ & _ & _ & Hh).
      apply (li_lock _ _ _ _ _ HL) in Hh. by apply Hfree in Hh. }
  assert (Hno : ∀ u p, rpc (ρ u) = p → p = Idle ∨ ∃ a, p = Wait a) by (intros u ? <-; auto).
  destruct (oi_pending _ _ _ HI a t (or_introl Hw)) as [Hm|[u [Hu|Hu]]];
    [|by apply Hno in Hu as [|[]]..].
  assert (Hg : is_Some (g a)) by (apply (oi_locked _ _ _ HI); by rewrite Hm).
  destruct Hg as [v Hv]. apply (oi_run _ _ _ HI) in Hv as [b Hv].
  by apply Hno in Hv as [|[]].
Qed.
End proof.

(** ** The theorems *)

Section theorems.
Context (bucket_of : Z → nat).
Implicit Types (scripts : tid → list op) (s : ParkingLot.state) (ps : tid → iprog unit).

(** C21: One-time initialisation is exclusive. Whatever calls the threads make
    and however they interleave, while one thread runs the closure of a
    [Once], no other thread runs one, and no call on that [Once] has returned
    to anybody. *)
Theorem once_exclusive scripts s ps a t u gd :
  reachable exec start_state (start_pool bucket_of scripts) s ps →
  (t, GExclusive) ∈ live s a → (u, gd) ∈ live s a → u = t ∧ gd = GExclusive.
Proof.
  intros (g & ρ & HI & _)%once_reachable_verified Ht Hu. cbn in HI.
  assert (Hx : ∀ v, rpc (ρ v) = Run a true → g a = Some v).
  { intros v E. pose proof (oi_thread _ _ _ _ HI v) as [_ T]. by rewrite E in T. }
  apply (oi_live _ _ _ _ HI) in Ht as [[_ Ht]|[[=] _]]. apply Hx in Ht.
  apply (oi_live _ _ _ _ HI) in Hu as [[-> Hu]|[-> Hu]].
  - apply Hx in Hu. split; congruence.
  - exfalso. apply (oi_thread _ _ _ _ HI u) in Hu.
    assert (Hl : is_Some (g a)) by (by eexists).
    apply (oi_locked _ _ _ _ HI) in Hl. by rewrite Hu in Hl.
Qed.

(** A call that returns has seen the initialisation: once any thread has
    returned from [call_once] or [call_once_force], the word of the [Once] is
    [DONE_BIT], so [state] reports [Done] and every later call takes the fast
    path. *)
Theorem once_returned_done scripts s ps a t :
  reachable exec start_state (start_pool bucket_of scripts) s ps →
  (t, GShared) ∈ live s a → mem s a = DONE_BIT ∧ decode (mem s a) = Done.
Proof.
  intros (g & ρ & HI & _)%once_reachable_verified Ht. cbn in HI.
  apply (oi_live _ _ _ _ HI) in Ht as [[[=] _]|[_ Ht]].
  apply (oi_thread _ _ _ _ HI t) in Ht. by rewrite Ht.
Qed.

(** C22: No lost wake-up in [Once]: if no thread can take a step, every thread
    has finished its script or has panicked for a reason the documentation
    names. No thread is left parked, in particular when the closure it waits
    for panics. *)
Theorem once_no_lost_wakeup scripts s ps :
  reachable exec start_state (start_pool bucket_of scripts) s ps →
  (∀ t c, step1 exec t c (ps t) s = None) →
  ∀ t, ps t = Ret tt ∨ ps t = Panic poison_msg ∨ ps t = Panic closure_msg.
Proof.
  intros (g & ρ & HI & Hwp)%once_reachable_verified Hstuck t. cbn in HI, Hwp.
  destruct (stuck_idle _ _ _ _ _ HI Hwp Hstuck t) as [?|(m & E & _ & [->| ->])]; auto.
Qed.

(** C23: The [unreachable!] of the timed-out callback of [call_once_slow] and
    the debug assertion of [park] are never reached: a call panics only
    because the [Once] is poisoned or its closure panicked. *)
Theorem once_panics scripts s ps t m :
  reachable exec start_state (start_pool bucket_of scripts) s ps →
  ps t = Panic m → m = poison_msg ∨ m = closure_msg.
Proof.
  intros (g & ρ & HI & Hwp)%once_reachable_verified E. cbn in Hwp.
  specialize (Hwp t). rewrite E in Hwp. by apply wp_no_panic in Hwp as [_ ?].
Qed.
End theorems.

(** ** A run: a closure panics while a thread waits for it

    Thread 0 runs the closure of the [Once] at 7; thread 1 parks; the closure
    panics and thread 1 is woken; thread 2 finds the [Once] poisoned; thread 1
    initialises it by force. *)

Section example.
Local Definition scripts (t : tid) : list op :=
  match t with
  | 0%nat => [OCall 7 false] | 1%nat => [OForce 7 true] | 2%nat => [OCall 7 true] | _ => []
  end.
Local Definition sched1 : list (tid * choice) :=
  repeat (0%nat, 0) 10 ++ repeat (1%nat, 0) 87.
Local Definition sched2 : list (tid * choice) :=
  sched1 ++ repeat (0%nat, 0) 19 ++ repeat (2%nat, 0) 9 ++ repeat (1%nat, 0) 21.
Local Definition start := (start_state, start_pool (λ _, 0%nat) scripts).
Local Definition demo sched : ParkingLot.state * (tid → iprog unit) :=
  default start (run exec sched start.1 start.2).

Lemma once_demo_reachable sched :
  bool_decide (is_Some (run exec sched start.1 start.2)) = true →
  reachable exec start.1 start.2 (demo sched).1 (demo sched).2.
Proof.
  intros H. apply (run_reachable _ sched). unfold demo.
  apply bool_decide_eq_true in H as [[s ps] E]. by rewrite E.
Qed.

Lemma once_exclusive_witness :
  live (demo sched1).1 7 = [(0%nat, GExclusive)] ∧ bqueue (demo sched1).1 0 = [1%nat] ∧
  (0%nat = 0%nat ∧ GExclusive = GExclusive).
Proof.
  assert (Hl : live (demo sched1).1 7 = [(0%nat, GExclusive)]) by (vm_compute; reflexivity).
  split; [exact Hl|]. split; [vm_compute; reflexivity|].
  apply (once_exclusive (λ _, 0%nat) scripts (demo sched1).1 (demo sched1).2 7 0%nat 0%nat).
  - apply once_demo_reachable. vm_compute. reflexivity.
  - rewrite Hl. apply list_elem_of_singleton. reflexivity.
  - rewrite Hl. apply list_elem_of_singleton. reflexivity.
Defined.

Lemma once_returned_done_witness : mem (demo sched2).1 7 = 1.
Proof.
  apply (once_returned_done (λ _, 0%nat) scripts (demo sched2).1 (demo sched2).2 7 1%nat).
  - apply once_demo_reachable. vm_compute. reflexivity.
  - apply (proj1 (bool_decide_eq_true _)). vm_compute. reflexivity.
Defined.

Lemma once_no_lost_wakeup_witness :
  (∀ t c, step1 exec t c ((demo sched2).2 t) (demo sched2).1 = None) ∧
  ((demo sched2).2 2%nat = Ret tt ∨ (demo sched2).2 2%nat = Panic poison_msg ∨
   (demo sched2).2 2%nat = Panic closure_msg).
Proof.
  assert (Hstuck : ∀ t c, step1 exec t c ((demo sched2).2 t) (demo sched2).1 = None).
  { intros [|[|[|t]]] c; vm_compute; reflexivity. }
  split; [exact Hstuck|].
  apply (once_no_lost_wakeup (λ _, 0%nat) scripts (demo sched2).1 (demo sched2).2);
    [|exact Hstuck].
  apply once_demo_reachable. vm_compute. reflexivity.
Defined.

Lemma once_panics_witness : "the closure panicked" = poison_msg ∨ "the closure panicked" = closure_msg.
Proof.
  apply (once_panics (λ _, 0%nat) scripts (demo sched2).1 (demo sched2).2 0%nat).
  - apply once_demo_reachable. vm_compute. reflexivity.
  - vm_compute. reflexivity.
Defined.
End example.
