(* ===== verification/WordLock.v ===== *)
(** * WordLock (core/src/word_lock.rs)

    The lock of each bucket of the parking lot.  Its word packs two bits and a
    pointer to the first node of its own queue of waiting threads.  Nodes are
    pushed without a lock; the thread that holds the queue lock fills in the
    [prev] links of the new nodes and takes the last one off.

    The programs run on a machine of their own: the words of the locks, and one
    node of thread data per address.  [cheap] is
    [ThreadParker::IS_CHEAP_TO_CONSTRUCT] (a fresh node for each wait, or the
    one of the thread-local storage) and [tsan] the configuration of
    [fence_acquire]. *)

From S2P Require Import Prelude Conc SpinWait.
Local Open Scope Z_scope.
Local Open Scope prog_scope.

Module WordLock.
(** [struct ThreadData]; [parked] is the state of its parker. *)
Record ThreadData := MkTD {
  queue_tail : Z;
  prev : Z;
  next : Z;
  parked : bool;
}.

(** [ThreadData::new] *)
Definition ThreadData_new : ThreadData := MkTD 0 0 0 false.

Definition set_tail (v : Z) (d : ThreadData) : ThreadData := MkTD v (prev d) (next d) (parked d).
Definition set_prev (v : Z) (d : ThreadData) : ThreadData :=
  MkTD (queue_tail d) v (next d) (parked d).
Definition set_next (v : Z) (d : ThreadData) : ThreadData :=
  MkTD (queue_tail d) (prev d) v (parked d).
Definition set_parked (b : bool) (d : ThreadData) : ThreadData :=
  MkTD (queue_tail d) (prev d) (next d) b.

(** The machine: [live] records, for the statements, who is in a critical
    section. *)
Record state := MkState {
  word : Z → Z;
  node : Z → ThreadData;
  live : Z → list tid;
}.

Definition set_word (l v : Z) (s : state) : state :=
  MkState (<[l := v]> (word s)) (node s) (live s).
Definition upd_node (p : Z) (f : ThreadData → ThreadData) (s : state) : state :=
  MkState (word s) (<[p := f (node s p)]> (node s)) (live s).
Definition set_live (l : Z) (ts : list tid) (s : state) : state :=
  MkState (word s) (node s) (<[l := ts]> (live s)).

Inductive act : Type :=
| ALoad (l : Z)
| ACas (l old new : Z)
| ARmw (l : Z) (f : Z → Z)
| AYield
(* the fields of a node *)
| AGet (p : Z)
| ASet (p : Z) (f : ThreadData → ThreadData)
(* its parker *)
| APark (p : Z)
| AUnparkLock (p : Z)
| AWake (p : Z)
(* critical sections *)
| AEnter (l : Z)
| AExit (l : Z).

Definition resp (a : act) : Type :=
  match a with
  | ALoad _ | ARmw _ _ => Z
  | ACas _ _ _ => bool * Z
  | AGet _ => ThreadData
  | _ => unit
  end.

(** A compare-exchange is weak: it may fail when the choice is not zero. *)
Definition exec (t : tid) (c : choice) (a : act) : state → option (state * resp a) :=
  match a with
  | ALoad l => λ s, Some (s, word s l)
  | ACas l old new => λ s,
      if negb (c =? 0) then Some (s, (false, word s l))
      else if word s l =? old then Some (set_word l new s, (true, old))
      else Some (s, (false, word s l))
  | ARmw l f => λ s, Some (set_word l (f (word s l)) s, word s l)
  | AYield => λ s, Some (s, tt)
  | AGet p => λ s, Some (s, node s p)
  | ASet p f => λ s, Some (upd_node p f s, tt)
  | APark p => λ s, if parked (node s p) then None else Some (s, tt)
  | AUnparkLock p => λ s, Some (upd_node p (set_parked false) s, tt)
  | AWake _ => λ s, Some (s, tt)
  | AEnter l => λ s, Some (set_live l (t :: live s l) s, tt)
  | AExit l => λ s, Some (set_live l (filter (λ u, u ≠ t) (live s l)) s, tt)
  end.

Abbreviation wprog := (prog act resp).

Definition load (l : Z) : wprog Z := Act (ALoad l) Ret.
Definition compare_exchange_weak (l old new : Z) : wprog (bool * Z) := Act (ACas l old new) Ret.
Definition get_queue_tail (p : Z) : wprog Z := Act (AGet p) (λ d, Ret (queue_tail d)).
Definition get_prev (p : Z) : wprog Z := Act (AGet p) (λ d, Ret (prev d)).
Definition get_next (p : Z) : wprog Z := Act (AGet p) (λ d, Ret (next d)).
Definition set (p : Z) (f : ThreadData → ThreadData) : wprog unit := Act (ASet p f) Ret.

(** [atomic_ptr_fetch_byte_sub] and [atomic_ptr_fetch_and(!v)]; each returns the
    old value. *)
Definition fetch_byte_sub (l v : Z) : wprog Z :=
  Act (ARmw l (λ x, wrapping_sub usize_bits x v)) Ret.
Definition fetch_and_not (l v : Z) : wprog Z := Act (ARmw l (λ x, clear_bits x v)) Ret.

(** [SpinWait::spin] *)
Definition spin (w : SpinWait.t) : wprog (bool * SpinWait.t) :=
  match SpinWait.spin w with
  | (b, Some _, w) => Act AYield (λ _, Ret (b, w))
  | (b, None, w) => Ret (b, w)
  end.

(** ** The word *)

Definition LOCKED_BIT : Z := 1.
Definition QUEUE_LOCKED_BIT : Z := 2.
Definition QUEUE_MASK : Z := wrap usize_bits (Z.lnot 3).

(** [trait LockState] *)
Definition is_locked (state : Z) : bool := has_bits state LOCKED_BIT.
Definition is_queue_locked (state : Z) : bool := has_bits state QUEUE_LOCKED_BIT.
Definition queue_head (state : Z) : Z := Z.land state QUEUE_MASK.
Definition with_queue_head (state thread_data : Z) : Z :=
  Z.lor (clear_bits state QUEUE_MASK) thread_data.

(** [WordLock::new] *)
Definition INIT : Z := 0.

(** ** The operations *)

Section word_lock.
Context (cheap tsan : bool).

Definition fence_acquire (l : Z) : wprog unit :=
  if tsan then load l;; Ret tt else Ret tt.

(** The closure that [lock_slow] gives to [with_thread_data]: push our node and
    sleep. *)
Definition push_and_park (thread_data l : Z) (spinwait : SpinWait.t) (state : Z)
    : wprog (SpinWait.t * Z) :=
  set thread_data (set_parked true);;
  let queue_head := queue_head state in
  (if queue_head =? 0 then
     set thread_data (set_tail thread_data);;
     set thread_data (set_prev 0)
   else
     set thread_data (set_tail 0);;
     set thread_data (set_prev 0);;
     set thread_data (set_next queue_head));;
  r <- compare_exchange_weak l state (with_queue_head state thread_data);;
  if negb r.1 then Ret (spinwait, r.2)
  else
    Act (APark thread_data) (λ _,
    state <- load l;;
    Ret (SpinWait.reset spinwait, state)).

(** [with_thread_data]: a node on the stack, made by [ThreadData::new], or the
    one of the thread. *)
Definition with_thread_data {A} (thread_data : Z) (f : Z → wprog A) : wprog A :=
  if cheap then set thread_data (λ _, ThreadData_new);; f thread_data
  else f thread_data.

Definition lock_turn (thread_data l : Z) (x : SpinWait.t * Z)
    : wprog ((SpinWait.t * Z) + unit) :=
  let '(spinwait, state) := x in
  if negb (is_locked state) then
    r <- compare_exchange_weak l state (Z.lor state LOCKED_BIT);;
    Ret (if r.1 then inr tt else inl (spinwait, r.2))
  else
    sp <- (if queue_head state =? 0 then spin spinwait else Ret (false, spinwait));;
    let '(spun, spinwait) := sp in
    if spun : bool then state <- load l;; Ret (inl (spinwait, state))
    else
      x <- with_thread_data thread_data (λ td, push_and_park td l spinwait state);;
      Ret (inl x).

Definition lock_slow (thread_data l : Z) : wprog unit :=
  state <- load l;;
  Iter (lock_turn thread_data l) (SpinWait.new, state).

Definition lock (thread_data l : Z) : wprog unit :=
  r <- compare_exchange_weak l 0 LOCKED_BIT;;
  if r.1 : bool then Ret tt else lock_slow thread_data l.

(** The first loop of [unlock_slow]: [inr None] returns, [inr (Some state)] has
    the queue lock, taken from [state]. *)
Definition queue_lock_turn (l state : Z) : wprog (Z + option Z) :=
  if is_queue_locked state || (queue_head state =? 0) then Ret (inr None)
  else
    r <- compare_exchange_weak l state (Z.lor state QUEUE_LOCKED_BIT);;
    Ret (if r.1 then inr (Some state) else inl r.2).

(** Fill in the [prev] links from [current] on, to the first node that has a
    [queue_tail]. *)
Definition scan_turn (current : Z) : wprog (Z + Z) :=
  queue_tail <- get_queue_tail current;;
  if negb (queue_tail =? 0) then Ret (inr queue_tail)
  else
    next <- get_next current;;
    set next (set_prev current);;
    Ret (inl next).

(** The loop that takes off the only thread: [inl state] goes on with the outer
    loop. *)
Definition take_last_turn (l state : Z) : wprog (Z + (Z + unit)) :=
  r <- compare_exchange_weak l state (Z.land state LOCKED_BIT);;
  if r.1 : bool then Ret (inr (inr tt))
  else if queue_head r.2 =? 0 then Ret (inl r.2)
  else fence_acquire l;; Ret (inr (inl r.2)).

Definition unpark (p : Z) : wprog (Z + unit) :=
  Act (AUnparkLock p) (λ _, Act (AWake p) (λ _, Ret (inr tt))).

(** One turn of ['outer]. *)
Definition unlock_turn (l state : Z) : wprog (Z + unit) :=
  let queue_head := queue_head state in
  queue_tail <- Iter scan_turn queue_head;;
  set queue_head (set_tail queue_tail);;
  if is_locked state then
    r <- compare_exchange_weak l state (clear_bits state QUEUE_LOCKED_BIT);;
    if r.1 : bool then Ret (inr tt)
    else fence_acquire l;; Ret (inl r.2)
  else
    new_tail <- get_prev queue_tail;;
    if new_tail =? 0 then
      x <- Iter (take_last_turn l) state;;
      match x with
      | inl state => Ret (inl state)
      | inr _ => unpark queue_tail
      end
    else
      set queue_head (set_tail new_tail);;
      fetch_and_not l QUEUE_LOCKED_BIT;;
      unpark queue_tail.

Definition unlock_slow (l : Z) : wprog unit :=
  state <- load l;;
  x <- Iter (queue_lock_turn l) state;;
  match x with
  | None => Ret tt
  | Some state => Iter (unlock_turn l) state
  end.

Definition unlock (l : Z) : wprog unit :=
  state <- fetch_byte_sub l LOCKED_BIT;;
  if is_queue_locked state || (queue_head state =? 0) then Ret tt
  else unlock_slow l.
End word_lock.
End WordLock.
