(* ===== verification/WordLockProof.v ===== *)
(** * Correctness of WordLock

    Any number of threads lock and unlock any number of word locks.  The ghost
    state of a lock is its owner, the owner of its queue lock, and its queue;
    the invariant says that the word encodes them and that the nodes are linked
    as the comment of [struct ThreadData] describes: a part that has only
    [next] links, then a part that has [prev] links and knows its tail. *)

From S2P Require Import Prelude Conc SpinWait WordLock.
Import WordLock.
Local Open Scope Z_scope.

(** ** The word *)

Definition enc (lk ql : bool) (h : Z) : Z := h + (if lk then 1 else 0) + (if ql then 2 else 0).
Definition aligned (h : Z) : Prop := ∃ k, h = 4 * k ∧ 0 ≤ k < 2 ^ 62.

Lemma testbit_low k b n :
  0 ≤ n → 0 ≤ b < 4 → Z.testbit (4 * k + b) n = if decide (n < 2) then Z.testbit b n else Z.testbit k (n - 2).
Proof.
  intros Hn Hb. case_decide.
  - rewrite <- (Z.mod_pow2_bits_low (4 * k + b) 2) by lia.
    rewrite Z.add_comm, Z.mul_comm, Z_mod_plus_full, Z.mod_small by lia. done.
  - replace n with (n - 2 + 2) at 1 by lia. rewrite <- Z.div_pow2_bits by lia.
    change (2 ^ 2) with 4. rewrite Z.mul_comm, Z.div_add_l, Z.div_small by lia. f_equal. lia.
Qed.

Lemma small_bits (f : Z → Z → Z) :
  f = Z.land ∨ f = Z.lor ∨ f = Z.ldiff → ∀ b b', 0 ≤ b < 4 → 0 ≤ b' < 4 → 0 ≤ f b b' < 4.
Proof.
  intros Hf b b' Hb Hb'. assert (b = 0 ∨ b = 1 ∨ b = 2 ∨ b = 3) as Cb by lia.
  assert (b' = 0 ∨ b' = 1 ∨ b' = 2 ∨ b' = 3) as Cb' by lia.
  destruct Hf as [->|[->| ->]];
    destruct Cb as [-> |[-> |[-> | ->]]], Cb' as [-> |[-> |[-> | ->]]]; done.
Qed.

(** The low two bits and the rest do not interact. *)
Lemma land_low k b k' b' :
  0 ≤ b < 4 → 0 ≤ b' < 4 → Z.land (4 * k + b) (4 * k' + b') = 4 * Z.land k k' + Z.land b b'.
Proof.
  intros Hb Hb'. assert (0 ≤ Z.land b b' < 4) by (apply (small_bits Z.land); auto).
  apply Z.bits_inj'. intros n Hn. rewrite Z.land_spec, !testbit_low by lia.
  case_decide; by rewrite Z.land_spec.
Qed.

Lemma lor_low k b k' b' :
  0 ≤ b < 4 → 0 ≤ b' < 4 → Z.lor (4 * k + b) (4 * k' + b') = 4 * Z.lor k k' + Z.lor b b'.
Proof.
  intros Hb Hb'. assert (0 ≤ Z.lor b b' < 4) by (apply (small_bits Z.lor); auto).
  apply Z.bits_inj'. intros n Hn. rewrite Z.lor_spec, !testbit_low by lia.
  case_decide; by rewrite Z.lor_spec.
Qed.

Lemma ldiff_low k b k' b' :
  0 ≤ b < 4 → 0 ≤ b' < 4 → Z.ldiff (4 * k + b) (4 * k' + b') = 4 * Z.ldiff k k' + Z.ldiff b b'.
Proof.
  intros Hb Hb'. assert (0 ≤ Z.ldiff b b' < 4) by (apply (small_bits Z.ldiff); auto).
  apply Z.bits_inj'. intros n Hn. rewrite Z.ldiff_spec, !testbit_low by lia.
  case_decide; by rewrite Z.ldiff_spec.
Qed.

Definition low (lk ql : bool) : Z := (if lk then 1 else 0) + (if ql then 2 else 0).

Lemma low_bound lk ql : 0 ≤ low lk ql < 4.
Proof. by destruct lk, ql. Qed.

Lemma enc_low lk ql k : enc lk ql (4 * k) = 4 * k + low lk ql.
Proof. unfold enc, low. lia. Qed.

Lemma mask_low : QUEUE_MASK = 4 * Z.ones 62 + 0.
Proof. reflexivity. Qed.

(** An operation of the source on an encoded word. *)
Ltac enc_unfold k :=
  let Hk := fresh "Hk" in
  intros (k & -> & Hk);
  unfold is_locked, is_queue_locked, queue_head, with_queue_head, has_bits, clear_bits;
  rewrite ?mask_low;
  change LOCKED_BIT with (4 * 0 + 1); change QUEUE_LOCKED_BIT with (4 * 0 + 2);
  rewrite ?enc_low.

Lemma is_locked_enc lk ql h : aligned h → is_locked (enc lk ql h) = lk.
Proof.
  enc_unfold k. rewrite land_low, Z.land_0_r by (first [apply low_bound|lia]). by destruct lk, ql.
Qed.

Lemma is_queue_locked_enc lk ql h : aligned h → is_queue_locked (enc lk ql h) = ql.
Proof.
  enc_unfold k. rewrite land_low, Z.land_0_r by (first [apply low_bound|lia]). by destruct lk, ql.
Qed.

Lemma queue_head_enc lk ql h : aligned h → queue_head (enc lk ql h) = h.
Proof.
  enc_unfold k. rewrite land_low, Z.land_0_r, Z.land_ones, Z.mod_small
    by (first [apply low_bound|lia]). lia.
Qed.

Lemma with_queue_head_enc lk ql h h' :
  aligned h → aligned h' → with_queue_head (enc lk ql h) h' = enc lk ql h'.
Proof.
  enc_unfold k. intros (k' & -> & Hk'). rewrite ldiff_low by (first [apply low_bound|lia]).
  rewrite Z.ldiff_ones_r, Z.shiftr_div_pow2, Z.div_small by lia.
  rewrite Z.ldiff_0_r, Z.shiftl_0_l. replace (4 * k') with (4 * k' + 0) by lia.
  rewrite lor_low, Z.lor_0_l, Z.lor_0_r by (first [apply low_bound|lia]).
  rewrite Z.add_0_r, enc_low. done.
Qed.

Lemma lock_enc ql h : aligned h → Z.lor (enc false ql h) LOCKED_BIT = enc true ql h.
Proof.
  enc_unfold k. rewrite lor_low, Z.lor_0_r by (first [apply low_bound|lia]). by destruct ql.
Qed.

Lemma queue_lock_enc lk h :
  aligned h → Z.lor (enc lk false h) QUEUE_LOCKED_BIT = enc lk true h.
Proof.
  enc_unfold k. rewrite lor_low, Z.lor_0_r by (first [apply low_bound|lia]). by destruct lk.
Qed.

Lemma queue_unlock_enc lk ql h :
  aligned h → clear_bits (enc lk ql h) QUEUE_LOCKED_BIT = enc lk false h.
Proof.
  enc_unfold k. rewrite ldiff_low, Z.ldiff_0_r by (first [apply low_bound|lia]). by destruct lk, ql.
Qed.

Lemma take_last_enc lk ql h : aligned h → Z.land (enc lk ql h) LOCKED_BIT = enc lk false 0.
Proof.
  enc_unfold k. rewrite land_low, Z.land_0_r by (first [apply low_bound|lia]). by destruct lk, ql.
Qed.

Lemma unlock_enc ql h :
  aligned h → wrapping_sub usize_bits (enc true ql h) LOCKED_BIT = enc false ql h.
Proof.
  intros (k & -> & Hk). unfold wrapping_sub, LOCKED_BIT. rewrite wrap_small; [unfold enc; lia|].
  unfold in_width, usize_bits, enc. destruct ql; lia.
Qed.

Lemma enc_inj lk ql h lk' ql' h' :
  aligned h → aligned h' → enc lk ql h = enc lk' ql' h' → lk = lk' ∧ ql = ql' ∧ h = h'.
Proof.
  intros Ha Ha' E. split; [|split].
  - by rewrite <- (is_locked_enc lk ql h Ha), E, is_locked_enc.
  - by rewrite <- (is_queue_locked_enc lk ql h Ha), E, is_queue_locked_enc.
  - by rewrite <- (queue_head_enc lk ql h Ha), E, queue_head_enc.
Qed.

Lemma aligned_0 : aligned 0.
Proof. exists 0. lia. Qed.

(** ** The queue *)

(** Consecutive elements are related. *)
Fixpoint chain (R : Z → Z → Prop) (l : list Z) : Prop :=
  match l with
  | x :: l' => match l' with y :: _ => R x y | [] => True end ∧ chain R l'
  | [] => True
  end.

Lemma chain_app R l1 x l2 : chain R (l1 ++ x :: l2) ↔ chain R (l1 ++ [x]) ∧ chain R (x :: l2).
Proof.
  induction l1 as [|y l1 IH]; cbn [app chain]; [tauto|]. rewrite IH.
  destruct l1; cbn; tauto.
Qed.

Lemma chain_ext R R' l :
  (∀ x y, x ∈ l → y ∈ tail l → R x y → R' x y) → chain R l → chain R' l.
Proof.
  induction l as [|x l IH]; cbn; [done|]. intros HR [H1 H2]. split.
  - destruct l; [done|]. apply HR; [set_solver..|done].
  - apply IH; [|done]. intros x' y Hx Hy. apply HR; [set_solver|destruct l; cbn in *; set_solver].
Qed.

Lemma tail_in (l : list Z) x : x ∈ tail l → x ∈ l.
Proof. destruct l; cbn; set_solver. Qed.

Definition hd (l : list Z) : Z := match l with [] => 0 | x :: _ => x end.

(** The last element but one. *)
Definition penult (l : list Z) : Z := hd (tail (reverse l)).
Definition lst (l : list Z) : Z := hd (reverse l).

Lemma lst_app l x : lst (l ++ [x]) = x.
Proof. unfold lst. by rewrite reverse_snoc. Qed.

Lemma lst_cons_app l x l' : lst (l ++ x :: l') = lst (x :: l').
Proof.
  destruct (decide (l' = [])) as [->|]; [by rewrite lst_app|].
  destruct (exists_last (l := l')) as (l2 & y & ->); [done|].
  rewrite app_comm_cons, app_assoc, lst_app. 
  change (x :: l2 ++ [y]) with ((x :: l2) ++ [y]). by rewrite lst_app.
Qed.

Lemma lst_in (q : list Z) : q ≠ [] → lst q ∈ q.
Proof. intros (q' & x & ->)%exists_last. rewrite lst_app. set_solver. Qed.

Section shape.
Implicit Types (d : Z → ThreadData) (u m v p q : list Z).

Definition next_is d (x y : Z) : Prop := next (d x) = y.
Definition prev_is d (x y : Z) : Prop := prev (d y) = x.

(** The queue [u ++ m ++ v ++ p] while the owner of the queue lock fills in the
    [prev] links: [u] was pushed after it looked, [m] is done, [v] is to do and
    [p] was done before. *)
Record scan d u m v p : Prop := {
  sc_ne : p ≠ [];
  sc_next : chain (next_is d) (u ++ m ++ v ++ [hd p]);
  sc_null x : x ∈ u ++ m ++ v → queue_tail (d x) = 0;
  sc_prev : chain (prev_is d) p;
  sc_tail : queue_tail (d (hd p)) = lst p;
  sc_done : chain (prev_is d) (m ++ [hd (v ++ p)]);
  sc_first x : x ∈ u ++ [hd (m ++ v ++ p)] → prev (d x) = 0;
}.

(** At rest. *)
Definition rest d q : Prop := q = [] ∨ ∃ u p, q = u ++ p ∧ scan d u [] [] p.

Lemma hd_in l : l ≠ [] → hd l ∈ l.
Proof. destruct l; [done|]. cbn. set_solver. Qed.

Lemma hd_app l l' : l ≠ [] → hd (l ++ l') = hd l.
Proof. by destruct l. Qed.

Lemma scan_frame d d' u m v p :
  (∀ x, x ∈ u ++ m ++ v ++ p → d' x = d x) → scan d u m v p → scan d' u m v p.
Proof.
  intros Hd [S1 S2 S3 S4 S5 S6 S7].
  assert (Hp : hd p ∈ p) by (by apply hd_in).
  assert (Hvp : hd (v ++ p) ∈ v ++ p) by (apply hd_in; by destruct v, p).
  assert (Hmvp : hd (m ++ v ++ p) ∈ m ++ v ++ p) by (apply hd_in; by destruct m, v, p).
  split; try done.
  - eapply chain_ext; [|exact S2]. unfold next_is. intros x y Hx _ E.
    rewrite Hd; [done|]. set_solver.
  - intros x Hx. rewrite Hd; [by apply S3|]. set_solver.
  - eapply chain_ext; [|exact S4]. unfold prev_is. intros x y _ Hy%tail_in E. rewrite Hd; [done|]. set_solver.
  - rewrite Hd; [done|]. set_solver.
  - eapply chain_ext; [|exact S6]. unfold prev_is. intros x y _ Hy%tail_in E. rewrite Hd; [done|]. set_solver.
  - intros x Hx. rewrite Hd; [by apply S7|]. set_solver.
Qed.

Lemma rest_frame d d' q : (∀ x, x ∈ q → d' x = d x) → rest d q → rest d' q.
Proof.
  intros Hd [->|(u & p & -> & HS)]; [by left|]. right. exists u, p. split; [done|].
  eapply scan_frame; [|exact HS]. cbn. exact Hd.
Qed.

(** Pushing a node. *)
Lemma scan_push d u m v p x :
  scan d u m v p → queue_tail (d x) = 0 → prev (d x) = 0 →
  next (d x) = hd (u ++ m ++ v ++ p) → scan d (x :: u) m v p.
Proof.
  intros [S1 S2 S3 S4 S5 S6 S7] Ht Hp Hn. split; try done.
  - cbn [app chain]. split; [|done]. unfold next_is. rewrite Hn.
    by destruct u, m, v, p.
  - intros y [->|Hy]%elem_of_cons; auto.
  - intros y [->|Hy]%elem_of_cons; auto.
Qed.

Lemma rest_push d q x :
  rest d q → x ≠ 0 → queue_tail (d x) = (if decide (q = []) then x else 0) → prev (d x) = 0 →
  (q ≠ [] → next (d x) = hd q) → rest d (x :: q).
Proof.
  intros Hq Hx Ht Hp Hn. right. destruct Hq as [->|(u & p & -> & HS)].
  - exists [], [x]. split; [done|]. cbn in Ht. split; cbn; try done; [set_solver|].
    intros y ->%list_elem_of_singleton. done.
  - exists (x :: u), p. split; [done|].
    assert (Hne : u ++ p ≠ []) by (pose proof (sc_ne _ _ _ _ _ HS); by destruct u, p).
    rewrite decide_False in Ht by done. by apply scan_push; auto.
Qed.

(** The scan starts at the head of the queue. *)
Lemma scan_start d u p : scan d u [] [] p → scan d [] [] u p.
Proof.
  intros [S1 S2 S3 S4 S5 S6 S7]. cbn in *. rewrite app_nil_r in S3. split; cbn; try done.
  intros x ->%list_elem_of_singleton. apply S7. destruct u; cbn; set_solver.
Qed.

(** One node. *)
Lemma scan_step d u m c v p :
  NoDup (u ++ m ++ (c :: v) ++ p) → scan d u m (c :: v) p →
  let y := next (d c) in
  y = hd (v ++ p) ∧ scan (<[y := set_prev c (d y)]> d) u (m ++ [c]) v p.
Proof.
  intros Hnd [S1 S2 S3 S4 S5 S6 S7] y.
  assert (Ey : y = hd (v ++ p)).
  { rewrite app_assoc in S2. apply chain_app in S2 as [_ S2]. destruct p as [|h p]; [done|].
    destruct v; cbn in S2; destruct S2 as [S2 _]; exact S2. }
  split; [done|]. set (d' := <[y := _]> d).
  assert (Hyin : y ∈ v ++ p) by (rewrite Ey; apply hd_in; by destruct v, p).
  assert (Hd : ∀ x, next (d' x) = next (d x) ∧ queue_tail (d' x) = queue_tail (d x)).
  { intros x. unfold d'. by fn_cases y x. }
  assert (Hpr : ∀ x, x ≠ y → prev (d' x) = prev (d x)).
  { intros x Hx. unfold d'. by fn_simp. }
  assert (Hout : ∀ x, x ∈ u ++ m ++ [c] → x ≠ y).
  { intros x Hx ->. assert (El : u ++ m ++ (c :: v) ++ p = (u ++ m ++ [c]) ++ (v ++ p)).
    { by rewrite <- !app_assoc. }
    rewrite El in Hnd. apply NoDup_app in Hnd as (_ & Hnd & _). by apply (Hnd y). }
  split; try done.
  - rewrite <- app_assoc. cbn. eapply chain_ext; [|exact S2]. unfold next_is.
    intros x z _ _ <-. apply Hd.
  - intros x Hx. rewrite (proj2 (Hd x)). apply S3. set_solver.
  - eapply chain_ext; [|exact S4]. unfold prev_is. intros x z _ Hz E.
    rewrite Hpr; [done|]. intros ->. rewrite Ey in Hz.
    revert Hz. apply NoDup_app in Hnd as (_ & _ & Hnd). apply NoDup_app in Hnd as (_ & _ & Hnd).
    cbn in Hnd. apply NoDup_cons in Hnd as [_ Hnd]. destruct p as [|h p]; [done|].
    destruct v as [|w v]; cbn in Hnd |- *; apply NoDup_cons in Hnd as [Hnd _]; set_solver.
  - rewrite (proj2 (Hd _)). done.
  - rewrite <- app_assoc. cbn [app]. apply chain_app. split.
    + eapply chain_ext; [|exact S6]. unfold prev_is. cbn. intros x z _ Hz%tail_in E.
      rewrite Hpr; [done|]. apply Hout. set_solver.
    + cbn. split; [|done]. unfold prev_is, d'. rewrite Ey. by fn_simp.
  - intros x Hx. rewrite Hpr; [apply S7|apply Hout]; destruct m; cbn in *; set_solver.
Qed.

(** The end of the scan: the head of the scanned part learns the tail. *)
Lemma scan_end d u m p :
  NoDup (u ++ m ++ p) → scan d u m [] p →
  let h := hd (m ++ p) in
  scan (<[h := set_tail (lst p) (d h)]> d) u [] [] (m ++ p).
Proof.
  intros Hnd [S1 S2 S3 S4 S5 S6 S7] h. cbn in *. set (d' := <[h := _]> d).
  assert (Hd : ∀ x, next (d' x) = next (d x) ∧ prev (d' x) = prev (d x)).
  { intros x. unfold d'. by fn_cases h x. }
  destruct p as [|y p]; [done|]. cbn [hd] in *.
  assert (Hh : h ∈ m ++ [y]) by (unfold h; destruct m; cbn; set_solver).
  split; cbn; try done.
  - by destruct m.
  - assert (Hc : chain (next_is d) (u ++ [hd (m ++ y :: p)])).
    { destruct m as [|z m]; [done|]. cbn in S2 |- *. by apply chain_app in S2 as [? _]. }
    eapply chain_ext; [|exact Hc]. unfold next_is. intros x z _ _ <-. apply Hd.
  - intros x Hx. rewrite app_nil_r in Hx. unfold d'. rewrite fn_insert_case.
    case_decide as E; [|apply S3; set_solver]. subst x. exfalso.
    apply NoDup_app in Hnd as (_ & Hnd & _). apply (Hnd h); [done|]. set_solver.
  - assert (Hc : chain (prev_is d) (m ++ y :: p)) by (by apply chain_app).
    eapply chain_ext; [|exact Hc]. unfold prev_is. intros x z _ _ <-. apply Hd.
  - fold h. unfold d'. fn_simp. cbn. by rewrite lst_cons_app.
  - intros x Hx. rewrite (proj2 (Hd x)). apply S7. exact Hx.
Qed.

(** Taking off the last node. *)
Lemma scan_penult d u p :
  scan d u [] [] p → prev (d (lst p)) = (if decide (p = [hd p]) then 0 else penult p).
Proof.
  intros [S1 S2 S3 S4 S5 S6 S7]. destruct (exists_last S1) as (p1 & x & ->).
  rewrite lst_app. destruct (decide (p1 = [])) as [->|Hp1].
  - cbn. rewrite decide_True by done. apply S7. cbn. set_solver.
  - rewrite decide_False.
    2:{ destruct p1; [done|]. cbn. destruct p1; by intros [= ]. }
    destruct (exists_last Hp1) as (p2 & y & ->). unfold penult. rewrite reverse_snoc. cbn.
    rewrite reverse_snoc. cbn. rewrite <- app_assoc in S4. cbn in S4.
    apply chain_app in S4 as [_ S4]. cbn in S4. symmetry. exact (eq_sym (proj1 S4)).
Qed.

Lemma scan_pop d u p x :
  NoDup (u ++ p ++ [x]) → p ≠ [] → scan d u [] [] (p ++ [x]) →
  penult (p ++ [x]) = lst p ∧
  scan (<[hd p := set_tail (lst p) (d (hd p))]> d) u [] [] p.
Proof.
  intros Hnd Hp [S1 S2 S3 S4 S5 S6 S7]. split.
  { unfold penult, lst. by rewrite reverse_snoc. }
  cbn in *. rewrite hd_app in * by done. set (d' := <[hd p := _]> d).
  assert (Hd : ∀ z, next (d' z) = next (d z) ∧ prev (d' z) = prev (d z)).
  { intros z. unfold d'. by fn_cases (hd p) z. }
  split; cbn; try done.
  - eapply chain_ext; [|exact S2]. unfold next_is. intros y z _ _ <-. apply Hd.
  - intros y Hy. rewrite app_nil_r in *. unfold d'. rewrite fn_insert_case.
    case_decide as E; [|by apply S3]. subst y. exfalso.
    apply NoDup_app in Hnd as (_ & Hnd & _). apply (Hnd (hd p)); [done|].
    pose proof (hd_in p Hp). set_solver.
  - destruct (exists_last Hp) as (p2 & y & ->). rewrite <- app_assoc in S4. cbn in S4.
    apply chain_app in S4 as [S4 _]. eapply chain_ext; [|exact S4].
    unfold prev_is. intros a b _ _ <-. apply Hd.
  - unfold d'. by fn_simp.
  - intros y Hy. rewrite (proj2 (Hd y)). by apply S7.
Qed.
End shape.

(** ** Roles *)

Inductive pc :=
| Idle
| Slow (l : Z) (d : option ThreadData)  (* in [lock_slow]; its node, if it is being prepared *)
| Wait (l : Z)  (* the node has been pushed *)
| Un (l : Z)  (* in [unlock_slow], without the queue lock *)
(* with the queue lock *)
| QScan (l : Z) (m v p : list Z)
| QDone (l : Z) (p : list Z)
| QPop (l x : Z)  (* [x] has been taken off *)
| Pop (l x : Z).  (* and the queue lock released *)

Record role := MkRole { held : list Z; guards : list Z; rpc : pc }.
Definition at_pc (r : role) (p : pc) : role := MkRole (held r) (guards r) p.

Record lock_ghost := MkLG { own : option tid; qown : option tid; que : list Z }.

Definition enc_lock (L : lock_ghost) : Z :=
  enc (bool_decide (is_Some (own L))) (bool_decide (is_Some (qown L))) (hd (que L)).

Definition pc_queue (p : pc) : option Z :=
  match p with QScan l _ _ _ | QDone l _ | QPop l _ => Some l | _ => None end.
Definition pc_cust (p : pc) : option (Z * Z) :=
  match p with QPop l x | Pop l x => Some (l, x) | _ => None end.
(** The lock the thread is busy with. *)
Definition pc_lock (p : pc) : option Z :=
  match p with
  | Idle => None
  | Slow l _ | Wait l | Un l | QScan l _ _ _ | QDone l _ | QPop l _ | Pop l _ => Some l
  end.

(** The queue as its owner knows it. *)
Definition shape (d : Z → ThreadData) (q : list Z) (p : pc) : Prop :=
  match p with
  | QScan _ m v p => ∃ u, q = u ++ m ++ v ++ p ∧ scan d u m v p
  | QDone _ p => ∃ u, q = u ++ p ∧ scan d u [] [] p
  | _ => rest d q
  end.

Lemma shape_frame d d' q p : (∀ x, x ∈ q → d' x = d x) → shape d q p → shape d' q p.
Proof.
  intros Hd. destruct p; cbn; try (by apply rest_frame).
  - intros (u & -> & HS). exists u. split; [done|]. by eapply scan_frame.
  - intros (u & -> & HS). exists u. split; [done|]. by eapply scan_frame.
Qed.

Section proof.
Context (cheap tsan : bool).
(** The addresses of the data of the threads in use: aligned, not null, and
    distinct. *)
Context (used : tid → Prop) (addr : tid → Z).
Context (addr_inj : ∀ t u, used t → used u → addr t = addr u → t = u).
Context (addr_ok : ∀ t, used t → aligned (addr t) ∧ addr t ≠ 0).

Implicit Types (s : state) (g : Z → lock_ghost) (ρ : tid → role) (l x : Z) (t u w : tid).

Definition queue_pc g ρ l : pc :=
  match qown (g l) with Some u => rpc (ρ u) | None => Idle end.

(** [u] will look at the lock [l] again. *)
Definition coming g l u (p : pc) : Prop :=
  match p with
  | Slow l' _ | Un l' => l' = l
  | Wait l' => l' = l ∧ addr u ∉ que (g l)
  | _ => False
  end.

Record WInv s g ρ : Prop := {
  wi_used t : rpc (ρ t) ≠ Idle → used t;
  wi_word l : word s l = enc_lock (g l);
  wi_nodup l : NoDup (que (g l));
  wi_in l x : x ∈ que (g l) → ∃ t, x = addr t ∧ rpc (ρ t) = Wait l ∧ parked (node s x) = true;
  wi_wait t l : rpc (ρ t) = Wait l → parked (node s (addr t)) = true →
    addr t ∈ que (g l) ∨ ∃ v, pc_cust (rpc (ρ v)) = Some (l, addr t);
  wi_cust v l x : pc_cust (rpc (ρ v)) = Some (l, x) →
    ∃ t, x = addr t ∧ rpc (ρ t) = Wait l ∧ parked (node s x) = true ∧ x ∉ que (g l);
  wi_cust_uniq u v l x : pc_cust (rpc (ρ u)) = Some (l, x) →
    pc_cust (rpc (ρ v)) = Some (l, x) → u = v;
  wi_shape l : shape (node s) (que (g l)) (queue_pc g ρ l);
  wi_qown l t : qown (g l) = Some t ↔ pc_queue (rpc (ρ t)) = Some l;
  wi_held t l : l ∈ held (ρ t) → own (g l) = Some t;
  wi_wake l : own (g l) = None → que (g l) ≠ [] →
    is_Some (qown (g l)) ∨ ∃ v, coming g l v (rpc (ρ v));
  wi_node t l d : rpc (ρ t) = Slow l (Some d) → node s (addr t) = d;
  wi_guards t : guards (ρ t) ⊆ held (ρ t);
  wi_live l t : t ∈ live s l → l ∈ guards (ρ t);
  wi_live_nodup l : NoDup (live s l);
}.

(** The node of [t] is in no queue and in nobody's hands. *)
Definition free g ρ t : Prop :=
  (∀ l, addr t ∉ que (g l)) ∧ ∀ v l, pc_cust (rpc (ρ v)) ≠ Some (l, addr t).

(** A thread that waits is in use. *)
Lemma wait_inj s g ρ t u l :
  WInv s g ρ → used t → rpc (ρ u) = Wait l → addr t = addr u → t = u.
Proof. intros HI Ht Hu. apply addr_inj; [done|]. apply (wi_used _ _ _ HI). by rewrite Hu. Qed.

Lemma addr_ne s g ρ t u :
  WInv s g ρ → used t → rpc (ρ u) ≠ Idle → u ≠ t → addr u ≠ addr t.
Proof. intros HI Ht Hu Hne E. by apply Hne, addr_inj; [apply (wi_used _ _ _ HI)|..]. Qed.

(** A thread in the middle of something is in use. *)
Lemma used_pc s g ρ t r : WInv s g ρ → ρ t = r → rpc r ≠ Idle → used t.
Proof. intros HI <-. apply HI. Qed.

Lemma free_pc s g ρ t : WInv s g ρ → used t → (∀ l, rpc (ρ t) ≠ Wait l) → free g ρ t.
Proof.
  intros HI Ht Hn. split.
  - intros l (u & E & Hu & _)%(wi_in _ _ _ HI).
    rewrite <- (wait_inj _ _ _ t u l HI Ht Hu E) in Hu. by apply Hn in Hu.
  - intros v l (u & E & Hu & _)%(wi_cust _ _ _ HI).
    rewrite <- (wait_inj _ _ _ t u l HI Ht Hu E) in Hu. by apply Hn in Hu.
Qed.

Lemma free_parked s g ρ t : WInv s g ρ → parked (node s (addr t)) = false → free g ρ t.
Proof.
  intros HI Hn. split.
  - intros l (u & _ & _ & Hp)%(wi_in _ _ _ HI). congruence.
  - intros v l (u & _ & _ & Hp & _)%(wi_cust _ _ _ HI). congruence.
Qed.

Lemma hd_aligned s g ρ l : WInv s g ρ → aligned (hd (que (g l))).
Proof.
  intros HI. destruct (que (g l)) as [|x q] eqn:E; cbn; [apply aligned_0|].
  destruct (wi_in _ _ _ HI l x) as (t & -> & Ht & _); [rewrite E; set_solver|].
  apply addr_ok, (wi_used _ _ _ HI). by rewrite Ht.
Qed.

Lemma que_nil s g ρ l : WInv s g ρ → hd (que (g l)) = 0 → que (g l) = [].
Proof.
  intros HI. destruct (que (g l)) as [|x q] eqn:E; cbn; [done|].
  destruct (wi_in _ _ _ HI l x) as (t & -> & Ht & _); [rewrite E; set_solver|].
  assert (Hu : used t) by (apply (wi_used _ _ _ HI); by rewrite Ht).
  by intros ?%(proj2 (addr_ok t Hu)).
Qed.

(** A node is in one queue only. *)
Lemma que_disjoint s g ρ l l' x : WInv s g ρ → x ∈ que (g l) → x ∈ que (g l') → l = l'.
Proof.
  intros HI (t & E & Ht & _)%(wi_in _ _ _ HI) (t' & E' & Ht' & _)%(wi_in _ _ _ HI).
  assert (Hu : used t') by (apply (wi_used _ _ _ HI); by rewrite Ht').
  assert (t' = t) as -> by (apply (wait_inj s g ρ t' t l HI Hu Ht); congruence). congruence.
Qed.

(** One step of thread [t], which concerns the lock [l] and, of the nodes, its
    own and those of the queue of [l]. *)
Lemma w_step s g ρ t r s' l L :
  WInv s g ρ → used t → free g ρ t →
  (∀ l', word s' l' = if decide (l' = l) then enc_lock L else word s l') →
  (∀ x, x ≠ addr t → x ∉ que (g l) → node s' x = node s x) →
  (∀ x, x ≠ addr t → parked (node s' x) = parked (node s x)) →
  NoDup (que L) →
  (∀ x, x ∈ que L → x ∈ que (g l) ∨
     (x = addr t ∧ rpc r = Wait l ∧ parked (node s' x) = true)) →
  (∀ x, x ∈ que (g l) → x ∈ que L ∨ pc_cust (rpc r) = Some (l, x)) →
  (∀ l' x, pc_cust (rpc r) = Some (l', x) →
     pc_cust (rpc (ρ t)) = Some (l', x) ∨ (l' = l ∧ x ∈ que (g l) ∧ x ∉ que L)) →
  (∀ y, pc_cust (rpc (ρ t)) = Some y → pc_cust (rpc r) = Some y) →
  (∀ l', rpc r = Wait l' → l' = l ∧ addr t ∈ que L) →
  (∀ u, u ≠ t → own (g l) = Some u → own L = Some u) →
  (∀ u, u ≠ t → qown (g l) = Some u ↔ qown L = Some u) →
  (qown L = Some t ↔ pc_queue (rpc r) = Some l) →
  (∀ l', l' ≠ l → pc_queue (rpc r) = Some l' ↔ pc_queue (rpc (ρ t)) = Some l') →
  (∀ l', l' ≠ l → pc_queue (rpc (ρ t)) = Some l' → rpc r = rpc (ρ t)) →
  shape (node s') (que L) (match qown L with
    | Some u => if decide (u = t) then rpc r else rpc (ρ u) | None => Idle end) →
  (∀ l', l' ∈ held r → if decide (l' = l) then own L = Some t else own (g l') = Some t) →
  (own L = None → que L ≠ [] → is_Some (qown L) ∨ coming (<[l := L]> g) l t (rpc r) ∨
     ∃ v, v ≠ t ∧ coming g l v (rpc (ρ v))) →
  (∀ l', l' ≠ l → ¬ coming g l' t (rpc (ρ t))) →
  (∀ l' d, rpc r = Slow l' (Some d) → node s' (addr t) = d) →
  guards r ⊆ held r →
  (∀ l' u, u ∈ live s' l' → if decide (u = t) then l' ∈ guards r else u ∈ live s l') →
  (∀ l', NoDup (live s' l')) →
  WInv s' (<[l := L]> g) (<[t := r]> ρ).
Proof.
  intros HI Ht [Hf1 Hf2] Hword Hnode Hpark Hnd Hin Hout Hcu1 Hcu2 Hwait Hown Hqo Hqo1 Hqo2 Hqo3
    Hsh Hheld Hwake Hnc Hnd' Hg Hlv Hlvn.
  assert (Hque : ∀ l' x, x ∈ que ((<[l := L]> g : Z → lock_ghost) l') → x ≠ addr t → x ∈ que (g l')).
  { intros l' x. fn_cases l l'; [|done]. intros Hx Hne. destruct (Hin x Hx) as [?|[? _]]; done. }
  assert (Hcust : ∀ v l' x, pc_cust (rpc ((<[t := r]> ρ : tid → role) v)) = Some (l', x) →
    x ≠ addr t ∧ ((∃ v', pc_cust (rpc (ρ v')) = Some (l', x)) ∨ (l' = l ∧ x ∈ que (g l) ∧ x ∉ que L))).
  { intros v l' x. fn_cases t v.
    - intros Hx. destruct (Hcu1 l' x Hx) as [Hx'|(-> & Hx1 & Hx2)].
      + split; [|left; eauto]. intros ->. by apply Hf2 in Hx'.
      + split; [|by right]. intros ->. by apply Hf1 in Hx1.
    - intros Hx. split; [|left; eauto]. intros ->. by apply Hf2 in Hx. }
  split.
  - intros u. fn_cases t u; [done|apply HI].
  - intros l'. rewrite Hword. fn_cases l l'; [by rewrite decide_True|].
    rewrite decide_False by done. apply HI.
  - intros l'. fn_cases l l'; [done|apply HI].
  - intros l' x Hx. destruct (decide (x = addr t)) as [->|Hne].
    + exists t. fn_simp. revert Hx. fn_cases l l'; [|by intros ?%Hf1]. intros Hx.
      destruct (Hin _ Hx) as [Hx'|(_ & ? & ?)]; [by apply Hf1 in Hx'|done].
    + destruct (wi_in _ _ _ HI l' x) as (u & -> & Hu & Hp); [by apply Hque|].
      exists u. assert (t ≠ u) by congruence. fn_simp. by rewrite Hpark.
  - intros u l' Hu Hp. destruct (decide (u = t)) as [->|Hne].
    { fn_simp. destruct (Hwait _ Hu) as [-> ?]. fn_simp. by left. }
    fn_simp. assert (Hneq : addr u ≠ addr t) by (apply (addr_ne s g ρ); [done|done|by rewrite Hu|done]).
    rewrite Hpark in Hp by done. destruct (wi_wait _ _ _ HI u l' Hu Hp) as [Hq|[v Hv]].
    + fn_cases l l'; [|by left]. destruct (Hout _ Hq) as [?|Hc]; [by left|].
      right. exists t. by fn_simp.
    + right. exists v. fn_cases t v; [by apply Hcu2|done].
  - intros v l' x Hx. destruct (Hcust _ _ _ Hx) as [Hne [[v' Hv']|(-> & Hx1 & Hx2)]].
    + destruct (wi_cust _ _ _ HI v' l' x Hv') as (u & -> & Hu & Hp & Hq).
      exists u. assert (t ≠ u) by congruence. fn_simp. rewrite Hpark by done.
      repeat split; try done. intros Hq'. by apply Hq, Hque.
    + destruct (wi_in _ _ _ HI l x Hx1) as (u & -> & Hu & Hp). exists u.
      assert (t ≠ u) by congruence. fn_simp. by rewrite Hpark.
  - intros u v l' x Hu Hv. 
    assert (Hself : ∀ w, w ≠ t → pc_cust (rpc (ρ w)) = Some (l', x) →
                     pc_cust (rpc r) = Some (l', x) → False).
    { intros w Hw Hwc Hr. destruct (Hcu1 _ _ Hr) as [Hr'|(-> & Hx1 & _)].
      - by pose proof (wi_cust_uniq _ _ _ HI _ _ _ _ Hwc Hr').
      - by destruct (wi_cust _ _ _ HI _ _ _ Hwc) as (_ & _ & _ & _ & ?). }
    destruct (decide (u = t)) as [->|Hu'], (decide (v = t)) as [->|Hv']; fn_simp; [done|..];
      [exfalso; by eapply Hself..|by eapply (wi_cust_uniq _ _ _ HI)].
  - intros l'. unfold queue_pc. fn_cases l l'.
    + destruct (qown L) as [u|]; [|done]. revert Hsh. case_decide as E; [subst u; by fn_simp|].
      by fn_simp.
    + assert (Hpc : match qown (g l') with Some u => rpc ((<[t := r]> ρ : tid → role) u) | None => Idle end
                    = queue_pc g ρ l').
      { unfold queue_pc. destruct (qown (g l')) as [u|] eqn:E; [|done]. fn_cases t u; [|done].
        apply (wi_qown _ _ _ HI) in E. by apply (Hqo3 l'). }
      rewrite Hpc. eapply shape_frame; [|apply (wi_shape _ _ _ HI l')]. intros x Hx.
      apply Hnode; [intros ->; by apply Hf1 in Hx|]. intros Hx'.
      by pose proof (que_disjoint _ _ _ _ _ _ HI Hx Hx').
  - intros l' u. fn_cases t u; fn_cases l l'.
    + done.
    + rewrite (wi_qown _ _ _ HI), Hqo2; done.
    + rewrite <- Hqo by done. apply HI.
    + apply HI.
  - intros u l' Hu. fn_cases t u.
    + specialize (Hheld _ Hu). fn_cases l l'; [by rewrite decide_True in Hheld|].
      by rewrite decide_False in Hheld.
    + apply (wi_held _ _ _ HI) in Hu. fn_cases l l'; auto.
  - intros l' Ho Hq.
    assert (Hold : ∀ v, v ≠ t → coming g l' v (rpc (ρ v)) →
      coming (<[l := L]> g) l' v (rpc ((<[t := r]> ρ : tid → role) v))).
    { intros v Hv. fn_simp. destruct (rpc (ρ v)) eqn:Ev; cbn; try done. intros [-> Hn].
      split; [done|]. intros Hx. apply Hn, Hque; [done|].
      apply (addr_ne s g ρ); [done|done|by rewrite Ev|done]. }
    fn_cases l l'.
    + destruct (Hwake Ho Hq) as [?|[Hc|(v & Hv & Hc)]]; [by left|right..].
      * exists t. by fn_simp.
      * exists v. auto.
    + destruct (wi_wake _ _ _ HI l' Ho Hq) as [?|[v Hv]]; [by left|right].
      exists v. apply Hold; [|done]. intros ->. by apply (Hnc l') in Hv.
  - intros u l' d. destruct (decide (u = t)) as [->|Hne]; fn_simp; [by apply Hnd'|]. intros Hu.
    assert (Huse : used u) by (apply (wi_used _ _ _ HI); by rewrite Hu).
    rewrite Hnode; [by apply (wi_node _ _ _ HI u l' d)| |].
    + apply (addr_ne s g ρ); [done|done|by rewrite Hu|done].
    + apply (free_pc s g ρ u HI Huse). intros l2. by rewrite Hu.
  - intros u. fn_cases t u; [done|apply HI].
  - intros l' u Hu. specialize (Hlv _ _ Hu). fn_cases t u; [by rewrite decide_True in Hlv|].
    rewrite decide_False in Hlv by done. by apply (wi_live _ _ _ HI).
  - done.
Qed.

(** The thread is busy with [l] or with nothing. *)
Definition busy l (p : pc) : Prop := ∀ l', pc_lock p = Some l' → l' = l.

Lemma busy_queue l p l' : busy l p → pc_queue p = Some l' → l' = l.
Proof. intros Hb. destruct p; cbn; try done; intros [= <-]; by apply Hb. Qed.

Lemma busy_coming g l l' t p : busy l p → coming g l' t p → l' = l.
Proof.
  intros Hb. destruct p; cbn; try done; [..|intros [<- _]|]; intros; subst; by apply Hb.
Qed.

(** A step that leaves the queues alone. *)
Lemma w_same_queue s g ρ t r s' l o qo :
  WInv s g ρ → used t → free g ρ t → busy l (rpc (ρ t)) → busy l (rpc r) →
  node s' = node s → live s' = live s →
  (∀ l', word s' l' = if decide (l' = l) then enc_lock (MkLG o qo (que (g l))) else word s l') →
  pc_cust (rpc r) = pc_cust (rpc (ρ t)) → (∀ l', rpc r ≠ Wait l') →
  (∀ u, u ≠ t → own (g l) = Some u → o = Some u) →
  (∀ u, u ≠ t → qown (g l) = Some u ↔ qo = Some u) →
  (qo = Some t ↔ pc_queue (rpc r) = Some l) →
  (∀ u, qo = Some u → u = t → shape (node s) (que (g l)) (rpc r)) →
  (qo = None → rest (node s) (que (g l))) →
  (∀ l', l' ∈ held r → if decide (l' = l) then o = Some t else own (g l') = Some t) →
  (o = None → que (g l) ≠ [] → is_Some qo ∨ coming g l t (rpc r) ∨
     ∃ v, v ≠ t ∧ coming g l v (rpc (ρ v))) →
  (∀ l' d, rpc r = Slow l' (Some d) → node s (addr t) = d) →
  guards r ⊆ held r → guards r = guards (ρ t) →
  WInv s' (<[l := MkLG o qo (que (g l))]> g) (<[t := r]> ρ).
Proof.
  destruct s' as [wd nd lv]. cbn. intros HI Ht Hf Hb Hb' -> -> Hw Hc Hnw Ho Hqo Hqt Hst Hsn Hh Hwk Hnd Hg Hge.
  apply (w_step s); cbn; try done.
  - apply HI.
  - auto.
  - auto.
  - rewrite Hc. auto.
  - by rewrite Hc.
  - intros l' E. by apply Hnw in E.
  - intros l' Hl. split; intros E; exfalso; apply Hl;
      [by apply (busy_queue l (rpc r))|by apply (busy_queue l (rpc (ρ t)))].
  - intros l' Hl E. exfalso. apply Hl. by apply (busy_queue l (rpc (ρ t))).
  - destruct qo as [u|]; [|by apply Hsn]. case_decide as E; [by apply (Hst u)|].
    pose proof (wi_shape _ _ _ HI l) as HS. unfold queue_pc in HS.
    by rewrite (proj2 (Hqo u E)) in HS.
  - intros H1 H2. destruct (Hwk H1 H2) as [?|[Hx|?]]; [by left| |by right; right].
    right; left. destruct (rpc r); cbn in *; try done. exfalso. by eapply Hnw.
  - intros l' Hl E. by apply Hl, (busy_coming g l l' t (rpc (ρ t))).
  - intros l' u Hu. case_decide; [subst|done]. rewrite Hge. by apply (wi_live _ _ _ HI).
  - apply HI.
Qed.

Lemma w_same s g ρ t r : WInv s g ρ → ρ t = r → WInv s g (<[t := r]> ρ).
Proof.
  intros HI <-. assert (E : ∀ u, (<[t := ρ t]> ρ : tid → role) u = ρ u) by (intros u; apply fn_insert_id).
  destruct HI as [I0 I1 I2 I3 I4 I5 I6 I7 I8 I9 I10 I11 I12 I13 I14]. split; try done.
  - intros u. rewrite E. apply I0.
  - intros l x Hx. destruct (I3 l x Hx) as (u & ?). exists u. by rewrite E.
  - intros u l. rewrite E. intros H1 H2. destruct (I4 u l H1 H2) as [?|[v ?]]; [by left|].
    right. exists v. by rewrite E.
  - intros v l x. rewrite E. intros Hx. destruct (I5 v l x Hx) as (u & ?). exists u. by rewrite E.
  - intros u v l x. rewrite !E. apply I6.
  - intros l. specialize (I7 l). unfold queue_pc in *. destruct (qown (g l)); [by rewrite E|done].
  - intros l u. rewrite E. apply I8.
  - intros u l. rewrite E. apply I9.
  - intros l H1 H2. destruct (I10 l H1 H2) as [?|[v ?]]; [by left|]. right. exists v. by rewrite E.
  - intros u l d. rewrite E. apply I11.
  - intros u. rewrite E. apply I12.
  - intros l u. rewrite E. apply I13.
Qed.

Lemma word_refl s g ρ l l' :
  WInv s g ρ →
  word s l' = if decide (l' = l) then enc_lock (MkLG (own (g l)) (qown (g l)) (que (g l)))
              else word s l'.
Proof.
  intros HI. case_decide; [subst l'|done]. rewrite (wi_word _ _ _ HI). by destruct (g l).
Qed.

(** Only the role changes, outside the queue. *)
Lemma w_pc s g ρ t r p l :
  WInv s g ρ → ρ t = r → used t → free g ρ t → busy l (rpc r) → busy l p →
  pc_cust p = pc_cust (rpc r) → (∀ l', p ≠ Wait l') →
  pc_queue p = pc_queue (rpc r) →
  (pc_queue p = Some l → shape (node s) (que (g l)) (rpc r) → shape (node s) (que (g l)) p) →
  (own (g l) = None → que (g l) ≠ [] → coming g l t (rpc r) → qown (g l) = None → coming g l t p) →
  (∀ l' d, p = Slow l' (Some d) → node s (addr t) = d) →
  WInv s (<[l := MkLG (own (g l)) (qown (g l)) (que (g l))]> g) (<[t := at_pc r p]> ρ).
Proof.
  intros HI Hr Ht Hf Hb Hb' Hc Hnw Hq Hs Hco Hnd.
  apply (w_same_queue s); cbn; rewrite ?Hr; try done.
  - intros l'. by apply (word_refl _ _ _ _ _ HI).
  - rewrite Hq, <- Hr. apply HI.
  - intros u Hu ->. apply Hs.
    + rewrite Hq, <- Hr. by apply HI.
    + pose proof (wi_shape _ _ _ HI l) as HS. unfold queue_pc in HS. rewrite Hu, Hr in HS. done.
  - intros Hn. pose proof (wi_shape _ _ _ HI l) as HS. unfold queue_pc in HS. by rewrite Hn in HS.
  - intros l' Hl. rewrite <- Hr in Hl. apply (wi_held _ _ _ HI) in Hl. by case_decide; [subst|].
  - intros H1 H2. destruct (qown (g l)) eqn:Eq; [by left|].
    destruct (wi_wake _ _ _ HI l H1 H2) as [[? E]|[v Hv]]; [congruence|right].
    destruct (decide (v = t)) as [->|Hne]; [left; rewrite Hr in Hv; by apply Hco|right; eauto].
  - rewrite <- Hr. apply HI.
Qed.

(** The lock is taken. *)
Lemma w_lock s g ρ t r l :
  WInv s g ρ → ρ t = r → used t → (rpc r = Idle ∨ ∃ d, rpc r = Slow l d) → own (g l) = None →
  WInv (set_word l (enc_lock (MkLG (Some t) (qown (g l)) (que (g l)))) s)
    (<[l := MkLG (Some t) (qown (g l)) (que (g l))]> g)
    (<[t := MkRole (l :: held r) (guards r) Idle]> ρ).
Proof.
  intros HI Hr Ht Hpc Ho.
  assert (Hf : free g ρ t) by (apply (free_pc s); [done|done|]; rewrite Hr; by destruct Hpc as [-> |[d ->]]).
  assert (Hq : qown (g l) ≠ Some t).
  { intros E%(wi_qown _ _ _ HI). rewrite Hr in E. by destruct Hpc as [Hp|[d Hp]]; rewrite Hp in E. }
  apply (w_same_queue s); cbn; rewrite ?Hr; try done.
  - destruct Hpc as [-> |[d ->]]; cbn; [done|]. by intros l' [= <-].
  - intros l'. by fn_cases l l'; [rewrite decide_True|rewrite decide_False].
  - by destruct Hpc as [-> |[d ->]].
  - congruence.
  - intros u Hu ->. done.
  - intros Hn. pose proof (wi_shape _ _ _ HI l) as HS. unfold queue_pc in HS. by rewrite Hn in HS.
  - intros l' Hl. case_decide; [done|]. apply (wi_held _ _ _ HI). rewrite Hr. set_solver.
  - rewrite <- Hr. intros l' Hl. apply (wi_guards _ _ _ HI) in Hl. set_solver.
Qed.

(** The lock is released: a queue that nobody looks after becomes ours. *)
Lemma w_unlock s g ρ t r l :
  WInv s g ρ → ρ t = r → used t → rpc r = Idle → l ∈ held r → guards r ⊆ filter (λ x, x ≠ l) (held r) →
  WInv (set_word l (enc_lock (MkLG None (qown (g l)) (que (g l)))) s)
    (<[l := MkLG None (qown (g l)) (que (g l))]> g)
    (<[t := MkRole (filter (λ x, x ≠ l) (held r)) (guards r)
              (if decide (is_Some (qown (g l)) ∨ que (g l) = []) then Idle else Un l)]> ρ).
Proof.
  intros HI Hr Ht Hpc Hl Hg. set (p := if decide _ then _ else _).
  assert (Hf : free g ρ t) by (apply (free_pc s); [done|done|]; by rewrite Hr, Hpc).
  assert (Hq : qown (g l) ≠ Some t).
  { intros E%(wi_qown _ _ _ HI). by rewrite Hr, Hpc in E. }
  assert (Ho : own (g l) = Some t) by (apply (wi_held _ _ _ HI); by rewrite Hr).
  apply (w_same_queue s); cbn; rewrite ?Hr, ?Hpc; try done.
  - subst p. case_decide; [done|]. by intros l' [= <-].
  - intros l'. by fn_cases l l'; [rewrite decide_True|rewrite decide_False].
  - subst p. by case_decide.
  - subst p. by case_decide.
  - congruence.
  - split; [done|]. subst p. by case_decide.
  - intros u Hu ->. done.
  - intros Hn. pose proof (wi_shape _ _ _ HI l) as HS. unfold queue_pc in HS. by rewrite Hn in HS.
  - intros l' [Hne Hl']%list_elem_of_filter. rewrite decide_False by done.
    apply (wi_held _ _ _ HI). by rewrite Hr.
  - intros _ Hne. subst p. case_decide as E; [destruct E; [by left|done]|]. by right; left.
  - subst p. by case_decide.
Qed.

(** The queue lock is taken, of a queue that is not empty. *)
Lemma w_queue_lock s g ρ t r l :
  WInv s g ρ → ρ t = r → rpc r = Un l → qown (g l) = None → que (g l) ≠ [] →
  ∃ v p, que (g l) = v ++ p ∧ p ≠ [] ∧
    WInv (set_word l (enc_lock (MkLG (own (g l)) (Some t) (que (g l)))) s)
      (<[l := MkLG (own (g l)) (Some t) (que (g l))]> g)
      (<[t := at_pc r (QScan l [] v p)]> ρ).
Proof.
  intros HI Hr Hpc Hq Hne. pose proof (wi_shape _ _ _ HI l) as HS. unfold queue_pc in HS.
  rewrite Hq in HS. destruct HS as [?|(v & p & Eq & HS)]; [done|]. exists v, p.
  split; [done|]. split; [apply HS|].
  assert (Ht : used t) by (apply (used_pc s g ρ t r); [done|done|by rewrite Hpc]).
  assert (Hf : free g ρ t) by (apply (free_pc s); [done|done|]; by rewrite Hr, Hpc).
  apply (w_same_queue s); cbn; rewrite ?Hr, ?Hpc; try done.
  - by intros l' [= <-].
  - by intros l' [= <-].
  - intros l'. by fn_cases l l'; [rewrite decide_True|rewrite decide_False].
  - intros u Hu. rewrite Hq. split; [done|congruence].
  - intros u _ _. exists []. split; [done|]. by apply scan_start.
  - intros l' Hl. rewrite <- Hr in Hl. apply (wi_held _ _ _ HI) in Hl. by case_decide; [subst|].
  - intros _ _. by left; eexists.
  - rewrite <- Hr. apply HI.
Qed.

(** The queue lock is released: of a locked lock, or after a thread has been
    taken off. *)
Lemma w_queue_unlock s g ρ t r p l :
  WInv s g ρ → ρ t = r → pc_queue (rpc r) = Some l → p = Idle ∨ (∃ x, p = Pop l x) →
  pc_cust p = pc_cust (rpc r) → rest (node s) (que (g l)) →
  (is_Some (own (g l)) ∨ is_Some (pc_cust p)) →
  WInv (set_word l (enc_lock (MkLG (own (g l)) None (que (g l)))) s)
    (<[l := MkLG (own (g l)) None (que (g l))]> g) (<[t := at_pc r p]> ρ).
Proof.
  intros HI Hr Hpq Hp Hc HS Hw.
  assert (Hnw : ∀ l', rpc r ≠ Wait l') by (intros l' E; by rewrite E in Hpq).
  assert (Ht : used t) by (apply (used_pc s g ρ t r); [done|done|intros E; by rewrite E in Hpq]).
  assert (Hf : free g ρ t) by (apply (free_pc s); [done|done|]; by rewrite Hr).
  assert (Hq : qown (g l) = Some t) by (apply (wi_qown _ _ _ HI); by rewrite Hr).
  apply (w_same_queue s); cbn; rewrite ?Hr; try done.
  - destruct (rpc r); cbn in *; try done; intros l' [= <-]; congruence.
  - destruct Hp as [-> |[x ->]]; [done|]. by intros l' [= <-].
  - intros l'. by fn_cases l l'; [rewrite decide_True|rewrite decide_False].
  - by destruct Hp as [-> |[x ->]].
  - intros u Hu. rewrite Hq. split; [congruence|done].
  - split; [done|]. by destruct Hp as [-> |[x ->]].
  - intros l' Hl. rewrite <- Hr in Hl. apply (wi_held _ _ _ HI) in Hl. by case_decide; [subst|].
  - intros Ho _. destruct Hw as [[? E]|[[l2 x] E]]; [congruence|]. right; right.
    assert (l2 = l) as -> by (destruct Hp as [-> |[y ->]]; cbn in E; congruence).
    rewrite Hc in E. rewrite <- Hr in E.
    destruct (wi_cust _ _ _ HI t l x E) as (v & -> & Hv & _ & Hin). exists v.
    split; [intros ->; rewrite Hr in Hv; by apply Hnw in Hv|]. by rewrite Hv.
  - by destruct Hp as [-> |[x ->]].
  - rewrite <- Hr. apply HI.
Qed.

(** A step that leaves the word, and the bits of the lock, alone. *)
Lemma w_nodes s g ρ t r p l q d :
  WInv s g ρ → ρ t = r → used t → free g ρ t → busy l (rpc r) → busy l p →
  (∀ x, x ≠ addr t → x ∉ que (g l) → d x = node s x) →
  (∀ x, x ≠ addr t → parked (d x) = parked (node s x)) →
  NoDup q → hd q = hd (que (g l)) →
  (∀ x, x ∈ q → x ∈ que (g l)) →
  (∀ x, x ∈ que (g l) → x ∈ q ∨ pc_cust p = Some (l, x)) →
  (∀ l' x, pc_cust p = Some (l', x) → l' = l ∧ x ∈ que (g l) ∧ x ∉ q) →
  pc_cust (rpc r) = None → (∀ l', p ≠ Wait l') → pc_queue p = pc_queue (rpc r) →
  shape d q (if decide (qown (g l) = Some t) then p else queue_pc g ρ l) →
  (coming g l t (rpc r) → coming g l t p) →
  (∀ l' d', p = Slow l' (Some d') → d (addr t) = d') →
  WInv (MkState (word s) d (live s)) (<[l := MkLG (own (g l)) (qown (g l)) q]> g)
    (<[t := at_pc r p]> ρ).
Proof.
  intros HI Hr Ht Hf Hb Hb' Hd Hpk Hnd Hhd Hin Hout Hcu Hcn Hnw Hq HS Hco Hnd'.
  apply (w_step s); cbn; rewrite ?Hr, ?Hcn; try done.
  - intros l'. destruct (decide (l' = l)) as [->|]; [|done]. rewrite (wi_word _ _ _ HI).
    unfold enc_lock. cbn. by rewrite Hhd.
  - auto.
  - intros l' x Hx. right. by apply Hcu.
  - intros l' E. by apply Hnw in E.
  - rewrite Hq, <- Hr. apply HI.
  - intros l' Hl. by rewrite Hq.
  - intros l' Hl E. exfalso. apply Hl. by apply (busy_queue l (rpc r)).
  - revert HS. unfold queue_pc. destruct (qown (g l)) as [u|]; [|by rewrite decide_False].
    case_decide as E1; case_decide as E2; congruence.
  - intros l' Hl. rewrite <- Hr in Hl. apply (wi_held _ _ _ HI) in Hl. by destruct (decide (l' = l)) as [->|].
  - intros H1 H2. destruct (que (g l)) as [|y ql] eqn:Eq.
    { destruct q as [|z q]; [done|]. specialize (Hin z (list_elem_of_here _ _)).
      by apply elem_of_nil in Hin. }
    destruct (wi_wake _ _ _ HI l H1) as [?|[v Hv]]; [by rewrite Eq|by left|right].
    destruct (decide (v = t)) as [->|Hne]; [left|right; eauto].
    rewrite Hr in Hv. apply Hco in Hv. destruct p; cbn in *; try done. by destruct (Hnw l0).
  - intros l' Hl E. by apply Hl, (busy_coming g l l' t (rpc r)).
  - rewrite <- Hr. apply HI.
  - intros l' u Hu. destruct (decide (u = t)) as [->|]; [|done]. rewrite <- Hr. by apply (wi_live _ _ _ HI).
  - apply HI.
Qed.

(** Preparing our own node. *)
Lemma w_own_node s g ρ t r l od f :
  WInv s g ρ → ρ t = r → rpc r = Slow l od →
  WInv (upd_node (addr t) f s) (<[l := MkLG (own (g l)) (qown (g l)) (que (g l))]> g)
    (<[t := at_pc r (Slow l (Some (f (node s (addr t)))))]> ρ).
Proof.
  intros HI Hr Hpc.
  assert (Ht : used t) by (apply (used_pc s g ρ t r); [done|done|by rewrite Hpc]).
  assert (Hf : free g ρ t) by (apply (free_pc s); [done|done|]; by rewrite Hr, Hpc).
  apply w_nodes; rewrite ?Hpc; try done.
  - by intros l' [= <-].
  - by intros l' [= <-].
  - intros x Hx _. by rewrite fn_insert_ne by congruence.
  - intros x Hx. by rewrite fn_insert_ne by congruence.
  - apply HI.
  - auto.
  - rewrite decide_False.
    + eapply shape_frame; [|apply (wi_shape _ _ _ HI l)]. intros x Hx.
      rewrite fn_insert_ne; [done|]. intros <-. by apply Hf in Hx.
    + intros E%(wi_qown _ _ _ HI). by rewrite Hr, Hpc in E.
  - intros l' d' [= _ <-]. by fn_simp.
Qed.

(** Pushing it. *)
Lemma w_push s g ρ t r l d :
  WInv s g ρ → ρ t = r → rpc r = Slow l (Some d) → is_Some (own (g l)) →
  parked d = true → prev d = 0 → queue_tail d = (if decide (que (g l) = []) then addr t else 0) →
  (que (g l) ≠ [] → next d = hd (que (g l))) →
  let L := MkLG (own (g l)) (qown (g l)) (addr t :: que (g l)) in
  WInv (set_word l (enc_lock L) s) (<[l := L]> g) (<[t := at_pc r (Wait l)]> ρ).
Proof.
  intros HI Hr Hpc Ho Hpk Hpv Htl Hnx L.
  assert (Ht : used t) by (apply (used_pc s g ρ t r); [done|done|by rewrite Hpc]).
  assert (Hf : free g ρ t) by (apply (free_pc s); [done|done|]; by rewrite Hr, Hpc).
  assert (Hd : node s (addr t) = d) by (apply (wi_node _ _ _ HI t l); by rewrite Hr).
  assert (Hqt : qown (g l) ≠ Some t).
  { intros E%(wi_qown _ _ _ HI). by rewrite Hr, Hpc in E. }
  apply (w_step s); cbn; rewrite ?Hr, ?Hpc; try done.
  - intros l'. by fn_cases l l'; [rewrite decide_True|rewrite decide_False].
  - constructor; [apply Hf|apply HI].
  - intros x [->|Hx]%elem_of_cons; [right|by left]. by rewrite Hd.
  - intros x Hx. left. set_solver.
  - intros l' [= <-]. split; [done|]. set_solver.
  - pose proof (wi_shape _ _ _ HI l) as HS. unfold queue_pc in HS. subst L. cbn.
    assert (Hrp : rest (node s) (que (g l)) → rest (node s) (addr t :: que (g l))).
    { intros HR. apply rest_push; rewrite ?Hd; try done. by apply addr_ok. }
    assert (Hsc : ∀ q m v p, que (g l) = q ++ m ++ v ++ p → scan (node s) q m v p →
                     scan (node s) (addr t :: q) m v p).
    { intros q m v p E HS'. apply scan_push; rewrite ?Hd; try done.
      - rewrite Htl, decide_False; [done|]. rewrite E. pose proof (sc_ne _ _ _ _ _ HS').
        by destruct q, m, v, p.
      - rewrite <- E. apply Hnx. rewrite E. pose proof (sc_ne _ _ _ _ _ HS').
        by destruct q, m, v, p. }
    destruct (qown (g l)) as [u|]; [|by apply Hrp]. rewrite decide_False by congruence.
    destruct (rpc (ρ u)); cbn in *; auto.
    + destruct HS as (u' & E & HS). exists (addr t :: u'). split; [by rewrite E|].
      by apply Hsc.
    + destruct HS as (u' & E & HS). exists (addr t :: u'). split; [by rewrite E|].
      by apply Hsc.
  - intros l' Hl. rewrite <- Hr in Hl. apply (wi_held _ _ _ HI) in Hl. by destruct (decide (l' = l)) as [->|].
  - intros E. rewrite E in Ho. by destruct Ho.
  - by intros l' Hl <-.
  - rewrite <- Hr. apply HI.
  - intros l' u Hu. destruct (decide (u = t)) as [->|]; [|done]. rewrite <- Hr. by apply (wi_live _ _ _ HI).
  - apply HI.
Qed.

(** What the owner of the queue lock knows. *)
Lemma queue_shape s g ρ t r l :
  WInv s g ρ → ρ t = r → pc_queue (rpc r) = Some l →
  qown (g l) = Some t ∧ shape (node s) (que (g l)) (rpc r) ∧ free g ρ t ∧ used t.
Proof.
  intros HI Hr Hp. assert (Hq : qown (g l) = Some t) by (apply (wi_qown _ _ _ HI); by rewrite Hr).
  assert (Ht : used t) by (apply (used_pc s g ρ t r); [done|done|intros E; by rewrite E in Hp]).
  split; [done|]. split; [|split; [|done]].
  - pose proof (wi_shape _ _ _ HI l) as HS. unfold queue_pc in HS. by rewrite Hq, Hr in HS.
  - apply (free_pc s); [done|done|]. rewrite Hr. intros l' E. by rewrite E in Hp.
Qed.

Lemma w_scan_step s g ρ t r l m c v p :
  WInv s g ρ → ρ t = r → rpc r = QScan l m (c :: v) p →
  WInv (upd_node (hd (v ++ p)) (set_prev c) s)
    (<[l := MkLG (own (g l)) (qown (g l)) (que (g l))]> g)
    (<[t := at_pc r (QScan l (m ++ [c]) v p)]> ρ).
Proof.
  intros HI Hr Hpc. destruct (queue_shape s g ρ t r l HI Hr) as (Hq & HS & Hf & Ht); [by rewrite Hpc|].
  rewrite Hpc in HS. destruct HS as (u & Eq & HS).
  pose proof (wi_nodup _ _ _ HI l) as Hnd. rewrite Eq in Hnd.
  destruct (scan_step _ _ _ _ _ _ Hnd HS) as [Ey HS']. rewrite Ey in HS'.
  assert (Hy : hd (v ++ p) ∈ que (g l)).
  { rewrite Eq. pose proof (hd_in (v ++ p)) as Hh. pose proof (sc_ne _ _ _ _ _ HS).
    assert (v ++ p ≠ []) by (by destruct v, p). set_solver. }
  apply w_nodes; rewrite ?Hpc; try done.
  - by intros l' [= <-].
  - by intros l' [= <-].
  - intros x Hx Hx'. rewrite fn_insert_ne; [done|]. by intros <-.
  - intros x Hx. by fn_cases (hd (v ++ p)) x.
  - apply HI.
  - auto.
  - rewrite decide_True by done. exists u. split; [rewrite Eq; by rewrite <- !app_assoc|done].
Qed.

Lemma w_scan_end s g ρ t r l m p :
  WInv s g ρ → ρ t = r → rpc r = QScan l m [] p →
  WInv (upd_node (hd (m ++ p)) (set_tail (lst p)) s)
    (<[l := MkLG (own (g l)) (qown (g l)) (que (g l))]> g)
    (<[t := at_pc r (QDone l (m ++ p))]> ρ).
Proof.
  intros HI Hr Hpc. destruct (queue_shape s g ρ t r l HI Hr) as (Hq & HS & Hf & Ht); [by rewrite Hpc|].
  rewrite Hpc in HS. destruct HS as (u & Eq & HS).
  pose proof (wi_nodup _ _ _ HI l) as Hnd. rewrite Eq in Hnd.
  pose proof (scan_end _ _ _ _ Hnd HS) as HS'.
  assert (Hy : hd (m ++ p) ∈ que (g l)).
  { rewrite Eq. pose proof (hd_in (m ++ p)) as Hh. pose proof (sc_ne _ _ _ _ _ HS).
    assert (m ++ p ≠ []) by (by destruct m, p). set_solver. }
  apply w_nodes; rewrite ?Hpc; try done.
  - by intros l' [= <-].
  - by intros l' [= <-].
  - intros x Hx Hx'. rewrite fn_insert_ne; [done|]. by intros <-.
  - intros x Hx. by fn_cases (hd (m ++ p)) x.
  - apply HI.
  - auto.
  - rewrite decide_True by done. by exists u.
Qed.

Lemma w_pop s g ρ t r l p x :
  WInv s g ρ → ρ t = r → rpc r = QDone l (p ++ [x]) → p ≠ [] →
  ∃ q, que (g l) = q ++ p ++ [x] ∧
  WInv (upd_node (hd p) (set_tail (lst p)) s)
    (<[l := MkLG (own (g l)) (qown (g l)) (q ++ p)]> g) (<[t := at_pc r (QPop l x)]> ρ).
Proof.
  intros HI Hr Hpc Hp.
  destruct (queue_shape s g ρ t r l HI Hr) as (Hq & HS & Hf & Ht); [by rewrite Hpc|].
  rewrite Hpc in HS. destruct HS as (q & Eq & HS). exists q. split; [done|].
  pose proof (wi_nodup _ _ _ HI l) as Hnd. rewrite Eq in Hnd.
  destruct (scan_pop _ _ _ _ Hnd Hp HS) as [_ HS'].
  assert (Hy : hd p ∈ que (g l)) by (rewrite Eq; pose proof (hd_in p Hp); set_solver).
  assert (Hx : x ∉ q ++ p).
  { rewrite app_assoc in Hnd. apply NoDup_app in Hnd as (_ & Hn & _). intros Hx.
    apply (Hn x Hx). set_solver. }
  apply w_nodes; rewrite ?Hpc; try done.
  - by intros l' [= <-].
  - by intros l' [= <-].
  - intros y Hy1 Hy2. rewrite fn_insert_ne; [done|]. by intros <-.
  - intros y _. by fn_cases (hd p) y.
  - rewrite app_assoc in Hnd. by apply NoDup_app in Hnd as (? & _).
  - rewrite Eq. by destruct q, p.
  - intros y. rewrite Eq. set_solver.
  - intros y. rewrite Eq, !elem_of_app, list_elem_of_singleton. cbn. intros [?|[?| ->]]; auto.
  - intros l' y [= <- <-]. split; [done|]. rewrite Eq. set_solver.
  - rewrite decide_True by done. right. by exists q, p.
Qed.

(** The only thread is taken off, and the queue lock released. *)
Lemma w_take_last s g ρ t r l x :
  WInv s g ρ → ρ t = r → rpc r = QDone l [x] → que (g l) = [x] → own (g l) = None →
  WInv (set_word l (enc_lock (MkLG (own (g l)) None [])) s)
    (<[l := MkLG (own (g l)) None []]> g) (<[t := at_pc r (Pop l x)]> ρ).
Proof.
  intros HI Hr Hpc Eq Ho.
  destruct (queue_shape s g ρ t r l HI Hr) as (Hq & _ & Hf & Ht); [by rewrite Hpc|].
  apply (w_step s); cbn; rewrite ?Hr, ?Hpc, ?Eq; try done.
  - intros l'. by fn_cases l l'; [rewrite decide_True|rewrite decide_False].
  - constructor.
  - set_solver.
  - intros y ->%list_elem_of_singleton. by right.
  - intros l' y [= <- <-]. right. set_solver.
  - intros u Hu. rewrite Hq. split; [congruence|done].
  - intros l' Hl. cbn. split; [done|]. by intros [= <-].
  - intros l' Hl [= <-]. done.
  - by left.
  - intros l' Hl. rewrite <- Hr in Hl. apply (wi_held _ _ _ HI) in Hl.
    by destruct (decide (l' = l)) as [->|].
  - by intros l' Hl [].
  - rewrite <- Hr. apply HI.
  - intros l' u Hu. destruct (decide (u = t)) as [->|]; [|done]. rewrite <- Hr. by apply (wi_live _ _ _ HI).
  - apply HI.
Qed.

(** It is released. *)
Lemma w_unpark s g ρ t r l x :
  WInv s g ρ → ρ t = r → rpc r = Pop l x →
  WInv (upd_node x (set_parked false) s) g (<[t := at_pc r Idle]> ρ).
Proof.
  intros HI Hr Hpc. pose proof HI as [I0 I1 I2 I3 I4 I5 I6 I7 I8 I9 I10 I11 I12 I13 I14].
  assert (Hcx : pc_cust (rpc (ρ t)) = Some (l, x)) by (by rewrite Hr, Hpc).
  destruct (I5 t l x Hcx) as (w & -> & Hw & Hpk & Hnq).
  assert (Huw : used w) by (apply I0; by rewrite Hw).
  assert (Hwt : w ≠ t) by (intros ->; rewrite Hr, Hpc in Hw; done).
  assert (Hother : ∀ v l' y, pc_cust (rpc ((<[t := at_pc r Idle]> ρ : tid → role) v)) = Some (l', y) →
            v ≠ t ∧ y ≠ addr w ∧ pc_cust (rpc (ρ v)) = Some (l', y)).
  { intros v l' y. destruct (decide (v = t)) as [->|Hv]; fn_simp; [done|]. intros Hy.
    split; [done|]. split; [|done]. intros ->. destruct (I5 v l' _ Hy) as (w' & E & Hw' & _).
    apply (wait_inj s g ρ w w' l' HI Huw Hw') in E. subst w'. assert (l' = l) as -> by congruence. by apply Hv, (I6 v t l (addr w)). }
  assert (Hnin : ∀ l' y, y ∈ que (g l') → y ≠ addr w).
  { intros l' y Hin ->. destruct (I3 _ _ Hin) as (w' & E & Hw' & _).
    apply (wait_inj s g ρ w w' l' HI Huw Hw') in E. subst w'.
    assert (l' = l) as -> by congruence. done. }
  assert (Hnode : ∀ y, y ≠ addr w → node (upd_node (addr w) (set_parked false) s) y = node s y).
  { intros y Hy. cbn. by rewrite fn_insert_ne by congruence. }
  split; try done.
  - intros u. destruct (decide (u = t)) as [->|Hu]; fn_simp; [done|apply I0].
  - intros l' y Hy. destruct (I3 l' y Hy) as (u & -> & Hu & Hp). exists u.
    assert (t ≠ u) by (intros <-; by rewrite Hr, Hpc in Hu). fn_simp.
    rewrite Hnode by (by apply (Hnin l')). done.
  - intros u l' Hu Hp. assert (Hut : u ≠ t) by (intros ->; by fn_simp). fn_simp.
    assert (Hauw : addr u ≠ addr w) by (intros E; rewrite E in Hp; cbn in Hp; by fn_simp).
    rewrite Hnode in Hp by done. destruct (I4 u l' Hu Hp) as [?|[v Hv]]; [by left|right].
    exists v. assert (t ≠ v) by (intros <-; congruence). by fn_simp.
  - intros v l' y (Hv & Hy & Hc)%Hother. destruct (I5 v l' y Hc) as (u & -> & Hu & Hp & Hq).
    exists u. assert (t ≠ u) by (intros <-; by rewrite Hr, Hpc in Hu). fn_simp.
    by rewrite Hnode.
  - intros u v l' y (_ & _ & Hu)%Hother (_ & _ & Hv)%Hother. by apply (I6 u v l' y).
  - intros l'. assert (queue_pc g (<[t := at_pc r Idle]> ρ) l' = queue_pc g ρ l') as ->.
    { unfold queue_pc. destruct (qown (g l')) as [u|] eqn:E; [|done]. apply I8 in E.
      assert (t ≠ u) by (intros <-; by rewrite Hr, Hpc in E). by fn_simp. }
    eapply shape_frame; [|apply I7]. intros y Hy. by apply Hnode, (Hnin l').
  - intros l' u. destruct (decide (u = t)) as [->|Hu]; fn_simp; [|apply I8].
    rewrite I8, Hr, Hpc. done.
  - intros u l'. destruct (decide (u = t)) as [->|Hu]; fn_simp; [|apply I9].
    cbn. rewrite <- Hr. apply I9.
  - intros l' H1 H2. destruct (I10 l' H1 H2) as [?|[v Hv]]; [by left|right]. exists v.
    assert (t ≠ v) by (intros <-; by rewrite Hr, Hpc in Hv). by fn_simp.
  - intros u l' d. destruct (decide (u = t)) as [->|Hu]; fn_simp; [done|]. intros Hs.
    rewrite Hnode; [by apply (I11 u l')|].
    apply (addr_ne s g ρ); [done|done|by rewrite Hs|]. intros ->. congruence.
  - intros u. destruct (decide (u = t)) as [->|Hu]; fn_simp; [|apply I12].
    cbn. rewrite <- Hr. apply I12.
  - intros l' u Hu. apply I13 in Hu. destruct (decide (u = t)) as [->|Hut]; fn_simp; [|done].
    cbn. by rewrite <- Hr.
Qed.

(** A thread that finds its flag cleared is on its way. *)
Lemma w_woken s g ρ t r l :
  WInv s g ρ → ρ t = r → rpc r = Wait l → parked (node s (addr t)) = false →
  WInv s (<[l := MkLG (own (g l)) (qown (g l)) (que (g l))]> g) (<[t := at_pc r (Slow l None)]> ρ).
Proof.
  intros HI Hr Hpc Hp. apply w_pc; rewrite ?Hpc; try done.
  - apply (used_pc s g ρ t r); [done|done|by rewrite Hpc].
  - by eapply free_parked.
  - by intros l' [= <-].
  - by intros l' [= <-].
Qed.

(** Critical sections. *)
Lemma w_live s g ρ t r gs ts l :
  WInv s g ρ → ρ t = r → used t → rpc r = Idle → gs ⊆ held r → NoDup ts →
  (∀ u, u ∈ ts → if decide (u = t) then l ∈ gs else u ∈ live s l) →
  (∀ l', l' ≠ l → t ∈ live s l' → l' ∈ gs) →
  WInv (set_live l ts s) (<[l := MkLG (own (g l)) (qown (g l)) (que (g l))]> g)
    (<[t := MkRole (held r) gs Idle]> ρ).
Proof.
  intros HI Hr Ht Hpc Hgs Hts Hl Hl'.
  apply (w_step s); cbn; rewrite ?Hr, ?Hpc; try done; try (by apply HI).
  - apply (free_pc s); [done|done|]. by rewrite Hr, Hpc.
  - intros l'. by apply (word_refl _ _ _ _ _ HI).
  - auto.
  - auto.
  - rewrite (wi_qown _ _ _ HI), Hr, Hpc. done.
  - pose proof (wi_shape _ _ _ HI l) as HS. unfold queue_pc in HS.
    destruct (qown (g l)) as [u|] eqn:E; [|done]. case_decide; [subst u|done].
    apply (wi_qown _ _ _ HI) in E. by rewrite Hr, Hpc in E.
  - intros l' Hh. rewrite <- Hr in Hh. apply (wi_held _ _ _ HI) in Hh.
    by destruct (decide (l' = l)) as [->|].
  - intros H1 H2. destruct (wi_wake _ _ _ HI l H1 H2) as [?|[v Hv]]; [by left|right; right].
    exists v. split; [|done]. intros ->. by rewrite Hr, Hpc in Hv.
  - by intros l' _ [].
  - intros l' u. fn_cases l l'; [apply Hl|]. intros Hu. case_decide; [subst u|done].
    by apply Hl'.
  - intros l'. fn_cases l l'; [done|apply HI].
Qed.

(** ** Verified operations *)

Definition w_blocked (t : tid) (r : role) (s : state) : Prop :=
  ∃ l, rpc r = Wait l ∧ parked (node s (addr t)) = true.

Abbreviation wwp := (wp exec WInv (λ (_ : string) (_ : role), False) w_blocked).

Ltac w_always := intros; left; exists 0; cbn; repeat case_match; by eexists.

(** A value read from a word. *)
Definition wordlike (v : Z) : Prop := ∃ lk ql h, aligned h ∧ v = enc lk ql h.

Lemma word_like s g ρ l : WInv s g ρ → wordlike (word s l).
Proof.
  intros HI. rewrite (wi_word _ _ _ HI). do 3 eexists. split; [by eapply hd_aligned|done].
Qed.

(** What a word says about the ghost state. *)
Lemma word_says s g ρ l :
  WInv s g ρ →
  is_locked (word s l) = bool_decide (is_Some (own (g l))) ∧
  is_queue_locked (word s l) = bool_decide (is_Some (qown (g l))) ∧
  queue_head (word s l) = hd (que (g l)).
Proof.
  intros HI. pose proof (hd_aligned _ _ _ l HI). rewrite (wi_word _ _ _ HI). unfold enc_lock.
  by rewrite is_locked_enc, is_queue_locked_enc, queue_head_enc.
Qed.

(** The test of [unlock] and [unlock_slow]. *)
Lemma word_done s g ρ l :
  WInv s g ρ →
  is_queue_locked (word s l) || (queue_head (word s l) =? 0) =
  bool_decide (is_Some (qown (g l)) ∨ que (g l) = []).
Proof.
  intros HI. destruct (word_says _ _ _ l HI) as (_ & -> & ->).
  apply eq_iff_eq_true. rewrite orb_true_iff, !bool_decide_eq_true, Z.eqb_eq.
  split; intros [?|E]; auto; [by right; eapply que_nil|by rewrite E; right].
Qed.

(** Actions that change nothing. *)
Lemma w_wp_look {A} t (a : act) (k : resp a → wprog A) r Q :
  (∀ c s s' v, exec t c a s = Some (s', v) → s' = s) → (∀ s, is_Some (exec t 0 a s)) →
  (∀ s g ρ c v, WInv s g ρ → ρ t = r → exec t c a s = Some (s, v) → wwp t (k v) r Q) →
  wwp t (Act a k) r Q.
Proof.
  intros Hs Hen Hk. apply wp_act; [intros; left; exists 0; apply Hen|].
  intros s g ρ c s' v Hr HI Hex. pose proof (Hs _ _ _ _ Hex) as ->.
  exists g, r. split; [by apply w_same|eauto].
Qed.

Lemma w_wp_load {A} t l (k : Z → wprog A) r Q :
  (∀ v, wordlike v → wwp t (k v) r Q) → wwp t (Act (ALoad l) k) r Q.
Proof.
  intros Hk. apply w_wp_look; [by intros; simplify_eq/=|by eexists|].
  intros s g ρ c v HI Hr Hex. cbn in Hex. injection Hex as <-. apply Hk. by eapply word_like.
Qed.

(** A compare-exchange either fails, and returns the word, or finds it as
    expected. *)
Lemma w_wp_cas {A} t l old new (k : bool * Z → wprog A) r Q :
  (∀ s g ρ, WInv s g ρ → ρ t = r →
     ∃ g' r', WInv s g' (<[t := r']> ρ) ∧ wwp t (k (false, word s l)) r' Q) →
  (∀ s g ρ, WInv s g ρ → ρ t = r → word s l = old →
     ∃ g' r', WInv (set_word l new s) g' (<[t := r']> ρ) ∧ wwp t (k (true, old)) r' Q) →
  wwp t (Act (ACas l old new) k) r Q.
Proof.
  intros Hf Hok. apply wp_act; [w_always|]. intros s g ρ c s' v Hr HI Hex. cbn in Hex.
  destruct (negb (c =? 0)); [|destruct (Z.eqb_spec (word s l) old) as [E|E]];
    injection Hex as <- <-; [by apply (Hf s g)|by apply (Hok s g)|by apply (Hf s g)].
Qed.

Lemma w_wp_cas_lock {A} t l v (k : bool * Z → wprog A) r Q :
  used t → (rpc r = Idle ∨ ∃ d, rpc r = Slow l d) → wordlike v → is_locked v = false →
  wwp t (k (true, v)) (MkRole (l :: held r) (guards r) Idle) Q →
  (∀ v', wordlike v' → wwp t (k (false, v')) r Q) →
  wwp t (Act (ACas l v (Z.lor v LOCKED_BIT)) k) r Q.
Proof.
  intros Ht Hpc (lk & ql & h & Ha & ->) Hl Hok Hf. rewrite is_locked_enc in Hl by done. subst lk.
  rewrite lock_enc by done. apply w_wp_cas.
  - intros s g ρ HI Hr. exists g, r. split; [by apply w_same|]. apply Hf. by eapply word_like.
  - intros s g ρ HI Hr E. rewrite (wi_word _ _ _ HI) in E.
    apply enc_inj in E as (E1 & E2 & E3); [|by eapply hd_aligned|done].
    apply bool_decide_eq_false in E1. rewrite <- eq_None_not_Some in E1.
    eexists _, _. split; [|exact Hok]. rewrite <- E2, <- E3.
    by apply (w_lock s g ρ t r l HI Hr Ht Hpc E1).
Qed.

(** Preparing the node: we know what it holds. *)
Lemma w_wp_set_own {A} t l od f (k : unit → wprog A) r Q :
  rpc r = Slow l od →
  (∀ d, (∀ d0, od = Some d0 → d = d0) → wwp t (k tt) (at_pc r (Slow l (Some (f d)))) Q) →
  wwp t (Act (ASet (addr t) f) k) r Q.
Proof.
  intros Hpc Hk. apply wp_act; [w_always|]. intros s g ρ c s' x Hr HI Hex. cbn in Hex.
  injection Hex as <- <-. eexists _, _. split; [by eapply w_own_node|]. apply Hk.
  intros d0 ->. apply (wi_node _ _ _ HI t l). by rewrite Hr.
Qed.

(** The node is ready to be pushed on a queue with head [h]. *)
Definition node_ready t (h : Z) (d : ThreadData) : Prop :=
  parked d = true ∧ prev d = 0 ∧ queue_tail d = (if h =? 0 then addr t else 0) ∧
  (h ≠ 0 → next d = h).

Lemma w_wp_cas_push {A} t l d v (k : bool * Z → wprog A) r Q :
  used t → rpc r = Slow l (Some d) → wordlike v → is_locked v = true → node_ready t (queue_head v) d →
  wwp t (k (true, v)) (at_pc r (Wait l)) Q →
  (∀ v', wordlike v' → wwp t (k (false, v')) r Q) →
  wwp t (Act (ACas l v (with_queue_head v (addr t))) k) r Q.
Proof.
  intros Ht Hpc (lk & ql & h & Ha & ->) Hl Hrd Hok Hf. rewrite is_locked_enc in Hl by done. subst lk.
  rewrite queue_head_enc in Hrd by done. destruct Hrd as (R1 & R2 & R3 & R4).
  rewrite with_queue_head_enc by (done || by apply addr_ok). apply w_wp_cas.
  - intros s g ρ HI Hr. exists g, r. split; [by apply w_same|]. apply Hf. by eapply word_like.
  - intros s g ρ HI Hr E. rewrite (wi_word _ _ _ HI) in E.
    apply enc_inj in E as (E1 & E2 & E3); [|by eapply hd_aligned|done].
    eexists _, _. split; [|exact Hok].
    assert (Hnil : que (g l) = [] ↔ h = 0).
    { rewrite <- E3. split; [by intros ->|by apply (que_nil s g ρ l HI)]. }
    assert (Eenc : enc true ql (addr t) =
      enc_lock (MkLG (own (g l)) (qown (g l)) (addr t :: que (g l)))).
    { unfold enc_lock. cbn. by rewrite E1, E2. }
    rewrite Eenc. apply (w_push s g ρ t r l d HI Hr Hpc); try done.
    + by apply bool_decide_eq_true in E1.
    + rewrite R3. destruct (Z.eqb_spec h 0) as [e|e]; case_decide as e2; tauto.
    + intros Hne. rewrite E3. apply R4. tauto.
Qed.

(** What [lock_slow] carries from one turn to the next. *)
Definition slow_post l r (x : SpinWait.t * Z) (r' : role) : Prop :=
  wordlike x.2 ∧ ∃ od, r' = at_pc r (Slow l od).

Lemma w_wp_reload t l sw r od :
  wwp t (load l) (at_pc r (Slow l od)) (λ v r', wwp t (Ret (sw, v)) r' (slow_post l r)).
Proof. apply w_wp_load. intros v Hv. wp_pure. split; [done|]. by exists od. Qed.

Lemma w_wp_push_and_park t l sw v r od :
  used t → wordlike v → is_locked v = true →
  wwp t (push_and_park (addr t) l sw v) (at_pc r (Slow l od)) (slow_post l r).
Proof.
  intros Ht Hv Hl. unfold push_and_park, set. wp_pure. eapply w_wp_set_own; [done|].
  intros d0 _. wp_pure.
  assert (Hcas : ∀ d, node_ready t (queue_head v) d →
    wwp t (compare_exchange_weak l v (with_queue_head v (addr t))) (at_pc r (Slow l (Some d)))
      (λ y r', wwp t (if negb y.1 then Ret (sw, y.2)
        else Act (APark (addr t)) (λ _, Bind (load l) (λ state, Ret (SpinWait.reset sw, state))))
        r' (slow_post l r))).
  { intros d Hd. apply (w_wp_cas_push t l d); [done|done|done|done|done|..].
    - wp_pure. apply wp_act.
      { intros s g ρ _ _. destruct (parked (node s (addr t))) eqn:E; [right; exists l; done|].
        left. exists 0. cbn. rewrite E. by eexists. }
      intros s g ρ c s' x Hr HI Hex. cbn in Hex.
      destruct (parked (node s (addr t))) eqn:Hp; [done|]. injection Hex as <- <-.
      eexists _, _. split; [by eapply (w_woken s g ρ t _ l HI Hr)|]. wp_pure. apply (w_wp_reload t l _ r None).
    - intros v' Hv'. wp_pure. split; [done|]. by exists (Some d). }
  destruct (Z.eqb_spec (queue_head v) 0) as [E|E]; wp_pure.
  - eapply w_wp_set_own; [done|]. intros d1 Hd1. rewrite (Hd1 _ eq_refl). wp_pure.
    eapply w_wp_set_own; [done|]. intros d2 Hd2. rewrite (Hd2 _ eq_refl). wp_pure.
    apply Hcas. rewrite E. by split.
  - eapply w_wp_set_own; [done|]. intros d1 Hd1. rewrite (Hd1 _ eq_refl). wp_pure.
    eapply w_wp_set_own; [done|]. intros d2 Hd2. rewrite (Hd2 _ eq_refl). wp_pure.
    eapply w_wp_set_own; [done|]. intros d3 Hd3. rewrite (Hd3 _ eq_refl). wp_pure.
    apply Hcas. split; [done|]. split; [done|]. split; [|done].
    by destruct (Z.eqb_spec (queue_head v) 0).
Qed.

Definition lock_turn_post l r (Q : role → Prop) (y : (SpinWait.t * Z) + unit) (r' : role) : Prop :=
  match y with inl y => slow_post l r y r' | inr _ => Q r' end.

Lemma w_wp_lock_turn t l sw v r od Q :
  used t → wordlike v → Q (MkRole (l :: held r) (guards r) Idle) →
  wwp t (lock_turn cheap (addr t) l (sw, v)) (at_pc r (Slow l od))
    (lock_turn_post l r Q).
Proof.
  intros Ht Hv HQ. unfold lock_turn. destruct (is_locked v) eqn:Hl; cbn [negb].
  2:{ unfold compare_exchange_weak. wp_pure.
      apply w_wp_cas_lock; [done|by right; exists od|done|done|by wp_pure|].
      intros v' Hv'. wp_pure. split; [done|]. by exists od. }
  assert (Hpush : ∀ sw, wwp t (with_thread_data cheap (addr t)
        (λ td, push_and_park td l sw v)) (at_pc r (Slow l od))
      (λ y r', wwp t (Ret (inl y : (SpinWait.t * Z) + unit)) r'
        (lock_turn_post l r Q))).
  { intros sw'. unfold with_thread_data, set. destruct cheap; wp_pure.
    - eapply w_wp_set_own; [done|]. intros d _. wp_pure.
      eapply wp_mono; [|by apply (w_wp_push_and_park t l sw' v r)]. intros x r' Hx. by wp_pure.
    - eapply wp_mono; [|by apply (w_wp_push_and_park t l sw' v r)]. intros x r' Hx. by wp_pure. }
  destruct (queue_head v =? 0); wp_pure; [|apply Hpush].
  unfold spin. destruct (SpinWait.spin sw) as [[[] [bo|]] sw']; wp_pure; [|..].
  - apply w_wp_look; [by intros; simplify_eq/=|by eexists|]. intros s g ρ c y _ _ _. wp_pure.
    apply w_wp_load. intros v' Hv'. wp_pure. split; [done|]. by exists od.
  - apply w_wp_load. intros v' Hv'. wp_pure. split; [done|]. by exists od.
  - apply w_wp_look; [by intros; simplify_eq/=|by eexists|]. intros s g ρ c y _ _ _. wp_pure.
    apply Hpush.
  - apply Hpush.
Qed.

Lemma w_wp_lock t l r Q :
  used t → rpc r = Idle → Q tt (MkRole (l :: held r) (guards r) Idle) →
  wwp t (lock cheap (addr t) l) r Q.
Proof.
  intros Ht Hpc HQ. unfold lock, compare_exchange_weak. wp_pure.
  apply (w_wp_cas_lock t l 0); [done|by left| |done|by wp_pure|].
  { exists false, false, 0. split; [apply aligned_0|done]. }
  intros v _. unfold lock_slow, load. wp_pure. apply wp_act; [w_always|].
  intros s g ρ c s' x Hr HI Hex. cbn in Hex. injection Hex as <- <-.
  eexists _, (at_pc r (Slow l None)). split.
  { apply (w_pc s g ρ t r (Slow l None) l HI Hr); rewrite ?Hpc; try done; [|by intros l' [= <-]].
    apply (free_pc s); [done|done|]. by rewrite Hr, Hpc. }
  pose proof (word_like _ _ _ l HI) as Hv. wp_pure.
  apply (wp_iter _ _ _ _ _ (slow_post l r)); [by split; [|exists None]|].
  clear s g ρ c Hr HI Hv. intros [sw v'] ? [Hv [od ->]]. cbn [snd] in Hv.
  eapply wp_mono; [|by apply (w_wp_lock_turn t l sw v' r od (Q tt))].
  by intros [x|[]] r'.
Qed.

(** ** Unlocking *)

(** Whether there is anything left to do. *)
Definition decided l (v : Z) (r : role) : role :=
  if is_queue_locked v || (queue_head v =? 0) then at_pc r Idle else at_pc r (Un l).

Lemma w_decided s g ρ t r l :
  WInv s g ρ → ρ t = r → rpc r = Un l →
  WInv s (<[l := MkLG (own (g l)) (qown (g l)) (que (g l))]> g)
    (<[t := decided l (word s l) r]> ρ).
Proof.
  intros HI Hr Hpc. unfold decided. rewrite (word_done _ _ _ _ HI).
  assert (Ht : used t) by (apply (used_pc s g ρ t r); [done|done|by rewrite Hpc]).
  assert (Hf : free g ρ t) by (apply (free_pc s); [done|done|]; by rewrite Hr, Hpc).
  case_bool_decide as Hd; apply w_pc; rewrite ?Hpc; try done; try (by intros l' [= <-]).
  intros _ Hne _ Hq. destruct Hd as [[? ?]|?]; congruence.
Qed.

Lemma w_wp_unpark t l x r (Q : Z + unit → role → Prop) :
  rpc r = Pop l x → Q (inr tt) (at_pc r Idle) → wwp t (unpark x) r Q.
Proof.
  intros Hpc HQ. apply wp_act; [w_always|]. intros s g ρ c s' y Hr HI Hex. cbn in Hex.
  injection Hex as <- <-. exists g, (at_pc r Idle). split; [by eapply w_unpark|].
  apply w_wp_look; [by intros; simplify_eq/=|by eexists|]. intros. by wp_pure.
Qed.

Lemma w_wp_fence t l r Q : Q tt r → wwp t (fence_acquire tsan l) r Q.
Proof.
  intros HQ. unfold fence_acquire, load. destruct tsan; wp_pure; [|done].
  apply w_wp_load. intros v _. by wp_pure.
Qed.

(** The members of a queue are not null. *)
Lemma in_queue_ne s g ρ l x : WInv s g ρ → x ∈ que (g l) → x ≠ 0.
Proof.
  intros HI (t & -> & Ht & _)%(wi_in _ _ _ HI). apply addr_ok, (wi_used _ _ _ HI). by rewrite Ht.
Qed.

(** The scan goes from the head to a node that knows the tail. *)
Lemma w_wp_scan t l v p r Q :
  p ≠ [] →
  (∀ m, hd (m ++ p) = hd (v ++ p) → Q (lst p) (at_pc r (QScan l m [] p))) →
  wwp t (Iter scan_turn (hd (v ++ p))) (at_pc r (QScan l [] v p)) Q.
Proof.
  intros Hp HQ. set (h := hd (v ++ p)) in *.
  apply (wp_iter _ _ _ _ _ (λ c r', ∃ m v', r' = at_pc r (QScan l m v' p) ∧
    c = hd (v' ++ p) ∧ hd (m ++ v' ++ p) = h)); [by exists [], v|].
  intros c ? (m & v' & -> & -> & Hh). unfold scan_turn, get_queue_tail, get_next, set.
  wp_pure. apply w_wp_look; [by intros; simplify_eq/=|by eexists|].
  intros s g ρ ch d HI Hr Hex. cbn in Hex. injection Hex as <-.
  destruct (queue_shape s g ρ t _ l HI Hr) as (_ & (q & Eq & HS) & _); [done|]. wp_pure.
  destruct v' as [|c v'].
  - cbn [app]. rewrite (sc_tail _ _ _ _ _ HS).
    assert (lst p ≠ 0).
    { apply (in_queue_ne s g ρ l _ HI). rewrite Eq. pose proof (lst_in p Hp). set_solver. }
    destruct (Z.eqb_spec (lst p) 0); [done|]. wp_pure. by apply HQ.
  - cbn [app hd]. rewrite (sc_null _ _ _ _ _ HS) by set_solver.
    rewrite Z.eqb_refl. wp_pure.
    clear s g ρ ch HI Hr q Eq HS. apply w_wp_look; [by intros; simplify_eq/=|by eexists|].
    intros s g ρ ch d HI Hr Hex. cbn in Hex. injection Hex as <-.
    destruct (queue_shape s g ρ t _ l HI Hr) as (_ & (q & Eq & HS) & _); [done|]. wp_pure.
    pose proof (wi_nodup _ _ _ HI l) as Hnd. rewrite Eq in Hnd.
    destruct (scan_step _ _ _ _ _ _ Hnd HS) as [-> _].
    clear s g ρ ch HI Hr q Eq HS Hnd. apply wp_act; [w_always|].
    intros s g ρ ch s' x Hr HI Hex. cbn in Hex. injection Hex as <- <-.
    eexists _, _. split; [by eapply w_scan_step|]. wp_pure. exists (m ++ [c]), v'.
    split; [done|]. split; [done|]. rewrite <- Hh. by rewrite <- app_assoc.
Qed.

(** What a turn of the outer loop starts from. *)
Definition outer_pre l r (v : Z) (r' : role) : Prop :=
  wordlike v ∧ ∃ q p, r' = at_pc r (QScan l [] q p) ∧ p ≠ [] ∧ queue_head v = hd (q ++ p).

(** A failed compare-exchange with the queue lock held: scan again. *)
Lemma w_rescan s g ρ t r l p :
  WInv s g ρ → ρ t = r → rpc r = QDone l p →
  ∃ q g', p ≠ [] ∧ queue_head (word s l) = hd (q ++ p) ∧ queue_head (word s l) ≠ 0 ∧
    WInv s g' (<[t := at_pc r (QScan l [] q p)]> ρ).
Proof.
  intros HI Hr Hpc.
  destruct (queue_shape s g ρ t r l HI Hr) as (_ & HS & Hf & Ht); [by rewrite Hpc|].
  rewrite Hpc in HS. destruct HS as (q & Eq & HS).
  exists q, (<[l := MkLG (own (g l)) (qown (g l)) (que (g l))]> g).
  destruct (word_says _ _ _ l HI) as (_ & _ & ->). pose proof (sc_ne _ _ _ _ _ HS) as Hp.
  split; [done|]. split; [by rewrite Eq|]. split.
  { intros E%(que_nil _ _ _ _ HI). rewrite E in Eq. by destruct q, p. }
  apply w_pc; rewrite ?Hpc; try done; try (by intros l' [= <-]).
  intros _ _. exists []. split; [by rewrite Eq|]. by apply scan_start.
Qed.

Lemma w_wp_cas_rescan {A} t l p old new (k : bool * Z → wprog A) r Q :
  rpc r = QDone l p →
  (∀ v q, wordlike v → p ≠ [] → queue_head v = hd (q ++ p) → queue_head v ≠ 0 →
     wwp t (k (false, v)) (at_pc r (QScan l [] q p)) Q) →
  (∀ s g ρ, WInv s g ρ → ρ t = r → word s l = old →
     ∃ g' r', WInv (set_word l new s) g' (<[t := r']> ρ) ∧ wwp t (k (true, old)) r' Q) →
  wwp t (Act (ACas l old new) k) r Q.
Proof.
  intros Hpc Hf Hok. apply w_wp_cas; [|done]. intros s g ρ HI Hr.
  destruct (w_rescan s g ρ t r l p HI Hr Hpc) as (q & g' & Hp & Hq & Hne & HI').
  exists g', (at_pc r (QScan l [] q p)). split; [done|]. apply Hf; [by eapply word_like|done..].
Qed.

(** The end of a turn when the lock is taken: leave it to its owner. *)
Lemma w_wp_turn_locked t l v p r Q :
  wordlike v → is_locked v = true → rpc r = QDone l p →
  Q (inr tt) (at_pc r Idle) → (∀ v' r', outer_pre l r v' r' → Q (inl v') r') →
  wwp t (Bind (compare_exchange_weak l v (clear_bits v QUEUE_LOCKED_BIT)) (λ x : bool * Z,
    if x.1 : bool then Ret (inr tt)
    else Bind (fence_acquire tsan l) (λ _, Ret (inl x.2 : Z + unit)))) r Q.
Proof.
  intros (lk & ql & h & Ha & ->) Hl Hpc HQ HR. rewrite is_locked_enc in Hl by done. subst lk.
  rewrite queue_unlock_enc by done. unfold compare_exchange_weak. wp_pure.
  apply (w_wp_cas_rescan t l p); [done|..].
  - intros v q Hv Hp Hq _. wp_pure. apply w_wp_fence. wp_pure. apply HR. split; [done|].
    by exists q, p.
  - intros s g ρ HI Hr E. rewrite (wi_word _ _ _ HI) in E.
    apply enc_inj in E as (E1 & _ & E3); [|by eapply hd_aligned|done].
    destruct (queue_shape s g ρ t r l HI Hr) as (_ & HS & _); [by rewrite Hpc|].
    rewrite Hpc in HS. destruct HS as (q & Eq & HS).
    eexists _, _. split; [|wp_pure; exact HQ].
    assert (Eenc : enc true false h = enc_lock (MkLG (own (g l)) None (que (g l)))).
    { unfold enc_lock. cbn. by rewrite E1, E3. }
    rewrite Eenc. apply (w_queue_unlock s g ρ t r Idle l HI Hr); rewrite ?Hpc; try done.
    + by left.
    + right. exists q, p. by rewrite Eq.
    + left. by apply bool_decide_eq_true in E1.
Qed.

(** Taking off the only thread. *)
Lemma w_wp_take_last t l v x r Q :
  wordlike v → is_locked v = false → rpc r = QDone l [x] → queue_head v = x →
  Q (inr tt) (at_pc r Idle) → (∀ v' r', outer_pre l r v' r' → Q (inl v') r') →
  wwp t (Bind (Iter (take_last_turn tsan l) v) (λ y : Z + unit,
    match y with inl state => Ret (inl state) | inr _ => unpark x end)) r Q.
Proof.
  intros Hv Hl Hpc Hx HQ HR. wp_pure.
  apply (wp_iter _ _ _ _ _ (λ v' r', v' = v ∧ r' = r)); [done|]. intros ? ? [-> ->].
  destruct Hv as (lk & ql & h & Ha & ->). rewrite is_locked_enc in Hl by done. subst lk.
  rewrite queue_head_enc in Hx by done. subst h.
  unfold take_last_turn, compare_exchange_weak. rewrite take_last_enc by done. wp_pure.
  apply (w_wp_cas_rescan t l [x]); [done|..].
  - intros v q Hv Hp Hq Hne. wp_pure. destruct (Z.eqb_spec (queue_head v) 0); [done|].
    wp_pure. apply w_wp_fence. wp_pure. apply HR. split; [done|]. by exists q, [x].
  - intros s g ρ HI Hr E. rewrite (wi_word _ _ _ HI) in E.
    apply enc_inj in E as (E1 & _ & E3); [|by eapply hd_aligned|done].
    destruct (queue_shape s g ρ t r l HI Hr) as (_ & HS & _); [by rewrite Hpc|].
    rewrite Hpc in HS. destruct HS as (q & Eq & HS).
    apply bool_decide_eq_false in E1. rewrite <- eq_None_not_Some in E1.
    assert (Eq' : que (g l) = [x]).
    { pose proof (wi_nodup _ _ _ HI l) as Hnd. rewrite Eq in Hnd, E3 |- *.
      destruct q as [|y q]; [done|]. cbn in E3. subst y. apply NoDup_cons in Hnd as [Hnd _].
      exfalso. apply Hnd. set_solver. }
    eexists _, _. split.
    + assert (Eenc : enc false false 0 = enc_lock (MkLG (own (g l)) None [])).
      { unfold enc_lock. cbn. by rewrite E1. }
      rewrite Eenc. by apply (w_take_last s g ρ t r l x).
    + wp_pure. by apply (w_wp_unpark t l).
Qed.

(** Taking off the last of several. *)
Lemma w_wp_take t l p x h r Q :
  rpc r = QDone l (p ++ [x]) → p ≠ [] → h = hd p →
  Q (inr tt) (at_pc r Idle) →
  wwp t (Bind (set h (set_tail (lst p))) (λ _,
    Bind (fetch_and_not l QUEUE_LOCKED_BIT) (λ _, unpark x))) r Q.
Proof.
  intros Hpc Hp -> HQ. unfold set, fetch_and_not. wp_pure. apply wp_act; [w_always|].
  intros s g ρ c s' y Hr HI Hex. cbn in Hex. injection Hex as <- <-.
  destruct (w_pop s g ρ t r l p x HI Hr Hpc Hp) as (q & _ & HI').
  eexists _, _. split; [exact HI'|]. clear s g ρ c Hr HI HI'. wp_pure.
  apply wp_act; [w_always|]. intros s g ρ c s' y Hr HI Hex. cbn in Hex. injection Hex as <- <-.
  destruct (queue_shape s g ρ t _ l HI Hr) as (_ & HS & _); [done|].
  eexists _, (at_pc r (Pop l x)). split.
  - rewrite (wi_word _ _ _ HI). unfold enc_lock at 1.
    rewrite queue_unlock_enc by (by eapply hd_aligned).
    apply (w_queue_unlock s g ρ t _ (Pop l x) l HI Hr); try done; [by right; exists x|].
    right. by eexists.
  - wp_pure. by apply (w_wp_unpark t l).
Qed.

Lemma w_wp_unlock_turn t l v r r0 Q :
  outer_pre l r v r0 → Q (inr tt) (at_pc r Idle) → (∀ v' r', outer_pre l r v' r' → Q (inl v') r') →
  wwp t (unlock_turn tsan l v) r0 Q.
Proof.
  intros (Hv & q & p & -> & Hp & Hh) HQ HR. unfold unlock_turn. wp_pure. rewrite Hh.
  apply w_wp_scan; [done|]. intros m Hm. unfold set at 1. wp_pure. rewrite <- Hm.
  apply wp_act; [w_always|]. intros s g ρ c s' y Hr HI Hex. cbn in Hex. injection Hex as <- <-.
  eexists _, (at_pc r (QDone l (m ++ p))). split; [by apply (w_scan_end s g ρ t _ l m p HI Hr)|].
  clear s g ρ c Hr HI. wp_pure. destruct (is_locked v) eqn:Hl.
  { by apply (w_wp_turn_locked t l v (m ++ p)). }
  unfold get_prev. wp_pure. apply w_wp_look; [by intros; simplify_eq/=|by eexists|].
  intros s g ρ c d HI Hr Hex. cbn in Hex. injection Hex as <-. wp_pure.
  destruct (queue_shape s g ρ t _ l HI Hr) as (_ & (u & Eq & HS) & _); [done|].
  assert (El : lst p = lst (m ++ p)).
  { destruct p as [|y p]; [done|]. by rewrite lst_cons_app. }
  rewrite El, (scan_penult _ _ _ HS). set (P := m ++ p) in *.
  assert (HP : P ≠ []) by (subst P; by destruct m, p).
  destruct (exists_last HP) as (P' & x & EP). rewrite EP, lst_app.
  destruct (decide (P' = [])) as [->|HP'].
  - cbn [app hd] in *. rewrite decide_True by done. rewrite Z.eqb_refl.
    apply (w_wp_take_last t l v x); try done. by rewrite Hh, <- Hm, EP.
  - assert (Hpen : penult (P' ++ [x]) = lst P') by (unfold penult, lst; by rewrite reverse_snoc).
    rewrite decide_False, Hpen.
    2:{ destruct P'; [done|]. cbn. destruct P'; by intros [= ]. }
    assert (lst P' ≠ 0).
    { apply (in_queue_ne s g ρ l _ HI). rewrite Eq, EP. pose proof (lst_in _ HP'). set_solver. }
    destruct (Z.eqb_spec (lst P') 0); [done|].
    by apply w_wp_take; [| |destruct P'|].
Qed.

Lemma w_wp_unlock_slow t l r Q :
  rpc r = Un l → Q tt (at_pc r Idle) → wwp t (unlock_slow tsan l) r Q.
Proof.
  intros Hpc HQ. unfold unlock_slow, load. wp_pure. apply wp_act; [w_always|].
  intros s g ρ c s' y Hr HI Hex. cbn in Hex. injection Hex as <- <-.
  eexists _, _. split; [by apply w_decided|]. pose proof (word_like _ _ _ l HI) as Hv.
  set (v := word s l) in *. clearbody v. clear s g ρ c Hr HI. wp_pure.
  apply (wp_iter _ _ _ _ _ (λ v r', wordlike v ∧ r' = decided l v r)); [done|].
  clear v Hv. intros v ? [Hv ->]. unfold queue_lock_turn, decided.
  destruct (is_queue_locked v || (queue_head v =? 0)) eqn:Hd; [by wp_pure|].
  assert (Er : at_pc r (Un l) = r) by (destruct r; cbn in *; by subst). rewrite Er.
  unfold compare_exchange_weak. wp_pure. apply w_wp_cas.
  - intros s g ρ HI Hr. eexists _, _. split; [by apply w_decided|]. wp_pure.
    split; [by eapply word_like|unfold decided; by rewrite Er].
  - intros s g ρ HI Hr E. pose proof (word_done _ _ _ l HI) as Hwd.
    destruct (word_says _ _ _ l HI) as (_ & _ & Hhd). rewrite E in Hwd, Hhd. rewrite Hd in Hwd.
    symmetry in Hwd. apply bool_decide_eq_false in Hwd.
    assert (Hq : qown (g l) = None) by (apply eq_None_not_Some; tauto).
    destruct (w_queue_lock s g ρ t r l HI Hr Hpc Hq) as (q & p & Eq & Hp & HI'); [tauto|].
    assert (Ew : Z.lor v QUEUE_LOCKED_BIT = enc_lock (MkLG (own (g l)) (Some t) (que (g l)))).
    { rewrite <- E, (wi_word _ _ _ HI). unfold enc_lock. rewrite Hq. cbn.
      rewrite queue_lock_enc by (by eapply hd_aligned). done. }
    rewrite Ew. eexists _, _. split; [exact HI'|]. wp_pure.
    apply (wp_iter _ _ _ _ _ (outer_pre l r)).
    { split; [done|]. exists q, p. by rewrite Hhd, Eq. }
    clear - HQ addr_inj addr_ok. intros v r' Hpre. by apply (w_wp_unlock_turn t l v r).
Qed.

Lemma w_wp_unlock t l r Q :
  used t → rpc r = Idle → l ∈ held r → guards r ⊆ filter (λ x, x ≠ l) (held r) →
  Q tt (MkRole (filter (λ x, x ≠ l) (held r)) (guards r) Idle) →
  wwp t (unlock tsan l) r Q.
Proof.
  intros Ht Hpc Hl Hg HQ. unfold unlock, fetch_byte_sub. wp_pure. apply wp_act; [w_always|].
  intros s g ρ c s' y Hr HI Hex. cbn in Hex. injection Hex as <- <-.
  pose proof (word_done _ _ _ l HI) as Hwd.
  assert (Ho : own (g l) = Some t) by (apply (wi_held _ _ _ HI); by rewrite Hr).
  eexists _, _. split.
  - rewrite (wi_word _ _ _ HI). unfold enc_lock at 1. rewrite Ho, bool_decide_true by (by eexists).
    rewrite unlock_enc by (by eapply hd_aligned). by apply (w_unlock s g ρ t r l).
  - wp_pure. rewrite Hwd. case_bool_decide as Hd; [rewrite decide_True by done|rewrite decide_False by done].
    + by wp_pure.
    + by apply w_wp_unlock_slow.
Qed.

(** ** Clients *)

Inductive op := OLock (l : Z) | OUnlock (l : Z).

(** A client does not lock what it owns, and unlocks only what it owns. *)
Definition run_op t (o : op) (held : list Z) : wprog (list Z) :=
  match o with
  | OLock l =>
      if decide (l ∈ held) then Ret held
      else lock cheap (addr t) l;; Act (AEnter l) (λ _, Ret (l :: held))
  | OUnlock l =>
      if decide (l ∈ held)
      then Act (AExit l) (λ _, unlock tsan l;; Ret (filter (λ x, x ≠ l) held))
      else Ret held
  end%prog.

Fixpoint client t (ops : list op) (held : list Z) : wprog unit :=
  match ops with
  | [] => Ret tt
  | o :: ops => held <- run_op t o held;; client t ops held
  end%prog.

Definition owns (ls : list Z) (r : role) : Prop :=
  rpc r = Idle ∧ held r = ls ∧ guards r = ls.

Lemma w_wp_run_op t o ls r : used t → owns ls r → wwp t (run_op t o ls) r owns.
Proof.
  intros Ht (Hpc & Hh & Hg). destruct o as [l|l]; cbn [run_op];
    case_decide as Hl; wp_pure; try done.
  - apply w_wp_lock; [done|done|]. apply wp_act; [w_always|]. intros s g ρ c s' x Hr HI Hex.
    cbn in Hex. injection Hex as <- <-. eexists _, (MkRole (l :: ls) (l :: ls) Idle). split; [|by wp_pure].
    assert (Hnl : t ∉ live s l).
    { intros Hin%(wi_live _ _ _ HI). rewrite Hr in Hin. cbn in Hin. by rewrite Hg in Hin. }
    pose proof (w_live s g ρ t _ (l :: ls) (t :: live s l) l HI Hr) as HW. cbn in HW.
    rewrite Hh in HW. apply HW; clear HW; try done.
    + constructor; [done|apply HI].
    + intros u [->|Hu]%elem_of_cons; [rewrite decide_True by done; set_solver|].
      case_decide; [set_solver|done].
    + intros l' _ Hin%(wi_live _ _ _ HI). rewrite Hr in Hin. cbn in Hin. rewrite Hg in Hin. set_solver.
  - apply wp_act; [w_always|]. intros s g ρ c s' x Hr HI Hex.
    cbn in Hex. injection Hex as <- <-.
    eexists _, (MkRole ls (filter (λ x, x ≠ l) ls) Idle). split.
    + pose proof (w_live s g ρ t _ (filter (λ x, x ≠ l) ls) (filter (λ u, u ≠ t) (live s l)) l HI Hr) as HW.
      rewrite Hh in HW. apply HW; clear HW; try done.
      * intros x Hx%list_elem_of_filter. tauto.
      * apply NoDup_filter, HI.
      * intros u [Hne Hu]%list_elem_of_filter. by rewrite decide_False.
      * intros l' Hne Hin%(wi_live _ _ _ HI). rewrite Hr, Hg in Hin.
        by apply list_elem_of_filter.
    + wp_pure. apply w_wp_unlock; [done|done|done|done|]. by wp_pure.
Qed.

Lemma w_wp_client t ops ls r : (ops ≠ [] → used t) → owns ls r → wwp t (client t ops ls) r (λ _ r, rpc r = Idle).
Proof.
  revert ls r. induction ops as [|o ops IH]; intros ls r Ht Ho; cbn [client]; wp_pure; [apply Ho|].
  specialize (Ht ltac:(done)).
  eapply wp_mono; [|by apply w_wp_run_op]. cbn. intros ls' r' Ho'. by apply IH.
Qed.

(** ** Every reachable configuration *)

Abbreviation wverified := (verified exec WInv (λ (_ : string) (_ : role), False) w_blocked
                             (λ r, rpc r = Idle)).

Definition start_state : state := MkState (λ _, INIT) (λ _, ThreadData_new) (λ _, []).
Definition start_pool (scripts : tid → list op) : tid → wprog unit := λ t, client t (scripts t) [].

Lemma w_start_verified scripts :
  (∀ t, scripts t ≠ [] → used t) → wverified (start_state, start_pool scripts).
Proof.
  intros Hu. exists (λ _, MkLG None None []), (λ _, MkRole [] [] Idle). split.
  - split; cbn; try done; try set_solver; try (by constructor).
  - intros t. by apply w_wp_client; [apply Hu|].
Qed.

Lemma w_reachable_verified scripts s ps :
  (∀ t, scripts t ≠ [] → used t) →
  reachable exec start_state (start_pool scripts) s ps → wverified (s, ps).
Proof. intros Hu Hr. eapply adequacy; [by apply w_start_verified|exact Hr]. Qed.

(** If no thread can go on, a thread that has not finished is queued on a lock
    that is taken, and nobody is at work on the queue. *)
Lemma w_stuck s g ρ (ps : tid → wprog unit) :
  WInv s g ρ → (∀ t, wwp t (ps t) (ρ t) (λ _ r, rpc r = Idle)) →
  (∀ t c, step1 exec t c (ps t) s = None) →
  ∀ t, ps t = Ret tt ∨ ∃ l, addr t ∈ que (g l) ∧ is_Some (own (g l)) ∧ qown (g l) = None.
Proof.
  intros HI Hwp Hstuck.
  assert (Hcase : ∀ u, (ps u = Ret tt ∧ rpc (ρ u) = Idle) ∨ w_blocked u (ρ u) s).
  { intros u. destruct (wp_progress _ _ _ _ _ _ s g ρ _ (Hwp u) HI)
      as [([] & ? & ?)|[(m & _ & [])|[[c Hs]|?]]]; [by left| |by right].
    rewrite Hstuck in Hs. by destruct Hs. }
  assert (Hq : ∀ u l, rpc (ρ u) = Wait l → addr u ∈ que (g l)).
  { intros u l E. destruct (Hcase u) as [[_ E']|(l' & E' & Hp)]; [congruence|].
    destruct (wi_wait _ _ _ HI u l E Hp) as [?|[v Hv]]; [done|].
    destruct (Hcase v) as [[_ E2]|(l2 & E2 & _)]; by rewrite E2 in Hv. }
  intros t. destruct (Hcase t) as [[? _]|(l & E & _)]; [by left|right].
  exists l. pose proof (Hq t l E) as Hin. split; [done|].
  assert (Hn : qown (g l) = None).
  { destruct (qown (g l)) as [v|] eqn:Hv; [|done]. apply (wi_qown _ _ _ HI) in Hv.
    destruct (Hcase v) as [[_ E2]|(l2 & E2 & _)]; by rewrite E2 in Hv. }
  split; [|done]. destruct (own (g l)) as [o|] eqn:Ho; [by eexists|exfalso].
  destruct (wi_wake _ _ _ HI l Ho) as [[v Hv]|[v Hv]].
  - intros En. rewrite En in Hin. set_solver.
  - congruence.
  - destruct (Hcase v) as [[_ E2]|(l2 & E2 & _)]; rewrite E2 in Hv; [done|].
    destruct Hv as [-> Hv]. apply Hv. by apply Hq.
Qed.

Lemma w_live_unique s g ρ l : WInv s g ρ → (length (live s l) ≤ 1)%nat.
Proof.
  intros HI. pose proof (wi_live_nodup _ _ _ HI l) as Hnd.
  assert (Hown : ∀ u, u ∈ live s l → own (g l) = Some u).
  { intros u Hx%(wi_live _ _ _ HI). by apply (wi_held _ _ _ HI), (wi_guards _ _ _ HI). }
  destruct (live s l) as [|t [|u ts]]; cbn; [lia..|exfalso].
  apply NoDup_cons in Hnd as [Hnd _]. apply Hnd.
  assert (own (g l) = Some t) by (apply Hown; set_solver).
  assert (own (g l) = Some u) by (apply Hown; set_solver).
  replace u with t by congruence. set_solver.
Qed.
End proof.

(** ** The theorems *)

Section theorems.
Context (cheap tsan : bool).
(** The threads that do anything have their own node, aligned and not null. *)
Context (scripts : tid → list op) (addr : tid → Z).
Context (addr_inj : ∀ t u, scripts t ≠ [] → scripts u ≠ [] → addr t = addr u → t = u).
Context (addr_ok : ∀ t, scripts t ≠ [] → aligned (addr t) ∧ addr t ≠ 0).

Lemma w_verified s ps :
  reachable exec start_state (start_pool cheap tsan addr scripts) s ps →
  verified exec (WInv (λ t, scripts t ≠ []) addr) (λ (_ : string) (_ : role), False)
    (w_blocked addr) (λ r, rpc r = Idle) (s, ps).
Proof. by apply w_reachable_verified. Qed.

(** C25: Mutual exclusion of [WordLock]. Any number of threads lock and unlock
    any number of word locks, with spurious failures of every
    compare-exchange; in every reachable configuration each lock has at most
    one thread in its critical section. *)
Theorem word_lock_exclusive s ps l :
  reachable exec start_state (start_pool cheap tsan addr scripts) s ps →
  (length (live s l) ≤ 1)%nat.
Proof.
  intros (g & ρ & HI & _)%w_verified.
  eapply w_live_unique; [exact addr_inj|exact addr_ok|exact HI].
Qed.

(** What an invariant says of a queue that nobody is at work on. *)
Lemma w_queue_ok s g ρ l :
  WInv (λ t, scripts t ≠ []) addr s g ρ → qown (g l) = None →
  queue_head (word s l) = hd (que (g l)) ∧ NoDup (que (g l)) ∧ rest (node s) (que (g l)) ∧
  ∀ x, x ∈ que (g l) → x ≠ 0 ∧ parked (node s x) = true.
Proof.
  intros HI Hq. destruct (word_says _ _ addr_inj addr_ok _ _ _ l HI) as (_ & _ & Eh).
  split; [done|]. split; [by apply (wi_nodup _ _ _ _ _ HI)|]. split.
  - pose proof (wi_shape _ _ _ _ _ HI l) as HS. unfold queue_pc in HS. by rewrite Hq in HS.
  - intros x Hx. split; [eapply in_queue_ne; [exact addr_ok|exact HI|exact Hx]|].
    by destruct (wi_in _ _ _ _ _ HI l x Hx) as (_ & _ & _ & ?).
Qed.

(** C26: No lost wake-up in [WordLock]: if no thread can take a step, every
    thread has finished its script or sleeps on a lock that is taken: its node
    is in the queue that starts at the head that the word of that very lock
    holds, on which nobody is at work. Neither the hand-over of the queue lock
    nor a push that races with the last unlock leaves a thread asleep on a free
    lock. *)
Theorem word_lock_no_lost_wakeup s ps :
  reachable exec start_state (start_pool cheap tsan addr scripts) s ps →
  (∀ t c, step1 exec t c (ps t) s = None) →
  ∀ t, ps t = Ret tt ∨
       ∃ l q, is_locked (word s l) = true ∧ is_queue_locked (word s l) = false ∧
              queue_head (word s l) = hd q ∧ NoDup q ∧ rest (node s) q ∧
              addr t ∈ q ∧ parked (node s (addr t)) = true.
Proof.
  intros (g & ρ & HI & Hwp)%w_verified Hstuck t. cbn in HI, Hwp.
  destruct (w_stuck _ _ addr_inj addr_ok _ _ _ _ HI Hwp Hstuck t) as [?|(l & Hin & Ho & Hn)]; [by left|].
  right. exists l, (que (g l)). destruct (word_says _ _ addr_inj addr_ok _ _ _ l HI) as (-> & -> & _).
  destruct (w_queue_ok _ _ _ l HI Hn) as (Hh & Hd & Hr & Hp).
  split; [by apply bool_decide_eq_true|]. split; [by rewrite Hn|]. do 4 (split; [done|]). by apply Hp.
Qed.

(** C27: The queue of a [WordLock] that nobody processes is well formed: the
    nodes from its head are linked by [next] to a node that knows the tail,
    and the nodes from there to the tail are linked back by [prev]. *)
Theorem word_lock_queue_ok s ps l :
  reachable exec start_state (start_pool cheap tsan addr scripts) s ps →
  is_queue_locked (word s l) = false →
  ∃ q, queue_head (word s l) = hd q ∧ NoDup q ∧ rest (node s) q ∧
       ∀ x, x ∈ q → x ≠ 0 ∧ parked (node s x) = true.
Proof.
  intros (g & ρ & HI & _)%w_verified Hq. cbn in HI.
  destruct (word_says _ _ addr_inj addr_ok _ _ _ l HI) as (_ & Eq & Eh). rewrite Eq in Hq.
  apply bool_decide_eq_false in Hq. rewrite <- eq_None_not_Some in Hq.
  exists (que (g l)). by apply w_queue_ok with (ρ := ρ).
Qed.
End theorems.

(** ** A run

    Thread 0 takes the lock at 7; threads 1 and 2 push their nodes; thread 0
    unlocks and takes thread 1 off. *)

Section example.
Local Definition scripts (t : tid) : list op :=
  match t with 0%nat => [OLock 7; OUnlock 7] | 1%nat | 2%nat => [OLock 7] | _ => [] end.
Local Definition addr4 (t : tid) : Z := 4 * Z.of_nat (S t).

(** Both nodes are pushed; then the lock has gone to thread 1. *)
Local Definition sched1 : list (tid * choice) :=
  repeat (0%nat, 0) 4 ++ repeat (1%nat, 0) 76 ++ repeat (2%nat, 0) 18.
Local Definition sched2 : list (tid * choice) :=
  sched1 ++ repeat (0%nat, 0) 38 ++ repeat (1%nat, 0) 12.
Local Definition start := (start_state, start_pool true false addr4 scripts).
Local Definition demo sched : state * (tid → wprog unit) :=
  default start (run exec sched start.1 start.2).

Lemma w_demo_reachable sched :
  bool_decide (is_Some (run exec sched start.1 start.2)) = true →
  reachable exec start.1 start.2 (demo sched).1 (demo sched).2.
Proof.
  intros H. apply (run_reachable _ sched). unfold demo.
  apply bool_decide_eq_true in H as [[s ps] E]. by rewrite E.
Qed.

Lemma addr4_inj t u : scripts t ≠ [] → scripts u ≠ [] → addr4 t = addr4 u → t = u.
Proof. unfold addr4. lia. Qed.

Lemma addr4_ok t : scripts t ≠ [] → aligned (addr4 t) ∧ addr4 t ≠ 0.
Proof.
  intros Ht. assert (t < 3)%nat by (destruct t as [|[|[|t]]]; [lia..|done]).
  unfold addr4. split; [exists (Z.of_nat (S t)); lia|lia].
Qed.

Lemma word_lock_exclusive_witness :
  live (demo sched1).1 7 = [0%nat] ∧ live (demo sched2).1 7 = [1%nat] ∧
  (length (live (demo sched2).1 7) ≤ 1)%nat.
Proof.
  split; [vm_compute; reflexivity|]. split; [vm_compute; reflexivity|].
  apply (word_lock_exclusive true false scripts addr4 addr4_inj addr4_ok
           (demo sched2).1 (demo sched2).2 7).
  apply w_demo_reachable. vm_compute. reflexivity.
Defined.

(** Thread 2 sleeps on the lock that thread 1 has. *)
Lemma word_lock_no_lost_wakeup_witness :
  (∀ t c, step1 exec t c ((demo sched2).2 t) (demo sched2).1 = None) ∧
  (demo sched2).2 2%nat ≠ Ret tt ∧
  ∃ l q, is_locked (word (demo sched2).1 l) = true ∧ queue_head (word (demo sched2).1 l) = hd q ∧
         addr4 2 ∈ q ∧ parked (node (demo sched2).1 (addr4 2)) = true.
Proof.
  assert (Hstuck : ∀ t c, step1 exec t c ((demo sched2).2 t) (demo sched2).1 = None).
  { intros [|[|[|t]]] c; vm_compute; reflexivity. }
  assert (E : (demo sched2).2 2%nat ≠ Ret tt).
  { intros E. assert (E' : match (demo sched2).2 2%nat with Ret _ => true | _ => false end = false)
      by (vm_compute; reflexivity). rewrite E in E'. discriminate E'. }
  split; [exact Hstuck|]. split; [exact E|].
  destruct (word_lock_no_lost_wakeup true false scripts addr4 addr4_inj addr4_ok
           (demo sched2).1 (demo sched2).2 (w_demo_reachable sched2 ltac:(vm_compute; reflexivity)) Hstuck 2%nat)
    as [H|(l & q & H1 & _ & H2 & _ & _ & H3 & H4)]; [by destruct E|].
  exists l, q. split; [exact H1|]. split; [exact H2|]. split; [exact H3|exact H4].
Defined.

Lemma word_lock_queue_ok_witness :
  word (demo sched1).1 7 = 13 ∧
  ∃ q, queue_head (word (demo sched1).1 7) = hd q ∧ NoDup q ∧ rest (node (demo sched1).1) q ∧
       ∀ x, x ∈ q → x ≠ 0 ∧ parked (node (demo sched1).1 x) = true.
Proof.
  split; [vm_compute; reflexivity|].
  apply (word_lock_queue_ok true false scripts addr4 addr4_inj addr4_ok
           (demo sched1).1 (demo sched1).2 7); [|vm_compute; reflexivity].
  apply w_demo_reachable. vm_compute. reflexivity.
Defined.
End example.
