(* ===== verification/RawCondvar.v ===== *)
(** * RawCondvar (src/raw_condvar.rs)

    The programs of the condition variable, over the machine of [ParkingLot].
    Its word holds the address of the mutex its waiters use, or null.
    [notify_one] and [notify_all] move waiters to the queue of the mutex rather
    than wake them when the mutex is locked. *)

From S2P Require Import Prelude Conc LotTypes SpinWait FairTimeout BucketQueue ParkingLot RawMutex.
Local Open Scope Z_scope.
Local Open Scope prog_scope.

Module RawCondvar.
(** [RawCondvar::INIT] *)
Definition INIT : Z := 0.

Definition bad_mutex_msg : string :=
  "attempted to use a condition variable with more than one mutex".

Section condvar.
Context (bucket_of : Z → nat).

(** [notify_one_slow] on the condition variable [a], whose word was [mutex]. *)
Definition notify_one_validate (a mutex : Z) (_ : unit) : iprog (RequeueOp * unit) :=
  state <- load a;;
  if negb (state =? mutex) then Ret (Abort, tt)
  else
    locked <- RawMutex.mark_parked_if_locked mutex;;
    Ret (if locked : bool then RequeueOne else UnparkOne, tt).

Definition notify_one_callback (a : Z) (_ : unit) (_ : RequeueOp) (result : UnparkResult)
    : iprog UnparkToken :=
  if negb (have_more_threads result) then store a 0;; Ret RawMutex.TOKEN_NORMAL
  else Ret RawMutex.TOKEN_NORMAL.

Definition notify_one_slow (a mutex : Z) : iprog bool :=
  res <- unpark_requeue bucket_of a mutex (notify_one_validate a mutex)
           (notify_one_callback a) tt;;
  Ret (negb (unparked_threads res + requeued_threads res =? 0)).

Definition notify_one (a : Z) : iprog bool :=
  state <- load a;;
  if state =? 0 then Ret false else notify_one_slow a state.

(** [notify_all_slow] *)
Definition notify_all_validate (a mutex : Z) (_ : unit) : iprog (RequeueOp * unit) :=
  state <- load a;;
  if negb (state =? mutex) then Ret (Abort, tt)
  else
    store a 0;;
    locked <- RawMutex.mark_parked_if_locked mutex;;
    Ret (if locked : bool then RequeueAll else UnparkOneRequeueRest, tt).

Definition notify_all_callback (mutex : Z) (_ : unit) (op : RequeueOp) (result : UnparkResult)
    : iprog UnparkToken :=
  if bool_decide (op = UnparkOneRequeueRest) && negb (requeued_threads result =? 0)
  then RawMutex.mark_parked mutex;; Ret RawMutex.TOKEN_NORMAL
  else Ret RawMutex.TOKEN_NORMAL.

Definition notify_all_slow (a mutex : Z) : iprog Z :=
  res <- unpark_requeue bucket_of a mutex (notify_all_validate a mutex)
           (notify_all_callback mutex) tt;;
  Ret (unparked_threads res + requeued_threads res).

Definition notify_all (a : Z) : iprog Z :=
  state <- load a;;
  if state =? 0 then Ret 0 else notify_all_slow a state.

(** The closures of [wait_until_internal]; they write [bad_mutex] and
    [requeued]. *)
Definition wait_validate (a lock_addr : Z) (e : bool * bool) : iprog (bool * (bool * bool)) :=
  state <- load a;;
  if state =? 0 then store a lock_addr;; Ret (true, e)
  else if negb (state =? lock_addr) then Ret (false, (true, e.2))
  else Ret (true, e).

Definition wait_timed_out (a : Z) (e : bool * bool) (k : Z) (was_last_thread : bool)
    : iprog (bool * bool) :=
  let requeued := negb (k =? a) in
  if negb requeued && was_last_thread then store a 0;; Ret (e.1, requeued)
  else Ret (e.1, requeued).

(** The result is whether the wait timed out. *)
Definition wait_until_internal (a mutex : Z) (timeout : option Z) : iprog bool :=
  r <- park bucket_of a (wait_validate a mutex) (RawMutex.unlock bucket_of mutex)
         (wait_timed_out a) DEFAULT_PARK_TOKEN timeout (false, false);;
  let '(result, (bad_mutex, requeued)) := r in
  if bad_mutex : bool then Panic bad_mutex_msg
  else
    (if bool_decide (result = Unparked RawMutex.TOKEN_HANDOFF) then Ret tt
     else RawMutex.lock bucket_of mutex);;
    Ret (negb (is_unparked result || requeued)).

Definition wait (a mutex : Z) : iprog unit := wait_until_internal a mutex None;; Ret tt.

Definition wait_until (a mutex timeout : Z) : iprog bool :=
  wait_until_internal a mutex (Some timeout).

(** [checked_duration_to_instant] and [wait_for] *)
Definition checked_duration_to_instant (timeout : Z) : iprog (option Z) := to_deadline timeout.

Definition wait_for (a mutex timeout : Z) : iprog bool :=
  deadline <- to_deadline timeout;; wait_until_internal a mutex deadline.
End condvar.
End RawCondvar.
