(* ===== verification/CondvarNotify.v ===== *)
(** * What a notification does

    [notify_one] and [notify_all] run alone: who is woken, who is moved to the
    queue of the mutex, and what the two words become.  The bucket locks are
    free at the start, and are free again at the end. *)

From S2P Require Import Prelude Conc LotTypes SpinWait FairTimeout BucketQueue ParkingLot LotInv RawMutex RawCondvar.
Import RawCondvar.
Local Open Scope Z_scope.

Section notify.
Context (bucket_of : Z → nat) (t : tid).
Implicit Types (s : state).

Definition with_locks s (bm : nat → option tid) : state :=
  MkState (mem s) bm (bqueue s) (bfair s) (td s) (live s).

Abbreviation runs := (returns exec t 0).

(** ** The two buckets *)

Lemma lock_returns s b :
  bmutex s b = None → runs (Act (ABucketLock b) Ret) s (set_bmutex b (Some t) s) tt.
Proof. intros E. eapply returns_act; [cbn; by rewrite E|]. solo. Qed.

Lemma lock_pair_returns s k1 k2 :
  bmutex s (bucket_of k1) = None → bmutex s (bucket_of k2) = None →
  ∃ bm, runs (lock_bucket_pair bucket_of k1 k2) s (with_locks s bm)
          (bucket_of k1, bucket_of k2) ∧
        ∀ b, bm b = if decide (b = bucket_of k1 ∨ b = bucket_of k2) then Some t else bmutex s b.
Proof.
  intros E1 E2. unfold lock_bucket_pair.
  set (b1 := bucket_of k1) in *. set (b2 := bucket_of k2) in *.
  destruct (Nat.leb_spec b1 b2) as [Hle|Hle].
  - destruct (Nat.eqb_spec b1 b2) as [He|He].
    + exists (<[b1 := Some t]> (bmutex s)). split.
      * eapply returns_act; [cbn; by rewrite E1|]. rewrite He. solo.
      * intros b. rewrite fn_insert_case. repeat case_decide; naive_solver.
    + exists (<[b2 := Some t]> (<[b1 := Some t]> (bmutex s))). split.
      * eapply returns_act; [cbn; by rewrite E1|]. cbn beta.
        destruct (Nat.ltb_spec b1 b2); [|lia].
        eapply returns_act; [cbn; rewrite fn_insert_ne by done; by rewrite E2|]. solo.
      * intros b. rewrite !fn_insert_case. repeat case_decide; naive_solver.
  - destruct (Nat.eqb_spec b1 b2) as [He|He]; [lia|].
    exists (<[b1 := Some t]> (<[b2 := Some t]> (bmutex s))). split.
    + eapply returns_act; [cbn; by rewrite E2|]. cbn beta.
      destruct (Nat.ltb_spec b1 b2); [lia|].
      eapply returns_act; [cbn; rewrite fn_insert_ne by done; by rewrite E1|]. solo.
    + intros b. rewrite !fn_insert_case. repeat case_decide; naive_solver.
Qed.

Lemma unlock_pair_returns s b1 b2 :
  ∃ bm, runs (unlock_bucket_pair b1 b2) s (with_locks s bm) tt ∧
        ∀ b, bm b = if decide (b = b1 ∨ b = b2) then None else bmutex s b.
Proof.
  unfold unlock_bucket_pair, unlock_bucket. destruct (Nat.eqb_spec b1 b2) as [->|Hne].
  - exists (<[b2 := None]> (bmutex s)). split; [solo|].
    intros b. rewrite fn_insert_case. repeat case_decide; naive_solver.
  - exists (<[b2 := None]> (<[b1 := None]> (bmutex s))). split; [solo|].
    intros b. rewrite !fn_insert_case. repeat case_decide; naive_solver.
Qed.

(** ** The mutex *)

Lemma mark_parked_if_locked_returns s m :
  runs (RawMutex.mark_parked_if_locked m) s
    (if has_bits (mem s m) RawMutex.LOCKED_BIT
     then set_mem m (Z.lor (mem s m) RawMutex.PARKED_BIT) s else s)
    (has_bits (mem s m) RawMutex.LOCKED_BIT).
Proof.
  unfold RawMutex.mark_parked_if_locked, load. eapply returns_bind; [solo|].
  destruct (has_bits (mem s m) RawMutex.LOCKED_BIT) eqn:E.
  - apply (returns_iter _ _ _ _ _ _ (set_mem m (Z.lor (mem s m) RawMutex.PARKED_BIT) s) (inr true));
      [|solo]. rewrite E. cbn [negb].
    apply (returns_bind _ _ _ _ _ _ (set_mem m (Z.lor (mem s m) RawMutex.PARKED_BIT) s)
             (true, mem s m)); [|solo].
    eapply returns_act; [cbn; by rewrite Z.eqb_refl|]. solo.
  - eapply returns_iter; [rewrite E; cbn [negb]; solo|]. solo.
Qed.

(** ** The whole of [unpark_requeue] *)

(** The end: who was found is woken with the token, and the locks released. *)
Definition woken (w : option tid) (tok : UnparkToken) s : state :=
  match w with
  | Some w =>
      let d := td s w in
      set_td w (MkTD (td_key d) tok (td_park_token d) (td_timed d) false) s
  | None => s
  end.

Lemma requeue_end_returns (w : option tid) tok b1 b2 (res : UnparkResult) s :
  ∃ s', runs (match w with
    | Some w =>
        Act (ASetToken w tok) (λ _, Act (AUnparkLock w) (λ _,
        Bind (unlock_bucket_pair b1 b2) (λ _, Act (AWake w) (λ _, Ret res))))
    | None => Bind (unlock_bucket_pair b1 b2) (λ _, Ret res)
    end) s s' res ∧
    mem s' = mem s ∧ bqueue s' = bqueue s ∧
    (∀ u, td s' u = td (woken w tok s) u) ∧
    ∀ b, bmutex s' b = if decide (b = b1 ∨ b = b2) then None else bmutex s b.
Proof.
  destruct w as [w|].
  - set (s2 := set_td w (MkTD (td_key (td s w)) tok (td_park_token (td s w)) (td_timed (td s w))
      false) (set_td w (MkTD (td_key (td s w)) tok (td_park_token (td s w)) (td_timed (td s w))
      (td_parked (td s w))) s)).
    destruct (unlock_pair_returns s2 b1 b2) as (bm & Hr & Hbm).
    exists (with_locks s2 bm). split; [|split; [done|split; [done|split; [|done]]]].
    + eapply returns_act; [reflexivity|]. eapply returns_act; [reflexivity|].
      eapply returns_bind; [|solo]. cbn [td set_td]. rewrite fn_insert_eq. exact Hr.
    + intros u. cbn. rewrite !fn_insert_case. by repeat case_decide.
  - destruct (unlock_pair_returns s b1 b2) as (bm & Hr & Hbm).
    exists (with_locks s bm). split; [|by split; [|split; [|split]]].
    eapply returns_bind; [exact Hr|]. solo.
Qed.

(** What is left of the queues, and of the data of the threads. *)
Definition moved_td (k : Z) (wk : option tid) (m : list tid) (d : tid → ThreadData) (u : tid)
    : ThreadData :=
  let d1 := if decide (u ∈ m) then with_key k (d u) else d u in
  if decide (wk = Some u)
  then MkTD (td_key d1) RawMutex.TOKEN_NORMAL (td_park_token d1) (td_timed d1) false else d1.

Definition with_mem s (m : Z → Z) : state :=
  MkState m (bmutex s) (bqueue s) (bfair s) (td s) (live s).

Lemma requeue_solo s s0 k1 k2 validate callback op wk m rest more cb :
  bmutex s (bucket_of k1) = None → bmutex s (bucket_of k2) = None →
  (∀ bm, runs (validate tt) (with_locks s bm) (with_locks s0 bm) (op, tt)) → op ≠ Abort →
  bqueue s0 = bqueue s → td s0 = td s →
  (∀ s3 res, runs (callback tt op res) s3 (with_mem s3 (cb res (mem s3))) RawMutex.TOKEN_NORMAL) →
  Spec.unpark_requeue (key_of s) op k1 (bqueue s (bucket_of k1)) = (wk, m, rest, more) →
  ∃ s' fair,
    let res := MkUnparkResult (if wk is Some _ then 1 else 0) (Z.of_nat (length m)) more fair in
    runs (unpark_requeue bucket_of k1 k2 validate callback tt) s s' res ∧
    mem s' = cb res (mem s0) ∧
    bqueue s' = moved_queues (bucket_of k1) (bucket_of k2) rest m (bqueue s) ∧
    (∀ u, td s' u = moved_td k2 wk m (td s) u) ∧ ∀ b, bmutex s' b = bmutex s b.
Proof.
  intros E1 E2 Hv Hop Eq Ed Hcb Hsp.
  destruct (lock_pair_returns s k1 k2 E1 E2) as (bm & Hlock & Hbm).
  destruct (requeue_exec t 0 (with_locks s0 bm) (bucket_of k1) (bucket_of k2) k1 k2 op wk m rest more)
    as (s2 & fair & Hex & F1 & F2 & F3 & _ & F4); [cbn; by rewrite Eq, Ed|].
  set (res := MkUnparkResult _ _ more fair) in *.
  destruct (requeue_end_returns wk RawMutex.TOKEN_NORMAL (bucket_of k1) (bucket_of k2) res
    (with_mem s2 (cb res (mem s2)))) as (s' & Hend & G1 & G2 & G3 & G4).
  exists s', fair. cbn zeta. fold res. split; [|split; [|split; [|split]]].
  - unfold unpark_requeue. eapply returns_bind; [exact Hlock|]. cbn beta iota.
    eapply returns_bind; [apply Hv|]. cbn beta iota. rewrite bool_decide_false by done.
    eapply returns_bind; [eapply returns_act; [exact Hex|apply returns_ret]|]. cbn beta iota.
    eapply returns_bind; [apply Hcb|]. cbn beta iota. destruct wk; exact Hend.
  - rewrite G1. cbn. by rewrite F1.
  - rewrite G2. cbn. rewrite F3. cbn. by rewrite Eq.
  - intros u. rewrite G3. unfold moved_td. destruct wk as [w|]; cbn.
    + rewrite fn_insert_case. destruct (decide (w = u)) as [->|Hne].
      * rewrite decide_True by done. rewrite F4. cbn. by rewrite Ed.
      * rewrite decide_False by congruence. rewrite F4. cbn. by rewrite Ed.
    + rewrite decide_False by done. rewrite F4. cbn. by rewrite Ed.
  - intros b. rewrite G4. cbn. rewrite F2. cbn. rewrite Hbm. repeat case_decide; naive_solver.
Qed.

(** ** The condition variable *)

Section solo.
Context (s : state) (c m : Z).
Context (Hc : mem s c = m) (Hm0 : m ≠ 0) (Hcm : c ≠ m).
Context (Hb1 : bmutex s (bucket_of c) = None) (Hb2 : bmutex s (bucket_of m) = None).

Let locked : bool := has_bits (mem s m) RawMutex.LOCKED_BIT.
Let q : list tid := bqueue s (bucket_of c).

(** The word of the mutex after [mark_parked_if_locked]. *)
Let marked (s : state) : state :=
  if locked then set_mem m (Z.lor (mem s m) RawMutex.PARKED_BIT) s else s.

Lemma notify_one_validate_returns bm :
  runs (notify_one_validate c m tt) (with_locks s bm) (with_locks (marked s) bm)
    (if locked then RequeueOne else UnparkOne, tt).
Proof.
  unfold notify_one_validate, load. eapply returns_bind; [solo|]. cbn [mem with_locks].
  rewrite Hc, Z.eqb_refl. cbn [negb].
  eapply returns_bind; [apply mark_parked_if_locked_returns|]. cbn [mem with_locks].
  fold locked. subst marked. cbn beta. by destruct locked; solo.
Qed.

Lemma notify_all_validate_returns bm :
  runs (notify_all_validate c m tt) (with_locks s bm) (with_locks (marked (set_mem c 0 s)) bm)
    (if locked then RequeueAll else UnparkOneRequeueRest, tt).
Proof.
  unfold notify_all_validate, load, store. eapply returns_bind; [solo|]. cbn [mem with_locks].
  rewrite Hc, Z.eqb_refl. cbn [negb]. eapply returns_bind; [solo|].
  eapply returns_bind; [apply mark_parked_if_locked_returns|]. cbn [mem with_locks set_mem].
  rewrite !fn_insert_ne by done. fold locked. subst marked. cbn beta.
  destruct locked; solo; cbn [mem set_mem]; rewrite ?fn_insert_ne by done; solo.
Qed.

Lemma notify_one_callback_returns s3 op res :
  runs (notify_one_callback c tt op res) s3
    (with_mem s3 (if have_more_threads res then mem s3 else <[c := 0]> (mem s3)))
    RawMutex.TOKEN_NORMAL.
Proof.
  unfold notify_one_callback, store. destruct s3, (have_more_threads res); cbn [negb]; solo.
Qed.

Lemma notify_all_callback_returns s3 op res :
  runs (notify_all_callback m tt op res) s3
    (with_mem s3 (if bool_decide (op = UnparkOneRequeueRest) && negb (requeued_threads res =? 0)
                  then <[m := Z.lor (mem s3 m) RawMutex.PARKED_BIT]> (mem s3) else mem s3))
    RawMutex.TOKEN_NORMAL.
Proof.
  unfold notify_all_callback, RawMutex.mark_parked, fetch_or, rmw.
  destruct s3, (bool_decide _ && _); solo.
Qed.
End solo.
End notify.

Section theorems.
Context (bucket_of : Z → nat) (t : tid).
Implicit Types (s : state) (c m : Z).

(** [notify_one], branch by branch. *)
Lemma notify_one_runs s c m :
  mem s c = m → m ≠ 0 → c ≠ m → bmutex s (bucket_of c) = None → bmutex s (bucket_of m) = None →
  let locked := has_bits (mem s m) RawMutex.LOCKED_BIT in
  let found := Spec.pop_first (key_of s) c (bqueue s (bucket_of c)) in
  ∃ s', returns exec t 0 (notify_one bucket_of c) s s' (bool_decide (is_Some found)) ∧
    (∀ b, bmutex s' b = bmutex s b) ∧
    mem s' m = (if locked then Z.lor (mem s m) RawMutex.PARKED_BIT else mem s m) ∧
    match found with
    | None => mem s' c = 0 ∧ (∀ u, td s' u = td s u)
    | Some (w, rest) =>
        mem s' c = (if Spec.waiting (key_of s) c rest then m else 0) ∧
        bqueue s' = moved_queues (bucket_of c) (bucket_of m) rest (if locked then [w] else [])
                      (bqueue s) ∧
        td s' w = (if locked then with_key m (td s w)
                   else MkTD (td_key (td s w)) RawMutex.TOKEN_NORMAL (td_park_token (td s w))
                          (td_timed (td s w)) false) ∧
        ∀ u, u ≠ w → td s' u = td s u
    end.
Proof.
  intros Hc Hm0 Hcm Hb1 Hb2 locked found.
  assert (Hsp : Spec.unpark_requeue (key_of s) (if locked then RequeueOne else UnparkOne) c
            (bqueue s (bucket_of c)) =
    match found with
    | None => (None, [], bqueue s (bucket_of c), false)
    | Some (w, rest) => (if locked then None else Some w, if locked then [w] else [], rest,
                           Spec.waiting (key_of s) c rest)
    end).
  { unfold Spec.unpark_requeue. fold found. by destruct locked, found as [[w l]|]. }
  destruct (match found with
    | None => (None, [], bqueue s (bucket_of c), false)
    | Some (w, rest) => (if locked then None else Some w, if locked then [w] else [], rest,
                           Spec.waiting (key_of s) c rest)
    end) as [[[wk mv] rest] more] eqn:Ef.
  pose proof (λ s0 H1 H2 H3 H4, requeue_solo bucket_of t s s0 c m (notify_one_validate c m)
    (notify_one_callback c) _ wk mv rest more
    (λ res mem, if have_more_threads res then mem else <[c := 0]> mem)
    Hb1 Hb2 H1 H2 H3 H4 (λ s3 res, notify_one_callback_returns t c s3 _ res) Hsp) as HR.
  destruct (HR _ (notify_one_validate_returns t s c m Hc)) as (s' & fair & Hrun & Hmem & Hq & Htd & Hbm);
    [subst locked; by destruct (has_bits (mem s m) RawMutex.LOCKED_BIT)..|]. clear HR.
  exists s'. cbn [have_more_threads] in Hmem. split; [|split; [done|]].
  - unfold notify_one, notify_one_slow, load. eapply returns_bind; [solo|].
    rewrite Hc. destruct (Z.eqb_spec m 0); [done|].
    eapply returns_bind; [exact Hrun|]. cbn [unparked_threads requeued_threads].
    destruct found as [[w l]|]; simplify_eq; [destruct locked|]; solo.
  - assert (Hmm : mem s' m = if locked then Z.lor (mem s m) RawMutex.PARKED_BIT else mem s m).
    { rewrite Hmem. subst locked. destruct more; [|rewrite fn_insert_ne by done];
        destruct (has_bits (mem s m) RawMutex.LOCKED_BIT); cbn; by fn_simp. }
    split; [done|].
    assert (Hmc : mem s' c = if more then m else 0).
    { rewrite Hmem. subst locked. destruct more; [|by fn_simp].
      destruct (has_bits (mem s m) RawMutex.LOCKED_BIT); cbn; by rewrite ?fn_insert_ne. }
    destruct found as [[w l]|]; simplify_eq.
    + split; [done|]. split; [done|]. unfold moved_td in Htd. split.
      * rewrite Htd. destruct locked; [|by rewrite decide_True].
        rewrite decide_False by done. by rewrite decide_True by set_solver.
      * intros u Hu. rewrite Htd. rewrite decide_False by (destruct locked; congruence).
        rewrite decide_False; [done|]. destruct locked; set_solver.
    + split; [done|]. intros u. rewrite Htd. unfold moved_td.
      rewrite decide_False by done. by rewrite decide_False by set_solver.
Qed.

(** [notify_one], run alone on a condition variable [c] whose waiters use
    the mutex [m].  It returns whether there was a waiter; the first waiter in
    queue order is woken if the mutex is free, and otherwise moved, still
    asleep, to the back of the queue of the mutex, whose parked bit is then
    set; the word of [c] is cleared exactly when no waiter is left; no other
    thread is touched, and the bucket locks are free again. *)
Theorem notify_one_solo s c m :
  mem s c = m → m ≠ 0 → c ≠ m → bmutex s (bucket_of c) = None → bmutex s (bucket_of m) = None →
  let locked := has_bits (mem s m) RawMutex.LOCKED_BIT in
  let found := Spec.pop_first (key_of s) c (bqueue s (bucket_of c)) in
  ∃ s', returns exec t 0 (notify_one bucket_of c) s s' (bool_decide (is_Some found)) ∧
    (∀ b, bmutex s' b = bmutex s b) ∧
    mem s' m = (if locked then Z.lor (mem s m) RawMutex.PARKED_BIT else mem s m) ∧
    match found with
    | None => mem s' c = 0 ∧ (∀ u, td s' u = td s u)
    | Some (w, rest) =>
        mem s' c = (if Spec.waiting (key_of s) c rest then m else 0) ∧
        bqueue s' = moved_queues (bucket_of c) (bucket_of m) rest (if locked then [w] else [])
                      (bqueue s) ∧
        td s' w = (if locked then with_key m (td s w)
                   else MkTD (td_key (td s w)) RawMutex.TOKEN_NORMAL (td_park_token (td s w))
                          (td_timed (td s w)) false) ∧
        ∀ u, u ≠ w → td s' u = td s u
    end.
Proof. apply notify_one_runs. Qed.

(** [notify_all], run alone.  It returns the number of waiters and clears the
    word of [c]; with the mutex free the first waiter is woken and the others
    moved to the back of the queue of the mutex, in order; with the mutex
    locked all of them are moved; the parked bit of the mutex is set whenever a
    thread was moved to its queue. *)
Theorem notify_all_solo s c m :
  mem s c = m → m ≠ 0 → c ≠ m → bmutex s (bucket_of c) = None → bmutex s (bucket_of m) = None →
  let locked := has_bits (mem s m) RawMutex.LOCKED_BIT in
  let ws := filter (λ u, td_key (td s u) = c) (bqueue s (bucket_of c)) in
  let rest := filter (λ u, td_key (td s u) ≠ c) (bqueue s (bucket_of c)) in
  let wk := if locked then None else head ws in
  let mv := if locked then ws else tail ws in
  ∃ s', returns exec t 0 (notify_all bucket_of c) s s' (Z.of_nat (length ws)) ∧
    (∀ b, bmutex s' b = bmutex s b) ∧ mem s' c = 0 ∧
    (mv ≠ [] ∨ locked = true → mem s' m = Z.lor (mem s m) RawMutex.PARKED_BIT) ∧
    (mv = [] ∧ locked = false → mem s' m = mem s m) ∧
    bqueue s' = moved_queues (bucket_of c) (bucket_of m) rest mv (bqueue s) ∧
    ∀ u, td s' u = moved_td m wk mv (td s) u.
Proof.
  intros Hc Hm0 Hcm Hb1 Hb2 locked ws rest wk mv.
  assert (Hsp : Spec.unpark_requeue (key_of s) (if locked then RequeueAll else UnparkOneRequeueRest)
            c (bqueue s (bucket_of c)) = (wk, mv, rest, false)).
  { unfold Spec.unpark_requeue, wk, mv. by destruct locked. }
  pose proof (λ s0 H1 H2 H3 H4, requeue_solo bucket_of t s s0 c m (notify_all_validate c m)
    (notify_all_callback m) _ wk mv rest false
    (λ res mem, if bool_decide ((if locked then RequeueAll else UnparkOneRequeueRest) =
                    UnparkOneRequeueRest) && negb (requeued_threads res =? 0)
                then <[m := Z.lor (mem m) RawMutex.PARKED_BIT]> mem else mem)
    Hb1 Hb2 H1 H2 H3 H4 (λ s3 res, notify_all_callback_returns t m s3 _ res) Hsp) as HR.
  destruct (HR _ (notify_all_validate_returns t s c m Hc Hcm))
    as (s' & fair & Hrun & Hmem & Hq & Htd & Hbm);
    [subst locked; by destruct (has_bits (mem s m) RawMutex.LOCKED_BIT)..|]. clear HR.
  cbn [requeued_threads] in Hmem. exists s'. split; [|split; [done|split]].
  - unfold notify_all, notify_all_slow, load. eapply returns_bind; [solo|].
    rewrite Hc. destruct (Z.eqb_spec m 0); [done|].
    eapply returns_bind; [exact Hrun|]. cbn [unparked_threads requeued_threads].
    assert (El : (if wk is Some _ then 1 else 0) + Z.of_nat (length mv) = Z.of_nat (length ws)).
    { subst wk mv. destruct locked, ws; cbn; lia. }
    rewrite El. solo.
  - rewrite Hmem. fold locked. destruct (bool_decide _ && _);
      rewrite ?fn_insert_ne by done; destruct locked; cbn; by rewrite ?fn_insert_ne, ?fn_insert_eq by done.
  - assert (Hz : (Z.of_nat (length mv) =? 0) = bool_decide (mv = [])).
    { apply eq_iff_eq_true. rewrite Z.eqb_eq, bool_decide_eq_true. destruct mv; cbn; naive_solver lia. }
    rewrite Hz in Hmem. fold locked in Hmem. rewrite Hmem. split; [|split; [|by split]].
    + intros Hor. destruct locked eqn:El.
      * rewrite bool_decide_false by done. cbn. by rewrite fn_insert_eq, fn_insert_ne.
      * rewrite bool_decide_true by done. rewrite bool_decide_false by naive_solver. cbn.
        by rewrite fn_insert_eq, fn_insert_ne.
    + intros [Hn ->]. rewrite (bool_decide_true (mv = [])) by done. rewrite andb_false_r. cbn.
      by rewrite fn_insert_ne.
Qed.
End theorems.

(** ** A notification of two waiters *)

Section example.
Local Definition two_waiters (m : Z) : state :=
  MkState (λ a, if decide (a = 8) then 16 else if decide (a = 16) then m else 0) (λ _, None)
    (λ b, if decide (b = 0%nat) then [1%nat; 2%nat] else []) (λ _, FairTimeout.new 0 1)
    (λ _, MkTD 8 0 0 false true) (λ _, []).

Lemma notify_one_solo_witness :
  ∃ s', returns exec 0%nat 0 (notify_one (λ _, 0%nat) 8) (two_waiters 1) s' true ∧
        bqueue s' 0%nat = [2%nat; 1%nat] ∧ td_key (td s' 1%nat) = 16 ∧ mem s' 16 = 3.
Proof.
  destruct (notify_one_solo (λ _, 0%nat) 0%nat (two_waiters 1) 8 16) as (s' & Hr & _ & Hm & _ & Hq & Hd & _);
    [reflexivity|discriminate|discriminate|reflexivity|reflexivity|].
  exists s'. split; [exact Hr|]. split; [rewrite Hq; reflexivity|]. split; [rewrite Hd; reflexivity|].
  rewrite Hm. reflexivity.
Defined.

Lemma notify_all_solo_witness :
  ∃ s', returns exec 0%nat 0 (notify_all (λ _, 0%nat) 8) (two_waiters 0) s' 2 ∧
        bqueue s' 0%nat = [2%nat] ∧ td_parked (td s' 1%nat) = false ∧
        td_key (td s' 2%nat) = 16 ∧ mem s' 16 = 2.
Proof.
  destruct (notify_all_solo (λ _, 0%nat) 0%nat (two_waiters 0) 8 16)
    as (s' & Hr & _ & _ & Hm & _ & Hq & Hd);
    [reflexivity|discriminate|discriminate|reflexivity|reflexivity|].
  exists s'. split; [exact Hr|]. split; [rewrite Hq; reflexivity|].
  split; [rewrite Hd; reflexivity|]. split; [rewrite Hd; reflexivity|].
  rewrite Hm; [reflexivity|]. left. discriminate.
Defined.
End example.
