(* ===== verification/ThreadParker.v ===== *)
(** * The contract of thread parkers (core/src/thread_parker/mod.rs)

    The parking lot puts a thread to sleep and wakes it up with a
    [ThreadParker], which each platform implements in its own way.  This file
    holds the interface ([Parker]), the protocol in which the parking lot uses
    it, and what it relies on ([ParkerOk]):

    - a thread that [park] or [park_until] lets go as unparked was taken out
      of the queue by another thread, and a thread for which [timed_out] says
      so under the queue lock is still queued;
    - no wake-up is lost: a thread that was taken out of the queue does not
      stay asleep, and the thread that wakes it does not hang either. *)

From S2P Require Import Prelude Conc.
Local Open Scope Z_scope.
Local Open Scope prog_scope.

(** The actions of a parker, with those of the queue the thread waits in: its
    lock, and whether the thread is in it. *)
Inductive hact (pact : Type) : Type :=
| AP (x : pact)
| AQLock
| AQUnlock
| AQSet (b : bool)
| AQGet.
Arguments AP {pact} x.
Arguments AQLock {pact}.
Arguments AQUnlock {pact}.
Arguments AQSet {pact} b.
Arguments AQGet {pact}.

Definition hresp {pact : Type} (presp : pact → Type) (x : hact pact) : Type :=
  match x with AP x => presp x | AQGet => bool | _ => unit end.

(** [trait ThreadParkerT] and [trait UnparkHandleT]: the state of one parker
    and of the platform underneath, its actions, and the methods as programs. *)
Class Parker := MkParker {
  pst : Type;
  pact : Type;
  presp : pact → Type;
  pexec : tid → choice → ∀ x : pact, pst → option (pst * presp x);
  handle : Type;
  IS_CHEAP_TO_CONSTRUCT : bool;
  parker_new : pst;
  prepare_park : prog (hact pact) (hresp presp) unit;
  timed_out : prog (hact pact) (hresp presp) bool;
  park : prog (hact pact) (hresp presp) unit;
  park_until : Z → prog (hact pact) (hresp presp) bool;
  unpark_lock : prog (hact pact) (hresp presp) handle;
  unpark : handle → prog (hact pact) (hresp presp) unit;
}.

(** The queue lock and the queue as far as this thread is concerned. *)
Record hstate (P : Type) := MkH {
  parker : P;
  qlock : option tid;
  queued : bool;
}.
Arguments MkH {P} _ _ _.
Arguments parker {P} _.
Arguments qlock {P} _.
Arguments queued {P} _.

Definition hexec {P A : Type} {R : A → Type}
    (ex : tid → choice → ∀ x : A, P → option (P * R x)) (t : tid) (c : choice) (x : hact A)
    : hstate P → option (hstate P * hresp R x) :=
  match x with
  | AP x => λ s,
      match ex t c x (parker s) with
      | Some (p, v) => Some (MkH p (qlock s) (queued s), v)
      | None => None
      end
  | AQLock => λ s,
      match qlock s with
      | None => Some (MkH (parker s) (Some t) (queued s), tt)
      | Some _ => None
      end
  | AQUnlock => λ s, Some (MkH (parker s) None (queued s), tt)
  | AQSet b => λ s, Some (MkH (parker s) (qlock s) b, tt)
  | AQGet => λ s, Some (s, queued s)
  end.

Section protocol.
Context {PK : Parker}.

Abbreviation hprog := (prog (hact pact) (hresp presp)).

Definition queue_lock : hprog unit := Act AQLock Ret.
Definition queue_unlock : hprog unit := Act AQUnlock Ret.
Definition set_queued (b : bool) : hprog unit := Act (AQSet b) Ret.
Definition get_queued : hprog bool := Act AQGet Ret.

(** What the thread relies on when its wait is over. *)
Definition expect_queued (b : bool) : hprog unit :=
  q <- get_queued;; if Bool.eqb q b then Ret tt else Panic "the queue disagrees".

(** One call of [park] of the parking lot, as far as the parker is concerned. *)
Definition wait_once (timeout : option Z) : hprog unit :=
  queue_lock;;
  prepare_park;;
  set_queued true;;
  queue_unlock;;
  unparked <- match timeout with
              | None => park;; Ret true
              | Some d => park_until d
              end;;
  if unparked : bool then expect_queued false
  else
    queue_lock;;
    expired <- timed_out;;
    if expired : bool then expect_queued true;; set_queued false;; queue_unlock
    else expect_queued false;; queue_unlock.

Fixpoint waiter (waits : list (option Z)) : hprog unit :=
  match waits with
  | [] => Ret tt
  | d :: waits => wait_once d;; waiter waits
  end.

(** A thread that takes the waiting one out of the queue, if it is there, and
    wakes it. *)
Definition wake_once : hprog unit :=
  queue_lock;;
  q <- get_queued;;
  if q : bool then
    set_queued false;;
    h <- unpark_lock;;
    queue_unlock;;
    unpark h
  else queue_unlock.

Fixpoint waker (n : nat) : hprog unit :=
  match n with O => Ret tt | S n => wake_once;; waker n end.

(** Thread 0 waits; the others wake it. *)
Definition parker_start : hstate pst := MkH parker_new None false.
Definition parker_pool (waits : list (option Z)) (wakes : tid → nat) : tid → hprog unit :=
  λ t, match t with O => waiter waits | S _ => waker (wakes t) end.

Abbreviation hreachable waits wakes :=
  (reachable (hexec pexec) parker_start (parker_pool waits wakes)).

(** The contract. *)
Class ParkerOk : Prop := {
  parker_no_panic waits wakes s ps t m : hreachable waits wakes s ps → ps t ≠ Panic m;
  parker_no_lost_wakeup waits wakes s ps :
    hreachable waits wakes s ps → (∀ t c, step1 (hexec pexec) t c (ps t) s = None) →
    (∀ t, t ≠ 0%nat → ps t = Ret tt) ∧ (ps 0%nat = Ret tt ∨ queued s = true);
}.

(** The contract from the program logic: the methods have the specifications
    that take an idle thread to an idle thread, and a thread that is blocked
    when all the others are idle or blocked is the waiting one, in the queue. *)
Section contract.
Context {role : Type} (Inv : hstate pst → unit → (tid → role) → Prop)
  (blocked : tid → role → hstate pst → Prop) (idle : role).
Abbreviation kwp := (wp (hexec pexec) Inv (λ (_ : string) (_ : role), False) blocked).
Context (Inv_start : Inv parker_start tt (λ _, idle))
  (wait_spec : ∀ d, kwp 0%nat (wait_once d) idle (λ _ r, r = idle))
  (wake_spec : ∀ t, t ≠ 0%nat → kwp t wake_once idle (λ _ r, r = idle))
  (stuck : ∀ s g ρ, Inv s g ρ → (∀ t, ρ t = idle ∨ blocked t (ρ t) s) →
     (∀ t, t ≠ 0%nat → ¬ blocked t (ρ t) s) ∧ (blocked 0%nat (ρ 0%nat) s → queued s = true)).

Lemma wp_waiter waits : kwp 0%nat (waiter waits) idle (λ _ r, r = idle).
Proof.
  induction waits as [|d waits IH]; cbn [waiter]; [by wp_pure|]. wp_pure.
  eapply wp_mono; [|apply wait_spec]. by intros [] ? ->.
Qed.

Lemma wp_waker t n : t ≠ 0%nat → kwp t (waker n) idle (λ _ r, r = idle).
Proof.
  intros Ht. induction n as [|n IH]; cbn [waker]; [by wp_pure|]. wp_pure.
  eapply wp_mono; [|by apply wake_spec]. by intros [] ? ->.
Qed.

Lemma parker_verified waits wakes s ps :
  hreachable waits wakes s ps →
  verified (hexec pexec) Inv (λ (_ : string) (_ : role), False) blocked (λ r, r = idle) (s, ps).
Proof.
  intros Hr. eapply adequacy; [|exact Hr]. exists tt, (λ _, idle). split; [exact Inv_start|].
  intros [|t]; cbn; [apply wp_waiter|by apply wp_waker].
Qed.

Lemma parker_ok : ParkerOk.
Proof.
  split.
  - intros waits wakes s ps t m (g & ρ & HI & Hwp)%parker_verified E. cbn in Hwp. specialize (Hwp t).
    rewrite E in Hwp. by apply wp_no_panic in Hwp.
  - intros waits wakes s ps (g & ρ & HI & Hwp)%parker_verified Hst. cbn in HI, Hwp.
    assert (Hun : ∀ t, (ps t = Ret tt ∧ ρ t = idle) ∨ blocked t (ρ t) s).
    { intros t. destruct (wp_progress _ _ _ _ _ _ s g ρ _ (Hwp t) HI)
        as [([] & E & Hr)|[(m & _ & [])|[[c [? E]]|?]]]; [by left|by rewrite Hst in E|by right]. }
    destruct (stuck s g ρ HI) as [Hw Hm]; [intros t; destruct (Hun t) as [[_ ?]|?]; by auto|].
    split; [intros t Ht|]; [destruct (Hun t) as [[? _]|Hb]|destruct (Hun 0%nat) as [[? _]|Hb]];
      [done|by destruct (Hw t Ht)|by left|right; by apply Hm].
Qed.
End contract.
End protocol.
