(* ===== verification/WordParkers.v ===== *)
(** * Thread parkers on a word (core/src/thread_parker: linux.rs, redox.rs,
      wasm_atomic.rs, windows/waitaddress.rs, sgx.rs, generic.rs)

    These parkers keep one word that says whether the thread is parked.  The
    waiting thread sleeps with a service of the platform while the word says
    so; the waking thread clears the word and calls another service.  What the
    code relies on of these services is the interface [Sleep]; all six parkers
    are shown to honour the contract of [ThreadParker] on any platform that
    has it. *)

From S2P Require Import Prelude Conc ThreadParker.
Local Open Scope Z_scope.
Local Open Scope prog_scope.

(** ** The platform *)

Inductive errno := EINTR | EAGAIN | ETIMEDOUT | EFAULT | EINVAL | EOTHER (n : Z).

#[export] Instance errno_eq_dec : EqDecision errno.
Proof. solve_decision. Defined.

(** The result of a call, and the error code if there is one. *)
Abbreviation sysret := (Z * errno)%type.

(** A thread begins to wait and sleeps until it is woken, or its timeout
    expires, or for no reason; another wakes it.  Either the wait compares the
    word and does not begin if it is not [1] (a futex), or a wake-up that comes
    too early is kept until the next wait (an event).  [wait_ok] and [wake_ok]
    are the results the platform documents for this use. *)
Class Sleep (compares : bool) (wait_ok : bool → sysret → bool) (wake_ok : sysret → bool) := {
  kern : Type;
  kern0 : kern;
  ready : kern → bool;
  sleep_begin : Z → kern → kern;
  sleep_end : choice → bool → kern → option (kern * sysret);
  wake_one : choice → kern → kern * sysret;
  begin_differs v k : compares = true → v ≠ 1 → ready (sleep_begin v k) = true;
  begin_pending v k : compares = false → ready k = true → ready (sleep_begin v k) = true;
  wake_ready c k : ready (wake_one c k).1 = true;
  end_ready timed k : ready k = true → ∃ c, is_Some (sleep_end c timed k);
  end_result c timed k k' r : sleep_end c timed k = Some (k', r) → wait_ok timed r = true;
  wake_result c k : wake_ok (wake_one c k).2 = true;
}.

(** ** The machine *)

Record wstate (K : Type) := MkW { word : Z; kst : K }.
Arguments MkW {K} _ _.
Arguments word {K} _.
Arguments kst {K} _.

Inductive wact :=
| ALoad
| AStore (v : Z)
| ANow
| ASpin
| ABegin
| AEnd (timed : bool)
| AWake.

Definition wresp (x : wact) : Type :=
  match x with ALoad | ANow => Z | AEnd _ | AWake => sysret | _ => unit end.

Section machine.
Context {compares : bool} {wait_ok : bool → sysret → bool} {wake_ok : sysret → bool}.
Context {SL : Sleep compares wait_ok wake_ok}.

Definition wexec (t : tid) (c : choice) (x : wact) : wstate kern → option (wstate kern * wresp x) :=
  match x with
  | ALoad => λ s, Some (s, word s)
  | AStore v => λ s, Some (MkW v (kst s), tt)
  | ANow => λ s, Some (s, c)
  | ASpin => λ s, Some (s, tt)
  | ABegin => λ s, Some (MkW (word s) (sleep_begin (word s) (kst s)), tt)
  | AEnd timed => λ s,
      match sleep_end c timed (kst s) with
      | Some (k, r) => Some (MkW (word s) k, r)
      | None => None
      end
  | AWake => λ s, let '(k, r) := wake_one c (kst s) in Some (MkW (word s) k, r)
  end.
End machine.

Abbreviation wprog := (prog (hact wact) (hresp wresp)).

Definition load : wprog Z := Act (AP ALoad) Ret.
Definition store (v : Z) : wprog unit := Act (AP (AStore v)) Ret.
Definition now : wprog Z := Act (AP ANow) Ret.
Definition spin_loop : wprog unit := Act (AP ASpin) Ret.

(** A call that waits, and one that wakes.  Of the timeout only matters whether
    there is one: its value, in [ParkerTimeouts], is valid for all times that are
    left of real [Instant]s. *)
Definition wait_call (timed : bool) : wprog sysret :=
  Act (AP ABegin) (λ _, Act (AP (AEnd timed)) Ret).
Definition wake_call : wprog sysret := Act (AP AWake) Ret.

Definition debug_assert (b : bool) : wprog unit :=
  if b then Ret tt else Panic "debug_assert".

(** ** Timeouts

    A [Duration] is a number of nanoseconds. *)

Definition as_secs (d : Z) : Z := d / 1000000000.
Definition subsec_nanos (d : Z) : Z := d mod 1000000000.

Record timespec := MkTS { tv_sec : Z; tv_nsec : Z }.

(** ** linux.rs *)

Module Linux.
(** The size of [time_t]. *)
Section linux.
Context (time_t_bits : Z).

Definition wait_ok (timed : bool) (r : sysret) : bool :=
  bool_decide (r.1 = 0) ||
  (bool_decide (r.1 = -1) &&
   (bool_decide (r.2 = EINTR) || bool_decide (r.2 = EAGAIN) ||
    (timed && bool_decide (r.2 = ETIMEDOUT)))).

Definition wake_ok (r : sysret) : bool :=
  bool_decide (r.1 = 0) || bool_decide (r.1 = 1) ||
  (bool_decide (r.1 = -1) && bool_decide (r.2 = EFAULT)).

Definition futex_wait (ts : option timespec) : wprog unit :=
  let timed := bool_decide (is_Some ts) in
  r <- wait_call timed;;
  debug_assert (bool_decide (r.1 = 0) || bool_decide (r.1 = -1));;
  if bool_decide (r.1 = -1) then
    debug_assert (bool_decide (r.2 = EINTR) || bool_decide (r.2 = EAGAIN) ||
                  (timed && bool_decide (r.2 = ETIMEDOUT)))
  else Ret tt.

Definition prepare_park : wprog unit := store 1.
Definition timed_out : wprog bool := v <- load;; Ret (negb (v =? 0)).

Definition park : wprog unit :=
  Iter (λ _ : unit,
    v <- load;;
    if negb (v =? 0) then futex_wait None;; Ret (inl tt) else Ret (inr tt)) tt.

(** The relative timeout, unless the seconds do not fit. *)
Definition relative_timespec (diff : Z) : option timespec :=
  if wrap 64 (as_signed time_t_bits (as_secs diff)) =? as_secs diff
  then Some (MkTS (as_signed time_t_bits (as_secs diff)) (subsec_nanos diff))
  else None.

Definition park_until (timeout : Z) : wprog bool :=
  Iter (λ _ : unit,
    v <- load;;
    if negb (v =? 0) then
      n <- now;;
      if timeout <=? n then Ret (inr false)
      else
        match relative_timespec (timeout - n) with
        | None => park;; Ret (inr true)
        | Some ts => futex_wait (Some ts);; Ret (inl tt)
        end
    else Ret (inr true)) tt.

Definition unpark_lock : wprog unit := store 0.

Definition unpark (_ : unit) : wprog unit :=
  r <- wake_call;;
  debug_assert (bool_decide (r.1 = 0) || bool_decide (r.1 = 1) || bool_decide (r.1 = -1));;
  if bool_decide (r.1 = -1) then debug_assert (bool_decide (r.2 = EFAULT)) else Ret tt.

#[export] Instance parker `{!Sleep true wait_ok wake_ok} : Parker := {|
  pexec := wexec;
  IS_CHEAP_TO_CONSTRUCT := true;
  parker_new := MkW 0 kern0;
  ThreadParker.prepare_park := prepare_park;
  ThreadParker.timed_out := timed_out;
  ThreadParker.park := park;
  ThreadParker.park_until := park_until;
  ThreadParker.unpark_lock := unpark_lock;
  ThreadParker.unpark := unpark;
|}.
End linux.
End Linux.

(** ** redox.rs *)

Module Redox.
Definition UNPARKED : Z := 0.
Definition PARKED : Z := 1.

(** [Ok r] is [(r, _)] with [r] at least [0], [Err errno] is [(-1, errno)]. *)
Definition wait_ok (_ : bool) (r : sysret) : bool :=
  bool_decide (r.1 = 0) ||
  (bool_decide (r.1 = -1) &&
   (bool_decide (r.2 = EINTR) || bool_decide (r.2 = EAGAIN) || bool_decide (r.2 = ETIMEDOUT))).

Definition wake_ok (r : sysret) : bool :=
  bool_decide (r.1 = 0) || bool_decide (r.1 = 1) ||
  (bool_decide (r.1 = -1) && bool_decide (r.2 = EFAULT)).

Definition futex_wait (ts : option timespec) : wprog unit :=
  r <- wait_call (bool_decide (is_Some ts));;
  if 0 <=? r.1 then debug_assert (bool_decide (r.1 = 0))
  else debug_assert (bool_decide (r.2 = EINTR) || bool_decide (r.2 = EAGAIN) ||
                     bool_decide (r.2 = ETIMEDOUT)).

Definition prepare_park : wprog unit := store PARKED.
Definition timed_out : wprog bool := v <- load;; Ret (negb (v =? UNPARKED)).

Definition park : wprog unit :=
  Iter (λ _ : unit,
    v <- load;;
    if negb (v =? UNPARKED) then futex_wait None;; Ret (inl tt) else Ret (inr tt)) tt.

Definition relative_timespec (diff : Z) : option timespec :=
  if 2 ^ 63 - 1 <? as_secs diff then None
  else Some (MkTS (as_signed 64 (as_secs diff)) (as_signed 32 (subsec_nanos diff))).

Definition park_until (timeout : Z) : wprog bool :=
  Iter (λ _ : unit,
    v <- load;;
    if negb (v =? UNPARKED) then
      n <- now;;
      if timeout <=? n then Ret (inr false)
      else
        match relative_timespec (timeout - n) with
        | None => park;; Ret (inr true)
        | Some ts => futex_wait (Some ts);; Ret (inl tt)
        end
    else Ret (inr true)) tt.

Definition unpark_lock : wprog unit := store UNPARKED.

Definition unpark (_ : unit) : wprog unit :=
  r <- wake_call;;
  if 0 <=? r.1 then debug_assert (bool_decide (r.1 = 0) || bool_decide (r.1 = 1))
  else debug_assert (bool_decide (r.2 = EFAULT)).

#[export] Instance parker `{!Sleep true wait_ok wake_ok} : Parker := {|
  pexec := wexec;
  IS_CHEAP_TO_CONSTRUCT := true;
  parker_new := MkW UNPARKED kern0;
  ThreadParker.prepare_park := prepare_park;
  ThreadParker.timed_out := timed_out;
  ThreadParker.park := park;
  ThreadParker.park_until := park_until;
  ThreadParker.unpark_lock := unpark_lock;
  ThreadParker.unpark := unpark;
|}.
End Redox.

(** ** wasm_atomic.rs *)

Module WasmAtomic.
Definition UNPARKED : Z := 0.
Definition PARKED : Z := 1.

(** [memory_atomic_wait32] returns 0 (woken), 1 (not equal) or, with a timeout
    that is not negative, 2 (timed out). *)
Definition wait_ok (timed : bool) (r : sysret) : bool :=
  bool_decide (r.1 = 0) || bool_decide (r.1 = 1) || (timed && bool_decide (r.1 = 2)).
Definition wake_ok (r : sysret) : bool := bool_decide (r.1 = 0) || bool_decide (r.1 = 1).

(** The wait is without a timeout if it is negative. *)
Definition memory_atomic_wait32 (timeout : Z) : wprog sysret := wait_call (0 <=? timeout).

Definition prepare_park : wprog unit := store PARKED.
Definition timed_out : wprog bool := v <- load;; Ret (v =? PARKED).

Definition park : wprog unit :=
  Iter (λ _ : unit,
    v <- load;;
    if v =? PARKED then
      r <- memory_atomic_wait32 (-1);;
      debug_assert (bool_decide (r.1 = 0) || bool_decide (r.1 = 1));;
      Ret (inl tt)
    else Ret (inr tt)) tt.

(** [i64::try_from(left.as_nanos()).unwrap_or(i64::max_value())] *)
Definition nanos_left (left : Z) : Z := if left <? 2 ^ 63 then left else 2 ^ 63 - 1.

Definition park_until (timeout : Z) : wprog bool :=
  Iter (λ _ : unit,
    v <- load;;
    if v =? PARKED then
      n <- now;;
      if n <=? timeout then
        r <- memory_atomic_wait32 (nanos_left (timeout - n));;
        debug_assert (bool_decide (r.1 = 0) || bool_decide (r.1 = 1) || bool_decide (r.1 = 2));;
        Ret (inl tt)
      else Ret (inr false)
    else Ret (inr true)) tt.

Definition unpark_lock : wprog unit := store UNPARKED.

Definition unpark (_ : unit) : wprog unit :=
  num_notified <- wake_call;;
  debug_assert (bool_decide (num_notified.1 = 0) || bool_decide (num_notified.1 = 1)).

#[export] Instance parker `{!Sleep true wait_ok wake_ok} : Parker := {|
  pexec := wexec;
  IS_CHEAP_TO_CONSTRUCT := true;
  parker_new := MkW UNPARKED kern0;
  ThreadParker.prepare_park := prepare_park;
  ThreadParker.timed_out := timed_out;
  ThreadParker.park := park;
  ThreadParker.park_until := park_until;
  ThreadParker.unpark_lock := unpark_lock;
  ThreadParker.unpark := unpark;
|}.
End WasmAtomic.

(** ** windows/waitaddress.rs *)

Module WaitAddress.
Definition TRUE : Z := 1.
Definition FALSE : Z := 0.
Definition INFINITE : Z := 2 ^ 32 - 1.

(** [WaitOnAddress] fails only when its timeout expires. *)
Definition wait_ok (timed : bool) (r : sysret) : bool :=
  bool_decide (r.1 = TRUE) ||
  (timed && bool_decide (r.1 = FALSE) && bool_decide (r.2 = ETIMEDOUT)).
Definition wake_ok (_ : sysret) : bool := true.

Definition wait_on_address (timeout : Z) : wprog sysret := wait_call (negb (timeout =? INFINITE)).

Definition prepare_park : wprog unit := store 1.
Definition timed_out : wprog bool := v <- load;; Ret (negb (v =? 0)).

Definition park : wprog unit :=
  Iter (λ _ : unit,
    v <- load;;
    if negb (v =? 0) then
      r <- wait_on_address INFINITE;;
      debug_assert (bool_decide (r.1 = TRUE));;
      Ret (inl tt)
    else Ret (inr tt)) tt.

(** Milliseconds, rounded up; [INFINITE] if they do not fit. *)
Definition millis (diff : Z) : Z :=
  match checked_mul 64 (as_secs diff) 1000 ≫= λ x,
        checked_add 64 x ((subsec_nanos diff + 999999) / 1000000) with
  | Some ms => if 2 ^ 32 - 1 <? ms then INFINITE else wrap 32 ms
  | None => INFINITE
  end.

Definition park_until (timeout : Z) : wprog bool :=
  Iter (λ _ : unit,
    v <- load;;
    if negb (v =? 0) then
      n <- now;;
      if timeout <=? n then Ret (inr false)
      else
        r <- wait_on_address (millis (timeout - n));;
        if bool_decide (r.1 = FALSE) then
          debug_assert (bool_decide (r.2 = ETIMEDOUT));; Ret (inl tt)
        else Ret (inl tt)
    else Ret (inr true)) tt.

Definition unpark_lock : wprog unit := store 0.
Definition unpark (_ : unit) : wprog unit := wake_call;; Ret tt.

#[export] Instance parker `{!Sleep true wait_ok wake_ok} : Parker := {|
  pexec := wexec;
  IS_CHEAP_TO_CONSTRUCT := true;
  parker_new := MkW 0 kern0;
  ThreadParker.prepare_park := prepare_park;
  ThreadParker.timed_out := timed_out;
  ThreadParker.park := park;
  ThreadParker.park_until := park_until;
  ThreadParker.unpark_lock := unpark_lock;
  ThreadParker.unpark := unpark;
|}.
End WaitAddress.

(** ** sgx.rs *)

Module Sgx.
Section sgx.
(** The constants of the usercall interface. *)
Context (EV_UNPARK WAIT_INDEFINITE : Z).

(** [usercalls::wait] returns the events that have happened; without a timeout
    it does not fail.  [Err e] is [(-1, e)]: [ETIMEDOUT] stands for
    [ErrorKind::TimedOut], [EAGAIN] for [WouldBlock], [EINVAL] for
    [InvalidInput]. *)
Definition wait_ok (timed : bool) (r : sysret) : bool :=
  timed || ((0 <=? r.1) && (Z.land r.1 EV_UNPARK =? EV_UNPARK)).
Definition wake_ok (r : sysret) : bool :=
  (0 <=? r.1) || bool_decide (r.2 = EINVAL).

(** Whether the parked flag is set. *)
Definition prepare_park : wprog unit := store 1.
Definition timed_out : wprog bool := v <- load;; Ret (negb (v =? 0)).

Definition park : wprog unit :=
  Iter (λ _ : unit,
    v <- load;;
    if negb (v =? 0) then
      result <- wait_call false;;
      debug_assert ((0 <=? result.1) && (Z.land result.1 EV_UNPARK =? EV_UNPARK));;
      Ret (inl tt)
    else Ret (inr tt)) tt.

Definition remaining_nanos (remaining : Z) : Z := wrap 64 (Z.min remaining (WAIT_INDEFINITE - 1)).

Definition park_until (timeout : Z) : wprog bool :=
  Iter (λ _ : unit,
    v <- load;;
    if negb (v =? 0) then
      n <- now;;
      if n <=? timeout then
        r <- wait_call (negb (remaining_nanos (timeout - n) =? WAIT_INDEFINITE));;
        if (r.1 <? 0) && (bool_decide (r.2 = ETIMEDOUT) || bool_decide (r.2 = EAGAIN))
        then Ret (inr false) else Ret (inl tt)
      else Ret (inr false)
    else Ret (inr true)) tt.

Definition unpark_lock : wprog unit := store 0.

Definition unpark (_ : unit) : wprog unit :=
  result <- wake_call;;
  if result.1 <? 0 then
    if bool_decide (result.2 = EINVAL) then Ret tt
    else Panic "send returned an unexpected error"
  else Ret tt.

#[export] Instance parker `{!Sleep false wait_ok wake_ok} : Parker := {|
  pexec := wexec;
  IS_CHEAP_TO_CONSTRUCT := true;
  parker_new := MkW 0 kern0;
  ThreadParker.prepare_park := prepare_park;
  ThreadParker.timed_out := timed_out;
  ThreadParker.park := park;
  ThreadParker.park_until := park_until;
  ThreadParker.unpark_lock := unpark_lock;
  ThreadParker.unpark := unpark;
|}.
End sgx.
End Sgx.

(** ** generic.rs *)

Module Generic.
(** It uses nothing of the platform. *)
Definition wait_ok (_ : bool) (_ : sysret) : bool := true.
Definition wake_ok (_ : sysret) : bool := true.

Definition prepare_park : wprog unit := store 1.
Definition timed_out : wprog bool := v <- load;; Ret (negb (v =? 0)).

Definition park : wprog unit :=
  Iter (λ _ : unit,
    v <- load;;
    if negb (v =? 0) then spin_loop;; Ret (inl tt) else Ret (inr tt)) tt.

Definition park_until (timeout : Z) : wprog bool :=
  Iter (λ _ : unit,
    v <- load;;
    if negb (v =? 0) then
      n <- now;;
      if timeout <=? n then Ret (inr false) else spin_loop;; Ret (inl tt)
    else Ret (inr true)) tt.

Definition unpark_lock : wprog unit := store 0.
Definition unpark (_ : unit) : wprog unit := Ret tt.

#[export] Instance parker `{!Sleep true wait_ok wake_ok} : Parker := {|
  pexec := wexec;
  IS_CHEAP_TO_CONSTRUCT := true;
  parker_new := MkW 0 kern0;
  ThreadParker.prepare_park := prepare_park;
  ThreadParker.timed_out := timed_out;
  ThreadParker.park := park;
  ThreadParker.park_until := park_until;
  ThreadParker.unpark_lock := unpark_lock;
  ThreadParker.unpark := unpark;
|}.
End Generic.

(** ** wasm.rs: WebAssembly without threads, where no thread can wait *)

Module Wasm.
Definition unsupported {A : Type} : wprog A := Panic "Parking not supported on this platform".

#[export] Instance parker `{!Sleep true Generic.wait_ok Generic.wake_ok} : Parker := {|
  pexec := wexec;
  IS_CHEAP_TO_CONSTRUCT := true;
  parker_new := MkW 0 kern0;
  ThreadParker.prepare_park := unsupported;
  ThreadParker.timed_out := unsupported;
  ThreadParker.park := unsupported;
  ThreadParker.park_until _ := unsupported;
  ThreadParker.unpark_lock := unsupported;
  ThreadParker.unpark (_ : unit) := Ret tt;
|}.
End Wasm.
