(* ===== verification/WordParkerProof.v ===== *)
(** * The word parkers honour the contract

    The invariant that the parkers of [WordParkers] share, the rules for their
    actions, and the contract for each of them. *)

From S2P Require Import Prelude Conc ThreadParker WordParkers.
Local Open Scope Z_scope.

(** Where a thread is.  The waiting thread: not waiting, with the word set, in
    the queue or taken out of it, about to sleep, in the platform's wait, and
    expired in the queue.  A waking thread: it has seen the thread in the queue,
    it has taken it out, and it has still to make the wake-up call. *)
Inductive phase := Out | Prep | In | Pre | Ker | InQ | Saw | Took | Pend.

Record role := Role { hold : bool; ph : phase }.

Section proof.
Context {compares : bool} {wait_ok : bool → sysret → bool} {wake_ok : sysret → bool}.
Context {SL : Sleep compares wait_ok wake_ok}.
(** Whether the parker uses the platform's wait at all. *)
Context (sleeps : bool).
Implicit Types (s : hstate (wstate kern)) (ρ : tid → role) (t u : tid) (r : role).

Definition taken ρ : Prop := ∃ u, u ≠ 0%nat ∧ ph (ρ u) = Took.
Definition pending ρ : Prop := ∃ u, u ≠ 0%nat ∧ ph (ρ u) = Pend.

(** The state by where the waiting thread is. *)
Definition main s ρ (p : phase) : Prop :=
  match p with
  | Out => queued s = false ∧ ¬ taken ρ
  | Prep => queued s = false ∧ ¬ taken ρ ∧ word (parker s) = 1
  | In | Pre | Ker =>
      (word (parker s) = 1 ↔ queued s = true ∨ taken ρ) ∧ (queued s = true → ¬ taken ρ)
  | InQ => queued s = true ∧ ¬ taken ρ
  | Saw | Took | Pend => False
  end.

(** These phases are left before the queue lock is released. *)
Definition held_phase (p : phase) : bool :=
  match p with Prep | InQ | Saw | Took => true | _ => false end.

Definition waker_phase (p : phase) : bool :=
  match p with Out | Saw | Took | Pend => true | _ => false end.

Record PInv s (g : unit) ρ : Prop := {
  pi_lock t : qlock s = Some t ↔ hold (ρ t) = true;
  pi_word : word (parker s) = 0 ∨ word (parker s) = 1;
  pi_main : main s ρ (ph (ρ 0%nat));
  pi_ker : ph (ρ 0%nat) = Ker → word (parker s) = 0 → ready (kst (parker s)) = true ∨ pending ρ;
  pi_pre : ph (ρ 0%nat) = Pre → compares = false → word (parker s) = 0 →
    ready (kst (parker s)) = true ∨ pending ρ;
  pi_sleeps : ph (ρ 0%nat) = Pre ∨ ph (ρ 0%nat) = Ker → sleeps = true;
  pi_waker t : t ≠ 0%nat → waker_phase (ph (ρ t)) = true;
  pi_saw t : ph (ρ t) = Saw → queued s = true;
  pi_held t : held_phase (ph (ρ t)) = true → hold (ρ t) = true;
}.

(** A thread that cannot go on waits for the queue lock, or sleeps. *)
Definition blocked t r s : Prop :=
  (hold r = false ∧ qlock s ≠ None) ∨ (t = 0%nat ∧ r = Role false Ker ∧ ready (kst (parker s)) = false).

Abbreviation pwp := (wp (hexec wexec) PInv (λ (_ : string) (_ : role), False) blocked).

(** ** Rules *)

Lemma held_unique s g ρ t u : PInv s g ρ → hold (ρ t) = true → hold (ρ u) = true → t = u.
Proof. intros HI H1%(pi_lock _ _ _ HI) H2%(pi_lock _ _ _ HI). congruence. Qed.

(** Whoever holds the lock knows that nobody else has taken the thread. *)
Lemma no_taken s g ρ t : PInv s g ρ → hold (ρ t) = true → ph (ρ t) ≠ Took → ¬ taken ρ.
Proof.
  intros HI Ht Hp (u & _ & Hu). assert (Hh : hold (ρ u) = true) by (apply (pi_held _ _ _ HI); by rewrite Hu).
  rewrite (held_unique _ _ _ _ _ HI Ht Hh) in Hp. done.
Qed.

Lemma taken_0 ρ r : taken (<[0%nat := r]> ρ) ↔ taken ρ.
Proof. unfold taken. split; intros (u & Hu & E); exists u; (split; [done|]); by fn_simp. Qed.
Lemma pending_0 ρ r : pending (<[0%nat := r]> ρ) ↔ pending ρ.
Proof. unfold pending. split; intros (u & Hu & E); exists u; (split; [done|]); by fn_simp. Qed.

Ltac prove_lock H := intros ?u; rewrite H; fn_cases 0%nat u; done.

(** A step of the waiting thread that does not touch the lock. *)
Lemma p_main s g ρ s' r' :
  PInv s g ρ → qlock s' = qlock s → hold r' = hold (ρ 0%nat) →
  (word (parker s') = 0 ∨ word (parker s') = 1) → main s' ρ (ph r') →
  (ph r' = Ker → word (parker s') = 0 → ready (kst (parker s')) = true ∨ pending ρ) →
  (ph r' = Pre → compares = false → word (parker s') = 0 →
     ready (kst (parker s')) = true ∨ pending ρ) →
  (ph r' = Pre ∨ ph r' = Ker → sleeps = true) → (held_phase (ph r') = true → hold r' = true) →
  (queued s' = queued s ∨ hold (ρ 0%nat) = true) → PInv s' g (<[0%nat := r']> ρ).
Proof.
  intros HI El Eh Hw Hm Hk Hp Hs Hnt Hq. split; fn_simp.
  - intros t. rewrite El, (pi_lock _ _ _ HI t). by fn_cases 0%nat t; rewrite ?Eh.
  - done.
  - unfold main in *. destruct (ph r'); rewrite ?taken_0; done.
  - by rewrite pending_0.
  - by rewrite pending_0.
  - done.
  - intros t Ht. fn_simp. by apply (pi_waker _ _ _ HI).
  - intros t Hs'. fn_cases 0%nat t; [by rewrite Hs' in Hm|].
    pose proof (pi_saw _ _ _ HI t Hs') as Hqs. destruct Hq as [->|Hq]; [done|].
    assert (Hh : hold (ρ t) = true) by (apply (pi_held _ _ _ HI); by rewrite Hs').
    by rewrite (held_unique _ _ _ _ _ HI Hq Hh) in *.
  - intros t. fn_cases 0%nat t; [done|apply (pi_held _ _ _ HI)].
Qed.

(** The queue lock. *)
Lemma wp_queue_lock {A} t x (k : unit → wprog A) Q :
  pwp t (k tt) (Role true x) Q → pwp t (Act AQLock k) (Role false x) Q.
Proof.
  intros Hk. apply wp_act.
  { intros s g ρ Hr HI. cbn. destruct (qlock s) as [u|] eqn:E; [right; left; by rewrite E|].
    left. exists 0. by eexists. }
  intros s g ρ c s' v Hr HI Hex. cbn in Hex. destruct (qlock s) eqn:E; [done|].
  injection Hex as <- <-. exists g, (Role true x). split; [|done]. pose proof HI as [I1 I2 I3 I4 I5 I6 I7 I9 I8].
  assert (Hph : ∀ u, ph ((<[t := Role true x]> ρ : tid → role) u) = ph (ρ u)).
  { intros u. fn_cases t u; [by rewrite Hr|done]. }
  assert (Ht : taken (<[t := Role true x]> ρ) ↔ taken ρ) by (unfold taken; by setoid_rewrite Hph).
  assert (Hp : pending (<[t := Role true x]> ρ) ↔ pending ρ) by (unfold pending; by setoid_rewrite Hph).
  split; rewrite ?Hph, ?Hp; cbn [qlock queued parker]; try done.
  - intros u. fn_cases t u; [done|]. split; [congruence|]. intros Hu%I1. congruence.
  - unfold main in *. destruct (ph (ρ 0%nat)); cbn [queued parker]; rewrite ?Ht; done.
  - intros u. rewrite Hph. apply I7.
  - intros u. rewrite Hph. apply I9.
  - intros u. rewrite Hph. intros Hu. fn_cases t u; [done|]. by apply I8.
Qed.

Lemma wp_queue_unlock {A} t x (k : unit → wprog A) Q :
  held_phase x = false → pwp t (k tt) (Role false x) Q → pwp t (Act AQUnlock k) (Role true x) Q.
Proof.
  intros Hx Hk. apply wp_act; [intros; left; exists 0; by eexists|].
  intros s g ρ c s' v Hr HI Hex. cbn in Hex. injection Hex as <- <-.
  exists g, (Role false x). split; [|done]. pose proof HI as [I1 I2 I3 I4 I5 I6 I7 I9 I8].
  assert (Hph : ∀ u, ph ((<[t := Role false x]> ρ : tid → role) u) = ph (ρ u)).
  { intros u. fn_cases t u; [by rewrite Hr|done]. }
  assert (Ht : taken (<[t := Role false x]> ρ) ↔ taken ρ) by (unfold taken; by setoid_rewrite Hph).
  assert (Hp : pending (<[t := Role false x]> ρ) ↔ pending ρ) by (unfold pending; by setoid_rewrite Hph).
  assert (Hl : qlock s = Some t) by (apply I1; by rewrite Hr).
  split; rewrite ?Hph, ?Hp; cbn [qlock queued parker]; try done.
  - intros u. split; [done|]. fn_cases t u; [done|]. intros Hu%I1. congruence.
  - unfold main in *. destruct (ph (ρ 0%nat)); cbn [queued parker]; rewrite ?Ht; done.
  - intros u. rewrite Hph. apply I7.
  - intros u. rewrite Hph. apply I9.
  - intros u. rewrite Hph. intros Hu. fn_cases t u; [rewrite Hr in Hu; cbn in Hu; congruence|]. by apply I8.
Qed.

(** A step of a waking thread that does not touch the lock. *)
Lemma p_waker s g ρ t s' r' :
  PInv s g ρ → t ≠ 0%nat → qlock s' = qlock s → hold r' = hold (ρ t) →
  (word (parker s') = 0 ∨ word (parker s') = 1) →
  main s' (<[t := r']> ρ) (ph (ρ 0%nat)) →
  (ph (ρ 0%nat) = Ker ∨ ph (ρ 0%nat) = Pre → word (parker s') = 0 →
     word (parker s) = 0 ∧ kst (parker s') = kst (parker s) ∧ (pending ρ → pending (<[t := r']> ρ)) ∨
     ready (kst (parker s')) = true ∨ pending (<[t := r']> ρ)) →
  waker_phase (ph r') = true → (ph r' = Saw → queued s' = true) →
  (queued s' = queued s ∨ hold (ρ t) = true) →
  (held_phase (ph r') = true → hold r' = true) → PInv s' g (<[t := r']> ρ).
Proof.
  intros HI Ht El Eh Hw Hm Hk Hwp Hsaw Hq Hh. split; fn_simp.
  - intros u. rewrite El, (pi_lock _ _ _ HI u). by fn_cases t u; rewrite ?Eh.
  - done.
  - done.
  - intros Ek Ew. destruct (Hk (or_introl Ek) Ew) as [(E & -> & Hp)|[?|?]]; [|by left|by right].
    destruct (pi_ker _ _ _ HI Ek E); [by left|right; by apply Hp].
  - intros Ek Ec Ew. destruct (Hk (or_intror Ek) Ew) as [(E & -> & Hp)|[?|?]]; [|by left|by right].
    destruct (pi_pre _ _ _ HI Ek Ec E); [by left|right; by apply Hp].
  - apply (pi_sleeps _ _ _ HI).
  - intros u Hu. fn_cases t u; [done|]. by apply (pi_waker _ _ _ HI).
  - intros u Hs'. fn_cases t u; [by apply Hsaw|].
    pose proof (pi_saw _ _ _ HI u Hs') as Hqs. destruct Hq as [->|Hq]; [done|].
    assert (Hh' : hold (ρ u) = true) by (apply (pi_held _ _ _ HI); by rewrite Hs').
    by pose proof (held_unique _ _ _ _ _ HI Hq Hh').
  - intros u. fn_cases t u; [done|apply (pi_held _ _ _ HI)].
Qed.

Ltac always := intros; left; exists 0; by eexists.
Ltac step s g ρ c HI :=
  let Hr := fresh "Hr" in let Hex := fresh "Hex" in
  apply wp_act; [always|]; intros s g ρ c ?s' ?v Hr HI Hex; cbn in Hex; injection Hex as <- <-.

(** *** The waiting thread *)

Lemma wp_prepare_word {A} (k : unit → wprog A) Q :
  pwp 0 (k tt) (Role true Prep) Q → pwp 0 (Act (AP (AStore 1)) k) (Role true Out) Q.
Proof.
  intros Hk. step s g ρ c HI. exists g, (Role true Prep). split; [|done].
  pose proof (pi_main _ _ _ HI) as Hm. rewrite Hr in Hm.
  apply (p_main s g ρ); cbn; try done; [by rewrite Hr|by right|by destruct Hm|naive_solver|by left].
Qed.

Lemma wp_enqueue {A} (k : unit → wprog A) Q :
  pwp 0 (k tt) (Role true In) Q → pwp 0 (Act (AQSet true) k) (Role true Prep) Q.
Proof.
  intros Hk. step s g ρ c HI. exists g, (Role true In). split; [|done].
  pose proof (pi_main _ _ _ HI) as Hm. rewrite Hr in Hm. cbn in Hm.
  apply (p_main s g ρ); cbn; try done; [by rewrite Hr|apply HI|naive_solver|naive_solver|].
  right. by rewrite Hr.
Qed.

(** The word says whether the thread is still waiting. *)
Lemma wp_load_in {A} h x (k : Z → wprog A) Q :
  x = In ∨ (x = Pre ∧ sleeps = true) ∨ (x = InQ ∧ h = true) →
  pwp 0 (k 0) (Role h Out) Q → pwp 0 (k 1) (Role h x) Q →
  pwp 0 (Act (AP ALoad) k) (Role h In) Q.
Proof.
  intros Hx H0 H1. step s g ρ c HI. pose proof (pi_main _ _ _ HI) as Hm. rewrite Hr in Hm. cbn in Hm.
  destruct Hm as [Hw Hq]. destruct (pi_word _ _ _ HI) as [E|E]; rewrite E.
  - exists g, (Role h Out). split; [|done]. apply (p_main s g ρ); cbn; try done;
      [by rewrite Hr|by left| |naive_solver|by left].
    rewrite E in Hw. destruct (queued s); [exfalso; by destruct Hw as [_ Hw]; specialize (Hw (or_introl eq_refl))|].
    split; [done|]. intros Ht. destruct Hw as [_ Hw]. by specialize (Hw (or_intror Ht)).
  - exists g, (Role h x). split; [|done].
    apply (p_main s g ρ); cbn; rewrite ?E; try done; [by rewrite Hr|by right| | | |by left];
      destruct Hx as [->|[[-> Hs]|[-> ->]]]; try done; try (by rewrite E in Hw); try (by intros [|]).
    cbn. assert (Hnt : ¬ taken ρ) by (apply (no_taken s g ρ 0%nat HI); by rewrite Hr).
    split; [|done]. destruct Hw as [Hw _]. destruct (Hw E); done.
Qed.

Lemma wp_expect b h x (Q : unit → role → Prop) :
  (b = false ∧ x = Out) ∨ (b = true ∧ x = InQ) → Q tt (Role h x) →
  pwp 0 (q <- Act AQGet Ret;; if Bool.eqb q b then Ret tt else Panic "the queue disagrees")%prog
    (Role h x) Q.
Proof.
  intros Hb HQ. wp_pure. step s g ρ c HI. exists g, (Role h x).
  pose proof (pi_main _ _ _ HI) as Hm. rewrite Hr in Hm. split.
  - apply (p_main s g ρ); cbn; rewrite ?Hr; try done; try apply HI;
      try (destruct Hb as [[_ ->]|[_ ->]]; done || (intros [|]; done)); [|by left].
    intros Hh. pose proof (pi_held _ _ _ HI 0%nat) as Hh'. rewrite Hr in Hh'. by apply Hh'.
  - wp_pure. destruct Hb as [[-> ->]|[-> ->]]; cbn in Hm; destruct Hm as [-> _]; cbn; by apply wp_ret.
Qed.

Lemma wp_leave_queue {A} (k : unit → wprog A) Q :
  pwp 0 (k tt) (Role true Out) Q → pwp 0 (Act (AQSet false) k) (Role true InQ) Q.
Proof.
  intros Hk. step s g ρ c HI. exists g, (Role true Out). split; [|done].
  pose proof (pi_main _ _ _ HI) as Hm. rewrite Hr in Hm. cbn in Hm.
  apply (p_main s g ρ); cbn; try done; [by rewrite Hr|apply HI|by destruct Hm|naive_solver|].
  right. by rewrite Hr.
Qed.

(** The same state, seen from a phase of the wait. *)
Lemma p_same s g ρ h x y :
  PInv s g ρ → ρ 0%nat = Role h x → (x = In ∨ x = Pre) → (y = In ∨ y = x) →
  PInv s g (<[0%nat := Role h y]> ρ).
Proof.
  intros HI Hr Hx Hy. pose proof (pi_main _ _ _ HI) as Hm. pose proof (pi_pre _ _ _ HI) as Hp.
  pose proof (pi_sleeps _ _ _ HI) as Hs. rewrite Hr in Hm, Hp, Hs. cbn in Hm, Hp, Hs.
  apply (p_main s g ρ); cbn; rewrite ?Hr; try done; try apply HI; try by left.
  all: destruct Hx as [->| ->], Hy as [->| ->]; try done; auto; intros [|]; done.
Qed.

(** An action that changes nothing, while the thread is about to sleep; the
    thread may change its mind. *)
Lemma wp_look_wait {A} (a : wact) (k : wresp a → wprog A) h x Q :
  x = In ∨ x = Pre →
  (∀ t p, ∃ c, is_Some (wexec t c a p)) → (∀ t c p p' v, wexec t c a p = Some (p', v) → p' = p) →
  (∀ v, ∃ y, (y = In ∨ y = x) ∧ pwp 0 (k v) (Role h y) Q) →
  pwp 0 (Act (AP a) k) (Role h x) Q.
Proof.
  intros Hx Hen Hsame Hk. apply wp_act.
  - intros s g ρ _ _. left. destruct (Hen 0%nat (parker s)) as [c [[p v] E]]. exists c. cbn.
    rewrite E. by eexists.
  - intros [p l q] g ρ c s' v Hr HI Hex. cbn in Hex.
    destruct (wexec 0 c a p) as [[p' v']|] eqn:E; [|done]. injection Hex as <- <-.
    apply Hsame in E as ->. destruct (Hk v') as (y & Hy & Hwp).
    exists g, (Role h y). split; [by eapply p_same|done].
Qed.

Lemma wp_now {A} (k : Z → wprog A) h x Q :
  x = In ∨ x = Pre → (∀ v, ∃ y, (y = In ∨ y = x) ∧ pwp 0 (k v) (Role h y) Q) →
  pwp 0 (Act (AP ANow) k) (Role h x) Q.
Proof.
  intros Hx Hk. apply wp_look_wait; [done| |by intros; simplify_eq/=|done].
  intros t s. exists 0. by eexists.
Qed.

Lemma wp_spin {A} (k : unit → wprog A) h Q :
  pwp 0 (k tt) (Role h In) Q → pwp 0 (Act (AP ASpin) k) (Role h In) Q.
Proof.
  intros Hk. apply wp_look_wait; [by left| |by intros; simplify_eq/=|].
  - intros t s. exists 0. by eexists.
  - intros []. exists In. split; [by left|done].
Qed.

(** The wait of the platform. *)
Lemma wp_wait timed (Q : sysret → role → Prop) :
  (∀ r : sysret, wait_ok timed r = true → Q r (Role false In)) → pwp 0 (wait_call timed) (Role false Pre) Q.
Proof.
  intros HQ. unfold wait_call. step s g ρ c HI. exists g, (Role false Ker).
  pose proof (pi_main _ _ _ HI) as Hm. pose proof (pi_pre _ _ _ HI) as Hp.
  pose proof (pi_sleeps _ _ _ HI) as Hs. rewrite Hr in Hm, Hp, Hs. cbn in Hm, Hp, Hs. split.
  { apply (p_main s g ρ); cbn; rewrite ?Hr; try done; [apply HI| |intros _; by apply Hs; left|by left].
    intros _ Ew. destruct (bool_dec compares true) as [Ec|Ec%not_true_is_false].
    - left. apply begin_differs; [done|]. by rewrite Ew.
    - destruct (Hp eq_refl Ec Ew); [left; by apply begin_pending|by right]. }
  clear s g ρ c HI Hr Hm Hp Hs. apply wp_act.
  - intros s g ρ Hr HI. destruct (ready (kst (parker s))) eqn:E; [|by right; right].
    left. destruct (end_ready timed _ E) as [c [[k r] E']]. exists c. cbn. rewrite E'. by eexists.
  - intros s g ρ c s' v Hr HI Hex. cbn in Hex.
    destruct (sleep_end c timed (kst (parker s))) as [[k r]|] eqn:E; [|done]. injection Hex as <- <-.
    exists g, (Role false In). split; [|by apply wp_ret, HQ, (end_result _ _ _ _ _ E)].
    pose proof (pi_main _ _ _ HI) as Hm. rewrite Hr in Hm.
    apply (p_main s g ρ); cbn; rewrite ?Hr; try done; [apply HI|naive_solver|by left].
Qed.

(** *** The waking threads *)

(** Once the word is clear the wake-up call is due, if threads sleep. *)
Definition after : phase := if sleeps then Pend else Out.

Lemma after_free : held_phase after = false.
Proof. unfold after. by destruct sleeps. Qed.

Section waker.
Context (t : tid) (Ht : t ≠ 0%nat).

Lemma taken_eq ρ ρ' : (∀ u, u ≠ 0%nat → ph (ρ' u) = Took ↔ ph (ρ u) = Took) → taken ρ' ↔ taken ρ.
Proof. intros H. unfold taken. split; intros (u & Hu & E); exists u; (split; [done|]); by apply H. Qed.

Lemma main_taken s ρ ρ' p : (taken ρ' ↔ taken ρ) → main s ρ p → main s ρ' p.
Proof. intros E. unfold main. destruct p; rewrite ?E; done. Qed.

Lemma wp_look_queue {A} (k : bool → wprog A) Q :
  pwp t (k true) (Role true Saw) Q → pwp t (k false) (Role true Out) Q →
  pwp t (Act AQGet k) (Role true Out) Q.
Proof.
  intros H1 H2. step s g ρ c HI.
  assert (HI' : ∀ x, (x = Out ∨ (x = Saw ∧ queued s = true)) → PInv s g (<[t := Role true x]> ρ)).
  { intros x Hx. apply (p_waker s g ρ t s); cbn; rewrite ?Hr; try done; try apply HI; try by left.
    - eapply main_taken; [|apply HI]. apply taken_eq. intros u Hu. fn_cases t u; [|done].
      rewrite Hr. cbn. naive_solver.
    - intros _ E. left. split; [done|]. split; [done|]. intros (u & Hu & Hp). exists u.
      split; [done|]. fn_cases t u; [by rewrite Hr in Hp|done].
    - by destruct Hx as [->|[-> _]].
    - naive_solver. }
  destruct (queued s) eqn:E; [exists g, (Role true Saw)|exists g, (Role true Out)];
    (split; [apply HI'; auto|done]).
Qed.

Lemma wp_take {A} (k : unit → wprog A) Q :
  pwp t (k tt) (Role true Took) Q → pwp t (Act (AQSet false) k) (Role true Saw) Q.
Proof.
  intros Hk. step s g ρ c HI. exists g, (Role true Took). split; [|done].
  assert (Hq : queued s = true) by (apply (pi_saw _ _ _ HI t); by rewrite Hr).
  assert (Htk : taken (<[t := Role true Took]> ρ)) by (exists t; by fn_simp).
  assert (H0 : ph (ρ 0%nat) ≠ InQ).
  { intros E. apply Ht. apply (held_unique s g ρ); [done|by rewrite Hr|].
    apply (pi_held _ _ _ HI). by rewrite E. }
  apply (p_waker s g ρ t); cbn; rewrite ?Hr; try done; try apply HI; [| |by right].
  - pose proof (pi_main _ _ _ HI) as Hm. unfold main in *. cbn.
    destruct (ph (ρ 0%nat)); cbn in *; rewrite ?Hq in Hm; try done; naive_solver.
  - intros _ E. left. split; [done|]. split; [done|]. intros (u & Hu & Hp). exists u.
    split; [done|]. fn_cases t u; [by rewrite Hr in Hp|done].
Qed.

Lemma wp_clear {A} (k : unit → wprog A) Q :
  pwp t (k tt) (Role true after) Q →
  pwp t (Act (AP (AStore 0)) k) (Role true Took) Q.
Proof.
  intros Hk. step s g ρ c HI. eexists g, _. split; [|exact Hk].
  set (r' := Role true after).
  assert (Hnt : ¬ taken (<[t := r']> ρ)).
  { intros (u & Hu & E). fn_cases t u; [unfold r', after in E; by destruct sleeps|].
    assert (Hh : hold (ρ u) = true) by (apply (pi_held _ _ _ HI); by rewrite E).
    apply n. apply (held_unique s g ρ); [done|by rewrite Hr|done]. }
  assert (Htk : taken ρ) by (exists t; by rewrite Hr).
  apply (p_waker s g ρ t); cbn; rewrite ?Hr; try done; try (by left); try (unfold after; by destruct sleeps).
  - pose proof (pi_main _ _ _ HI) as Hm. unfold main in *. cbn.
    destruct (ph (ρ 0%nat)); cbn in *; try done; naive_solver.
  - intros Hkp _. right; right. exists t. split; [done|]. fn_simp. unfold r', after. cbn.
    by rewrite (pi_sleeps _ _ _ HI) by naive_solver.
Qed.

Lemma wp_wake_call (Q : sysret → role → Prop) :
  (∀ r : sysret, wake_ok r = true → Q r (Role false Out)) → pwp t wake_call (Role false Pend) Q.
Proof.
  intros HQ. unfold wake_call. apply wp_act.
  { intros s g ρ _ _. left. exists 0. cbn. destruct (wake_one 0 (kst (parker s))). by eexists. }
  intros s g ρ c s' v Hr HI Hex. cbn in Hex.
  pose proof (wake_ready c (kst (parker s))) as Hrd. pose proof (wake_result c (kst (parker s))) as Hres.
  destruct (wake_one c (kst (parker s))) as [k r]. injection Hex as <- <-.
  exists g, (Role false Out). split; [|by apply wp_ret, HQ].
  apply (p_waker s g ρ t); cbn; rewrite ?Hr; try done; try apply HI; try by left.
  - eapply main_taken; [|apply HI]. apply taken_eq. intros u Hu. fn_cases t u; [by rewrite Hr|done].
  - intros _ _. right. by left.
Qed.
End waker.

(** ** The contract, from the specifications of the methods *)

Section contract.
Context (prepare_park park unpark_lock : wprog unit) (timed_out : wprog bool)
  (park_until : Z → wprog bool) (unpark : unit → wprog unit).


Record WordSpec : Prop := {
  ws_prepare (Q : unit → role → Prop) :
    Q tt (Role true Prep) → pwp 0 prepare_park (Role true Out) Q;
  ws_timed_out (Q : bool → role → Prop) :
    Q true (Role true InQ) → Q false (Role true Out) → pwp 0 timed_out (Role true In) Q;
  ws_park (Q : unit → role → Prop) : Q tt (Role false Out) → pwp 0 park (Role false In) Q;
  ws_park_until d (Q : bool → role → Prop) :
    Q true (Role false Out) → Q false (Role false In) → pwp 0 (park_until d) (Role false In) Q;
  ws_unpark_lock t (Q : unit → role → Prop) :
    t ≠ 0%nat → Q tt (Role true after) → pwp t unpark_lock (Role true Took) Q;
  ws_unpark t (Q : unit → role → Prop) :
    t ≠ 0%nat → Q tt (Role false Out) → pwp t (unpark tt) (Role false after) Q;
}.

Context (Hspec : WordSpec).

Let PK : Parker := {|
  pexec := wexec;
  IS_CHEAP_TO_CONSTRUCT := true;
  parker_new := MkW 0 kern0;
  ThreadParker.prepare_park := prepare_park;
  ThreadParker.timed_out := timed_out;
  ThreadParker.park := park;
  ThreadParker.park_until := park_until;
  ThreadParker.unpark_lock := unpark_lock;
  ThreadParker.unpark := unpark;
|}.

Lemma wp_wait_once d (Q : unit → role → Prop) :
  Q tt (Role false Out) → pwp 0 (wait_once (PK := PK) d) (Role false Out) Q.
Proof.
  intros HQ. unfold wait_once, queue_lock, set_queued, queue_unlock. wp_pure.
  apply wp_queue_lock. wp_pure. apply (ws_prepare Hspec). wp_pure. apply wp_enqueue. wp_pure.
  apply wp_queue_unlock; [done|]. wp_pure.
  assert (Hun : pwp 0 (expect_queued (PK := PK) false) (Role false Out) Q)
    by (by apply (wp_expect false); [left|]).
  destruct d as [d|]; [apply (ws_park_until Hspec)|wp_pure; apply (ws_park Hspec)]; wp_pure;
    [exact Hun| |exact Hun].
  apply wp_queue_lock. wp_pure. apply (ws_timed_out Hspec); wp_pure.
  - apply (wp_expect true); [by right|]. wp_pure. apply wp_leave_queue. wp_pure. apply wp_queue_unlock; [done|].
    by wp_pure.
  - apply (wp_expect false); [by left|]. wp_pure. apply wp_queue_unlock; [done|]. by wp_pure.
Qed.

Lemma wp_wake_once t (Q : unit → role → Prop) :
  t ≠ 0%nat → Q tt (Role false Out) → pwp t (wake_once (PK := PK)) (Role false Out) Q.
Proof.
  intros Ht HQ. unfold wake_once, queue_lock, get_queued, set_queued, queue_unlock. wp_pure.
  apply wp_queue_lock. wp_pure. apply wp_look_queue; [done| |]; wp_pure.
  - apply wp_take; [done|]. wp_pure. apply (ws_unpark_lock Hspec); [done|]. wp_pure.
    apply wp_queue_unlock; [apply after_free|]. wp_pure. apply (ws_unpark Hspec); [done|done].
  - apply wp_queue_unlock; [done|]. by wp_pure.
Qed.

Lemma word_start : PInv (parker_start (PK := PK)) tt (λ _, Role false Out).
Proof.
  split; cbn; try done; try (by left); try naive_solver. split; [done|]. by intros (u & _ & [=]).
Qed.

(** When nobody can go on, nobody holds the queue lock, and so nobody waits for
    it; the thread that sleeps is in the queue. *)
Lemma word_stuck s g ρ :
  PInv s g ρ → (∀ t, ρ t = Role false Out ∨ blocked t (ρ t) s) →
  (∀ t, t ≠ 0%nat → ¬ blocked t (ρ t) s) ∧ (blocked 0%nat (ρ 0%nat) s → queued s = true).
Proof.
  intros HI Hall.
  assert (Hl : qlock s = None).
  { destruct (qlock s) as [t|] eqn:E; [|done]. apply (pi_lock _ _ _ HI) in E.
    destruct (Hall t) as [Er|[[Er _]|(_ & Er & _)]]; rewrite Er in E; done. }
  assert (Hw : ∀ t, t ≠ 0%nat → ¬ blocked t (ρ t) s) by (intros t Ht [[_ ?]|[? _]]; done).
  split; [done|]. intros [[_ ?]|(_ & E & Hk)]; [done|].
  pose proof (pi_main _ _ _ HI) as Hm. rewrite E in Hm. destruct Hm as [Hwd _].
  assert (Hnone : ∀ u p, u ≠ 0%nat → p ≠ Out → ph (ρ u) ≠ p).
  { intros u p Hu Hp. destruct (Hall u) as [->|Hb]; [cbn; congruence|by destruct (Hw u Hu)]. }
  destruct (pi_word _ _ _ HI) as [E0|E1].
  - destruct (pi_ker _ _ _ HI) as [E'|(u & Hu & E')]; [by rewrite E|done|congruence|].
    by apply Hnone in E'.
  - apply Hwd in E1 as [?|(u & Hu & E')]; [done|]. by apply Hnone in E'.
Qed.

Lemma word_parker_ok : ParkerOk (PK := PK).
Proof.
  apply (parker_ok (PK := PK) PInv blocked (Role false Out)).
  - exact word_start.
  - intros d. by apply wp_wait_once.
  - intros t Ht. by apply wp_wake_once.
  - exact word_stuck.
Qed.
End contract.
End proof.

(** ** The parkers *)

Section parkers.
Local Open Scope prog_scope.

Lemma wp_debug_assert {compares wait_ok wake_ok} {SL : Sleep compares wait_ok wake_ok} sl t b r Q :
  b = true → Q tt r →
  wp (hexec wexec) (PInv sl) (λ (_ : string) (_ : role), False) blocked t (debug_assert b) r Q.
Proof. intros -> HQ. by apply wp_ret. Qed.

(** [timed_out] of all of them but one. *)
Lemma wp_timed_out_word {compares wait_ok wake_ok} {SL : Sleep compares wait_ok wake_ok} sl f
    (Q : bool → role → Prop) :
  f 0 = false → f 1 = true → Q true (Role true InQ) → Q false (Role true Out) →
  wp (hexec wexec) (PInv sl) (λ (_ : string) (_ : role), False) blocked 0
    (v <- load;; Ret (f v)) (Role true In) Q.
Proof.
  intros E0 E1 Q1 Q0. unfold load. wp_pure. apply (wp_load_in sl true InQ); [by right; right|..]; wp_pure;
    by rewrite ?E0, ?E1.
Qed.

(** The value of the word is known. *)
Ltac known := wp_pure; cbn [Z.eqb Pos.eqb negb]; wp_pure.

Section linux.
Context (w : Z) {SL : Sleep true Linux.wait_ok Linux.wake_ok}.

Lemma linux_futex_wait ts (Q : unit → role → Prop) :
  Q tt (Role false In) →
  wp (hexec wexec) (PInv true) (λ (_ : string) (_ : role), False) blocked 0
    (Linux.futex_wait ts) (Role false Pre) Q.
Proof.
  intros HQ. unfold Linux.futex_wait. wp_pure. apply wp_wait. intros [r e] Hok. wp_pure.
  unfold Linux.wait_ok in Hok. cbn in Hok.
  destruct (decide (r = 0)) as [->|]; [by apply wp_debug_assert; [|wp_pure]|].
  rewrite bool_decide_false in Hok by done. cbn in Hok. apply andb_prop in Hok as [Er He].
  apply wp_debug_assert; [by rewrite Er, orb_true_r|]. rewrite Er. by apply wp_debug_assert.
Qed.

Lemma linux_park (Q : unit → role → Prop) :
  Q tt (Role false Out) →
  wp (hexec wexec) (PInv true) (λ (_ : string) (_ : role), False) blocked 0
    Linux.park (Role false In) Q.
Proof.
  intros HQ. apply (wp_iter _ _ _ _ _ (λ _ r, r = Role false In)); [done|]. intros [] ? ->.
  unfold load. wp_pure. apply (wp_load_in _ false Pre); [by right; left|by known|]. known.
  apply linux_futex_wait. by wp_pure.
Qed.

Lemma linux_spec :
  WordSpec true Linux.prepare_park Linux.park Linux.unpark_lock Linux.timed_out
    (Linux.park_until w) Linux.unpark.
Proof.
  split.
  - intros Q HQ. apply wp_prepare_word. by wp_pure.
  - intros Q Q1 Q0. by apply (wp_timed_out_word true (λ v, negb (v =? 0))).
  - apply linux_park.
  - intros d Q Q1 Q0. apply (wp_iter _ _ _ _ _ (λ _ r, r = Role false In)); [done|]. intros [] ? ->.
    unfold load, now. wp_pure. apply (wp_load_in _ false Pre); [by right; left|by known|]. known.
    apply wp_now; [by right|]. intros n. destruct (d <=? n) eqn:E.
    { exists In. split; [by left|]. wp_pure. rewrite E. by wp_pure. }
    destruct (Linux.relative_timespec w (d - n)) as [ts|] eqn:Et.
    + exists Pre. split; [by right|]. wp_pure. rewrite E, Et. wp_pure. apply linux_futex_wait. by wp_pure.
    + exists In. split; [by left|]. wp_pure. rewrite E, Et. wp_pure. apply linux_park. by wp_pure.
  - intros t Q Ht HQ. apply wp_clear; [done|]. by wp_pure.
  - intros t Q Ht HQ. unfold Linux.unpark. wp_pure. apply wp_wake_call; [done|]. intros [r e] Hok. wp_pure.
    unfold Linux.wake_ok in Hok. cbn in Hok.
    destruct (decide (r = -1)) as [->|].
    + rewrite !bool_decide_false in Hok by done. cbn in Hok. by do 2 (apply wp_debug_assert; [done|]).
    + rewrite (bool_decide_false (r = -1)) in Hok |- * by done. cbn in Hok. rewrite orb_false_r in *.
      apply wp_debug_assert; [done|]. by wp_pure.
Qed.
End linux.

Section redox.
Context {SL : Sleep true Redox.wait_ok Redox.wake_ok}.

Lemma redox_futex_wait ts (Q : unit → role → Prop) :
  Q tt (Role false In) →
  wp (hexec wexec) (PInv true) (λ (_ : string) (_ : role), False) blocked 0
    (Redox.futex_wait ts) (Role false Pre) Q.
Proof.
  intros HQ. unfold Redox.futex_wait. wp_pure. apply wp_wait. intros [r e] Hok. wp_pure.
  unfold Redox.wait_ok in Hok. cbn in Hok.
  destruct (decide (r = 0)) as [->|]; [by apply wp_debug_assert|].
  rewrite bool_decide_false in Hok by done. cbn in Hok. apply andb_prop in Hok as [Er He].
  apply bool_decide_eq_true in Er as ->. by apply wp_debug_assert.
Qed.

Lemma redox_park (Q : unit → role → Prop) :
  Q tt (Role false Out) →
  wp (hexec wexec) (PInv true) (λ (_ : string) (_ : role), False) blocked 0
    Redox.park (Role false In) Q.
Proof.
  intros HQ. apply (wp_iter _ _ _ _ _ (λ _ r, r = Role false In)); [done|]. intros [] ? ->.
  unfold load, Redox.UNPARKED. wp_pure.
  apply (wp_load_in _ false Pre); [by right; left|by known|]. known.
  apply redox_futex_wait. by wp_pure.
Qed.

Lemma redox_spec :
  WordSpec true Redox.prepare_park Redox.park Redox.unpark_lock Redox.timed_out
    Redox.park_until Redox.unpark.
Proof.
  split.
  - intros Q HQ. apply wp_prepare_word. by wp_pure.
  - intros Q Q1 Q0. by apply (wp_timed_out_word true (λ v, negb (v =? 0))).
  - apply redox_park.
  - intros d Q Q1 Q0. apply (wp_iter _ _ _ _ _ (λ _ r, r = Role false In)); [done|]. intros [] ? ->.
    unfold load, now, Redox.UNPARKED. wp_pure.
    apply (wp_load_in _ false Pre); [by right; left|by known|]. known.
    apply wp_now; [by right|]. intros n. destruct (d <=? n) eqn:E.
    { exists In. split; [by left|]. wp_pure. rewrite E. by wp_pure. }
    destruct (Redox.relative_timespec (d - n)) as [ts|] eqn:Et.
    + exists Pre. split; [by right|]. wp_pure. rewrite E, Et. wp_pure. apply redox_futex_wait. by wp_pure.
    + exists In. split; [by left|]. wp_pure. rewrite E, Et. wp_pure. apply redox_park. by wp_pure.
  - intros t Q Ht HQ. apply wp_clear; [done|]. by wp_pure.
  - intros t Q Ht HQ. unfold Redox.unpark. wp_pure. apply wp_wake_call; [done|]. intros [r e] Hok. wp_pure.
    unfold Redox.wake_ok in Hok. cbn in Hok.
    destruct (decide (r = 0)) as [->|]; [by apply wp_debug_assert|].
    destruct (decide (r = 1)) as [->|]; [by apply wp_debug_assert|].
    rewrite !bool_decide_false in Hok by done. cbn in Hok. apply andb_prop in Hok as [Er He].
    apply bool_decide_eq_true in Er as ->. by apply wp_debug_assert.
Qed.
End redox.

Section wasm.
Context {SL : Sleep true WasmAtomic.wait_ok WasmAtomic.wake_ok}.

Lemma wasm_spec :
  WordSpec true WasmAtomic.prepare_park WasmAtomic.park WasmAtomic.unpark_lock WasmAtomic.timed_out
    WasmAtomic.park_until WasmAtomic.unpark.
Proof.
  split.
  - intros Q HQ. apply wp_prepare_word. by wp_pure.
  - intros Q Q1 Q0. by apply (wp_timed_out_word true (λ v, v =? 1)).
  - intros Q HQ. apply (wp_iter _ _ _ _ _ (λ _ r, r = Role false In)); [done|]. intros [] ? ->.
    unfold load, WasmAtomic.PARKED. wp_pure.
    apply (wp_load_in _ false Pre); [by right; left|by known|]. known.
    apply wp_wait. intros [r e] Hok. wp_pure. apply wp_debug_assert; [|by wp_pure].
    unfold WasmAtomic.wait_ok in Hok. cbn in Hok. by rewrite orb_false_r in Hok.
  - intros d Q Q1 Q0. apply (wp_iter _ _ _ _ _ (λ _ r, r = Role false In)); [done|]. intros [] ? ->.
    unfold load, now, WasmAtomic.PARKED. wp_pure.
    apply (wp_load_in _ false Pre); [by right; left|by known|]. known.
    apply wp_now; [by right|]. intros n. destruct (n <=? d) eqn:E.
    + exists Pre. split; [by right|]. wp_pure. rewrite E. wp_pure. apply wp_wait. intros [r e] Hok. wp_pure.
      apply wp_debug_assert; [|by wp_pure]. unfold WasmAtomic.wait_ok in Hok. cbn in Hok |- *.
      destruct (bool_decide (r = 0)), (bool_decide (r = 1)); try done. by apply andb_prop in Hok as [_ ->].
    + exists In. split; [by left|]. wp_pure. rewrite E. by wp_pure.
  - intros t Q Ht HQ. apply wp_clear; [done|]. by wp_pure.
  - intros t Q Ht HQ. unfold WasmAtomic.unpark. wp_pure. apply wp_wake_call; [done|]. intros r Hok. wp_pure.
    by apply wp_debug_assert.
Qed.
End wasm.

Section wait_address.
Context {SL : Sleep true WaitAddress.wait_ok WaitAddress.wake_ok}.

Lemma wait_address_spec :
  WordSpec true WaitAddress.prepare_park WaitAddress.park WaitAddress.unpark_lock
    WaitAddress.timed_out WaitAddress.park_until WaitAddress.unpark.
Proof.
  split.
  - intros Q HQ. apply wp_prepare_word. by wp_pure.
  - intros Q Q1 Q0. by apply (wp_timed_out_word true (λ v, negb (v =? 0))).
  - intros Q HQ. apply (wp_iter _ _ _ _ _ (λ _ r, r = Role false In)); [done|]. intros [] ? ->.
    unfold load. wp_pure. apply (wp_load_in _ false Pre); [by right; left|by known|]. known.
    apply wp_wait. intros [r e] Hok. wp_pure. apply wp_debug_assert; [|by wp_pure].
    unfold WaitAddress.wait_ok in Hok. by rewrite Z.eqb_refl, orb_false_r in Hok.
  - intros d Q Q1 Q0. apply (wp_iter _ _ _ _ _ (λ _ r, r = Role false In)); [done|]. intros [] ? ->.
    unfold load, now. wp_pure. apply (wp_load_in _ false Pre); [by right; left|by known|]. known.
    apply wp_now; [by right|]. intros n. destruct (d <=? n) eqn:E.
    { exists In. split; [by left|]. wp_pure. rewrite E. by wp_pure. }
    exists Pre. split; [by right|]. wp_pure. rewrite E. wp_pure. apply wp_wait. intros [r e] Hok. wp_pure.
    destruct (bool_decide (r = WaitAddress.FALSE)) eqn:Ef; wp_pure; [|done].
    apply wp_debug_assert; [|by wp_pure]. unfold WaitAddress.wait_ok in Hok. cbn in Hok.
    apply bool_decide_eq_true in Ef as ->. cbn in Hok. by apply andb_prop in Hok as [_ ->].
  - intros t Q Ht HQ. apply wp_clear; [done|]. by wp_pure.
  - intros t Q Ht HQ. unfold WaitAddress.unpark. wp_pure. apply wp_wake_call; [done|]. intros r _. by wp_pure.
Qed.
End wait_address.

Section sgx.
Context (EV WI : Z) {SL : Sleep false (Sgx.wait_ok EV) Sgx.wake_ok}.

Lemma sgx_spec :
  WordSpec true Sgx.prepare_park (Sgx.park EV) Sgx.unpark_lock Sgx.timed_out
    (Sgx.park_until WI) Sgx.unpark.
Proof.
  split.
  - intros Q HQ. apply wp_prepare_word. by wp_pure.
  - intros Q Q1 Q0. by apply (wp_timed_out_word true (λ v, negb (v =? 0))).
  - intros Q HQ. apply (wp_iter _ _ _ _ _ (λ _ r, r = Role false In)); [done|]. intros [] ? ->.
    unfold load. wp_pure. apply (wp_load_in _ false Pre); [by right; left|by known|]. known.
    apply wp_wait. intros r Hok. wp_pure. by apply wp_debug_assert; [|by wp_pure].
  - intros d Q Q1 Q0. apply (wp_iter _ _ _ _ _ (λ _ r, r = Role false In)); [done|]. intros [] ? ->.
    unfold load, now. wp_pure. apply (wp_load_in _ false Pre); [by right; left|by known|]. known.
    apply wp_now; [by right|]. intros n. destruct (n <=? d) eqn:E.
    + exists Pre. split; [by right|]. wp_pure. rewrite E. wp_pure. apply wp_wait. intros r Hok. wp_pure.
      case_match; by wp_pure.
    + exists In. split; [by left|]. wp_pure. rewrite E. by wp_pure.
  - intros t Q Ht HQ. apply wp_clear; [done|]. by wp_pure.
  - intros t Q Ht HQ. unfold Sgx.unpark. wp_pure. apply wp_wake_call; [done|]. intros r Hok. wp_pure.
    unfold Sgx.wake_ok in Hok. destruct (Z.ltb_spec r.1 0); [|by wp_pure].
    destruct (Z.leb_spec 0 r.1); [lia|]. cbn in Hok. rewrite Hok. by wp_pure.
Qed.
End sgx.

Section generic.
Context {SL : Sleep true Generic.wait_ok Generic.wake_ok}.

Lemma generic_spec :
  WordSpec false Generic.prepare_park Generic.park Generic.unpark_lock Generic.timed_out
    Generic.park_until Generic.unpark.
Proof.
  split.
  - intros Q HQ. apply wp_prepare_word. by wp_pure.
  - intros Q Q1 Q0. by apply (wp_timed_out_word false (λ v, negb (v =? 0))).
  - intros Q HQ. apply (wp_iter _ _ _ _ _ (λ _ r, r = Role false In)); [done|]. intros [] ? ->.
    unfold load, spin_loop. wp_pure. apply (wp_load_in _ false In); [by left|by known|]. known.
    apply wp_spin. by wp_pure.
  - intros d Q Q1 Q0. apply (wp_iter _ _ _ _ _ (λ _ r, r = Role false In)); [done|]. intros [] ? ->.
    unfold load, now, spin_loop. wp_pure. apply (wp_load_in _ false In); [by left|by known|]. known.
    apply wp_now; [by left|]. intros n. exists In. split; [by left|]. wp_pure.
    destruct (d <=? n); wp_pure; [done|]. apply wp_spin. by wp_pure.
  - intros t Q Ht HQ. apply wp_clear; [done|]. by wp_pure.
  - intros t Q Ht HQ. unfold Generic.unpark. by wp_pure.
Qed.
End generic.
End parkers.

(** ** The theorems *)

(** C31: The futex parker of Linux honours the contract of thread parkers, on
    any kernel whose futex calls behave as documented: no assertion fails,
    unparked threads were taken out of the queue and expired ones are in it,
    and no wake-up is lost, however waits, timeouts, spurious wake-ups and
    late wake-up calls of earlier rounds interleave. *)
Theorem linux_parker_ok time_t_bits (SL : Sleep true Linux.wait_ok Linux.wake_ok) :
  ParkerOk (PK := Linux.parker time_t_bits).
Proof. exact (word_parker_ok true _ _ _ _ _ _ (linux_spec time_t_bits)). Qed.

(** C32: So do the parkers of Redox, WebAssembly with threads, Windows 8 and
    later, SGX enclaves, and the one that spins. *)
Theorem other_word_parkers_ok :
  (∀ SL : Sleep true Redox.wait_ok Redox.wake_ok, ParkerOk (PK := Redox.parker)) ∧
  (∀ SL : Sleep true WasmAtomic.wait_ok WasmAtomic.wake_ok, ParkerOk (PK := WasmAtomic.parker)) ∧
  (∀ SL : Sleep true WaitAddress.wait_ok WaitAddress.wake_ok, ParkerOk (PK := WaitAddress.parker)) ∧
  (∀ EV_UNPARK WAIT_INDEFINITE (SL : Sleep false (Sgx.wait_ok EV_UNPARK) Sgx.wake_ok),
     ParkerOk (PK := Sgx.parker EV_UNPARK WAIT_INDEFINITE)) ∧
  (∀ SL : Sleep true Generic.wait_ok Generic.wake_ok, ParkerOk (PK := Generic.parker)).
Proof.
  split; [intros; exact (word_parker_ok true _ _ _ _ _ _ redox_spec)|].
  split; [intros; exact (word_parker_ok true _ _ _ _ _ _ wasm_spec)|].
  split; [intros; exact (word_parker_ok true _ _ _ _ _ _ wait_address_spec)|].
  split; [intros; exact (word_parker_ok true _ _ _ _ _ _ (sgx_spec _ _))|].
  intros; exact (word_parker_ok false _ _ _ _ _ _ generic_spec).
Qed.

(** ** A platform: a thread sleeps until it is woken or its timeout expires *)

Section platform.
Context {wait_ok : bool → sysret → bool} {wake_ok : sysret → bool} (woken expired waked : sysret)
  (Hwoken : ∀ timed, wait_ok timed woken = true) (Hexpired : wait_ok true expired = true)
  (Hwaked : wake_ok waked = true).

#[local] Obligation Tactic := idtac.

(** The state: whether the thread sleeps. *)
Program Definition simple_futex : Sleep true wait_ok wake_ok := {|
  kern := bool;
  kern0 := false;
  ready k := negb k;
  sleep_begin v _ := v =? 1;
  sleep_end c timed k :=
    if k then if timed && negb (c =? 0) then Some (false, expired) else None
    else Some (false, woken);
  wake_one _ _ := (false, waked);
|}.
Next Obligation. intros v k _ Hv. cbn. by destruct (Z.eqb_spec v 1). Qed.
Next Obligation. done. Qed.
Next Obligation. done. Qed.
Next Obligation. intros timed []; [done|]. exists 0. by eexists. Qed.
Next Obligation.
  intros c [] [] k' r H; cbn in H; try destruct (c =? 0); by simplify_eq/=.
Qed.
Next Obligation. done. Qed.

(** The state: whether an event is pending. *)
Program Definition simple_events : Sleep false wait_ok wake_ok := {|
  kern := bool;
  kern0 := false;
  ready k := k;
  sleep_begin _ k := k;
  sleep_end c timed k :=
    if k then Some (false, woken)
    else if timed && negb (c =? 0) then Some (false, expired) else None;
  wake_one _ _ := (true, waked);
|}.
Next Obligation. done. Qed.
Next Obligation. done. Qed.
Next Obligation. done. Qed.
Next Obligation. intros timed []; [|done]. exists 0. by eexists. Qed.
Next Obligation.
  intros c [] [] k' r H; cbn in H; try destruct (c =? 0); by simplify_eq/=.
Qed.
Next Obligation. done. Qed.
End platform.

(** A run: the thread is woken once and waits a second time, asleep. *)
Section example.
Local Instance demo_futex : Sleep true Linux.wait_ok Linux.wake_ok :=
  simple_futex (0, EINTR) (-1, ETIMEDOUT) (1, EINTR) (λ _, eq_refl) eq_refl eq_refl.
#[local] Abbreviation demo_parker := (Linux.parker 64).
Local Definition demo_waits : list (option Z) := [None; None].
Local Definition demo_wakes (t : tid) : nat := match t with 1%nat => 1 | _ => 0 end.
Local Definition parker_sched : list (tid * choice) :=
  repeat (0%nat, 0) 12 ++ repeat (1%nat, 0) 14 ++ repeat (0%nat, 0) 26.
Local Definition parker_demo : hstate (wstate kern) * (tid → wprog unit) :=
  default (parker_start (PK := demo_parker), parker_pool (PK := demo_parker) demo_waits demo_wakes)
    (run (hexec wexec) parker_sched (parker_start (PK := demo_parker))
       (parker_pool (PK := demo_parker) demo_waits demo_wakes)).

Lemma parker_demo_reachable :
  reachable (hexec wexec) (parker_start (PK := demo_parker))
    (parker_pool (PK := demo_parker) demo_waits demo_wakes) parker_demo.1 parker_demo.2.
Proof.
  apply (run_reachable _ parker_sched). unfold parker_demo.
  assert (H : bool_decide (is_Some (run (hexec wexec) parker_sched (parker_start (PK := demo_parker))
       (parker_pool (PK := demo_parker) demo_waits demo_wakes))) = true) by (vm_compute; reflexivity).
  apply bool_decide_eq_true in H as [[s ps] E]. by rewrite E.
Qed.

Lemma linux_parker_ok_witness :
  (∀ t c, step1 (hexec wexec) t c (parker_demo.2 t) parker_demo.1 = None) ∧
  parker_demo.2 1%nat = Ret tt ∧ queued parker_demo.1 = true.
Proof.
  assert (Hst : ∀ t c, step1 (hexec wexec) t c (parker_demo.2 t) parker_demo.1 = None).
  { intros [|[|t]] c; vm_compute; reflexivity. }
  destruct (parker_no_lost_wakeup (ParkerOk := linux_parker_ok 64 demo_futex) demo_waits demo_wakes
              _ _ parker_demo_reachable Hst) as [H1 H2].
  split; [exact Hst|]. split; [by apply H1|].
  destruct H2 as [H2|H2]; [|exact H2]. exfalso. revert H2. vm_compute. discriminate.
Defined.

(** The parkers on the simple platform. *)
Lemma other_word_parkers_ok_witness :
  ParkerOk (PK := Redox.parker
    (Sleep0 := simple_futex (0, EINTR) (-1, ETIMEDOUT) (1, EINTR) (λ _, eq_refl) eq_refl eq_refl)) ∧
  ParkerOk (PK := Sgx.parker 4 (2 ^ 64 - 1)
    (Sleep0 := simple_events (4, EINTR) (-1, ETIMEDOUT) (0, EINTR) (λ x, orb_true_r x) eq_refl eq_refl)).
Proof.
  destruct other_word_parkers_ok as (H1 & _ & _ & H2 & _). split; [apply H1|apply H2].
Defined.
End example.
