(* ===== verification/KeyedEvent.v ===== *)
(** * The parker of old Windows versions (core/src/thread_parker/windows/keyed_event.rs)

    A thread sleeps with [NtWaitForKeyedEvent] and is woken with
    [NtReleaseKeyedEvent].  Both calls block until there is a partner: a thread
    that has cleared the word of a parked one must release it, and the parked
    one must wait even if its timeout has expired meanwhile.  What the code
    relies on of the two calls is the interface [KeyedEvents]. *)

From S2P Require Import Prelude Conc ThreadParker WordParkers.
Local Open Scope Z_scope.
Local Open Scope prog_scope.

(** ** The platform *)

Definition STATUS_SUCCESS : Z := 0.
Definition STATUS_TIMEOUT : Z := 258.

(** A call that waits: there is none, it has no partner yet, it has one.  And
    one that releases. *)
Inductive partner := NoCall | Alone | Matched.

#[export] Instance partner_eq_dec : EqDecision partner.
Proof. solve_decision. Defined.

(** The keyed event of one key, on which only its owner waits. *)
Class KeyedEvents := {
  kern : Type;
  kern0 : kern;
  waiting : kern → partner;
  releasing : kern → tid → partner;
  wait_begin : kern → kern;
  wait_end : choice → bool → kern → option (kern * Z);
  release_begin : tid → kern → kern;
  release_end : tid → choice → kern → option (kern * Z);
  kern0_quiet : waiting kern0 = NoCall ∧ ∀ t, releasing kern0 t = NoCall;
  (* a wait finds the one release that is blocked *)
  wait_blocks k : waiting k = NoCall → (∀ t, releasing k t ≠ Alone) →
    waiting (wait_begin k) = Alone ∧ ∀ t, releasing (wait_begin k) t = releasing k t;
  wait_matches k t : waiting k = NoCall → releasing k t = Alone → (∀ u, releasing k u = Alone → u = t) →
    waiting (wait_begin k) = Matched ∧
    ∀ u, releasing (wait_begin k) u = if decide (u = t) then Matched else releasing k u;
  release_matches k t : releasing k t = NoCall → waiting k = Alone →
    waiting (release_begin t k) = Matched ∧
    ∀ u, releasing (release_begin t k) u = if decide (u = t) then Matched else releasing k u;
  release_blocks k t : releasing k t = NoCall → waiting k ≠ Alone →
    waiting (release_begin t k) = waiting k ∧
    ∀ u, releasing (release_begin t k) u = if decide (u = t) then Alone else releasing k u;
  (* the calls return when they have a partner, and a wait when its time is over *)
  wait_ready timed k : waiting k = Matched → ∃ c, is_Some (wait_end c timed k);
  wait_result c timed k k' r : wait_end c timed k = Some (k', r) →
    waiting k' = NoCall ∧ (∀ t, releasing k' t = releasing k t) ∧
    (waiting k = Matched ∧ r = STATUS_SUCCESS ∨ timed = true ∧ waiting k = Alone ∧ r = STATUS_TIMEOUT);
  release_ready t k : releasing k t = Matched → ∃ c, is_Some (release_end t c k);
  release_result t c k k' r : release_end t c k = Some (k', r) →
    releasing k t = Matched ∧ r = STATUS_SUCCESS ∧ waiting k' = waiting k ∧
    ∀ u, releasing k' u = if decide (u = t) then NoCall else releasing k u;
}.

(** ** The machine *)

Record kstate (K : Type) := MkK { key : Z; event : K }.
Arguments MkK {K} _ _.
Arguments key {K} _.
Arguments event {K} _.

Inductive kact :=
| KLoad
| KStore (v : Z)
| KSwap (v : Z)
| KNow
| KWaitBegin
| KWaitEnd (timed : bool)
| KRelBegin
| KRelEnd.

Definition kresp (x : kact) : Type :=
  match x with KLoad | KSwap _ | KNow | KWaitEnd _ | KRelEnd => Z | _ => unit end.

Section machine.
Context {KE : KeyedEvents}.

Definition kexec (t : tid) (c : choice) (x : kact) : kstate kern → option (kstate kern * kresp x) :=
  match x with
  | KLoad => λ s, Some (s, key s)
  | KStore v => λ s, Some (MkK v (event s), tt)
  | KSwap v => λ s, Some (MkK v (event s), key s)
  | KNow => λ s, Some (s, c)
  | KWaitBegin => λ s, Some (MkK (key s) (wait_begin (event s)), tt)
  | KWaitEnd timed => λ s,
      match wait_end c timed (event s) with
      | Some (k, r) => Some (MkK (key s) k, r)
      | None => None
      end
  | KRelBegin => λ s, Some (MkK (key s) (release_begin t (event s)), tt)
  | KRelEnd => λ s,
      match release_end t c (event s) with
      | Some (k, r) => Some (MkK (key s) k, r)
      | None => None
      end
  end.
End machine.

Abbreviation kprog := (prog (hact kact) (hresp kresp)).

(** ** The parker *)

Module KeyedEvent.
Definition STATE_UNPARKED : Z := 0.
Definition STATE_PARKED : Z := 1.
Definition STATE_TIMED_OUT : Z := 2.

Definition debug_assert_eq (x y : Z) : kprog unit :=
  if x =? y then Ret tt else Panic "debug_assert_eq".

(** The two calls; a timeout is a time in units of 100 ns, negative if it is
    relative. *)
Definition wait_for (timeout : option Z) : kprog Z :=
  Act (AP KWaitBegin) (λ _, Act (AP (KWaitEnd (bool_decide (is_Some timeout)))) Ret).
Definition release : kprog Z := Act (AP KRelBegin) (λ _, Act (AP KRelEnd) Ret).

Definition prepare_park : kprog unit := Act (AP (KStore STATE_PARKED)) Ret.
Definition timed_out : kprog bool := v <- Act (AP KLoad) Ret;; Ret (v =? STATE_TIMED_OUT).

Definition park : kprog unit := status <- wait_for None;; debug_assert_eq status STATUS_SUCCESS.

(** The timeout in units of 100 ns, rounded up and negated; [None] if that does
    not fit an [i64].  The cast of the seconds wraps. *)
Definition nt_timeout (diff : Z) : option Z :=
  x ← checked_signed 64 (as_signed 64 (as_secs diff) * -10000000);
  checked_signed 64 (x - (subsec_nanos diff + 99) / 100).

(** The wait is over without a release, as far as this thread knows. *)
Definition give_up_wait : kprog bool :=
  old <- Act (AP (KSwap STATE_TIMED_OUT)) Ret;;
  if old =? STATE_UNPARKED then park;; Ret true else Ret false.

Definition park_until (timeout : Z) : kprog bool :=
  now <- Act (AP KNow) Ret;;
  if timeout <=? now then give_up_wait
  else
    match nt_timeout (timeout - now) with
    | None => park;; Ret true
    | Some nt_timeout =>
        status <- wait_for (Some nt_timeout);;
        if status =? STATUS_SUCCESS then Ret true
        else debug_assert_eq status STATUS_TIMEOUT;; give_up_wait
    end.

(** The handle: whether there is a key to release. *)
Definition unpark_lock : kprog bool :=
  old <- Act (AP (KSwap STATE_UNPARKED)) Ret;; Ret (old =? STATE_PARKED).

Definition unpark (handle : bool) : kprog unit :=
  if handle then status <- release;; debug_assert_eq status STATUS_SUCCESS else Ret tt.

#[export] Instance parker `{!KeyedEvents} : Parker := {|
  pexec := kexec;
  IS_CHEAP_TO_CONSTRUCT := true;
  parker_new := MkK 0 kern0;
  ThreadParker.prepare_park := prepare_park;
  ThreadParker.timed_out := timed_out;
  ThreadParker.park := park;
  ThreadParker.park_until := park_until;
  ThreadParker.unpark_lock := unpark_lock;
  ThreadParker.unpark := unpark;
|}.
End KeyedEvent.
