(* ===== verification/KeyedEventProof.v ===== *)
(** * The keyed-event parker honours the contract

    Waker and waiting thread meet in the two blocking calls: whoever clears the
    word of a parked thread owes it a release, and the thread does not leave its
    wait before it has had it. *)

From S2P Require Import Prelude Conc ThreadParker WordParkers KeyedEvent.
Local Open Scope Z_scope.

(** Where a thread is.  The waiting thread: not waiting, with the word set, in
    the queue or taken out of it, in the platform's wait, expired, with the
    word set to timed out, expired in the queue, and obliged to wait for a
    release, before and in the call.  A waking thread: it has seen the thread in
    the queue, it has taken it out, it has to release it, and it is doing so. *)
Inductive phase := Out | Prep | In | Ker | Exp | InT | InQ | Must | MustKer | Saw | Took | Pend | Rel.

#[export] Instance phase_eq_dec : EqDecision phase.
Proof. solve_decision. Defined.

Record role := Role { hold : bool; ph : phase }.

Section proof.
Context {KE : KeyedEvents}.
Implicit Types (s : hstate (kstate kern)) (ρ : tid → role) (t u v : tid) (r : role).

Abbreviation key s := (KeyedEvent.key (parker s)).
Abbreviation ev s := (event (parker s)).

Definition taken ρ : Prop := ∃ u, u ≠ 0%nat ∧ ph (ρ u) = Took.

(** Thread [u] has still to release the waiting one. *)
Definition owes s ρ u : Prop :=
  u ≠ 0%nat ∧ (ph (ρ u) = Pend ∨ ph (ρ u) = Rel ∧ releasing (ev s) u = Alone).
Definition owed s ρ : Prop := ∃ u, owes s ρ u.
Definition none_blocked s : Prop := ∀ u, releasing (ev s) u ≠ Alone.

(** The thread is still to be taken out and released; [k] is its word. *)
Definition parked s ρ (k : Z) : Prop :=
  key s = k ∧ (queued s = true ∨ taken ρ) ∧ (queued s = true → ¬ taken ρ) ∧ ¬ owed s ρ.
Definition gone s ρ : Prop := queued s = false ∧ ¬ taken ρ.
Definition waits s ρ : Prop := parked s ρ 1 ∨ key s = 0 ∧ gone s ρ ∧ owed s ρ.

(** The state by where the waiting thread is. *)
Definition main s ρ (p : phase) : Prop :=
  match p with
  | Out => gone s ρ ∧ ¬ owed s ρ ∧ waiting (ev s) = NoCall
  | Prep => gone s ρ ∧ ¬ owed s ρ ∧ waiting (ev s) = NoCall ∧ key s = 1
  | In | Exp => waits s ρ ∧ waiting (ev s) = NoCall
  | Ker => waits s ρ ∧ waiting (ev s) = Alone ∧ none_blocked s ∨
           gone s ρ ∧ ¬ owed s ρ ∧ waiting (ev s) = Matched
  | InT => (parked s ρ 2 ∨ key s = 0 ∧ gone s ρ ∧ ¬ owed s ρ) ∧ waiting (ev s) = NoCall
  | InQ => queued s = true ∧ ¬ taken ρ ∧ ¬ owed s ρ ∧ waiting (ev s) = NoCall ∧ key s = 2
  | Must => gone s ρ ∧ owed s ρ ∧ waiting (ev s) = NoCall
  | MustKer => gone s ρ ∧ owed s ρ ∧ waiting (ev s) = Alone ∧ none_blocked s ∨
               gone s ρ ∧ ¬ owed s ρ ∧ waiting (ev s) = Matched
  | Saw | Took | Pend | Rel => False
  end.

(** These phases are left before the queue lock is released. *)
Definition held_phase (p : phase) : bool :=
  match p with Prep | InQ | Saw | Took => true | _ => false end.
Definition waker_phase (p : phase) : bool :=
  match p with Out | Saw | Took | Pend | Rel => true | _ => false end.

Record KInv s (g : unit) ρ : Prop := {
  ki_lock t : qlock s = Some t ↔ hold (ρ t) = true;
  ki_main : main s ρ (ph (ρ 0%nat));
  ki_rel t : releasing (ev s) t = NoCall ↔ ph (ρ t) ≠ Rel;
  ki_one u v : owes s ρ u → owes s ρ v → u = v;
  ki_waker t : t ≠ 0%nat → waker_phase (ph (ρ t)) = true;
  ki_saw t : ph (ρ t) = Saw → queued s = true;
  ki_held t : held_phase (ph (ρ t)) = true → hold (ρ t) = true;
}.

(** A thread that cannot go on waits for the queue lock, or for a partner. *)
Definition blocked t r s : Prop :=
  hold r = false ∧
  (qlock s ≠ None ∨ (t = 0%nat ∧ (ph r = Ker ∨ ph r = MustKer) ∧ waiting (ev s) = Alone) ∨
   (t ≠ 0%nat ∧ ph r = Rel ∧ releasing (ev s) t = Alone)).

Abbreviation kwp := (wp (hexec kexec) KInv (λ (_ : string) (_ : role), False) blocked).

(** ** Steps *)

Lemma ke_held_unique s g ρ t u : KInv s g ρ → hold (ρ t) = true → hold (ρ u) = true → t = u.
Proof. intros HI H1%(ki_lock _ _ _ HI) H2%(ki_lock _ _ _ HI). congruence. Qed.

(** Whoever holds the lock knows that nobody else has taken the thread. *)
Lemma ke_no_taken s g ρ t : KInv s g ρ → hold (ρ t) = true → ph (ρ t) ≠ Took → ¬ taken ρ.
Proof.
  intros HI Ht Hp (u & _ & Hu). assert (Hh : hold (ρ u) = true) by (apply (ki_held _ _ _ HI); by rewrite Hu).
  rewrite (ke_held_unique _ _ _ _ _ HI Ht Hh) in Hp. done.
Qed.

(** A release that is blocked is owed. *)
Lemma alone_owes s g ρ u : KInv s g ρ → releasing (ev s) u = Alone → owes s ρ u.
Proof.
  intros HI Hu. destruct (decide (ph (ρ u) = Rel)) as [E|E%(ki_rel _ _ _ HI)]; [|congruence].
  split; [|by right]. intros ->. pose proof (ki_main _ _ _ HI) as Hm. by rewrite E in Hm.
Qed.

(** A step of thread [t]. *)
Lemma k_step s g ρ t s' r :
  KInv s g ρ → qlock s' = qlock s → hold r = hold (ρ t) →
  main s' (<[t := r]> ρ) (ph ((<[t := r]> ρ : tid → role) 0%nat)) →
  (∀ u, u ≠ t → releasing (ev s') u = releasing (ev s) u ∨
                releasing (ev s) u = Alone ∧ releasing (ev s') u = Matched) →
  (releasing (ev s') t = NoCall ↔ ph r ≠ Rel) →
  (owes s' (<[t := r]> ρ) t → t ≠ 0%nat → owes s ρ t ∨ ¬ owed s ρ) →
  (t ≠ 0%nat → waker_phase (ph r) = true) → (ph r = Saw → queued s' = true) →
  (queued s' = queued s ∨ hold (ρ t) = true) → (held_phase (ph r) = true → hold r = true) →
  KInv s' g (<[t := r]> ρ).
Proof.
  intros HI El Eh Hm Hoth Hrel Hone Hw Hsaw Hq Hh.
  assert (Howes : ∀ u, u ≠ t → owes s' (<[t := r]> ρ) u → owes s ρ u).
  { intros u Hu [H0 H]. fn_simp. split; [done|]. destruct H as [|[? H]]; [by left|right].
    split; [done|]. destruct (Hoth u Hu) as [<-|[_ ?]]; congruence. }
  split.
  - intros u. rewrite El, (ki_lock _ _ _ HI u). by fn_cases t u; rewrite ?Eh.
  - done.
  - intros u. fn_cases t u; [done|]. rewrite <- (ki_rel _ _ _ HI u).
    destruct (Hoth u) as [->|[-> ->]]; [done|done|]. by split.
  - intros u v Hu Hv. destruct (decide (u = t)) as [->|Hut], (decide (v = t)) as [->|Hvt]; [done|..].
    + destruct (Hone Hu) as [H|H]; [apply Hu| |destruct H; exists v; by apply Howes].
      apply (ki_one _ _ _ HI); [done|by apply Howes].
    + destruct (Hone Hv) as [H|H]; [apply Hv| |destruct H; exists u; by apply Howes].
      apply (ki_one _ _ _ HI); [by apply Howes|done].
    + apply (ki_one _ _ _ HI); by apply Howes.
  - intros u Hu. fn_cases t u; [auto|]. by apply (ki_waker _ _ _ HI).
  - intros u Hs. fn_cases t u; [by apply Hsaw|].
    pose proof (ki_saw _ _ _ HI u Hs) as Hqs. destruct Hq as [->|Hq]; [done|].
    assert (Hu : hold (ρ u) = true) by (apply (ki_held _ _ _ HI); by rewrite Hs).
    by pose proof (ke_held_unique _ _ _ _ _ HI Hq Hu).
  - intros u. fn_cases t u; [done|apply (ki_held _ _ _ HI)].
Qed.

(** What the step of the waiting thread leaves alone. *)
Lemma ke_taken_0 ρ r : taken (<[0%nat := r]> ρ) ↔ taken ρ.
Proof. unfold taken. split; intros (u & Hu & E); exists u; (split; [done|]); by fn_simp. Qed.

Lemma owes_0 s s' ρ r u : ev s' = ev s → owes s' (<[0%nat := r]> ρ) u ↔ owes s ρ u.
Proof. intros E. unfold owes. rewrite E. split; intros [Hu H]; (split; [done|]); by fn_simp. Qed.
Lemma owed_0 s s' ρ r : ev s' = ev s → owed s' (<[0%nat := r]> ρ) ↔ owed s ρ.
Proof. intros E. unfold owed. by setoid_rewrite (owes_0 s s' ρ r _ E). Qed.

(** A step of the waiting thread outside the calls. *)
Lemma k_main s g ρ s' r h (p : phase) :
  KInv s g ρ → ρ 0%nat = Role h p → hold r = h → qlock s' = qlock s → ev s' = ev s →
  main s' ρ (ph r) → (queued s' = queued s ∨ h = true) → ph r ≠ Saw → ph r ≠ Rel → p ≠ Rel →
  (held_phase (ph r) = true → h = true) → KInv s' g (<[0%nat := r]> ρ).
Proof.
  intros HI Hr Hh El Ee Hm Hq Hs Hrel Hrel' Hhp.
  apply (k_step s g ρ 0%nat s' r); rewrite ?Hr; cbn; try done.
  - fn_simp. unfold main, waits, parked, gone in *. destruct (ph r); rewrite ?ke_taken_0, ?(owed_0 s' s') by done; done.
  - intros u _. rewrite Ee. by left.
  - rewrite Ee, (ki_rel _ _ _ HI), Hr. by split.
  - intros E. rewrite Hh. by apply Hhp.
Qed.
(** A step on the queue lock. *)
Lemma main_ext s s' ρ ρ' p :
  parker s' = parker s → queued s' = queued s → (∀ u, ph (ρ' u) = ph (ρ u)) → main s ρ p → main s' ρ' p.
Proof.
  intros Ep Eq Hph.
  assert (Ht : taken ρ' ↔ taken ρ) by (unfold taken; by setoid_rewrite Hph).
  assert (Ho : owed s' ρ' ↔ owed s ρ) by (unfold owed, owes; rewrite Ep; by setoid_rewrite Hph).
  assert (Hg : gone s' ρ' ↔ gone s ρ) by (unfold gone; by rewrite Eq, Ht).
  assert (Hpk : ∀ k, parked s' ρ' k ↔ parked s ρ k) by (intros k; unfold parked; by rewrite Ep, Eq, Ht, Ho).
  assert (Hw : waits s' ρ' ↔ waits s ρ) by (unfold waits; by rewrite Hpk, Ep, Hg, Ho).
  unfold main, none_blocked. destruct p; rewrite ?Hw, ?Hpk, ?Hg, ?Ho, ?Ht, ?Ep, ?Eq; done.
Qed.

Lemma k_lock s g ρ t h l x :
  KInv s g ρ → ph (ρ t) = x → (held_phase x = true → h = true) →
  (∀ u, l = Some u ↔ hold ((<[t := Role h x]> ρ : tid → role) u) = true) →
  KInv (MkH (parker s) l (queued s)) g (<[t := Role h x]> ρ).
Proof.
  intros HI <- Hh Hl.
  assert (Hph : ∀ u, ph ((<[t := Role h (ph (ρ t))]> ρ : tid → role) u) = ph (ρ u)) by (intros u; by fn_cases t u).
  split; cbn [parker queued qlock]; try done.
  - rewrite Hph. eapply main_ext; [done|done|exact Hph|apply HI].
  - intros u. rewrite Hph. apply HI.
  - intros u v [Hu Hu'] [Hv Hv']. rewrite Hph in Hu', Hv'. by apply (ki_one _ _ _ HI).
  - intros u. rewrite Hph. apply HI.
  - intros u. rewrite Hph. apply HI.
  - intros u. rewrite Hph. fn_cases t u; [done|apply HI].
Qed.

Lemma ke_queue_lock {A} t x (k : unit → kprog A) Q :
  kwp t (k tt) (Role true x) Q → kwp t (Act AQLock k) (Role false x) Q.
Proof.
  intros Hk. apply wp_act.
  { intros s g ρ Hr HI. cbn. destruct (qlock s) as [u|] eqn:E; [right; split; [done|left; by rewrite E]|].
    left. exists 0. by eexists. }
  intros s g ρ c s' v Hr HI Hex. cbn in Hex. destruct (qlock s) eqn:E; [done|].
  injection Hex as <- <-. exists g, (Role true x). split; [|done].
  apply k_lock; [done|by rewrite Hr|done|]. intros u. fn_cases t u; [done|].
  rewrite <- (ki_lock _ _ _ HI u), E. split; [congruence|done].
Qed.

Lemma ke_queue_unlock {A} t x (k : unit → kprog A) Q :
  held_phase x = false → kwp t (k tt) (Role false x) Q → kwp t (Act AQUnlock k) (Role true x) Q.
Proof.
  intros Hx Hk. apply wp_act; [intros; left; exists 0; by eexists|].
  intros s g ρ c s' v Hr HI Hex. cbn in Hex. injection Hex as <- <-.
  exists g, (Role false x). split; [|done]. apply k_lock; [done|by rewrite Hr|by rewrite Hx|].
  intros u. split; [done|]. fn_cases t u; [done|]. intros Hu%(ki_lock _ _ _ HI).
  assert (Ht : qlock s = Some t) by (apply (ki_lock _ _ _ HI); by rewrite Hr). congruence.
Qed.

Ltac always := intros; left; exists 0; by eexists.
Ltac step s g ρ c HI :=
  let Hr := fresh "Hr" in let Hex := fresh "Hex" in
  apply wp_act; [always|]; intros s g ρ c ?s' ?v Hr HI Hex; cbn in Hex; injection Hex as <- <-.
Ltac main_fact HI Hr Hm :=
  pose proof (ki_main _ _ _ HI) as Hm; rewrite Hr in Hm; cbn [main ph] in Hm.

(** ** The waiting thread *)

Lemma ke_prepare {A} (k : unit → kprog A) Q :
  kwp 0 (k tt) (Role true Prep) Q → kwp 0 (Act (AP (KStore 1)) k) (Role true Out) Q.
Proof.
  intros Hk. step s g ρ c HI. exists g, (Role true Prep). split; [|done]. main_fact HI Hr Hm.
  eapply (k_main s); [done|exact Hr|done..| | | | |done|done]; cbn; [|by left|done|done].
  naive_solver.
Qed.

Lemma ke_enqueue {A} (k : unit → kprog A) Q :
  kwp 0 (k tt) (Role true In) Q → kwp 0 (Act (AQSet true) k) (Role true Prep) Q.
Proof.
  intros Hk. step s g ρ c HI. exists g, (Role true In). split; [|done]. main_fact HI Hr Hm.
  eapply (k_main s); [done|exact Hr|done..| | | | |done|done]; cbn; [|by right|done|done].
  unfold gone in Hm. split; [left|naive_solver]. unfold parked. cbn. naive_solver.
Qed.

Lemma ke_leave_queue {A} (k : unit → kprog A) Q :
  kwp 0 (k tt) (Role true Out) Q → kwp 0 (Act (AQSet false) k) (Role true InQ) Q.
Proof.
  intros Hk. step s g ρ c HI. exists g, (Role true Out). split; [|done]. main_fact HI Hr Hm.
  eapply (k_main s); [done|exact Hr|done..| | | | |done|done]; cbn; [|by right|done|done].
  unfold gone. naive_solver.
Qed.

Lemma ke_expect b h x (Q : unit → role → Prop) :
  (b = false ∧ x = Out) ∨ (b = true ∧ x = InQ ∧ h = true) → Q tt (Role h x) →
  kwp 0 (q <- Act AQGet Ret;; if Bool.eqb q b then Ret tt else Panic "the queue disagrees")%prog
    (Role h x) Q.
Proof.
  intros Hb HQ. wp_pure. step s g ρ c HI. exists g, (Role h x). main_fact HI Hr Hm. split.
  - eapply (k_main s); [done|exact Hr|done..| | | | | |]; cbn; try (destruct Hb as [[_ ->]|(_ & -> & ?)]; done).
    by left.
  - wp_pure. destruct Hb as [[-> ->]|(-> & -> & _)]; cbn in Hm.
    + destruct Hm as [[-> _] _]. by apply wp_ret.
    + destruct Hm as [-> _]. by apply wp_ret.
Qed.

(** The word says whether the thread was taken out meanwhile. *)
Lemma wp_load_timed_out {A} (k : Z → kprog A) Q :
  kwp 0 (k 2) (Role true InQ) Q → kwp 0 (k 0) (Role true Out) Q →
  kwp 0 (Act (AP KLoad) k) (Role true InT) Q.
Proof.
  intros H1 H2. step s g ρ c HI. main_fact HI Hr Hm.
  assert (Hnt : ¬ taken ρ) by (apply (ke_no_taken s g ρ 0%nat HI); by rewrite Hr).
  destruct Hm as [[(E & Hq & _ & Ho)|(E & Hg & Ho)] Hw]; rewrite E.
  - exists g, (Role true InQ). split; [|done].
    eapply (k_main s); [done|exact Hr|done|done|done| |by left|done..]. cbn. destruct Hq; [done|tauto].
  - exists g, (Role true Out). split; [|done].
    eapply (k_main s); [done|exact Hr|done|done|done| |by left|done..]. done.
Qed.

(** Giving up, unless the word was cleared. *)
Lemma wp_swap_timed_out {A} (k : Z → kprog A) p Q :
  p = In ∨ p = Exp → kwp 0 (k 0) (Role false Must) Q → kwp 0 (k 1) (Role false InT) Q →
  kwp 0 (Act (AP (KSwap 2)) k) (Role false p) Q.
Proof.
  intros Hp H0 H1. step s g ρ c HI.
  assert (Hm : waits s ρ ∧ waiting (ev s) = NoCall).
  { pose proof (ki_main _ _ _ HI) as Hm. rewrite Hr in Hm. by destruct Hp as [->| ->]. }
  destruct Hm as [[(E & Hq)|(E & Hg & Ho)] Hw]; rewrite E.
  - exists g, (Role false InT). split; [|done].
    eapply (k_main s); [done|exact Hr|done..| |by left|done|done| |done]; [|by (destruct Hp as [->| ->])].
    cbn. split; [left|done]. split; [done|exact Hq].
  - exists g, (Role false Must). split; [|done].
    eapply (k_main s); [done|exact Hr|done..| |by left|done|done| |done]; [|by (destruct Hp as [->| ->])]. done.
Qed.

Lemma ke_now {A} (k : Z → kprog A) Q :
  (∀ n, kwp 0 (k n) (Role false In) Q) → kwp 0 (Act (AP KNow) k) (Role false In) Q.
Proof.
  intros Hk. step s g ρ c HI. exists g, (Role false In). split; [|done].
  eapply (k_main s); [done|exact Hr|done|done|done| |by left|done..]. destruct s as [[] ? ?].
  pose proof (ki_main _ _ _ HI) as Hm. by rewrite Hr in Hm.
Qed.
(** The call to wait begins: with a partner, or without. *)
Lemma wait_begin_cases s g ρ :
  KInv s g ρ → waiting (ev s) = NoCall → owed s ρ ∨ ¬ owed s ρ →
  (∃ u, owes s ρ u ∧ releasing (ev s) u = Alone ∧ waiting (wait_begin (ev s)) = Matched ∧
     ∀ v, releasing (wait_begin (ev s)) v = if decide (v = u) then Matched else releasing (ev s) v) ∨
  (waiting (wait_begin (ev s)) = Alone ∧ none_blocked s ∧
     ∀ v, releasing (wait_begin (ev s)) v = releasing (ev s) v).
Proof.
  intros HI Hw Ho.
  assert (Hor : (∃ u, releasing (ev s) u = Alone) ∨ none_blocked s).
  { destruct Ho as [[u Hu]|Hno].
    - destruct (decide (releasing (ev s) u = Alone)) as [|Hn]; [by left; exists u|right].
      intros v Hv. pose proof (alone_owes _ _ _ _ HI Hv) as Hv'.
      by rewrite (ki_one _ _ _ HI _ _ Hu Hv') in Hn.
    - right. intros v Hv. apply Hno. exists v. by eapply alone_owes. }
  destruct Hor as [[u Hu]|Hn]; [left|right].
  - exists u. pose proof (alone_owes _ _ _ _ HI Hu) as Hu'.
    destruct (wait_matches (ev s) u Hw Hu) as [H1 H2]; [|done].
    intros v Hv. symmetry. apply (ki_one _ _ _ HI); [done|by eapply alone_owes].
  - by destruct (wait_blocks (ev s) Hw Hn).
Qed.

(** A partner was found: nobody owes a release any more. *)
Lemma matched_none s s' ρ ρ' u :
  (∀ v w, owes s ρ v → owes s ρ w → v = w) → owes s ρ u → ph (ρ' u) = Rel →
  (∀ v, v ≠ 0%nat → v ≠ u → ph (ρ' v) = ph (ρ v)) →
  (∀ v, releasing (ev s') v = if decide (v = u) then Matched else releasing (ev s) v) → ¬ owed s' ρ'.
Proof.
  intros Hone Hu Hp Hph Hrel (v & H0 & Hv). rewrite Hrel in Hv. case_decide as E.
  - subst v. rewrite Hp in Hv. by destruct Hv as [|[_ ?]].
  - apply E. apply Hone; [|done]. split; [done|]. by rewrite <- Hph.
Qed.

(** The call that waits. *)
Definition called (p : phase) : phase := if decide (p = Must) then MustKer else Ker.

Lemma wp_wait_begin {A} (k : unit → kprog A) p Q :
  p = In ∨ p = Must → kwp 0 (k tt) (Role false (called p)) Q →
  kwp 0 (Act (AP KWaitBegin) k) (Role false p) Q.
Proof.
  intros Hp Hk. step s g ρ c HI. exists g, (Role false (called p)). split; [|done].
  assert (Hm : (waits s ρ ∧ p = In ∨ gone s ρ ∧ owed s ρ ∧ p = Must) ∧ waiting (ev s) = NoCall).
  { pose proof (ki_main _ _ _ HI) as Hm. rewrite Hr in Hm. destruct Hp as [->| ->]; cbn in Hm; tauto. }
  destruct Hm as [Hm Hw]. set (ρ' := <[0%nat := Role false (called p)]> ρ).
  assert (Ho : owed s ρ ∨ ¬ owed s ρ) by (unfold waits, parked in Hm; tauto).
  assert (Hph : ∀ v, v ≠ 0%nat → ph (ρ' v) = ph (ρ v)) by (intros v Hv; unfold ρ'; by fn_simp).
  assert (Hrel0 : releasing (ev s) 0%nat = NoCall).
  { apply (ki_rel _ _ _ HI). rewrite Hr. by destruct Hp as [->| ->]. }
  destruct (wait_begin_cases s g ρ HI Hw Ho) as [(u & Hu & Hua & Hw' & Hrel)|(Hw' & Hn & Hrel)].
  - assert (Hou : owed s ρ) by (by exists u).
    assert (Hg : gone s ρ) by (unfold waits, parked in Hm; tauto).
    assert (Hno : ¬ owed (MkH (MkK (key s) (wait_begin (ev s))) (qlock s) (queued s)) ρ').
    { eapply (matched_none s _ ρ); [apply (ki_one _ _ _ HI)|exact Hu| |auto|exact Hrel].
      rewrite Hph by apply Hu. destruct (decide (ph (ρ u) = Rel)) as [|E%(ki_rel _ _ _ HI)]; [done|congruence]. }
    apply (k_step s g ρ 0%nat); cbn [parker qlock queued]; rewrite ?Hr; try done.
    + fn_simp. cbn [ph]. assert (Hg' : gone (MkH (MkK (key s) (wait_begin (ev s))) (qlock s) (queued s)) ρ').
      { unfold gone, ρ'. by rewrite ke_taken_0. }
      unfold called. destruct Hp as [->| ->]; cbn; by right.
    + intros v Hv. cbn. rewrite Hrel. case_decide as E; [subst v; by right|by left].
    + cbn. rewrite Hrel. destruct (decide (0%nat = u)) as [<-|]; [by destruct Hu|].
      rewrite Hrel0. unfold called. by destruct Hp as [->| ->].
    + unfold called. by destruct Hp as [->| ->].
    + by left.
    + unfold called. by destruct Hp as [->| ->].
  - assert (Hoe : ∀ v, owes (MkH (MkK (key s) (wait_begin (ev s))) (qlock s) (queued s)) ρ' v ↔ owes s ρ v).
    { intros v. unfold owes. cbn. rewrite Hrel. split; intros [Hv H]; (split; [done|]); by rewrite Hph in *. }
    assert (Hno : none_blocked (MkH (MkK (key s) (wait_begin (ev s))) (qlock s) (queued s))).
    { intros v. cbn. by rewrite Hrel. }
    apply (k_step s g ρ 0%nat); cbn [parker qlock queued]; rewrite ?Hr; try done.
    + fn_simp. cbn [ph]. fold ρ'.
      assert (Hoo : owed (MkH (MkK (key s) (wait_begin (ev s))) (qlock s) (queued s)) ρ' ↔ owed s ρ)
        by (unfold owed; by setoid_rewrite Hoe).
      unfold called. destruct Hp as [->| ->]; cbn; left.
      * split; [|done]. destruct Hm as [[Hm _]|(_ & _ & ?)]; [|done].
        unfold waits, parked, gone, ρ' in *. cbn. rewrite ?ke_taken_0, ?Hoo in *. done.
      * destruct Hm as [[_ ?]|(Hg & Hou & _)]; [done|].
        split; [unfold gone, ρ'; by rewrite ke_taken_0|]. by rewrite Hoo.
    + intros v Hv. cbn. rewrite Hrel. by left.
    + cbn. rewrite Hrel, Hrel0. unfold called. by destruct Hp as [->| ->].
    + unfold called. by destruct Hp as [->| ->].
    + by left.
    + unfold called. by destruct Hp as [->| ->].
Qed.

(** The kernel changes, but not for the threads that release. *)
Lemma owed_same s s' ρ r :
  (∀ v, releasing (ev s') v = releasing (ev s) v) → owed s' (<[0%nat := r]> ρ) ↔ owed s ρ.
Proof.
  intros E. unfold owed, owes. setoid_rewrite E. split; intros (v & Hv & H); exists v; (split; [done|]); by fn_simp.
Qed.

Lemma wp_wait_end p timed (Q : Z → role → Prop) :
  p = In ∨ p = Must → Q STATUS_SUCCESS (Role false Out) →
  (timed = true → p = In ∧ Q STATUS_TIMEOUT (Role false Exp)) →
  kwp 0 (Act (AP (KWaitEnd timed)) Ret) (Role false (called p)) Q.
Proof.
  intros Hp HS HT. assert (Hc : called p = Ker ∨ called p = MustKer).
  { unfold called. case_decide; auto. }
  apply wp_act.
  - intros s g ρ Hr HI. destruct (waiting (ev s)) eqn:E.
    + pose proof (ki_main _ _ _ HI) as Hm. rewrite Hr in Hm. cbn in Hm.
      destruct Hc as [Ec|Ec]; rewrite Ec in Hm; cbn in Hm; rewrite E in Hm; exfalso; tauto || (clear -Hm; naive_solver).
    + right. split; [done|]. right. left. by cbn.
    + left. destruct (wait_ready timed _ E) as [c [[k r] E']]. exists c. cbn. rewrite E'. by eexists.
  - intros s g ρ c s' v Hr HI Hex. cbn in Hex.
    destruct (wait_end c timed (ev s)) as [[k r]|] eqn:E; [|done]. injection Hex as <- <-.
    destruct (wait_result _ _ _ _ _ E) as (Hw & Hrel & Hres).
    pose proof (ki_main _ _ _ HI) as Hm. rewrite Hr in Hm. cbn [ph] in Hm.
    assert (Hnr : releasing (ev s) 0%nat = NoCall).
    { apply (ki_rel _ _ _ HI). rewrite Hr. cbn. by destruct Hc as [->| ->]. }
    assert (Hstep : ∀ x, main (MkH (MkK (key s) k) (qlock s) (queued s)) (<[0%nat := Role false x]> ρ) x →
      x = Out ∨ x = Exp → KInv (MkH (MkK (key s) k) (qlock s) (queued s)) g (<[0%nat := Role false x]> ρ)).
    { intros x Hx Hx'. apply (k_step s g ρ 0%nat); cbn; rewrite ?Hr; try done; try by left.
      - rewrite Hrel, Hnr. by destruct Hx' as [->| ->].
      - by destruct Hx' as [->| ->].
      - by destruct Hx' as [->| ->]. }
    pose proof (owed_same s (MkH (MkK (key s) k) (qlock s) (queued s)) ρ) as Ho. cbn in Ho.
    destruct Hres as [[Hw0 ->]|(-> & Hw0 & ->)].
    + exists g, (Role false Out). split; [|by apply wp_ret]. apply Hstep; [|by left].
      cbn. unfold gone. cbn. rewrite ke_taken_0, Ho by done.
      assert (Hg : gone s ρ ∧ ¬ owed s ρ); [|unfold gone in Hg; tauto].
      destruct Hc as [Ec|Ec]; rewrite Ec in Hm; cbn in Hm.
      * by destruct Hm as [(_ & ? & _)|(? & ? & _)]; [congruence|].
      * by destruct Hm as [(_ & _ & ? & _)|(? & ? & _)]; [congruence|].
    + destruct HT as [-> HT]; [done|]. exists g, (Role false Exp). split; [|by apply wp_ret].
      apply Hstep; [|by right]. change (called In) with Ker in Hm. cbn in Hm.
      destruct Hm as [(Hm & _)|(_ & _ & ?)]; [|congruence]. cbn. split; [|done].
      unfold waits, parked, gone in *. cbn. by rewrite !ke_taken_0, !Ho.
Qed.

Lemma ke_wait_for timeout p (Q : Z → role → Prop) :
  p = In ∨ p = Must → Q STATUS_SUCCESS (Role false Out) →
  (is_Some timeout → p = In ∧ Q STATUS_TIMEOUT (Role false Exp)) →
  kwp 0 (KeyedEvent.wait_for timeout) (Role false p) Q.
Proof.
  intros Hp HS HT. unfold KeyedEvent.wait_for. apply wp_wait_begin; [done|].
  apply wp_wait_end; [done|done|]. intros E%bool_decide_eq_true. auto.
Qed.

(** ** The waking threads *)

Section waker.
Context (t : tid) (Ht : t ≠ 0%nat).

Lemma waker_main_ev s s' ρ r :
  key s' = key s → waiting (ev s') = waiting (ev s) → queued s' = queued s →
  (∀ u, u ≠ t → releasing (ev s') u = releasing (ev s) u) → (none_blocked s → none_blocked s' ∨ waiting (ev s) ≠ Alone) →
  (ph r = Took ↔ ph (ρ t) = Took) →
  (owes s' (<[t := r]> ρ) t ↔ owes s ρ t) → main s ρ (ph (ρ 0%nat)) →
  main s' (<[t := r]> ρ) (ph (ρ 0%nat)).
Proof.
  intros Ek Ew Eq Er Hnb Htk Hot.
  assert (Ht' : taken (<[t := r]> ρ) ↔ taken ρ).
  { unfold taken. split; intros (u & Hu & E); exists u; (split; [done|]);
      (destruct (decide (u = t)) as [->|]; fn_simp; [by apply Htk|done]). }
  assert (Ho : owed s' (<[t := r]> ρ) ↔ owed s ρ).
  { unfold owed. split; intros (u & Hu); exists u; (destruct (decide (u = t)) as [->|]; [by apply Hot|]);
      destruct Hu as [Hu Hu']; (split; [done|]); fn_simp; by rewrite Er in *. }
  assert (Hg : gone s' (<[t := r]> ρ) ↔ gone s ρ) by (unfold gone; by rewrite Eq, Ht').
  assert (Hpk : ∀ k, parked s' (<[t := r]> ρ) k ↔ parked s ρ k)
    by (intros k; unfold parked; by rewrite Ek, Eq, Ht', Ho).
  assert (Hw : waits s' (<[t := r]> ρ) ↔ waits s ρ) by (unfold waits; by rewrite Hpk, Ek, Hg, Ho).
  unfold main. destruct (ph (ρ 0%nat)); rewrite ?Hw, ?Hpk, ?Hg, ?Ho, ?Ht', ?Ek, ?Ew, ?Eq; try done; tauto.
Qed.

Lemma waker_main s s' ρ r :
  parker s' = parker s → queued s' = queued s → (ph r = Took ↔ ph (ρ t) = Took) →
  (owes s' (<[t := r]> ρ) t ↔ owes s ρ t) → main s ρ (ph (ρ 0%nat)) →
  main s' (<[t := r]> ρ) (ph (ρ 0%nat)).
Proof. intros Ep Eq. apply waker_main_ev; try done; unfold none_blocked; rewrite Ep; auto. Qed.

Lemma ke_look_queue {A} (k : bool → kprog A) Q :
  kwp t (k true) (Role true Saw) Q → kwp t (k false) (Role true Out) Q →
  kwp t (Act AQGet k) (Role true Out) Q.
Proof.
  intros H1 H2. step s g ρ c HI.
  assert (HI' : ∀ x, (x = Out ∨ (x = Saw ∧ queued s = true)) → KInv s g (<[t := Role true x]> ρ)).
  { intros x Hx. assert (Hn : releasing (ev s) t = NoCall) by (apply (ki_rel _ _ _ HI); by rewrite Hr).
    apply (k_step s g ρ t s); cbn; rewrite ?Hr; try done; try (by left).
    - fn_simp. apply (waker_main s); [done|done| | |apply HI]; unfold owes; fn_simp; rewrite ?Hr; cbn;
        [naive_solver|]. destruct Hx as [->|[-> _]]; naive_solver.
    - destruct Hx as [->|[-> _]]; done.
    - intros [_ [Ho|[Ho _]]]; fn_simp; cbn in Ho; naive_solver.
    - destruct Hx as [->|[-> _]]; done.
    - naive_solver. }
  destruct (queued s) eqn:E; [exists g, (Role true Saw)|exists g, (Role true Out)];
    (split; [apply HI'; auto|done]).
Qed.

Lemma ke_take {A} (k : unit → kprog A) Q :
  kwp t (k tt) (Role true Took) Q → kwp t (Act (AQSet false) k) (Role true Saw) Q.
Proof.
  intros Hk. step s g ρ c HI. exists g, (Role true Took). split; [|done].
  assert (Hq : queued s = true) by (apply (ki_saw _ _ _ HI t); by rewrite Hr).
  assert (Hn : releasing (ev s) t = NoCall) by (apply (ki_rel _ _ _ HI); by rewrite Hr).
  assert (Htk : taken (<[t := Role true Took]> ρ)) by (exists t; by fn_simp).
  assert (Hto : ∀ s' u, parker s' = parker s → owes s' (<[t := Role true Took]> ρ) u ↔ owes s ρ u).
  { intros s' u Ep. unfold owes. rewrite Ep. destruct (decide (u = t)) as [->|]; fn_simp; [rewrite Hr; cbn; naive_solver|done]. }
  assert (H0 : ph (ρ 0%nat) ≠ InQ).
  { intros E. apply Ht. apply (ke_held_unique s g ρ); [done|by rewrite Hr|].
    apply (ki_held _ _ _ HI). by rewrite E. }
  apply (k_step s g ρ t); cbn; rewrite ?Hr; try done; [| | |by right].
  - fn_simp. pose proof (ki_main _ _ _ HI) as Hm.
    assert (Ho : owed (MkH (parker s) (qlock s) false) (<[t := Role true Took]> ρ) ↔ owed s ρ)
      by (unfold owed; by setoid_rewrite Hto).
    unfold main, waits, parked, gone, none_blocked in *. cbn.
    destruct (ph (ρ 0%nat)); rewrite ?Hq, ?Ho in *; cbn in *; naive_solver.
  - intros. by left.
  - intros Ho. apply Hto in Ho; [|done]. by left.
Qed.

(** The word is cleared: the thread is owed a release, unless it gave up. *)
Lemma wp_swap_unparked {A} (k : Z → kprog A) Q :
  kwp t (k 1) (Role true Pend) Q → kwp t (k 2) (Role true Out) Q →
  kwp t (Act (AP (KSwap 0)) k) (Role true Took) Q.
Proof.
  intros H1 H2. step s g ρ c HI.
  assert (Hn : releasing (ev s) t = NoCall) by (apply (ki_rel _ _ _ HI); by rewrite Hr).
  assert (Htk : taken ρ) by (exists t; by rewrite Hr).
  assert (Hnt : ∀ x, x ≠ Took → ¬ taken (<[t := Role true x]> ρ)).
  { intros x Hx (u & Hu & E). fn_cases t u; [done|].
    assert (Hh : hold (ρ u) = true) by (apply (ki_held _ _ _ HI); by rewrite E).
    apply n. apply (ke_held_unique s g ρ); [done|by rewrite Hr|done]. }
  pose proof (ki_main _ _ _ HI) as Hm.
  assert (Hk : (key s = 1 ∧ waits s ρ ∨ key s = 2 ∧ ph (ρ 0%nat) = InT) ∧ ¬ owed s ρ ∧ queued s = false).
  { unfold main, waits, parked, gone in Hm. unfold waits, parked.
    destruct (queued s) eqn:Eq; destruct (ph (ρ 0%nat)); naive_solver. }
  destruct Hk as (Hk & Hno & Hq).
  assert (Ho : ∀ s', parker s' = MkK 0 (ev s) → owed s' (<[t := Role true Pend]> ρ)).
  { intros s' _. exists t. split; [done|]. fn_simp. by left. }
  assert (Ho' : ∀ s', parker s' = MkK 0 (ev s) → ¬ owed s' (<[t := Role true Out]> ρ)).
  { intros s' Ep (u & Hu & H). apply Hno. exists u. split; [done|]. rewrite Ep in H. fn_cases t u; [|done].
    cbn in H. naive_solver. }
  destruct Hk as [[E Hw]|[E Hp]]; rewrite E.
  - exists g, (Role true Pend). split; [|done].
    apply (k_step s g ρ t); cbn; rewrite ?Hr; try done; try (by left); [|by right].
    fn_simp. specialize (Ho (MkH (MkK 0 (ev s)) (qlock s) (queued s)) eq_refl). specialize (Hnt Pend ltac:(done)).
    unfold main, waits, parked, gone, none_blocked in *. cbn.
    destruct (ph (ρ 0%nat)); rewrite ?Hq in *; cbn in *; naive_solver lia.
  - exists g, (Role true Out). split; [|done].
    apply (k_step s g ρ t); cbn; rewrite ?Hr; try done; try (by left).
    2: by right.
    fn_simp. specialize (Ho' (MkH (MkK 0 (ev s)) (qlock s) (queued s)) eq_refl). specialize (Hnt Out ltac:(done)).
    rewrite Hp in *. unfold main, gone in *. cbn. split; [right|naive_solver]. done.
Qed.

(** The call to release begins. *)
Lemma wp_release_begin {A} (k : unit → kprog A) Q :
  kwp t (k tt) (Role false Rel) Q → kwp t (Act (AP KRelBegin) k) (Role false Pend) Q.
Proof.
  intros Hk. step s g ρ c HI. exists g, (Role false Rel). split; [|done].
  assert (Hn : releasing (ev s) t = NoCall) by (apply (ki_rel _ _ _ HI); by rewrite Hr).
  assert (Hot : owes s ρ t) by (split; [done|]; rewrite Hr; by left).
  pose proof (ki_main _ _ _ HI) as Hm.
  destruct (decide (waiting (ev s) = Alone)) as [Hw|Hw].
  - destruct (release_matches (ev s) t Hn Hw) as [Hw' Hrel].
    set (s' := MkH (MkK (key s) (release_begin t (ev s))) (qlock s) (queued s)).
    assert (Hno : ¬ owed s' (<[t := Role false Rel]> ρ)).
    { eapply (matched_none s _ ρ); [apply (ki_one _ _ _ HI)|exact Hot|by fn_simp| |exact Hrel].
      intros v _ Hv. by fn_simp. }
    assert (Ht' : taken (<[t := Role false Rel]> ρ) → taken ρ).
    { intros (u & Hu & E). exists u. split; [done|]. by fn_cases t u. }
    assert (Hou : owed s ρ) by (by exists t).
    apply (k_step s g ρ t s'); cbn; rewrite ?Hr; try done; try (by left).
    + fn_simp. assert (Hw1 : waiting (ev s) ≠ NoCall) by congruence.
      assert (Hw2 : waiting (ev s) ≠ Matched) by congruence.
      unfold main, waits, parked, gone in Hm |- *. destruct (ph (ρ 0%nat)); cbn; tauto.
    + intros u Hu. rewrite Hrel, decide_False by done. by left.
    + by rewrite Hrel, decide_True.
  - destruct (release_blocks (ev s) t Hn Hw) as [Hw' Hrel].
    apply (k_step s g ρ t); cbn; rewrite ?Hr; try done; try (by left).
    + fn_simp. apply (waker_main_ev s); cbn; try done.
      * intros u Hu. by rewrite Hrel, decide_False.
      * by right.
      * by rewrite Hr.
      * split; [done|]. intros _. split; [done|]. fn_simp. right. cbn. by rewrite Hrel, decide_True.
    + intros u Hu. rewrite Hrel, decide_False by done. by left.
    + by rewrite Hrel, decide_True.
Qed.

Lemma ke_release (Q : Z → role → Prop) :
  Q STATUS_SUCCESS (Role false Out) → kwp t KeyedEvent.release (Role false Pend) Q.
Proof.
  intros HQ. unfold KeyedEvent.release. apply wp_release_begin. apply wp_act.
  - intros s g ρ Hr HI. destruct (releasing (ev s) t) eqn:E.
    + apply (ki_rel _ _ _ HI) in E. by rewrite Hr in E.
    + right. split; [done|]. by right; right.
    + left. destruct (release_ready t _ E) as [c [[k r] E']]. exists c. cbn. rewrite E'. by eexists.
  - intros s g ρ c s' v Hr HI Hex. cbn in Hex.
    destruct (release_end t c (ev s)) as [[k r]|] eqn:E; [|done]. injection Hex as <- <-.
    destruct (release_result _ _ _ _ _ E) as (Hm & -> & Hw & Hrel).
    exists g, (Role false Out). split; [|by apply wp_ret].
    apply (k_step s g ρ t); cbn; rewrite ?Hr; try done; try (by left).
    + fn_simp. apply (waker_main_ev s); cbn; try done.
      * intros u Hu. by rewrite Hrel, decide_False.
      * intros Hn. left. intros u. cbn. rewrite Hrel. by case_decide.
      * by rewrite Hr.
      * unfold owes. fn_simp. rewrite Hr, Hm. cbn. naive_solver.
      * apply HI.
    + intros u Hu. rewrite Hrel, decide_False by done. by left.
    + by rewrite Hrel, decide_True.
    + intros [_ [Ho|[Ho _]]]; by fn_simp.
Qed.
End waker.

(** ** The contract *)

Lemma wp_debug_assert_eq t x r (Q : unit → role → Prop) : Q tt r → kwp t (KeyedEvent.debug_assert_eq x x) r Q.
Proof. intros HQ. unfold KeyedEvent.debug_assert_eq. rewrite Z.eqb_refl. by apply wp_ret. Qed.

Lemma ke_park p (Q : unit → role → Prop) :
  p = In ∨ p = Must → Q tt (Role false Out) → kwp 0 KeyedEvent.park (Role false p) Q.
Proof.
  intros Hp HQ. unfold KeyedEvent.park. wp_pure. apply ke_wait_for; [done| |by intros []].
  by apply wp_debug_assert_eq.
Qed.

Lemma ke_give_up p (Q : bool → role → Prop) :
  p = In ∨ p = Exp → Q true (Role false Out) → Q false (Role false InT) →
  kwp 0 KeyedEvent.give_up_wait (Role false p) Q.
Proof.
  intros Hp HT HF. unfold KeyedEvent.give_up_wait, KeyedEvent.STATE_TIMED_OUT. wp_pure.
  apply wp_swap_timed_out; [done| |]; unfold KeyedEvent.STATE_UNPARKED; wp_pure; cbn [Z.eqb]; [|by wp_pure].
  wp_pure. apply ke_park; [by right|]. by wp_pure.
Qed.

Lemma wp_park_until d (Q : bool → role → Prop) :
  Q true (Role false Out) → Q false (Role false InT) → kwp 0 (KeyedEvent.park_until d) (Role false In) Q.
Proof.
  intros HT HF. unfold KeyedEvent.park_until. wp_pure. apply ke_now. intros n. wp_pure.
  destruct (d <=? n); [by apply ke_give_up; [left|..]|].
  destruct (KeyedEvent.nt_timeout (d - n)) as [x|]; wp_pure.
  - apply ke_wait_for; [by left|by wp_pure|]. intros _. split; [done|]. cbn [Z.eqb]. unfold STATUS_TIMEOUT, STATUS_SUCCESS. wp_pure.
    cbn [Z.eqb]. wp_pure. apply wp_debug_assert_eq. by apply ke_give_up; [right|..].
  - apply ke_park; [by left|]. by wp_pure.
Qed.

Lemma wp_keyed_wait_once d (Q : unit → role → Prop) :
  Q tt (Role false Out) → kwp 0 (wait_once (PK := KeyedEvent.parker) d) (Role false Out) Q.
Proof.
  intros HQ. unfold wait_once, queue_lock, set_queued, queue_unlock. wp_pure.
  apply ke_queue_lock. wp_pure. cbn [prepare_park KeyedEvent.parker]. unfold KeyedEvent.prepare_park, KeyedEvent.STATE_PARKED.
  apply ke_prepare. wp_pure. apply ke_enqueue. wp_pure. apply ke_queue_unlock; [done|]. wp_pure.
  assert (Hun : kwp 0 (expect_queued (PK := KeyedEvent.parker) false) (Role false Out) Q)
    by (by apply (ke_expect false); [left|]).
  destruct d as [d|]; cbn [park park_until KeyedEvent.parker];
    [apply wp_park_until|wp_pure; apply ke_park; [by left|]]; wp_pure; [exact Hun| |exact Hun].
  apply ke_queue_lock. wp_pure. cbn [timed_out KeyedEvent.parker]. unfold KeyedEvent.timed_out, KeyedEvent.STATE_TIMED_OUT. wp_pure.
  apply wp_load_timed_out; wp_pure; cbn [Z.eqb Pos.eqb]; wp_pure.
  - apply (ke_expect true); [by right|]. wp_pure. apply ke_leave_queue. wp_pure. apply ke_queue_unlock; [done|].
    by wp_pure.
  - apply (ke_expect false); [by left|]. wp_pure. apply ke_queue_unlock; [done|]. by wp_pure.
Qed.

Lemma wp_keyed_wake_once t (Q : unit → role → Prop) :
  t ≠ 0%nat → Q tt (Role false Out) → kwp t (wake_once (PK := KeyedEvent.parker)) (Role false Out) Q.
Proof.
  intros Ht HQ. unfold wake_once, queue_lock, get_queued, set_queued, queue_unlock. wp_pure.
  apply ke_queue_lock. wp_pure. apply ke_look_queue; [done| |]; wp_pure.
  - apply ke_take; [done|]. wp_pure. cbn [unpark_lock KeyedEvent.parker].
    unfold KeyedEvent.unpark_lock, KeyedEvent.STATE_UNPARKED, KeyedEvent.STATE_PARKED. wp_pure.
    apply wp_swap_unparked; [done| |]; wp_pure; cbn [Z.eqb Pos.eqb]; wp_pure;
      (apply ke_queue_unlock; [done|]); wp_pure; cbn [unpark KeyedEvent.parker]; unfold KeyedEvent.unpark; wp_pure.
    + apply ke_release; [done|]. by apply wp_debug_assert_eq.
    + done.
  - apply ke_queue_unlock; [done|]. by wp_pure.
Qed.

Lemma keyed_start : KInv (parker_start (PK := KeyedEvent.parker)) tt (λ _, Role false Out).
Proof.
  destruct kern0_quiet as [H1 H2]. split; cbn; try done.
  - split; [|split]; [|by intros (u & _ & [[=]|[[=] _]])|done]. split; [done|]. by intros (u & _ & [=]).
  - intros u v [_ [[=]|[[=] _]]].
Qed.

(** When nobody can go on, nobody is owed a release; the thread that waits is in
    the queue. *)
Lemma keyed_stuck s g ρ :
  KInv s g ρ → (∀ t, ρ t = Role false Out ∨ blocked t (ρ t) s) →
  (∀ t, t ≠ 0%nat → ¬ blocked t (ρ t) s) ∧ (blocked 0%nat (ρ 0%nat) s → queued s = true).
Proof.
  intros HI Hall. pose proof (ki_main _ _ _ HI) as Hm.
  assert (Hh : ∀ t, hold (ρ t) = false) by (intros t; by destruct (Hall t) as [->|[? _]]).
  assert (Hl : qlock s = None).
  { destruct (qlock s) as [t|] eqn:E; [|done]. apply (ki_lock _ _ _ HI) in E. by rewrite Hh in E. }
  assert (Hnt : ¬ taken ρ).
  { intros (u & _ & Hu). pose proof (ki_held _ _ _ HI u) as Hx. rewrite Hu, Hh in Hx. by specialize (Hx eq_refl). }
  (* the waiting thread is out, or in a call without a partner *)
  assert (H0 : ph (ρ 0%nat) = Out ∨ (ph (ρ 0%nat) = Ker ∨ ph (ρ 0%nat) = MustKer) ∧ waiting (ev s) = Alone).
  { destruct (Hall 0%nat) as [->|[_ [?|[(_ & ? & ?)|(? & _)]]]]; [by left|done|by right|done]. }
  (* a waking thread is out, or in a call without a partner *)
  assert (Hw : ∀ t, t ≠ 0%nat → ρ t = Role false Out ∨ releasing (ev s) t = Alone).
  { intros t Ht. destruct (Hall t) as [->|[_ [?|[(? & _)|(_ & _ & ?)]]]]; [by left|done|done|by right]. }
  assert (Hno : ∀ t, releasing (ev s) t ≠ Alone).
  { intros t Ha. assert (Ho : owed s ρ) by (exists t; by eapply alone_owes).
    destruct H0 as [E|[[E|E] Hwt]]; rewrite E in Hm; cbn in Hm; [tauto| |].
    - destruct Hm as [(_ & _ & Hn)|(_ & _ & ?)]; [by apply (Hn t)|congruence].
    - destruct Hm as [(_ & _ & _ & Hn)|(_ & _ & ?)]; [by apply (Hn t)|congruence]. }
  assert (Hnowed : ¬ owed s ρ).
  { intros (u & Hu & [E|[_ Ha]]); [|by apply (Hno u)].
    destruct (Hw u Hu) as [Eu|Ha]; [by rewrite Eu in E|by apply (Hno u)]. }
  split.
  - intros t Ht [_ [?|[(? & _)|(_ & _ & Ha)]]]; [done|done|by apply (Hno t)].
  - intros [_ [?|[(_ & E & Hwt)|(? & _)]]]; [done| |done].
    destruct E as [E|E]; rewrite E in Hm; cbn in Hm.
    + destruct Hm as [([(_ & [?|?] & _)|(_ & _ & ?)] & _)|(_ & _ & ?)]; [done|done|done|congruence].
    + destruct Hm as [(_ & ? & _)|(_ & _ & ?)]; [done|congruence].
Qed.
End proof.

(** ** The theorem *)

(** C35: The parker of old Windows versions honours the contract of thread
    parkers, on any kernel whose keyed events behave as documented: both calls
    return [STATUS_SUCCESS] where the assertions ask it, unparked threads were
    taken out of the queue and expired ones are in it, no thread that wakes
    another hangs in its call, and no wake-up is lost. *)
Theorem keyed_event_parker_ok (KE : KeyedEvents) : ParkerOk (PK := KeyedEvent.parker).
Proof.
  apply (parker_ok (PK := KeyedEvent.parker) KInv blocked (Role false Out)).
  - exact keyed_start.
  - intros d. by apply wp_keyed_wait_once.
  - intros t Ht. by apply wp_keyed_wake_once.
  - exact keyed_stuck.
Qed.

(** ** A platform: the calls meet at once *)

Section platform.
#[local] Obligation Tactic := idtac.

(** Whether the thread waits; who waits to release it, and who has. *)
Record simple_kern := SK { sk_wait : partner; sk_alone : list tid; sk_matched : list tid }.

Definition sk_releasing (k : simple_kern) (t : tid) : partner :=
  if decide (t ∈ sk_alone k) then Alone else if decide (t ∈ sk_matched k) then Matched else NoCall.

Ltac decide_members :=
  repeat match goal with |- context [decide ?P] => destruct (decide P) end;
  repeat match goal with H : context [decide ?P] |- _ => destruct (decide P) end;
  subst; try done;
  repeat match goal with H : context [_ ∈ filter _ _] |- _ => rewrite list_elem_of_filter in H end;
  set_solver.

Program Definition simple_keyed_events : KeyedEvents := {|
  kern := simple_kern;
  kern0 := SK NoCall [] [];
  waiting := sk_wait;
  releasing := sk_releasing;
  wait_begin k :=
    match sk_alone k with
    | [] => SK Alone [] (sk_matched k)
    | u :: l => SK Matched (filter (λ v, v ≠ u) l) (u :: sk_matched k)
    end;
  wait_end c timed k :=
    match sk_wait k with
    | Matched => Some (SK NoCall (sk_alone k) (sk_matched k), STATUS_SUCCESS)
    | Alone =>
        if timed && negb (c =? 0) then Some (SK NoCall (sk_alone k) (sk_matched k), STATUS_TIMEOUT) else None
    | NoCall => None
    end;
  release_begin t k :=
    if decide (sk_wait k = Alone) then SK Matched (sk_alone k) (t :: sk_matched k)
    else SK (sk_wait k) (t :: sk_alone k) (sk_matched k);
  release_end t c k :=
    if decide (sk_releasing k t = Matched)
    then Some (SK (sk_wait k) (sk_alone k) (filter (λ u, u ≠ t) (sk_matched k)), STATUS_SUCCESS)
    else None;
|}.
Next Obligation. done. Qed.
Next Obligation.
  intros [w [|u l] m] Hw Hn; cbn in *; [done|]. destruct (Hn u). unfold sk_releasing. cbn. decide_members.
Qed.
Next Obligation.
  intros [w l m] t Hw Ht Hone; cbn in *. unfold sk_releasing in *. cbn in *.
  destruct l as [|u l].
  { rewrite (decide_False (P := t ∈ [])) in Ht by apply not_elem_of_nil. by case_decide. }
  assert (Hu : ∀ v, v ∈ u :: l → v = t) by (intros v Hv; apply Hone; by rewrite decide_True).
  assert (u = t) as -> by (apply Hu; by left). split; [done|]. intros v. cbn.
  assert (Hf : ∀ v, v ∉ filter (λ v, v ≠ t) l).
  { intros x [Hx Hx']%list_elem_of_filter. apply Hx, Hu. by right. }
  rewrite (decide_False (P := v ∈ filter _ _)) by apply Hf.
  destruct (decide (v = t)) as [->|Hv]; [by rewrite decide_True by left|].
  assert (Hnv : v ∉ t :: l) by (by intros Hv'%Hu).
  rewrite (decide_False (P := v ∈ t :: l)) by done.
  destruct (decide (v ∈ m)); [by rewrite decide_True by (by right)|rewrite decide_False; [done|set_solver]].
Qed.
Next Obligation.
  intros [w l m] t Ht ->; cbn in *. rewrite decide_True by done. split; [done|]. intros u.
  unfold sk_releasing in *. cbn in *. decide_members.
Qed.
Next Obligation.
  intros [w l m] t Ht Hw; cbn in *. rewrite decide_False by done. split; [done|]. intros u.
  unfold sk_releasing in *. cbn in *. decide_members.
Qed.
Next Obligation. intros timed [w l m] Hw; cbn in *. rewrite Hw. exists 0. by eexists. Qed.
Next Obligation.
  intros c timed [w l m] k' r E; cbn in *. destruct w; [done|..].
  - destruct timed, (Z.eqb c 0); cbn in E; try done. injection E as <- <-. split; [done|]. split; [done|]. by right.
  - injection E as <- <-. split; [done|]. split; [done|]. by left.
Qed.
Next Obligation. intros t k Hk. exists 0. by rewrite decide_True. Qed.
Next Obligation.
  intros t c [w l m] k' r E; cbn in *. case_decide as Hm; [|done]. injection E as <- <-.
  split; [done|]. split; [done|]. split; [done|]. intros u. unfold sk_releasing in *. cbn in *. decide_members.
Qed.
End platform.

Lemma keyed_event_parker_ok_witness : ParkerOk (PK := @KeyedEvent.parker simple_keyed_events).
Proof. exact (keyed_event_parker_ok simple_keyed_events). Defined.
