(* ===== verification/PthreadParker.v ===== *)
(** * The pthread parker (core/src/thread_parker/unix.rs)

    The parker of Unix systems other than Linux: a flag under a pthread mutex,
    and a condition variable.  The thread that wakes another one takes the
    mutex in [unpark_lock], under the queue lock, and keeps it until [unpark]
    has signalled, so that the woken thread cannot go away in between.  What
    the code relies on of pthreads is the interface [Pthread]. *)

From S2P Require Import Prelude Conc ThreadParker WordParkers.
Local Open Scope Z_scope.
Local Open Scope prog_scope.

Inductive init_call := CondattrInit | CondattrSetclock | CondInit | CondattrDestroy.

(** A mutex and a condition variable that one thread waits on.  [waiting]: that
    thread waits and has not been signalled.  All calls succeed, but for a wait
    whose time is over or, where the timeout is negative, not valid. *)
Class Pthread := {
  pth : Type;
  pth0 : pth;
  owner : pth → option tid;
  waiting : pth → bool;
  mutex_lock : tid → pth → option (pth * Z);
  mutex_unlock : tid → pth → pth * Z;
  cond_wait_begin : tid → pth → pth;
  cond_wait_end : choice → tid → option timespec → pth → option (pth * errno);
  cond_signal : pth → pth * Z;
  init_result : init_call → Z;
  owner_0 : owner pth0 = None;
  lock_ok t k k' r : mutex_lock t k = Some (k', r) →
    r = 0 ∧ owner k = None ∧ owner k' = Some t ∧ waiting k' = waiting k;
  lock_free t k : owner k = None → is_Some (mutex_lock t k);
  unlock_ok t k : owner k = Some t →
    (mutex_unlock t k).2 = 0 ∧ owner (mutex_unlock t k).1 = None ∧
    waiting (mutex_unlock t k).1 = waiting k;
  wait_begin_ok t k : owner k = Some t →
    owner (cond_wait_begin t k) = None;
  wait_end_ok c t ts k k' r : cond_wait_end c t ts k = Some (k', r) →
    owner k = None ∧ owner k' = Some t ∧
    match ts with
    | None => r = EOTHER 0
    | Some ts => r = EOTHER 0 ∨ r = ETIMEDOUT ∨ (tv_sec ts < 0 ∧ r = EINVAL)
    end;
  wait_end_ready t ts k : owner k = None → waiting k = false →
    ∃ c, is_Some (cond_wait_end c t ts k);
  signal_ok k : (cond_signal k).2 = 0 ∧ owner (cond_signal k).1 = owner k ∧
    waiting (cond_signal k).1 = false;
  init_ok f : init_result f = 0;
}.

(** [libc]'s success code. *)
Definition SUCCESS : errno := EOTHER 0.

(** ** The machine *)

(** [struct ThreadParker]. *)
Record ustate (K : Type) := MkU { should_park : bool; initialized : bool; pthread : K }.
Arguments MkU {K} _ _ _.
Arguments should_park {K} _.
Arguments initialized {K} _.
Arguments pthread {K} _.

Inductive uact :=
| AGetPark
| ASetPark (b : bool)
| AGetInit
| ASetInit (b : bool)
| AInitCall (f : init_call)
| ANow
| AMutexLock
| AMutexUnlock
| AWaitBegin
| AWaitEnd (ts : option timespec)
| ASignal.

Definition uresp (x : uact) : Type :=
  match x with
  | AGetPark | AGetInit => bool
  | ANow | AInitCall _ | AMutexLock | AMutexUnlock | ASignal => Z
  | AWaitEnd _ => errno
  | _ => unit
  end.

Section machine.
Context {PT : Pthread}.

Definition set_pthread (k : pth) (s : ustate pth) : ustate pth :=
  MkU (should_park s) (initialized s) k.

Definition uexec (t : tid) (c : choice) (x : uact) : ustate pth → option (ustate pth * uresp x) :=
  match x with
  | AGetPark => λ s, Some (s, should_park s)
  | ASetPark b => λ s, Some (MkU b (initialized s) (pthread s), tt)
  | AGetInit => λ s, Some (s, initialized s)
  | ASetInit b => λ s, Some (MkU (should_park s) b (pthread s), tt)
  | AInitCall f => λ s, Some (s, init_result f)
  | ANow => λ s, Some (s, c)
  | AMutexLock => λ s,
      match mutex_lock t (pthread s) with
      | Some (k, r) => Some (set_pthread k s, r)
      | None => None
      end
  | AMutexUnlock => λ s, let '(k, r) := mutex_unlock t (pthread s) in Some (set_pthread k s, r)
  | AWaitBegin => λ s, Some (set_pthread (cond_wait_begin t (pthread s)) s, tt)
  | AWaitEnd ts => λ s,
      match cond_wait_end c t ts (pthread s) with
      | Some (k, r) => Some (set_pthread k s, r)
      | None => None
      end
  | ASignal => λ s, let '(k, r) := cond_signal (pthread s) in Some (set_pthread k s, r)
  end.
End machine.

Abbreviation uprog := (prog (hact uact) (hresp uresp)).

Definition u_assert (b : bool) : uprog unit := if b then Ret tt else Panic "debug_assert".

Definition pthread_mutex_lock : uprog Z := Act (AP AMutexLock) Ret.
Definition pthread_mutex_unlock : uprog Z := Act (AP AMutexUnlock) Ret.
Definition pthread_cond_wait (ts : option timespec) : uprog errno :=
  Act (AP AWaitBegin) (λ _, Act (AP (AWaitEnd ts)) Ret).
Definition pthread_cond_signal : uprog Z := Act (AP ASignal) Ret.
Definition get_should_park : uprog bool := Act (AP AGetPark) Ret.
Definition set_should_park (b : bool) : uprog unit := Act (AP (ASetPark b)) Ret.
Definition instant_now : uprog Z := Act (AP ANow) Ret.

(** [let r = pthread_mutex_lock(..); debug_assert_eq!(r, 0);] *)
Definition lock_mutex : uprog unit := r <- pthread_mutex_lock;; u_assert (r =? 0).
Definition unlock_mutex : uprog unit := r <- pthread_mutex_unlock;; u_assert (r =? 0).

Section unix.
(** The size of [time_t]; whether the condition variable has its clock set
    ([init] is empty on Apple systems, Android and ESP-IDF); whether the clock
    counts microseconds (Apple). *)
Context (time_t_bits : Z) (sets_clock apple : bool).

(** ** Timeouts *)

(** [timespec_now]: the clock's reading, to the microsecond on Apple systems. *)
Definition timespec_now : uprog timespec :=
  n <- instant_now;;
  Ret (MkTS (as_secs n) (if apple then subsec_nanos n / 1000 * 1000 else subsec_nanos n)).

(** [checked_add] of [time_t]. *)
Definition checked_add_time_t (x y : Z) : option Z := checked_signed time_t_bits (x + y).

(** The end of the wait, when it is [timeout] from [now]. *)
Definition add_timeout (now : timespec) (timeout : Z) : option timespec :=
  let nsec := tv_nsec now + subsec_nanos timeout in
  let sec := checked_add_time_t (tv_sec now) (as_signed time_t_bits (as_secs timeout)) in
  let '(nsec, sec) :=
    if 1000000000 <=? nsec
    then (nsec - 1000000000, sec ≫= λ sec, checked_add_time_t sec 1)
    else (nsec, sec) in
  (λ sec, MkTS sec nsec) <$> sec.

Definition timeout_to_timespec (timeout : Z) : uprog (option timespec) :=
  if 2 ^ (time_t_bits - 1) - 1 <? as_secs timeout then Ret None
  else now <- timespec_now;; Ret (add_timeout now timeout).

(** ** The methods *)

Definition init_step (f : init_call) : uprog unit :=
  r <- Act (AP (AInitCall f)) Ret;; u_assert (r =? 0).

Definition init : uprog unit :=
  if sets_clock then
    init_step CondattrInit;; init_step CondattrSetclock;; init_step CondInit;;
    init_step CondattrDestroy
  else Ret tt.

Definition prepare_park : uprog unit :=
  set_should_park true;;
  initialized <- Act (AP AGetInit) Ret;;
  if negb initialized then init;; Act (AP (ASetInit true)) Ret else Ret tt.

Definition timed_out : uprog bool :=
  lock_mutex;;
  should_park <- get_should_park;;
  unlock_mutex;;
  Ret should_park.

Definition park : uprog unit :=
  lock_mutex;;
  Iter (λ _ : unit,
    should_park <- get_should_park;;
    if should_park : bool then
      r <- pthread_cond_wait None;;
      u_assert (bool_decide (r = SUCCESS));;
      Ret (inl tt)
    else Ret (inr tt)) tt;;
  unlock_mutex.

(** One turn of the loop of [park_until]; [inr false]: the time is over, and
    the mutex is released. *)
Definition park_until_turn (timeout : Z) (_ : unit) : uprog (unit + bool) :=
  should_park <- get_should_park;;
  if should_park : bool then
    now <- instant_now;;
    if timeout <=? now then unlock_mutex;; Ret (inr false)
    else
      ts <- timeout_to_timespec (timeout - now);;
      match ts with
      | Some ts =>
          r <- pthread_cond_wait (Some ts);;
          (if tv_sec ts <? 0
           then u_assert (bool_decide (r = SUCCESS) || bool_decide (r = ETIMEDOUT) ||
                          bool_decide (r = EINVAL))
           else u_assert (bool_decide (r = SUCCESS) || bool_decide (r = ETIMEDOUT)));;
          Ret (inl tt)
      | None =>
          r <- pthread_cond_wait None;;
          u_assert (bool_decide (r = SUCCESS));;
          Ret (inl tt)
      end
  else Ret (inr true).

Definition park_until (timeout : Z) : uprog bool :=
  lock_mutex;;
  unparked <- Iter (park_until_turn timeout) tt;;
  if unparked : bool then unlock_mutex;; Ret true else Ret false.

Definition unpark_lock : uprog unit := lock_mutex.

Definition unpark (_ : unit) : uprog unit :=
  set_should_park false;;
  r <- pthread_cond_signal;;
  u_assert (r =? 0);;
  unlock_mutex.

#[export] Instance unix_parker {PT : Pthread} : Parker := {|
  pexec := uexec;
  IS_CHEAP_TO_CONSTRUCT := false;
  parker_new := MkU false false pth0;
  ThreadParker.prepare_park := prepare_park;
  ThreadParker.timed_out := timed_out;
  ThreadParker.park := park;
  ThreadParker.park_until := park_until;
  ThreadParker.unpark_lock := unpark_lock;
  ThreadParker.unpark := unpark;
|}.
End unix.
