(* ===== verification/ParkerTimeouts.v ===== *)
(** * The timeouts of the thread parkers

    What each parker makes of the time that is left, a [Duration]: a [u64] of
    seconds and less than a second of nanoseconds. *)

From S2P Require Import Prelude Conc ThreadParker WordParkers KeyedEvent PthreadParker.
Local Open Scope Z_scope.

Ltac Zify.zify_post_hook ::= Z.div_mod_to_equations.

(** The durations there are, in nanoseconds. *)
Definition is_duration (d : Z) : Prop := 0 ≤ d < 2 ^ 64 * 1000000000.

(** A timespec in nanoseconds. *)
Definition ts_nanos (ts : timespec) : Z := tv_sec ts * 1000000000 + tv_nsec ts.
Definition normalized (ts : timespec) : Prop := 0 ≤ tv_nsec ts < 1000000000.

Lemma split_duration d : as_secs d * 1000000000 + subsec_nanos d = d ∧ 0 ≤ subsec_nanos d < 1000000000.
Proof. unfold as_secs, subsec_nanos. lia. Qed.

Lemma as_secs_width d : is_duration d → in_width 64 (as_secs d).
Proof. unfold is_duration, in_width, as_secs. lia. Qed.

Lemma pow2_half w : 0 < w → 2 ^ w = 2 * 2 ^ (w - 1) ∧ 0 < 2 ^ (w - 1).
Proof. intros. split; [rewrite <- Z.pow_succ_r by lia; f_equal; lia|lia]. Qed.

Lemma as_signed_small w x : 0 < w → 0 ≤ x < 2 ^ (w - 1) → as_signed w x = x.
Proof.
  intros Hw Hx. destruct (pow2_half w Hw).
  unfold as_signed, wrap. rewrite Z.mod_small by lia. by rewrite decide_True by lia.
Qed.

(** A cast to a signed type and back: what it keeps did fit, or has become
    negative. *)
Lemma signed_cast w x :
  0 < w ≤ 64 → wrap 64 (as_signed w x) = x →
  as_signed w x = x ∧ 0 ≤ x < 2 ^ (w - 1) ∨ as_signed w x < 0 ∧ 2 ^ 64 - 2 ^ (w - 1) ≤ x.
Proof.
  intros Hw. destruct (pow2_half w ltac:(lia)) as [Ew Hp].
  assert (Hp' : 2 ^ (w - 1) ≤ 2 ^ 63) by (apply Z.pow_le_mono_r; lia).
  assert (Hm : 0 ≤ x mod 2 ^ w < 2 ^ w) by (apply Z.mod_pos_bound; lia).
  unfold as_signed, wrap. cbv zeta. set (y := x mod 2 ^ w) in *. case_decide as Hd.
  - rewrite Z.mod_small by lia. intros E. left. lia.
  - rewrite <- (Z_mod_plus_full _ 1 (2 ^ 64)), Z.mod_small by lia. intros E. right. lia.
Qed.

(** ** Relative timeouts *)

(** C34: The timespec that the Linux parker sleeps for is the time that is left
    to the nanosecond, normalized and not negative, for all times of less than
    [2 ^ (time_t_bits - 1)] seconds; longer ones make it sleep without a
    timeout, except that the last [2 ^ (time_t_bits - 1)] values of the [u64]
    of seconds pass the overflow check and become negative. *)
Theorem linux_relative_timeout time_t_bits diff :
  0 < time_t_bits ≤ 64 → is_duration diff →
  match Linux.relative_timespec time_t_bits diff with
  | Some ts =>
      normalized ts ∧
      (ts_nanos ts = diff ∧ 0 ≤ tv_sec ts < 2 ^ (time_t_bits - 1) ∨
       tv_sec ts < 0 ∧ 2 ^ 64 - 2 ^ (time_t_bits - 1) ≤ as_secs diff)
  | None => 2 ^ (time_t_bits - 1) ≤ as_secs diff
  end.
Proof.
  intros Hw Hd%as_secs_width. destruct (split_duration diff) as [Ed Hn]. unfold in_width in Hd.
  unfold Linux.relative_timespec. destruct (_ =? _) eqn:E.
  - apply Z.eqb_eq, signed_cast in E; [|done]. split; [done|]. unfold ts_nanos. cbn.
    destruct E as [[-> ?]|?]; [left|right]; lia.
  - apply Z.eqb_neq in E. destruct (Z.lt_ge_cases (as_secs diff) (2 ^ (time_t_bits - 1))); [|done].
    destruct E. rewrite as_signed_small by lia. by apply wrap_small.
Qed.

Lemma linux_relative_timeout_witness :
  (Linux.relative_timespec 64 1500000000 = Some (MkTS 1 500000000) ∧
   match Linux.relative_timespec 64 1500000000 with
   | Some ts => normalized ts ∧ (ts_nanos ts = 1500000000 ∧ 0 ≤ tv_sec ts < 2 ^ (64 - 1) ∨
       tv_sec ts < 0 ∧ 2 ^ 64 - 2 ^ (64 - 1) ≤ as_secs 1500000000)
   | None => 2 ^ (64 - 1) ≤ as_secs 1500000000
   end) ∧
  Linux.relative_timespec 32 (2 ^ 31 * 1000000000) = None ∧
  Linux.relative_timespec 64 (2 ^ 63 * 1000000000) = Some (MkTS (- 2 ^ 63) 0).
Proof.
  split; [split; [reflexivity|apply (linux_relative_timeout 64 1500000000); unfold is_duration; lia]|].
  split; reflexivity.
Defined.

(** What the other parkers make of the time that is left never ends the
    sleep before it, and fits the type it is passed in: Redox sleeps for exactly
    that time or without a timeout from [2 ^ 63] seconds on, Windows for the
    time rounded up to the millisecond, if that is less than [2 ^ 32 - 1], and
    without a timeout if not; WebAssembly and SGX for the time in nanoseconds,
    cut to the largest timeout there is. *)
Theorem other_relative_timeouts diff WAIT_INDEFINITE :
  is_duration diff → 0 < WAIT_INDEFINITE ≤ 2 ^ 64 - 1 →
  match Redox.relative_timespec diff with
  | Some ts => ts_nanos ts = diff ∧ normalized ts ∧ 0 ≤ tv_sec ts < 2 ^ 63
  | None => 2 ^ 63 ≤ as_secs diff
  end ∧
  (let ms := WaitAddress.millis diff in
   in_width 32 ms ∧
   if ms =? WaitAddress.INFINITE then (2 ^ 32 - 2) * 1000000 < diff
   else diff ≤ ms * 1000000 < diff + 1000000) ∧
  (let ns := WasmAtomic.nanos_left diff in 0 ≤ ns < 2 ^ 63 ∧ (ns = diff ∨ ns = 2 ^ 63 - 1 ∧ ns < diff)) ∧
  (let ns := Sgx.remaining_nanos WAIT_INDEFINITE diff in
   in_width 64 ns ∧ ns ≠ WAIT_INDEFINITE ∧ (ns = diff ∨ ns = WAIT_INDEFINITE - 1 ∧ ns < diff)).
Proof.
  intros Hd Hwi. pose proof (as_secs_width _ Hd) as Hs. destruct (split_duration diff) as [Ed Hn].
  unfold in_width in Hs. unfold is_duration in Hd. split; [|split; [|split]].
  - unfold Redox.relative_timespec. destruct (_ <? _) eqn:E; [apply Z.ltb_lt in E; lia|]. apply Z.ltb_ge in E.
    unfold ts_nanos, normalized. cbn. rewrite !as_signed_small by lia. lia.
  - unfold WaitAddress.millis, checked_mul, checked_add, in_width, WaitAddress.INFINITE.
    set (s := as_secs diff) in *. set (n := subsec_nanos diff) in *.
    assert (Hr : n ≤ (n + 999999) / 1000000 * 1000000 < n + 1000000) by lia.
    assert (Hbig : 2 ^ 32 - 1 < s * 1000 + (n + 999999) / 1000000 →
      (2 ^ 32 - 2) * 1000000 < diff) by lia.
    destruct (checked 64 (s * 1000)) as [x|] eqn:Ex; cbn [mbind option_bind].
    2: { apply checked_None in Ex. rewrite Z.eqb_refl. lia. }
    apply checked_Some in Ex as [-> _].
    destruct (checked 64 (s * 1000 + (n + 999999) / 1000000)) as [y|] eqn:Ey.
    2: { apply checked_None in Ey. rewrite Z.eqb_refl. lia. }
    apply checked_Some in Ey as [-> _]. destruct (_ <? _) eqn:E.
    { apply Z.ltb_lt in E. rewrite Z.eqb_refl. lia. }
    apply Z.ltb_ge in E. rewrite wrap_small by (unfold in_width; lia).
    split; [lia|]. destruct (_ =? _) eqn:E'; [apply Z.eqb_eq in E'|apply Z.eqb_neq in E']; lia.
  - unfold WasmAtomic.nanos_left. cbv zeta. destruct (_ <? _) eqn:E; [apply Z.ltb_lt in E|apply Z.ltb_ge in E]; lia.
  - unfold Sgx.remaining_nanos. cbv zeta. rewrite wrap_small by (unfold in_width; lia). unfold in_width. lia.
Qed.

Lemma other_relative_timeouts_witness :
  WaitAddress.millis 1000001 = 2 ∧ WaitAddress.millis (2 ^ 32 * 1000000) = WaitAddress.INFINITE ∧
  WasmAtomic.nanos_left (2 ^ 64) = 2 ^ 63 - 1 ∧ Sgx.remaining_nanos (2 ^ 64 - 1) 5 = 5 ∧
  match Redox.relative_timespec 2500000000 with
  | Some ts => ts_nanos ts = 2500000000 ∧ normalized ts ∧ 0 ≤ tv_sec ts < 2 ^ 63
  | None => 2 ^ 63 ≤ as_secs 2500000000
  end.
Proof.
  do 4 (split; [reflexivity|]).
  destruct (other_relative_timeouts 2500000000 (2 ^ 64 - 1)) as [H _]; [unfold is_duration; lia|lia|exact H].
Defined.

(** ** The absolute timeout of the pthread parker *)

Lemma checked_signed_Some w x y : checked_signed w x = Some y ↔ y = x ∧ - 2 ^ (w - 1) ≤ x < 2 ^ (w - 1).
Proof. unfold checked_signed. case_decide; naive_solver. Qed.
Lemma checked_signed_None w x : checked_signed w x = None ↔ ¬ (- 2 ^ (w - 1) ≤ x < 2 ^ (w - 1)).
Proof. unfold checked_signed. case_decide; naive_solver. Qed.

(** The end of a timed wait of the pthread parker is the clock's time plus
    the time that is left to the nanosecond, normalized; the addition fails
    exactly when the seconds do not fit in [time_t], also where the carry of
    the nanoseconds is what does not fit. *)
Theorem absolute_timeout time_t_bits now timeout :
  0 < time_t_bits ≤ 64 → normalized now → 0 ≤ tv_sec now < 2 ^ (time_t_bits - 1) →
  is_duration timeout → as_secs timeout ≤ 2 ^ (time_t_bits - 1) - 1 →
  match add_timeout time_t_bits now timeout with
  | Some ts => ts_nanos ts = ts_nanos now + timeout ∧ normalized ts ∧ 0 ≤ tv_sec ts < 2 ^ (time_t_bits - 1)
  | None => 2 ^ (time_t_bits - 1) * 1000000000 ≤ ts_nanos now + timeout
  end.
Proof.
  intros Hw Hn Hs Hd Ht. pose proof (as_secs_width _ Hd) as Hsd. destruct (split_duration timeout) as [Ed Hnd].
  unfold in_width in Hsd. unfold normalized, ts_nanos in *. unfold add_timeout, checked_add_time_t.
  rewrite as_signed_small by lia. set (p := 2 ^ (time_t_bits - 1)) in *.
  destruct (checked_signed time_t_bits (tv_sec now + as_secs timeout)) as [x|] eqn:Ex.
  2: { apply checked_signed_None in Ex. destruct (_ <=? _); cbn; lia. }
  apply checked_signed_Some in Ex as [-> Hx]. destruct (Z.leb_spec 1000000000 (tv_nsec now + subsec_nanos timeout)).
  - cbn. destruct (checked_signed time_t_bits (tv_sec now + as_secs timeout + 1)) as [y|] eqn:Ey; cbn.
    + apply checked_signed_Some in Ey as [-> Hy]. fold p in Hy. lia.
    + apply checked_signed_None in Ey. fold p in Ey. lia.
  - cbn. fold p in Hx. lia.
Qed.

Lemma absolute_timeout_witness :
  add_timeout 32 (MkTS (2 ^ 31 - 2) 999999999) 1000000001 = None ∧
  add_timeout 64 (MkTS 5 600000000) 1500000000 = Some (MkTS 7 100000000) ∧
  match add_timeout 64 (MkTS 5 600000000) 1500000000 with
  | Some ts => ts_nanos ts = ts_nanos (MkTS 5 600000000) + 1500000000 ∧ normalized ts ∧
               0 ≤ tv_sec ts < 2 ^ (64 - 1)
  | None => 2 ^ (64 - 1) * 1000000000 ≤ ts_nanos (MkTS 5 600000000) + 1500000000
  end.
Proof.
  split; [reflexivity|]. split; [reflexivity|].
  apply (absolute_timeout 64); unfold normalized, is_duration, as_secs; cbn [tv_sec tv_nsec]; lia.
Defined.

(** ** Keyed events *)

(** C36: The timeout of the keyed-event parker is the time that is left, rounded
    up to units of 100 ns and negated, which makes it relative, or none if that
    does not fit an [i64], for all times of less than [2 ^ 63] seconds. For
    longer ones the cast of the seconds wraps, and the timeout, if it fits, is
    positive or zero: not relative any more but a date, [2 ^ 64 * 10 ^ 7] less
    the time that is left, which can be any from the first one on, past or
    future; none comes out exactly where the wrapped seconds do not fit. *)
Theorem keyed_event_timeout diff :
  is_duration diff →
  match KeyedEvent.nt_timeout diff with
  | Some x =>
      as_secs diff < 2 ^ 63 ∧ x = - ((diff + 99) / 100) ∧ - 2 ^ 63 ≤ x ∨
      2 ^ 63 ≤ as_secs diff ∧ x = 2 ^ 64 * 10000000 - (diff + 99) / 100 ∧ 0 ≤ x < 2 ^ 63
  | None =>
      as_secs diff < 2 ^ 63 ∧ 2 ^ 63 < (diff + 99) / 100 ∨
      2 ^ 63 ≤ as_secs diff ∧ 2 ^ 63 ≤ (2 ^ 64 - as_secs diff) * 10000000
  end.
Proof.
  intros Hd. destruct (split_duration diff) as [Es Hn]. pose proof (as_secs_width diff Hd) as Hw.
  unfold in_width in Hw. unfold KeyedEvent.nt_timeout.
  assert (Ed : (diff + 99) / 100 = as_secs diff * 10000000 + (subsec_nanos diff + 99) / 100) by lia.
  assert (Hc : as_signed 64 (as_secs diff) = as_secs diff ∧ as_secs diff < 2 ^ 63 ∨
               as_signed 64 (as_secs diff) = as_secs diff - 2 ^ 64 ∧ 2 ^ 63 ≤ as_secs diff).
  { destruct (Z.lt_ge_cases (as_secs diff) (2 ^ 63)) as [Hlt|Hge].
    - left. split; [apply as_signed_small; lia|done].
    - right. split; [|done]. unfold as_signed, wrap. rewrite Z.mod_small by lia. by rewrite decide_False by lia. }
  unfold checked_signed. destruct Hc as [[-> ?]|[-> ?]];
    destruct (decide _) as [H1|H1]; cbn [mbind option_bind]; [destruct (decide _) as [H2|H2]| |destruct (decide _) as [H2|H2]|]; lia.
Qed.

(** A second; the longest time, which becomes a date long past; and one that
    becomes a date in the year 30120. *)
Lemma keyed_event_timeout_witness :
  KeyedEvent.nt_timeout 1000000001 = Some (-10000001) ∧
  KeyedEvent.nt_timeout ((2 ^ 64 - 1) * 1000000000) = Some 10000000 ∧
  KeyedEvent.nt_timeout ((2 ^ 64 - 900000000000) * 1000000000) = Some 9000000000000000000 ∧
  (1000000001 + 99) / 100 = 10000001.
Proof.
  split; [reflexivity|]. split; [reflexivity|]. split; [reflexivity|].
  destruct (keyed_event_timeout 1000000001 ltac:(unfold is_duration; lia)) as [(_ & E & _)|(_ & _ & E & _)].
  - lia.
  - by destruct E.
Defined.
