(* ===== verification/PthreadParkerProof.v ===== *)
(** * The pthread parker honours the contract *)

From S2P Require Import Prelude Conc ThreadParker WordParkers PthreadParker.
Local Open Scope Z_scope.

(** Where a thread is.  The waiting thread: not waiting, with the flag set, in
    the queue or taken out of it, about to wait for the condition variable,
    waiting for it, and expired in the queue.  A waking thread: it has seen the
    thread in the queue, has taken it out, has the mutex, has cleared the flag. *)
Inductive phase := Out | Prep | In | Pre | Slp | InQ | Saw | Took | Has | Clr.

Record role := Role { hold : bool; hasm : bool; ph : phase }.

(** The phases that are left before the queue lock, the mutex is released. *)
Definition with_queue (p : phase) : bool :=
  match p with Prep | InQ | Saw | Took => true | _ => false end.
Definition with_mutex (p : phase) : bool :=
  match p with Pre | Has | Clr => true | _ => false end.
(** The flag is still to be cleared for the thread that was taken out. *)
Definition will_clear (p : phase) : bool := match p with Took | Has => true | _ => false end.
Definition has_cleared (p : phase) : bool := match p with Clr => true | _ => false end.
(** The thread has been taken out and not yet been signalled. *)
Definition active (p : phase) : bool := match p with Took | Has | Clr => true | _ => false end.
Definition waker_phase (p : phase) : bool :=
  match p with Out | Saw | Took | Has | Clr => true | _ => false end.

(** How thread [t] changes the holder of a lock, to or from itself. *)
Definition moves (l l' : option tid) (t : tid) (b : bool) : Prop :=
  (∀ u, u ≠ t → (l' = Some u ↔ l = Some u)) ∧ (l' = Some t ↔ b = true).

Lemma moves_same l t b : (l = Some t ↔ b = true) → moves l l t b.
Proof. done. Qed.
Lemma moves_acquire l l' t : l = None → l' = Some t → moves l l' t true.
Proof. intros -> ->. split; [|done]. intros u Hu. split; [|done]. intros [=]. by subst. Qed.
Lemma moves_release l l' t : l = Some t → l' = None → moves l l' t false.
Proof. intros -> ->. split; [|done]. intros u Hu. split; [done|]. intros [=]. by subst. Qed.

Section proof.
Context {PT : Pthread}.
Implicit Types (s : hstate (ustate pth)) (ρ : tid → role) (t u : tid) (r : role) (P : phase → bool).

Abbreviation flag s := (should_park (parker s)).
Abbreviation mowner s := (owner (pthread (parker s))).

Definition some_waker P ρ : Prop := ∃ u, u ≠ 0%nat ∧ P (ph (ρ u)) = true.

(** The state by where the waiting thread is. *)
Definition main s ρ (p : phase) : Prop :=
  match p with
  | Out => queued s = false ∧ ¬ some_waker active ρ
  | Prep => queued s = false ∧ ¬ some_waker active ρ ∧ flag s = true
  | In | Pre | Slp =>
      (flag s = true ↔ queued s = true ∨ some_waker will_clear ρ) ∧
      (queued s = true → ¬ some_waker active ρ) ∧ (p = Pre → flag s = true)
  | InQ => queued s = true ∧ ¬ some_waker active ρ
  | _ => False
  end.

Record UInv s (g : unit) ρ : Prop := {
  ui_lock t : qlock s = Some t ↔ hold (ρ t) = true;
  ui_mutex t : mowner s = Some t ↔ hasm (ρ t) = true;
  ui_main : main s ρ (ph (ρ 0%nat));
  ui_slp : ph (ρ 0%nat) = Slp → flag s = false → waiting (pthread (parker s)) = true →
    some_waker has_cleared ρ;
  ui_one t u : t ≠ 0%nat → u ≠ 0%nat → active (ph (ρ t)) = true → active (ph (ρ u)) = true → t = u;
  ui_waker t : t ≠ 0%nat → waker_phase (ph (ρ t)) = true;
  ui_saw t : ph (ρ t) = Saw → queued s = true;
  ui_queue t : with_queue (ph (ρ t)) = true → hold (ρ t) = true;
  ui_has t : with_mutex (ph (ρ t)) = true → hasm (ρ t) = true;
}.

(** A thread that cannot go on waits for the queue lock or for the mutex, or
    sleeps. *)
Definition blocked t r s : Prop :=
  (hold r = false ∧ hasm r = false ∧ qlock s ≠ None) ∨ (hasm r = false ∧ mowner s ≠ None) ∨
  (t = 0%nat ∧ r = Role false false Slp ∧ waiting (pthread (parker s)) = true).

Abbreviation upwp := (wp (hexec uexec) UInv (λ (_ : string) (_ : role), False) blocked).

(** ** Rules *)

Lemma one_holder s g ρ t u : UInv s g ρ → hold (ρ t) = true → hold (ρ u) = true → t = u.
Proof. intros HI H1%(ui_lock _ _ _ HI) H2%(ui_lock _ _ _ HI). congruence. Qed.
Lemma one_owner s g ρ t u : UInv s g ρ → hasm (ρ t) = true → hasm (ρ u) = true → t = u.
Proof. intros HI H1%(ui_mutex _ _ _ HI) H2%(ui_mutex _ _ _ HI). congruence. Qed.

(** The thread with the mutex keeps the wakers out of it. *)
Lemma no_active s g ρ :
  UInv s g ρ → hasm (ρ 0%nat) = true → ¬ some_waker will_clear ρ → ¬ some_waker active ρ.
Proof.
  intros HI Hm Hno (u & Hu & Ha). apply Hno. exists u. split; [done|].
  assert (Hhas : with_mutex (ph (ρ u)) = true → will_clear (ph (ρ u)) = true).
  { intros Hh%(ui_has _ _ _ HI). by destruct (Hu (one_owner _ _ _ _ _ HI Hh Hm)). }
  by destruct (ph (ρ u)); try done; apply Hhas.
Qed.

Lemma some_waker_0 P ρ r : some_waker P (<[0%nat := r]> ρ) ↔ some_waker P ρ.
Proof. unfold some_waker. split; intros (u & Hu & E); exists u; (split; [done|]); by fn_simp. Qed.

Lemma some_waker_same P ρ t r : P (ph r) = P (ph (ρ t)) → some_waker P (<[t := r]> ρ) ↔ some_waker P ρ.
Proof.
  intros E. unfold some_waker. split; intros (u & Hu & E'); exists u; (split; [done|]);
    fn_cases t u; congruence.
Qed.

Lemma moves_inv s s' g ρ t r :
  UInv s g ρ → moves (qlock s) (qlock s') t (hold r) → moves (mowner s) (mowner s') t (hasm r) →
  (∀ u, qlock s' = Some u ↔ hold ((<[t := r]> ρ : tid → role) u) = true) ∧
  (∀ u, mowner s' = Some u ↔ hasm ((<[t := r]> ρ : tid → role) u) = true).
Proof.
  intros HI [Ho Ht] [Ho' Ht']. split; intros u; fn_cases t u; [done| |done|].
  - rewrite Ho by done. apply (ui_lock _ _ _ HI).
  - rewrite Ho' by done. apply (ui_mutex _ _ _ HI).
Qed.

(** A step of the waiting thread. *)
Lemma u_main s g ρ s' r :
  UInv s g ρ → moves (qlock s) (qlock s') 0 (hold r) → moves (mowner s) (mowner s') 0 (hasm r) →
  main s' ρ (ph r) → (ph r = Slp → flag s' = true) →
  (with_queue (ph r) = true → hold r = true) → (with_mutex (ph r) = true → hasm r = true) →
  (queued s' = queued s ∨ hold (ρ 0%nat) = true) → UInv s' g (<[0%nat := r]> ρ).
Proof.
  intros HI Hq Hx Hm Hsl Hwq Hwm Hqs. destruct (moves_inv _ _ _ _ _ _ HI Hq Hx) as [Hl Hu].
  split; fn_simp; [done|done|..].
  - unfold main in *. destruct (ph r); rewrite ?some_waker_0; done.
  - intros E Ef. by rewrite (Hsl E) in Ef.
  - intros t u Ht' Hu'. fn_simp. by apply (ui_one _ _ _ HI).
  - intros t Ht. fn_simp. by apply (ui_waker _ _ _ HI).
  - intros v Hs'. fn_cases 0%nat v; [by rewrite Hs' in Hm|].
    pose proof (ui_saw _ _ _ HI v Hs') as Hqt. destruct Hqs as [->|Hqs]; [done|].
    assert (Hh : hold (ρ v) = true) by (apply (ui_queue _ _ _ HI); by rewrite Hs').
    by pose proof (one_holder _ _ _ _ _ HI Hqs Hh).
  - intros t. fn_cases 0%nat t; [done|apply (ui_queue _ _ _ HI)].
  - intros t. fn_cases 0%nat t; [done|apply (ui_has _ _ _ HI)].
Qed.

(** A step of a waking thread. *)
Lemma u_waker s g ρ t s' r :
  UInv s g ρ → t ≠ 0%nat →
  moves (qlock s) (qlock s') t (hold r) → moves (mowner s) (mowner s') t (hasm r) →
  main s' (<[t := r]> ρ) (ph (ρ 0%nat)) →
  (ph (ρ 0%nat) = Slp → flag s' = false → waiting (pthread (parker s')) = true →
     some_waker has_cleared (<[t := r]> ρ)) →
  (active (ph r) = true → active (ph (ρ t)) = true ∨ ¬ some_waker active ρ) →
  waker_phase (ph r) = true → (ph r = Saw → queued s' = true) →
  (with_queue (ph r) = true → hold r = true) → (with_mutex (ph r) = true → hasm r = true) →
  (queued s' = queued s ∨ hold (ρ t) = true) → UInv s' g (<[t := r]> ρ).
Proof.
  intros HI Ht Hq Hx Hm Hsl Ha Hw Hsaw Hwq Hwm Hqs.
  destruct (moves_inv _ _ _ _ _ _ HI Hq Hx) as [Hl Hu].
  split; fn_simp; [done|done|done|done|..].
  - intros u v Hu' Hv Hau Hav.
    assert (Hone : ∀ v, v ≠ 0%nat → active (ph r) = true → active (ph (ρ v)) = true → t = v).
    { intros x Hx' Har Hax. destruct (Ha Har) as [Hat|Hno]; [by apply (ui_one _ _ _ HI)|].
      destruct Hno. by exists x. }
    destruct (decide (t = u)) as [<-|]; destruct (decide (t = v)) as [<-|]; fn_simp;
      [done|by apply Hone|symmetry; by apply Hone|by apply (ui_one _ _ _ HI)].
  - intros u Hu'. fn_cases t u; [done|]. by apply (ui_waker _ _ _ HI).
  - intros u Hs'. fn_cases t u; [by apply Hsaw|].
    pose proof (ui_saw _ _ _ HI u Hs') as Hqt. destruct Hqs as [->|Hqs]; [done|].
    assert (Hh : hold (ρ u) = true) by (apply (ui_queue _ _ _ HI); by rewrite Hs').
    by pose proof (one_holder _ _ _ _ _ HI Hqs Hh).
  - intros u. fn_cases t u; [done|apply (ui_queue _ _ _ HI)].
  - intros u. fn_cases t u; [done|apply (ui_has _ _ _ HI)].
Qed.

(** A step after which a thread, at its place, holds another lock only. *)
Lemma u_locks s g ρ t s' h m x :
  UInv s g ρ → ph (ρ t) = x → moves (qlock s) (qlock s') t h → moves (mowner s) (mowner s') t m →
  queued s' = queued s → flag s' = flag s →
  waiting (pthread (parker s')) = waiting (pthread (parker s)) →
  (with_queue x = true → h = true) → (with_mutex x = true → m = true) →
  UInv s' g (<[t := Role h m x]> ρ).
Proof.
  intros HI Er Hq Hx Eq Ef Ew Hwq Hwm. destruct (moves_inv _ _ _ _ _ (Role h m x) HI Hq Hx) as [Hl Hu].
  assert (Hph : ∀ u, ph ((<[t := Role h m x]> ρ : tid → role) u) = ph (ρ u)) by (intros u; by fn_cases t u).
  assert (Hsw : ∀ P, some_waker P (<[t := Role h m x]> ρ) ↔ some_waker P ρ)
    by (intros P; apply some_waker_same; by rewrite Er).
  split; rewrite ?Hph, ?Ef, ?Ew; [done|done|..].
  - pose proof (ui_main _ _ _ HI) as Hm. unfold main in *.
    destruct (ph (ρ 0%nat)); rewrite ?Hsw, ?Eq, ?Ef; done.
  - rewrite Hsw. apply (ui_slp _ _ _ HI).
  - intros u v. rewrite !Hph. apply (ui_one _ _ _ HI).
  - intros u. rewrite Hph. apply (ui_waker _ _ _ HI).
  - intros u. rewrite Hph, Eq. apply (ui_saw _ _ _ HI).
  - intros u. rewrite Hph. fn_cases t u; [done|apply (ui_queue _ _ _ HI)].
  - intros u. rewrite Hph. fn_cases t u; [done|apply (ui_has _ _ _ HI)].
Qed.

(** *** Any thread *)

Ltac holder HI Hr := split; [intros ?E; apply HI in E; by rewrite Hr in E|intros; by simplify_eq].
Ltac same HI Hr := apply moves_same; first [rewrite (ui_lock _ _ _ HI), Hr|rewrite (ui_mutex _ _ _ HI), Hr]; done.

Lemma wp_qlock {A} t x (k : unit → uprog A) Q :
  upwp t (k tt) (Role true false x) Q → upwp t (Act AQLock k) (Role false false x) Q.
Proof.
  intros Hk. apply wp_act.
  { intros s g ρ Hr HI. cbn. destruct (qlock s) as [u|] eqn:E; [right; left; by rewrite E|].
    left. exists 0. by eexists. }
  intros s g ρ c s' v Hr HI Hex. cbn in Hex. destruct (qlock s) eqn:E; [done|].
  injection Hex as <- <-. exists g, (Role true false x). split; [|done].
  apply (u_locks s); cbn; try done; [by rewrite Hr|by apply moves_acquire|same HI Hr|].
  intros Hx. rewrite <- (ui_has _ _ _ HI t); rewrite Hr; done.
Qed.

Lemma wp_qunlock {A} t m x (k : unit → uprog A) Q :
  with_queue x = false → upwp t (k tt) (Role false m x) Q → upwp t (Act AQUnlock k) (Role true m x) Q.
Proof.
  intros Hx Hk. apply wp_act; [intros; left; exists 0; by eexists|].
  intros s g ρ c s' v Hr HI Hex. cbn in Hex. injection Hex as <- <-.
  exists g, (Role false m x). split; [|done].
  apply (u_locks s); cbn; try done; [by rewrite Hr| |same HI Hr|by rewrite Hx|].
  - apply moves_release; [|done]. apply HI. by rewrite Hr.
  - intros Hy. rewrite <- (ui_has _ _ _ HI t); rewrite Hr; done.
Qed.

(** The lock of the mutex: what is left is that the invariant holds after. *)
Lemma wp_mutex_lock_gen t h x y (Q : Z → role → Prop) :
  (∀ s g ρ k', UInv s g ρ → ρ t = Role h false x → mowner s = None → owner k' = Some t →
     waiting k' = waiting (pthread (parker s)) →
     UInv (MkH (set_pthread k' (parker s)) (qlock s) (queued s)) g (<[t := Role h true y]> ρ)) →
  Q 0 (Role h true y) → upwp t pthread_mutex_lock (Role h false x) Q.
Proof.
  intros HI' HQ. unfold pthread_mutex_lock. apply wp_act.
  { intros s g ρ Hr HI. cbn. destruct (mowner s) as [u|] eqn:E; [by right; right; left; rewrite E|].
    left. exists 0. destruct (lock_free t _ E) as [[k r] ->]. by eexists. }
  intros s g ρ c s' v Hr HI Hex. cbn in Hex.
  destruct (mutex_lock t (pthread (parker s))) as [[k' r]|] eqn:E; [|done]. injection Hex as <- <-.
  apply lock_ok in E as (-> & Eo & Eo' & Ew). exists g, (Role h true y). split; [by apply HI'|by apply wp_ret].
Qed.

Lemma wp_lock_mutex t h x (Q : unit → role → Prop) :
  Q tt (Role h true x) → upwp t lock_mutex (Role h false x) Q.
Proof.
  intros HQ. unfold lock_mutex. wp_pure. apply (wp_mutex_lock_gen _ _ _ x); [|by wp_pure; apply wp_ret].
  intros s g ρ k' HI Hr E E' Ew. apply (u_locks s); cbn; try done;
    [by rewrite Hr|same HI Hr|by apply moves_acquire|].
  intros Hy. rewrite <- (ui_queue _ _ _ HI t); rewrite Hr; done.
Qed.

Lemma wp_unlock_mutex_gen t h x y (Q : unit → role → Prop) :
  (∀ s g ρ k', UInv s g ρ → ρ t = Role h true x → owner k' = None → mowner s = Some t →
     waiting k' = waiting (pthread (parker s)) →
     UInv (MkH (set_pthread k' (parker s)) (qlock s) (queued s)) g (<[t := Role h false y]> ρ)) →
  Q tt (Role h false y) → upwp t unlock_mutex (Role h true x) Q.
Proof.
  intros HI' HQ. unfold unlock_mutex, pthread_mutex_unlock. wp_pure. apply wp_act.
  { intros s g ρ _ _. left. exists 0. cbn. destruct (mutex_unlock t _). by eexists. }
  intros s g ρ c s' v Hr HI Hex. cbn in Hex.
  assert (Ho : mowner s = Some t) by (apply HI; by rewrite Hr).
  pose proof (unlock_ok t _ Ho) as (E & E' & Ew).
  destruct (mutex_unlock t (pthread (parker s))) as [k' r]. injection Hex as <- <-. cbn in E, E', Ew. subst r.
  exists g, (Role h false y). split; [by apply HI'|wp_pure]. by apply wp_ret.
Qed.

Lemma wp_unlock_mutex t h x (Q : unit → role → Prop) :
  with_mutex x = false → Q tt (Role h false x) → upwp t unlock_mutex (Role h true x) Q.
Proof.
  intros Hx HQ. apply (wp_unlock_mutex_gen _ _ _ x); [|done].
  intros s g ρ k' HI Hr E E' Ew. apply (u_locks s); cbn; try done;
    [by rewrite Hr|same HI Hr|by apply moves_release| |by rewrite Hx].
  intros Hy. rewrite <- (ui_queue _ _ _ HI t); rewrite Hr; done.
Qed.

(** An action on what the other threads do not look at. *)
Lemma wp_private {A} t (a : uact) (k : uresp a → uprog A) (P : uresp a → Prop) r Q :
  (∀ p, ∃ c, is_Some (uexec t c a p)) →
  (∀ c p p' v, uexec t c a p = Some (p', v) →
     should_park p' = should_park p ∧ pthread p' = pthread p ∧ P v) →
  (∀ v, P v → upwp t (k v) r Q) → upwp t (Act (AP a) k) r Q.
Proof.
  intros Hen Hsame Hk. apply wp_act.
  - intros s g ρ _ _. left. destruct (Hen (parker s)) as [c [[p v] E]]. exists c. cbn.
    rewrite E. by eexists.
  - intros s g ρ c s' v Hr HI Hex. cbn in Hex.
    destruct (uexec t c a (parker s)) as [[p' v']|] eqn:E; [|done]. injection Hex as <- <-.
    destruct (Hsame _ _ _ _ E) as (Ef & Ep & HP). exists g, r. split; [|by apply Hk].
    destruct r as [h m x]. apply (u_locks s); cbn; rewrite ?Ep; try done;
      [by rewrite Hr|same HI Hr|same HI Hr|..]; intros Hx.
    + rewrite <- (ui_queue _ _ _ HI t); rewrite Hr; done.
    + rewrite <- (ui_has _ _ _ HI t); rewrite Hr; done.
Qed.

Ltac private := apply (wp_private _ _ _ (λ _, True));
  [intros; exists 0; by eexists|intros; by simplify_eq/=|intros ? _].

Lemma wp_init_step t f r (Q : unit → role → Prop) : Q tt r → upwp t (init_step f) r Q.
Proof.
  intros HQ. unfold init_step. wp_pure. apply (wp_private t (AInitCall f) _ (λ v, v = 0)).
  - intros p. exists 0. by eexists.
  - intros c p p' v E. cbn in E. simplify_eq. by rewrite init_ok.
  - intros ? ->. wp_pure. by apply wp_ret.
Qed.

Lemma wp_init sets_clock t r (Q : unit → role → Prop) : Q tt r → upwp t (init sets_clock) r Q.
Proof.
  intros HQ. unfold init. destruct sets_clock; [|by apply wp_ret].
  wp_pure. do 3 (apply wp_init_step; wp_pure). by apply wp_init_step.
Qed.

(** *** The waiting thread *)

Ltac step s g ρ c HI :=
  let Hr := fresh "Hr" in let Hex := fresh "Hex" in
  apply wp_act; [intros; left; exists 0; by eexists|];
  intros s g ρ c ?s' ?v Hr HI Hex; cbn in Hex; injection Hex as <- <-.
Ltac main_step s g ρ HI Hr :=
  apply (u_main s g ρ); cbn; try done; [same HI Hr|same HI Hr|..].

Lemma main_at s g ρ r : UInv s g ρ → ρ 0%nat = r → main s ρ (ph r).
Proof. intros HI <-. apply HI. Qed.

Lemma wp_set_should_park {A} (k : unit → uprog A) Q :
  upwp 0 (k tt) (Role true false Prep) Q → upwp 0 (Act (AP (ASetPark true)) k) (Role true false Out) Q.
Proof.
  intros Hk. step s g ρ c HI. exists g, (Role true false Prep). split; [|done].
  pose proof (main_at _ _ _ _ HI Hr) as Hm. main_step s g ρ HI Hr; [by destruct Hm|by left].
Qed.

Lemma wp_enter_queue {A} (k : unit → uprog A) Q :
  upwp 0 (k tt) (Role true false In) Q → upwp 0 (Act (AQSet true) k) (Role true false Prep) Q.
Proof.
  intros Hk. step s g ρ c HI. exists g, (Role true false In). split; [|done].
  pose proof (main_at _ _ _ _ HI Hr) as (Hq & Hno & Hf). cbn in Hf.
  main_step s g ρ HI Hr; [|right; by rewrite Hr]. cbn in *. rewrite Hf by done. naive_solver.
Qed.

(** With the mutex the flag tells whether the thread was taken out. *)
Lemma wp_get_should_park (x : phase) h (Q : bool → role → Prop) :
  x = Pre ∨ x = InQ ∧ h = true →
  Q true (Role h true x) → Q false (Role h true Out) →
  upwp 0 get_should_park (Role h true In) Q.
Proof.
  intros Hx Ht Hf. unfold get_should_park. step s g ρ c HI.
  pose proof (main_at _ _ _ _ HI Hr) as (Hw & Hq & _). cbn in Hw, Hq.
  assert (Hna : ¬ some_waker will_clear ρ → ¬ some_waker active ρ)
    by (apply (no_active _ _ _ HI); by rewrite Hr).
  destruct (flag s) eqn:E.
  - exists g, (Role h true x). split; [|by apply wp_ret].
    main_step s g ρ HI Hr; destruct Hx as [->|[-> ->]]; cbn; try done; try by left.
    + rewrite E. naive_solver.
    + assert (Hc : ¬ some_waker will_clear ρ).
      { intros (u & Hu & Hc). destruct (ph (ρ u)) eqn:Eu; try done.
        - destruct Hu. apply (one_holder s g ρ); [done|apply (ui_queue _ _ _ HI); by rewrite Eu|by rewrite Hr].
        - destruct Hu. apply (one_owner s g ρ); [done|apply (ui_has _ _ _ HI); by rewrite Eu|by rewrite Hr]. }
      split; [|by apply Hna]. destruct Hw as [Hw _]. by destruct (Hw eq_refl).
  - exists g, (Role h true Out). split; [|by apply wp_ret].
    assert (Hc : ¬ some_waker will_clear ρ) by (intros Hc; discriminate (proj2 Hw (or_intror Hc))).
    main_step s g ρ HI Hr; [|by left]. split; [|by apply Hna].
    destruct (queued s) eqn:Eq; [|done]. discriminate (proj2 Hw (or_introl eq_refl)).
Qed.

Lemma wp_give_up (Q : unit → role → Prop) :
  Q tt (Role false false In) → upwp 0 unlock_mutex (Role false true Pre) Q.
Proof.
  apply wp_unlock_mutex_gen. intros s g ρ k' HI Hr E E' Ew.
  pose proof (main_at _ _ _ _ HI Hr) as (Hw & Hq & _).
  apply (u_main s); cbn; try done; [same HI Hr|by apply moves_release|by left].
Qed.

(** The wait for the condition variable. *)
Lemma wp_cond_wait ts (Q : errno → role → Prop) :
  (∀ e, match ts with
        | None => e = SUCCESS
        | Some ts => e = SUCCESS ∨ e = ETIMEDOUT ∨ (tv_sec ts < 0 ∧ e = EINVAL)
        end → Q e (Role false true In)) →
  upwp 0 (pthread_cond_wait ts) (Role false true Pre) Q.
Proof.
  intros HQ. unfold pthread_cond_wait. step s g ρ c HI. exists g, (Role false false Slp).
  pose proof (main_at _ _ _ _ HI Hr) as (Hw & Hq & Hf). cbn in Hf. split.
  { assert (Ho : mowner s = Some 0%nat) by (apply HI; by rewrite Hr).
    pose proof (wait_begin_ok 0%nat _ Ho) as Eo.
    apply (u_main s g ρ); cbn; try done; [same HI Hr|by apply moves_release|by auto|by left]. }
  clear s g ρ c HI Hr Hw Hq Hf. apply wp_act.
  - intros s g ρ Hr HI. destruct (mowner s) as [u|] eqn:Eo; [by right; right; left; rewrite Eo|].
    destruct (waiting (pthread (parker s))) eqn:Ew; [by right; right; right|].
    left. destruct (wait_end_ready 0%nat ts _ Eo Ew) as [c [[k r] E]]. exists c. cbn. rewrite E. by eexists.
  - intros s g ρ c s' v Hr HI Hex. cbn in Hex.
    destruct (cond_wait_end c 0%nat ts (pthread (parker s))) as [[k r]|] eqn:E; [|done]. injection Hex as <- <-.
    apply wait_end_ok in E as (Eo & Eo' & Er). exists g, (Role false true In).
    split; [|apply wp_ret, HQ; by destruct ts].
    pose proof (main_at _ _ _ _ HI Hr) as (Hw & Hq & Hf).
    apply (u_main s g ρ); cbn; try done; [same HI Hr|by apply moves_acquire|by left].
Qed.

Lemma wp_expect_queue b h m x (Q : unit → role → Prop) :
  (b = false ∧ x = Out) ∨ (b = true ∧ x = InQ ∧ h = true) → Q tt (Role h m x) →
  upwp 0 (q <- Act AQGet Ret;; if Bool.eqb q b then Ret tt else Panic "the queue disagrees")%prog
    (Role h m x) Q.
Proof.
  intros Hb HQ. wp_pure. step s g ρ c HI. exists g, (Role h m x).
  pose proof (main_at _ _ _ _ HI Hr) as Hm. split.
  - main_step s g ρ HI Hr; destruct Hb as [[_ ->]|(_ & -> & ->)]; cbn; try done; by left.
  - wp_pure. destruct Hb as [[-> ->]|(-> & -> & ->)]; cbn in Hm; destruct Hm as [-> _]; cbn; by apply wp_ret.
Qed.

Lemma wp_exit_queue {A} (k : unit → uprog A) Q :
  upwp 0 (k tt) (Role true false Out) Q → upwp 0 (Act (AQSet false) k) (Role true false InQ) Q.
Proof.
  intros Hk. step s g ρ c HI. exists g, (Role true false Out). split; [|done].
  pose proof (main_at _ _ _ _ HI Hr) as Hm. main_step s g ρ HI Hr; [by destruct Hm|right; by rewrite Hr].
Qed.

(** *** The waking threads *)

(** Nothing that the others look at changes. *)
Lemma main_same s s' ρ t r p :
  queued s' = queued s → flag s' = flag s → active (ph r) = active (ph (ρ t)) →
  will_clear (ph r) = will_clear (ph (ρ t)) → main s ρ p → main s' (<[t := r]> ρ) p.
Proof.
  intros Eq Ef Ea Ec. unfold main.
  destruct p; rewrite ?some_waker_same, ?Eq, ?Ef by done; done.
Qed.

Ltac waker_step s g ρ t HI Hr :=
  apply (u_waker s g ρ t); cbn; try done; [same HI Hr|same HI Hr|..].

Section waker.
Context (t : tid) (Ht : t ≠ 0%nat).

Lemma wp_see_queue {A} (k : bool → uprog A) Q :
  upwp t (k true) (Role true false Saw) Q → upwp t (k false) (Role true false Out) Q →
  upwp t (Act AQGet k) (Role true false Out) Q.
Proof.
  intros H1 H2. step s g ρ c HI.
  assert (HI' : ∀ x, (x = Out ∨ (x = Saw ∧ queued s = true)) → UInv s g (<[t := Role true false x]> ρ)).
  { intros x Hx.
    assert (Ha : active x = false) by (by destruct Hx as [->|[-> _]]).
    waker_step s g ρ t HI Hr; try (by rewrite Ha); try (by destruct Hx as [->|[-> _]]); [| |naive_solver|by left].
    - apply (main_same s); cbn; rewrite ?Hr; [done|done|done| |apply HI]. by destruct Hx as [->|[-> _]].
    - rewrite some_waker_same by (rewrite Hr; by destruct Hx as [->|[-> _]]). apply HI. }
  destruct (queued s) eqn:E; [exists g, (Role true false Saw)|exists g, (Role true false Out)];
    (split; [apply HI'; auto|done]).
Qed.

(** The thread in the queue has no waker yet. *)
Lemma queued_alone s g ρ :
  UInv s g ρ → hold (ρ t) = true → queued s = true → ¬ some_waker active ρ ∧ main s ρ In.
Proof.
  intros HI Hh Hq. pose proof (ui_main _ _ _ HI) as Hm. pose proof (ui_queue s g ρ HI 0%nat) as H0.
  destruct (ph (ρ 0%nat)) eqn:E; cbn in Hm; try done; try (destruct Hm; congruence);
    try (destruct Hm as (H1 & H2 & _); split; [by apply H2|by split]).
  by destruct (Ht (one_holder s g ρ t 0%nat HI Hh (H0 eq_refl))).
Qed.

Lemma wp_take_out {A} (k : unit → uprog A) Q :
  upwp t (k tt) (Role true false Took) Q → upwp t (Act (AQSet false) k) (Role true false Saw) Q.
Proof.
  intros Hk. step s g ρ c HI. exists g, (Role true false Took). split; [|done].
  assert (Hq : queued s = true) by (apply (ui_saw _ _ _ HI t); by rewrite Hr).
  destruct (queued_alone s g ρ HI) as [Hno (Hw & _)]; [by rewrite Hr|done|].
  assert (Htk : some_waker will_clear (<[t := Role true false Took]> ρ)) by (exists t; by fn_simp).
  assert (Hf : flag s = true) by (apply Hw; by left).
  pose proof (ui_main _ _ _ HI) as Hm. pose proof (ui_queue s g ρ HI 0%nat) as H0.
  waker_step s g ρ t HI Hr; [|by rewrite Hf|by right|right; by rewrite Hr].
  destruct (ph (ρ 0%nat)); cbn in Hm, H0 |- *; try done; try (destruct Hm; congruence);
    try (split; [rewrite Hf; split; [by right|done]|by split; [|by auto]]).
  by destruct (Ht (one_holder s g ρ t 0%nat HI ltac:(by rewrite Hr) (H0 eq_refl))).
Qed.

(** The thread that is about to wake the other is the only one. *)
Lemma one_waker s g ρ r :
  UInv s g ρ → active (ph (ρ t)) = true → active (ph r) = false →
  ¬ some_waker active (<[t := r]> ρ).
Proof.
  intros HI Ha Hr (u & Hu & E). fn_cases t u; [congruence|].
  by pose proof (ui_one _ _ _ HI t u Ht Hu Ha E).
Qed.

Lemma wp_unpark_lock (Q : unit → role → Prop) :
  Q tt (Role true true Has) → upwp t unpark_lock (Role true false Took) Q.
Proof.
  intros HQ. unfold unpark_lock, lock_mutex. wp_pure. apply (wp_mutex_lock_gen _ _ _ Has); [|by wp_pure; apply wp_ret].
  intros s g ρ k' HI Hr E E' Ew. apply (u_waker s g ρ t); cbn; rewrite ?Hr; try done;
    [same HI Hr|by apply moves_acquire| | |by left|by left].
  - apply (main_same s); cbn; rewrite ?Hr; try done. apply HI.
  - rewrite Ew, some_waker_same by (by rewrite Hr). apply HI.
Qed.

Lemma wp_clear_should_park {A} (k : unit → uprog A) Q :
  upwp t (k tt) (Role false true Clr) Q →
  upwp t (Act (AP (ASetPark false)) k) (Role false true Has) Q.
Proof.
  intros Hk. step s g ρ c HI. exists g, (Role false true Clr). split; [|done].
  assert (Ha : active (ph (ρ t)) = true) by (by rewrite Hr).
  assert (Hsa : some_waker active ρ) by (by exists t).
  assert (Hnc : ¬ some_waker will_clear (<[t := Role false true Clr]> ρ)).
  { intros (u & Hu & E). fn_cases t u; [done|].
    assert (Hau : active (ph (ρ u)) = true) by (by destruct (ph (ρ u))).
    by pose proof (ui_one _ _ _ HI t u Ht Hu Ha Hau). }
  pose proof (ui_main _ _ _ HI) as Hm. pose proof (ui_has s g ρ HI 0%nat) as H0.
  waker_step s g ρ t HI Hr; [| |left; by rewrite Hr|by left].
  - assert (Hin : (queued s = true → ¬ some_waker active ρ) → ∀ P : Prop, (queued s = true → P)) by (intros Hna P Hq; by destruct (Hna Hq)).
    unfold main in Hm |- *. cbn. destruct (ph (ρ 0%nat)) eqn:E0; try done; try (by destruct Hm as (? & [] & _));
      try (by destruct Hm as (? & [])).
    2: by destruct (Ht (one_owner s g ρ t 0%nat HI ltac:(by rewrite Hr) (H0 eq_refl))).
    all: destruct Hm as (_ & Hq & _); specialize (Hin Hq); split; [split; [done|intros [?|?]; [by apply Hin|done]]|split; [intros; by apply Hin|done]].
  - intros _ _ _. exists t. by fn_simp.
Qed.

Lemma wp_signal (Q : Z → role → Prop) :
  Q 0 (Role false true Out) → upwp t pthread_cond_signal (Role false true Clr) Q.
Proof.
  intros HQ. unfold pthread_cond_signal. apply wp_act.
  { intros s g ρ _ _. left. exists 0. cbn. destruct (cond_signal _). by eexists. }
  intros s g ρ c s' v Hr HI Hex. cbn in Hex. pose proof (signal_ok (pthread (parker s))) as (Er & Eo & Ew).
  destruct (cond_signal (pthread (parker s))) as [k' r]. injection Hex as <- <-. cbn in Er, Eo, Ew. subst r.
  exists g, (Role false true Out). split; [|by apply wp_ret].
  assert (Ha : active (ph (ρ t)) = true) by (by rewrite Hr).
  assert (Hno : ¬ some_waker active (<[t := Role false true Out]> ρ)) by (by eapply one_waker).
  pose proof (ui_main _ _ _ HI) as Hm.
  apply (u_waker s g ρ t); cbn; rewrite ?Hr; try done; [same HI Hr|rewrite Eo; same HI Hr| |by rewrite Ew|by left].
  assert (Hsw : some_waker will_clear (<[t := Role false true Out]> ρ) ↔ some_waker will_clear ρ)
    by (apply some_waker_same; by rewrite Hr).
  unfold main in Hm |- *. cbn. destruct (ph (ρ 0%nat)); rewrite ?Hsw; try done;
    try (destruct Hm as (? & ? & ?); by split); by destruct Hm.
Qed.

Lemma wp_unpark (Q : unit → role → Prop) :
  Q tt (Role false false Out) → upwp t (unpark tt) (Role false true Has) Q.
Proof.
  intros HQ. unfold unpark, set_should_park. wp_pure. apply wp_clear_should_park. wp_pure.
  apply wp_signal. wp_pure. apply wp_ret. wp_pure. by apply wp_unlock_mutex.
Qed.
End waker.

(** ** The methods *)

Section methods.
Context (time_t_bits : Z) (sets_clock apple : bool).
Abbreviation parker := (unix_parker time_t_bits sets_clock apple).

Lemma wp_u_assert t b r (Q : unit → role → Prop) : b = true → Q tt r → upwp t (u_assert b) r Q.
Proof. intros -> HQ. by apply wp_ret. Qed.

Lemma wp_prepare_park (Q : unit → role → Prop) :
  Q tt (Role true false Prep) → upwp 0 (prepare_park sets_clock) (Role true false Out) Q.
Proof.
  intros HQ. unfold prepare_park, set_should_park. wp_pure. apply wp_set_should_park. wp_pure.
  wp_pure. private. wp_pure. destruct v; cbn [negb]; [by apply wp_ret|].
  wp_pure. apply wp_init. wp_pure. private. destruct v. by wp_pure.
Qed.

Lemma wp_timed_out_ok (Q : bool → role → Prop) :
  Q true (Role true false InQ) → Q false (Role true false Out) → upwp 0 timed_out (Role true false In) Q.
Proof.
  intros Ht Hf. unfold timed_out. wp_pure. apply wp_lock_mutex. wp_pure.
  apply (wp_get_should_park InQ); [by right|..]; wp_pure; (apply wp_unlock_mutex; [done|]; by apply wp_ret).
Qed.

Lemma wp_park_ok (Q : unit → role → Prop) :
  Q tt (Role false false Out) → upwp 0 park (Role false false In) Q.
Proof.
  intros HQ. unfold park. wp_pure. apply wp_lock_mutex. wp_pure.
  apply (wp_iter _ _ _ _ _ (λ _ r, r = Role false true In)); [done|]. intros [] ? ->. wp_pure.
  apply (wp_get_should_park Pre); [by left|..]; wp_pure; [|by apply wp_unlock_mutex].
  apply wp_cond_wait. intros e ->. wp_pure. apply wp_u_assert; [by apply bool_decide_eq_true|]. by wp_pure.
Qed.

Lemma wp_timeout_to_timespec d r (Q : option timespec → role → Prop) :
  (∀ ts, Q ts r) → upwp 0 (timeout_to_timespec time_t_bits apple d) r Q.
Proof.
  intros HQ. unfold timeout_to_timespec, timespec_now, instant_now. destruct (_ <? _); [by apply wp_ret|].
  wp_pure. private. by wp_pure.
Qed.

(** The results that the code expects of a wait with a timeout. *)
Lemma wp_wait_result t ts e r (Q : unit → role → Prop) :
  e = SUCCESS ∨ e = ETIMEDOUT ∨ (tv_sec ts < 0 ∧ e = EINVAL) → Q tt r →
  upwp t (if tv_sec ts <? 0
          then u_assert (bool_decide (e = SUCCESS) || bool_decide (e = ETIMEDOUT) || bool_decide (e = EINVAL))
          else u_assert (bool_decide (e = SUCCESS) || bool_decide (e = ETIMEDOUT))) r Q.
Proof.
  intros He HQ. destruct He as [->|[->|[Hs ->]]].
  1,2: case_match; by apply wp_u_assert.
  rewrite (proj2 (Z.ltb_lt _ _)) by done. by apply wp_u_assert.
Qed.

Lemma wp_park_until_ok d (Q : bool → role → Prop) :
  Q true (Role false false Out) → Q false (Role false false In) →
  upwp 0 (park_until time_t_bits apple d) (Role false false In) Q.
Proof.
  intros Ht Hf. unfold park_until. wp_pure. apply wp_lock_mutex. wp_pure.
  apply (wp_iter _ _ _ _ _ (λ _ r, r = Role false true In)); [done|]. intros [] ? ->.
  unfold park_until_turn, instant_now. wp_pure. apply (wp_get_should_park Pre); [by left|..]; wp_pure.
  2: { apply wp_unlock_mutex; [done|]. by wp_pure. }
  private. wp_pure. destruct (d <=? v); wp_pure; [apply wp_give_up; by wp_pure|].
  apply wp_timeout_to_timespec. intros [ts|]; wp_pure; apply wp_cond_wait; cbn; [intros e He|intros e ->]; wp_pure.
  - apply wp_wait_result; [done|]. by wp_pure.
  - apply wp_u_assert; [done|]. by wp_pure.
Qed.

Lemma unix_wait_once d :
  upwp 0 (wait_once (PK := parker) d) (Role false false Out) (λ _ r, r = Role false false Out).
Proof.
  unfold wait_once, queue_lock, set_queued, queue_unlock. wp_pure.
  apply wp_qlock. wp_pure. apply wp_prepare_park. wp_pure. apply wp_enter_queue. wp_pure.
  apply wp_qunlock; [done|]. wp_pure.
  assert (Hun : upwp 0 (expect_queued (PK := parker) false) (Role false false Out) (λ _ r, r = Role false false Out))
    by (by apply (wp_expect_queue false); [left|]).
  destruct d as [d|]; [apply wp_park_until_ok|wp_pure; apply wp_park_ok]; wp_pure; [exact Hun| |exact Hun].
  apply wp_qlock. wp_pure. apply wp_timed_out_ok; wp_pure.
  - apply (wp_expect_queue true); [by right|]. wp_pure. apply wp_exit_queue. wp_pure.
    apply wp_qunlock; [done|]. by wp_pure.
  - apply (wp_expect_queue false); [by left|]. wp_pure. apply wp_qunlock; [done|]. by wp_pure.
Qed.

Lemma unix_wake_once t :
  t ≠ 0%nat →
  upwp t (wake_once (PK := parker)) (Role false false Out) (λ _ r, r = Role false false Out).
Proof.
  intros Ht. unfold wake_once, queue_lock, get_queued, set_queued, queue_unlock. wp_pure.
  apply wp_qlock. wp_pure. apply wp_see_queue; [done| |]; wp_pure.
  - apply wp_take_out; [done|]. wp_pure. apply wp_unpark_lock; [done|]. wp_pure.
    apply wp_qunlock; [done|]. wp_pure. by apply wp_unpark.
  - apply wp_qunlock; [done|]. by wp_pure.
Qed.

Lemma unix_start : UInv (parker_start (PK := parker)) tt (λ _, Role false false Out).
Proof.
  split; cbn; rewrite ?owner_0; try done. split; [done|]. by intros (u & _ & [=]).
Qed.

(** When nobody can go on, nobody has the mutex, nobody holds the queue lock,
    and the thread that sleeps is in the queue. *)
Lemma unix_stuck s g ρ :
  UInv s g ρ → (∀ t, ρ t = Role false false Out ∨ blocked t (ρ t) s) →
  (∀ t, t ≠ 0%nat → ¬ blocked t (ρ t) s) ∧ (blocked 0%nat (ρ 0%nat) s → queued s = true).
Proof.
  intros HI Hall.
  assert (Ho : mowner s = None).
  { destruct (mowner s) as [t|] eqn:E; [|done]. apply (ui_mutex _ _ _ HI) in E.
    destruct (Hall t) as [Er|[(_ & Er & _)|[(Er & _)|(_ & Er & _)]]]; rewrite Er in E; done. }
  assert (Hl : qlock s = None).
  { destruct (qlock s) as [t|] eqn:E; [|done]. apply (ui_lock _ _ _ HI) in E.
    destruct (Hall t) as [Er|[(Er & _)|[(_ & ?)|(_ & Er & _)]]]; [..|done|]; rewrite Er in E; done. }
  assert (Hw : ∀ t, t ≠ 0%nat → ¬ blocked t (ρ t) s) by (intros t Ht [(_ & _ & ?)|[[_ ?]|[? _]]]; done).
  split; [done|]. intros [(_ & _ & ?)|[[_ ?]|(_ & E & Hs)]]; [done..|].
  pose proof (main_at _ _ _ _ HI E) as (Hf & _ & _).
  assert (Hnone : ∀ P, P Out = false → ¬ some_waker P ρ).
  { intros P HP (u & Hu & Hx). destruct (Hall u) as [Er|Hb]; [rewrite Er in Hx; cbn in Hx; congruence|].
    by destruct (Hw u Hu). }
  destruct (flag s) eqn:Ef.
  - destruct (proj1 Hf eq_refl) as [?|Hx]; [done|]. by apply Hnone in Hx.
  - pose proof (ui_slp _ _ _ HI) as Hx. rewrite E in Hx. by apply Hnone in Hx.
Qed.
End methods.
End proof.

(** C33: The pthread parker honours the contract of thread parkers, on any
    implementation of pthreads that behaves as documented: no assertion fails
    (every call succeeds, but for waits that time out or have a negative
    timeout), unparked threads were taken out of the queue and expired ones are
    in it, the calls never deadlock, and no signal is lost. *)
Theorem unix_parker_ok (PT : Pthread) time_t_bits sets_clock apple :
  ParkerOk (PK := unix_parker time_t_bits sets_clock apple).
Proof.
  apply (parker_ok (PK := unix_parker time_t_bits sets_clock apple) UInv blocked (Role false false Out)).
  - apply unix_start.
  - apply unix_wait_once.
  - apply unix_wake_once.
  - apply unix_stuck.
Qed.

(** ** A platform: waits end when signalled or when their time is over *)

Record simple := MkSimple { s_owner : option tid; s_waiting : bool }.

#[local] Obligation Tactic := idtac.

Program Definition simple_pthread : Pthread := {|
  pth := simple;
  pth0 := MkSimple None false;
  owner := s_owner;
  waiting := s_waiting;
  mutex_lock t k :=
    match s_owner k with None => Some (MkSimple (Some t) (s_waiting k), 0) | Some _ => None end;
  mutex_unlock _ k := (MkSimple None (s_waiting k), 0);
  cond_wait_begin _ _ := MkSimple None true;
  cond_wait_end c t ts k :=
    match s_owner k with
    | Some _ => None
    | None =>
        if s_waiting k then
          match ts with
          | Some _ => if c =? 0 then None else Some (MkSimple (Some t) false, ETIMEDOUT)
          | None => None
          end
        else Some (MkSimple (Some t) false, EOTHER 0)
    end;
  cond_signal k := (MkSimple (s_owner k) false, 0);
  init_result _ := 0;
|}.
Next Obligation. done. Qed.
Next Obligation. intros t [[u|] b] k' r H; cbn in *; by simplify_eq. Qed.
Next Obligation. intros t [o b] Ho. cbn in *. rewrite Ho. by eexists. Qed.
Next Obligation. done. Qed.
Next Obligation. done. Qed.
Next Obligation.
  intros c t ts [[u|] []] k' r H; cbn in H; destruct ts; try destruct (c =? 0); simplify_eq; cbn; auto.
Qed.
Next Obligation. intros t ts [o b] Ho Hw. cbn in *. rewrite Ho, Hw. exists 0. by eexists. Qed.
Next Obligation. done. Qed.
Next Obligation. done. Qed.

(** A run: the thread is woken once and waits a second time, asleep. *)
Section example.
#[local] Existing Instance simple_pthread.
#[local] Abbreviation demo_unix := (unix_parker 64 true false).
Local Definition unix_waits : list (option Z) := [Some 1000000000000000000; None].
Local Definition unix_wakes (t : tid) : nat := match t with 1%nat => 1 | _ => 0 end.
Local Definition unix_sched : list (tid * choice) :=
  repeat (0%nat, 0) 37 ++ repeat (1%nat, 0) 19 ++ repeat (0%nat, 0) 34.
Local Definition unix_demo : hstate (ustate simple) * (tid → uprog unit) :=
  default (parker_start (PK := demo_unix), parker_pool (PK := demo_unix) unix_waits unix_wakes)
    (run (hexec uexec) unix_sched (parker_start (PK := demo_unix))
       (parker_pool (PK := demo_unix) unix_waits unix_wakes)).

Lemma unix_demo_reachable :
  reachable (hexec uexec) (parker_start (PK := demo_unix))
    (parker_pool (PK := demo_unix) unix_waits unix_wakes) unix_demo.1 unix_demo.2.
Proof.
  apply (run_reachable _ unix_sched). unfold unix_demo.
  assert (H : bool_decide (is_Some (run (hexec uexec) unix_sched (parker_start (PK := demo_unix))
       (parker_pool (PK := demo_unix) unix_waits unix_wakes))) = true) by (vm_compute; reflexivity).
  apply bool_decide_eq_true in H as [[s ps] E]. by rewrite E.
Qed.

Lemma unix_parker_ok_witness :
  (∀ t c, step1 (hexec uexec) t c (unix_demo.2 t) unix_demo.1 = None) ∧
  unix_demo.2 1%nat = Ret tt ∧ queued unix_demo.1 = true.
Proof.
  assert (Hst : ∀ t c, step1 (hexec uexec) t c (unix_demo.2 t) unix_demo.1 = None).
  { intros [|[|t]] c; vm_compute; reflexivity. }
  destruct (parker_no_lost_wakeup (ParkerOk := unix_parker_ok simple_pthread 64 true false)
              unix_waits unix_wakes _ _ unix_demo_reachable Hst) as [H1 H2].
  split; [exact Hst|]. split; [by apply H1|].
  destruct H2 as [H2|H2]; [|exact H2]. exfalso. revert H2. vm_compute. discriminate.
Defined.
End example.
