(* ===== verification/LockApi.v ===== *)
(** * lock_api: guards over raw locks

    The machine of the crate lock_api: the memory that the locks protect, on
    top of the machine of [ParkingLot] on which the raw locks run.  A lock is an
    address: that of its raw lock, which its data is named by.

    An access to the data is not atomic: it begins and ends, and two accesses
    that overlap and of which one writes are a data race, which the machine
    records.  Guards are values.  A guard registers itself with the raw lock when
    it is made ([AEnter]) and signs off ([ADrop]) where its method first calls
    the raw lock, before that call; [mem::forget] does nothing.

    A closure is a program that returns or unwinds; the methods run their
    [defer!] blocks and drop their guards in both cases, as the compiler does. *)

From S2P Require Import Prelude Conc ParkingLot.
Local Open Scope Z_scope.
Local Open Scope prog_scope.

(** ** The machine *)

(** Memory that is not atomic: a part of the data of a lock, and the lock count
    of a reentrant mutex. *)
Inductive loc := Data (a : Z) (path : list nat) | Count (a : Z).

#[export] Instance loc_eq_dec : EqDecision loc.
Proof. solve_decision. Defined.

(** What a location belongs to: accesses to the same data may overlap. *)
Definition base (l : loc) : Z * bool := match l with Data a _ => (a, false) | Count a => (a, true) end.

Record lstate := MkL {
  raw_st : state;
  cell : loc → Z;
  accesses : list (tid * (loc * bool));  (* those that go on; whether they write *)
  raced : bool;
  owner : Z → Z;  (* of each reentrant mutex *)
  reentered : Z → list tid;  (* and its guards *)
}.

Definition set_raw (x : state) (s : lstate) : lstate :=
  MkL x (cell s) (accesses s) (raced s) (owner s) (reentered s).
Definition set_cell (l : loc) (v : Z) (s : lstate) : lstate :=
  MkL (raw_st s) (<[l := v]> (cell s)) (accesses s) (raced s) (owner s) (reentered s).
Definition set_accesses (x : list (tid * (loc * bool))) (race : bool) (s : lstate) : lstate :=
  MkL (raw_st s) (cell s) x (raced s || race) (owner s) (reentered s).
Definition set_owner (a v : Z) (s : lstate) : lstate :=
  MkL (raw_st s) (cell s) (accesses s) (raced s) (<[a := v]> (owner s)) (reentered s).
Definition set_reentered (a : Z) (x : list tid) (s : lstate) : lstate :=
  MkL (raw_st s) (cell s) (accesses s) (raced s) (owner s) (<[a := x]> (reentered s)).

Inductive lact :=
| LRaw (x : act)
| LBegin (l : loc) (w : bool)
| LEnd (l : loc) (w : bool)
| LRead (l : loc)
| LWrite (l : loc) (v : Z)
| LOwner (a : Z)
| LSetOwner (a v : Z)
| LEnter (a : Z)
| LDrop (a : Z).

Definition lresp (x : lact) : Type :=
  match x with
  | LRaw x => resp x
  | LRead _ | LOwner _ => Z
  | _ => unit
  end.

Definition conflicts (t : tid) (x : loc * bool) (y : tid * (loc * bool)) : bool :=
  bool_decide (y.1 ≠ t) && bool_decide (base x.1 = base y.2.1) && (x.2 || y.2.2).

Definition lexec (t : tid) (c : choice) (x : lact) : lstate → option (lstate * lresp x) :=
  match x with
  | LRaw x => λ s,
      match exec t c x (raw_st s) with
      | Some (s', v) => Some (set_raw s' s, v)
      | None => None
      end
  | LBegin l w => λ s,
      Some (set_accesses ((t, (l, w)) :: accesses s) (existsb (conflicts t (l, w)) (accesses s)) s, tt)
  | LEnd l w => λ s, Some (set_accesses (remove_first (t, (l, w)) (accesses s)) false s, tt)
  | LRead l => λ s, Some (s, cell s l)
  | LWrite l v => λ s, Some (set_cell l v s, tt)
  | LOwner a => λ s, Some (s, owner s a)
  | LSetOwner a v => λ s, Some (set_owner a v s, tt)
  | LEnter a => λ s, Some (set_reentered a (t :: reentered s a) s, tt)
  | LDrop a => λ s, Some (set_reentered a (remove_first t (reentered s a)) s, tt)
  end.

Abbreviation lprog := (prog lact lresp).

(** A program of the raw lock. *)
Fixpoint lift {A} (p : iprog A) : lprog A :=
  match p with
  | Ret a => Ret a
  | Panic m => Panic m
  | Act x k => Act (LRaw x) (λ v, lift (k v))
  | Bind p k => Bind (lift p) (λ x, lift (k x))
  | Iter body x => Iter (λ x, lift (body x)) x
  end.

Definition access {A} (l : loc) (w : bool) (p : lprog A) : lprog A :=
  Act (LBegin l w) Ret;; r <- p;; Act (LEnd l w) Ret;; Ret r.

Definition read_at (l : loc) : lprog Z := access l false (Act (LRead l) Ret).
Definition write_at (l : loc) (v : Z) : lprog unit := access l true (Act (LWrite l v) Ret).

(** ** Closures and guards *)

Inductive outcome (A : Type) := Done (a : A) | Unwind.
Arguments Done {A} a.
Arguments Unwind {A}.

(** [defer!(d); f()] *)
Definition deferred {act : Type} {resp : act → Type} {A} (f : prog act resp (outcome A)) (d : prog act resp unit)
    : prog act resp (outcome A) :=
  r <- f;; d;; Ret r.

(** A guard of kind [gd] is made, once the raw lock is held. *)
Definition enter (a : Z) (gd : guard) : lprog unit := Act (LRaw (AEnter a gd)) Ret.

(** The raw lock is called to release what a guard of kind [gd] stands for. *)
Definition leave {A} (a : Z) (gd : guard) (p : iprog A) : lprog A :=
  Act (LRaw (ADrop a gd)) (λ _, lift p).

(** The guard changes its kind, or is suspended, for the time of the call. *)
Definition change (a : Z) (gd gd' : guard) (p : iprog unit) : lprog unit :=
  leave a gd p;; enter a gd'.

Definition try_change (a : Z) (gd gd' : guard) (p : iprog bool) : lprog bool :=
  ok <- leave a gd p;; enter a (if ok : bool then gd' else gd);; Ret ok.

(** [if self.raw.try_..() { Some(guard) } else { None }] *)
Definition acquire_if {G} (p : iprog bool) (make : lprog G) : lprog (option G) :=
  ok <- lift p;; if ok : bool then g <- make;; Ret (Some g) else Ret None.

(** A part of what a reference points to. *)
Definition sub (l : loc) (q : list nat) : loc :=
  match l with Data a p => Data a (p ++ q) | Count a => Count a end.

(** A closure that gets a reference to what guard [s] protects: when it unwinds
    the guard is dropped. *)
Definition consume {act : Type} {resp : act → Type} {X Y} (f : prog act resp (outcome X))
    (drop : prog act resp unit) (k : X → Y) : prog act resp (outcome Y) :=
  r <- f;;
  match r with Done x => Ret (Done (k x)) | Unwind => drop;; Ret Unwind end.

Definition map_ok {G S} (make : loc → G) (s : S) (d : option loc) : G + S :=
  match d with Some d => inl (make d) | None => inr s end.
Definition map_result {G S E} (make : loc → G) (s : S) (d : loc + E) : G + S * E :=
  match d with inl d => inl (make d) | inr e => inr (s, e) end.

(** ** The traits (mutex.rs, rwlock.rs) *)

Module Raw.
Class Mutex := {
  lock : Z → iprog unit;
  try_lock : Z → iprog bool;
  unlock : Z → iprog unit;
  is_locked : Z → iprog bool;
}.
Class MutexFair := { unlock_fair : Z → iprog unit; bump : Z → iprog unit }.
Class MutexTimed := { try_lock_for : Z → Z → iprog bool; try_lock_until : Z → Z → iprog bool }.

Class RwLock := {
  lock_shared : Z → iprog unit;
  try_lock_shared : Z → iprog bool;
  unlock_shared : Z → iprog unit;
  lock_exclusive : Z → iprog unit;
  try_lock_exclusive : Z → iprog bool;
  unlock_exclusive : Z → iprog unit;
  rw_is_locked : Z → iprog bool;
  is_locked_exclusive : Z → iprog bool;
}.
Class RwLockFair := {
  unlock_shared_fair : Z → iprog unit;
  unlock_exclusive_fair : Z → iprog unit;
  bump_shared : Z → iprog unit;
  bump_exclusive : Z → iprog unit;
}.
Class RwLockDowngrade := { downgrade : Z → iprog unit }.
Class RwLockTimed := {
  try_lock_shared_for : Z → Z → iprog bool;
  try_lock_shared_until : Z → Z → iprog bool;
  try_lock_exclusive_for : Z → Z → iprog bool;
  try_lock_exclusive_until : Z → Z → iprog bool;
}.
Class RwLockRecursive := {
  lock_shared_recursive : Z → iprog unit;
  try_lock_shared_recursive : Z → iprog bool;
}.
Class RwLockRecursiveTimed := {
  try_lock_shared_recursive_for : Z → Z → iprog bool;
  try_lock_shared_recursive_until : Z → Z → iprog bool;
}.
Class RwLockUpgrade := {
  lock_upgradable : Z → iprog unit;
  try_lock_upgradable : Z → iprog bool;
  unlock_upgradable : Z → iprog unit;
  upgrade : Z → iprog unit;
  try_upgrade : Z → iprog bool;
}.
Class RwLockUpgradeFair := { unlock_upgradable_fair : Z → iprog unit; bump_upgradable : Z → iprog unit }.
Class RwLockUpgradeDowngrade := {
  downgrade_upgradable : Z → iprog unit;
  downgrade_to_upgradable : Z → iprog unit;
}.
Class RwLockUpgradeTimed := {
  try_lock_upgradable_for : Z → Z → iprog bool;
  try_lock_upgradable_until : Z → Z → iprog bool;
  try_upgrade_for : Z → Z → iprog bool;
  try_upgrade_until : Z → Z → iprog bool;
}.
End Raw.

(** The methods that the traits provide. *)
Definition provided_is_locked (try_lock : Z → iprog bool) (unlock : Z → iprog unit) (a : Z) : iprog bool :=
  acquired_lock <- try_lock a;;
  (if acquired_lock : bool then unlock a else Ret tt);;
  Ret (negb acquired_lock).
Definition provided_bump (unlock_fair lock : Z → iprog unit) (a : Z) : iprog unit :=
  unlock_fair a;; lock a.

(** ** Mutex (mutex.rs) *)

Module MappedMutexGuard.
Record t := Mk { raw : Z; data : loc }.
Section guard.
Context `{!Raw.Mutex, !Raw.MutexFair}.

Definition drop (s : t) : lprog unit := leave (raw s) GExclusive (Raw.unlock (raw s)).
Definition map (s : t) (f : loc → lprog (outcome loc)) : lprog (outcome t) :=
  consume (f (data s)) (drop s) (Mk (raw s)).
Definition try_map (s : t) (f : loc → lprog (outcome (option loc))) : lprog (outcome (t + t)) :=
  consume (f (data s)) (drop s) (map_ok (Mk (raw s)) s).
Definition try_map_or_err {E : Type} (s : t) (f : loc → lprog (outcome (loc + E)))
    : lprog (outcome (t + t * E)) :=
  consume (f (data s)) (drop s) (map_result (Mk (raw s)) s).
Definition unlock_fair (s : t) : lprog unit := leave (raw s) GExclusive (Raw.unlock_fair (raw s)).
Definition deref (s : t) : loc := data s.
Definition deref_mut (s : t) : loc := data s.
End guard.
End MappedMutexGuard.

Module MutexGuard.
Record t := Mk { mutex : Z }.
Section guard.
Context `{!Raw.Mutex, !Raw.MutexFair}.

Definition deref (s : t) : loc := Data (mutex s) [].
Definition deref_mut (s : t) : loc := Data (mutex s) [].
Definition drop (s : t) : lprog unit := leave (mutex s) GExclusive (Raw.unlock (mutex s)).
Definition map (s : t) (f : loc → lprog (outcome loc)) : lprog (outcome MappedMutexGuard.t) :=
  consume (f (deref_mut s)) (drop s) (MappedMutexGuard.Mk (mutex s)).
Definition try_map (s : t) (f : loc → lprog (outcome (option loc)))
    : lprog (outcome (MappedMutexGuard.t + t)) :=
  consume (f (deref_mut s)) (drop s) (map_ok (MappedMutexGuard.Mk (mutex s)) s).
Definition try_map_or_err {E : Type} (s : t) (f : loc → lprog (outcome (loc + E)))
    : lprog (outcome (MappedMutexGuard.t + t * E)) :=
  consume (f (deref_mut s)) (drop s) (map_result (MappedMutexGuard.Mk (mutex s)) s).
Definition unlocked {U : Type} (s : t) (f : lprog (outcome U)) : lprog (outcome U) :=
  leave (mutex s) GExclusive (Raw.unlock (mutex s));;
  deferred f (lift (Raw.lock (mutex s));; enter (mutex s) GExclusive).
Definition leak (s : t) : loc := Data (mutex s) [].
Definition unlock_fair (s : t) : lprog unit := leave (mutex s) GExclusive (Raw.unlock_fair (mutex s)).
Definition unlocked_fair {U : Type} (s : t) (f : lprog (outcome U)) : lprog (outcome U) :=
  leave (mutex s) GExclusive (Raw.unlock_fair (mutex s));;
  deferred f (lift (Raw.lock (mutex s));; enter (mutex s) GExclusive).
Definition bump (s : t) : lprog unit := change (mutex s) GExclusive GExclusive (Raw.bump (mutex s)).
End guard.
End MutexGuard.

Module Mutex.
Section mutex.
Context `{!Raw.Mutex, !Raw.MutexFair, !Raw.MutexTimed}.

Definition make_guard_unchecked (a : Z) : lprog MutexGuard.t :=
  enter a GExclusive;; Ret (MutexGuard.Mk a).
Definition lock (a : Z) : lprog MutexGuard.t := lift (Raw.lock a);; make_guard_unchecked a.
Definition try_lock (a : Z) : lprog (option MutexGuard.t) :=
  acquire_if (Raw.try_lock a) (make_guard_unchecked a).
Definition is_locked (a : Z) : lprog bool := lift (Raw.is_locked a).
Definition force_unlock (a : Z) : lprog unit := leave a GExclusive (Raw.unlock a).
Definition force_unlock_fair (a : Z) : lprog unit := leave a GExclusive (Raw.unlock_fair a).
Definition try_lock_for (a timeout : Z) : lprog (option MutexGuard.t) :=
  acquire_if (Raw.try_lock_for a timeout) (make_guard_unchecked a).
Definition try_lock_until (a timeout : Z) : lprog (option MutexGuard.t) :=
  acquire_if (Raw.try_lock_until a timeout) (make_guard_unchecked a).
End mutex.
End Mutex.

(** ** RwLock (rwlock.rs) *)


Module MappedRwLockReadGuard.
Record t := Mk { raw : Z; data : loc }.
Section guard.
Context `{!Raw.RwLock, !Raw.RwLockFair}.

Definition drop (s : t) : lprog unit := leave (raw s) GShared (Raw.unlock_shared (raw s)).
Definition map (s : t) (f : loc → lprog (outcome loc)) : lprog (outcome t) :=
  consume (f (data s)) (drop s) (Mk (raw s)).
Definition try_map (s : t) (f : loc → lprog (outcome (option loc))) : lprog (outcome (t + t)) :=
  consume (f (data s)) (drop s) (map_ok (Mk (raw s)) s).
Definition try_map_or_else {E : Type} (s : t) (f : loc → lprog (outcome (loc + E)))
    : lprog (outcome (t + t * E)) :=
  consume (f (data s)) (drop s) (map_result (Mk (raw s)) s).
Definition unlock_fair (s : t) : lprog unit := leave (raw s) GShared (Raw.unlock_shared_fair (raw s)).
Definition deref (s : t) : loc := data s.
End guard.
End MappedRwLockReadGuard.

Module MappedRwLockWriteGuard.
Record t := Mk { raw : Z; data : loc }.
Section guard.
Context `{!Raw.RwLock, !Raw.RwLockFair}.

Definition drop (s : t) : lprog unit := leave (raw s) GExclusive (Raw.unlock_exclusive (raw s)).
Definition map (s : t) (f : loc → lprog (outcome loc)) : lprog (outcome t) :=
  consume (f (data s)) (drop s) (Mk (raw s)).
Definition try_map (s : t) (f : loc → lprog (outcome (option loc))) : lprog (outcome (t + t)) :=
  consume (f (data s)) (drop s) (map_ok (Mk (raw s)) s).
Definition try_map_or_err {E : Type} (s : t) (f : loc → lprog (outcome (loc + E)))
    : lprog (outcome (t + t * E)) :=
  consume (f (data s)) (drop s) (map_result (Mk (raw s)) s).
Definition unlock_fair (s : t) : lprog unit := leave (raw s) GExclusive (Raw.unlock_exclusive_fair (raw s)).
Definition deref (s : t) : loc := data s.
Definition deref_mut (s : t) : loc := data s.
End guard.
End MappedRwLockWriteGuard.

Module RwLockReadGuard.
Record t := Mk { rwlock : Z }.
Section guard.
Context `{!Raw.RwLock, !Raw.RwLockFair}.

Definition deref (s : t) : loc := Data (rwlock s) [].
Definition drop (s : t) : lprog unit := leave (rwlock s) GShared (Raw.unlock_shared (rwlock s)).
Definition map (s : t) (f : loc → lprog (outcome loc)) : lprog (outcome MappedRwLockReadGuard.t) :=
  consume (f (deref s)) (drop s) (MappedRwLockReadGuard.Mk (rwlock s)).
Definition try_map (s : t) (f : loc → lprog (outcome (option loc)))
    : lprog (outcome (MappedRwLockReadGuard.t + t)) :=
  consume (f (deref s)) (drop s) (map_ok (MappedRwLockReadGuard.Mk (rwlock s)) s).
Definition try_map_or_err {E : Type} (s : t) (f : loc → lprog (outcome (loc + E)))
    : lprog (outcome (MappedRwLockReadGuard.t + t * E)) :=
  consume (f (deref s)) (drop s) (map_result (MappedRwLockReadGuard.Mk (rwlock s)) s).
Definition unlocked {U : Type} (s : t) (f : lprog (outcome U)) : lprog (outcome U) :=
  leave (rwlock s) GShared (Raw.unlock_shared (rwlock s));;
  deferred f (lift (Raw.lock_shared (rwlock s));; enter (rwlock s) GShared).
Definition unlock_fair (s : t) : lprog unit :=
  leave (rwlock s) GShared (Raw.unlock_shared_fair (rwlock s)).
Definition unlocked_fair {U : Type} (s : t) (f : lprog (outcome U)) : lprog (outcome U) :=
  leave (rwlock s) GShared (Raw.unlock_shared_fair (rwlock s));;
  deferred f (lift (Raw.lock_shared (rwlock s));; enter (rwlock s) GShared).
Definition bump (s : t) : lprog unit := change (rwlock s) GShared GShared (Raw.bump_shared (rwlock s)).
End guard.
End RwLockReadGuard.

(** [RwLockUpgradableReadGuard]. *)
Record upgradable_guard := MkUpgradable { upgradable_lock : Z }.


Module RwLockWriteGuard.
Record t := Mk { rwlock : Z }.
Section guard.
Context `{!Raw.RwLock, !Raw.RwLockFair, !Raw.RwLockDowngrade, !Raw.RwLockUpgradeDowngrade}.

Definition deref (s : t) : loc := Data (rwlock s) [].
Definition deref_mut (s : t) : loc := Data (rwlock s) [].
Definition drop (s : t) : lprog unit := leave (rwlock s) GExclusive (Raw.unlock_exclusive (rwlock s)).
Definition map (s : t) (f : loc → lprog (outcome loc)) : lprog (outcome MappedRwLockWriteGuard.t) :=
  consume (f (deref s)) (drop s) (MappedRwLockWriteGuard.Mk (rwlock s)).
Definition try_map (s : t) (f : loc → lprog (outcome (option loc)))
    : lprog (outcome (MappedRwLockWriteGuard.t + t)) :=
  consume (f (deref s)) (drop s) (map_ok (MappedRwLockWriteGuard.Mk (rwlock s)) s).
Definition try_map_or_err {E : Type} (s : t) (f : loc → lprog (outcome (loc + E)))
    : lprog (outcome (MappedRwLockWriteGuard.t + t * E)) :=
  consume (f (deref s)) (drop s) (map_result (MappedRwLockWriteGuard.Mk (rwlock s)) s).
Definition unlocked {U : Type} (s : t) (f : lprog (outcome U)) : lprog (outcome U) :=
  leave (rwlock s) GExclusive (Raw.unlock_exclusive (rwlock s));;
  deferred f (lift (Raw.lock_exclusive (rwlock s));; enter (rwlock s) GExclusive).
Definition unlock_fair (s : t) : lprog unit :=
  leave (rwlock s) GExclusive (Raw.unlock_exclusive_fair (rwlock s)).
Definition unlocked_fair {U : Type} (s : t) (f : lprog (outcome U)) : lprog (outcome U) :=
  leave (rwlock s) GExclusive (Raw.unlock_exclusive_fair (rwlock s));;
  deferred f (lift (Raw.lock_exclusive (rwlock s));; enter (rwlock s) GExclusive).
Definition bump (s : t) : lprog unit := change (rwlock s) GExclusive GExclusive (Raw.bump_exclusive (rwlock s)).
Definition downgrade (s : t) : lprog RwLockReadGuard.t :=
  change (rwlock s) GExclusive GShared (Raw.downgrade (rwlock s));;
  Ret (RwLockReadGuard.Mk (rwlock s)).
Definition downgrade_to_upgradable (s : t) : lprog upgradable_guard :=
  change (rwlock s) GExclusive GUpgradable (Raw.downgrade_to_upgradable (rwlock s));;
  Ret (MkUpgradable (rwlock s)).
End guard.
End RwLockWriteGuard.

Module RwLockUpgradableReadGuard.
Abbreviation t := upgradable_guard.
Abbreviation rwlock := upgradable_lock.
Section guard.
Context `{!Raw.RwLock, !Raw.RwLockUpgrade, !Raw.RwLockUpgradeFair, !Raw.RwLockUpgradeDowngrade, !Raw.RwLockUpgradeTimed}.

Definition deref (s : t) : loc := Data (rwlock s) [].
Definition drop (s : t) : lprog unit := leave (rwlock s) GUpgradable (Raw.unlock_upgradable (rwlock s)).
Definition unlocked {U : Type} (s : t) (f : lprog (outcome U)) : lprog (outcome U) :=
  leave (rwlock s) GUpgradable (Raw.unlock_upgradable (rwlock s));;
  deferred f (lift (Raw.lock_upgradable (rwlock s));; enter (rwlock s) GUpgradable).
Definition unlock_fair (s : t) : lprog unit :=
  leave (rwlock s) GUpgradable (Raw.unlock_upgradable_fair (rwlock s)).
Definition unlocked_fair {U : Type} (s : t) (f : lprog (outcome U)) : lprog (outcome U) :=
  leave (rwlock s) GUpgradable (Raw.unlock_upgradable_fair (rwlock s));;
  deferred f (lift (Raw.lock_upgradable (rwlock s));; enter (rwlock s) GUpgradable).
Definition bump (s : t) : lprog unit := change (rwlock s) GUpgradable GUpgradable (Raw.bump_upgradable (rwlock s)).
(** [try_upgrade], [try_upgrade_for] and [try_upgrade_until]. *)
Definition try_upgrade_with (p : iprog bool) (s : t) : lprog (RwLockWriteGuard.t + t) :=
  ok <- try_change (rwlock s) GUpgradable GExclusive p;;
  Ret (if ok : bool then inl (RwLockWriteGuard.Mk (rwlock s)) else inr s).
Definition upgrade (s : t) : lprog RwLockWriteGuard.t :=
  change (rwlock s) GUpgradable GExclusive (Raw.upgrade (rwlock s));;
  Ret (RwLockWriteGuard.Mk (rwlock s)).
Definition try_upgrade (s : t) : lprog (RwLockWriteGuard.t + t) :=
  try_upgrade_with (Raw.try_upgrade (rwlock s)) s.
Definition try_upgrade_for (s : t) (timeout : Z) : lprog (RwLockWriteGuard.t + t) :=
  try_upgrade_with (Raw.try_upgrade_for (rwlock s) timeout) s.
Definition try_upgrade_until (s : t) (timeout : Z) : lprog (RwLockWriteGuard.t + t) :=
  try_upgrade_with (Raw.try_upgrade_until (rwlock s) timeout) s.
Definition downgrade (s : t) : lprog RwLockReadGuard.t :=
  change (rwlock s) GUpgradable GShared (Raw.downgrade_upgradable (rwlock s));;
  Ret (RwLockReadGuard.Mk (rwlock s)).
(** The lock is downgraded again when [f] is done. *)
Definition restored {R : Type} (s : t) (f : loc → lprog (outcome R)) : lprog (outcome R) :=
  deferred (f (deref s))
    (change (rwlock s) GExclusive GUpgradable (Raw.downgrade_to_upgradable (rwlock s))).
Definition with_upgraded {R : Type} (s : t) (f : loc → lprog (outcome R)) : lprog (outcome R) :=
  change (rwlock s) GUpgradable GExclusive (Raw.upgrade (rwlock s));;
  restored s f.
(** [try_with_upgraded], [try_with_upgraded_for] and [try_with_upgraded_until]. *)
Definition try_with (p : iprog bool) {R : Type} (s : t) (f : loc → lprog (outcome R))
    : lprog (outcome (option R)) :=
  ok <- try_change (rwlock s) GUpgradable GExclusive p;;
  if ok : bool then consume (restored s f) (Ret tt) Some else Ret (Done None).
Definition try_with_upgraded {R : Type} (s : t) (f : loc → lprog (outcome R)) :=
  try_with (Raw.try_upgrade (rwlock s)) s f.
Definition try_with_upgraded_for {R : Type} (s : t) (timeout : Z) (f : loc → lprog (outcome R)) :=
  try_with (Raw.try_upgrade_for (rwlock s) timeout) s f.
Definition try_with_upgraded_until {R : Type} (s : t) (timeout : Z) (f : loc → lprog (outcome R)) :=
  try_with (Raw.try_upgrade_until (rwlock s) timeout) s f.
End guard.
End RwLockUpgradableReadGuard.

Module RwLock.
Section rwlock.
Context `{!Raw.RwLock, !Raw.RwLockFair, !Raw.RwLockTimed, !Raw.RwLockRecursive,
  !Raw.RwLockRecursiveTimed, !Raw.RwLockUpgrade, !Raw.RwLockUpgradeTimed}.

Definition make_read_guard_unchecked (a : Z) : lprog RwLockReadGuard.t :=
  enter a GShared;; Ret (RwLockReadGuard.Mk a).
Definition make_write_guard_unchecked (a : Z) : lprog RwLockWriteGuard.t :=
  enter a GExclusive;; Ret (RwLockWriteGuard.Mk a).
Definition make_upgradable_guard_unchecked (a : Z) : lprog RwLockUpgradableReadGuard.t :=
  enter a GUpgradable;; Ret (MkUpgradable a).

Definition read (a : Z) : lprog RwLockReadGuard.t :=
  lift (Raw.lock_shared a);; make_read_guard_unchecked a.
Definition try_read (a : Z) : lprog (option RwLockReadGuard.t) :=
  acquire_if (Raw.try_lock_shared a) (make_read_guard_unchecked a).
Definition write (a : Z) : lprog RwLockWriteGuard.t :=
  lift (Raw.lock_exclusive a);; make_write_guard_unchecked a.
Definition try_write (a : Z) : lprog (option RwLockWriteGuard.t) :=
  acquire_if (Raw.try_lock_exclusive a) (make_write_guard_unchecked a).
Definition is_locked (a : Z) : lprog bool := lift (Raw.rw_is_locked a).
Definition is_locked_exclusive (a : Z) : lprog bool := lift (Raw.is_locked_exclusive a).
Definition force_unlock_read (a : Z) : lprog unit := leave a GShared (Raw.unlock_shared a).
Definition force_unlock_write (a : Z) : lprog unit := leave a GExclusive (Raw.unlock_exclusive a).
Definition force_unlock_read_fair (a : Z) : lprog unit := leave a GShared (Raw.unlock_shared_fair a).
Definition force_unlock_write_fair (a : Z) : lprog unit :=
  leave a GExclusive (Raw.unlock_exclusive_fair a).
Definition try_read_for (a timeout : Z) : lprog (option RwLockReadGuard.t) :=
  acquire_if (Raw.try_lock_shared_for a timeout) (make_read_guard_unchecked a).
Definition try_read_until (a timeout : Z) : lprog (option RwLockReadGuard.t) :=
  acquire_if (Raw.try_lock_shared_until a timeout) (make_read_guard_unchecked a).
Definition try_write_for (a timeout : Z) : lprog (option RwLockWriteGuard.t) :=
  acquire_if (Raw.try_lock_exclusive_for a timeout) (make_write_guard_unchecked a).
Definition try_write_until (a timeout : Z) : lprog (option RwLockWriteGuard.t) :=
  acquire_if (Raw.try_lock_exclusive_until a timeout) (make_write_guard_unchecked a).
Definition read_recursive (a : Z) : lprog RwLockReadGuard.t :=
  lift (Raw.lock_shared_recursive a);; make_read_guard_unchecked a.
Definition try_read_recursive (a : Z) : lprog (option RwLockReadGuard.t) :=
  acquire_if (Raw.try_lock_shared_recursive a) (make_read_guard_unchecked a).
Definition try_read_recursive_for (a timeout : Z) : lprog (option RwLockReadGuard.t) :=
  acquire_if (Raw.try_lock_shared_recursive_for a timeout) (make_read_guard_unchecked a).
Definition try_read_recursive_until (a timeout : Z) : lprog (option RwLockReadGuard.t) :=
  acquire_if (Raw.try_lock_shared_recursive_until a timeout) (make_read_guard_unchecked a).
Definition upgradable_read (a : Z) : lprog RwLockUpgradableReadGuard.t :=
  lift (Raw.lock_upgradable a);; make_upgradable_guard_unchecked a.
Definition try_upgradable_read (a : Z) : lprog (option RwLockUpgradableReadGuard.t) :=
  acquire_if (Raw.try_lock_upgradable a) (make_upgradable_guard_unchecked a).
Definition try_upgradable_read_for (a timeout : Z) : lprog (option RwLockUpgradableReadGuard.t) :=
  acquire_if (Raw.try_lock_upgradable_for a timeout) (make_upgradable_guard_unchecked a).
Definition try_upgradable_read_until (a timeout : Z) : lprog (option RwLockUpgradableReadGuard.t) :=
  acquire_if (Raw.try_lock_upgradable_until a timeout) (make_upgradable_guard_unchecked a).
End rwlock.
End RwLock.
