(* ===== verification/LockApiLogic.v ===== *)
(** * The logic of lock_api

    What lock_api asks of a raw lock is the interface [LockLogic]: an invariant
    of the machine of the raw lock under which at most one writer or any number
    of readers have a guard, and rules for the registration of guards; the
    rules for the operations are in the interfaces of the files that use them.
    From the invariant of the raw lock follows one of the machine with data, in
    which every access is backed by a guard: there are no data races. *)

From Stdlib Require Import FunctionalExtensionality.
From S2P Require Import Prelude Conc LotTypes FairTimeout BucketQueue ParkingLot LotInv LockApi.
Local Open Scope Z_scope.

Class LockLogic := {
  lk_ghost : Type;
  lk_role : Type;
  lk_inv : state → lk_ghost → (tid → lk_role) → Prop;
  lk_panic : string → lk_role → Prop;
  lk_blocked : tid → lk_role → state → Prop;
  (* the threads and locks there are *)
  lk_thread : tid → Prop;
  lk_lock : Z → Prop;
  (* a thread between two operations that has the guards [l], with [m] more
     acquisitions to make; it may hold one lock more, for which it has no guard *)
  has : list (Z * guard) → nat → lk_role → Prop;
  has_one : Z * guard → list (Z * guard) → nat → lk_role → Prop;
  has_perm l l' m r : l ≡ₚ l' → has l m r → has l' m r;
  has_one_perm x l l' m r : l ≡ₚ l' → has_one x l m r → has_one x l' m r;
  has_less l m r : has l (S m) r → has l m r;
  lk_live s g ρ t l m x : lk_inv s g ρ → has l m (ρ t) → (t, x.2) ∈ live s x.1 ↔ x ∈ l;
  lk_compatible s g ρ a : lk_inv s g ρ → lk_lock a → compatible (live s a);
  lk_enter {A} t x l m r (k : unit → iprog A) Q :
    lk_thread t → has_one x l m r →
    (∀ r', has (x :: l) m r' → wp exec lk_inv lk_panic lk_blocked t (k tt) r' Q) →
    wp exec lk_inv lk_panic lk_blocked t (Act (AEnter x.1 x.2) k) r Q;
  lk_drop {A} t x l m r (k : unit → iprog A) Q :
    lk_thread t → has l m r → x ∈ l →
    (∀ r', has_one x (remove_first x l) m r' → wp exec lk_inv lk_panic lk_blocked t (k tt) r' Q) →
    wp exec lk_inv lk_panic lk_blocked t (Act (ADrop x.1 x.2) k) r Q;
}.

Abbreviation rawp := (wp exec lk_inv lk_panic lk_blocked).

(** ** The registry of guards *)

Definition registers (x : act) : bool :=
  match x with AEnter _ _ | AExit _ _ | ADrop _ _ => true | _ => false end.

(** A program that registers nothing. *)
Fixpoint quiet {A} (p : iprog A) : Prop :=
  match p with
  | Ret _ | Panic _ => True
  | Act x k => registers x = false ∧ ∀ v, quiet (k v)
  | Bind p k => quiet p ∧ ∀ x, quiet (k x)
  | Iter body x => ∀ x, quiet (body x)
  end.

Lemma live_should_timeout c b s : live (should_timeout c b s).2 = live s.
Proof. unfold should_timeout. by destruct (FairTimeout.should_timeout c (bfair s b)). Qed.

Lemma live_foldl (f : tid → state → ThreadData) ws s :
  live (foldl (λ s w, set_td w (f w s) s) s ws) = live s.
Proof. revert s. induction ws as [|w ws IH]; intros s; [done|]. cbn. by rewrite IH. Qed.

(** A step changes the registry only where it says so. *)
Lemma live_quiet t c x s s' v : exec t c x s = Some (s', v) → registers x = false → live s' = live s.
Proof.
  intros H Hx. destruct x; cbn in H; try done; repeat case_match; simplify_eq; try done;
    repeat match goal with
      | E : should_timeout ?c ?b ?s = (_, _) |- _ =>
          apply (f_equal (λ x, live x.2)) in E; cbn [snd] in E; rewrite live_should_timeout in E; rewrite <- E
      end; try done.
  all: cbn; try by rewrite (live_foldl (λ w s, MkTD k_to (td_unpark_token (td s w)) (td_park_token (td s w))
    (td_timed (td s w)) (td_parked (td s w)))).
Qed.

Lemma live_others t c x s s' v u a gd :
  exec t c x s = Some (s', v) → u ≠ t → (u, gd) ∈ live s' a ↔ (u, gd) ∈ live s a.
Proof.
  intros H Hu. destruct (registers x) eqn:E; [|by rewrite (live_quiet _ _ _ _ _ _ H E)].
  destruct x as [| | | | | | | | | | | | | | | | | | | | |a' g'|a' g'|a' g']; cbn in E; try done;
    cbn in H; simplify_eq; cbn; fn_cases a' a; try done.
  - rewrite elem_of_cons. split; [by intros [[=]|]|by right].
  - rewrite list_elem_of_filter. split; [by intros [_ ?]|]. intros ?. split; [|done]. by intros [=].
  - apply remove_first_ne. by intros [=].
Qed.

(** ** The machine with data *)

Section logic.
Context {L : LockLogic} (id : tid → Z) (panic_ok : string → Prop).
(* [GetThreadId]: the identifiers of threads are not zero and differ *)
Context (id_nonzero : ∀ t, id t ≠ 0) (id_inj : ∀ t u, id t = id u → t = u).

(** What a thread is doing: its role in the raw locks, the access it is in, the
    reentrant mutexes it holds, with whether it is their owner and their count,
    and the reentrant guards it has. *)
Record role := Role {
  rawr : lk_role;
  acc : option (loc * bool);
  ent : list (Z * (bool * nat));
  rgs : list Z;
}.

Implicit Types (s : lstate) (g : lk_ghost) (ρ : tid → role) (t u : tid) (r : role).

(** The guard that an access rests on. *)
Definition backed (s : state) t (x : loc * bool) : Prop :=
  match x.1 with
  | Data a _ => lk_lock a ∧ ∃ gd, (t, gd) ∈ live s a ∧ (x.2 = true → gd = GExclusive)
  | Count a => lk_lock a ∧ (t, GExclusive) ∈ live s a
  end.

(** Thread [t] has entry [(b, n)] for a reentrant mutex. *)
Definition entry_ok s t (e : Z * (bool * nat)) : Prop :=
  lk_lock e.1 ∧ (t, GExclusive) ∈ live (raw_st s) e.1 ∧
  owner s e.1 = (if e.2.1 then id t else 0) ∧ cell s (Count e.1) = Z.of_nat e.2.2.

(** Thread [t] has no more guards of a reentrant mutex than the count says, and
    is its owner if it has one. *)
Definition guards_ok r : Prop :=
  ∀ a, a ∈ rgs r → ∃ n, (a, (true, n)) ∈ ent r ∧ (times a (rgs r) ≤ n)%nat.

Record XInv s g ρ : Prop := {
  xi_raw : lk_inv (raw_st s) g (λ t, rawr (ρ t));
  xi_acc t x : (t, x) ∈ accesses s ↔ acc (ρ t) = Some x;
  xi_nodup : NoDup (accesses s);
  xi_back t x : acc (ρ t) = Some x → backed (raw_st s) t x;
  xi_raced : raced s = false;
  xi_ent t e : e ∈ ent (ρ t) → entry_ok s t e;
  xi_ent_nodup t : NoDup (ent (ρ t)).*1;
  xi_free a : (∀ t, a ∉ (ent (ρ t)).*1) → owner s a = 0 ∧ cell s (Count a) = 0;
  xi_rgs a t : times t (reentered s a) = times a (rgs (ρ t));
  xi_guards t : guards_ok (ρ t);
}.

Lemma exclusive_alone (l : list (tid * guard)) t u gd :
  compatible l → (t, GExclusive) ∈ l → (u, gd) ∈ l → u = t ∧ gd = GExclusive ∧ l = [(t, GExclusive)].
Proof.
  intros [[v ->]|[Hno _]] Ht Hu.
  - apply list_elem_of_singleton in Ht as [= ->]. by apply list_elem_of_singleton in Hu as [= -> ->].
  - destruct Hno. apply list_elem_of_fmap. by exists (t, GExclusive).
Qed.

Lemma ent_unique s g ρ t u a :
  XInv s g ρ → a ∈ (ent (ρ t)).*1 → a ∈ (ent (ρ u)).*1 → u = t.
Proof.
  intros HI (e & -> & He)%list_elem_of_fmap (e' & E & He')%list_elem_of_fmap.
  destruct (xi_ent _ _ _ HI _ _ He) as (Hl & Ht & _). destruct (xi_ent _ _ _ HI _ _ He') as (_ & Hu & _).
  rewrite <- E in Hu. eapply exclusive_alone; [|exact Ht|exact Hu].
  by eapply lk_compatible; [apply HI|].
Qed.

(** One step of thread [t]. *)
Lemma x_step s g ρ t s' g' r :
  XInv s g ρ → lk_inv (raw_st s') g' (λ u, rawr ((<[t := r]> ρ : tid → role) u)) →
  (∀ u a gd, u ≠ t → (u, gd) ∈ live (raw_st s) a → (u, gd) ∈ live (raw_st s') a) →
  (∀ u x, (u, x) ∈ accesses s' ↔ if decide (u = t) then acc r = Some x else (u, x) ∈ accesses s) →
  NoDup (accesses s') → raced s' = false → (∀ x, acc r = Some x → backed (raw_st s') t x) →
  (∀ e, e ∈ ent r → entry_ok s' t e) → NoDup (ent r).*1 →
  (∀ a, a ∉ (ent r).*1 →
     if decide (a ∈ (ent (ρ t)).*1) then owner s' a = 0 ∧ cell s' (Count a) = 0
     else owner s' a = owner s a ∧ cell s' (Count a) = cell s (Count a)) →
  (∀ a u, times u (reentered s' a) = if decide (u = t) then times a (rgs r) else times u (reentered s a)) →
  guards_ok r → XInv s' g' (<[t := r]> ρ).
Proof.
  intros HI Hraw Hlive Hacc Hnd Hraced Hback Hent Hnde Hfree Hrgs Hg.
  assert (Hoth : ∀ u e, u ≠ t → e ∈ ent (ρ u) → lk_lock e.1 ∧ (u, GExclusive) ∈ live (raw_st s') e.1 ∧
    e.1 ∉ (ent r).*1 ∧ e.1 ∉ (ent (ρ t)).*1).
  { intros u e Hu He. pose proof Hu as Hu'. destruct (xi_ent _ _ _ HI _ _ He) as (Hl & Hlv & _). split; [done|].
    split; [by apply Hlive|]. split.
    - intros (e' & E & He')%list_elem_of_fmap. destruct (Hent _ He') as (_ & Hlt & _). rewrite <- E in Hlt.
      destruct Hu. pose proof (Hlive _ _ _ Hu' Hlv) as Hlu.
      eapply exclusive_alone; [|exact Hlt|exact Hlu]. by eapply lk_compatible; [exact Hraw|].
    - intros Hin. destruct Hu. eapply (ent_unique s g ρ t u e.1); [done|done|].
      by apply list_elem_of_fmap_2. }
  split; [exact Hraw|..].
  - intros u x. rewrite Hacc. case_decide as Hu; [subst u; by fn_simp|]. fn_simp. apply (xi_acc _ _ _ HI).
  - done.
  - intros u x. fn_cases t u; [apply Hback|]. intros Hx%(xi_back _ _ _ HI). unfold backed in *.
    destruct x as [[a p|a] w]; cbn in *; destruct Hx as [Hl Hx]; (split; [done|]); [|by apply Hlive].
    destruct Hx as (gd & Hgd & Hw). exists gd. split; [by apply Hlive|done].
  - done.
  - intros u e. fn_cases t u; [apply Hent|]. intros He.
    destruct (Hoth u e ltac:(done) He) as (Hl & Hlv & H1 & H2).
    destruct (xi_ent _ _ _ HI _ _ He) as (_ & _ & Ho & Hc). pose proof (Hfree _ H1) as Hf.
    rewrite decide_False in Hf by done. destruct Hf as [Fo Fc].
    split; [done|]. split; [done|]. by rewrite Fo, Fc.
  - intros u. fn_cases t u; [done|apply (xi_ent_nodup _ _ _ HI)].
  - intros a Ha. pose proof (Ha t) as Hat. rewrite fn_insert_eq in Hat. pose proof (Hfree _ Hat) as Hf.
    case_decide as Hd; [done|]. destruct Hf as [-> ->]. apply (xi_free _ _ _ HI).
    intros u. pose proof (Ha u) as Hau. by fn_cases t u.
  - intros a u. rewrite Hrgs. case_decide as Hu; [subst u; by fn_simp|]. fn_simp. apply (xi_rgs _ _ _ HI).
  - intros u. fn_cases t u; [done|apply (xi_guards _ _ _ HI)].
Qed.

(** The data is what it is; no reentrant mutex is held. *)
Definition start_lstate (s : state) (d : loc → Z) : lstate :=
  MkL s (λ l, match l with Count _ => 0 | Data _ _ => d l end) [] false (λ _, 0) (λ _, []).

Lemma start_xinv (s : state) g (ρ : tid → lk_role) d :
  lk_inv s g ρ → XInv (start_lstate s d) g (λ t, Role (ρ t) None [] []).
Proof.
  intros HI. split; cbn; try done; [by intros; split; [intros ?%elem_of_nil|]|by constructor| |by constructor|].
  - intros t e He. by apply elem_of_nil in He.
  - intros t a Ha. by apply elem_of_nil in Ha.
Qed.

(** An access rests on a guard. *)
Lemma access_guard s g ρ t a p w :
  XInv s g ρ → (t, (Data a p, w)) ∈ accesses s →
  ∃ gd, (t, gd) ∈ live (raw_st s) a ∧ (w = true → gd = GExclusive).
Proof. intros HI Hx%(xi_acc _ _ _ HI)%(xi_back _ _ _ HI). apply Hx. Qed.

Definition xpanic (m : string) r : Prop := lk_panic m (rawr r) ∨ panic_ok m.
Definition xblocked t r s : Prop := lk_blocked t (rawr r) (raw_st s).
Abbreviation xwp := (wp lexec XInv xpanic xblocked).

Lemma rawr_insert ρ t r : (λ u, rawr ((<[t := r]> ρ : tid → role) u)) = <[t := rawr r]> (λ u, rawr (ρ u)).
Proof. extensionality u. by fn_cases t u. Qed.

(** A step of the raw lock; the reentrant mutexes of the thread change as the
    registry does. *)
Lemma x_raw s g ρ t c x (s1 : state) v g' (r1 r1' : lk_role) e e' G :
  XInv s g ρ → ρ t = Role r1 None e G → exec t c x (raw_st s) = Some (s1, v) →
  lk_inv s1 g' (<[t := r1']> (λ u, rawr (ρ u))) →
  (∀ x, x ∈ e' → entry_ok (set_raw s1 s) t x) → NoDup e'.*1 →
  (∀ a, a ∉ e'.*1 → a ∈ e.*1 → owner s a = 0 ∧ cell s (Count a) = 0) →
  guards_ok (Role r1' None e' G) →
  XInv (set_raw s1 s) g' (<[t := Role r1' None e' G]> ρ).
Proof.
  intros HI Hr Hex Hinv Hent Hnd Hout Hg.
  apply (x_step s g); cbn; rewrite ?Hr; cbn; try done.
  - by rewrite rawr_insert.
  - intros u a gd Hu. by rewrite (live_others _ _ _ _ _ _ _ _ _ Hex Hu).
  - intros u y. case_decide as Hu; [|done]. subst u. rewrite (xi_acc _ _ _ HI), Hr. done.
  - apply HI.
  - apply HI.
  - intros a Ha. case_decide; auto.
  - intros a u. case_decide as Hu; [|done]. subst u. by rewrite (xi_rgs _ _ _ HI), Hr.
Qed.

Lemma x_facts s g ρ t r :
  XInv s g ρ → ρ t = r →
  (∀ x, x ∈ ent r → entry_ok s t x) ∧ NoDup (ent r).*1 ∧ guards_ok r.
Proof. intros HI <-. split; [apply HI|]. split; apply HI. Qed.

(** The programs of a raw lock. *)
#[local] Transparent wp.
Lemma wp_lift {A} t (p : iprog A) (r1 : lk_role) e G (Q : A → lk_role → Prop) :
  e = [] ∨ quiet p → rawp t p r1 Q →
  xwp t (lift p) (Role r1 None e G) (λ a r, ∃ r1' : lk_role, r = Role r1' None e G ∧ Q a r1').
Proof.
  revert r1 Q.
  induction p as [A a|A m|A x k IH|A X p IHp k IHk|A X body IH x]; intros r1 Q Hqt Hp; cbn [lift wp] in *.
  - by exists r1.
  - left. exact Hp.
  - destruct Hp as [Hen Hst]. split.
    + intros s g ρ Hr HI. destruct (Hen (raw_st s) g (λ u, rawr (ρ u))) as [[c [[s1 v] E]]|Hb].
      * by rewrite Hr.
      * apply HI.
      * left. exists c. cbn. rewrite E. by eexists.
      * right. exact Hb.
    + intros s g ρ c s' v Hr HI Hex. cbn in Hex. destruct (exec t c x (raw_st s)) as [[s1 w]|] eqn:E; [|done].
      injection Hex as <- <-. destruct (x_facts _ _ _ _ _ HI Hr) as (F1 & F2 & F3).
      destruct (Hst (raw_st s) g (λ u, rawr (ρ u)) c s1 w) as (g' & r1' & HI' & Hk);
        [by rewrite Hr|apply HI|done|].
      exists g', (Role r1' None e G). split.
      * eapply (x_raw s g ρ t c x s1 w g' r1 r1' e e); try done.
        intros y Hy. destruct Hqt as [->|[Hq _]]; [by apply not_elem_of_nil in Hy|].
        destruct (F1 y Hy) as (Hl & Hlv & Ho). split; [done|]. cbn. by rewrite (live_quiet _ _ _ _ _ _ E Hq).
      * apply IH; [|done]. destruct Hqt as [->|[_ Hq]]; [by left|by right].
  - assert (H1 : e = [] ∨ quiet p) by (destruct Hqt as [->|[? _]]; auto).
    eapply wp_mono; [|by apply IHp]. intros y r (r1' & -> & Hy). apply IHk; [|exact Hy].
    destruct Hqt as [->|[_ ?]]; auto.
  - destruct Hp as (J & HJ & Hbody). exists (λ y r, ∃ r1' : lk_role, r = Role r1' None e G ∧ J y r1').
    split; [by exists r1|]. intros y r (r1' & -> & Hy).
    eapply wp_mono; [|apply IH; [|by apply Hbody]].
    + intros [z|a] r (r1'' & -> & Hz); by exists r1''.
    + destruct Hqt as [->|Hq]; auto.
Qed.
#[local] Opaque wp.

(** An action on which no invariant depends. *)
Lemma wp_inert {A} t (x : lact) (k : lresp x → lprog A) r (P : lresp x → Prop) Q :
  (∀ s, ∃ v, lexec t 0 x s = Some (s, v)) →
  (∀ s g ρ c s' v, XInv s g ρ → ρ t = r → lexec t c x s = Some (s', v) → s' = s ∧ P v) →
  (∀ v, P v → xwp t (k v) r Q) → xwp t (Act x k) r Q.
Proof.
  intros Hen Hsame Hk. apply wp_act.
  - intros s g ρ _ _. left. exists 0. destruct (Hen s) as [v ->]. by eexists.
  - intros s g ρ c s' v Hr HI Hex. destruct (Hsame s g ρ c s' v HI Hr Hex) as [-> HP].
    exists g, r. split; [|by apply Hk]. destruct (x_facts _ _ _ _ _ HI Hr) as (F1 & F2 & F3).
    apply (x_step s g); rewrite ?Hr; try done; try apply HI.
    + rewrite rawr_insert, <- Hr. replace (<[t := _]> _) with (λ u, rawr (ρ u)); [apply HI|].
      extensionality u. by fn_cases t u.
    + intros u y. case_decide as Hu; [|done]. subst u. by rewrite (xi_acc _ _ _ HI), Hr.
    + intros y Hy. apply (xi_back _ _ _ HI). by rewrite Hr.
    + intros a Ha. by rewrite decide_False.
    + intros a u. case_decide as Hu; [|done]. subst u. by rewrite (xi_rgs _ _ _ HI), Hr.
Qed.

(** An action on the registry, after which the thread has other entries. *)
#[local] Transparent wp.
Lemma wp_registry {A} t (x : act) (k : resp x → lprog A) (r1 : lk_role) e e' G (Q1 : resp x → lk_role → Prop) Q :
  rawp t (Act x Ret) r1 Q1 →
  (∀ s g ρ c (s1 : state) v g' (r1' : lk_role), XInv s g ρ → ρ t = Role r1 None e G →
     exec t c x (raw_st s) = Some (s1, v) → lk_inv s1 g' (<[t := r1']> (λ u, rawr (ρ u))) → Q1 v r1' →
     (∀ y, y ∈ e' → entry_ok (set_raw s1 s) t y) ∧ NoDup e'.*1 ∧
     (∀ a, a ∉ e'.*1 → a ∈ e.*1 → owner s a = 0 ∧ cell s (Count a) = 0) ∧ guards_ok (Role r1' None e' G)) →
  (∀ v (r1' : lk_role), Q1 v r1' → xwp t (k v) (Role r1' None e' G) Q) →
  xwp t (Act (LRaw x) k) (Role r1 None e G) Q.
Proof.
  cbn [wp]. intros [Hen Hst] Hcond Hk. split.
  - intros s g ρ Hr HI. destruct (Hen (raw_st s) g (λ u, rawr (ρ u))) as [[c [[s1 v] E]]|Hb].
    + by rewrite Hr.
    + apply HI.
    + left. exists c. cbn. rewrite E. by eexists.
    + right. exact Hb.
  - intros s g ρ c s' v Hr HI Hex. cbn in Hex. destruct (exec t c x (raw_st s)) as [[s1 w]|] eqn:E; [|done].
    injection Hex as <- <-.
    destruct (Hst (raw_st s) g (λ u, rawr (ρ u)) c s1 w) as (g' & r1' & HI' & HQ); [by rewrite Hr|apply HI|done|].
    destruct (Hcond s g ρ c s1 w g' r1' HI Hr E HI' HQ) as (C1 & C2 & C3 & C4).
    exists g', (Role r1' None e' G). split; [by eapply (x_raw s g ρ t c x s1 w g' r1 r1' e e')|by apply Hk].
Qed.
#[local] Opaque wp.

(** ** Accesses *)

Lemma no_conflict s g ρ t x :
  XInv s g ρ → backed (raw_st s) t x → existsb (conflicts t x) (accesses s) = false.
Proof.
  intros HI Hb. apply not_true_is_false. intros ([u y] & Hy & Hc)%existsb_exists.
  apply list_elem_of_In, (xi_acc _ _ _ HI), (xi_back _ _ _ HI) in Hy. unfold conflicts in Hc. cbn in Hc.
  apply andb_prop in Hc as [[Hu Hbase]%andb_prop Hw]. apply bool_decide_eq_true in Hu, Hbase.
  destruct x as [[a p|a] w], y as [[a' p'|a'] w']; cbn in *; try done; injection Hbase as <-.
  - destruct Hb as (Hl & gd & Hgd & Hex), Hy as (_ & gd' & Hgd' & Hex').
    pose proof (lk_compatible _ _ _ a (xi_raw _ _ _ HI) Hl) as Hcomp.
    destruct w, w'; try done.
    + rewrite Hex in Hgd by done. by destruct (exclusive_alone _ _ _ _ Hcomp Hgd Hgd').
    + rewrite Hex in Hgd by done. by destruct (exclusive_alone _ _ _ _ Hcomp Hgd Hgd').
    + rewrite Hex' in Hgd' by done. by destruct (exclusive_alone _ _ _ _ Hcomp Hgd' Hgd).
  - destruct Hb as (Hl & Hgd), Hy as (_ & Hgd').
    by destruct (exclusive_alone _ _ _ _ (lk_compatible _ _ _ a (xi_raw _ _ _ HI) Hl) Hgd Hgd').
Qed.

(** A step that concerns the accesses of the thread, or its reentrant mutexes. *)
Lemma x_data s g ρ t s' (r1 : lk_role) ac e G ac' e' G' :
  XInv s g ρ → ρ t = Role r1 ac e G → raw_st s' = raw_st s →
  (∀ u x, (u, x) ∈ accesses s' ↔ if decide (u = t) then ac' = Some x else (u, x) ∈ accesses s) →
  NoDup (accesses s') → raced s' = false → (∀ x, ac' = Some x → backed (raw_st s) t x) →
  (∀ x, x ∈ e' → entry_ok s' t x) → NoDup e'.*1 →
  (∀ a, a ∉ e'.*1 →
     if decide (a ∈ e.*1) then owner s' a = 0 ∧ cell s' (Count a) = 0
     else owner s' a = owner s a ∧ cell s' (Count a) = cell s (Count a)) →
  (∀ a u, times u (reentered s' a) = if decide (u = t) then times a G' else times u (reentered s a)) →
  guards_ok (Role r1 ac' e' G') → XInv s' g (<[t := Role r1 ac' e' G']> ρ).
Proof.
  intros HI Hr Eraw Hacc Hnd Hraced Hb He Hnde Hfree Hg Hok.
  apply (x_step s g); rewrite ?Eraw, ?Hr; try done.
  rewrite rawr_insert. replace (<[t := _]> _) with (λ u, rawr (ρ u)); [apply HI|].
  extensionality u. by fn_cases t u; rewrite ?Hr.
Qed.

Lemma acc_none s g ρ t r : XInv s g ρ → ρ t = r → acc r = None → ∀ x, (t, x) ∉ accesses s.
Proof. intros HI Hr Hn x Hx%(xi_acc _ _ _ HI). congruence. Qed.

Lemma wp_begin {A} t l w (k : unit → lprog A) (r1 : lk_role) e G Q :
  (∀ s g ρ, XInv s g ρ → ρ t = Role r1 None e G → backed (raw_st s) t (l, w)) →
  xwp t (k tt) (Role r1 (Some (l, w)) e G) Q → xwp t (Act (LBegin l w) k) (Role r1 None e G) Q.
Proof.
  intros Hb Hk. apply wp_act; [intros; left; exists 0; by eexists|].
  intros s g ρ c s' v Hr HI Hex. cbn in Hex. injection Hex as <- <-.
  exists g, (Role r1 (Some (l, w)) e G). split; [|done].
  destruct (x_facts _ _ _ _ _ HI Hr) as (F1 & F2 & F3). specialize (Hb _ _ _ HI Hr).
  pose proof (acc_none _ _ _ _ _ HI Hr eq_refl) as Hno.
  apply (x_data s g ρ t _ r1 None e G); try done; cbn.
  - intros u x. rewrite elem_of_cons. case_decide as Hu.
    + subst u. split; [by intros [[= ->]|?%Hno]|]. intros [= ->]. by left.
    + split; [by intros [[=]|?]|by right].
  - apply NoDup_cons. split; [apply Hno|apply HI].
  - rewrite (xi_raced _ _ _ HI). by apply (no_conflict s g ρ).
  - by intros x [= <-].
  - intros a Ha. by rewrite decide_False.
  - intros a u. case_decide as Hu; [|done]. subst u. by rewrite (xi_rgs _ _ _ HI), Hr.
Qed.

Lemma wp_end {A} t l w (k : unit → lprog A) (r1 : lk_role) e G Q :
  xwp t (k tt) (Role r1 None e G) Q → xwp t (Act (LEnd l w) k) (Role r1 (Some (l, w)) e G) Q.
Proof.
  intros Hk. apply wp_act; [intros; left; exists 0; by eexists|].
  intros s g ρ c s' v Hr HI Hex. cbn in Hex. injection Hex as <- <-.
  exists g, (Role r1 None e G). split; [|done].
  destruct (x_facts _ _ _ _ _ HI Hr) as (F1 & F2 & F3).
  destruct (remove_first_NoDup (t, (l, w)) _ (xi_nodup _ _ _ HI)) as [N1 N2].
  apply (x_data s g ρ t _ r1 (Some (l, w)) e G); try done; cbn.
  - intros u x. case_decide as Hu.
    + subst u. split; [|done]. intros Hx. exfalso.
      assert (x = (l, w)) as ->; [|done].
      assert (Hx' : (t, x) ∈ accesses s).
      { destruct (decide (x = (l, w))) as [->|Hne]; [done|]. by apply remove_first_ne in Hx; [|congruence]. }
      apply (xi_acc _ _ _ HI) in Hx'. rewrite Hr in Hx'. by injection Hx'.
    + apply remove_first_ne. congruence.
  - rewrite (xi_raced _ _ _ HI). done.
  - intros a Ha. by rewrite decide_False.
  - intros a u. case_decide as Hu; [|done]. subst u. by rewrite (xi_rgs _ _ _ HI), Hr.
Qed.

Lemma wp_read {A} t l (k : Z → lprog A) r Q :
  (∀ v, xwp t (k v) r Q) → xwp t (Act (LRead l) k) r Q.
Proof.
  intros Hk. apply (wp_inert t (LRead l) _ _ (λ _, True)); [by eexists| |auto].
  intros s g ρ c s' v _ _ E. by injection E as <- <-.
Qed.

(** Writing data. *)
Lemma wp_write {A} t a p v (k : unit → lprog A) r Q :
  xwp t (k tt) r Q → xwp t (Act (LWrite (Data a p) v) k) r Q.
Proof.
  intros Hk. apply wp_act; [intros; left; exists 0; by eexists|].
  intros s g ρ c s' w Hr HI Hex. cbn in Hex. injection Hex as <- <-.
  exists g, r. split; [|done]. destruct (x_facts _ _ _ _ _ HI Hr) as (F1 & F2 & F3).
  destruct r as [r1 ac e G].
  apply (x_data s g ρ t _ r1 ac e G); try done; cbn; try apply HI.
  - intros u x. case_decide as Hu; [|done]. subst u. by rewrite (xi_acc _ _ _ HI), Hr.
  - intros x Hx. apply (xi_back _ _ _ HI). by rewrite Hr.
  - intros a' Ha. by rewrite decide_False.
  - intros a' u. case_decide as Hu; [|done]. subst u. by rewrite (xi_rgs _ _ _ HI), Hr.
Qed.

(** A thread that has a guard may access what it protects. *)
Lemma guard_backs t l m (r1 : lk_role) e G x w p :
  has l m r1 → lk_lock x.1 → x ∈ l → (w = true → x.2 = GExclusive) →
  ∀ s g ρ, XInv s g ρ → ρ t = Role r1 None e G → backed (raw_st s) t (Data x.1 p, w).
Proof.
  intros Hl Ha Hx Hw s g ρ HI Hr. split; [done|]. exists x.2. split; [|done].
  eapply (lk_live (raw_st s) g (λ u, rawr (ρ u))); [apply HI|rewrite Hr; exact Hl|done].
Qed.

Lemma wp_read_data t l m (r1 : lk_role) e G x p (Q : Z → role → Prop) :
  has l m r1 → lk_lock x.1 → x ∈ l → (∀ v, Q v (Role r1 None e G)) →
  xwp t (read_at (Data x.1 p)) (Role r1 None e G) Q.
Proof.
  intros Hl Ha Hx HQ. unfold read_at, access. wp_pure. apply wp_begin; [by eapply guard_backs|].
  wp_pure. apply wp_read. intros v. wp_pure. apply wp_end. by wp_pure.
Qed.

Lemma wp_write_data t l m (r1 : lk_role) e G a p v (Q : unit → role → Prop) :
  has l m r1 → lk_lock a → (a, GExclusive) ∈ l → Q tt (Role r1 None e G) →
  xwp t (write_at (Data a p) v) (Role r1 None e G) Q.
Proof.
  intros Hl Ha Hx HQ. unfold write_at, access. wp_pure.
  apply wp_begin; [by eapply (guard_backs t l m r1 e G (a, GExclusive))|].
  wp_pure. apply wp_write. wp_pure. apply wp_end. by wp_pure.
Qed.

(** A guard is made, or given up to call the raw lock. *)
Lemma wp_enter_one t x l m (r1 : lk_role) (Q : unit → role → Prop) :
  lk_thread t → has_one x l m r1 → (∀ r' : lk_role, has (x :: l) m r' → Q tt (Role r' None [] [])) →
  xwp t (enter x.1 x.2) (Role r1 None [] []) Q.
Proof.
  intros Ht Hr HQ. unfold enter.
  eapply wp_mono; [|apply (wp_lift t (Act (AEnter x.1 x.2) Ret) r1 [] [] (λ _ (r' : lk_role), has (x :: l) m r'))].
  - intros [] ? (r' & -> & Hr'). by apply HQ.
  - by left.
  - eapply lk_enter; [done|exact Hr|]. intros r' Hr'. by apply wp_ret.
Qed.

Lemma wp_leave_one {A} t x l l' m (p : iprog A) (r1 : lk_role) (Q' : A → lk_role → Prop) (Q : A → role → Prop) :
  lk_thread t → has l m r1 → l ≡ₚ x :: l' → (∀ r' : lk_role, has_one x l' m r' → rawp t p r' Q') →
  (∀ y (r' : lk_role), Q' y r' → Q y (Role r' None [] [])) → xwp t (leave x.1 x.2 p) (Role r1 None [] []) Q.
Proof.
  intros Ht Hr E Hp HQ. apply (has_perm _ _ _ _ E) in Hr. unfold leave.
  eapply wp_mono; [|apply (wp_lift t (Act (ADrop x.1 x.2) (λ _, p)) r1 [] [] Q')].
  - intros y ? (r' & -> & Hy). by apply HQ.
  - by left.
  - eapply lk_drop; [done|exact Hr|by left|]. intros r' Hr'. apply Hp.
    eapply has_one_perm; [|exact Hr']. cbn. by rewrite decide_True.
Qed.

Lemma wp_raw {A} t (p : iprog A) (r1 : lk_role) (Q' : A → lk_role → Prop) (Q : A → role → Prop) :
  rawp t p r1 Q' → (∀ y (r' : lk_role), Q' y r' → Q y (Role r' None [] [])) → xwp t (lift p) (Role r1 None [] []) Q.
Proof.
  intros Hp HQ. eapply wp_mono; [|apply (wp_lift t p r1 [] [] Q'); [by left|exact Hp]].
  intros y ? (r' & -> & Hy). by apply HQ.
Qed.

Lemma has_le l m m' (r1 : lk_role) : (m ≤ m')%nat → has l m' r1 → has l m r1.
Proof. induction 1 as [|m' _ IH]; [done|]. intros H. by apply IH, has_less. Qed.
End logic.
