(* ===== verification/GuardClients.v ===== *)
(** * Programs with guards

    What the clients of lock_api's mutex and of its read-write lock have in
    common.  A client is a list of commands; it has a list of guards, which a
    command finds by their index; closures are lists of commands whose guards
    are dropped when they are done, also when they unwind, and that can access
    the guards of the functions around them.  A command may panic: then the
    function unwinds and drops its guards. *)

From S2P Require Import Prelude Conc LotTypes BucketQueue ParkingLot LotInv LockApi LockApiLogic.
Local Open Scope Z_scope.
Local Open Scope prog_scope.

(** A type of guards: what they stand for, the lock they belong to, what they
    point to, and their destructor. *)
Class GuardVal (V : Type) := {
  gkind : V → guard;
  glock : V → Z;
  gpointer : V → loc;
  gdrop : V → lprog unit;
}.

(** ** The programs *)

Section programs.
Context {V C : Type} {GV : GuardVal V}.

Fixpoint drop_all (own : list V) : lprog unit :=
  match own with [] => Ret tt | v :: own => gdrop v;; drop_all own end.

(** The closure of a map: it writes through its reference, or reads if that is
    all the guard allows, and then panics or returns what [k] makes of it. *)
Definition mapper {X} (v : V) (x : Z) (k : loc → X) (panics : bool) (l : loc) : lprog (outcome X) :=
  (if decide (gkind v = GExclusive) then write_at l x else read_at l;; Ret tt);;
  Ret (if panics then Unwind else Done (k l)).

(** The result of a command: whether it panics, and the guards left. *)
Abbreviation result := (bool * list V)%type.

Definition push {G} (own : list V) (f : G → V) (p : lprog (option G)) : lprog result :=
  o <- p;; Ret (false, match o with Some g => f g :: own | None => own end).

(** What becomes of guard [i], after a map that may have unwound. *)
Definition mapped {X} (own : list V) (i : nat) (p : lprog (outcome X)) (f : X → V) : lprog result :=
  r <- p;;
  Ret (match r with Done x => (false, <[i := f x]> own) | Unwind => (true, delete i own) end).

Definition unwound {A} (r : outcome A) : bool := match r with Done _ => false | Unwind => true end.

Section run.
Context (run_cmd : C → list V → list V → lprog result).
Fixpoint run_with (cs : list C) (outer own : list V) {struct cs} : lprog result :=
  match cs with
  | [] => Ret (false, own)
  | c :: cs =>
      r <- run_cmd c outer own;;
      if r.1 : bool then Ret r else run_with cs outer r.2
  end.
End run.

(** A closure of commands, with what it returns. *)
Definition closure (p : lprog result) : lprog (outcome unit) :=
  r <- p;; drop_all r.2;; Ret (if r.1 : bool then Unwind else Done tt).
End programs.

(** ** Rules that need little of the locks

    [has_guards vs m] says that a thread is between two operations, has the
    guards [vs] and [m] acquisitions to make.  Guards can be dropped, accessed,
    and replaced by guards of the same lock. *)

Section generic.
Context {V : Type} {GV : GuardVal V} {ghost role : Type}.
Context (Inv : lstate → ghost → (tid → role) → Prop) (panic_ok : string → role → Prop)
  (blocked : tid → role → lstate → Prop) (t : tid).
Context (has_guards : list V → nat → role → Prop) (good : V → Prop).
Abbreviation gwp := (wp lexec Inv panic_ok blocked t).

Context (guards_perm : ∀ vs vs' m r, vs ≡ₚ vs' → has_guards vs m r → has_guards vs' m r).
Context (guards_le : ∀ vs m m' r, (m ≤ m')%nat → has_guards vs m' r → has_guards vs m r).
Context (guards_replace : ∀ v v' vs m r, glock v' = glock v → gkind v' = gkind v → good v' →
  has_guards (v :: vs) m r → has_guards (v' :: vs) m r).
Context (guards_drop : ∀ v vs m r (Q : unit → role → Prop),
  has_guards (v :: vs) m r → (∀ r', has_guards vs m r' → Q tt r') → gwp (gdrop v) r Q).
Context (guards_read : ∀ v vs m r (Q : Z → role → Prop),
  v ∈ vs → has_guards vs m r → (∀ x r', has_guards vs m r' → Q x r') → gwp (read_at (gpointer v)) r Q).
Context (guards_write : ∀ v vs x m r (Q : unit → role → Prop),
  v ∈ vs → gkind v = GExclusive → has_guards vs m r → (∀ r', has_guards vs m r' → Q tt r') →
  gwp (write_at (gpointer v) x) r Q).

Lemma delete_perm (own outer : list V) i v : own !! i = Some v → own ++ outer ≡ₚ v :: delete i own ++ outer.
Proof. intros H. by rewrite (delete_Permutation own i v H) at 1. Qed.

Lemma in_guards (own outer : list V) i v : own !! i = Some v → v ∈ own ++ outer.
Proof. intros H. apply elem_of_app. left. by eapply list_elem_of_lookup_2. Qed.

Lemma insert_perm (own outer : list V) i v v' :
  own !! i = Some v → <[i := v']> own ++ outer ≡ₚ v' :: delete i own ++ outer.
Proof.
  intros Hi. rewrite <- (delete_insert_same own i v').
  apply delete_perm, list_lookup_insert_eq. by eapply lookup_lt_Some.
Qed.

Lemma guards_drop_all own outer m r (Q : unit → role → Prop) :
  has_guards (own ++ outer) m r → (∀ r', has_guards outer m r' → Q tt r') → gwp (drop_all own) r Q.
Proof.
  revert r. induction own as [|v own IH]; intros r Hr HQ; cbn [drop_all]; [apply wp_ret; by apply HQ|].
  wp_pure. eapply (guards_drop v (own ++ outer)); [exact Hr|]. intros r' Hr'. by apply IH.
Qed.

(** A program that uses up at most [k] acquisitions. *)
Definition guards_run (k : nat) (p : list V → list V → lprog (bool * list V)) : Prop :=
  ∀ outer own m r (Q : bool * list V → role → Prop),
    has_guards (own ++ outer) (k + m) r → (∀ b own' r', has_guards (own' ++ outer) m r' → Q (b, own') r') →
    gwp (p outer own) r Q.

Section commands.
Context {C : Type} (run_cmd : C → list V → list V → lprog (bool * list V)) (cost : C → nat).

Definition total (cs : list C) : nat := foldr (λ c k, cost c + k)%nat 0%nat cs.

Lemma guards_run_with cs :
  Forall (λ c, guards_run (cost c) (run_cmd c)) cs → guards_run (total cs) (run_with run_cmd cs).
Proof.
  induction 1 as [|c cs Hc _ IH]; intros outer own m r Q Hr HQ; cbn [run_with]; [apply wp_ret; by apply HQ|].
  wp_pure. cbn in Hr. rewrite <- Nat.add_assoc in Hr. apply (Hc _ _ (total cs + m)%nat); [done|].
  intros [] own' r' Hr'; wp_pure; [|by apply (IH _ _ m)].
  apply HQ. by apply (guards_le _ _ (total cs + m)); [lia|].
Qed.

Lemma guards_closure cs vs m r (Q : outcome unit → role → Prop) :
  Forall (λ c, guards_run (cost c) (run_cmd c)) cs → has_guards vs (total cs + m) r →
  (∀ o r', has_guards vs m r' → Q o r') → gwp (closure (run_with run_cmd cs vs [])) r Q.
Proof.
  intros Hb Hr HQ. unfold closure. wp_pure. eapply guards_run_with; [done|exact Hr|]. intros b own' r' Hr'.
  wp_pure. apply (guards_drop_all _ _ _ _ _ Hr'). intros r'' Hr''. wp_pure. by apply HQ.
Qed.
End commands.

Lemma guards_mapper {X} vs v x (k : loc → X) p m r (Q : outcome X → role → Prop) :
  v ∈ vs → has_guards vs m r →
  (∀ r', has_guards vs m r' → Q (if p : bool then Unwind else Done (k (gpointer v))) r') →
  gwp (mapper v x k p (gpointer v)) r Q.
Proof.
  intros Hin Hr HQ. unfold mapper. wp_pure. case_decide as Hk.
  - apply (guards_write v vs x m); [done..|]. intros r' Hr'. wp_pure. by apply HQ.
  - wp_pure. apply (guards_read v vs m); [done..|]. intros y r' Hr'. wp_pure. by apply HQ.
Qed.

Lemma guards_mapped {X Y} own outer i v x (k : loc → X) p (g : X → Y) (f : Y → V) m r
    (Q : bool * list V → role → Prop) :
  let v' := f (g (k (gpointer v))) in
  own !! i = Some v → has_guards (own ++ outer) m r → glock v' = glock v → gkind v' = gkind v → good v' →
  (∀ b own' r', has_guards (own' ++ outer) m r' → Q (b, own') r') →
  gwp (mapped own i (consume (mapper v x k p (gpointer v)) (gdrop v) g) f) r Q.
Proof.
  intros v' Hi Hr El Ek Hv HQ. unfold mapped, consume. wp_pure.
  apply (guards_mapper (own ++ outer) v x k p m); [by eapply in_guards|done|]. intros r1 Hr1.
  apply (guards_perm _ _ _ _ (delete_perm own outer i v Hi)) in Hr1. destruct p; wp_pure.
  - apply (guards_drop v (delete i own ++ outer) m); [done|]. intros r2 Hr2. wp_pure. by apply HQ.
  - apply HQ. eapply guards_perm; [symmetry; by eapply insert_perm|]. by apply (guards_replace v).
Qed.
End generic.

(** ** What a thread with guards has *)

Section logic.
Context {V : Type} {GV : GuardVal V} {L : LockLogic}.
Context (id : tid → Z) (t : tid) (Ht : lk_thread t).
Implicit Types (own outer vs : list V) (v : V) (r : lk_role) (m k : nat).

Abbreviation xwp := (wp lexec (XInv id) (xpanic (λ _, False)) xblocked t).
Abbreviation R r := (Role r None [] []).

Definition key v : Z * guard := (glock v, gkind v).
Definition keys vs : list (Z * guard) := key <$> vs.

Lemma keys_locks vs : (keys vs).*1 = glock <$> vs.
Proof. unfold keys. by rewrite <- list_fmap_compose. Qed.

(** A guard points into what its lock protects. *)
Definition points v : Prop := lk_lock (glock v) ∧ ∃ p, gpointer v = Data (glock v) p.

(** The guards [vs], and [m] acquisitions to make; and one lock more. *)
Definition holds vs m r : Prop := has (keys vs) m r ∧ Forall points vs.
Definition holds_one x vs m r : Prop := has_one x (keys vs) m r ∧ Forall points vs.

Lemma holds_perm vs vs' m r : vs ≡ₚ vs' → holds vs m r → holds vs' m r.
Proof.
  intros E (H1 & H2). split; [|by rewrite <- E]. eapply has_perm; [|done]. unfold keys. by rewrite E.
Qed.

Lemma holds_le vs m m' r : (m ≤ m')%nat → holds vs m' r → holds vs m r.
Proof. intros Hm [H1 H2]. split; [by eapply has_le|done]. Qed.

Lemma wp_enter_guard v vs m r (Q : unit → role → Prop) :
  points v → holds_one (key v) vs m r → (∀ r', holds (v :: vs) m r' → Q tt (R r')) →
  xwp (enter (glock v) (gkind v)) (R r) Q.
Proof.
  intros Hp (H1 & H2) HQ. apply (wp_enter_one id _ t (key v) (keys vs) m); [done|done|].
  intros r' Hr'. apply HQ. split; [exact Hr'|by constructor].
Qed.

(** The raw lock takes back what guard [v] stands for. *)
Lemma wp_leave_guard {A} v vs vs' m (p : iprog A) r (Q' : A → lk_role → Prop) (Q : A → role → Prop) :
  holds vs m r → vs ≡ₚ v :: vs' → (∀ r', holds_one (key v) vs' m r' → rawp t p r' Q') →
  (∀ x r', Q' x r' → Q x (R r')) → xwp (leave (glock v) (gkind v) p) (R r) Q.
Proof.
  intros Hr E Hp HQ. apply (holds_perm _ _ _ _ E) in Hr as (H1 & H2).
  apply Forall_cons in H2 as [_ H2].
  eapply (wp_leave_one id _ t (key v) _ (keys vs')); [done|exact H1|done| |exact HQ].
  intros r' Hr'. by apply Hp.
Qed.

(** Guard [v] is given up, for good. *)
Lemma wp_release_guard v vs vs' m (p : iprog unit) r (Q : unit → role → Prop) :
  holds vs m r → vs ≡ₚ v :: vs' →
  (∀ r', has_one (key v) (keys vs') m r' → rawp t p r' (λ _, has (keys vs') m)) →
  (∀ r', holds vs' m r' → Q tt (R r')) → xwp (leave (glock v) (gkind v) p) (R r) Q.
Proof.
  intros Hr E Hp HQ.
  eapply (wp_leave_guard v vs vs' m _ _ (λ _, holds vs' m)); [done|done| |by intros [] r' ?; auto].
  intros r' (H1 & H2). eapply wp_mono; [|by apply Hp]. intros [] r'' ?. by split.
Qed.

(** It is given up for the time of a closure, and made again in all cases. *)
Lemma wp_unlocked v vs vs' k m (p p' : iprog unit) (f : lprog (outcome unit)) r (Q : outcome unit → role → Prop) :
  holds vs (k + S m) r → vs ≡ₚ v :: vs' →
  (∀ r', has_one (key v) (keys vs') (k + S m) r' → rawp t p r' (λ _, has (keys vs') (k + S m))) →
  (∀ r' (Q' : outcome unit → role → Prop),
     holds vs' (k + S m) r' → (∀ o r'', holds vs' (S m) r'' → Q' o (R r'')) → xwp f (R r') Q') →
  (∀ r', has (keys vs') (S m) r' → rawp t p' r' (λ _, has_one (key v) (keys vs') m)) →
  (∀ o r', holds vs m r' → Q o (R r')) →
  xwp (leave (glock v) (gkind v) p;; deferred f (lift p';; enter (glock v) (gkind v))) (R r) Q.
Proof.
  intros Hr E Hp Hf Hp' HQ. unfold deferred. wp_pure.
  pose proof (holds_perm _ _ _ _ E Hr) as (_ & [Hv H2]%Forall_cons).
  eapply (wp_release_guard v vs vs'); [done|done|done|]. intros r1 Hr1. wp_pure.
  apply Hf; [done|]. intros o r2 (Hr2 & _). wp_pure.
  eapply (wp_raw id _ t); [by apply Hp'|]. intros [] r3 Hr3. wp_pure.
  apply (wp_enter_guard v vs' m); [done|by split|]. intros r4 Hr4. wp_pure. apply HQ.
  by apply (holds_perm _ _ _ _ (symmetry E)).
Qed.

(** It changes its kind. *)
Lemma wp_change v v' vs vs' m (p : iprog unit) r (Q : unit → role → Prop) :
  holds vs m r → vs ≡ₚ v :: vs' → glock v' = glock v → points v' →
  (∀ r', has_one (key v) (keys vs') m r' → rawp t p r' (λ _, has_one (key v') (keys vs') m)) →
  (∀ r', holds (v' :: vs') m r' → Q tt (R r')) →
  xwp (change (glock v) (gkind v) (gkind v') p) (R r) Q.
Proof.
  intros Hr E El Hv Hp HQ. unfold change. wp_pure.
  eapply (wp_leave_guard v vs vs' m _ _ (λ _, holds_one (key v') vs' m)); [done|done|..].
  - intros r' (H1 & H2). eapply wp_mono; [|by apply Hp]. intros [] r'' ?. by split.
  - intros [] r' Hr'. rewrite <- El. by apply (wp_enter_guard v' vs' m).
Qed.

Lemma wp_try_change v v' vs vs' m (p : iprog bool) r (Q : bool → role → Prop) :
  holds vs m r → vs ≡ₚ v :: vs' → glock v' = glock v → points v' →
  (∀ r', has_one (key v) (keys vs') m r' →
     rawp t p r' (λ b : bool, has_one (if b then key v' else key v) (keys vs') m)) →
  (∀ (b : bool) r', holds ((if b then v' else v) :: vs') m r' → Q b (R r')) →
  xwp (try_change (glock v) (gkind v) (gkind v') p) (R r) Q.
Proof.
  intros Hr E El Hv Hp HQ. unfold try_change. wp_pure.
  pose proof (holds_perm _ _ _ _ E Hr) as (_ & [Hv0 _]%Forall_cons).
  eapply (wp_leave_guard v vs vs' m _ _ (λ b : bool, holds_one (if b then key v' else key v) vs' m)); [done|done|..].
  - intros r' (H1 & H2). eapply wp_mono; [|by apply Hp]. intros b r'' ?. by split.
  - intros [|] r' Hr'; wp_pure.
    + rewrite <- El. apply (wp_enter_guard v' vs' m); [done|done|]. intros r'' Hr''. wp_pure. by apply HQ.
    + apply (wp_enter_guard v vs' m); [done|done|]. intros r'' Hr''. wp_pure. by apply HQ.
Qed.

(** A new guard. *)
Lemma wp_new_guard {G} v (g : G) vs m (p : iprog unit) r (Q : G → role → Prop) :
  points v → Forall points vs → rawp t p r (λ _, has_one (key v) (keys vs) m) →
  (∀ r', holds (v :: vs) m r' → Q g (R r')) →
  xwp (lift p;; enter (glock v) (gkind v);; Ret g) (R r) Q.
Proof.
  intros Hp Hvs Hr HQ. wp_pure. eapply (wp_raw id _ t); [exact Hr|]. intros [] r' Hr'. wp_pure.
  apply (wp_enter_guard v vs m); [done|by split|]. intros r'' Hr''. wp_pure. by apply HQ.
Qed.

Lemma wp_try_guard {G} v (g : G) (f : G → V) vs own outer m (p : iprog bool) r (Q : bool * list V → role → Prop) :
  points v → f g = v → vs = own ++ outer → Forall points vs →
  rawp t p r (λ b : bool, if b then has_one (key v) (keys vs) m else has (keys vs) m) →
  (∀ b own' r', holds (own' ++ outer) m r' → Q (b, own') (R r')) →
  xwp (push own f (acquire_if p (enter (glock v) (gkind v);; Ret g))) (R r) Q.
Proof.
  intros Hp Ef -> Hvs Hr HQ. unfold push, acquire_if. wp_pure.
  eapply (wp_raw id _ t); [exact Hr|]. intros [|] r' Hr'; wp_pure; [|by apply HQ].
  apply (wp_enter_guard v (own ++ outer) m); [done|by split|]. intros r'' Hr''. wp_pure.
  apply HQ. by rewrite Ef.
Qed.

(** ** Access *)

Lemma guard_points vs v m r : v ∈ vs → holds vs m r → points v.
Proof. intros Hin (_ & H). rewrite Forall_forall in H. by apply H. Qed.

Lemma points_sub v q : points v → ∃ p, sub (gpointer v) q = Data (glock v) p.
Proof. intros (_ & p & ->). by eexists. Qed.

Lemma key_in v vs : v ∈ vs → key v ∈ keys vs.
Proof. intros Hin. apply list_elem_of_fmap. by exists v. Qed.

Lemma wp_read_guard vs v q m r (Q : Z → role → Prop) :
  v ∈ vs → holds vs m r → (∀ x, Q x (R r)) → xwp (read_at (sub (gpointer v) q)) (R r) Q.
Proof.
  intros Hin Hr HQ. pose proof (guard_points _ _ _ _ Hin Hr) as Hp. destruct (points_sub v q Hp) as [p ->].
  eapply (wp_read_data _ _ t _ _ _ _ _ (key v)); [apply Hr|apply Hp|by apply key_in|done].
Qed.

Lemma wp_write_guard vs v q x m r (Q : unit → role → Prop) :
  v ∈ vs → gkind v = GExclusive → holds vs m r → Q tt (R r) → xwp (write_at (sub (gpointer v) q) x) (R r) Q.
Proof.
  intros Hin Hk Hr HQ. pose proof (guard_points _ _ _ _ Hin Hr) as Hp. destruct (points_sub v q Hp) as [p ->].
  eapply wp_write_data; [apply Hr|apply Hp| |done]. rewrite <- Hk. by apply key_in.
Qed.

Lemma sub_nil l : sub l [] = l.
Proof. destruct l; [|done]. cbn. by rewrite app_nil_r. Qed.

(** The rules above, for threads that hold no reentrant mutex. *)
Definition between vs m (x : role) : Prop := ∃ r, x = R r ∧ holds vs m r.

Lemma between_perm vs vs' m x : vs ≡ₚ vs' → between vs m x → between vs' m x.
Proof. intros E (r & -> & H). exists r. split; [done|]. by eapply holds_perm. Qed.
Lemma between_le vs m m' x : (m ≤ m')%nat → between vs m' x → between vs m x.
Proof. intros Hm (r & -> & H). exists r. split; [done|]. by eapply holds_le. Qed.
Lemma between_replace v v' vs m x :
  glock v' = glock v → gkind v' = gkind v → points v' → between (v :: vs) m x → between (v' :: vs) m x.
Proof.
  intros El Ek Hp (r & -> & H1 & [_ H2]%Forall_cons). exists r. split; [done|]. split; [|by constructor].
  unfold keys, key in *. cbn in *. by rewrite El, Ek.
Qed.
Lemma between_read v vs m x (Q : Z → role → Prop) :
  v ∈ vs → between vs m x → (∀ y x', between vs m x' → Q y x') → xwp (read_at (gpointer v)) x Q.
Proof.
  intros Hin (r & -> & Hr) HQ. pose proof (wp_read_guard vs v [] m r Q Hin Hr) as H. rewrite sub_nil in H.
  apply H. intros y. apply HQ. by exists r.
Qed.
Lemma between_write v vs y m x (Q : unit → role → Prop) :
  v ∈ vs → gkind v = GExclusive → between vs m x → (∀ x', between vs m x' → Q tt x') →
  xwp (write_at (gpointer v) y) x Q.
Proof.
  intros Hin Hk (r & -> & Hr) HQ. pose proof (wp_write_guard vs v [] y m r Q Hin Hk Hr) as H.
  rewrite sub_nil in H. apply H, HQ. by exists r.
Qed.

(** ** Closures *)

Section commands.
Context {C : Type} (run_cmd : C → list V → list V → lprog (bool * list V)) (cost : C → nat).
(* the destructor *)
Context (Hdrop : ∀ v vs m r (Q : unit → role → Prop),
  holds (v :: vs) m r → (∀ r', holds vs m r' → Q tt (R r')) → xwp (gdrop v) (R r) Q).

Lemma between_drop v vs m x (Q : unit → role → Prop) :
  between (v :: vs) m x → (∀ x', between vs m x' → Q tt x') → xwp (gdrop v) x Q.
Proof. intros (r & -> & Hr) HQ. eapply Hdrop; [exact Hr|]. intros r' Hr'. apply HQ. by exists r'. Qed.

Lemma wp_drop_all own outer m r (Q : unit → role → Prop) :
  holds (own ++ outer) m r → (∀ r', holds outer m r' → Q tt (R r')) → xwp (drop_all own) (R r) Q.
Proof.
  intros Hr HQ. eapply (guards_drop_all _ _ _ _ between between_drop own outer m); [by exists r|].
  intros ? (r' & -> & Hr'). by apply HQ.
Qed.

(** A program that uses up at most [k] acquisitions. *)
Definition runs k (p : list V → list V → lprog (bool * list V)) : Prop :=
  ∀ outer own m r (Q : bool * list V → role → Prop),
    holds (own ++ outer) (k + m) r → (∀ b own' r', holds (own' ++ outer) m r' → Q (b, own') (R r')) →
    xwp (p outer own) (R r) Q.

Abbreviation bruns := (guards_run (XInv id) (xpanic (λ _, False)) xblocked t between).

Lemma runs_between k p : runs k p ↔ bruns k p.
Proof.
  split.
  - intros Hp outer own m ? Q (r & -> & Hr) HQ. eapply Hp; [exact Hr|]. intros b own' r' Hr'.
    apply HQ. by exists r'.
  - intros Hp outer own m r Q Hr HQ. eapply Hp; [by exists r|]. intros b own' ? (r' & -> & Hr'). by apply HQ.
Qed.

Lemma runs_all cs : Forall (λ c, runs (cost c) (run_cmd c)) cs → Forall (λ c, bruns (cost c) (run_cmd c)) cs.
Proof. intros H. eapply Forall_impl; [exact H|]. intros c. apply runs_between. Qed.

Lemma wp_run_with cs : Forall (λ c, runs (cost c) (run_cmd c)) cs → runs (total cost cs) (run_with run_cmd cs).
Proof. intros Hcs. apply runs_between, guards_run_with; [apply between_le|by apply runs_all]. Qed.

Lemma wp_closure cs vs m r (Q : outcome unit → role → Prop) :
  Forall (λ c, runs (cost c) (run_cmd c)) cs → holds vs (total cost cs + m) r →
  (∀ o r', holds vs m r' → Q o (R r')) → xwp (closure (run_with run_cmd cs vs [])) (R r) Q.
Proof.
  intros Hb Hr HQ.
  eapply (guards_closure _ _ _ _ between between_le between_drop run_cmd cost cs vs m);
    [by apply runs_all|by exists r|]. intros o ? (r' & -> & Hr'). by apply HQ.
Qed.

Lemma wp_mapped {X Y} own outer i v x (k : loc → X) p (g : X → Y) (f : Y → V) m r
    (Q : bool * list V → role → Prop) :
  own !! i = Some v → holds (own ++ outer) m r →
  key (f (g (k (gpointer v)))) = key v → points (f (g (k (gpointer v)))) →
  (∀ b own' r', holds (own' ++ outer) m r' → Q (b, own') (R r')) →
  xwp (mapped own i (consume (mapper v x k p (gpointer v)) (gdrop v) g) f) (R r) Q.
Proof.
  intros Hi Hr [=El Ek] Hp HQ.
  eapply (guards_mapped _ _ _ _ between points between_perm between_replace between_drop between_read
    between_write own outer i v); [done|by exists r|done..|]. intros b own' ? (r' & -> & Hr'). by apply HQ.
Qed.
End commands.
End logic.

(** See the calls on a lock as those of guard [v]. *)
Ltac as_guard v :=
  let l := eval cbn in (glock v) in
  let gd := eval cbn in (gkind v) in
  try change (enter l gd) with (enter (glock v) (gkind v));
  try change (@leave unit l gd) with (@leave unit (glock v) (gkind v));
  try change (@leave bool l gd) with (@leave bool (glock v) (gkind v)).
