(* ===== verification/MutexApiProof.v ===== *)
(** * What lock_api's Mutex promises

    Programs of any number of threads that use mutexes through their guards, in
    safe code: they lock, try to lock, access the data, map guards to parts of
    it, unlock fairly or for the time of a closure, and panic, also inside
    closures.  There are no data races, each mutex has at most one guard, and
    when all threads are done every guard has been dropped. *)

From S2P Require Import Prelude Conc LotTypes BucketQueue ParkingLot LotInv LockApi LockApiLogic GuardClients.
Local Open Scope Z_scope.
Local Open Scope prog_scope.

(** ** What a raw mutex promises *)

Class MutexLogic {L : LockLogic} {RM : Raw.Mutex} {RF : Raw.MutexFair} {RT : Raw.MutexTimed} := {
  has_any l m m' r : has l m r → has l m' r;
  has_nodup l m r : has l m r → NoDup l.*1;
  lock_spec t a l m r : lk_thread t → lk_lock a → a ∉ l.*1 → has l m r →
    rawp t (Raw.lock a) r (λ _, has_one (a, GExclusive) l m);
  try_lock_spec t a l m r : lk_thread t → lk_lock a → has l m r →
    rawp t (Raw.try_lock a) r (λ b : bool, if b then has_one (a, GExclusive) l m else has l m);
  try_lock_for_spec t a d l m r : lk_thread t → lk_lock a → a ∉ l.*1 → has l m r →
    rawp t (Raw.try_lock_for a d) r (λ b : bool, if b then has_one (a, GExclusive) l m else has l m);
  try_lock_until_spec t a d l m r : lk_thread t → lk_lock a → a ∉ l.*1 → has l m r →
    rawp t (Raw.try_lock_until a d) r (λ b : bool, if b then has_one (a, GExclusive) l m else has l m);
  is_locked_spec t a l m r : lk_thread t → lk_lock a → has l m r →
    rawp t (Raw.is_locked a) r (λ _, has l m);
  unlock_spec t a l m r : lk_thread t → lk_lock a → has_one (a, GExclusive) l m r →
    rawp t (Raw.unlock a) r (λ _, has l m);
  unlock_fair_spec t a l m r : lk_thread t → lk_lock a → has_one (a, GExclusive) l m r →
    rawp t (Raw.unlock_fair a) r (λ _, has l m);
  bump_spec t a l m r : lk_thread t → lk_lock a → has_one (a, GExclusive) l m r →
    rawp t (Raw.bump a) r (λ _, has_one (a, GExclusive) l m);
}.

(** ** Programs with guards *)

Inductive gval := GMutex (g : MutexGuard.t) | GMapped (g : MappedMutexGuard.t).

#[export] Instance gval_guard `{!Raw.Mutex} : GuardVal gval := {
  gkind _ := GExclusive;
  glock v := match v with GMutex g => MutexGuard.mutex g | GMapped g => MappedMutexGuard.raw g end;
  gpointer v := match v with GMutex g => MutexGuard.deref_mut g | GMapped g => MappedMutexGuard.deref_mut g end;
  gdrop v := match v with GMutex g => MutexGuard.drop g | GMapped g => MappedMutexGuard.drop g end;
}.

(** Guards are numbered in the list of those the function owns; a closure can
    also access those of its callers, but the one it runs on. *)
Inductive cmd :=
| CLock (a : Z) | CTryLock (a : Z) | CTryLockFor (a d : Z) | CTryLockUntil (a d : Z) | CIsLocked (a : Z)
| CDrop (i : nat) | CUnlockFair (i : nat) | CBump (i : nat)
| CUnlocked (i : nat) (fair : bool) (body : list cmd)
| CMap (i : nat) (v : Z) (q : list nat) (panics : bool)
| CTryMap (i : nat) (v : Z) (q : option (list nat)) (panics : bool)
| CTryMapOrErr (i : nat) (v : Z) (q : list nat + Z) (panics : bool)
| CRead (i : nat) (q : list nat) | CWrite (i : nat) (q : list nat) (v : Z)
| CPanic.

(** All mutexes that the command names are among [ok]. *)
Fixpoint names_ok (ok : Z → bool) (c : cmd) {struct c} : bool :=
  match c with
  | CLock a | CTryLock a | CTryLockFor a _ | CTryLockUntil a _ | CIsLocked a => ok a
  | CUnlocked _ _ body => forallb (names_ok ok) body
  | _ => true
  end.

Section clients.
Context {RM : Raw.Mutex} {RF : Raw.MutexFair} {RT : Raw.MutexTimed}.

Abbreviation result := (bool * list gval)%type.

(** Nobody blocks on a mutex that he has locked. *)
Definition unless_held (a : Z) (own outer : list gval) (p : lprog result) : lprog result :=
  if bool_decide (a ∈ glock <$> own ++ outer) then Ret (false, own) else p.

Fixpoint run_cmd (c : cmd) (outer own : list gval) {struct c} : lprog result :=
  match c with
  | CLock a => unless_held a own outer (g <- Mutex.lock a;; Ret (false, GMutex g :: own))
  | CTryLock a => push own GMutex (Mutex.try_lock a)
  | CTryLockFor a d => unless_held a own outer (push own GMutex (Mutex.try_lock_for a d))
  | CTryLockUntil a d => unless_held a own outer (push own GMutex (Mutex.try_lock_until a d))
  | CIsLocked a => Mutex.is_locked a;; Ret (false, own)
  | CDrop i =>
      match own !! i with
      | Some v => gdrop v;; Ret (false, delete i own)
      | None => Ret (false, own)
      end
  | CUnlockFair i =>
      match own !! i with
      | Some (GMutex g) => MutexGuard.unlock_fair g;; Ret (false, delete i own)
      | Some (GMapped g) => MappedMutexGuard.unlock_fair g;; Ret (false, delete i own)
      | None => Ret (false, own)
      end
  | CBump i =>
      match own !! i with
      | Some (GMutex g) => MutexGuard.bump g;; Ret (false, own)
      | _ => Ret (false, own)
      end
  | CUnlocked i fair body =>
      match own !! i with
      | Some (GMutex g) =>
          let f := closure (run_with run_cmd body (delete i own ++ outer) []) in
          r <- (if fair then MutexGuard.unlocked_fair g f else MutexGuard.unlocked g f);;
          Ret (unwound r, own)
      | _ => Ret (false, own)
      end
  | CMap i v q p =>
      match own !! i with
      | Some (GMutex g) => mapped own i (MutexGuard.map g (mapper (GMutex g) v (λ l, sub l q) p)) GMapped
      | Some (GMapped g) => mapped own i (MappedMutexGuard.map g (mapper (GMapped g) v (λ l, sub l q) p)) GMapped
      | None => Ret (false, own)
      end
  | CTryMap i v q p =>
      let k l := match q with Some q => Some (sub l q) | None => None end in
      match own !! i with
      | Some (GMutex g) =>
          mapped own i (MutexGuard.try_map g (mapper (GMutex g) v k p))
            (λ x, match x with inl g => GMapped g | inr g => GMutex g end)
      | Some (GMapped g) =>
          mapped own i (MappedMutexGuard.try_map g (mapper (GMapped g) v k p))
            (λ x, match x with inl g => GMapped g | inr g => GMapped g end)
      | None => Ret (false, own)
      end
  | CTryMapOrErr i v q p =>
      let k l := match q with inl q => inl (sub l q) | inr e => inr e end in
      match own !! i with
      | Some (GMutex g) =>
          mapped own i (MutexGuard.try_map_or_err g (mapper (GMutex g) v k p))
            (λ x, match x with inl g => GMapped g | inr (g, _) => GMutex g end)
      | Some (GMapped g) =>
          mapped own i (MappedMutexGuard.try_map_or_err g (mapper (GMapped g) v k p))
            (λ x, match x with inl g => GMapped g | inr (g, _) => GMapped g end)
      | None => Ret (false, own)
      end
  | CRead i q =>
      match (own ++ outer) !! i with
      | Some v => read_at (sub (gpointer v) q);; Ret (false, own)
      | None => Ret (false, own)
      end
  | CWrite i q v =>
      match (own ++ outer) !! i with
      | Some x => write_at (sub (gpointer x) q) v;; Ret (false, own)
      | None => Ret (false, own)
      end
  | CPanic => Ret (true, own)
  end.

Definition run_cmds : list cmd → list gval → list gval → lprog result := run_with run_cmd.

(** A thread: at its end, or when it has panicked, its guards are dropped. *)
Definition thread (cs : list cmd) : lprog unit :=
  r <- run_cmds cs [] [];; drop_all r.2.
End clients.

Lemma cmd_nested (P : cmd → Prop) :
  (∀ c, (∀ i fair body, c ≠ CUnlocked i fair body) → P c) →
  (∀ i fair body, Forall P body → P (CUnlocked i fair body)) → ∀ c, P c.
Proof.
  intros H1 H2. fix IH 1. intros []; try (apply H1; congruence).
  apply H2. induction body as [|c body IHb]; constructor; [apply IH|exact IHb].
Qed.

Lemma names_ok_all c : names_ok (λ _, true) c = true.
Proof.
  induction c as [c Hc|i fair body Hb] using cmd_nested.
  - destruct c; try done. by edestruct Hc.
  - cbn. induction Hb as [|c body Hc _ IH]; [done|]. cbn. by rewrite Hc.
Qed.

(** ** Every program is verified *)

Section verify.
Context {L : LockLogic} {RM : Raw.Mutex} {RF : Raw.MutexFair} {RT : Raw.MutexTimed} {ML : MutexLogic}.
Context (id : tid → Z) (t : tid) (Ht : lk_thread t) (ok : Z → bool) (Hlocks : ∀ a, ok a = true → lk_lock a).
Implicit Types (own outer vs : list gval) (r : lk_role) (m : nat).

Abbreviation xwp := (wp lexec (XInv id) (xpanic (λ _, False)) xblocked t).
Abbreviation R r := (Role r None [] []).

Lemma mutex_drop v vs m r (Q : unit → role → Prop) :
  holds (v :: vs) m r → (∀ r', holds vs m r' → Q tt (R r')) → xwp (gdrop v) (R r) Q.
Proof.
  intros Hr HQ.
  pose proof (guard_points _ v _ _ (list_elem_of_here _ _) Hr) as [Hl _].
  assert (H : xwp (leave (glock v) (gkind v) (Raw.unlock (glock v))) (R r) Q); [|by destruct v].
  eapply (wp_release_guard id t Ht v); [exact Hr|done| |exact HQ]. intros r'. by apply unlock_spec.
Qed.

Lemma holds_fresh v vs vs' m r : holds vs m r → vs ≡ₚ v :: vs' → glock v ∉ (keys vs').*1.
Proof.
  intros Hr E. apply (holds_perm _ _ _ _ E) in Hr as [Hr _]. apply has_nodup in Hr. cbn in Hr.
  by apply NoDup_cons in Hr as [? _].
Qed.

Lemma points_mutex a : lk_lock a → points (GMutex (MutexGuard.Mk a)).
Proof. split; [done|by exists []]. Qed.

Lemma wp_unless_held a own outer (p : lprog (bool * list gval)) r (Q : bool * list gval → role → Prop) :
  Q (false, own) (R r) → (a ∉ (keys (own ++ outer)).*1 → xwp p (R r) Q) →
  xwp (unless_held a own outer p) (R r) Q.
Proof.
  intros H1 H2. unfold unless_held. case_bool_decide; [by apply wp_ret|].
  apply H2. by rewrite keys_locks.
Qed.

(** Mutexes count no acquisitions. *)
Abbreviation runs0 c := (runs id t 0 (run_cmd c)).

Lemma total_zero cs : total (λ _ : cmd, 0%nat) cs = 0%nat.
Proof. induction cs; [done|]. by cbn. Qed.

Lemma wp_mutex_unlocked {C} (run : C → list gval → list gval → lprog (bool * list gval)) fair body outer own i a
    m r (Q : bool * list gval → role → Prop) :
  let f := closure (run_with run body (delete i own ++ outer) []) in
  Forall (λ c, runs id t 0 (run c)) body → own !! i = Some (GMutex (MutexGuard.Mk a)) →
  holds (own ++ outer) (0 + m) r → (∀ b own' r', holds (own' ++ outer) m r' → Q (b, own') (R r')) →
  xwp (r <- (if fair : bool then MutexGuard.unlocked_fair (MutexGuard.Mk a) f
             else MutexGuard.unlocked (MutexGuard.Mk a) f);; Ret (unwound r, own)) (R r) Q.
Proof.
  intros f Hb Hi Hr HQ. subst f.
  pose proof (guard_points _ _ _ _ (in_guards own outer i _ Hi) Hr) as [Hl _]. cbn in Hl.
  pose proof (delete_perm own outer i _ Hi) as E. pose proof (holds_fresh _ _ _ _ _ Hr E) as Hf.
  assert (Hr' : holds (own ++ outer) (0 + S m) r) by (split; [by eapply has_any, Hr|apply Hr]).
  assert (H0 : total (λ _ : C, 0%nat) body = 0%nat) by (clear; by induction body).
  wp_pure. unfold MutexGuard.unlocked_fair, MutexGuard.unlocked.
  cbn [MutexGuard.mutex]. as_guard (GMutex (MutexGuard.Mk a)).
  destruct fair; (eapply (wp_unlocked id t Ht (GMutex (MutexGuard.Mk a))); [exact Hr'|exact E|..]);
    try (intros r' Q' H1 H2; eapply (wp_closure id t run (λ _, 0%nat)); [apply mutex_drop|done| |exact H2];
         by rewrite H0);
    try (intros r' H1; apply lock_spec; [done|done|exact Hf|by eapply has_any]);
    try (intros o r' H1; wp_pure; by apply HQ).
  - intros r' H1. by apply unlock_fair_spec.
  - intros r' H1. by apply unlock_spec.
Qed.

Lemma wp_mutex_unlocked_cmd i fair body : Forall (λ c, runs0 c) body → runs0 (CUnlocked i fair body).
Proof.
  intros Hb outer own m r Q Hr HQ. cbn [run_cmd].
  destruct (own !! i) as [[[a]|g]|] eqn:Hi; [|by apply wp_ret, HQ..].
  by apply (wp_mutex_unlocked run_cmd fair body outer own i a m).
Qed.

Lemma wp_mutex_map_cmd i v q p : runs0 (CMap i v q p).
Proof.
  intros outer own m r Q Hr HQ. cbn [run_cmd]. destruct (own !! i) as [gv|] eqn:Hi; [|by apply wp_ret, HQ].
  pose proof (guard_points _ _ _ _ (in_guards own outer i gv Hi) Hr) as Hp. pose proof (points_sub gv q Hp).
  pose proof mutex_drop as Hd.
  destruct gv as [g|g];
    [eapply (wp_mapped id t Hd own outer i (GMutex g) v (λ l, sub l q) p (MappedMutexGuard.Mk (MutexGuard.mutex g)) GMapped)
    |eapply (wp_mapped id t Hd own outer i (GMapped g) v (λ l, sub l q) p (MappedMutexGuard.Mk (MappedMutexGuard.raw g)) GMapped)];
    try done; by split; [apply Hp|].
Qed.

Lemma wp_try_map_cmd i v q p : runs0 (CTryMap i v q p).
Proof.
  intros outer own m r Q Hr HQ. cbn [run_cmd]. destruct (own !! i) as [gv|] eqn:Hi; [|by apply wp_ret, HQ].
  pose proof (guard_points _ _ _ _ (in_guards own outer i gv Hi) Hr) as Hp.
  pose proof (λ l, points_sub gv l Hp) as Hs. pose proof mutex_drop as Hd.
  set (k := λ l, match q with Some q => Some (sub l q) | None => None end).
  destruct gv as [g|g];
    [eapply (wp_mapped id t Hd own outer i (GMutex g) v k p (map_ok (MappedMutexGuard.Mk (MutexGuard.mutex g)) g)
       (λ x, match x with inl g => GMapped g | inr g => GMutex g end))
    |eapply (wp_mapped id t Hd own outer i (GMapped g) v k p (map_ok (MappedMutexGuard.Mk (MappedMutexGuard.raw g)) g)
       (λ x, match x with inl g => GMapped g | inr g => GMapped g end))]; try done;
    destruct q; try done; (split; [apply Hp|apply Hs]).
Qed.

Lemma wp_try_map_or_err_cmd i v q p : runs0 (CTryMapOrErr i v q p).
Proof.
  intros outer own m r Q Hr HQ. cbn [run_cmd]. destruct (own !! i) as [gv|] eqn:Hi; [|by apply wp_ret, HQ].
  pose proof (guard_points _ _ _ _ (in_guards own outer i gv Hi) Hr) as Hp.
  pose proof (λ l, points_sub gv l Hp) as Hs. pose proof mutex_drop as Hd.
  set (k := λ l, match q with inl q => inl (sub l q) | inr e => inr e end).
  destruct gv as [g|g];
    [eapply (wp_mapped id t Hd own outer i (GMutex g) v k p (map_result (MappedMutexGuard.Mk (MutexGuard.mutex g)) g)
       (λ x, match x with inl g => GMapped g | inr (g, _) => GMutex g end))
    |eapply (wp_mapped id t Hd own outer i (GMapped g) v k p (map_result (MappedMutexGuard.Mk (MappedMutexGuard.raw g)) g)
       (λ x, match x with inl g => GMapped g | inr (g, _) => GMapped g end))]; try done;
    destruct q; try done; (split; [apply Hp|apply Hs]).
Qed.

Lemma wp_try_cmd a (p : iprog bool) own outer m r (Q : bool * list gval → role → Prop) :
  lk_lock a → holds (own ++ outer) m r →
  rawp t p r (λ b : bool, if b then has_one (a, GExclusive) (keys (own ++ outer)) m else has (keys (own ++ outer)) m) →
  (∀ b own' r', holds (own' ++ outer) m r' → Q (b, own') (R r')) →
  xwp (push own GMutex (acquire_if p (Mutex.make_guard_unchecked a))) (R r) Q.
Proof.
  intros Hl Hr Hp HQ. unfold Mutex.make_guard_unchecked. as_guard (GMutex (MutexGuard.Mk a)).
  eapply (wp_try_guard id t Ht (GMutex (MutexGuard.Mk a)) (MutexGuard.Mk a));
    [by apply points_mutex|done|done|apply Hr|exact Hp|exact HQ].
Qed.

Lemma wp_run_cmd c : names_ok ok c = true → runs0 c.
Proof.
  induction c as [c Hc|i fair body Hb] using cmd_nested; intros Hok.
  2:{ apply wp_mutex_unlocked_cmd. cbn in Hok. rewrite forallb_forall in Hok. rewrite Forall_forall in Hb |- *.
      intros c Hin. apply Hb; [done|]. by apply Hok, list_elem_of_In. }
  destruct c as [a|a|a d|a d|a|i|i|i|i fair body|i v q p|i v q p|i v q p|i q|i q v|];
    [..|by destruct (Hc i fair body)|apply wp_mutex_map_cmd|apply wp_try_map_cmd|apply wp_try_map_or_err_cmd| | |];
    intros outer own m r Q Hr HQ; cbn [run_cmd Nat.add names_ok] in *; try apply Hlocks in Hok.
  - apply wp_unless_held; [by apply HQ|]. intros Ha. wp_pure. unfold Mutex.lock, Mutex.make_guard_unchecked.
    as_guard (GMutex (MutexGuard.Mk a)). eapply (wp_new_guard id t Ht (GMutex (MutexGuard.Mk a))); [by apply points_mutex|apply Hr| |].
    + by apply lock_spec; [| | |apply Hr].
    + intros r' Hr'. wp_pure. by apply HQ.
  - apply (wp_try_cmd a _ own outer m); [done|done| |done]. by apply try_lock_spec; [| |apply Hr].
  - apply wp_unless_held; [by apply HQ|]. intros Ha. apply (wp_try_cmd a _ own outer m); [done|done| |done].
    by apply try_lock_for_spec; [| | |apply Hr].
  - apply wp_unless_held; [by apply HQ|]. intros Ha. apply (wp_try_cmd a _ own outer m); [done|done| |done].
    by apply try_lock_until_spec; [| | |apply Hr].
  - wp_pure. eapply (wp_raw id _ t); [by apply is_locked_spec; [| |apply Hr]|]. intros b r' Hr'. wp_pure.
    apply HQ. split; [done|apply Hr].
  - destruct (own !! i) as [v|] eqn:Hi; [|by apply wp_ret, HQ]. wp_pure.
    eapply mutex_drop; [by eapply holds_perm; [apply (delete_perm own outer i _ Hi)|]|].
    intros r' Hr'. wp_pure. by apply HQ.
  - destruct (own !! i) as [gv|] eqn:Hi; [|by apply wp_ret, HQ].
    pose proof (guard_points _ _ _ _ (in_guards own outer i _ Hi) Hr) as [Hl _].
    assert (H : xwp (leave (glock gv) (gkind gv) (Raw.unlock_fair (glock gv));; Ret (false, delete i own)) (R r) Q);
      [|by destruct gv].
    wp_pure. eapply (wp_release_guard id t Ht gv); [exact Hr|by apply delete_perm|..].
    + intros r' Hr'. by apply unlock_fair_spec.
    + intros r' Hr'. wp_pure. by apply HQ.
  - destruct (own !! i) as [[[a]|g]|] eqn:Hi; [|by apply wp_ret, HQ..]. wp_pure.
    pose proof (guard_points _ _ _ _ (in_guards own outer i _ Hi) Hr) as [Hl _]. cbn in Hl.
    unfold MutexGuard.bump, change.
    cbn [MutexGuard.mutex]. as_guard (GMutex (MutexGuard.Mk a)).
    pose proof (delete_perm own outer i _ Hi) as E.
    eapply (wp_change id t Ht (GMutex (MutexGuard.Mk a)) (GMutex (MutexGuard.Mk a)));
      [exact Hr|exact E|done|by apply points_mutex| |].
    + intros r' Hr'. by apply bump_spec.
    + intros r' Hr'. wp_pure. apply HQ. by eapply holds_perm; [symmetry; exact E|].
  - destruct ((own ++ outer) !! i) as [gv|] eqn:Hi; [|by apply wp_ret, HQ]. apply list_elem_of_lookup_2 in Hi.
    wp_pure. apply (wp_read_guard id t (own ++ outer) gv q m); [done|done|]. intros v. wp_pure. by apply HQ.
  - destruct ((own ++ outer) !! i) as [gv|] eqn:Hi; [|by apply wp_ret, HQ]. apply list_elem_of_lookup_2 in Hi.
    wp_pure. apply (wp_write_guard id t (own ++ outer) gv q v m); [done..|]. wp_pure. by apply HQ.
  - by apply wp_ret, HQ.
Qed.

Lemma wp_thread cs r : forallb (names_ok ok) cs = true → has [] 0 r → xwp (thread cs) (R r) (λ _ x, ∃ r', x = R r' ∧ has [] 0 r').
Proof.
  intros Hok Hr. unfold thread, run_cmds. wp_pure.
  apply (wp_run_with id t run_cmd (λ _, 0%nat) cs) with (m := 0%nat).
  - rewrite forallb_forall in Hok. apply Forall_forall. intros c Hc. apply wp_run_cmd.
    by apply Hok, list_elem_of_In.
  - rewrite total_zero. by split; [|constructor].
  - intros b own r' Hr'. apply (wp_drop_all id t mutex_drop own []  0); [done|]. intros r'' [Hr'' _]. by exists r''.
Qed.
End verify.
