(* ===== verification/MutexGuards.v ===== *)
(** * The mutexes of parking_lot, in safe code

    [Mutex] and [FairMutex] are lock_api's mutex over [RawMutex] and
    [RawFairMutex]: these keep what [LockLogic] and [MutexLogic] ask of a raw
    mutex, so the programs of [MutexApiProof] run without data races. *)

From S2P Require Import Prelude Conc LotTypes BucketQueue ParkingLot LotInv LockApi LockApiLogic GuardClients MutexApiProof RawMutex RawMutexInv RawMutexProof.
Local Open Scope Z_scope.

(** ** The raw mutexes *)

Section raw.
Context (bucket_of : Z → nat) (cv : Z → bool).

(** [impl RawMutex for RawMutex] and for [RawFairMutex]. *)
Definition raw_mutex (fair : bool) : Raw.Mutex :=
  if fair then {|
    Raw.lock := RawFairMutex.lock bucket_of; Raw.try_lock := RawFairMutex.try_lock;
    Raw.unlock := RawFairMutex.unlock bucket_of; Raw.is_locked := RawFairMutex.is_locked |}
  else {|
    Raw.lock := RawMutex.lock bucket_of; Raw.try_lock := RawMutex.try_lock;
    Raw.unlock := RawMutex.unlock bucket_of; Raw.is_locked := RawMutex.is_locked |}.
Definition raw_mutex_fair (fair : bool) : Raw.MutexFair :=
  if fair then {|
    Raw.unlock_fair := RawFairMutex.unlock_fair bucket_of; Raw.bump := RawFairMutex.bump bucket_of |}
  else {|
    Raw.unlock_fair := RawMutex.unlock_fair bucket_of; Raw.bump := RawMutex.bump bucket_of |}.
Definition raw_mutex_timed (fair : bool) : Raw.MutexTimed :=
  if fair then {|
    Raw.try_lock_for := RawFairMutex.try_lock_for bucket_of;
    Raw.try_lock_until := RawFairMutex.try_lock_until bucket_of |}
  else {|
    Raw.try_lock_for := RawMutex.try_lock_for bucket_of;
    Raw.try_lock_until := RawMutex.try_lock_until bucket_of |}.

(** A thread between two operations, with guards for all mutexes it owns, or
    for all but [x]. *)
Definition raw_has (l : list (Z * guard)) (_ : nat) (r : role) : Prop :=
  idle r ∧ (∀ a, a ∈ held r ↔ a ∈ l.*1) ∧ (∀ a, a ∈ guards r ↔ a ∈ l.*1) ∧
  Forall (λ x, x.2 = GExclusive) l ∧ NoDup l.*1.
Definition raw_has_one (x : Z * guard) (l : list (Z * guard)) (_ : nat) (r : role) : Prop :=
  idle r ∧ (∀ a, a ∈ held r ↔ a = x.1 ∨ a ∈ l.*1) ∧ (∀ a, a ∈ guards r ↔ a ∈ l.*1) ∧
  Forall (λ x, x.2 = GExclusive) (x :: l) ∧ NoDup (x :: l).*1.

Abbreviation no_panic := (λ (_ : string) (_ : role), False).
Abbreviation mwp := (wp exec (MInv bucket_of cv) no_panic (blocked bucket_of)).

Lemma mutex_has_enter {A} t x l m r (k : unit → iprog A) Q :
  raw_has_one x l m r → (∀ r', raw_has (x :: l) m r' → mwp t (k tt) r' Q) →
  mwp t (Act (AEnter x.1 x.2) k) r Q.
Proof.
  destruct x as [a gd]. intros (H1 & H2 & H3 & H4 & H5) Hk. cbn in *.
  pose proof (Forall_inv H4) as Egd. cbn in Egd. subst gd.
  apply wp_act; [intros; left; exists 0; by eexists|]. intros s g ρ c s' v Hr HI Hex.
  cbn in Hex. injection Hex as <- <-. apply NoDup_cons in H5 as [H5 H5'].
  eexists g, _. split; [apply (m_enter _ _ s g ρ t r a); [done|done|apply H1..|set_solver|by rewrite H3]|].
  apply Hk. split; [by split|]. cbn. split; [set_solver|]. split; [set_solver|]. split; [done|by apply NoDup_cons].
Qed.

Lemma mutex_has_drop {A} t x l m r (k : unit → iprog A) Q :
  raw_has l m r → x ∈ l → (∀ r', raw_has_one x (remove_first x l) m r' → mwp t (k tt) r' Q) →
  mwp t (Act (ADrop x.1 x.2) k) r Q.
Proof.
  intros (H1 & H2 & H3 & H4 & H5) Hx Hk. pose proof (remove_first_perm x l Hx) as E.
  destruct x as [a gd].
  assert (gd = GExclusive) as -> by (rewrite Forall_forall in H4; by apply (H4 _ Hx)).
  apply wp_act; [intros; left; exists 0; by eexists|]. intros s g ρ c s' v Hr HI Hex.
  cbn in Hex. injection Hex as <- <-. rewrite E in H4, H5.
  destruct (remove_first_NoDup (t, GExclusive) _ (mi_live_nodup _ _ _ _ _ HI a)) as [N1 N2].
  eexists g, _. split.
  - apply (m_exit _ _ s g ρ t r a); [done|done|apply H1|apply H1|done|]. intros u gd'.
    destruct (decide ((u, gd') = (t, GExclusive))) as [->|Hne]; [naive_solver|].
    rewrite (remove_first_ne _ _ _ Hne). naive_solver.
  - apply Hk. split; [by split|]. cbn [held guards]. cbn in H5 |- *. apply NoDup_cons in H5 as [H5 H5'].
    assert (El : ∀ y, y ∈ l.*1 ↔ y = a ∨ y ∈ (remove_first (a, GExclusive) l).*1).
    { intros y. rewrite E at 1. cbn. by rewrite elem_of_cons. }
    split; [intros y; by rewrite H2|]. split; [|by split; [|by apply NoDup_cons]].
    intros y. rewrite list_elem_of_filter, H3, El. naive_solver.
Qed.

#[refine] Instance mutex_lock_logic : LockLogic := {|
  lk_ghost := Z → option tid;
  lk_role := role;
  lk_inv := MInv bucket_of cv;
  lk_panic := no_panic;
  lk_blocked := blocked bucket_of;
  lk_thread _ := True;
  lk_lock a := cv a = false;
  has := raw_has;
  has_one := raw_has_one;
|}.
Proof.
  - intros l l' m r E (H1 & H2 & H3 & H4 & H5). unfold raw_has. by setoid_rewrite <- E.
  - intros x l l' m r E (H1 & H2 & H3 & H4 & H5). unfold raw_has_one. by setoid_rewrite <- E.
  - done.
  - intros s g ρ t l m [a gd] HI (_ & _ & H3 & H4 & _). cbn. rewrite (mi_live _ _ _ _ _ HI), H3. split.
    + intros [-> ([a' gd'] & -> & Hx)%list_elem_of_fmap]. rewrite Forall_forall in H4.
      pose proof (H4 _ Hx) as E. cbn in E. by subst gd'.
    + intros Hx. rewrite Forall_forall in H4. split; [by apply (H4 _ Hx)|].
      apply list_elem_of_fmap. by exists (a, gd).
  - intros s g ρ a HI _. pose proof (live_unique _ _ s g ρ a HI) as Hlen.
    assert (Hex : ∀ x, x ∈ live s a → x.2 = GExclusive) by (by intros [u gd] [-> _]%(mi_live _ _ _ _ _ HI)).
    destruct (live s a) as [|[u gd] [|y l]] eqn:E; [|left; exists u|cbn in Hlen; lia].
    + right. by split; [set_solver|cbn; lia].
    + by rewrite <- (Hex (u, gd)) by (by left).
  - intros A t x l m r k Q _. apply mutex_has_enter.
  - intros A t x l m r k Q _. apply mutex_has_drop.
Defined.
End raw.

Section raw_logic.
Context (bucket_of : Z → nat) (cv : Z → bool) (fair : bool).
#[local] Existing Instances raw_mutex raw_mutex_fair raw_mutex_timed mutex_lock_logic.

Lemma has_acquired a l m r : a ∉ l.*1 → raw_has l m r → raw_has_one (a, GExclusive) l m (acquired a r).
Proof.
  intros Ha (H1 & H2 & H3 & H4 & H5). split; [split; [done|apply H1]|]. cbn. split; [|split; [done|]].
  - intros x. by rewrite elem_of_cons, H2.
  - split; [by constructor|by apply NoDup_cons].
Qed.

(** The mutex that has no guard can be released. *)
Lemma has_released a l m r :
  raw_has_one (a, GExclusive) l m r →
  idle r ∧ a ∈ held r ∧ guards r ⊆ filter (λ x, x ≠ a) (held r) ∧ raw_has l m (released a r).
Proof.
  intros (H1 & H2 & H3 & H4 & H5). cbn in *. apply NoDup_cons in H5 as [H5 H5'].
  assert (Hf : ∀ x, x ∈ filter (λ x, x ≠ a) (held r) ↔ x ∈ l.*1).
  { intros x. rewrite list_elem_of_filter, H2. split; [naive_solver|]. intros Hx. split; [by intros ->|by right]. }
  split; [done|]. split; [set_solver|]. split; [intros x; by rewrite Hf, H3|].
  split; [split; [done|apply H1]|]. split; [exact Hf|]. split; [done|]. split; [by apply Forall_inv_tail in H4|done].
Qed.

Instance mutex_logic :
  MutexLogic (L := mutex_lock_logic bucket_of cv) (RM := raw_mutex bucket_of fair)
    (RF := raw_mutex_fair bucket_of fair) (RT := raw_mutex_timed bucket_of fair).
Proof.
  split.
  - done.
  - intros l m r H. apply H.
  - intros t a l m r _ Hl Ha Hr. pose proof (has_acquired _ _ m _ Ha Hr) as Hr'.
    destruct fair; (apply wp_lock; [done|apply idle_ready, Hr|done]).
  - intros t a l m r _ Hl Hr.
    destruct fair; (apply wp_try_lock; [done|apply Hr| |done]; intros Ha; apply has_acquired; [|done];
      destruct Hr as (_ & H2 & _); by rewrite <- H2).
  - intros t a d l m r _ Hl Ha Hr. pose proof (has_acquired _ _ m _ Ha Hr) as Hr'.
    destruct fair; apply wp_try_lock_for; done || apply Hr.
  - intros t a d l m r _ Hl Ha Hr. pose proof (has_acquired _ _ m _ Ha Hr) as Hr'.
    destruct fair; apply wp_try_lock_until; done || apply Hr.
  - intros t a l m r _ Hl Hr. by destruct fair; apply wp_is_locked.
  - intros t a l m r _ Hl Hr. destruct (has_released _ _ m _ Hr) as (H1 & H2 & H3 & H4).
    destruct H1 as [H1 _]. by destruct fair; [apply wp_unlock_fair|apply wp_unlock].
  - intros t a l m r _ Hl Hr. destruct (has_released _ _ m _ Hr) as (H1 & H2 & H3 & H4).
    destruct H1 as [H1 _]. by destruct fair; apply wp_unlock_fair.
  - intros t a l m r _ Hl Hr. destruct (has_released _ _ m _ Hr) as (H1 & H2 & H3 & H4).
    assert (H5 : raw_has_one (a, GExclusive) l m (acquired a (released a r))).
    { apply has_acquired; [|done]. destruct Hr as (_ & _ & _ & _ & Hn). by apply NoDup_cons in Hn as [Hn _]. }
    by destruct fair; apply wp_bump.
Qed.
End raw_logic.

(** The thread in an access has the one guard of the mutex. *)
Lemma access_alone bucket_of cv id (s : lstate) g ρ t a p w :
  XInv (L := mutex_lock_logic bucket_of cv) id s g ρ → (∀ a, (length (live (raw_st s) a) ≤ 1)%nat) →
  (t, (Data a p, w)) ∈ accesses s → live (raw_st s) a = [(t, GExclusive)].
Proof.
  intros HI Hlen Hx. destruct (access_guard _ _ _ _ _ _ _ _ HI Hx) as (gd & Hgd & _).
  pose proof (xi_raw _ _ _ _ HI) as HM. destruct (mi_live _ _ _ _ _ HM a t gd) as [Hl _].
  destruct (Hl Hgd) as [-> _]. specialize (Hlen a).
  destruct (live (raw_st s) a) as [|y [|z l]]; [by apply not_elem_of_nil in Hgd| |cbn in Hlen; lia].
  by apply list_elem_of_singleton in Hgd as ->.
Qed.

(** ** The theorems *)

(** There are only mutexes. *)
Abbreviation no_cv := (λ _ : Z, false).

Section theorems.
Context (bucket_of : Z → nat) (fair : bool).
#[local] Existing Instances raw_mutex raw_mutex_fair raw_mutex_timed mutex_lock_logic mutex_logic.

Definition start_api (d : loc → Z) : lstate := start_lstate start_state d.
(** A thread without commands is done. *)
Definition api_pool (scripts : tid → list cmd) : tid → lprog unit := λ t,
  match scripts t with
  | [] => Ret tt
  | cs =>
      thread (RM := raw_mutex bucket_of fair) (RF := raw_mutex_fair bucket_of fair)
        (RT := raw_mutex_timed bucket_of fair) cs
  end.

Implicit Types (scripts : tid → list cmd) (s : lstate) (ps : tid → lprog unit) (d : loc → Z).

Abbreviation XI := (XInv (L := mutex_lock_logic bucket_of no_cv) (λ t, Z.of_nat t + 1)).
Abbreviation xwp := (wp lexec XI (xpanic (L := mutex_lock_logic bucket_of no_cv) (λ _, False))
                       (xblocked (L := mutex_lock_logic bucket_of no_cv))).

Lemma api_verified scripts d s ps :
  reachable lexec (start_api d) (api_pool scripts) s ps →
  ∃ g ρ, XI s g ρ ∧ ∀ t, xwp t (ps t) (ρ t)
    (λ _ x, ∃ r, x = Role (L := mutex_lock_logic bucket_of no_cv) r None [] [] ∧ raw_has [] 0 r).
Proof.
  intros Hr.
  eapply (adequacy lexec XI _ _ (λ x, ∃ r, x = Role (L := mutex_lock_logic bucket_of no_cv) r None [] [] ∧ raw_has [] 0 r));
    [|exact Hr].
  exists (λ _, None), (λ _, Role (L := mutex_lock_logic bucket_of no_cv) (MkRole [] [] Idle None) None [] []). split.
  - apply (start_xinv (L := mutex_lock_logic bucket_of no_cv)), start_inv.
  - intros t. assert (H : raw_has [] 0 (MkRole [] [] Idle None)).
    { split; [by split|]. cbn. split; [done|]. split; [done|]. by split; constructor. }
    unfold api_pool. cbn [snd]. destruct (scripts t) as [|c cs]; [by apply wp_ret; eexists|].
    apply (wp_thread (ML := mutex_logic bucket_of no_cv fair)) with (ok := λ _, true); [done|done| |done].
    apply forallb_forall. intros. apply names_ok_all.
Qed.

(** C8: Safe code that uses [Mutex] or [FairMutex] through their guards has no
    data races. In every reachable configuration of any number of threads that
    run any programs with any number of mutexes (they lock, map, bump and drop
    guards, run closures unlocked, and panic), no two accesses to the same data
    have overlapped of which one was a write, each access is made by the
    thread that has the one guard of its mutex, and nothing panics but the
    closures. *)
Theorem mutex_data_race_free scripts d s ps :
  reachable lexec (start_api d) (api_pool scripts) s ps →
  raced s = false ∧ (∀ t m, ps t ≠ Panic m) ∧
  (∀ a, (length (live (raw_st s) a) ≤ 1)%nat) ∧
  (∀ t a p w, (t, (Data a p, w)) ∈ accesses s → live (raw_st s) a = [(t, GExclusive)]).
Proof.
  intros (g & ρ & HI & Hwp)%api_verified.
  assert (Hlen : ∀ a, (length (live (raw_st s) a) ≤ 1)%nat).
  { intros a. eapply live_unique, (xi_raw _ _ _ _ HI). }
  split; [apply HI|]. split; [|split; [done|]].
  - intros t m E. specialize (Hwp t). rewrite E in Hwp. by apply wp_no_panic in Hwp as [].
  - intros t a p w Hx. eapply access_alone; [exact HI|exact Hlen|exact Hx].
Qed.

(** Guards are dropped, and waiters woken. If no thread can take a step,
    then each thread either is done, also after a panic in a closure, and has
    no guard left, or it is queued on a mutex that is locked. *)
Theorem mutex_guards_dropped scripts d s ps :
  reachable lexec (start_api d) (api_pool scripts) s ps →
  (∀ t c, step1 lexec t c (ps t) s = None) →
  ∀ t, (ps t = Ret tt ∧ ∀ a gd, (t, gd) ∉ live (raw_st s) a) ∨
       ∃ b, t ∈ bqueue (raw_st s) b ∧
         has_bits (mem (raw_st s) (td_key (td (raw_st s) t))) RawMutex.LOCKED_BIT = true.
Proof.
  intros (g & ρ & HI & Hwp)%api_verified Hstuck t. pose proof (xi_raw _ _ _ _ HI) as HM.
  assert (Hall : ∀ u, (ps u = Ret tt ∧ raw_has [] 0 (rawr (ρ u))) ∨ blocked bucket_of u (rawr (ρ u)) (raw_st s)).
  { intros u. destruct (wp_progress _ _ _ _ _ _ s g ρ _ (Hwp u) HI)
      as [([] & ? & r & -> & ?)|[(? & _ & [[]|[]])|[[c Hs]|?]]]; [by left| |by right].
    rewrite Hstuck in Hs. by destruct Hs. }
  destruct (all_blocked _ _ _ _ _ HM) with t as [[_ Hn]|(b & Hq & [[_ ?]|[? _]])]; [|left|right; by exists b|done].
  - intros u. destruct (Hall u) as [[_ [? _]]|?]; auto.
  - destruct (Hall t) as [[E (_ & _ & Hg & _)]|?]; [|done]. split; [done|].
    intros a gd [_ Hin]%(mi_live _ _ _ _ _ HM). apply Hg in Hin. by apply elem_of_nil in Hin.
Qed.
End theorems.

(** ** A run: a closure, run while mutex 7 is unlocked, writes to the data of
    mutex 8 and panics *)

Section example.
Local Definition scripts (t : tid) : list cmd :=
  match t with
  | 0%nat => [CLock 7; CUnlocked 0 true [CLock 8; CWrite 0 [1%nat] 5; CPanic]; CRead 0 []]
  | _ => []
  end.
Local Definition pool := api_pool (λ _, 0%nat) false scripts.
Local Definition demo (n : nat) : lstate * (tid → lprog unit) :=
  default (start_api (λ _, 0), pool)
    (run lexec (repeat (0%nat, 0) n) (start_api (λ _, 0)) pool).

Lemma api_demo_reachable n :
  bool_decide (is_Some (run lexec (repeat (0%nat, 0) n) (start_api (λ _, 0)) pool)) = true →
  reachable lexec (start_api (λ _, 0)) pool (demo n).1 (demo n).2.
Proof.
  intros [[s ps] E]%bool_decide_eq_true. eapply run_reachable. unfold demo. by rewrite E.
Qed.

(** In the middle of the write. *)
Lemma mutex_data_race_free_witness :
  accesses (demo 20).1 = [(0%nat, (Data 8 [1%nat], true))] ∧ raced (demo 20).1 = false ∧
  live (raw_st (demo 20).1) 8 = [(0%nat, GExclusive)].
Proof.
  destruct (mutex_data_race_free (λ _, 0%nat) false scripts (λ _, 0) (demo 20).1 (demo 20).2)
    as (H1 & _ & _ & H4); [apply (api_demo_reachable 20); vm_compute; reflexivity|].
  split; [vm_compute; reflexivity|]. split; [exact H1|].
  apply (H4 0%nat 8 [1%nat] true). apply (proj1 (bool_decide_eq_true _)). vm_compute. reflexivity.
Defined.

(** At the end. *)
Lemma mutex_guards_dropped_witness :
  (∀ t c, step1 lexec t c ((demo 46).2 t) (demo 46).1 = None) ∧
  (((demo 46).2 0%nat = Ret tt ∧ ∀ a gd, (0%nat, gd) ∉ live (raw_st (demo 46).1) a) ∨
   ∃ b, 0%nat ∈ bqueue (raw_st (demo 46).1) b ∧
     has_bits (mem (raw_st (demo 46).1) (td_key (td (raw_st (demo 46).1) 0%nat))) RawMutex.LOCKED_BIT = true).
Proof.
  assert (Hstuck : ∀ t c, step1 lexec t c ((demo 46).2 t) (demo 46).1 = None).
  { intros [|t] c; vm_compute; reflexivity. }
  split; [exact Hstuck|].
  exact (mutex_guards_dropped (λ _, 0%nat) false scripts (λ _, 0) (demo 46).1 (demo 46).2
    (api_demo_reachable 46 ltac:(vm_compute; reflexivity)) Hstuck 0%nat).
Defined.
End example.
