(* ===== verification/RwLockApiProof.v ===== *)
(** * What lock_api's RwLock promises

    Programs of any number of threads that use read-write locks through their
    guards, in safe code: they acquire locks in all the ways there are, upgrade
    and downgrade guards, also for the time of a closure, map them to parts of
    the data, unlock them for a closure, fairly or not, and panic.  The rules
    are proved against the interface [RwLockLogic]. *)

From S2P Require Import Prelude Conc LotTypes BucketQueue ParkingLot LotInv RwLockExclusive LockApi LockApiLogic GuardClients.
Local Open Scope Z_scope.
Local Open Scope prog_scope.

(** ** What a raw read-write lock promises *)

Section ops.
Context {R1 : Raw.RwLock} {R2 : Raw.RwLockFair} {R3 : Raw.RwLockDowngrade} {R4 : Raw.RwLockTimed}
  {R5 : Raw.RwLockRecursive} {R6 : Raw.RwLockRecursiveTimed} {R7 : Raw.RwLockUpgrade}
  {R8 : Raw.RwLockUpgradeFair} {R9 : Raw.RwLockUpgradeDowngrade} {R10 : Raw.RwLockUpgradeTimed}.

Definition raw_acquire (a : Z) (o : acquisition) : iprog bool :=
  match o with
  | LockExclusive => always (Raw.lock_exclusive a)
  | TryLockExclusive => Raw.try_lock_exclusive a
  | TryLockExclusiveFor d => Raw.try_lock_exclusive_for a d
  | TryLockExclusiveUntil d => Raw.try_lock_exclusive_until a d
  | LockShared => always (Raw.lock_shared a)
  | TryLockShared => Raw.try_lock_shared a
  | TryLockSharedFor d => Raw.try_lock_shared_for a d
  | TryLockSharedUntil d => Raw.try_lock_shared_until a d
  | LockSharedRecursive => always (Raw.lock_shared_recursive a)
  | TryLockSharedRecursive => Raw.try_lock_shared_recursive a
  | TryLockSharedRecursiveFor d => Raw.try_lock_shared_recursive_for a d
  | TryLockSharedRecursiveUntil d => Raw.try_lock_shared_recursive_until a d
  | LockUpgradable => always (Raw.lock_upgradable a)
  | TryLockUpgradable => Raw.try_lock_upgradable a
  | TryLockUpgradableFor d => Raw.try_lock_upgradable_for a d
  | TryLockUpgradableUntil d => Raw.try_lock_upgradable_until a d
  end.

Definition raw_convert (a : Z) (o : conversion) : iprog bool :=
  match o with
  | Upgrade => always (Raw.upgrade a)
  | TryUpgrade => Raw.try_upgrade a
  | TryUpgradeFor d => Raw.try_upgrade_for a d
  | TryUpgradeUntil d => Raw.try_upgrade_until a d
  | Downgrade => always (Raw.downgrade a)
  | DowngradeUpgradable => always (Raw.downgrade_upgradable a)
  | DowngradeToUpgradable => always (Raw.downgrade_to_upgradable a)
  | BumpExclusive => always (Raw.bump_exclusive a)
  | BumpShared => always (Raw.bump_shared a)
  | BumpUpgradable => always (Raw.bump_upgradable a)
  end.

Definition raw_release (a : Z) (o : release) : iprog unit :=
  match o with
  | UnlockExclusive => Raw.unlock_exclusive a
  | UnlockExclusiveFair => Raw.unlock_exclusive_fair a
  | UnlockShared => Raw.unlock_shared a
  | UnlockSharedFair => Raw.unlock_shared_fair a
  | UnlockUpgradable => Raw.unlock_upgradable a
  | UnlockUpgradableFair => Raw.unlock_upgradable_fair a
  end.

Class RwLockLogic {L : LockLogic} := {
  acquire_spec t a o l m r : lk_thread t → lk_lock a → has l (S m) r →
    rawp t (raw_acquire a o) r
      (λ b : bool, if b then has_one (a, acquired o) l m else has l m);
  convert_spec t a o l m r : lk_thread t → lk_lock a → has_one (a, (converts o).1) l m r →
    rawp t (raw_convert a o) r (λ b : bool, has_one (a, if b then (converts o).2 else (converts o).1) l m);
  release_spec t a o l m r : lk_thread t → lk_lock a → has_one (a, released o) l m r →
    rawp t (raw_release a o) r (λ _, has l m);
  rw_is_locked_spec t a l m r : lk_thread t → lk_lock a → has l m r →
    rawp t (Raw.rw_is_locked a) r (λ _, has l m);
  is_locked_exclusive_spec t a l m r : lk_thread t → lk_lock a → has l m r →
    rawp t (Raw.is_locked_exclusive a) r (λ _, has l m);
}.

(** ** Programs with guards *)

Inductive rwval :=
| VRead (g : RwLockReadGuard.t) | VWrite (g : RwLockWriteGuard.t) | VUpgradable (g : upgradable_guard)
| VMappedRead (g : MappedRwLockReadGuard.t) | VMappedWrite (g : MappedRwLockWriteGuard.t).

#[export] Instance rwval_guard : GuardVal rwval := {
  gkind v :=
    match v with
    | VRead _ | VMappedRead _ => GShared
    | VUpgradable _ => GUpgradable
    | VWrite _ | VMappedWrite _ => GExclusive
    end;
  glock v :=
    match v with
    | VRead g => RwLockReadGuard.rwlock g
    | VWrite g => RwLockWriteGuard.rwlock g
    | VUpgradable g => upgradable_lock g
    | VMappedRead g => MappedRwLockReadGuard.raw g
    | VMappedWrite g => MappedRwLockWriteGuard.raw g
    end;
  gpointer v :=
    match v with
    | VRead g => RwLockReadGuard.deref g
    | VWrite g => RwLockWriteGuard.deref g
    | VUpgradable g => RwLockUpgradableReadGuard.deref g
    | VMappedRead g => MappedRwLockReadGuard.deref g
    | VMappedWrite g => MappedRwLockWriteGuard.deref g
    end;
  gdrop v :=
    match v with
    | VRead g => RwLockReadGuard.drop g
    | VWrite g => RwLockWriteGuard.drop g
    | VUpgradable g => RwLockUpgradableReadGuard.drop g
    | VMappedRead g => MappedRwLockReadGuard.drop g
    | VMappedWrite g => MappedRwLockWriteGuard.drop g
    end;
}.

(** [RWith]: a closure that has the data of an upgradable guard for writing. *)
Inductive rwcmd :=
| RAcquire (a : Z) (o : acquisition) | RIsLocked (a : Z) | RIsLockedExclusive (a : Z)
| RDrop (i : nat) | RUnlockFair (i : nat) | RBump (i : nat)
| RUnlocked (i : nat) (fair : bool) (body : list rwcmd)
| RConvert (i : nat) (o : conversion)
| RWith (i : nat) (o : conversion) (x : Z) (body : list rwcmd)
| RMap (i : nat) (x : Z) (q : list nat) (panics : bool)
| RTryMap (i : nat) (x : Z) (q : option (list nat)) (panics : bool)
| RTryMapOrErr (i : nat) (x : Z) (q : list nat + Z) (panics : bool)
| RRead (i : nat) (q : list nat) | RWrite (i : nat) (q : list nat) (x : Z)
| RPanic.

Abbreviation result := (bool * list rwval)%type.

Definition run_acquire (own : list rwval) (a : Z) (o : acquisition) : lprog result :=
  match o with
  | LockExclusive => g <- RwLock.write a;; Ret (false, VWrite g :: own)
  | TryLockExclusive => push own VWrite (RwLock.try_write a)
  | TryLockExclusiveFor d => push own VWrite (RwLock.try_write_for a d)
  | TryLockExclusiveUntil d => push own VWrite (RwLock.try_write_until a d)
  | LockShared => g <- RwLock.read a;; Ret (false, VRead g :: own)
  | TryLockShared => push own VRead (RwLock.try_read a)
  | TryLockSharedFor d => push own VRead (RwLock.try_read_for a d)
  | TryLockSharedUntil d => push own VRead (RwLock.try_read_until a d)
  | LockSharedRecursive => g <- RwLock.read_recursive a;; Ret (false, VRead g :: own)
  | TryLockSharedRecursive => push own VRead (RwLock.try_read_recursive a)
  | TryLockSharedRecursiveFor d => push own VRead (RwLock.try_read_recursive_for a d)
  | TryLockSharedRecursiveUntil d => push own VRead (RwLock.try_read_recursive_until a d)
  | LockUpgradable => g <- RwLock.upgradable_read a;; Ret (false, VUpgradable g :: own)
  | TryLockUpgradable => push own VUpgradable (RwLock.try_upgradable_read a)
  | TryLockUpgradableFor d => push own VUpgradable (RwLock.try_upgradable_read_for a d)
  | TryLockUpgradableUntil d => push own VUpgradable (RwLock.try_upgradable_read_until a d)
  end.

Definition run_unlock_fair (v : rwval) : lprog unit :=
  match v with
  | VRead g => RwLockReadGuard.unlock_fair g
  | VWrite g => RwLockWriteGuard.unlock_fair g
  | VUpgradable g => RwLockUpgradableReadGuard.unlock_fair g
  | VMappedRead g => MappedRwLockReadGuard.unlock_fair g
  | VMappedWrite g => MappedRwLockWriteGuard.unlock_fair g
  end.

(** Mapped guards cannot be bumped. *)
Definition run_bump (v : rwval) : lprog unit :=
  match v with
  | VRead g => RwLockReadGuard.bump g
  | VWrite g => RwLockWriteGuard.bump g
  | VUpgradable g => RwLockUpgradableReadGuard.bump g
  | _ => Ret tt
  end.

Definition run_unlocked (v : rwval) (fair : bool) (f : lprog (outcome unit)) : lprog (outcome unit) :=
  match v with
  | VRead g => if fair then RwLockReadGuard.unlocked_fair g f else RwLockReadGuard.unlocked g f
  | VWrite g => if fair then RwLockWriteGuard.unlocked_fair g f else RwLockWriteGuard.unlocked g f
  | VUpgradable g =>
      if fair then RwLockUpgradableReadGuard.unlocked_fair g f else RwLockUpgradableReadGuard.unlocked g f
  | _ => Ret (Done tt)
  end.

Definition upgraded (r : RwLockWriteGuard.t + upgradable_guard) : rwval :=
  match r with inl g => VWrite g | inr g => VUpgradable g end.

(** The conversions there are for the guard. *)
Definition run_convert (v : rwval) (o : conversion) : lprog rwval :=
  match v, o with
  | VUpgradable g, Upgrade => g <- RwLockUpgradableReadGuard.upgrade g;; Ret (VWrite g)
  | VUpgradable g, TryUpgrade => r <- RwLockUpgradableReadGuard.try_upgrade g;; Ret (upgraded r)
  | VUpgradable g, TryUpgradeFor d => r <- RwLockUpgradableReadGuard.try_upgrade_for g d;; Ret (upgraded r)
  | VUpgradable g, TryUpgradeUntil d => r <- RwLockUpgradableReadGuard.try_upgrade_until g d;; Ret (upgraded r)
  | VUpgradable g, DowngradeUpgradable => g <- RwLockUpgradableReadGuard.downgrade g;; Ret (VRead g)
  | VWrite g, Downgrade => g <- RwLockWriteGuard.downgrade g;; Ret (VRead g)
  | VWrite g, DowngradeToUpgradable => g <- RwLockWriteGuard.downgrade_to_upgradable g;; Ret (VUpgradable g)
  | _, _ => Ret v
  end.

(** Whether the closure unwinds. *)
Definition run_upgraded (g : upgradable_guard) (o : conversion) (f : loc → lprog (outcome unit)) : lprog bool :=
  match o with
  | Upgrade => r <- RwLockUpgradableReadGuard.with_upgraded g f;; Ret (unwound r)
  | TryUpgrade => r <- RwLockUpgradableReadGuard.try_with_upgraded g f;; Ret (unwound r)
  | TryUpgradeFor d => r <- RwLockUpgradableReadGuard.try_with_upgraded_for g d f;; Ret (unwound r)
  | TryUpgradeUntil d => r <- RwLockUpgradableReadGuard.try_with_upgraded_until g d f;; Ret (unwound r)
  | _ => Ret false
  end.

Fixpoint run_rwcmd (c : rwcmd) (outer own : list rwval) {struct c} : lprog result :=
  match c with
  | RAcquire a o => if Z.even a then run_acquire own a o else Ret (false, own)
  | RIsLocked a => if Z.even a then RwLock.is_locked a;; Ret (false, own) else Ret (false, own)
  | RIsLockedExclusive a =>
      if Z.even a then RwLock.is_locked_exclusive a;; Ret (false, own) else Ret (false, own)
  | RDrop i =>
      match own !! i with Some v => gdrop v;; Ret (false, delete i own) | None => Ret (false, own) end
  | RUnlockFair i =>
      match own !! i with
      | Some v => run_unlock_fair v;; Ret (false, delete i own)
      | None => Ret (false, own)
      end
  | RBump i => match own !! i with Some v => run_bump v;; Ret (false, own) | None => Ret (false, own) end
  | RUnlocked i fair body =>
      match own !! i with
      | Some v =>
          r <- run_unlocked v fair (closure (run_with run_rwcmd body (delete i own ++ outer) []));;
          Ret (unwound r, own)
      | None => Ret (false, own)
      end
  | RConvert i o =>
      match own !! i with
      | Some v => v <- run_convert v o;; Ret (false, <[i := v]> own)
      | None => Ret (false, own)
      end
  | RWith i o x body =>
      match own !! i with
      | Some (VUpgradable g) =>
          let data := VWrite (RwLockWriteGuard.Mk (upgradable_lock g)) in
          r <- run_upgraded g o (λ l,
            write_at l x;; closure (run_with run_rwcmd body (data :: delete i own ++ outer) []));;
          Ret (r, own)
      | _ => Ret (false, own)
      end
  | RMap i x q p =>
      let k l := sub l q in
      match own !! i with
      | Some (VRead g) => mapped own i (RwLockReadGuard.map g (mapper (VRead g) x k p)) VMappedRead
      | Some (VWrite g) => mapped own i (RwLockWriteGuard.map g (mapper (VWrite g) x k p)) VMappedWrite
      | Some (VMappedRead g) =>
          mapped own i (MappedRwLockReadGuard.map g (mapper (VMappedRead g) x k p)) VMappedRead
      | Some (VMappedWrite g) =>
          mapped own i (MappedRwLockWriteGuard.map g (mapper (VMappedWrite g) x k p)) VMappedWrite
      | _ => Ret (false, own)
      end
  | RTryMap i x q p =>
      let k l := match q with Some q => Some (sub l q) | None => None end in
      match own !! i with
      | Some (VRead g) =>
          mapped own i (RwLockReadGuard.try_map g (mapper (VRead g) x k p))
            (λ r, match r with inl g => VMappedRead g | inr g => VRead g end)
      | Some (VWrite g) =>
          mapped own i (RwLockWriteGuard.try_map g (mapper (VWrite g) x k p))
            (λ r, match r with inl g => VMappedWrite g | inr g => VWrite g end)
      | Some (VMappedRead g) =>
          mapped own i (MappedRwLockReadGuard.try_map g (mapper (VMappedRead g) x k p))
            (λ r, match r with inl g => VMappedRead g | inr g => VMappedRead g end)
      | Some (VMappedWrite g) =>
          mapped own i (MappedRwLockWriteGuard.try_map g (mapper (VMappedWrite g) x k p))
            (λ r, match r with inl g => VMappedWrite g | inr g => VMappedWrite g end)
      | _ => Ret (false, own)
      end
  | RTryMapOrErr i x q p =>
      let k l := match q with inl q => inl (sub l q) | inr e => inr e end in
      match own !! i with
      | Some (VRead g) =>
          mapped own i (RwLockReadGuard.try_map_or_err g (mapper (VRead g) x k p))
            (λ r, match r with inl g => VMappedRead g | inr (g, _) => VRead g end)
      | Some (VWrite g) =>
          mapped own i (RwLockWriteGuard.try_map_or_err g (mapper (VWrite g) x k p))
            (λ r, match r with inl g => VMappedWrite g | inr (g, _) => VWrite g end)
      | Some (VMappedRead g) =>
          mapped own i (MappedRwLockReadGuard.try_map_or_else g (mapper (VMappedRead g) x k p))
            (λ r, match r with inl g => VMappedRead g | inr (g, _) => VMappedRead g end)
      | Some (VMappedWrite g) =>
          mapped own i (MappedRwLockWriteGuard.try_map_or_err g (mapper (VMappedWrite g) x k p))
            (λ r, match r with inl g => VMappedWrite g | inr (g, _) => VMappedWrite g end)
      | _ => Ret (false, own)
      end
  | RRead i q =>
      match (own ++ outer) !! i with
      | Some v => read_at (sub (gpointer v) q);; Ret (false, own)
      | None => Ret (false, own)
      end
  | RWrite i q x =>
      match (own ++ outer) !! i with
      | Some v => if decide (gkind v = GExclusive) then write_at (sub (gpointer v) q) x;; Ret (false, own) else Ret (false, own)
      | None => Ret (false, own)
      end
  | RPanic => Ret (true, own)
  end.

(** How many locks a command acquires at most, its closures included. *)
Fixpoint rw_cost (c : rwcmd) : nat :=
  match c with
  | RAcquire _ _ => 1
  | RUnlocked _ _ body => S (foldr (λ c k, rw_cost c + k) 0 body)
  | RWith _ _ _ body => foldr (λ c k, rw_cost c + k) 0 body
  | _ => 0
  end%nat.

(** A thread: at its end, or when it has panicked, its guards are dropped. *)
Definition rw_thread (cs : list rwcmd) : lprog unit :=
  r <- run_with run_rwcmd cs [] [];; drop_all r.2.
End ops.

Lemma rwcmd_nested (P : rwcmd → Prop) :
  (∀ c, (∀ i fair body, c ≠ RUnlocked i fair body) → (∀ i o x body, c ≠ RWith i o x body) → P c) →
  (∀ i fair body, Forall P body → P (RUnlocked i fair body)) →
  (∀ i o x body, Forall P body → P (RWith i o x body)) → ∀ c, P c.
Proof.
  intros H1 H2 H3. fix IH 1. intros []; try (apply H1; congruence).
  - apply H2. induction body as [|c body IHb]; constructor; [apply IH|exact IHb].
  - apply H3. induction body as [|c body IHb]; constructor; [apply IH|exact IHb].
Qed.

(** ** Every program is verified *)

Section verify.
Context {R1 : Raw.RwLock} {R2 : Raw.RwLockFair} {R3 : Raw.RwLockDowngrade} {R4 : Raw.RwLockTimed}
  {R5 : Raw.RwLockRecursive} {R6 : Raw.RwLockRecursiveTimed} {R7 : Raw.RwLockUpgrade}
  {R8 : Raw.RwLockUpgradeFair} {R9 : Raw.RwLockUpgradeDowngrade} {R10 : Raw.RwLockUpgradeTimed}.
Context {L : LockLogic} {RL : RwLockLogic}.
Context (id : tid → Z) (t : tid) (Ht : lk_thread t) (Hlocks : ∀ a, Z.even a = true → lk_lock a).
Implicit Types (own outer vs : list rwval) (r : lk_role) (v : rwval) (m k : nat).

Abbreviation xwp := (wp lexec (XInv id) (xpanic (λ _, False)) xblocked t).
Abbreviation R r := (Role r None [] []).

(** The operations that always succeed. *)
Lemma always_inv (p : iprog unit) r (Q : bool → lk_role → Prop) :
  rawp t (always p) r Q → rawp t p r (λ _ r', Q true r').
Proof.
  intros H. unfold always in H. apply wp_bind_inv in H. eapply wp_mono; [|exact H].
  intros [] r' Hr'. by apply wp_ret_inv in Hr'.
Qed.

Lemma acquire_always a o (p : iprog unit) l m r :
  raw_acquire a o = always p → lk_lock a → has l (S m) r → rawp t p r (λ _, has_one (a, acquired o) l m).
Proof.
  intros E Ha Hr. apply (always_inv p r (λ b : bool, if b then has_one (a, acquired o) l m else has l m)).
  rewrite <- E. by apply acquire_spec.
Qed.

Lemma convert_always a o (p : iprog unit) l m r :
  raw_convert a o = always p → lk_lock a → has_one (a, (converts o).1) l m r →
  rawp t p r (λ _, has_one (a, (converts o).2) l m).
Proof.
  intros E Ha Hr.
  apply (always_inv p r (λ b : bool, has_one (a, if b then (converts o).2 else (converts o).1) l m)).
  rewrite <- E. by apply convert_spec.
Qed.

(** How to release a guard, fairly or not. *)
Definition releases (gd : guard) (fair : bool) : release :=
  match gd with
  | GShared => if fair then UnlockSharedFair else UnlockShared
  | GExclusive => if fair then UnlockExclusiveFair else UnlockExclusive
  | GUpgradable => if fair then UnlockUpgradableFair else UnlockUpgradable
  end.

Lemma released_releases gd fair : released (releases gd fair) = gd.
Proof. by destruct gd, fair. Qed.

Lemma release_guard v fair l m r :
  lk_lock (glock v) → has_one (key v) l m r →
  rawp t (raw_release (glock v) (releases (gkind v) fair)) r (λ _, has l m).
Proof. intros Ha Hr. apply release_spec; [done|done|]. by rewrite released_releases. Qed.

Lemma wp_release vs v vs' m fair r (Q : unit → role → Prop) :
  holds vs m r → vs ≡ₚ v :: vs' → (∀ r', holds vs' m r' → Q tt (R r')) →
  xwp (leave (glock v) (gkind v) (raw_release (glock v) (releases (gkind v) fair))) (R r) Q.
Proof.
  intros Hr E HQ. pose proof (holds_perm _ _ _ _ E Hr) as (_ & [Hv _]%Forall_cons).
  eapply (wp_release_guard id t Ht v); [exact Hr|exact E| |exact HQ].
  intros r' Hr'. by apply release_guard; [apply Hv|].
Qed.

Lemma rw_drop v vs m r (Q : unit → role → Prop) :
  holds (v :: vs) m r → (∀ r', holds vs m r' → Q tt (R r')) → xwp (gdrop v) (R r) Q.
Proof.
  intros Hr HQ. pose proof (wp_release (v :: vs) v vs m false r Q Hr ltac:(done) HQ) as H. by destruct v.
Qed.

Lemma wp_run_unlock_fair v vs vs' m r (Q : unit → role → Prop) :
  holds vs m r → vs ≡ₚ v :: vs' → (∀ r', holds vs' m r' → Q tt (R r')) → xwp (run_unlock_fair v) (R r) Q.
Proof.
  intros Hr E HQ. pose proof (wp_release vs v vs' m true r Q Hr E HQ) as H. by destruct v.
Qed.

Lemma points_kept v v' : points v → glock v' = glock v → gpointer v' = Data (glock v') [] → points v'.
Proof. intros [Hv _] E Ep. split; [by rewrite E|by exists []]. Qed.

(** *** Acquiring *)

Lemma wp_acquire_now {G} v (g : G) (f : G → rwval) a o (p : iprog unit) vs m r (Q : bool * list rwval → role → Prop) own outer :
  raw_acquire a o = always p → key v = (a, acquired o) → points v → f g = v → vs = own ++ outer →
  holds vs (S m) r → (∀ b own' r', holds (own' ++ outer) m r' → Q (b, own') (R r')) →
  xwp (g <- (lift p;; enter (glock v) (gkind v);; Ret g);; Ret (false, f g :: own)) (R r) Q.
Proof.
  intros Eo Ek Hv Ef -> [Hr Hvs] HQ. apply wp_bind.
  eapply (wp_new_guard id t Ht v); [done|exact Hvs| |].
  - rewrite Ek. apply acquire_always; [done| |done]. injection Ek as <- _. apply Hv.
  - intros r' Hr'. wp_pure. rewrite Ef. by apply HQ.
Qed.

Lemma wp_acquire_try {G} v (g : G) (f : G → rwval) a o (p : iprog bool) m r (Q : bool * list rwval → role → Prop) own outer :
  raw_acquire a o = p → key v = (a, acquired o) → points v → f g = v →
  holds (own ++ outer) (S m) r → (∀ b own' r', holds (own' ++ outer) m r' → Q (b, own') (R r')) →
  xwp (push own f (acquire_if p (enter (glock v) (gkind v);; Ret g))) (R r) Q.
Proof.
  intros <- Ek Hv Ef [Hr Hvs] HQ. eapply (wp_try_guard id t Ht v g f); [done|done|done|exact Hvs| |exact HQ].
  rewrite Ek. apply acquire_spec; [done| |done]. injection Ek as <- _. apply Hv.
Qed.

Lemma wp_run_acquire own outer a o m r (Q : bool * list rwval → role → Prop) :
  Z.even a = true → holds (own ++ outer) (S m) r →
  (∀ b own' r', holds (own' ++ outer) m r' → Q (b, own') (R r')) → xwp (run_acquire own a o) (R r) Q.
Proof.
  intros Ha Hr HQ.
  assert (HS : points (VRead (RwLockReadGuard.Mk a))) by (split; [by apply Hlocks|by exists []]).
  assert (HW : points (VWrite (RwLockWriteGuard.Mk a))) by (split; [by apply Hlocks|by exists []]).
  assert (HU : points (VUpgradable (MkUpgradable a))) by (split; [by apply Hlocks|by exists []]).
  destruct o; cbn [run_acquire];
    unfold RwLock.write, RwLock.try_write, RwLock.try_write_for, RwLock.try_write_until, RwLock.read,
      RwLock.try_read, RwLock.try_read_for, RwLock.try_read_until, RwLock.read_recursive,
      RwLock.try_read_recursive, RwLock.try_read_recursive_for, RwLock.try_read_recursive_until,
      RwLock.upgradable_read, RwLock.try_upgradable_read, RwLock.try_upgradable_read_for,
      RwLock.try_upgradable_read_until, RwLock.make_read_guard_unchecked, RwLock.make_write_guard_unchecked,
      RwLock.make_upgradable_guard_unchecked;
    as_guard (VRead (RwLockReadGuard.Mk a)); as_guard (VWrite (RwLockWriteGuard.Mk a));
    as_guard (VUpgradable (MkUpgradable a)).
  all: first
    [ eapply (wp_acquire_now (VWrite (RwLockWriteGuard.Mk a)) (RwLockWriteGuard.Mk a) VWrite a LockExclusive); done
    | eapply (wp_acquire_now (VRead (RwLockReadGuard.Mk a)) (RwLockReadGuard.Mk a) VRead a LockShared); done
    | eapply (wp_acquire_now (VRead (RwLockReadGuard.Mk a)) (RwLockReadGuard.Mk a) VRead a LockSharedRecursive); done
    | eapply (wp_acquire_now (VUpgradable (MkUpgradable a)) (MkUpgradable a) VUpgradable a LockUpgradable); done
    | idtac ].
  - by eapply (wp_acquire_try (VWrite (RwLockWriteGuard.Mk a)) _ VWrite a TryLockExclusive).
  - by eapply (wp_acquire_try (VWrite (RwLockWriteGuard.Mk a)) _ VWrite a (TryLockExclusiveFor d)).
  - by eapply (wp_acquire_try (VWrite (RwLockWriteGuard.Mk a)) _ VWrite a (TryLockExclusiveUntil d)).
  - by eapply (wp_acquire_try (VRead (RwLockReadGuard.Mk a)) _ VRead a TryLockShared).
  - by eapply (wp_acquire_try (VRead (RwLockReadGuard.Mk a)) _ VRead a (TryLockSharedFor d)).
  - by eapply (wp_acquire_try (VRead (RwLockReadGuard.Mk a)) _ VRead a (TryLockSharedUntil d)).
  - by eapply (wp_acquire_try (VRead (RwLockReadGuard.Mk a)) _ VRead a TryLockSharedRecursive).
  - by eapply (wp_acquire_try (VRead (RwLockReadGuard.Mk a)) _ VRead a (TryLockSharedRecursiveFor d)).
  - by eapply (wp_acquire_try (VRead (RwLockReadGuard.Mk a)) _ VRead a (TryLockSharedRecursiveUntil d)).
  - by eapply (wp_acquire_try (VUpgradable (MkUpgradable a)) _ VUpgradable a TryLockUpgradable).
  - by eapply (wp_acquire_try (VUpgradable (MkUpgradable a)) _ VUpgradable a (TryLockUpgradableFor d)).
  - by eapply (wp_acquire_try (VUpgradable (MkUpgradable a)) _ VUpgradable a (TryLockUpgradableUntil d)).
Qed.

(** *** Converting *)

(** A guard that becomes another one, in a call that always succeeds. *)
Lemma wp_convert_always v v' o (p : iprog unit) vs vs' m r (Q : unit → role → Prop) :
  holds vs m r → vs ≡ₚ v :: vs' → raw_convert (glock v) o = always p → converts o = (gkind v, gkind v') →
  glock v' = glock v → gpointer v' = Data (glock v') [] →
  (∀ r', holds (v' :: vs') m r' → Q tt (R r')) →
  xwp (change (glock v) (gkind v) (gkind v') p) (R r) Q.
Proof.
  intros Hr E Eo Ec El Ep HQ. pose proof (holds_perm _ _ _ _ E Hr) as (_ & [Hv _]%Forall_cons).
  eapply (wp_change id t Ht v v'); [exact Hr|exact E|done|by eapply points_kept| |exact HQ].
  intros r' Hr'. unfold key in *. rewrite El. change (gkind v') with (gkind v, gkind v').2. rewrite <- Ec.
  eapply convert_always; [done|apply Hv|by rewrite Ec].
Qed.

Lemma wp_convert_try v v' o vs vs' m r (Q : bool → role → Prop) :
  holds vs m r → vs ≡ₚ v :: vs' → converts o = (gkind v, gkind v') →
  glock v' = glock v → gpointer v' = Data (glock v') [] →
  (∀ (b : bool) r', holds ((if b then v' else v) :: vs') m r' → Q b (R r')) →
  xwp (try_change (glock v) (gkind v) (gkind v') (raw_convert (glock v) o)) (R r) Q.
Proof.
  intros Hr E Ec El Ep HQ. pose proof (holds_perm _ _ _ _ E Hr) as (_ & [Hv _]%Forall_cons).
  eapply (wp_try_change id t Ht v v'); [exact Hr|exact E|done|by eapply points_kept| |exact HQ].
  intros r' Hr'. eapply wp_mono; [|apply (convert_spec t (glock v) o); [done|apply Hv|by rewrite Ec]].
  intros b r''. rewrite Ec. unfold key. rewrite El. by destruct b.
Qed.

Lemma wp_run_bump v vs vs' m r (Q : unit → role → Prop) :
  holds vs m r → vs ≡ₚ v :: vs' → (∀ r', holds vs m r' → Q tt (R r')) → xwp (run_bump v) (R r) Q.
Proof.
  intros Hr E HQ.
  assert (HQ' : ∀ r', holds (v :: vs') m r' → Q tt (R r')).
  { intros r' Hr'. apply HQ. by eapply holds_perm; [symmetry; exact E|]. }
  destruct v as [g|g|g|g|g]; cbn [run_bump]; try (by apply wp_ret, HQ).
  - by apply (wp_convert_always (VRead g) (VRead g) BumpShared (Raw.bump_shared (RwLockReadGuard.rwlock g)) vs vs' m).
  - by apply (wp_convert_always (VWrite g) (VWrite g) BumpExclusive (Raw.bump_exclusive (RwLockWriteGuard.rwlock g)) vs vs' m).
  - by apply (wp_convert_always (VUpgradable g) (VUpgradable g) BumpUpgradable (Raw.bump_upgradable (upgradable_lock g)) vs vs' m).
Qed.

Definition write_guard (g : upgradable_guard) : rwval := VWrite (RwLockWriteGuard.Mk (upgradable_lock g)).

Lemma wp_try_upgrade_with g o vs vs' m r (Q : rwval → role → Prop) :
  holds vs m r → vs ≡ₚ VUpgradable g :: vs' → converts o = (GUpgradable, GExclusive) →
  (∀ v' r', holds (v' :: vs') m r' → Q v' (R r')) →
  xwp (r <- RwLockUpgradableReadGuard.try_upgrade_with (raw_convert (upgradable_lock g) o) g;; Ret (upgraded r)) (R r) Q.
Proof.
  intros Hr E Ec HQ. unfold RwLockUpgradableReadGuard.try_upgrade_with. wp_pure.
  apply (wp_convert_try (VUpgradable g) (write_guard g) o vs vs' m); [done..|].
  intros b r' Hr'. wp_pure. specialize (HQ (if b then write_guard g else VUpgradable g) r' Hr').
  by destruct b.
Qed.

Lemma wp_run_convert v o vs vs' m r (Q : rwval → role → Prop) :
  holds vs m r → vs ≡ₚ v :: vs' → (∀ v' r', holds (v' :: vs') m r' → Q v' (R r')) →
  xwp (run_convert v o) (R r) Q.
Proof.
  intros Hr E HQ.
  assert (Hsame : Q v (R r)) by (apply HQ; by eapply holds_perm).
  destruct v as [g|g|g|g|g]; cbn [run_convert]; try (by apply wp_ret); destruct o as [| |d|d| | | | | |];
    try (by apply wp_ret);
    try (first [ by apply (wp_try_upgrade_with g TryUpgrade vs vs' m)
               | by apply (wp_try_upgrade_with g (TryUpgradeFor d) vs vs' m)
               | by apply (wp_try_upgrade_with g (TryUpgradeUntil d) vs vs' m) ]).
  - unfold RwLockWriteGuard.downgrade. wp_pure.
    apply (wp_convert_always (VWrite g) (VRead (RwLockReadGuard.Mk (RwLockWriteGuard.rwlock g))) Downgrade
      (Raw.downgrade (RwLockWriteGuard.rwlock g)) vs vs' m); [done..|]. intros r' Hr'. wp_pure. by apply HQ.
  - unfold RwLockWriteGuard.downgrade_to_upgradable. wp_pure.
    apply (wp_convert_always (VWrite g) (VUpgradable (MkUpgradable (RwLockWriteGuard.rwlock g))) DowngradeToUpgradable
      (Raw.downgrade_to_upgradable (RwLockWriteGuard.rwlock g)) vs vs' m); [done..|].
    intros r' Hr'. wp_pure. by apply HQ.
  - unfold RwLockUpgradableReadGuard.upgrade. wp_pure.
    apply (wp_convert_always (VUpgradable g) (write_guard g) Upgrade
      (Raw.upgrade (upgradable_lock g)) vs vs' m); [done..|]. intros r' Hr'. wp_pure. by apply HQ.
  - unfold RwLockUpgradableReadGuard.downgrade. wp_pure.
    apply (wp_convert_always (VUpgradable g) (VRead (RwLockReadGuard.Mk (upgradable_lock g))) DowngradeUpgradable
      (Raw.downgrade_upgradable (upgradable_lock g)) vs vs' m); [done..|]. intros r' Hr'. wp_pure. by apply HQ.
Qed.

(** *** Closures *)

(** The closure [f] may use up [k] acquisitions. *)
Definition closes k vs (f : lprog (outcome unit)) : Prop :=
  ∀ m r (Q : outcome unit → role → Prop),
    holds vs (k + m) r → (∀ o r', holds vs m r' → Q o (R r')) → xwp f (R r) Q.

(** How to acquire the lock of a guard again. *)
Definition acquires (gd : guard) : acquisition :=
  match gd with GShared => LockShared | GExclusive => LockExclusive | GUpgradable => LockUpgradable end.

Lemma wp_run_unlocked v fair vs vs' k m (f : lprog (outcome unit)) r (Q : outcome unit → role → Prop) :
  holds vs (S (k + m)) r → vs ≡ₚ v :: vs' → closes k vs' f → (∀ o r', holds vs m r' → Q o (R r')) →
  xwp (run_unlocked v fair f) (R r) Q.
Proof.
  intros Hr E Hf HQ. pose proof (holds_perm _ _ _ _ E Hr) as (_ & [[Hv _] _]%Forall_cons).
  assert (H : ∀ p, raw_acquire (glock v) (acquires (gkind v)) = always p →
    xwp (leave (glock v) (gkind v) (raw_release (glock v) (releases (gkind v) fair));;
         deferred f (lift p;; enter (glock v) (gkind v))) (R r) Q).
  { intros p Ep. rewrite <- Nat.add_succ_r in Hr.
    eapply (wp_unlocked id t Ht v vs vs' k m); [exact Hr|exact E|..|exact HQ].
    - intros r' Hr'. by apply release_guard.
    - intros r' Q' Hr' HQ'. by apply (Hf (S m) r').
    - intros r' Hr'. eapply wp_mono; [|by eapply acquire_always; [exact Ep| |exact Hr']].
      intros [] r''. unfold key. by destruct (gkind v). }
  destruct v as [g|g|g|g|g]; cbn [run_unlocked];
    try (apply wp_ret, HQ; by eapply (holds_le _ _ (S (k + m))); [lia|]); specialize (H _ eq_refl);
    by destruct fair.
Qed.

(** The closure has the data for writing, and the guard is downgraded again. *)
Lemma wp_restored g x (f : lprog (outcome unit)) vs' k m r (Q : outcome unit → role → Prop) :
  holds (write_guard g :: vs') (k + m) r → closes k (write_guard g :: vs') f →
  (∀ o r', holds (VUpgradable g :: vs') m r' → Q o (R r')) →
  xwp (RwLockUpgradableReadGuard.restored g (λ l, write_at l x;; f)) (R r) Q.
Proof.
  intros Hr Hf HQ. unfold RwLockUpgradableReadGuard.restored, deferred. wp_pure.
  pose proof (wp_write_guard id t (write_guard g :: vs') (write_guard g) [] x (k + m) r) as HW.
  rewrite sub_nil in HW. apply HW; [by left|done|done|]. wp_pure.
  apply (Hf m r); [done|]. intros o r' Hr'. wp_pure.
  apply (wp_convert_always (write_guard g) (VUpgradable g) DowngradeToUpgradable
    (Raw.downgrade_to_upgradable (upgradable_lock g)) (write_guard g :: vs') vs' m); [done..|].
  intros r'' Hr''. wp_pure. by apply HQ.
Qed.

Lemma wp_run_upgraded g o x (f : lprog (outcome unit)) vs vs' k m r (Q : bool → role → Prop) :
  holds vs (k + m) r → vs ≡ₚ VUpgradable g :: vs' → closes k (write_guard g :: vs') f →
  (∀ b r', holds vs m r' → Q b (R r')) →
  xwp (run_upgraded g o (λ l, write_at l x;; f)) (R r) Q.
Proof.
  intros Hr E Hf HQ.
  assert (HQ' : ∀ b r', holds (VUpgradable g :: vs') m r' → Q b (R r')).
  { intros b r' Hr'. apply HQ. by eapply holds_perm; [symmetry; exact E|]. }
  assert (Htry : ∀ o', converts o' = (GUpgradable, GExclusive) →
    xwp (r <- RwLockUpgradableReadGuard.try_with (raw_convert (upgradable_lock g) o') g (λ l, write_at l x;; f);;
         Ret (unwound r)) (R r) Q).
  { intros o' Ec. unfold RwLockUpgradableReadGuard.try_with. wp_pure.
    apply (wp_convert_try (VUpgradable g) (write_guard g) o' vs vs' (k + m)); [done..|].
    intros [|] r' Hr'; wp_pure.
    - unfold consume. wp_pure. apply (wp_restored g x f vs' k m r'); [done|done|].
      intros [y|] r'' Hr''; wp_pure; by apply HQ'.
    - apply HQ'. by eapply holds_le; [|exact Hr']; lia. }
  destruct o as [| |d|d| | | | | |]; cbn [run_upgraded];
    try (apply wp_ret, HQ; by eapply (holds_le _ _ (k + m)); [lia|]);
    [|by apply (Htry TryUpgrade)|by apply (Htry (TryUpgradeFor d))|by apply (Htry (TryUpgradeUntil d))].
  unfold RwLockUpgradableReadGuard.with_upgraded. wp_pure.
  apply (wp_convert_always (VUpgradable g) (write_guard g) Upgrade
    (Raw.upgrade (upgradable_lock g)) vs vs' (k + m)); [done..|]. intros r' Hr'. wp_pure.
  apply (wp_restored g x f vs' k m r'); [done|done|]. intros b r'' Hr''. wp_pure. by apply HQ'.
Qed.

(** *** Commands *)

Abbreviation rwruns c := (runs id t (rw_cost c) (run_rwcmd c)).

Lemma wp_closes body vs :
  Forall (λ c, rwruns c) body →
  closes (total rw_cost body) vs (closure (run_with run_rwcmd body vs [])).
Proof. intros Hb m r Q Hr HQ. by eapply (wp_closure id t run_rwcmd rw_cost); [apply rw_drop|..]. Qed.

Lemma wp_unlocked_cmd i fair body : Forall (λ c, rwruns c) body → rwruns (RUnlocked i fair body).
Proof.
  intros Hb outer own m r Q Hr HQ. cbn [run_rwcmd].
  destruct (own !! i) as [v|] eqn:Hi;
    [|by apply wp_ret, HQ; eapply (holds_le _ _ (rw_cost (RUnlocked i fair body) + m)); [lia|]].
  wp_pure. eapply (wp_run_unlocked v fair); [exact Hr|by apply delete_perm|by apply wp_closes|].
  intros o r' Hr'. wp_pure. by apply HQ.
Qed.

Lemma wp_with_cmd i o x body : Forall (λ c, rwruns c) body → rwruns (RWith i o x body).
Proof.
  intros Hb outer own m r Q Hr HQ. cbn [run_rwcmd].
  assert (Hn : Q (false, own) (R r)).
  { apply HQ. by eapply (holds_le _ _ (rw_cost (RWith i o x body) + m)); [lia|]. }
  destruct (own !! i) as [[g|g|g|g|g]|] eqn:Hi; try (by apply wp_ret).
  wp_pure. eapply (wp_run_upgraded g o x); [exact Hr|by apply delete_perm|by apply wp_closes|].
  intros b r' Hr'. wp_pure. by apply HQ.
Qed.

(** Maps, of whatever guard, to one of the same lock and kind. *)
Lemma wp_map_cmd {X Y} own outer i v x (k : loc → X) p (g : X → Y) (f : Y → rwval) m r
    (Q : bool * list rwval → role → Prop) :
  own !! i = Some v → holds (own ++ outer) m r →
  (points v → key (f (g (k (gpointer v)))) = key v ∧ points (f (g (k (gpointer v))))) →
  (∀ b own' r', holds (own' ++ outer) m r' → Q (b, own') (R r')) →
  xwp (mapped own i (consume (mapper v x k p (gpointer v)) (gdrop v) g) f) (R r) Q.
Proof.
  intros Hi Hr H HQ. destruct (H (guard_points _ _ _ _ (in_guards own outer i v Hi) Hr)) as [H1 H2].
  by eapply (wp_mapped id t rw_drop).
Qed.

Lemma points_part v v' q : points v → glock v' = glock v → gpointer v' = sub (gpointer v) q → points v'.
Proof. intros Hv E Ep. split; [rewrite E; apply Hv|]. rewrite E, Ep. by apply points_sub. Qed.

Lemma wp_rmap_cmd i x q p : rwruns (RMap i x q p).
Proof.
  intros outer own m r Q Hr HQ. cbn [run_rwcmd]. set (k := λ l, sub l q).
  destruct (own !! i) as [[g|g|g|g|g]|] eqn:Hi; try (by apply wp_ret, HQ).
  - eapply (wp_map_cmd own outer i (VRead g) x k p (MappedRwLockReadGuard.Mk (RwLockReadGuard.rwlock g)) VMappedRead);
      [done|exact Hr| |exact HQ]. intros Hp. split; [done|]. by eapply points_part.
  - eapply (wp_map_cmd own outer i (VWrite g) x k p (MappedRwLockWriteGuard.Mk (RwLockWriteGuard.rwlock g)) VMappedWrite);
      [done|exact Hr| |exact HQ]. intros Hp. split; [done|]. by eapply points_part.
  - eapply (wp_map_cmd own outer i (VMappedRead g) x k p (MappedRwLockReadGuard.Mk (MappedRwLockReadGuard.raw g)) VMappedRead);
      [done|exact Hr| |exact HQ]. intros Hp. split; [done|]. by eapply points_part.
  - eapply (wp_map_cmd own outer i (VMappedWrite g) x k p (MappedRwLockWriteGuard.Mk (MappedRwLockWriteGuard.raw g)) VMappedWrite);
      [done|exact Hr| |exact HQ]. intros Hp. split; [done|]. by eapply points_part.
Qed.

Lemma wp_rtry_map_cmd i x q p : rwruns (RTryMap i x q p).
Proof.
  intros outer own m r Q Hr HQ. cbn [run_rwcmd].
  set (k := λ l, match q with Some q => Some (sub l q) | None => None end).
  destruct (own !! i) as [[g|g|g|g|g]|] eqn:Hi; try (by apply wp_ret, HQ).
  - eapply (wp_map_cmd own outer i (VRead g) x k p (map_ok (MappedRwLockReadGuard.Mk (RwLockReadGuard.rwlock g)) g)
      (λ y, match y with inl g => VMappedRead g | inr g => VRead g end)); [done|exact Hr| |exact HQ].
    intros Hp. by destruct q; (split; [done|]); [eapply points_part|].
  - eapply (wp_map_cmd own outer i (VWrite g) x k p (map_ok (MappedRwLockWriteGuard.Mk (RwLockWriteGuard.rwlock g)) g)
      (λ y, match y with inl g => VMappedWrite g | inr g => VWrite g end)); [done|exact Hr| |exact HQ].
    intros Hp. by destruct q; (split; [done|]); [eapply points_part|].
  - eapply (wp_map_cmd own outer i (VMappedRead g) x k p (map_ok (MappedRwLockReadGuard.Mk (MappedRwLockReadGuard.raw g)) g)
      (λ y, match y with inl g => VMappedRead g | inr g => VMappedRead g end)); [done|exact Hr| |exact HQ].
    intros Hp. by destruct q; (split; [done|]); [eapply points_part|].
  - eapply (wp_map_cmd own outer i (VMappedWrite g) x k p (map_ok (MappedRwLockWriteGuard.Mk (MappedRwLockWriteGuard.raw g)) g)
      (λ y, match y with inl g => VMappedWrite g | inr g => VMappedWrite g end)); [done|exact Hr| |exact HQ].
    intros Hp. by destruct q; (split; [done|]); [eapply points_part|].
Qed.

Lemma wp_rtry_map_or_err_cmd i x q p : rwruns (RTryMapOrErr i x q p).
Proof.
  intros outer own m r Q Hr HQ. cbn [run_rwcmd].
  set (k := λ l, match q with inl q => inl (sub l q) | inr e => inr e end).
  destruct (own !! i) as [[g|g|g|g|g]|] eqn:Hi; try (by apply wp_ret, HQ).
  - eapply (wp_map_cmd own outer i (VRead g) x k p (map_result (MappedRwLockReadGuard.Mk (RwLockReadGuard.rwlock g)) g)
      (λ y, match y with inl g => VMappedRead g | inr (g, _) => VRead g end)); [done|exact Hr| |exact HQ].
    intros Hp. by destruct q; (split; [done|]); [eapply points_part|].
  - eapply (wp_map_cmd own outer i (VWrite g) x k p (map_result (MappedRwLockWriteGuard.Mk (RwLockWriteGuard.rwlock g)) g)
      (λ y, match y with inl g => VMappedWrite g | inr (g, _) => VWrite g end)); [done|exact Hr| |exact HQ].
    intros Hp. by destruct q; (split; [done|]); [eapply points_part|].
  - eapply (wp_map_cmd own outer i (VMappedRead g) x k p (map_result (MappedRwLockReadGuard.Mk (MappedRwLockReadGuard.raw g)) g)
      (λ y, match y with inl g => VMappedRead g | inr (g, _) => VMappedRead g end)); [done|exact Hr| |exact HQ].
    intros Hp. by destruct q; (split; [done|]); [eapply points_part|].
  - eapply (wp_map_cmd own outer i (VMappedWrite g) x k p (map_result (MappedRwLockWriteGuard.Mk (MappedRwLockWriteGuard.raw g)) g)
      (λ y, match y with inl g => VMappedWrite g | inr (g, _) => VMappedWrite g end)); [done|exact Hr| |exact HQ].
    intros Hp. by destruct q; (split; [done|]); [eapply points_part|].
Qed.

(** A question about a lock. *)
Lemma wp_question a (p : iprog bool) own outer m r (Q : bool * list rwval → role → Prop) :
  Z.even a = true → holds (own ++ outer) m r →
  (∀ l, lk_lock a → has l m r → rawp t p r (λ _, has l m)) → 
  (∀ b own' r', holds (own' ++ outer) m r' → Q (b, own') (R r')) →
  xwp (lift p;; Ret (false, own)) (R r) Q.
Proof.
  intros Ha [Hr Hvs] Hp HQ. wp_pure. eapply (wp_raw id _ t); [by apply Hp; [apply Hlocks|exact Hr]|].
  intros b r' Hr'. wp_pure. apply HQ. by split.
Qed.

Lemma wp_run_rwcmd c : rwruns c.
Proof.
  induction c as [c Hc Hc'|i fair body Hb|i o x body Hb] using rwcmd_nested;
    [|by apply wp_unlocked_cmd|by apply wp_with_cmd].
  destruct c as [a o|a|a|i|i|i|i fair body|i o|i o x body|i x q p|i x q p|i x q p|i q|i q x|];
    try (by destruct (Hc i fair body)); try (by destruct (Hc' i o x body));
    try (by apply wp_rmap_cmd); try (by apply wp_rtry_map_cmd); try (by apply wp_rtry_map_or_err_cmd);
    intros outer own m r Q Hr HQ; cbn [run_rwcmd rw_cost Nat.add] in *.
  - destruct (Z.even a) eqn:Ha; [by eapply wp_run_acquire|].
    apply wp_ret, HQ. by eapply (holds_le _ _ (S m)); [lia|].
  - destruct (Z.even a) eqn:Ha; [|by apply wp_ret, HQ].
    apply (wp_question a _ own outer m); [done|done| |done]. intros l Hl H. by apply rw_is_locked_spec.
  - destruct (Z.even a) eqn:Ha; [|by apply wp_ret, HQ].
    apply (wp_question a _ own outer m); [done|done| |done]. intros l Hl H. by apply is_locked_exclusive_spec.
  - destruct (own !! i) as [v|] eqn:Hi; [|by apply wp_ret, HQ]. wp_pure.
    eapply rw_drop; [by eapply holds_perm; [apply (delete_perm own outer i _ Hi)|]|].
    intros r' Hr'. wp_pure. by apply HQ.
  - destruct (own !! i) as [v|] eqn:Hi; [|by apply wp_ret, HQ]. wp_pure.
    eapply wp_run_unlock_fair; [exact Hr|by apply delete_perm|]. intros r' Hr'. wp_pure. by apply HQ.
  - destruct (own !! i) as [v|] eqn:Hi; [|by apply wp_ret, HQ]. wp_pure.
    eapply wp_run_bump; [exact Hr|by apply delete_perm|]. intros r' Hr'. wp_pure. by apply HQ.
  - destruct (own !! i) as [v|] eqn:Hi; [|by apply wp_ret, HQ]. wp_pure.
    eapply wp_run_convert; [exact Hr|by apply delete_perm|]. intros v' r' Hr'. wp_pure. apply HQ.
    eapply holds_perm; [|exact Hr']. symmetry. by eapply insert_perm.
  - destruct ((own ++ outer) !! i) as [v|] eqn:Hi; [|by apply wp_ret, HQ]. apply list_elem_of_lookup_2 in Hi.
    wp_pure. apply (wp_read_guard id t (own ++ outer) v q m); [done|done|]. intros x. wp_pure. by apply HQ.
  - destruct ((own ++ outer) !! i) as [v|] eqn:Hi; [|by apply wp_ret, HQ]. apply list_elem_of_lookup_2 in Hi.
    case_decide as Hk; [|by apply wp_ret, HQ].
    wp_pure. apply (wp_write_guard id t (own ++ outer) v q x m); [done..|]. wp_pure. by apply HQ.
  - by apply wp_ret, HQ.
Qed.

Lemma wp_rw_thread cs r :
  has [] (total rw_cost cs) r → xwp (rw_thread cs) (R r) (λ _ x, ∃ r', x = R r' ∧ has [] 0 r').
Proof.
  intros Hr. unfold rw_thread. wp_pure.
  apply (wp_run_with id t run_rwcmd rw_cost cs) with (m := 0%nat).
  - apply Forall_forall. intros c _. apply wp_run_rwcmd.
  - rewrite Nat.add_0_r. by split; [|constructor].
  - intros b own r' Hr'. apply (wp_drop_all id t rw_drop own [] 0); [done|]. intros r'' [Hr'' _]. by exists r''.
Qed.
End verify.
