(* ===== verification/RwLockGuards.v ===== *)
(** * The read-write lock of parking_lot, in safe code

    [RwLock] is lock_api's read-write lock over [RawRwLock], which keeps what
    [LockLogic] and [RwLockLogic] ask, so the programs of [RwLockApiProof] run
    without data races, drop every guard, and leave nobody asleep on a lock that
    is free. *)

From S2P Require Import Prelude Conc LotTypes BucketQueue ParkingLot LotInv LockApi LockApiLogic GuardClients RwLockApiProof RawRwLock RwLockWord RwLockInv RwLockQueue RwLockRules RwLockProof RwLockExclusive RwLockProgress.
Local Open Scope Z_scope.

Section raw.
Context (bucket_of : Z → nat) (elision : bool).

(** [impl RawRwLock for RawRwLock] and the other traits. *)
Definition raw_rwlock : Raw.RwLock := {|
  Raw.lock_shared := RawRwLock.lock_shared bucket_of elision;
  Raw.try_lock_shared := RawRwLock.try_lock_shared elision;
  Raw.unlock_shared := RawRwLock.unlock_shared bucket_of elision;
  Raw.lock_exclusive := RawRwLock.lock_exclusive bucket_of;
  Raw.try_lock_exclusive := RawRwLock.try_lock_exclusive;
  Raw.unlock_exclusive := RawRwLock.unlock_exclusive bucket_of;
  Raw.rw_is_locked := RawRwLock.is_locked;
  Raw.is_locked_exclusive := RawRwLock.is_locked_exclusive |}.
Definition raw_rwlock_fair : Raw.RwLockFair := {|
  Raw.unlock_shared_fair := RawRwLock.unlock_shared_fair bucket_of elision;
  Raw.unlock_exclusive_fair := RawRwLock.unlock_exclusive_fair bucket_of;
  Raw.bump_shared := RawRwLock.bump_shared bucket_of elision;
  Raw.bump_exclusive := RawRwLock.bump_exclusive bucket_of |}.
Definition raw_rwlock_downgrade : Raw.RwLockDowngrade := {|
  Raw.downgrade := RawRwLock.downgrade bucket_of |}.
Definition raw_rwlock_timed : Raw.RwLockTimed := {|
  Raw.try_lock_shared_for := RawRwLock.try_lock_shared_for bucket_of elision;
  Raw.try_lock_shared_until := RawRwLock.try_lock_shared_until bucket_of elision;
  Raw.try_lock_exclusive_for := RawRwLock.try_lock_exclusive_for bucket_of;
  Raw.try_lock_exclusive_until := RawRwLock.try_lock_exclusive_until bucket_of |}.
Definition raw_rwlock_recursive : Raw.RwLockRecursive := {|
  Raw.lock_shared_recursive := RawRwLock.lock_shared_recursive bucket_of elision;
  Raw.try_lock_shared_recursive := RawRwLock.try_lock_shared_recursive elision |}.
Definition raw_rwlock_recursive_timed : Raw.RwLockRecursiveTimed := {|
  Raw.try_lock_shared_recursive_for := RawRwLock.try_lock_shared_recursive_for bucket_of elision;
  Raw.try_lock_shared_recursive_until := RawRwLock.try_lock_shared_recursive_until bucket_of elision |}.
Definition raw_rwlock_upgrade : Raw.RwLockUpgrade := {|
  Raw.lock_upgradable := RawRwLock.lock_upgradable bucket_of;
  Raw.try_lock_upgradable := RawRwLock.try_lock_upgradable;
  Raw.unlock_upgradable := RawRwLock.unlock_upgradable bucket_of;
  Raw.upgrade := RawRwLock.upgrade bucket_of;
  Raw.try_upgrade := RawRwLock.try_upgrade |}.
Definition raw_rwlock_upgrade_fair : Raw.RwLockUpgradeFair := {|
  Raw.unlock_upgradable_fair := RawRwLock.unlock_upgradable_fair bucket_of;
  Raw.bump_upgradable := RawRwLock.bump_upgradable bucket_of |}.
Definition raw_rwlock_upgrade_downgrade : Raw.RwLockUpgradeDowngrade := {|
  Raw.downgrade_upgradable := RawRwLock.downgrade_upgradable bucket_of;
  Raw.downgrade_to_upgradable := RawRwLock.downgrade_to_upgradable bucket_of |}.
Definition raw_rwlock_upgrade_timed : Raw.RwLockUpgradeTimed := {|
  Raw.try_lock_upgradable_for := RawRwLock.try_lock_upgradable_for bucket_of;
  Raw.try_lock_upgradable_until := RawRwLock.try_lock_upgradable_until bucket_of;
  Raw.try_upgrade_for := RawRwLock.try_upgrade_for bucket_of;
  Raw.try_upgrade_until := RawRwLock.try_upgrade_until bucket_of |}.

#[local] Existing Instances raw_rwlock raw_rwlock_fair raw_rwlock_downgrade raw_rwlock_timed
  raw_rwlock_recursive raw_rwlock_recursive_timed raw_rwlock_upgrade raw_rwlock_upgrade_fair
  raw_rwlock_upgrade_downgrade raw_rwlock_upgrade_timed.

Lemma raw_acquire_eq a o : raw_acquire a o = acquire bucket_of elision a o.
Proof. by destruct o. Qed.
Lemma raw_convert_eq a o : raw_convert a o = convert bucket_of elision a o.
Proof. by destruct o. Qed.
Lemma raw_release_eq a o : raw_release a o = unlock_of bucket_of elision a o.
Proof. by destruct o. Qed.

Context (n lim : nat) (Hlim : Z.of_nat (n * (lim + n + 1)) ≤ 2 ^ 58).
Implicit Types (r : role) (l : list (Z * guard)).

(** One lock is held for which there is no guard. *)
Definition rw_has_one (x : Z * guard) l (m : nat) r : Prop :=
  ∃ rest gv b, r = R x.1 rest gv b [gperm x.2] Run ∧ rest ≡ₚ vperms l ∧ gv ≡ₚ l ∧
    (m ≤ b)%nat ∧ (length rest + 1 + b ≤ lim)%nat ∧ (length rest + 2 + m ≤ lim)%nat.

Abbreviation rwp t := (wp exec (RwInv bucket_of n lim) rw_panic (rw_blocked bucket_of) t).

Lemma rw_has_enter {A} t x l m r (k : unit → iprog A) Q :
  (t < n)%nat → rw_has_one x l m r → (∀ r', idle lim (x :: l) m r' → rwp t (k tt) r' Q) →
  rwp t (Act (AEnter x.1 x.2) k) r Q.
Proof.
  intros Ht (rest & gv & b & -> & E1 & E2 & H1 & H2 & H3) Hk.
  apply (rwp_enter bucket_of n lim Hlim t Ht _ _ _ _ _ m); [by rewrite E1, E2|done|done|].
  apply Hk. destruct x as [a gd]. split; cbn; [done|done|by rewrite E1|by rewrite E2|done|lia].
Qed.

Lemma rw_has_drop {A} t x l m r (k : unit → iprog A) Q :
  (t < n)%nat → idle lim l m r → x ∈ l →
  (∀ r', rw_has_one x (remove_first x l) m r' → rwp t (k tt) r' Q) →
  rwp t (Act (ADrop x.1 x.2) k) r Q.
Proof.
  intros Ht Hid Hx Hk. destruct x as [a gd].
  eapply (rwp_drop bucket_of n lim Hlim t Ht a gd l m); [exact Hid|exact Hx|]. apply Hk.
  pose proof (remove_first_perm _ _ Hx) as E. destruct Hid as [Hpc Hd Ho Hg Hm Hb].
  rewrite Ho, E, vperms_length in Hb. cbn [length] in Hb.
  exists (vperms (remove_first (a, gd) l)), (remove_first (a, gd) l), (bud r).
  rewrite vperms_length. repeat split; try done; lia.
Qed.

#[refine] Instance rwlock_lock_logic : LockLogic := {|
  lk_ghost := list (tid * (Z * perm));
  lk_role := role;
  lk_inv := RwInv bucket_of n lim;
  lk_panic := rw_panic;
  lk_blocked := rw_blocked bucket_of;
  lk_thread t := (t < n)%nat;
  lk_lock a := Z.even a = true;
  has := idle lim;
  has_one := rw_has_one;
|}.
Proof.
  - intros l l' m r E [H1 Hd H2 H3 H4 H5]. split; try done; [rewrite H2|rewrite H3]; by rewrite E.
  - intros x l l' m r E (rest & gv & b & -> & E1 & E2 & H). exists rest, gv, b. by rewrite <- E.
  - intros l m r []. split; try done. lia.
  - intros s g ρ t l m [a gd] [HI _] [_ _ _ Hg _ _]. cbn. rewrite <- own_elem, (ri_live _ _ _ _ _ _ HI), own_elem.
    by rewrite Hg.
  - intros s g ρ a [HI _] Ha. by eapply rwlock_compatible.
  - intros A t x l m r k Q. apply rw_has_enter.
  - intros A t x l m r k Q. apply rw_has_drop.
Defined.
Lemma idle_role l m r : idle lim l m r → ∀ a, r = R a (rh r) (rv r) (bud r) [] Run.
Proof. intros [Hpc Hd _ _ _ _] a. destruct r. cbn in *. by rewrite Hpc, Hd. Qed.

(** A thread that owns a lock without a guard, as the raw lock sees it. *)
Lemma released_idle a rest gv b l m :
  rest ≡ₚ vperms l → gv ≡ₚ l → (m ≤ b)%nat → (length rest + 1 + b ≤ lim)%nat →
  idle lim l m (R a rest gv b [] Run).
Proof. intros E1 E2 H1 H2. split; cbn; try done. lia. Qed.

Lemma rwlock_acquire t a o l m (r : role) :
  (t < n)%nat → Z.even a = true → idle lim l (S m) r →
  rwp t (acquire bucket_of elision a o) r
    (λ b : bool, if b then rw_has_one (a, acquired o) l m else idle lim l m).
Proof.
  intros Ht Ha Hr. pose proof Hr as [Hpc Hd Ho Hg Hm Hb].
  rewrite (idle_role l (S m) r Hr a). eapply wp_mono.
  2: { apply (wp_acquire bucket_of elision n lim Hlim t Ht a Ha (rh r) (rv r) (bud r)); [by rewrite Hg, Ho|lia]. }
  intros ok ? ->. unfold R. destruct ok.
  - exists (rh r), (rv r), (bud r). split; [done|]. split; [done|]. split; [done|]. lia.
  - split; cbn; try done; lia.
Qed.

Lemma rwlock_convert t a o l m (r : role) :
  (t < n)%nat → Z.even a = true → rw_has_one (a, (converts o).1) l m r →
  rwp t (convert bucket_of elision a o) r
    (λ b : bool, rw_has_one (a, if b then (converts o).2 else (converts o).1) l m).
Proof.
  intros Ht Ha (rest & gv & b & -> & E1 & E2 & H1 & H2 & H3). eapply wp_mono.
  2: { apply (wp_convert bucket_of elision n lim Hlim t Ht a Ha rest gv b); [by rewrite E2, E1|done]. }
  intros ok ? ->. exists rest, gv, b. split; [by destruct ok|]. done.
Qed.

Lemma rwlock_release t a o l m (r : role) :
  (t < n)%nat → Z.even a = true → rw_has_one (a, released o) l m r →
  rwp t (unlock_of bucket_of elision a o) r
    (λ _, idle lim l m).
Proof.
  intros Ht Ha (rest & gv & b & -> & E1 & E2 & H1 & H2 & H3). eapply wp_mono.
  2: { apply (wp_unlock_of bucket_of elision n lim Hlim t Ht a Ha rest gv b); [by rewrite E2, E1|done]. }
  intros [] ? ->. by apply released_idle.
Qed.

Instance rwlock_logic : RwLockLogic (L := rwlock_lock_logic).
Proof.
  split.
  - intros t a o l m r. rewrite raw_acquire_eq. apply rwlock_acquire.
  - intros t a o l m r. rewrite raw_convert_eq. apply rwlock_convert.
  - intros t a o l m r. rewrite raw_release_eq. apply rwlock_release.
  - intros t a l m r Ht Ha Hr. cbn. unfold RawRwLock.is_locked, load. wp_pure.
    apply (wp_query bucket_of n lim Hlim t Ht a _ l m); [done|done|]. intros v. by wp_pure.
  - intros t a l m r Ht Ha Hr. cbn. unfold RawRwLock.is_locked_exclusive, load. wp_pure.
    apply (wp_query bucket_of n lim Hlim t Ht a _ l m); [done|done|]. intros v. by wp_pure.
Qed.
End raw.

(** ** The theorems *)

(** At most [n] threads, which acquire at most [m] locks each: few enough that
    no reader count overflows. *)
Record rw_api_ok (n m : nat) (scripts : tid → list rwcmd) : Prop := {
  ra_threads t : (n ≤ t)%nat → scripts t = [];
  ra_cost t : (total rw_cost (scripts t) ≤ m)%nat;
  ra_size : Z.of_nat (n * ((m + 1) + n + 1)) ≤ 2 ^ 58;
}.

Section theorems.
Context (bucket_of : Z → nat) (elision : bool).
Implicit Types (scripts : tid → list rwcmd) (s : lstate) (ps : tid → lprog unit) (d : loc → Z).

Definition rw_start_api (d : loc → Z) : lstate := start_lstate rw_state d.
(** A thread without commands is done. *)
Definition rw_api_pool (scripts : tid → list rwcmd) : tid → lprog unit := λ t,
  match scripts t with
  | [] => Ret tt
  | cs =>
      rw_thread (R1 := raw_rwlock bucket_of elision) (R2 := raw_rwlock_fair bucket_of elision)
        (R3 := raw_rwlock_downgrade bucket_of) (R4 := raw_rwlock_timed bucket_of elision)
        (R5 := raw_rwlock_recursive bucket_of elision) (R6 := raw_rwlock_recursive_timed bucket_of elision)
        (R7 := raw_rwlock_upgrade bucket_of) (R8 := raw_rwlock_upgrade_fair bucket_of)
        (R9 := raw_rwlock_upgrade_downgrade bucket_of) (R10 := raw_rwlock_upgrade_timed bucket_of) cs
  end.

Section verified.
Context (n m : nat) (Hsize : Z.of_nat (n * ((m + 1) + n + 1)) ≤ 2 ^ 58).
Abbreviation LL := (rwlock_lock_logic bucket_of n (m + 1) Hsize).
Abbreviation XI := (XInv (L := LL) (λ t, Z.of_nat t + 1)).
Abbreviation xwp := (wp lexec XI (xpanic (L := LL) (λ _, False)) (xblocked (L := LL))).
Abbreviation ends x := (∃ r, x = Role (L := LL) r None [] [] ∧ idle (m + 1) [] 0 r).

Lemma rw_api_verified scripts d s ps :
  rw_api_ok n m scripts → reachable lexec (rw_start_api d) (rw_api_pool scripts) s ps →
  ∃ g ρ, XI s g ρ ∧ ∀ t, xwp t (ps t) (ρ t) (λ _ x, ends x).
Proof.
  intros [Hthr Hcost _] Hr.
  eapply (adequacy lexec XI _ _ (λ x, ends x)); [|exact Hr].
  exists [], (λ t, Role (L := LL) (MkRole [] [] (total rw_cost (scripts t)) Run Free) None [] []). split.
  - apply (start_xinv (L := LL)), rw_start_inv. intros t. specialize (Hcost t). lia.
  - intros t. assert (H : ∀ k, (k ≤ total rw_cost (scripts t))%nat →
      idle (m + 1) [] k (MkRole [] [] (total rw_cost (scripts t)) Run Free)).
    { intros k Hk. split; cbn; try done. specialize (Hcost t). lia. }
    unfold rw_api_pool. cbn [snd]. destruct (scripts t) as [|c cs] eqn:Ec.
    { apply wp_ret. eexists. split; [done|]. apply H. lia. }
    apply (wp_rw_thread (RL := rwlock_logic bucket_of elision n (m + 1) Hsize)); [|done|by apply H].
    destruct (decide (t < n)%nat); [done|]. rewrite Hthr in Ec by lia. done.
Qed.
End verified.

(** C9: Safe code that uses [RwLock] through its guards has no data races. In
    every reachable configuration of any number of threads that run any
    programs (they acquire locks in all ways, upgrade, downgrade, map, bump,
    drop guards, run closures unlocked or with the data of an upgradable guard
    for writing, and panic), no two accesses to the same data have overlapped
    of which one was a write, each access rests on a guard of the thread, a
    write on the only guard there is, and nothing panics but the closures. *)
Theorem rwlock_data_race_free n m scripts d s ps :
  rw_api_ok n m scripts → reachable lexec (rw_start_api d) (rw_api_pool scripts) s ps →
  raced s = false ∧ (∀ t msg, ps t ≠ Panic msg) ∧
  (∀ a, Z.even a = true → compatible (live (raw_st s) a)) ∧
  (∀ t a p w, (t, (Data a p, w)) ∈ accesses s →
     ∃ gd, (t, gd) ∈ live (raw_st s) a ∧ (w = true → live (raw_st s) a = [(t, GExclusive)])).
Proof.
  intros Hok Hr. destruct (rw_api_verified n m (ra_size _ _ _ Hok) scripts d s ps Hok Hr) as (g & ρ & HI & Hwp).
  assert (Hc : ∀ a, Z.even a = true → compatible (live (raw_st s) a)).
  { intros a Ha. by eapply rwlock_compatible; [apply (proj1 (xi_raw _ _ _ _ HI))|]. }
  split; [apply HI|]. split; [|split; [done|]].
  - intros t msg E. specialize (Hwp t). rewrite E in Hwp. by apply wp_no_panic in Hwp as [].
  - intros t a p w Hx. pose proof (xi_back _ _ _ _ HI _ _ (proj1 (xi_acc _ _ _ _ HI _ _) Hx)) as (Ha & gd & Hgd & Hw).
    exists gd. split; [done|]. intros Ew. rewrite (Hw Ew) in Hgd.
    by apply (exclusive_alone _ _ _ _ (Hc a Ha) Hgd Hgd).
Qed.

(** C10: No guard of [RwLock] is lost, none is released twice, and waiters are
    woken. If no thread can take a step, each thread either is done, also after
    a panic in a closure, and has no guard left, or it sleeps on a lock of which
    some thread has a guard. When all threads are done, every lock is free: its
    word counts no reader, no writer and no upgradable one. *)
Theorem rwlock_guards_dropped n m scripts d s ps :
  rw_api_ok n m scripts → reachable lexec (rw_start_api d) (rw_api_pool scripts) s ps →
  (∀ t c, step1 lexec t c (ps t) s = None) →
  (∀ t, (ps t = Ret tt ∧ ∀ a gd, (t, gd) ∉ live (raw_st s) a) ∨
        ∃ a u gd, sleeps_on bucket_of (raw_st s) t a ∧ (u, gd) ∈ live (raw_st s) a) ∧
  ((∀ t, ps t = Ret tt) → ∀ a, Z.even a = true →
     live (raw_st s) a = [] ∧
     Z.land (mem (raw_st s) a) RawRwLock.READERS_MASK = 0 ∧
     has_bits (mem (raw_st s) a) RawRwLock.WRITER_BIT = false ∧
     has_bits (mem (raw_st s) a) RawRwLock.UPGRADABLE_BIT = false).
Proof.
  intros Hok Hr Hstuck.
  destruct (rw_api_verified n m (ra_size _ _ _ Hok) scripts d s ps Hok Hr) as (g & ρ & HI & Hwp).
  pose proof (xi_raw _ _ _ _ HI) as HR.
  assert (Hend : ∀ t, ps t = Ret tt → idle (m + 1) [] 0 (rawr (ρ t))).
  { intros t E. specialize (Hwp t). rewrite E in Hwp. apply wp_ret_inv in Hwp as (r & -> & H). exact H. }
  assert (Hnone : ∀ t, ps t = Ret tt → ∀ a gd, (t, gd) ∉ live (raw_st s) a).
  { intros t E a gd. rewrite <- own_elem, (ri_live _ _ _ _ _ _ (proj1 HR)), own_elem, (id_guards _ _ _ _ (Hend t E)).
    apply not_elem_of_nil. }
  split.
  - assert (Hall : ∀ u, ps u = Ret tt ∨ rw_blocked bucket_of u (rawr (ρ u)) (raw_st s)).
    { intros u. destruct (wp_progress _ _ _ _ _ _ s g ρ _ (Hwp u) HI)
        as [([] & ? & _)|[(? & _ & [[]|[]])|[[c Hs]|?]]]; [by left| |by right].
      rewrite Hstuck in Hs. by destruct Hs. }
    intros t. destruct (Hall t) as [E|Hb]; [left; auto|right].
    apply (rw_stuck_blocked _ _ _ _ _ _ HR); [|done].
    intros u. destruct (Hall u) as [E|?]; [left; by eapply idle_finished, (Hend u E)|by right].
  - intros Hret a Ha. assert (E : live (raw_st s) a = []).
    { destruct (live (raw_st s) a) as [|[t gd] l] eqn:E; [done|].
      destruct (Hnone t (Hret t) a gd). rewrite E. by left. }
    split; [done|].
    assert (H : wdl (mem (raw_st s) a) (gperm <$> (live (raw_st s) a).*2)).
    { eapply finished_wdl; [exact (proj1 HR)|done|]. intros t. by eapply idle_finished, (Hend t). }
    rewrite E in H. rewrite (readers_part H), (writer_bit H), (upgradable_bit H). done.
Qed.
End theorems.

(** ** A run: thread 1 reads; then a closure, with the data of an upgradable
    guard for writing, writes and panics *)

Section example.
Local Definition scripts (t : tid) : list rwcmd :=
  match t with
  | 0%nat => [RAcquire 8 LockUpgradable; RWith 0 Upgrade 5 [RWrite 0 [1%nat] 7; RPanic]]
  | 1%nat => [RAcquire 8 TryLockShared; RRead 0 []]
  | _ => []
  end.
Local Definition pool := rw_api_pool (λ _, 0%nat) false scripts.
Local Definition demo (k n : nat) : lstate * (tid → lprog unit) :=
  default (rw_start_api (λ _, 0), pool)
    (run lexec (repeat (1%nat, 0) k ++ repeat (0%nat, 0) n) (rw_start_api (λ _, 0)) pool).

Lemma rw_api_demo_reachable k n :
  bool_decide (is_Some (run lexec (repeat (1%nat, 0) k ++ repeat (0%nat, 0) n) (rw_start_api (λ _, 0)) pool)) = true →
  reachable lexec (rw_start_api (λ _, 0)) pool (demo k n).1 (demo k n).2.
Proof.
  intros [[s ps] E]%bool_decide_eq_true. eapply run_reachable. unfold demo. by rewrite E.
Qed.

Lemma rw_api_scripts_ok : rw_api_ok 2 2 scripts.
Proof.
  split; [|intros [|[|t]]; cbn; lia|done]. intros [|[|t]] Ht; [lia|lia|done].
Qed.

(** In the middle of the second write. *)
Lemma rwlock_data_race_free_witness :
  accesses (demo 24 25).1 = [(0%nat, (Data 8 [1%nat], true))] ∧ raced (demo 24 25).1 = false ∧
  live (raw_st (demo 24 25).1) 8 = [(0%nat, GExclusive)].
Proof.
  destruct (rwlock_data_race_free (λ _, 0%nat) false 2 2 scripts (λ _, 0) (demo 24 25).1 (demo 24 25).2 rw_api_scripts_ok)
    as (H1 & _ & _ & H3); [apply (rw_api_demo_reachable 24 25); vm_compute; reflexivity|].
  split; [vm_compute; reflexivity|]. split; [exact H1|].
  destruct (H3 0%nat 8 [1%nat] true) as (gd & _ & H); [|apply H; reflexivity].
  apply (proj1 (bool_decide_eq_true _)). vm_compute. reflexivity.
Defined.

(** At the end. *)
Lemma rwlock_guards_dropped_witness :
  (∀ t c, step1 lexec t c ((demo 24 51).2 t) (demo 24 51).1 = None) ∧
  live (raw_st (demo 24 51).1) 8 = [] ∧
  has_bits (mem (raw_st (demo 24 51).1) 8) RawRwLock.WRITER_BIT = false.
Proof.
  assert (Hret : ∀ t, (demo 24 51).2 t = Ret tt) by (intros [|[|t]]; vm_compute; reflexivity).
  assert (Hstuck : ∀ t c, step1 lexec t c ((demo 24 51).2 t) (demo 24 51).1 = None).
  { intros t c. rewrite Hret. reflexivity. }
  split; [exact Hstuck|].
  destruct (rwlock_guards_dropped (λ _, 0%nat) false 2 2 scripts (λ _, 0) (demo 24 51).1 (demo 24 51).2
    rw_api_scripts_ok (rw_api_demo_reachable 24 51 ltac:(vm_compute; reflexivity)) Hstuck) as [_ H].
  destruct (H Hret 8 eq_refl) as (H1 & _ & H3 & _).
  split; [exact H1|exact H3].
Defined.
End example.
