(* ===== verification/ReentrantMutex.v ===== *)
(** * ReentrantMutex (lock_api/src/remutex.rs)

    A mutex that the thread which has it can lock again: a raw mutex, the
    identifier of the owner, which all threads read, and a count, which is not
    atomic.  The methods take the identifier [me] of the calling thread, as
    [GetThreadId] gives it.

    A panic of [expect] unwinds: the methods that lock return an [outcome].
    The raw mutex counts as held ([AEnter]) from the return of its lock on,
    and a reentrant guard exists ([LEnter]) until a method takes it. *)

From S2P Require Import Prelude Conc ParkingLot LockApi.
Local Open Scope Z_scope.
Local Open Scope prog_scope.

Module RawReentrantMutex.
Section raw.
Context `{!Raw.Mutex, !Raw.MutexFair, !Raw.MutexTimed}.

Definition load_owner (a : Z) : lprog Z := Act (LOwner a) Ret.
Definition store_owner (a v : Z) : lprog unit := Act (LSetOwner a v) Ret.
(** [lock_count], a [Cell]. *)
Definition get_count (a : Z) : lprog Z := read_at (Count a).
Definition set_count (a v : Z) : lprog unit := write_at (Count a) v.

Definition lock_internal (me a : Z) (try_lock : iprog bool) : lprog (outcome bool) :=
  owner <- load_owner a;;
  if owner =? me then
    lock_count <- get_count a;;
    match checked_add usize_bits lock_count 1 with
    | Some n => set_count a n;; Ret (Done true)
    | None => Ret Unwind
    end
  else
    ok <- lift try_lock;;
    if negb ok then Ret (Done false)
    else
      enter a GExclusive;;
      store_owner a me;;
      lock_count <- get_count a;;
      if negb (lock_count =? 0) then Panic "debug_assert_eq!(self.lock_count.get(), 0)"
      else set_count a 1;; Ret (Done true).

Definition lock (me a : Z) : lprog (outcome bool) := lock_internal me a (Bind (Raw.lock a) (λ _, Ret true)).
Definition try_lock (me a : Z) : lprog (outcome bool) := lock_internal me a (Raw.try_lock a).

(** [unlock] and [unlock_fair]. *)
Definition unlock_with (a : Z) (unlock : iprog unit) : lprog unit :=
  n <- get_count a;;
  let lock_count := wrapping_sub usize_bits n 1 in
  set_count a lock_count;;
  if lock_count =? 0 then store_owner a 0;; leave a GExclusive unlock else Ret tt.
Definition unlock (a : Z) : lprog unit := unlock_with a (Raw.unlock a).
Definition unlock_fair (a : Z) : lprog unit := unlock_with a (Raw.unlock_fair a).

Definition is_locked (a : Z) : lprog bool := lift (Raw.is_locked a).
Definition is_owned_by_current_thread (me a : Z) : lprog bool :=
  owner <- load_owner a;; Ret (owner =? me).

Definition bump (a : Z) : lprog unit :=
  n <- get_count a;;
  if n =? 1 then
    id <- load_owner a;;
    store_owner a 0;;
    set_count a 0;;
    change a GExclusive GExclusive (Raw.bump a);;
    store_owner a id;;
    set_count a 1
  else Ret tt.

Definition try_lock_until (me a timeout : Z) : lprog (outcome bool) :=
  lock_internal me a (Raw.try_lock_until a timeout).
Definition try_lock_for (me a timeout : Z) : lprog (outcome bool) :=
  lock_internal me a (Raw.try_lock_for a timeout).
End raw.
End RawReentrantMutex.

(** A guard of the reentrant mutex is made, or taken by the method. *)
Definition enter_reentrant (a : Z) : lprog unit := Act (LEnter a) Ret.
Definition leave_reentrant {A} (a : Z) (p : lprog A) : lprog A := Act (LDrop a) (λ _, p).

Module MappedReentrantMutexGuard.
Record t := Mk { raw : Z; data : loc }.
Section guard.
Context `{!Raw.Mutex, !Raw.MutexFair}.

Definition drop (s : t) : lprog unit := leave_reentrant (raw s) (RawReentrantMutex.unlock (raw s)).
Definition map (s : t) (f : loc → lprog (outcome loc)) : lprog (outcome t) :=
  consume (f (data s)) (drop s) (Mk (raw s)).
Definition try_map (s : t) (f : loc → lprog (outcome (option loc))) : lprog (outcome (t + t)) :=
  consume (f (data s)) (drop s) (map_ok (Mk (raw s)) s).
Definition try_map_or_err {E : Type} (s : t) (f : loc → lprog (outcome (loc + E)))
    : lprog (outcome (t + t * E)) :=
  consume (f (data s)) (drop s) (map_result (Mk (raw s)) s).
Definition unlock_fair (s : t) : lprog unit :=
  leave_reentrant (raw s) (RawReentrantMutex.unlock_fair (raw s)).
Definition deref (s : t) : loc := data s.
End guard.
End MappedReentrantMutexGuard.

Module ReentrantMutexGuard.
Record t := Mk { remutex : Z }.
Section guard.
Context `{!Raw.Mutex, !Raw.MutexFair}.

Definition deref (s : t) : loc := Data (remutex s) [].
Definition drop (s : t) : lprog unit := leave_reentrant (remutex s) (RawReentrantMutex.unlock (remutex s)).
Definition map (s : t) (f : loc → lprog (outcome loc)) : lprog (outcome MappedReentrantMutexGuard.t) :=
  consume (f (deref s)) (drop s) (MappedReentrantMutexGuard.Mk (remutex s)).
Definition try_map (s : t) (f : loc → lprog (outcome (option loc)))
    : lprog (outcome (MappedReentrantMutexGuard.t + t)) :=
  consume (f (deref s)) (drop s) (map_ok (MappedReentrantMutexGuard.Mk (remutex s)) s).
Definition try_map_or_err {E : Type} (s : t) (f : loc → lprog (outcome (loc + E)))
    : lprog (outcome (MappedReentrantMutexGuard.t + t * E)) :=
  consume (f (deref s)) (drop s) (map_result (MappedReentrantMutexGuard.Mk (remutex s)) s).
(** [defer!(s.remutex.raw.lock())] *)
Definition relock (me a : Z) : lprog unit :=
  r <- RawReentrantMutex.lock me a;;
  match r with
  | Done _ => enter_reentrant a
  | Unwind => Panic "ReentrantMutex lock count overflow"
  end.
Definition unlocked {U : Type} (me : Z) (s : t) (f : lprog (outcome U)) : lprog (outcome U) :=
  leave_reentrant (remutex s) (RawReentrantMutex.unlock (remutex s));;
  deferred f (relock me (remutex s)).
Definition unlock_fair (s : t) : lprog unit :=
  leave_reentrant (remutex s) (RawReentrantMutex.unlock_fair (remutex s)).
Definition unlocked_fair {U : Type} (me : Z) (s : t) (f : lprog (outcome U)) : lprog (outcome U) :=
  leave_reentrant (remutex s) (RawReentrantMutex.unlock_fair (remutex s));;
  deferred f (relock me (remutex s)).
Definition bump (s : t) : lprog unit :=
  leave_reentrant (remutex s) (RawReentrantMutex.bump (remutex s));; enter_reentrant (remutex s).
End guard.
End ReentrantMutexGuard.

Module ReentrantMutex.
Section remutex.
Context `{!Raw.Mutex, !Raw.MutexFair, !Raw.MutexTimed}.

Definition make_guard_unchecked (a : Z) : lprog ReentrantMutexGuard.t :=
  enter_reentrant a;; Ret (ReentrantMutexGuard.Mk a).
Definition lock (me a : Z) : lprog (outcome ReentrantMutexGuard.t) :=
  r <- RawReentrantMutex.lock me a;;
  match r with Done _ => g <- make_guard_unchecked a;; Ret (Done g) | Unwind => Ret Unwind end.
(** [try_lock], [try_lock_for] and [try_lock_until]. *)
Definition guard_if (a : Z) (p : lprog (outcome bool)) : lprog (outcome (option ReentrantMutexGuard.t)) :=
  r <- p;;
  match r with
  | Done true => g <- make_guard_unchecked a;; Ret (Done (Some g))
  | Done false => Ret (Done None)
  | Unwind => Ret Unwind
  end.
Definition try_lock (me a : Z) : lprog (outcome (option ReentrantMutexGuard.t)) :=
  guard_if a (RawReentrantMutex.try_lock me a).
Definition is_locked (a : Z) : lprog bool := RawReentrantMutex.is_locked a.
Definition is_owned_by_current_thread (me a : Z) : lprog bool :=
  RawReentrantMutex.is_owned_by_current_thread me a.
Definition force_unlock (a : Z) : lprog unit := leave_reentrant a (RawReentrantMutex.unlock a).
Definition force_unlock_fair (a : Z) : lprog unit := leave_reentrant a (RawReentrantMutex.unlock_fair a).
Definition try_lock_for (me a timeout : Z) : lprog (outcome (option ReentrantMutexGuard.t)) :=
  guard_if a (RawReentrantMutex.try_lock_for me a timeout).
Definition try_lock_until (me a timeout : Z) : lprog (outcome (option ReentrantMutexGuard.t)) :=
  guard_if a (RawReentrantMutex.try_lock_until me a timeout).
End remutex.
End ReentrantMutex.
