(* ===== verification/RemutexLogic.v ===== *)
(** * The logic of the reentrant mutex

    Rules for the actions of [ReentrantMutex], against the interfaces of the
    raw mutex.  A thread has an entry [(a, (b, n))] for each raw mutex that it
    holds as part of a reentrant one: [b] says whether the mutex names it as
    its owner, and [n] is the count, which only this thread accesses. *)

From S2P Require Import Prelude Conc LotTypes BucketQueue ParkingLot LotInv LockApi LockApiLogic GuardClients MutexApiProof ReentrantMutex.
Import RawReentrantMutex.
Local Open Scope Z_scope.

(** The operations of a raw mutex register no guards. *)
Class QuietMutex {RM : Raw.Mutex} {RF : Raw.MutexFair} {RT : Raw.MutexTimed} := {
  quiet_lock a : quiet (Raw.lock a);
  quiet_try_lock a : quiet (Raw.try_lock a);
  quiet_try_lock_for a d : quiet (Raw.try_lock_for a d);
  quiet_try_lock_until a d : quiet (Raw.try_lock_until a d);
  quiet_unlock a : quiet (Raw.unlock a);
  quiet_unlock_fair a : quiet (Raw.unlock_fair a);
  quiet_bump a : quiet (Raw.bump a);
  quiet_is_locked a : quiet (Raw.is_locked a);
}.

Section rules.
Context {L : LockLogic} {RM : Raw.Mutex} {RF : Raw.MutexFair} {RT : Raw.MutexTimed} {ML : MutexLogic} {QM : QuietMutex}.
Context (id : tid → Z) (id_nonzero : ∀ t, id t ≠ 0) (id_inj : ∀ t u, id t = id u → t = u).
Context (t : tid) (Ht : lk_thread t) (Hlocks : ∀ a, lk_lock a).
Implicit Types (a : Z) (e : list (Z * (bool * nat))) (G : list Z) (b : bool) (n : nat) (r : lk_role).

Abbreviation xinv := (XInv id).
Abbreviation xwp := (wp lexec xinv (xpanic (λ _, False)) xblocked t).

Definition ekeys e : list (Z * guard) := (λ y, (y.1, GExclusive)) <$> e.

Lemma ekeys_locks e : (ekeys e).*1 = e.*1.
Proof. unfold ekeys. by rewrite <- list_fmap_compose. Qed.

#[export] Instance ekeys_perm : Proper ((≡ₚ) ==> (≡ₚ)) ekeys.
Proof. intros e e' E. unfold ekeys. by rewrite E. Qed.

Lemma entry_unique e a x y : NoDup e.*1 → (a, x) ∈ e → (a, y) ∈ e → x = y.
Proof.
  intros Hnd Hx Hy. apply elem_of_Permutation in Hx as [e0 E]. rewrite E in Hnd, Hy. cbn in Hnd.
  apply NoDup_cons in Hnd as [Hn _]. apply elem_of_cons in Hy as [[=]|Hy]; [done|].
  destruct Hn. apply list_elem_of_fmap. by exists (a, y).
Qed.

Lemma entry_other e e0 a x y :
  NoDup e.*1 → e ≡ₚ (a, x) :: e0 → y ∈ e0 → y ∈ e ∧ y.1 ≠ a.
Proof.
  intros Hnd E Hy. rewrite E in Hnd. cbn in Hnd. apply NoDup_cons in Hnd as [Hn _].
  split; [rewrite E; by right|]. intros <-. apply Hn. apply list_elem_of_fmap. by exists y.
Qed.

(** The entries of a role, in an invariant. *)
Lemma owner_known s g ρ a r e G :
  xinv s g ρ → ρ t = Role r None e G → owner s a = id t ↔ ∃ n, (a, (true, n)) ∈ e.
Proof.
  intros HI Hr. split.
  - intros Ho. destruct (decide (Exists (λ y, y.1 = a ∧ y.2.1 = true) e)) as [Hex|Hno].
    { apply Exists_exists in Hex as ([a' [b n]] & Hin & Ea & Eb). cbn in *. subst. by exists n. }
    exfalso. destruct (xi_free _ _ _ _ HI a) as [E _]; [|by apply (id_nonzero t); congruence].
    intros u ([a' [b n]] & Ea & Hin)%list_elem_of_fmap. cbn in Ea. subst a'.
    destruct (xi_ent _ _ _ _ HI u _ Hin) as (_ & _ & Eo & _). cbn in Eo. rewrite Ho in Eo.
    destruct b; [|by apply (id_nonzero t)]. apply id_inj in Eo as <-.
    apply Hno, Exists_exists. exists (a, (true, n)). rewrite Hr in Hin. done.
  - intros [n Hin]. destruct (xi_ent _ _ _ _ HI t (a, (true, n))) as (_ & _ & Eo & _); [by rewrite Hr|done].
Qed.

Lemma wp_load_owner a r e G (Q : Z → role → Prop) :
  (∀ o, o = id t ↔ (∃ n, (a, (true, n)) ∈ e) → Q o (Role r None e G)) →
  xwp (load_owner a) (Role r None e G) Q.
Proof.
  intros HQ.
  apply (wp_inert id _ t (LOwner a) Ret _ (λ o, o = id t ↔ ∃ n, (a, (true, n)) ∈ e));
    [by eexists| |intros o Ho; apply wp_ret; by apply HQ].
  intros s g ρ c s' v HI Hr Hex. cbn in Hex. injection Hex as <- <-. split; [done|]. by eapply owner_known.
Qed.

(** The entry of [a] changes, and what it says with it. *)
Lemma x_entry s g ρ s' r ac e e0 G a b n b' n' :
  xinv s g ρ → ρ t = Role r ac e G → e ≡ₚ (a, (b, n)) :: e0 →
  raw_st s' = raw_st s → accesses s' = accesses s → raced s' = raced s → reentered s' = reentered s →
  (∀ a', a' ≠ a → owner s' a' = owner s a' ∧ cell s' (Count a') = cell s (Count a')) →
  owner s' a = (if b' then id t else 0) → cell s' (Count a) = Z.of_nat n' →
  (a ∈ G → b' = true ∧ (times a G ≤ n')%nat) →
  xinv s' g (<[t := Role r ac ((a, (b', n')) :: e0) G]> ρ).
Proof.
  intros HI Hr E Er Ea Erc Ere Hoth Ho Hc HG. destruct (x_facts _ _ _ _ _ _ HI Hr) as (F1 & F2 & F3). cbn in *.
  assert (Hin : (a, (b, n)) ∈ e) by (rewrite E; by left).
  destruct (F1 _ Hin) as (Hl & Hlv & _ & _).
  eapply (x_data id s g ρ t s' r ac e G); try done.
  - intros u x. rewrite Ea. case_decide as Hu; [|done]. subst u. by rewrite (xi_acc _ _ _ _ HI), Hr.
  - rewrite Ea. apply HI.
  - rewrite Erc. apply HI.
  - intros x ->. apply (xi_back _ _ _ _ HI). by rewrite Hr.
  - intros y [->|Hy]%elem_of_cons.
    + split; [done|]. cbn. rewrite Er. split; [done|]. by split.
    + destruct (entry_other _ _ _ _ _ F2 E Hy) as [Hy' Hne]. destruct (F1 _ Hy') as (Y1 & Y2 & Y3 & Y4).
      destruct (Hoth _ Hne) as [Eo Ec]. unfold entry_ok. by rewrite Eo, Ec, Er.
  - rewrite E in F2. exact F2.
  - intros a' Hn. cbn in Hn. assert (Hn' : a' ∉ e.*1) by (by rewrite E).
    rewrite decide_False by done. apply Hoth. intros ->. apply Hn. by left.
  - intros a' u. rewrite Ere. case_decide as Hu; [|done]. subst u. by rewrite (xi_rgs _ _ _ _ HI), Hr.
  - intros a' Ha'. cbn in Ha'. destruct (decide (a' = a)) as [->|Hne].
    + destruct (HG Ha') as [-> Hle]. exists n'. split; [by left|done].
    + destruct (F3 a' Ha') as (k & Hk & Hle). cbn in Hk. exists k. split; [|done]. rewrite E in Hk.
      apply elem_of_cons in Hk as [[= -> _ _]|Hk]; [done|by right].
Qed.

Lemma wp_store_owner a v b b' n r e e0 G (Q : unit → role → Prop) :
  e ≡ₚ (a, (b, n)) :: e0 → v = (if b' then id t else 0) → (b' = false → a ∉ G) →
  (a ∈ G → (times a G ≤ n)%nat) → Q tt (Role r None ((a, (b', n)) :: e0) G) →
  xwp (store_owner a v) (Role r None e G) Q.
Proof.
  intros E -> Hb Hle HQ. unfold store_owner. apply wp_act; [intros; left; exists 0; by eexists|].
  intros s g ρ c s' w Hr HI Hex. cbn in Hex. injection Hex as <- <-.
  destruct (xi_ent _ _ _ _ HI t (a, (b, n))) as (_ & _ & _ & Hc); [rewrite Hr; cbn [ent]; rewrite E; by left|].
  exists g, (Role r None ((a, (b', n)) :: e0) G). split; [|by apply wp_ret].
  apply (x_entry s g ρ _ r None e e0 G a b n b' n); try done; cbn.
  - intros a' Hne. by fn_simp.
  - by rewrite fn_insert_eq.
  - intros Ha. split; [|by apply Hle]. destruct b'; [done|]. by apply Hb in Ha.
Qed.

(** The count, which is not atomic. *)
Lemma entry_backs a b n r e G w s g ρ :
  (a, (b, n)) ∈ e → xinv s g ρ → ρ t = Role r None e G → backed (raw_st s) t (Count a, w).
Proof.
  intros Hin HI Hr. destruct (xi_ent _ _ _ _ HI t (a, (b, n))) as (Hl & Hlv & _); [by rewrite Hr|by split].
Qed.

Lemma wp_get_count a b n r e G (Q : Z → role → Prop) :
  (a, (b, n)) ∈ e → Q (Z.of_nat n) (Role r None e G) → xwp (get_count a) (Role r None e G) Q.
Proof.
  intros Hin HQ. unfold get_count, read_at, access. wp_pure.
  apply wp_begin; [by intros; eapply entry_backs|]. wp_pure.
  apply (wp_inert id _ t (LRead (Count a)) Ret _ (λ v, v = Z.of_nat n)); [by eexists| |].
  - intros s g ρ c s' v HI Hr Hex. cbn in Hex. injection Hex as <- <-. split; [done|].
    destruct (xi_ent _ _ _ _ HI t (a, (b, n))) as (_ & _ & _ & Hc); [by rewrite Hr|done].
  - intros v ->. wp_pure. apply wp_end. by wp_pure.
Qed.

Lemma wp_set_count a v b n n' r e e0 G (Q : unit → role → Prop) :
  e ≡ₚ (a, (b, n)) :: e0 → v = Z.of_nat n' → (a ∈ G → b = true ∧ (times a G ≤ n')%nat) →
  Q tt (Role r None ((a, (b, n')) :: e0) G) → xwp (set_count a v) (Role r None e G) Q.
Proof.
  intros E -> HG HQ. unfold set_count, write_at, access. wp_pure.
  apply wp_begin; [intros s g ρ; apply (entry_backs a b n r e G); rewrite E; by left|]. wp_pure.
  apply wp_act; [intros; left; exists 0; by eexists|].
  intros s g ρ c s' w Hr HI Hex. cbn in Hex. injection Hex as <- <-.
  destruct (xi_ent _ _ _ _ HI t (a, (b, n))) as (_ & _ & Ho & _); [rewrite Hr; cbn [ent]; rewrite E; by left|].
  exists g, (Role r (Some (Count a, true)) ((a, (b, n')) :: e0) G). split.
  - apply (x_entry s g ρ _ r _ e e0 G a b n b n'); try done; cbn.
    + intros a' Hne. rewrite fn_insert_ne by congruence. done.
    + by rewrite fn_insert_eq.
  - wp_pure. apply wp_end. by wp_pure.
Qed.

(** The thread gets the raw mutex, and gives it back. *)
Lemma ekeys_in a b n e : (a, (b, n)) ∈ e → (a, GExclusive) ∈ ekeys e.
Proof. intros H. apply list_elem_of_fmap. by exists (a, (b, n)). Qed.

Lemma wp_enter_entry a r e G (Q : unit → role → Prop) :
  has_one (a, GExclusive) (ekeys e) 0 r →
  (∀ r' : lk_role, has (ekeys ((a, (false, 0%nat)) :: e)) 0 r' → Q tt (Role r' None ((a, (false, 0%nat)) :: e) G)) →
  xwp (enter a GExclusive) (Role r None e G) Q.
Proof.
  intros Hr HQ. unfold enter.
  apply (wp_registry id _ t (AEnter a GExclusive) Ret r e ((a, (false, 0%nat)) :: e) G
    (λ _ (r' : lk_role), has (ekeys ((a, (false, 0%nat)) :: e)) 0 r')).
  - eapply (lk_enter t (a, GExclusive)); [done|exact Hr|]. intros r' Hr'. by apply wp_ret.
  - intros s g ρ c s1 v g' r' HI Eρ Hex Hinv Hr'.
    assert (Hnd : NoDup ((a, (false, 0%nat)) :: e).*1).
    { pose proof (has_nodup _ _ _ Hr') as Hnd. by rewrite ekeys_locks in Hnd. }
    assert (Hlive : ∀ y, y ∈ (a, (false, 0%nat)) :: e → (t, GExclusive) ∈ live s1 y.1).
    { intros [a' [b n]] Hy. apply (lk_live s1 g' _ t (ekeys ((a, (false, 0%nat)) :: e)) 0 (a', GExclusive) Hinv).
      - by rewrite fn_insert_eq.
      - by eapply ekeys_in. }
    destruct (x_facts _ _ _ _ _ _ HI Eρ) as (F1 & F2 & F3). cbn in F1, F3.
    split; [|split; [done|split]].
    + intros y Hy. split; [apply Hlocks|]. split; [by apply Hlive|]. apply elem_of_cons in Hy as [->|Hy]; [|by apply F1].
      apply (xi_free _ _ _ _ HI). intros u Hu.
      pose proof Hu as ([a' [b n]] & Ea & Hin)%list_elem_of_fmap. cbn in Ea. subst a'.
      destruct (decide (u = t)) as [->|Hne].
      * cbn in Hnd. apply NoDup_cons in Hnd as [Hn _]. by rewrite Eρ in Hu.
      * destruct (xi_ent _ _ _ _ HI u _ Hin) as (_ & Hlu & _). cbn in Hlu.
        rewrite <- (live_others _ _ _ _ _ _ _ _ _ Hex Hne) in Hlu. destruct Hne.
        eapply exclusive_alone; [|apply (Hlive (a, (false, 0%nat))); by left|exact Hlu].
        by eapply lk_compatible.
    + intros a' Hn Hin. destruct Hn. cbn. by right.
    + intros a' Ha'. destruct (F3 a' Ha') as (n & Hn & Hle). exists n. split; [by right|done].
  - intros v r' Hr'. apply wp_ret. destruct v. by apply HQ.
Qed.

Lemma wp_leave_entry {A} a (p : iprog A) r e e0 G (Q' : A → lk_role → Prop) (Q : A → role → Prop) :
  e ≡ₚ (a, (false, 0%nat)) :: e0 → has (ekeys e) 0 r → a ∉ G → quiet p →
  (∀ r' : lk_role, has_one (a, GExclusive) (ekeys e0) 0 r' → rawp t p r' Q') →
  (∀ x (r' : lk_role), Q' x r' → Q x (Role r' None e0 G)) → xwp (leave a GExclusive p) (Role r None e G) Q.
Proof.
  intros E Hr HG Hq Hp HQ. unfold leave.
  assert (Hin : (a, GExclusive) ∈ ekeys e) by (eapply ekeys_in; rewrite E; by left).
  assert (Ek : remove_first (a, GExclusive) (ekeys e) ≡ₚ ekeys e0).
  { apply (Permutation_cons_inv (a := (a, GExclusive))). rewrite <- remove_first_perm by done. by rewrite E. }
  apply (wp_registry id _ t (ADrop a GExclusive) (λ _, lift p) r e e0 G
    (λ _ (r' : lk_role), has_one (a, GExclusive) (ekeys e0) 0 r')).
  - eapply (lk_drop t (a, GExclusive)); [done|exact Hr|done|]. intros r' Hr'. apply wp_ret.
    by eapply has_one_perm.
  - intros s g ρ c s1 v g' r' HI Eρ Hex Hinv Hr'.
    destruct (x_facts _ _ _ _ _ _ HI Eρ) as (F1 & F2 & F3). cbn in F1, F2, F3.
    assert (Hsub : ∀ y, y ∈ e0 → y ∈ e ∧ y.1 ≠ a) by (intros y Hy; by apply (entry_other e e0 a (false, 0%nat))).
    split; [|split; [|split]].
    + intros y Hy. destruct (Hsub y Hy) as [Hy' Hne]. destruct (F1 y Hy') as (Hl & Hlv & Ho & Hc).
      split; [done|]. split; [|done]. cbn in Hex. injection Hex as <- <-. cbn. by rewrite fn_insert_ne.
    + rewrite E in F2. cbn in F2. by apply NoDup_cons in F2 as [_ F2].
    + intros a' Hn Ha'. rewrite E in Ha'. cbn in Ha'. apply elem_of_cons in Ha' as [->|?]; [|done].
      destruct (F1 (a, (false, 0%nat))) as (_ & _ & Ho & Hc); [rewrite E; by left|done].
    + intros a' Ha'. destruct (F3 a' Ha') as (n & Hn & Hle). exists n. split; [|done]. cbn in Hn |- *.
      rewrite E in Hn. by apply elem_of_cons in Hn as [[=]|Hn].
  - intros v r' Hr'. eapply wp_mono; [|apply (wp_lift id _ t p r' e0 G Q'); [by right|by apply Hp]].
    intros x ? (r'' & -> & Hx). by apply HQ.
Qed.

(** A reentrant guard is made, or taken by its method. *)
Lemma wp_enter_reentrant a n r e G (Q : unit → role → Prop) :
  (a, (true, n)) ∈ e → (times a G < n)%nat → Q tt (Role r None e (a :: G)) →
  xwp (enter_reentrant a) (Role r None e G) Q.
Proof.
  intros Hin Hlt HQ. unfold enter_reentrant. apply wp_act; [intros; left; exists 0; by eexists|].
  intros s g ρ c s' w Hr HI Hex. cbn in Hex. injection Hex as <- <-.
  exists g, (Role r None e (a :: G)). split; [|by apply wp_ret].
  destruct (x_facts _ _ _ _ _ _ HI Hr) as (F1 & F2 & F3). cbn in F1, F2, F3.
  apply (x_data id s g ρ t _ r None e G); try done; cbn; try apply HI.
  - intros u x. case_decide as Hu; [|done]. subst u. by rewrite (xi_acc _ _ _ _ HI), Hr.
  - intros a' Ha'. by rewrite decide_False.
  - intros a' u. fn_cases a a'; rewrite ?times_cons, ?(xi_rgs _ _ _ _ HI).
    all: repeat case_decide; subst; rewrite ?Hr; cbn [rgs]; congruence.
  - intros a' [->|Ha']%elem_of_cons.
    + exists n. split; [done|]. cbn. rewrite times_cons, decide_True by done. lia.
    + destruct (F3 a' Ha') as (k & Hk & Hle). exists k. split; [done|]. cbn in *. rewrite times_cons.
      case_decide as Hd; [|done]. subst a'.
      pose proof (entry_unique _ _ _ _ F2 Hin Hk) as [= <-]. lia.
Qed.

Lemma wp_leave_reentrant {A} a (p : lprog A) r e G (Q : A → role → Prop) :
  (∀ G', G' = remove_first a G → xwp p (Role r None e G') Q) →
  xwp (leave_reentrant a p) (Role r None e G) Q.
Proof.
  intros HQ. unfold leave_reentrant. apply wp_act; [intros; left; exists 0; by eexists|].
  intros s g ρ c s' w Hr HI Hex. cbn in Hex. injection Hex as <- <-.
  exists g, (Role r None e (remove_first a G)). split; [|by apply HQ].
  destruct (x_facts _ _ _ _ _ _ HI Hr) as (F1 & F2 & F3). cbn in F1, F2, F3.
  assert (Hle : ∀ a', (times a' (remove_first a G) ≤ times a' G)%nat).
  { intros a'. rewrite times_remove_first. case_decide; lia. }
  apply (x_data id s g ρ t _ r None e G); try done; cbn; try apply HI.
  - intros u x. case_decide as Hu; [|done]. subst u. by rewrite (xi_acc _ _ _ _ HI), Hr.
  - intros a' Ha'. by rewrite decide_False.
  - intros a' u. fn_cases a a'; rewrite ?times_remove_first, ?(xi_rgs _ _ _ _ HI).
    all: repeat case_decide; subst; rewrite ?Hr; cbn [rgs]; congruence.
  - intros a' Ha'%times_pos. cbn in Ha'. destruct (F3 a') as (k & Hk & Hk'); [apply times_pos; cbn; specialize (Hle a'); lia|].
    exists k. split; [done|]. specialize (Hle a'). cbn in *. lia.
Qed.
End rules.
