(* ===== verification/RemutexProof.v ===== *)
(** * What the reentrant mutex promises

    The operations of the reentrant mutex, for a thread whose guards and counts
    agree, and programs of safe code that use reentrant mutexes through their
    guards: they lock mutexes again while they hold them, also from closures
    that run unlocked. *)

From S2P Require Import Prelude Conc LotTypes BucketQueue ParkingLot LotInv LockApi LockApiLogic GuardClients MutexApiProof ReentrantMutex RemutexLogic.
Import RawReentrantMutex.
Local Open Scope Z_scope.
Local Open Scope prog_scope.

(** ** Programs with guards *)

Inductive rval := RGuard (g : ReentrantMutexGuard.t) | RMapped (g : MappedReentrantMutexGuard.t).

(** A guard gives a shared reference, to cells that can be written through it. *)
#[export] Instance rval_guard `{!Raw.Mutex} : GuardVal rval := {
  gkind _ := GExclusive;
  glock v := match v with RGuard g => ReentrantMutexGuard.remutex g | RMapped g => MappedReentrantMutexGuard.raw g end;
  gpointer v := match v with RGuard g => ReentrantMutexGuard.deref g | RMapped g => MappedReentrantMutexGuard.deref g end;
  gdrop v := match v with RGuard g => ReentrantMutexGuard.drop g | RMapped g => MappedReentrantMutexGuard.drop g end;
}.

Inductive rcmd :=
| RLock (a : Z) | RTryLock (a : Z) | RTryLockFor (a d : Z) | RTryLockUntil (a d : Z)
| RIsLocked (a : Z) | RIsOwned (a : Z)
| RDrop (i : nat) | RUnlockFair (i : nat) | RBump (i : nat)
| RUnlocked (i : nat) (fair : bool) (body : list rcmd)
| RMap (i : nat) (v : Z) (q : list nat) (panics : bool)
| RTryMap (i : nat) (v : Z) (q : option (list nat)) (panics : bool)
| RTryMapOrErr (i : nat) (v : Z) (q : list nat + Z) (panics : bool)
| RRead (i : nat) (q : list nat) | RWrite (i : nat) (q : list nat) (v : Z)
| RPanic.

Section clients.
Context {RM : Raw.Mutex} {RF : Raw.MutexFair} {RT : Raw.MutexTimed} (me : Z).

Abbreviation result := (bool * list rval)%type.

Definition opush (own : list rval) (p : lprog (outcome (option ReentrantMutexGuard.t))) : lprog result :=
  r <- p;;
  Ret (match r with
       | Done (Some g) => (false, RGuard g :: own)
       | Done None => (false, own)
       | Unwind => (true, own)
       end).

Fixpoint run_rcmd (c : rcmd) (outer own : list rval) {struct c} : lprog result :=
  match c with
  | RLock a =>
      opush own (r <- ReentrantMutex.lock me a;;
        Ret (match r with Done g => Done (Some g) | Unwind => Unwind end))
  | RTryLock a => opush own (ReentrantMutex.try_lock me a)
  | RTryLockFor a d => opush own (ReentrantMutex.try_lock_for me a d)
  | RTryLockUntil a d => opush own (ReentrantMutex.try_lock_until me a d)
  | RIsLocked a => ReentrantMutex.is_locked a;; Ret (false, own)
  | RIsOwned a => ReentrantMutex.is_owned_by_current_thread me a;; Ret (false, own)
  | RDrop i =>
      match own !! i with
      | Some v => gdrop v;; Ret (false, delete i own)
      | None => Ret (false, own)
      end
  | RUnlockFair i =>
      match own !! i with
      | Some (RGuard g) => ReentrantMutexGuard.unlock_fair g;; Ret (false, delete i own)
      | Some (RMapped g) => MappedReentrantMutexGuard.unlock_fair g;; Ret (false, delete i own)
      | None => Ret (false, own)
      end
  | RBump i =>
      match own !! i with
      | Some (RGuard g) => ReentrantMutexGuard.bump g;; Ret (false, own)
      | _ => Ret (false, own)
      end
  | RUnlocked i fair body =>
      match own !! i with
      | Some (RGuard g) =>
          let f := closure (run_with run_rcmd body (delete i own ++ outer) []) in
          r <- (if fair then ReentrantMutexGuard.unlocked_fair me g f else ReentrantMutexGuard.unlocked me g f);;
          Ret (unwound r, own)
      | _ => Ret (false, own)
      end
  | RMap i v q p =>
      match own !! i with
      | Some (RGuard g) => mapped own i (ReentrantMutexGuard.map g (mapper (RGuard g) v (λ l, sub l q) p)) RMapped
      | Some (RMapped g) => mapped own i (MappedReentrantMutexGuard.map g (mapper (RMapped g) v (λ l, sub l q) p)) RMapped
      | None => Ret (false, own)
      end
  | RTryMap i v q p =>
      let k l := match q with Some q => Some (sub l q) | None => None end in
      match own !! i with
      | Some (RGuard g) =>
          mapped own i (ReentrantMutexGuard.try_map g (mapper (RGuard g) v k p))
            (λ x, match x with inl g => RMapped g | inr g => RGuard g end)
      | Some (RMapped g) =>
          mapped own i (MappedReentrantMutexGuard.try_map g (mapper (RMapped g) v k p))
            (λ x, match x with inl g => RMapped g | inr g => RMapped g end)
      | None => Ret (false, own)
      end
  | RTryMapOrErr i v q p =>
      let k l := match q with inl q => inl (sub l q) | inr e => inr e end in
      match own !! i with
      | Some (RGuard g) =>
          mapped own i (ReentrantMutexGuard.try_map_or_err g (mapper (RGuard g) v k p))
            (λ x, match x with inl g => RMapped g | inr (g, _) => RGuard g end)
      | Some (RMapped g) =>
          mapped own i (MappedReentrantMutexGuard.try_map_or_err g (mapper (RMapped g) v k p))
            (λ x, match x with inl g => RMapped g | inr (g, _) => RMapped g end)
      | None => Ret (false, own)
      end
  | RRead i q =>
      match (own ++ outer) !! i with
      | Some v => read_at (sub (gpointer v) q);; Ret (false, own)
      | None => Ret (false, own)
      end
  | RWrite i q v =>
      match (own ++ outer) !! i with
      | Some x => write_at (sub (gpointer x) q) v;; Ret (false, own)
      | None => Ret (false, own)
      end
  | RPanic => Ret (true, own)
  end.

(** A thread: at its end, or when it has panicked, its guards are dropped. *)
Definition rthread (cs : list rcmd) : lprog unit :=
  r <- run_with run_rcmd cs [] [];; drop_all r.2.
End clients.

Lemma rcmd_nested (P : rcmd → Prop) :
  (∀ c, (∀ i fair body, c ≠ RUnlocked i fair body) → P c) →
  (∀ i fair body, Forall P body → P (RUnlocked i fair body)) → ∀ c, P c.
Proof.
  intros H1 H2. fix IH 1. intros []; try (apply H1; congruence).
  apply H2. induction body as [|c body IHb]; constructor; [apply IH|exact IHb].
Qed.

(** ** The operations *)

Section verify.
Context {L : LockLogic} {RM : Raw.Mutex} {RF : Raw.MutexFair} {RT : Raw.MutexTimed} {ML : MutexLogic} {QM : QuietMutex}.
Context (id : tid → Z) (id_nonzero : ∀ t, id t ≠ 0) (id_inj : ∀ t u, id t = id u → t = u).
Context (t : tid) (Ht : lk_thread t) (Hlocks : ∀ a, lk_lock a).
Implicit Types (a : Z) (e : list (Z * (bool * nat))) (G c l : list Z) (b : bool) (n : nat) (r : lk_role) (x : role).

Abbreviation xwp := (wp lexec (XInv id) (xpanic (λ _, False)) xblocked t).

(** The counts of the reentrant mutexes are those of the list [c]. *)
Definition entries c e : Prop :=
  (∀ a b n, (a, (b, n)) ∈ e → b = true ∧ n = times a c ∧ (0 < n)%nat ∧ Z.of_nat n < 2 ^ usize_bits) ∧
  (∀ a, a ∈ c → a ∈ e.*1).

(** The thread has counted [c], and has guards for [l]. *)
Definition counted c l x : Prop :=
  ∃ r e G, x = Role r None e G ∧ has (ekeys e) 0 r ∧ entries c e ∧ G ≡ₚ l.

Lemma counted_nodup e r : has (ekeys e) 0 r → NoDup e.*1.
Proof. intros H%has_nodup. by rewrite ekeys_locks in H. Qed.

Lemma entries_cons c a e : entries c e → a ∈ c → ∃ e0, e ≡ₚ (a, (true, times a c)) :: e0.
Proof.
  intros [H1 H2] ([a' [b n]] & -> & Hin)%H2%list_elem_of_fmap. destruct (H1 _ _ _ Hin) as (-> & -> & _).
  by apply elem_of_Permutation.
Qed.

Lemma entries_fresh c a e : entries c e → a ∉ e.*1 → times a c = 0%nat.
Proof. intros [H1 H2] Hn. destruct (decide (a ∈ c)) as [Ha|Ha]; [by apply H2 in Ha|]. rewrite times_pos in Ha. lia. Qed.

(** The entry of [a] changes to [n], which is the count in [c']. *)
Lemma entries_set c c' a e e0 b' n' :
  entries c e → NoDup e.*1 → e ≡ₚ (a, (b', n')) :: e0 → (0 < times a c')%nat → Z.of_nat (times a c') < 2 ^ usize_bits →
  (∀ a', a' ≠ a → times a' c' = times a' c) → entries c' ((a, (true, times a c')) :: e0).
Proof.
  intros [H1 H2] Hnd E Hpos Hlt Hoth. split.
  - intros a' b n [[= -> -> ->]|Hin]%elem_of_cons; [done|].
    destruct (entry_other _ _ _ _ _ Hnd E Hin) as [Hin' Hne]. cbn in Hne. rewrite Hoth by done. by apply H1.
  - intros a' Ha'. cbn. destruct (decide (a' = a)) as [->|Hne]; [by left|]. right.
    assert (Hc : a' ∈ c) by (rewrite times_pos in Ha' |- *; by rewrite <- Hoth).
    apply H2 in Hc. rewrite E in Hc. by apply elem_of_cons in Hc as [?|].
Qed.

Lemma entries_drop c c' a e e0 b' n' :
  entries c e → NoDup e.*1 → e ≡ₚ (a, (b', n')) :: e0 → times a c' = 0%nat →
  (∀ a', a' ≠ a → times a' c' = times a' c) → entries c' e0.
Proof.
  intros [H1 H2] Hnd E Hz Hoth. split.
  - intros a' b n Hin. destruct (entry_other _ _ _ _ _ Hnd E Hin) as [Hin' Hne]. cbn in Hne.
    rewrite Hoth by done. by apply H1.
  - intros a' Ha'. rewrite times_pos in Ha'. assert (Hne : a' ≠ a) by (intros ->; lia).
    assert (Hc : a' ∈ c) by (rewrite times_pos; by rewrite <- Hoth).
    apply H2 in Hc. rewrite E in Hc. by apply elem_of_cons in Hc as [?|].
Qed.

Lemma times_ne a a' l : a' ≠ a → times a' (a :: l) = times a' l.
Proof. intros Hne. by rewrite times_cons, decide_False. Qed.
Lemma times_eq a l : times a (a :: l) = S (times a l).
Proof. by rewrite times_cons, decide_True. Qed.

(** [lock_internal]: the thread takes the raw mutex if it does not own it.
    [fails] says whether that may fail. *)
Lemma wp_lock_internal (fails : Prop) a (p : iprog bool) l x (Q : outcome bool → role → Prop) :
  counted l l x → quiet p →
  (∀ ls r, a ∉ ls.*1 → has ls 0 r →
     rawp t p r (λ ok (r' : lk_role), if ok : bool then has_one (a, GExclusive) ls 0 r' else fails ∧ has ls 0 r')) →
  (∀ x', counted (a :: l) l x' → Q (Done true) x') → (fails → ∀ x', counted l l x' → Q (Done false) x') →
  (Z.of_nat (times a l) + 1 = 2 ^ usize_bits → ∀ x', counted l l x' → Q Unwind x') →
  xwp (lock_internal (id t) a p) x Q.
Proof.
  intros (r & e & G & -> & Hr & He & HG) Hq Hp Htrue Hfalse Hover. unfold lock_internal. wp_pure.
  pose proof (counted_nodup e r Hr) as Hnd.
  apply (wp_load_owner id id_nonzero id_inj t). intros o Ho.
  destruct (Z.eqb_spec o (id t)) as [Heq|Hneq].
  - destruct (proj1 Ho Heq) as [n Hin]. destruct (proj1 He _ _ _ Hin) as (_ & -> & Hpos & Hlt).
    wp_pure. apply (wp_get_count id t a true (times a l)); [done|].
    unfold checked_add, checked. destruct (decide _) as [Hfit|Hover'].
    + pose proof Hin as [e0 E]%elem_of_Permutation. wp_pure.
      apply (wp_set_count id t a _ true (times a l) (S (times a l)) r e e0); [done|lia| |].
      { intros _. split; [done|]. rewrite (times_perm a _ _ HG). lia. }
      wp_pure. apply Htrue. exists r, ((a, (true, S (times a l))) :: e0), G. split; [done|].
      split; [|split; [|done]].
      * eapply has_perm; [|exact Hr]. by rewrite E.
      * rewrite <- times_eq. apply (entries_set l (a :: l) a e e0 true (times a l)); try done; rewrite ?times_eq; try lia.
        intros a' Hne. by apply times_ne.
    + wp_pure. apply Hover; [lia|]. by exists r, e, G.
  - assert (Ha : a ∉ e.*1).
    { intros ([a' [b n]] & Ea & Hin)%list_elem_of_fmap. cbn in Ea. subst a'.
      destruct (proj1 He _ _ _ Hin) as (-> & _). apply Hneq, Ho. by exists n. }
    assert (Hz : times a l = 0%nat) by (by eapply entries_fresh).
    assert (HaG : a ∉ G) by (rewrite HG, times_pos; lia).
    wp_pure. eapply wp_mono; [|apply (wp_lift id _ t p r e G); [by right|apply Hp; [|exact Hr]]]; [|by rewrite ekeys_locks].
    intros [|] ? (r1 & -> & Hr1); wp_pure; [|destruct Hr1 as [Hf Hr1]; apply Hfalse; [done|by exists r1, e, G]].
    apply (wp_enter_entry id t Ht Hlocks); [done|]. intros r2 Hr2. wp_pure.
    apply (wp_store_owner id t a _ false true 0 r2 _ e); [done..|].
    wp_pure. apply (wp_get_count id t a true 0); [by left|].
    change (negb (Z.of_nat 0 =? 0)) with false. cbv iota. wp_pure.
    apply (wp_set_count id t a _ true 0 1 r2 _ e); [done..|]. wp_pure.
    apply Htrue. exists r2, ((a, (true, 1%nat)) :: e), G. split; [done|]. split; [done|]. split; [|done].
    assert (E1 : times a (a :: l) = 1%nat) by (by rewrite times_eq, Hz). split.
    + intros a' b n [[= -> -> ->]|Hin]%elem_of_cons; [rewrite E1; by split; [|split; [|split; [lia|]]]|].
      rewrite times_ne; [by apply He|]. intros ->. apply Ha, list_elem_of_fmap. by exists (a, (b, n)).
    + intros a' [->|Ha']%elem_of_cons; [by left|]. right. by apply He.
Qed.

(** [unlock] and [unlock_fair]: the thread gives up the raw mutex with its last
    guard. *)
Lemma wp_unlock_with a (p : iprog unit) l x (Q : unit → role → Prop) :
  counted (a :: l) l x → quiet p →
  (∀ ls r, has_one (a, GExclusive) ls 0 r → rawp t p r (λ _, has ls 0)) →
  (∀ x', counted l l x' → Q tt x') → xwp (unlock_with a p) x Q.
Proof.
  intros (r & e & G & -> & Hr & He & HG) Hq Hp HQ. unfold unlock_with. wp_pure.
  pose proof (counted_nodup e r Hr) as Hnd.
  destruct (entries_cons (a :: l) a e He) as [e0 E]; [by left|]. rewrite times_eq in E.
  assert (Hin : (a, (true, S (times a l))) ∈ e) by (rewrite E; by left).
  destruct (proj1 He _ _ _ Hin) as (_ & _ & _ & Hlt).
  assert (Hoth : ∀ a', a' ≠ a → times a' l = times a' (a :: l)) by (intros a' Hne; by rewrite times_ne).
  apply (wp_get_count id t a true (S (times a l))); [done|]. wp_pure.
  assert (Ew : wrapping_sub usize_bits (Z.of_nat (S (times a l))) 1 = Z.of_nat (times a l)).
  { unfold wrapping_sub, wrap. rewrite Z.mod_small; lia. }
  rewrite Ew. apply (wp_set_count id t a _ true (S (times a l)) (times a l) r e e0); [done|done| |].
  { intros _. split; [done|]. by rewrite (times_perm a _ _ HG). }
  wp_pure. destruct (Z.eqb_spec (Z.of_nat (times a l)) 0) as [Hz|Hnz].
  - assert (Hz' : times a l = 0%nat) by lia. rewrite Hz'.
    assert (HaG : a ∉ G) by (rewrite HG, times_pos; lia).
    wp_pure. apply (wp_store_owner id t a 0 true false 0 r _ e0); [done..|]. wp_pure.
    apply (wp_leave_entry id t Ht a p r _ e0 G (λ _, has (ekeys e0) 0)); try done.
    + eapply has_perm; [|exact Hr]. by rewrite E.
    + apply Hp.
    + intros [] r' Hr'. apply HQ. exists r', e0, G. split; [done|]. split; [done|]. split; [|done].
      by apply (entries_drop (a :: l) l a e e0 true (S (times a l))).
  - wp_pure. apply HQ. exists r, ((a, (true, times a l)) :: e0), G. split; [done|]. split; [|split; [|done]].
    + eapply has_perm; [|exact Hr]. by rewrite E.
    + apply (entries_set (a :: l) l a e e0 true (S (times a l))); try done; lia.
Qed.

(** [bump]: the owner is reset before the raw mutex is given away, and set
    after. *)
Lemma wp_remutex_bump a l x (Q : unit → role → Prop) :
  counted (a :: l) l x → (∀ x', counted (a :: l) l x' → Q tt x') → xwp (bump a) x Q.
Proof.
  intros Hc HQ. pose proof Hc as (r & e & G & -> & Hr & He & HG). unfold bump. wp_pure.
  pose proof (counted_nodup e r Hr) as Hnd.
  destruct (entries_cons (a :: l) a e He) as [e0 E]; [by left|].
  assert (Hin : (a, (true, times a (a :: l))) ∈ e) by (rewrite E; by left).
  apply (wp_get_count id t a true (times a (a :: l))); [done|]. wp_pure.
  destruct (Z.eqb_spec (Z.of_nat (times a (a :: l))) 1) as [Hone|_]; [|wp_pure; by apply HQ].
  assert (Hone' : times a (a :: l) = 1%nat) by lia. rewrite Hone' in E, Hin.
  assert (HaG : a ∉ G) by (rewrite HG, times_pos; rewrite times_eq in Hone'; lia).
  wp_pure. apply (wp_load_owner id id_nonzero id_inj t). intros o [_ Ho]. rewrite Ho by (by exists 1%nat).
  wp_pure. apply (wp_store_owner id t a 0 true false 1 r e e0); [done..|].
  wp_pure. apply (wp_set_count id t a 0 false 1 0 r _ e0); [done..|].
  unfold change. wp_pure.
  apply (wp_leave_entry id t Ht a _ r _ e0 G (λ _, has_one (a, GExclusive) (ekeys e0) 0)); try done.
  - eapply has_perm; [|exact Hr]. by rewrite E.
  - apply quiet_bump.
  - intros r1 Hr1. by apply bump_spec.
  - intros [] r1 Hr1. apply (wp_enter_entry id t Ht Hlocks); [done|]. intros r2 Hr2.
    wp_pure. apply (wp_store_owner id t a _ false true 0 r2 _ e0); [done..|].
    wp_pure. apply (wp_set_count id t a 1 true 0 1 r2 _ e0); [done..|].
    apply HQ. exists r2, ((a, (true, 1%nat)) :: e0), G. split; [done|]. split; [done|]. split; [|done].
    rewrite <- Hone'. apply (entries_set (a :: l) (a :: l) a e e0 true 1); try done; rewrite Hone'; [lia|done].
Qed.

(** A guard is made for what has been counted, or its method takes it. *)
Lemma wp_counted_enter a l x (Q : unit → role → Prop) :
  counted (a :: l) l x → (∀ x', counted (a :: l) (a :: l) x' → Q tt x') → xwp (enter_reentrant a) x Q.
Proof.
  intros (r & e & G & -> & Hr & He & HG) HQ.
  destruct (entries_cons (a :: l) a e He) as [e0 E]; [by left|].
  apply (wp_enter_reentrant id t Ht a (times a (a :: l))); [rewrite E; by left| |].
  - rewrite (times_perm a _ _ HG), times_eq. lia.
  - apply HQ. exists r, e, (a :: G). split; [done|]. split; [done|]. split; [done|by rewrite HG].
Qed.

Lemma wp_counted_leave {A} a l (p : lprog A) x (Q : A → role → Prop) :
  counted (a :: l) (a :: l) x → (∀ x', counted (a :: l) l x' → xwp p x' Q) → xwp (leave_reentrant a p) x Q.
Proof.
  intros (r & e & G & -> & Hr & He & HG) Hp. apply (wp_leave_reentrant id t Ht). intros G' ->.
  apply Hp. exists r, e, (remove_first a G). split; [done|]. split; [done|]. split; [done|].
  apply (Permutation_cons_inv (a := a)). rewrite <- remove_first_perm; [done|]. rewrite HG. by left.
Qed.

(** ** Every program is verified *)

(** The thread has the guards [vs]. *)
Definition rguards (vs : list rval) (_ : nat) x : Prop :=
  counted (glock <$> vs) (glock <$> vs) x ∧ Forall points vs.

Lemma rguards_perm vs vs' m x : vs ≡ₚ vs' → rguards vs m x → rguards vs' m x.
Proof.
  intros E [(r & e & G & -> & Hr & [He1 He2] & HG) Hp]. split; [|by rewrite <- E].
  assert (El : glock <$> vs ≡ₚ glock <$> vs') by (by rewrite E).
  exists r, e, G. split; [done|]. split; [done|]. split; [|by rewrite <- El]. split.
  - intros a b n Hin. rewrite <- (times_perm a _ _ El). by apply He1.
  - intros a. rewrite <- El. apply He2.
Qed.

Lemma rguards_le vs m m' x : (m ≤ m')%nat → rguards vs m' x → rguards vs m x.
Proof. done. Qed.

Lemma rguards_replace (v v' : rval) vs m x :
  glock v' = glock v → gkind v' = gkind v → points v' → rguards (v :: vs) m x → rguards (v' :: vs) m x.
Proof.
  intros El _ Hp [H1 [_ H2]%Forall_cons]. split; [|by constructor]. cbn [fmap list_fmap] in *. by rewrite El.
Qed.

(** The thread has a guard of the raw mutex while it has one of its own. *)
Lemma rguards_access vs m x v q :
  v ∈ vs → rguards vs m x → ∃ p (r : lk_role) e G,
    sub (gpointer v) q = Data (glock v) p ∧ x = Role r None e G ∧ has (ekeys e) 0 r ∧ (glock v, GExclusive) ∈ ekeys e.
Proof.
  intros Hin [(r & e & G & -> & Hr & He & HG) Hp]. rewrite Forall_forall in Hp.
  destruct (points_sub v q (Hp v Hin)) as [p E]. exists p, r, e, G. split; [done|]. split; [done|]. split; [done|].
  destruct (entries_cons _ (glock v) e He) as [e0 Ee]; [by apply list_elem_of_fmap_2|].
  eapply ekeys_in. rewrite Ee. by left.
Qed.

Lemma wp_rread vs v q m x (Q : Z → role → Prop) :
  v ∈ vs → rguards vs m x → (∀ y, Q y x) → xwp (read_at (sub (gpointer v) q)) x Q.
Proof.
  intros Hin Hr HQ. destruct (rguards_access vs m x v q Hin Hr) as (p & r & e & G & -> & -> & Hh & Hk).
  apply (wp_read_data id _ t (ekeys e) 0 r e G (glock v, GExclusive)); [done|apply Hlocks|done|done].
Qed.

Lemma wp_rwrite vs v q y m x (Q : unit → role → Prop) :
  v ∈ vs → rguards vs m x → Q tt x → xwp (write_at (sub (gpointer v) q) y) x Q.
Proof.
  intros Hin Hr HQ. destruct (rguards_access vs m x v q Hin Hr) as (p & r & e & G & -> & -> & Hh & Hk).
  by apply (wp_write_data id _ t (ekeys e) 0 r e G).
Qed.

Lemma rguards_read (v : rval) vs m x (Q : Z → role → Prop) :
  v ∈ vs → rguards vs m x → (∀ y x', rguards vs m x' → Q y x') → xwp (read_at (gpointer v)) x Q.
Proof. intros Hin Hr HQ. rewrite <- (sub_nil (gpointer v)). eapply wp_rread; eauto. Qed.

Lemma rguards_write (v : rval) vs y m x (Q : unit → role → Prop) :
  v ∈ vs → gkind v = GExclusive → rguards vs m x → (∀ x', rguards vs m x' → Q tt x') →
  xwp (write_at (gpointer v) y) x Q.
Proof. intros Hin _ Hr HQ. rewrite <- (sub_nil (gpointer v)). eapply wp_rwrite; eauto. Qed.

(** A guard is given up, by either way of unlocking. *)
Lemma wp_release_reentrant (v : rval) vs m (p : iprog unit) x (Q : unit → role → Prop) :
  rguards (v :: vs) m x → quiet p →
  (∀ ls r, has_one (glock v, GExclusive) ls 0 r → rawp t p r (λ _, has ls 0)) →
  (∀ x', rguards vs m x' → Q tt x') →
  xwp (leave_reentrant (glock v) (unlock_with (glock v) p)) x Q.
Proof.
  intros [Hc [_ Hps]%Forall_cons] Hq Hp HQ. apply (wp_counted_leave _ _ _ _ _ Hc).
  intros x1 H1. eapply wp_unlock_with; [exact H1|done|done|]. intros x2 H2. apply HQ. by split.
Qed.

Lemma unlock_released a ls r : has_one (a, GExclusive) ls 0 r → rawp t (Raw.unlock a) r (λ _, has ls 0).
Proof. by apply unlock_spec. Qed.
Lemma unlock_fair_released a ls r :
  has_one (a, GExclusive) ls 0 r → rawp t (Raw.unlock_fair a) r (λ _, has ls 0).
Proof. by apply unlock_fair_spec. Qed.

Lemma rguards_drop (v : rval) vs m x (Q : unit → role → Prop) :
  rguards (v :: vs) m x → (∀ x', rguards vs m x' → Q tt x') → xwp (gdrop v) x Q.
Proof.
  intros Hr HQ. assert (H : xwp (leave_reentrant (glock v) (unlock (glock v))) x Q); [|by destruct v].
  eapply wp_release_reentrant; [exact Hr|apply quiet_unlock| |done]. apply unlock_released.
Qed.

(** [lock], which cannot fail. *)
Lemma lock_always a ls r :
  a ∉ ls.*1 → has ls 0 r →
  rawp t (Bind (Raw.lock a) (λ _, Ret true)) r
    (λ ok (r' : lk_role), if ok : bool then has_one (a, GExclusive) ls 0 r' else False ∧ has ls 0 r').
Proof.
  intros Ha Hr. wp_pure. eapply wp_mono; [|by apply lock_spec]. intros [] r' Hr'. by apply wp_ret.
Qed.

Lemma quiet_lock_always a : quiet (Bind (Raw.lock a) (λ _, Ret true)).
Proof. split; [apply quiet_lock|done]. Qed.

Lemma may_fail (b : iprog bool) a ls r :
  rawp t b r (λ ok : bool, if ok then has_one (a, GExclusive) ls 0 else has ls 0) →
  rawp t b r (λ ok (r' : lk_role), if ok : bool then has_one (a, GExclusive) ls 0 r' else True ∧ has ls 0 r').
Proof. intros H. eapply wp_mono; [|exact H]. by intros [] r'. Qed.

(** The guard comes back after a closure that left as many guards: the count
    does not overflow. *)
Lemma wp_relock (v : rval) vs m x (Q : unit → role → Prop) :
  points v → rguards vs m x → Z.of_nat (S (times (glock v) (glock <$> vs))) < 2 ^ usize_bits →
  (∀ x', rguards (v :: vs) m x' → Q tt x') → xwp (ReentrantMutexGuard.relock (id t) (glock v)) x Q.
Proof.
  intros Hv [Hc Hps] Hlt HQ. unfold ReentrantMutexGuard.relock. wp_pure.
  eapply (wp_lock_internal False (glock v) _ _ _ _ Hc); [apply quiet_lock_always|apply lock_always|..].
  - intros x1 H1. wp_pure. eapply wp_counted_enter; [exact H1|]. intros x2 H2. apply HQ. by split; [|constructor].
  - done.
  - intros Hover. lia.
Qed.

Implicit Types (own outer vs : list rval) (v : rval) (m : nat).

Lemma count_fits v vs m x :
  rguards (v :: vs) m x → Z.of_nat (S (times (glock v) (glock <$> vs))) < 2 ^ usize_bits.
Proof.
  intros [(r & e & G & -> & Hr & He & HG) _]. cbn [fmap list_fmap] in He. rewrite <- times_eq.
  destruct (entries_cons _ (glock v) e He) as [e0 E]; [by left|].
  eapply (proj1 He). rewrite E. by left.
Qed.

Lemma points_remutex a : points (RGuard (ReentrantMutexGuard.Mk a)).
Proof. split; [apply Hlocks|by exists []]. Qed.

Lemma in_rguards v vs m x : v ∈ vs → rguards vs m x → points v.
Proof. intros Hin [_ Hp]. rewrite Forall_forall in Hp. by apply Hp. Qed.

Lemma wp_make_guard {A} a vs m x (k : ReentrantMutexGuard.t → lprog A) Q :
  counted (a :: (glock <$> vs)) (glock <$> vs) x → Forall points vs →
  (∀ x', rguards (RGuard (ReentrantMutexGuard.Mk a) :: vs) m x' → xwp (k (ReentrantMutexGuard.Mk a)) x' Q) →
  xwp (Bind (ReentrantMutex.make_guard_unchecked a) k) x Q.
Proof.
  intros Hc Hps Hk. unfold ReentrantMutex.make_guard_unchecked. wp_pure.
  apply (wp_counted_enter _ _ _ _ Hc). intros x' H'. wp_pure. apply Hk.
  split; [exact H'|]. constructor; [apply points_remutex|done].
Qed.

Lemma wp_remutex_lock a vs m x (Q : outcome ReentrantMutexGuard.t → role → Prop) :
  rguards vs m x →
  (∀ x', rguards (RGuard (ReentrantMutexGuard.Mk a) :: vs) m x' → Q (Done (ReentrantMutexGuard.Mk a)) x') →
  (∀ x', rguards vs m x' → Q Unwind x') → xwp (ReentrantMutex.lock (id t) a) x Q.
Proof.
  intros [Hc Hps] HD HU. unfold ReentrantMutex.lock, lock. wp_pure.
  apply (wp_lock_internal False a _ _ _ _ Hc); [apply quiet_lock_always|apply lock_always| |done|].
  - intros x1 H1. apply (wp_make_guard a vs m); [done..|]. intros x2 H2. wp_pure. by apply HD.
  - intros _ x1 H1. wp_pure. by apply HU.
Qed.

Lemma wp_guard_if a (p : iprog bool) vs m x (Q : outcome (option ReentrantMutexGuard.t) → role → Prop) :
  rguards vs m x → quiet p →
  (∀ ls r, a ∉ ls.*1 → has ls 0 r →
     rawp t p r (λ ok : bool, if ok then has_one (a, GExclusive) ls 0 else has ls 0)) →
  (∀ x', rguards (RGuard (ReentrantMutexGuard.Mk a) :: vs) m x' → Q (Done (Some (ReentrantMutexGuard.Mk a))) x') →
  (∀ o x', o = Done None ∨ o = Unwind → rguards vs m x' → Q o x') →
  xwp (ReentrantMutex.guard_if a (lock_internal (id t) a p)) x Q.
Proof.
  intros [Hc Hps] Hq Hp HD HN. unfold ReentrantMutex.guard_if. wp_pure.
  apply (wp_lock_internal True a _ _ _ _ Hc); [done| | | |].
  - intros ls r Ha Hr. by apply may_fail, Hp.
  - intros x1 H1. apply (wp_make_guard a vs m); [done..|]. intros x2 H2. wp_pure. by apply HD.
  - intros _ x1 H1. wp_pure. apply HN; [by left|by split].
  - intros _ x1 H1. wp_pure. apply HN; [by right|by split].
Qed.

(** ** Every program is verified *)

Abbreviation gruns := (guards_run (XInv id) (xpanic (λ _, False)) xblocked t rguards 0).
Abbreviation rruns c := (gruns (run_rcmd (id t) c)).

Lemma rtotal_zero cs : total (λ _ : rcmd, 0%nat) cs = 0%nat.
Proof. induction cs; [done|]. by cbn. Qed.

Lemma wp_rtry a (p : iprog bool) :
  quiet p →
  (∀ ls r, a ∉ ls.*1 → has ls 0 r →
     rawp t p r (λ ok : bool, if ok then has_one (a, GExclusive) ls 0 else has ls 0)) →
  gruns (λ _ own, opush own (ReentrantMutex.guard_if a (lock_internal (id t) a p))).
Proof.
  intros Hq Hp outer own m x Q Hr HQ. unfold opush. wp_pure. apply (wp_guard_if a p _ _ _ _ Hr Hq Hp).
  - intros x' H'. wp_pure. by apply HQ.
  - intros o x' Ho H'. wp_pure. destruct Ho as [-> | ->]; by apply HQ.
Qed.

Lemma wp_rmapped {X Y} own outer i v y (k : loc → X) p (g : X → Y) (f : Y → rval) m x
    (Q : bool * list rval → role → Prop) :
  let v' := f (g (k (gpointer v))) in
  own !! i = Some v → rguards (own ++ outer) m x → glock v' = glock v → (∃ q, gpointer v' = sub (gpointer v) q) →
  (∀ b own' x', rguards (own' ++ outer) m x' → Q (b, own') x') →
  xwp (mapped own i (consume (mapper v y k p (gpointer v)) (gdrop v) g) f) x Q.
Proof.
  intros v' Hi Hr El [q Eq] HQ. pose proof (in_rguards _ _ _ _ (in_guards own outer i v Hi) Hr) as Hp.
  apply (guards_mapped (XInv id) (xpanic (λ _, False)) xblocked t rguards points rguards_perm rguards_replace
    rguards_drop rguards_read rguards_write own outer i v y k p g f m); try done.
  split; [apply Hlocks|]. fold v'. rewrite Eq, El. by apply points_sub.
Qed.

Lemma sub_self (l : loc) : ∃ q, l = sub l q.
Proof. exists []. by rewrite sub_nil. Qed.

Lemma wp_remutex_map i y q p : rruns (RMap i y q p).
Proof.
  intros outer own m x Q Hr HQ. cbn [run_rcmd]. destruct (own !! i) as [[g|g]|] eqn:Hi; [..|by apply wp_ret, HQ].
  - by apply (wp_rmapped own outer i (RGuard g) y (λ l : loc, sub l q) p
      (MappedReentrantMutexGuard.Mk (ReentrantMutexGuard.remutex g)) RMapped m); [..|exists q|].
  - by apply (wp_rmapped own outer i (RMapped g) y (λ l : loc, sub l q) p
      (MappedReentrantMutexGuard.Mk (MappedReentrantMutexGuard.raw g)) RMapped m); [..|exists q|].
Qed.

Lemma wp_remutex_try_map i y q p : rruns (RTryMap i y q p).
Proof.
  intros outer own m x Q Hr HQ. cbn [run_rcmd]. set (k := λ l : loc, match q with Some q => Some (sub l q) | None => None end).
  destruct (own !! i) as [[g|g]|] eqn:Hi; [..|by apply wp_ret, HQ].
  - apply (wp_rmapped own outer i (RGuard g) y k p (map_ok (MappedReentrantMutexGuard.Mk (ReentrantMutexGuard.remutex g)) g)
      (λ z, match z with inl g => RMapped g | inr g => RGuard g end) m); try done; destruct q as [q|]; try done;
      [by exists q|apply sub_self].
  - apply (wp_rmapped own outer i (RMapped g) y k p (map_ok (MappedReentrantMutexGuard.Mk (MappedReentrantMutexGuard.raw g)) g)
      (λ z, match z with inl g => RMapped g | inr g => RMapped g end) m); try done; destruct q as [q|]; try done;
      [by exists q|apply sub_self].
Qed.

Lemma wp_remutex_try_map_or_err i y q p : rruns (RTryMapOrErr i y q p).
Proof.
  intros outer own m x Q Hr HQ. cbn [run_rcmd]. set (k := λ l : loc, match q with inl q => inl (sub l q) | inr e => inr e end).
  destruct (own !! i) as [[g|g]|] eqn:Hi; [..|by apply wp_ret, HQ].
  - apply (wp_rmapped own outer i (RGuard g) y k p (map_result (MappedReentrantMutexGuard.Mk (ReentrantMutexGuard.remutex g)) g)
      (λ z, match z with inl g => RMapped g | inr (g, _) => RGuard g end) m); try done; destruct q as [q|]; try done;
      [by exists q|apply sub_self].
  - apply (wp_rmapped own outer i (RMapped g) y k p (map_result (MappedReentrantMutexGuard.Mk (MappedReentrantMutexGuard.raw g)) g)
      (λ z, match z with inl g => RMapped g | inr (g, _) => RMapped g end) m); try done; destruct q as [q|]; try done;
      [by exists q|apply sub_self].
Qed.

Lemma wp_runlocked_cmd i fair body : Forall (λ c : rcmd, rruns c) body → rruns (RUnlocked i fair body).
Proof.
  intros Hb outer own m x Q Hr HQ. cbn [run_rcmd].
  destruct (own !! i) as [[[a]|g]|] eqn:Hi; [|by apply wp_ret, HQ..]. wp_pure.
  set (v := RGuard (ReentrantMutexGuard.Mk a)) in *.
  pose proof (delete_perm own outer i _ Hi) as E. apply (rguards_perm _ _ _ _ E) in Hr.
  pose proof (count_fits _ _ _ _ Hr) as Hlt.
  set (f := closure _).
  assert (H : ∀ (p : iprog unit), quiet p →
    (∀ ls r, has_one (a, GExclusive) ls 0 r → rawp t p r (λ _, has ls 0)) →
    xwp (leave_reentrant a (unlock_with a p);; deferred f (ReentrantMutexGuard.relock (id t) a)) x
      (λ o x', xwp (Ret (unwound o, own)) x' Q)).
  { intros p Hq Hp. unfold deferred. wp_pure. eapply (wp_release_reentrant v); [exact Hr|done|done|]. intros x1 H1. wp_pure.
    eapply (guards_closure _ _ _ _ rguards rguards_le rguards_drop _ (λ _, 0%nat)); [exact Hb|by rewrite rtotal_zero|].
    intros o x2 H2. wp_pure. eapply (wp_relock v); [apply points_remutex|exact H2|exact Hlt|]. intros x3 H3. wp_pure.
    apply HQ. by apply (rguards_perm _ _ _ _ (symmetry E)). }
  destruct fair; apply H; [apply quiet_unlock_fair|apply unlock_fair_released|apply quiet_unlock|apply unlock_released].
Qed.

Lemma wp_run_rcmd (c : rcmd) : rruns c.
Proof.
  induction c as [c Hc|i fair body Hb] using rcmd_nested; [|by apply wp_runlocked_cmd].
  destruct c as [a|a|a d|a d|a|a|i|i|i|i fair body|i v q p|i v q p|i v q p|i q|i q v|];
    [| | | | | | | | |by destruct (Hc i fair body)|apply wp_remutex_map|apply wp_remutex_try_map|apply wp_remutex_try_map_or_err| | |].
  2: { apply wp_rtry; [apply quiet_try_lock|]. intros ls r _. by apply try_lock_spec. }
  2: { apply wp_rtry; [apply quiet_try_lock_for|]. intros ls r. by apply try_lock_for_spec. }
  2: { apply wp_rtry; [apply quiet_try_lock_until|]. intros ls r. by apply try_lock_until_spec. }
  all: intros outer own m x Q Hr HQ; cbn [run_rcmd Nat.add] in *.
  - unfold opush. wp_pure. apply (wp_remutex_lock a _ _ _ _ Hr); intros x' H'; wp_pure; by apply HQ.
  - destruct Hr as [(r & e & G & -> & Hr & He & HG) Hps]. unfold ReentrantMutex.is_locked, is_locked. wp_pure.
    eapply wp_mono; [|apply (wp_lift id _ t (Raw.is_locked a) r e G); [right; apply quiet_is_locked|by apply is_locked_spec]].
    intros b ? (r' & -> & Hr'). wp_pure. apply HQ. split; [|done]. by exists r', e, G.
  - pose proof Hr as [(r & e & G & -> & Hr' & He & HG) Hps].
    unfold ReentrantMutex.is_owned_by_current_thread, is_owned_by_current_thread. wp_pure.
    apply (wp_load_owner id id_nonzero id_inj t). intros o _. wp_pure. by apply HQ.
  - destruct (own !! i) as [v|] eqn:Hi; [|by apply wp_ret, HQ]. wp_pure.
    eapply rguards_drop; [by eapply rguards_perm; [apply (delete_perm own outer i _ Hi)|]|].
    intros x' H'. wp_pure. by apply HQ.
  - destruct (own !! i) as [v|] eqn:Hi; [|by apply wp_ret, HQ].
    assert (H : xwp (leave_reentrant (glock v) (unlock_fair (glock v));; Ret (false, delete i own)) x Q); [|by destruct v].
    wp_pure. eapply wp_release_reentrant; [by eapply rguards_perm; [apply (delete_perm own outer i _ Hi)|]|apply quiet_unlock_fair|apply unlock_fair_released|].
    intros x' H'. wp_pure. by apply HQ.
  - destruct (own !! i) as [[[a]|g]|] eqn:Hi; [|by apply wp_ret, HQ..]. unfold ReentrantMutexGuard.bump. wp_pure.
    pose proof (delete_perm own outer i _ Hi) as E. apply (rguards_perm _ _ _ _ E) in Hr as [Hcnt Hps].
    apply (wp_counted_leave _ _ _ _ _ Hcnt). intros x1 H1. eapply wp_remutex_bump; [exact H1|]. intros x2 H2. wp_pure.
    eapply wp_counted_enter; [exact H2|]. intros x3 H3. wp_pure. apply HQ.
    apply (rguards_perm _ _ _ _ (symmetry E)). by split.
  - destruct ((own ++ outer) !! i) as [v|] eqn:Hi; [|by apply wp_ret, HQ]. wp_pure.
    eapply wp_rread; [by eapply list_elem_of_lookup_2|exact Hr|]. intros y. wp_pure. by apply HQ.
  - destruct ((own ++ outer) !! i) as [w|] eqn:Hi; [|by apply wp_ret, HQ]. wp_pure.
    eapply wp_rwrite; [by eapply list_elem_of_lookup_2|exact Hr|]. wp_pure. by apply HQ.
  - apply wp_ret. by apply HQ.
Qed.

(** A thread that starts without guards ends without guards. *)
Lemma wp_rthread cs r (Q : unit → role → Prop) :
  has [] 0 r → (∀ x, rguards [] 0 x → Q tt x) → xwp (rthread (id t) cs) (Role r None [] []) Q.
Proof.
  intros Hr HQ. unfold rthread. wp_pure.
  eapply (guards_run_with _ _ _ _ rguards rguards_le (run_rcmd (id t)) (λ _, 0%nat) cs); [|split; [|constructor]|].
  - apply Forall_forall. intros c _. apply wp_run_rcmd.
  - exists r, [], []. split; [done|]. split; [done|]. split; [|done].
    split; [by intros ??? ?%elem_of_nil|by intros ? ?%elem_of_nil].
  - intros b own x' H'. wp_pure. eapply (guards_drop_all _ _ _ _ rguards rguards_drop); [exact H'|].
    intros x'' H''. by apply HQ.
Qed.
End verify.
