(* ===== verification/RemutexGuards.v ===== *)
(** * The reentrant mutexes of parking_lot, in safe code

    [ReentrantMutex] is lock_api's reentrant mutex over [RawMutex]; [RawFairMutex]
    serves as well.  The raw mutexes keep what [RemutexProof] asks of them, so
    programs that use reentrant mutexes have no data races, and their guards
    agree with the owner and the count of each mutex. *)

From S2P Require Import Prelude Conc LotTypes BucketQueue ParkingLot LotInv LockApi LockApiLogic GuardClients MutexApiProof RawMutex RawMutexInv RawMutexProof MutexGuards ReentrantMutex RemutexLogic RemutexProof.
Local Open Scope Z_scope.

(** Programs that register no guards, by their structure. *)
Ltac quiet_program :=
  repeat match goal with
    | |- True => exact I
    | |- _ ∧ _ => split
    | |- ∀ _, _ => intros ?
    | |- registers _ = false => reflexivity
    | |- quiet (match ?x with _ => _ end) => destruct x
    | |- quiet ?p => let q := eval hnf in p in progress change (quiet q)
    | |- quiet _ => progress cbn [quiet]
    end.

Section theorems.
Context (bucket_of : Z → nat) (fair : bool).
#[local] Existing Instances raw_mutex raw_mutex_fair raw_mutex_timed mutex_lock_logic mutex_logic.

Instance quiet_mutex :
  QuietMutex (RM := raw_mutex bucket_of fair) (RF := raw_mutex_fair bucket_of fair) (RT := raw_mutex_timed bucket_of fair).
Proof.
  split; intros; destruct fair; quiet_program.
Qed.

(* [GetThreadId] *)
Context (id : tid → Z) (id_nonzero : ∀ t, id t ≠ 0) (id_inj : ∀ t u, id t = id u → t = u).

Definition start_remutex (d : loc → Z) : lstate := start_lstate start_state d.
(** A thread without commands is done. *)
Definition remutex_pool (scripts : tid → list rcmd) : tid → lprog unit := λ t,
  match scripts t with
  | [] => Ret tt
  | cs =>
      rthread (RM := raw_mutex bucket_of fair) (RF := raw_mutex_fair bucket_of fair)
        (RT := raw_mutex_timed bucket_of fair) (id t) cs
  end.

Implicit Types (scripts : tid → list rcmd) (s : lstate) (ps : tid → lprog unit) (d : loc → Z) (t u : tid) (a : Z).

Abbreviation XI := (XInv (L := mutex_lock_logic bucket_of no_cv) id).
Abbreviation xwp := (wp lexec XI (xpanic (L := mutex_lock_logic bucket_of no_cv) (λ _, False))
                       (xblocked (L := mutex_lock_logic bucket_of no_cv))).

Abbreviation without_guards :=
  (rguards (L := mutex_lock_logic bucket_of no_cv) (RM := raw_mutex bucket_of fair) [] 0).

Lemma remutex_verified scripts d s ps :
  reachable lexec (start_remutex d) (remutex_pool scripts) s ps →
  ∃ g ρ, XI s g ρ ∧ ∀ t, xwp t (ps t) (ρ t) (λ _, without_guards).
Proof.
  intros Hr.
  eapply (adequacy lexec XI _ _ without_guards); [|exact Hr].
  exists (λ _, None), (λ _, Role (L := mutex_lock_logic bucket_of no_cv) (MkRole [] [] Idle None) None [] []). split.
  - apply (start_xinv (L := mutex_lock_logic bucket_of no_cv)), start_inv.
  - intros t.
    assert (H : raw_has [] 0 (MkRole [] [] Idle None)).
    { split; [done|]. cbn. split; [done|]. split; [done|]. by split; constructor. }
    unfold remutex_pool. cbn [snd]. destruct (scripts t) as [|c cs].
    + apply wp_ret. split; [|constructor]. eexists _, [], []. split; [done|]. split; [exact H|]. split; [|done].
      split; [by intros ??? ?%elem_of_nil|by intros ? ?%elem_of_nil].
    + by apply (wp_rthread (ML := mutex_logic bucket_of no_cv fair) (QM := quiet_mutex) id id_nonzero id_inj t).
Qed.

(** A thread that has a reentrant guard is the owner. *)
Lemma reentered_owner s g ρ a t :
  XI s g ρ → t ∈ reentered s a →
  owner s a = id t ∧ (t, GExclusive) ∈ live (raw_st s) a ∧ Z.of_nat (times t (reentered s a)) ≤ cell s (Count a).
Proof.
  intros HI Ht. rewrite times_pos, (xi_rgs _ _ _ _ HI), <- times_pos in Ht.
  destruct (xi_guards _ _ _ _ HI t a Ht) as (n & Hin & Hle).
  destruct (xi_ent _ _ _ _ HI t _ Hin) as (_ & Hl & Ho & Hc). cbn in *.
  split; [done|]. split; [done|]. rewrite Hc, (xi_rgs _ _ _ _ HI). lia.
Qed.

Lemma live_alone s g ρ a t :
  XI s g ρ → (t, GExclusive) ∈ live (raw_st s) a → live (raw_st s) a = [(t, GExclusive)].
Proof.
  intros HI Ht. eapply exclusive_alone; [|exact Ht|exact Ht].
  by eapply (lk_compatible (LockLogic := mutex_lock_logic bucket_of no_cv)); [apply HI|].
Qed.

(** C11: Safe code that uses reentrant mutexes has no data races, and the guards
    agree with the owner and the count. In every reachable configuration of any
    number of threads that run any programs (they lock mutexes again while they
    hold them, map, bump and drop guards in any order, run closures unlocked,
    and panic), accesses of two threads to the same data do not overlap unless
    both read, whoever accesses the data holds the raw mutex, all guards of a
    mutex belong to one thread, which is its owner and holds the raw mutex, the
    count is at least their number, and a mutex whose raw mutex nobody holds has
    no owner and count zero. Nothing panics but the closures and the check for
    overflow in [lock]: neither the debug assertion nor the lock that follows a
    closure run unlocked. *)
Theorem remutex_exclusive scripts d s ps :
  reachable lexec (start_remutex d) (remutex_pool scripts) s ps →
  raced s = false ∧ (∀ t m, ps t ≠ Panic m) ∧
  (∀ a t, t ∈ reentered s a →
     owner s a = id t ∧ live (raw_st s) a = [(t, GExclusive)] ∧ (∀ u, u ∈ reentered s a → u = t) ∧
     Z.of_nat (length (reentered s a)) ≤ cell s (Count a)) ∧
  (∀ a, live (raw_st s) a = [] → owner s a = 0 ∧ cell s (Count a) = 0 ∧ reentered s a = []) ∧
  (∀ t a p w, (t, (Data a p, w)) ∈ accesses s → live (raw_st s) a = [(t, GExclusive)]).
Proof.
  intros (g & ρ & HI & Hwp)%remutex_verified. split; [apply HI|].
  assert (Hown : ∀ a t, t ∈ reentered s a →
    owner s a = id t ∧ live (raw_st s) a = [(t, GExclusive)] ∧ (∀ u, u ∈ reentered s a → u = t) ∧
    Z.of_nat (length (reentered s a)) ≤ cell s (Count a)).
  { intros a t Ht. destruct (reentered_owner _ _ _ _ _ HI Ht) as (Ho & Hl & Hc). split; [done|].
    split; [by eapply live_alone|].
    assert (Hall : ∀ u, u ∈ reentered s a → u = t).
    { intros u Hu. destruct (reentered_owner _ _ _ _ _ HI Hu) as (Hou & _). apply id_inj. congruence. }
    split; [done|]. by rewrite <- (times_all t). }
  split; [|split; [done|split]].
  - intros t m E. specialize (Hwp t). rewrite E in Hwp. by apply wp_no_panic in Hwp as [].
  - intros a Ha. destruct (xi_free _ _ _ _ HI a) as [Ho Hc].
    { intros t (y & -> & Hy)%list_elem_of_fmap. destruct (xi_ent _ _ _ _ HI t _ Hy) as (_ & Hl & _).
      rewrite Ha in Hl. by apply elem_of_nil in Hl. }
    split; [done|]. split; [done|]. destruct (reentered s a) as [|u l] eqn:E; [done|].
    destruct (Hown a u) as (_ & Hl & _); [rewrite E; by left|]. by rewrite Ha in Hl.
  - intros t a p w Hx. destruct (access_guard _ _ _ _ _ _ _ _ HI Hx) as (gd & Hgd & _).
    pose proof (xi_raw _ _ _ _ HI) as HM. destruct (mi_live _ _ _ _ _ HM a t gd) as [Hl _].
    destruct (Hl Hgd) as [-> _]. by eapply live_alone.
Qed.

(** C12: Reentrant mutexes are released, and waiters woken. If no thread can take
    a step, then each thread either is done, also after a panic, and has no
    guard left, and it is not the owner of any mutex, or it is queued on a raw
    mutex that is locked. *)
Theorem remutex_guards_dropped scripts d s ps :
  reachable lexec (start_remutex d) (remutex_pool scripts) s ps →
  (∀ t c, step1 lexec t c (ps t) s = None) →
  ∀ t, (ps t = Ret tt ∧ ∀ a, t ∉ reentered s a ∧ owner s a ≠ id t ∧ ∀ gd, (t, gd) ∉ live (raw_st s) a) ∨
       ∃ b, t ∈ bqueue (raw_st s) b ∧
         has_bits (mem (raw_st s) (td_key (td (raw_st s) t))) RawMutex.LOCKED_BIT = true.
Proof.
  intros (g & ρ & HI & Hwp)%remutex_verified Hstuck t. pose proof (xi_raw _ _ _ _ HI) as HM.
  assert (Hall : ∀ u, (ps u = Ret tt ∧ without_guards (ρ u)) ∨
    blocked bucket_of u (rawr (ρ u)) (raw_st s)).
  { intros u. destruct (wp_progress _ _ _ _ _ _ s g ρ _ (Hwp u) HI)
      as [([] & ? & ?)|[(? & _ & [[]|[]])|[[c Hs]|?]]]; [by left| |by right].
    rewrite Hstuck in Hs. by destruct Hs. }
  assert (Hdone : ∀ x, without_guards x → ent x = [] ∧ rgs x = [] ∧ raw_has [] 0 (rawr x)).
  { intros ? [(r & e & G & -> & Hr & [He _] & HG) _]. destruct e as [|[a [b n]] e].
    - split; [done|]. split; [by apply Permutation_nil_r in HG|done].
    - destruct (He a b n) as (_ & -> & Hn & _); [by left|]. by apply Nat.lt_irrefl in Hn. }
  destruct (all_blocked _ _ _ _ _ HM) with t as [[_ Hn]|(b & Hq & [[_ ?]|[? _]])]; [|left|right; by exists b|done].
  - intros u. destruct (Hall u) as [[_ H%Hdone]|?]; [left; apply H|by right].
  - destruct (Hall t) as [[E H]|?]; [|done]. split; [done|]. intros a.
    destruct (Hdone _ H) as (He & HG & (_ & _ & Hg & _)). split; [|split].
    + rewrite times_pos, (xi_rgs _ _ _ _ HI), HG. by apply Nat.lt_irrefl.
    + destruct (ρ t) as [r ac e G] eqn:Er. cbn in He, HG. subst e G.
      assert (ac = None) as -> by (destruct H as [(? & ? & ? & [= ? -> ? ?] & _) _]; done).
      rewrite (owner_known id id_nonzero id_inj t s g ρ a r [] [] HI Er). by intros [n ?%elem_of_nil].
    + intros gd [_ Hin]%(mi_live _ _ _ _ _ HM). apply Hg in Hin. by apply elem_of_nil in Hin.
Qed.
End theorems.

(** ** A run: a mutex locked twice, given away by [bump] and by a closure that
    locks it again and panics *)

Section example.
Local Definition me (t : tid) : Z := Z.of_nat t + 1.
Local Definition scripts (t : tid) : list rcmd :=
  match t with
  | 0%nat => [RLock 7; RTryLock 7; RWrite 1 [2%nat] 5; RDrop 0; RBump 0; RUnlocked 0 false [RLock 7; RPanic]; RRead 0 []]
  | _ => []
  end.
Local Definition pool := remutex_pool (λ _, 0%nat) false me scripts.
Local Definition demo (n : nat) : lstate * (tid → lprog unit) :=
  default (start_remutex (λ _, 0), pool)
    (run lexec (repeat (0%nat, 0) n) (start_remutex (λ _, 0)) pool).

Lemma remutex_demo_reachable n :
  bool_decide (is_Some (run lexec (repeat (0%nat, 0) n) (start_remutex (λ _, 0)) pool)) = true →
  reachable lexec (start_remutex (λ _, 0)) pool (demo n).1 (demo n).2.
Proof.
  intros [[s ps] E]%bool_decide_eq_true. eapply run_reachable. unfold demo. by rewrite E.
Qed.

Lemma me_nonzero t : me t ≠ 0.
Proof. unfold me. lia. Qed.
Lemma me_inj t u : me t = me u → t = u.
Proof. unfold me. lia. Qed.

(** The thread writes, with two guards. *)
Lemma remutex_exclusive_witness :
  reentered (demo 56).1 7 = [0%nat; 0%nat] ∧ accesses (demo 56).1 = [(0%nat, (Data 7 [2%nat], true))] ∧
  raced (demo 56).1 = false ∧ owner (demo 56).1 7 = me 0%nat ∧ live (raw_st (demo 56).1) 7 = [(0%nat, GExclusive)].
Proof.
  destruct (remutex_exclusive (λ _, 0%nat) false me me_nonzero me_inj scripts (λ _, 0) (demo 56).1 (demo 56).2)
    as (H1 & _ & H3 & _ & H5); [apply (remutex_demo_reachable 56); vm_compute; reflexivity|].
  split; [vm_compute; reflexivity|]. split; [vm_compute; reflexivity|]. split; [exact H1|].
  split; [apply (H3 7 0%nat)|apply (H5 0%nat 7 [2%nat] true)];
    apply (proj1 (bool_decide_eq_true _)); vm_compute; reflexivity.
Defined.

(** At the end. *)
Lemma remutex_guards_dropped_witness :
  (∀ t c, step1 lexec t c ((demo 243).2 t) (demo 243).1 = None) ∧
  (((demo 243).2 0%nat = Ret tt ∧ ∀ a, 0%nat ∉ reentered (demo 243).1 a ∧ owner (demo 243).1 a ≠ me 0%nat ∧
      ∀ gd, (0%nat, gd) ∉ live (raw_st (demo 243).1) a) ∨
   ∃ b, 0%nat ∈ bqueue (raw_st (demo 243).1) b ∧
     has_bits (mem (raw_st (demo 243).1) (td_key (td (raw_st (demo 243).1) 0%nat))) RawMutex.LOCKED_BIT = true).
Proof.
  assert (Hstuck : ∀ t c, step1 lexec t c ((demo 243).2 t) (demo 243).1 = None).
  { intros [|t] c; vm_compute; reflexivity. }
  split; [exact Hstuck|].
  exact (remutex_guards_dropped (λ _, 0%nat) false me me_nonzero me_inj scripts (λ _, 0) (demo 243).1 (demo 243).2
    (remutex_demo_reachable 243 ltac:(vm_compute; reflexivity)) Hstuck 0%nat).
Defined.
End example.
