(* ===== verification/ProgEquiv.v ===== *)
(** * Equality of programs up to the laws of the monad

    Programs that differ only in how their parts are put together with [Bind]
    keep the same invariants: the weakest precondition does not tell them
    apart.  The equivalence is a congruence, so it can be rewritten with. *)

From Stdlib Require Import Setoid Morphisms.
From S2P Require Import Prelude Conc.

Section equiv.
Context {act : Type} {resp : act → Type}.
Abbreviation prog := (prog act resp).

Inductive peq : ∀ {A}, prog A → prog A → Prop :=
| peq_refl {A} (p : prog A) : peq p p
| peq_sym {A} (p q : prog A) : peq p q → peq q p
| peq_trans {A} (p q r : prog A) : peq p q → peq q r → peq p r
| peq_act {A} (x : act) (k k' : resp x → prog A) : (∀ v, peq (k v) (k' v)) → peq (Act x k) (Act x k')
| peq_bind {A X} (p p' : prog X) (k k' : X → prog A) :
    peq p p' → (∀ x, peq (k x) (k' x)) → peq (Bind p k) (Bind p' k')
| peq_iter {A X} (body body' : X → prog (X + A)) x :
    (∀ x, peq (body x) (body' x)) → peq (Iter body x) (Iter body' x)
| peq_ret_l {A X} (a : X) (k : X → prog A) : peq (Bind (Ret a) k) (k a)
| peq_ret_r {A} (p : prog A) : peq (Bind p Ret) p
| peq_act_bind {A X} (x : act) (k : resp x → prog X) (k' : X → prog A) :
    peq (Bind (Act x k) k') (Act x (λ v, Bind (k v) k'))
| peq_assoc {A X Y} (p : prog X) (k : X → prog Y) (k' : Y → prog A) :
    peq (Bind (Bind p k) k') (Bind p (λ x, Bind (k x) k')).

#[export] Instance peq_equivalence A : Equivalence (@peq A).
Proof. split; [intros p; apply peq_refl|intros p q; apply peq_sym|intros p q r; apply peq_trans]. Qed.

#[export] Instance bind_proper A X :
  Proper (peq ==> pointwise_relation X peq ==> peq) (@Bind act resp A X).
Proof. intros p p' Hp k k' Hk. by apply peq_bind. Qed.

(** The program logic does not tell equivalent programs apart. *)
Context {state : Type} (exec : tid → choice → ∀ a : act, state → option (state * resp a)).
Context {ghost role : Type} (Inv : state → ghost → (tid → role) → Prop).
Context (panic_ok : string → role → Prop) (blocked : tid → role → state → Prop).
Abbreviation wp := (wp exec Inv panic_ok blocked).

#[local] Transparent Conc.wp.
Lemma wp_peq t {A} (p q : prog A) (r : role) (Q : A → role → Prop) : peq p q → wp t p r Q ↔ wp t q r Q.
Proof.
  intros E. revert r Q. induction E as [A p|A p q _ IH|A p q s _ IH1 _ IH2|A x k k' _ IH|A X p p' k k' _ IHp _ IHk
    |A X body body' x _ IH|A X a k|A p|A X x k k'|A X Y p k k']; intros r Q; try reflexivity.
  - by rewrite IH.
  - by rewrite IH1.
  - cbn [Conc.wp]. split; (intros [H1 H2]; split; [done|]); intros s g ρ c s' v Hr HI Hex;
      destruct (H2 s g ρ c s' v Hr HI Hex) as (g' & r' & HI' & Hk); exists g', r'; (split; [done|]); by apply IH.
  - cbn [Conc.wp]. rewrite IHp. split; intros H; (eapply wp_mono; [|exact H]); intros x r' Hx; by apply IHk.
  - cbn [Conc.wp]. split; intros (J & HJ & Hb); exists J; (split; [done|]); intros x' r' Hx; by apply IH, Hb.
Qed.
End equiv.
