(* ===== verification/ArcApi.v ===== *)
(** * lock_api: guards that own an Arc

    A lock can be shared by reference counting; its guards then hold a reference
    themselves, so they can outlive the one they were made from.  The machine
    is that of [LockApi] with the references to each lock: a lock is freed with
    the last one, and the machine records when a lock is used that has been
    freed.  [Arc] itself is of the standard library: the model has the multiset
    of the references, by the thread that has them.

    The methods are those of the guards of [LockApi] and [ReentrantMutex], with
    the reference that is cloned when a guard is made, moved out of the guard by
    [into_arc] or passed on by the conversions, and released when the guard is
    dropped, after its destructor. *)

From S2P Require Import Prelude Conc ParkingLot LockApi ReentrantMutex.
Local Open Scope Z_scope.
Local Open Scope prog_scope.

(** ** The machine *)

Record astate := MkA {
  locks : lstate;
  refs : Z → list tid;  (* the references to each lock *)
  dangling : bool;  (* a lock was used after it had been freed *)
}.

Inductive aact := Low (x : lact) | Clone (a : Z) | Release (a : Z).

Definition aresp (x : aact) : Type := match x with Low x => lresp x | _ => unit end.

(** The lock whose memory an action uses.  The queues of the parking lot are
    found by the key, which they do not dereference. *)
Definition uses_word (x : act) : option Z :=
  match x with
  | ALoad a | AStore a _ | ARmw a _ | ACas _ a _ _ => Some a
  | _ => None
  end.
Definition uses (x : lact) : option Z :=
  match x with
  | LRaw x => uses_word x
  | LBegin l _ | LEnd l _ | LRead l | LWrite l _ => Some (base l).1
  | LOwner a | LSetOwner a _ => Some a
  | LEnter _ | LDrop _ => None
  end.

Definition freed (s : astate) (a : Z) : bool := bool_decide (refs s a = []).
Definition missing (s : astate) (o : option Z) : bool :=
  match o with Some a => freed s a | None => false end.

Definition aexec (t : tid) (c : choice) (x : aact) : astate → option (astate * aresp x) :=
  match x with
  | Low x => λ s,
      match lexec t c x (locks s) with
      | Some (l, v) => Some (MkA l (refs s) (dangling s || missing s (uses x)), v)
      | None => None
      end
  | Clone a => λ s,
      Some (MkA (locks s) (<[a := t :: refs s a]> (refs s)) (dangling s || freed s a), tt)
  | Release a => λ s,
      Some (MkA (locks s) (<[a := remove_first t (refs s a)]> (refs s)) (dangling s || freed s a), tt)
  end.

Abbreviation aprog := (prog aact aresp).

Fixpoint low {A} (p : lprog A) : aprog A :=
  match p with
  | Ret a => Ret a
  | Panic m => Panic m
  | Act x k => Act (Low x) (λ v, low (k v))
  | Bind p k => Bind (low p) (λ x, low (k x))
  | Iter body x => Iter (λ x, low (body x)) x
  end.

(** [Arc::clone], and the destructor of an [Arc]. *)
Definition clone (a : Z) : aprog unit := Act (Clone a) Ret.
Definition release (a : Z) : aprog unit := Act (Release a) Ret.

(** [if self.raw.try_..() { Some(guard) } else { None }] *)
Definition arc_if {G} (p : iprog bool) (make : aprog G) : aprog (option G) :=
  ok <- low (lift p);; if ok : bool then g <- make;; Ret (Some g) else Ret None.

(** ** Mutex (mutex.rs) *)

Module ArcMutexGuard.
Record t := Mk { mutex : Z }.
Section guard.
Context `{!Raw.Mutex, !Raw.MutexFair}.

Definition into_arc (s : t) : aprog Z := low (leave (mutex s) GExclusive (Raw.unlock (mutex s)));; Ret (mutex s).
Definition unlocked {U : Type} (s : t) (f : aprog (outcome U)) : aprog (outcome U) :=
  low (leave (mutex s) GExclusive (Raw.unlock (mutex s)));;
  deferred f (low (lift (Raw.lock (mutex s));; enter (mutex s) GExclusive)).
Definition into_arc_fair (s : t) : aprog Z :=
  low (leave (mutex s) GExclusive (Raw.unlock_fair (mutex s)));; Ret (mutex s).
Definition unlock_fair (s : t) : aprog unit := a <- into_arc_fair s;; release a.
Definition unlocked_fair {U : Type} (s : t) (f : aprog (outcome U)) : aprog (outcome U) :=
  low (leave (mutex s) GExclusive (Raw.unlock_fair (mutex s)));;
  deferred f (low (lift (Raw.lock (mutex s));; enter (mutex s) GExclusive)).
Definition bump (s : t) : aprog unit := low (change (mutex s) GExclusive GExclusive (Raw.bump (mutex s))).
Definition deref (s : t) : loc := Data (mutex s) [].
Definition deref_mut (s : t) : loc := Data (mutex s) [].
(** [drop], and then that of the field. *)
Definition drop (s : t) : aprog unit :=
  low (leave (mutex s) GExclusive (Raw.unlock (mutex s)));; release (mutex s).
End guard.
End ArcMutexGuard.

Module ArcMutex.
Section mutex.
Context `{!Raw.Mutex, !Raw.MutexTimed}.

Definition make_arc_guard_unchecked (a : Z) : aprog ArcMutexGuard.t :=
  clone a;; low (enter a GExclusive);; Ret (ArcMutexGuard.Mk a).
Definition lock_arc (a : Z) : aprog ArcMutexGuard.t := low (lift (Raw.lock a));; make_arc_guard_unchecked a.
Definition try_lock_arc (a : Z) : aprog (option ArcMutexGuard.t) :=
  arc_if (Raw.try_lock a) (make_arc_guard_unchecked a).
Definition try_lock_arc_for (a timeout : Z) : aprog (option ArcMutexGuard.t) :=
  arc_if (Raw.try_lock_for a timeout) (make_arc_guard_unchecked a).
Definition try_lock_arc_until (a timeout : Z) : aprog (option ArcMutexGuard.t) :=
  arc_if (Raw.try_lock_until a timeout) (make_arc_guard_unchecked a).
End mutex.
End ArcMutex.

(** ** RwLock (rwlock.rs) *)

Module ArcRwLockReadGuard.
Record t := Mk { rwlock : Z }.
Section guard.
Context `{!Raw.RwLock, !Raw.RwLockFair}.

Definition into_arc (s : t) : aprog Z := low (leave (rwlock s) GShared (Raw.unlock_shared (rwlock s)));; Ret (rwlock s).
Definition unlocked {U : Type} (s : t) (f : aprog (outcome U)) : aprog (outcome U) :=
  low (leave (rwlock s) GShared (Raw.unlock_shared (rwlock s)));;
  deferred f (low (lift (Raw.lock_shared (rwlock s));; enter (rwlock s) GShared)).
Definition into_arc_fair (s : t) : aprog Z :=
  low (leave (rwlock s) GShared (Raw.unlock_shared_fair (rwlock s)));; Ret (rwlock s).
Definition unlock_fair (s : t) : aprog unit := a <- into_arc_fair s;; release a.
Definition unlocked_fair {U : Type} (s : t) (f : aprog (outcome U)) : aprog (outcome U) :=
  low (leave (rwlock s) GShared (Raw.unlock_shared_fair (rwlock s)));;
  deferred f (low (lift (Raw.lock_shared (rwlock s));; enter (rwlock s) GShared)).
Definition bump (s : t) : aprog unit := low (change (rwlock s) GShared GShared (Raw.bump_shared (rwlock s))).
Definition deref (s : t) : loc := Data (rwlock s) [].
(** [drop], and then that of the field. *)
Definition drop (s : t) : aprog unit :=
  low (leave (rwlock s) GShared (Raw.unlock_shared (rwlock s)));; release (rwlock s).
End guard.
End ArcRwLockReadGuard.

(** [ArcRwLockUpgradableReadGuard]. *)
Record arc_upgradable_guard := MkArcUpgradable { arc_upgradable_lock : Z }.

Module ArcRwLockWriteGuard.
Record t := Mk { rwlock : Z }.
Section guard.
Context `{!Raw.RwLock, !Raw.RwLockFair, !Raw.RwLockDowngrade, !Raw.RwLockUpgradeDowngrade}.

Definition into_arc (s : t) : aprog Z := low (leave (rwlock s) GExclusive (Raw.unlock_exclusive (rwlock s)));; Ret (rwlock s).
Definition unlocked {U : Type} (s : t) (f : aprog (outcome U)) : aprog (outcome U) :=
  low (leave (rwlock s) GExclusive (Raw.unlock_exclusive (rwlock s)));;
  deferred f (low (lift (Raw.lock_exclusive (rwlock s));; enter (rwlock s) GExclusive)).
Definition into_arc_fair (s : t) : aprog Z :=
  low (leave (rwlock s) GExclusive (Raw.unlock_exclusive_fair (rwlock s)));; Ret (rwlock s).
Definition unlock_fair (s : t) : aprog unit := a <- into_arc_fair s;; release a.
Definition unlocked_fair {U : Type} (s : t) (f : aprog (outcome U)) : aprog (outcome U) :=
  low (leave (rwlock s) GExclusive (Raw.unlock_exclusive_fair (rwlock s)));;
  deferred f (low (lift (Raw.lock_exclusive (rwlock s));; enter (rwlock s) GExclusive)).
Definition bump (s : t) : aprog unit := low (change (rwlock s) GExclusive GExclusive (Raw.bump_exclusive (rwlock s))).
Definition deref (s : t) : loc := Data (rwlock s) [].
Definition deref_mut (s : t) : loc := Data (rwlock s) [].
(** [drop], and then that of the field. *)
Definition drop (s : t) : aprog unit :=
  low (leave (rwlock s) GExclusive (Raw.unlock_exclusive (rwlock s)));; release (rwlock s).
Definition downgrade (s : t) : aprog ArcRwLockReadGuard.t :=
  low (change (rwlock s) GExclusive GShared (Raw.downgrade (rwlock s)));;
  Ret (ArcRwLockReadGuard.Mk (rwlock s)).
Definition downgrade_to_upgradable (s : t) : aprog arc_upgradable_guard :=
  low (change (rwlock s) GExclusive GUpgradable (Raw.downgrade_to_upgradable (rwlock s)));;
  Ret (MkArcUpgradable (rwlock s)).
End guard.
End ArcRwLockWriteGuard.

Module ArcRwLockUpgradableReadGuard.
Abbreviation t := arc_upgradable_guard.
Abbreviation rwlock := arc_upgradable_lock.
Section guard.
Context `{!Raw.RwLock, !Raw.RwLockUpgrade, !Raw.RwLockUpgradeFair, !Raw.RwLockUpgradeDowngrade, !Raw.RwLockUpgradeTimed}.

Definition into_arc (s : t) : aprog Z := low (leave (rwlock s) GUpgradable (Raw.unlock_upgradable (rwlock s)));; Ret (rwlock s).
Definition unlocked {U : Type} (s : t) (f : aprog (outcome U)) : aprog (outcome U) :=
  low (leave (rwlock s) GUpgradable (Raw.unlock_upgradable (rwlock s)));;
  deferred f (low (lift (Raw.lock_upgradable (rwlock s));; enter (rwlock s) GUpgradable)).
Definition into_arc_fair (s : t) : aprog Z :=
  low (leave (rwlock s) GUpgradable (Raw.unlock_upgradable_fair (rwlock s)));; Ret (rwlock s).
Definition unlock_fair (s : t) : aprog unit := a <- into_arc_fair s;; release a.
Definition unlocked_fair {U : Type} (s : t) (f : aprog (outcome U)) : aprog (outcome U) :=
  low (leave (rwlock s) GUpgradable (Raw.unlock_upgradable_fair (rwlock s)));;
  deferred f (low (lift (Raw.lock_upgradable (rwlock s));; enter (rwlock s) GUpgradable)).
Definition bump (s : t) : aprog unit := low (change (rwlock s) GUpgradable GUpgradable (Raw.bump_upgradable (rwlock s))).
Definition deref (s : t) : loc := Data (rwlock s) [].
(** [drop], and then that of the field. *)
Definition drop (s : t) : aprog unit :=
  low (leave (rwlock s) GUpgradable (Raw.unlock_upgradable (rwlock s)));; release (rwlock s).
(** [try_upgrade], [try_upgrade_for] and [try_upgrade_until]. *)
Definition try_upgrade_with (p : iprog bool) (s : t) : aprog (ArcRwLockWriteGuard.t + t) :=
  ok <- low (try_change (rwlock s) GUpgradable GExclusive p);;
  Ret (if ok : bool then inl (ArcRwLockWriteGuard.Mk (rwlock s)) else inr s).
Definition upgrade (s : t) : aprog ArcRwLockWriteGuard.t :=
  low (change (rwlock s) GUpgradable GExclusive (Raw.upgrade (rwlock s)));;
  Ret (ArcRwLockWriteGuard.Mk (rwlock s)).
Definition try_upgrade (s : t) : aprog (ArcRwLockWriteGuard.t + t) :=
  try_upgrade_with (Raw.try_upgrade (rwlock s)) s.
Definition try_upgrade_for (s : t) (timeout : Z) : aprog (ArcRwLockWriteGuard.t + t) :=
  try_upgrade_with (Raw.try_upgrade_for (rwlock s) timeout) s.
Definition try_upgrade_until (s : t) (timeout : Z) : aprog (ArcRwLockWriteGuard.t + t) :=
  try_upgrade_with (Raw.try_upgrade_until (rwlock s) timeout) s.
Definition downgrade (s : t) : aprog ArcRwLockReadGuard.t :=
  low (change (rwlock s) GUpgradable GShared (Raw.downgrade_upgradable (rwlock s)));;
  Ret (ArcRwLockReadGuard.Mk (rwlock s)).
(** The lock is downgraded again when [f] is done. *)
Definition restored {R : Type} (s : t) (f : loc → aprog (outcome R)) : aprog (outcome R) :=
  deferred (f (deref s))
    (low (change (rwlock s) GExclusive GUpgradable (Raw.downgrade_to_upgradable (rwlock s)))).
Definition with_upgraded {R : Type} (s : t) (f : loc → aprog (outcome R)) : aprog (outcome R) :=
  low (change (rwlock s) GUpgradable GExclusive (Raw.upgrade (rwlock s)));;
  restored s f.
(** [try_with_upgraded], [try_with_upgraded_for] and [try_with_upgraded_until]. *)
Definition try_with (p : iprog bool) {R : Type} (s : t) (f : loc → aprog (outcome R))
    : aprog (outcome (option R)) :=
  ok <- low (try_change (rwlock s) GUpgradable GExclusive p);;
  if ok : bool then consume (restored s f) (Ret tt) Some else Ret (Done None).
Definition try_with_upgraded {R : Type} (s : t) (f : loc → aprog (outcome R)) :=
  try_with (Raw.try_upgrade (rwlock s)) s f.
Definition try_with_upgraded_for {R : Type} (s : t) (timeout : Z) (f : loc → aprog (outcome R)) :=
  try_with (Raw.try_upgrade_for (rwlock s) timeout) s f.
Definition try_with_upgraded_until {R : Type} (s : t) (timeout : Z) (f : loc → aprog (outcome R)) :=
  try_with (Raw.try_upgrade_until (rwlock s) timeout) s f.
End guard.
End ArcRwLockUpgradableReadGuard.

Module ArcRwLock.
Section rwlock.
Context `{!Raw.RwLock, !Raw.RwLockTimed, !Raw.RwLockRecursive, !Raw.RwLockRecursiveTimed, !Raw.RwLockUpgrade,
  !Raw.RwLockUpgradeTimed}.

Definition make_arc_read_guard_unchecked (a : Z) : aprog ArcRwLockReadGuard.t :=
  clone a;; low (enter a GShared);; Ret (ArcRwLockReadGuard.Mk a).
Definition make_arc_write_guard_unchecked (a : Z) : aprog ArcRwLockWriteGuard.t :=
  clone a;; low (enter a GExclusive);; Ret (ArcRwLockWriteGuard.Mk a).
Definition make_upgradable_arc_guard_unchecked (a : Z) : aprog arc_upgradable_guard :=
  clone a;; low (enter a GUpgradable);; Ret (MkArcUpgradable a).

Definition read_arc (a : Z) : aprog ArcRwLockReadGuard.t := low (lift (Raw.lock_shared a));; make_arc_read_guard_unchecked a.
Definition try_read_arc (a : Z) : aprog (option ArcRwLockReadGuard.t) :=
  arc_if (Raw.try_lock_shared a) (make_arc_read_guard_unchecked a).
Definition write_arc (a : Z) : aprog ArcRwLockWriteGuard.t := low (lift (Raw.lock_exclusive a));; make_arc_write_guard_unchecked a.
Definition try_write_arc (a : Z) : aprog (option ArcRwLockWriteGuard.t) :=
  arc_if (Raw.try_lock_exclusive a) (make_arc_write_guard_unchecked a).
Definition try_read_arc_for (a timeout : Z) : aprog (option ArcRwLockReadGuard.t) :=
  arc_if (Raw.try_lock_shared_for a timeout) (make_arc_read_guard_unchecked a).
Definition try_read_arc_until (a timeout : Z) : aprog (option ArcRwLockReadGuard.t) :=
  arc_if (Raw.try_lock_shared_until a timeout) (make_arc_read_guard_unchecked a).
Definition try_write_arc_for (a timeout : Z) : aprog (option ArcRwLockWriteGuard.t) :=
  arc_if (Raw.try_lock_exclusive_for a timeout) (make_arc_write_guard_unchecked a).
Definition try_write_arc_until (a timeout : Z) : aprog (option ArcRwLockWriteGuard.t) :=
  arc_if (Raw.try_lock_exclusive_until a timeout) (make_arc_write_guard_unchecked a).
Definition read_arc_recursive (a : Z) : aprog ArcRwLockReadGuard.t := low (lift (Raw.lock_shared_recursive a));; make_arc_read_guard_unchecked a.
Definition try_read_recursive_arc (a : Z) : aprog (option ArcRwLockReadGuard.t) :=
  arc_if (Raw.try_lock_shared_recursive a) (make_arc_read_guard_unchecked a).
Definition try_read_arc_recursive_for (a timeout : Z) : aprog (option ArcRwLockReadGuard.t) :=
  arc_if (Raw.try_lock_shared_recursive_for a timeout) (make_arc_read_guard_unchecked a).
Definition try_read_arc_recursive_until (a timeout : Z) : aprog (option ArcRwLockReadGuard.t) :=
  arc_if (Raw.try_lock_shared_recursive_until a timeout) (make_arc_read_guard_unchecked a).
Definition upgradable_read_arc (a : Z) : aprog arc_upgradable_guard := low (lift (Raw.lock_upgradable a));; make_upgradable_arc_guard_unchecked a.
Definition try_upgradable_read_arc (a : Z) : aprog (option arc_upgradable_guard) :=
  arc_if (Raw.try_lock_upgradable a) (make_upgradable_arc_guard_unchecked a).
Definition try_upgradable_read_arc_for (a timeout : Z) : aprog (option arc_upgradable_guard) :=
  arc_if (Raw.try_lock_upgradable_for a timeout) (make_upgradable_arc_guard_unchecked a).
Definition try_upgradable_read_arc_until (a timeout : Z) : aprog (option arc_upgradable_guard) :=
  arc_if (Raw.try_lock_upgradable_until a timeout) (make_upgradable_arc_guard_unchecked a).
End rwlock.
End ArcRwLock.

(** ** ReentrantMutex (remutex.rs) *)

Module ArcReentrantMutexGuard.
Record t := Mk { remutex : Z }.
Section guard.
Context `{!Raw.Mutex, !Raw.MutexFair}.

Definition into_arc (s : t) : aprog Z :=
  low (leave_reentrant (remutex s) (RawReentrantMutex.unlock (remutex s)));; Ret (remutex s).
Definition unlocked {U : Type} (me : Z) (s : t) (f : aprog (outcome U)) : aprog (outcome U) :=
  low (leave_reentrant (remutex s) (RawReentrantMutex.unlock (remutex s)));;
  deferred f (low (ReentrantMutexGuard.relock me (remutex s))).
Definition into_arc_fair (s : t) : aprog Z :=
  low (leave_reentrant (remutex s) (RawReentrantMutex.unlock_fair (remutex s)));; Ret (remutex s).
Definition unlock_fair (s : t) : aprog unit := a <- into_arc_fair s;; release a.
Definition unlocked_fair {U : Type} (me : Z) (s : t) (f : aprog (outcome U)) : aprog (outcome U) :=
  low (leave_reentrant (remutex s) (RawReentrantMutex.unlock_fair (remutex s)));;
  deferred f (low (ReentrantMutexGuard.relock me (remutex s))).
Definition bump (s : t) : aprog unit :=
  low (leave_reentrant (remutex s) (RawReentrantMutex.bump (remutex s));; enter_reentrant (remutex s)).
Definition deref (s : t) : loc := Data (remutex s) [].
(** [drop], and then that of the field. *)
Definition drop (s : t) : aprog unit :=
  low (leave_reentrant (remutex s) (RawReentrantMutex.unlock (remutex s)));; release (remutex s).
End guard.
End ArcReentrantMutexGuard.

Module ArcReentrantMutex.
Section remutex.
Context `{!Raw.Mutex, !Raw.MutexFair, !Raw.MutexTimed}.

Definition make_arc_guard_unchecked (a : Z) : aprog ArcReentrantMutexGuard.t :=
  clone a;; low (enter_reentrant a);; Ret (ArcReentrantMutexGuard.Mk a).
Definition lock_arc (me a : Z) : aprog (outcome ArcReentrantMutexGuard.t) :=
  r <- low (RawReentrantMutex.lock me a);;
  match r with Done _ => g <- make_arc_guard_unchecked a;; Ret (Done g) | Unwind => Ret Unwind end.
(** [try_lock_arc], [try_lock_arc_for] and [try_lock_arc_until]. *)
Definition arc_guard_if (a : Z) (p : lprog (outcome bool)) : aprog (outcome (option ArcReentrantMutexGuard.t)) :=
  r <- low p;;
  match r with
  | Done true => g <- make_arc_guard_unchecked a;; Ret (Done (Some g))
  | Done false => Ret (Done None)
  | Unwind => Ret Unwind
  end.
Definition try_lock_arc (me a : Z) := arc_guard_if a (RawReentrantMutex.try_lock me a).
Definition try_lock_arc_for (me a timeout : Z) := arc_guard_if a (RawReentrantMutex.try_lock_for me a timeout).
Definition try_lock_arc_until (me a timeout : Z) := arc_guard_if a (RawReentrantMutex.try_lock_until me a timeout).
End remutex.
End ArcReentrantMutex.
