(* ===== verification/ArcLogic.v ===== *)
(** * The logic of guards that own an Arc

    Two facts about programs on the machine of [ArcApi].  Without its operations
    on references, a program is one of the machine of [LockApi], with the same
    steps ([erase]): what is proved of the guards that borrow their lock carries
    over.  And a program that only uses locks it has a reference to, and gives up
    only references it has, uses no lock that has been freed, whatever the other
    threads do. *)

From Stdlib Require Import FunctionalExtensionality.
From S2P Require Import Prelude Conc ProgEquiv ParkingLot LockApi ReentrantMutex ArcApi.
Local Open Scope Z_scope.
Local Open Scope prog_scope.

(** ** Without the references *)

Fixpoint erase {A} (p : aprog A) : lprog A :=
  match p with
  | Ret a => Ret a
  | Panic m => Panic m
  | Act x k =>
      match x as x return (aresp x → aprog A) → (∀ v : aresp x, lprog A) → lprog A with
      | Low x => λ _ k', Act x k'
      | Clone a | Release a => λ _ k', k' tt
      end k (λ v, erase (k v))
  | Bind p k => Bind (erase p) (λ x, erase (k x))
  | Iter body x => Iter (λ x, erase (body x)) x
  end.

Lemma erase_low {A} (p : lprog A) : erase (low p) = p.
Proof.
  induction p as [A a|A m|A x k IH|A X p IHp k IHk|A X body IH x]; cbn; try done.
  - f_equal. extensionality v. apply IH.
  - rewrite IHp. f_equal. extensionality x. apply IHk.
  - f_equal. extensionality y. apply IH.
Qed.

(** A step is one of the erased program, or changes references only. *)
Lemma erase_step t c {A} (p p' : aprog A) s s' :
  step1 aexec t c p s = Some (s', p') →
  step1 lexec t c (erase p) (locks s) = Some (locks s', erase p') ∨ locks s' = locks s ∧ erase p' = erase p.
Proof.
  induction p as [A a|A m|A x k IH|A X p IHp k IHk|A X body IH x]; intros Hst; try done.
  - destruct x as [x|a|a]; cbn in Hst.
    + destruct (lexec t c x (locks s)) as [[l v]|] eqn:E; [|done]. injection Hst as <- <-. left. cbn. by rewrite E.
    + injection Hst as <- <-. by right.
    + injection Hst as <- <-. by right.
  - apply step1_bind in Hst as [(a & -> & -> & ->)|[(m & -> & -> & ->)|(q & Hst & ->)]]; [by left..|].
    destruct (IHp q Hst) as [E|[E1 E2]]; [left|right; split; [done|]; cbn [erase]; by rewrite E2].
    cbn [erase step1]. by destruct (erase p); rewrite ?E.
  - cbn in Hst. injection Hst as <- <-. left. cbn. do 3 f_equal. extensionality r. by destruct r.
Qed.

Lemma erase_reachable s ps s' ps' :
  reachable aexec s ps s' ps' →
  reachable lexec (locks s) (λ t, erase (ps t)) (locks s') (λ t, erase (ps' t)).
Proof.
  unfold reachable. intros H. remember (s, ps) as x. remember (s', ps') as y. revert s ps Heqx.
  induction H as [|x [s1 ps1] z Hst _ IH]; intros s ps ->; simplify_eq; [apply rtc_refl|].
  specialize (IH eq_refl s1 ps1 eq_refl). inversion Hst as [t c ? ? p' ? E]; subst.
  assert (Hu : (λ u, erase ((<[t := p']> ps : tid → aprog unit) u)) = <[t := erase p']> (λ u, erase (ps u))).
  { extensionality u. by fn_cases t u. }
  rewrite Hu in IH. destruct (erase_step _ _ _ _ _ _ E) as [E1|[E1 E2]].
  - eapply rtc_l; [|exact IH]. by apply (cstep_thread _ t c).
  - rewrite E1, E2 in IH. replace (<[t := _]> _) with (λ u, erase (ps u)) in IH; [exact IH|].
    extensionality u. by fn_cases t u.
Qed.

(** ** With the references *)

(** All locks that a program uses are in [P]. *)
Fixpoint within (P : Z → Prop) {A} (p : lprog A) : Prop :=
  match p with
  | Ret _ | Panic _ => True
  | Act x k => (∀ a, uses x = Some a → P a) ∧ ∀ v, within P (k v)
  | Bind p k => within P p ∧ ∀ x, within P (k x)
  | Iter body x => ∀ x, within P (body x)
  end.

Lemma within_mono (P P' : Z → Prop) {A} (p : lprog A) : (∀ a, P a → P' a) → within P p → within P' p.
Proof.
  intros H. induction p as [A a|A m|A x k IH|A X p IHp k IHk|A X body IH x]; cbn; try done.
  - intros [H1 H2]. split; auto.
  - intros [H1 H2]. split; auto.
  - auto.
Qed.

(** Nothing freed has been used, and the references are those of the threads. *)
Record RInv (s : astate) (g : unit) (ρ : tid → list Z) : Prop := {
  ri_dangling : dangling s = false;
  ri_refs a t : times t (refs s a) = times a (ρ t);
}.

Abbreviation rwp := (wp aexec RInv (λ (_ : string) (_ : list Z), True) (λ (_ : tid) (_ : list Z) (_ : astate), True)).

Implicit Types (hs : list Z) (a : Z) (t : tid).

Lemma not_freed s g ρ a t : RInv s g ρ → a ∈ ρ t → freed s a = false.
Proof.
  intros HI Ha%times_pos. rewrite <- (ri_refs _ _ _ HI), <- times_pos in Ha.
  apply bool_decide_eq_false. intros E. rewrite E in Ha. by apply elem_of_nil in Ha.
Qed.

Lemma role_same (ρ : tid → list Z) t : <[t := ρ t]> ρ = ρ.
Proof. extensionality u. by fn_cases t u. Qed.

#[local] Transparent wp.
Lemma rwp_low t {A} (p : lprog A) hs (Q : A → list Z → Prop) :
  within (λ a, a ∈ hs) p → (∀ v, Q v hs) → rwp t (low p) hs Q.
Proof.
  revert Q. induction p as [A a|A m|A x k IH|A X p IHp k IHk|A X body IH x]; intros Q Hp HQ; cbn in *; try done.
  - destruct Hp as [Hu Hk]. split; [by right|]. intros s g ρ c s' v Hr HI Hex.
    destruct (lexec t c x (locks s)) as [[l w]|] eqn:E; [|done]. injection Hex as <- <-.
    exists tt, hs. split; [|by apply IH]. rewrite <- Hr, role_same. split; cbn; [|apply HI].
    rewrite (ri_dangling _ _ _ HI). cbn. destruct (uses x) as [a|] eqn:Ex; [|done]. cbn.
    eapply not_freed; [exact HI|]. rewrite Hr. by apply Hu.
  - destruct Hp as [Hp Hk]. apply IHp; [done|]. intros x. by apply IHk.
  - exists (λ _ hs', hs' = hs). split; [done|]. intros y ? ->. apply IH; [done|]. by intros [].
Qed.
#[local] Opaque wp.

Lemma rwp_clone t a hs (Q : unit → list Z → Prop) : a ∈ hs → Q tt (a :: hs) → rwp t (clone a) hs Q.
Proof.
  intros Ha HQ. apply wp_act; [by right|]. intros s g ρ c s' v Hr HI Hex. cbn in Hex. injection Hex as <- <-.
  exists tt, (a :: hs). split; [|by apply wp_ret]. split; cbn.
  - rewrite (ri_dangling _ _ _ HI). cbn. eapply not_freed; [exact HI|]. by rewrite Hr.
  - intros a' u. pose proof (ri_refs _ _ _ HI a' u) as E. fn_cases a a'; fn_cases t u; rewrite ?times_cons, ?E, ?Hr;
      repeat case_decide; congruence.
Qed.

Lemma rwp_release t a hs (Q : unit → list Z → Prop) : a ∈ hs → Q tt (remove_first a hs) → rwp t (release a) hs Q.
Proof.
  intros Ha HQ. apply wp_act; [by right|]. intros s g ρ c s' v Hr HI Hex. cbn in Hex. injection Hex as <- <-.
  exists tt, (remove_first a hs). split; [|by apply wp_ret]. split; cbn.
  - rewrite (ri_dangling _ _ _ HI). cbn. eapply not_freed; [exact HI|]. by rewrite Hr.
  - intros a' u. pose proof (ri_refs _ _ _ HI a' u) as E.
    fn_cases a a'; fn_cases t u; rewrite ?times_remove_first, ?E, ?Hr; repeat case_decide; congruence.
Qed.

(** The calls on a lock that the thread has a reference to. *)
Definition only (a : Z) {A} (p : iprog A) : Prop := within (λ b, b = a) (lift p).

Section calls.
Context {P : Z → Prop} (a : Z) (Ha : P a).

Lemma within_lift {A} (p : iprog A) : only a p → within P (lift p).
Proof. intros H. eapply within_mono; [|exact H]. by intros ? ->. Qed.
Lemma within_enter gd : within P (enter a gd).
Proof. by split. Qed.
Lemma within_leave {A} gd (p : iprog A) : only a p → within P (leave a gd p).
Proof. intros H. split; [done|]. intros _. by apply within_lift. Qed.
Lemma within_change gd gd' p : only a p → within P (change a gd gd' p).
Proof. intros H. split; [by apply within_leave|]. intros _. apply within_enter. Qed.
Lemma within_try_change gd gd' p : only a p → within P (try_change a gd gd' p).
Proof. intros H. split; [by apply within_leave|]. intros b. split; [apply within_enter|]. by intros ?. Qed.
Lemma within_access {A} l w (p : lprog A) : P (base l).1 → within P p → within P (access l w p).
Proof. intros Hl Hp. cbn. by repeat split; try (intros ? [= <-]). Qed.
Lemma within_read l : P (base l).1 → within P (read_at l).
Proof. intros Hl. apply within_access; [done|]. by split; [intros ? [= <-]|]. Qed.
Lemma within_write l v : P (base l).1 → within P (write_at l v).
Proof. intros Hl. apply within_access; [done|]. by split; [intros ? [= <-]|]. Qed.

(** The reentrant mutex. *)
Lemma within_get : within P (RawReentrantMutex.get_count a).
Proof. by apply within_read. Qed.
Lemma within_set v : within P (RawReentrantMutex.set_count a v).
Proof. by apply within_write. Qed.
Lemma within_load_owner : within P (RawReentrantMutex.load_owner a).
Proof. by split; [intros ? [= <-]|]. Qed.
Lemma within_store_owner v : within P (RawReentrantMutex.store_owner a v).
Proof. by split; [intros ? [= <-]|]. Qed.
Lemma within_lock_internal me (p : iprog bool) : only a p → within P (RawReentrantMutex.lock_internal me a p).
Proof.
  intros Hp. split; [apply within_load_owner|]. intros o. destruct (o =? me).
  - split; [apply within_get|]. intros n. destruct (checked_add usize_bits n 1); [|done].
    by split; [apply within_set|].
  - split; [by apply within_lift|]. intros b. destruct (negb b); [done|]. split; [apply within_enter|]. intros _.
    split; [apply within_store_owner|]. intros _. split; [apply within_get|]. intros n.
    destruct (negb (n =? 0)); [done|]. by split; [apply within_set|].
Qed.
Lemma within_leave_reentrant {A} (p : lprog A) : within P p → within P (leave_reentrant a p).
Proof. by split. Qed.
Lemma within_enter_reentrant : within P (enter_reentrant a).
Proof. by split. Qed.
End calls.

(** A raw lock uses its own memory only. *)
Create HintDb arc.

Class MutexWithin {RM : Raw.Mutex} {RF : Raw.MutexFair} {RT : Raw.MutexTimed} := {
  lock_within a : only a (Raw.lock a);
  try_lock_within a : only a (Raw.try_lock a);
  try_lock_for_within a d : only a (Raw.try_lock_for a d);
  try_lock_until_within a d : only a (Raw.try_lock_until a d);
  unlock_within a : only a (Raw.unlock a);
  unlock_fair_within a : only a (Raw.unlock_fair a);
  bump_within a : only a (Raw.bump a);
}.

Class RwLockWithin {R1 : Raw.RwLock} {R2 : Raw.RwLockFair} {R3 : Raw.RwLockDowngrade} {R4 : Raw.RwLockTimed}
    {R5 : Raw.RwLockRecursive} {R6 : Raw.RwLockRecursiveTimed} {R7 : Raw.RwLockUpgrade} {R8 : Raw.RwLockUpgradeFair}
    {R9 : Raw.RwLockUpgradeDowngrade} {R10 : Raw.RwLockUpgradeTimed} := {
  lock_shared_within a : only a (Raw.lock_shared a);
  try_lock_shared_within a : only a (Raw.try_lock_shared a);
  try_lock_shared_for_within a d : only a (Raw.try_lock_shared_for a d);
  try_lock_shared_until_within a d : only a (Raw.try_lock_shared_until a d);
  lock_shared_recursive_within a : only a (Raw.lock_shared_recursive a);
  try_lock_shared_recursive_within a : only a (Raw.try_lock_shared_recursive a);
  try_lock_shared_recursive_for_within a d : only a (Raw.try_lock_shared_recursive_for a d);
  try_lock_shared_recursive_until_within a d : only a (Raw.try_lock_shared_recursive_until a d);
  unlock_shared_within a : only a (Raw.unlock_shared a);
  unlock_shared_fair_within a : only a (Raw.unlock_shared_fair a);
  bump_shared_within a : only a (Raw.bump_shared a);
  lock_exclusive_within a : only a (Raw.lock_exclusive a);
  try_lock_exclusive_within a : only a (Raw.try_lock_exclusive a);
  try_lock_exclusive_for_within a d : only a (Raw.try_lock_exclusive_for a d);
  try_lock_exclusive_until_within a d : only a (Raw.try_lock_exclusive_until a d);
  unlock_exclusive_within a : only a (Raw.unlock_exclusive a);
  unlock_exclusive_fair_within a : only a (Raw.unlock_exclusive_fair a);
  bump_exclusive_within a : only a (Raw.bump_exclusive a);
  downgrade_within a : only a (Raw.downgrade a);
  lock_upgradable_within a : only a (Raw.lock_upgradable a);
  try_lock_upgradable_within a : only a (Raw.try_lock_upgradable a);
  try_lock_upgradable_for_within a d : only a (Raw.try_lock_upgradable_for a d);
  try_lock_upgradable_until_within a d : only a (Raw.try_lock_upgradable_until a d);
  unlock_upgradable_within a : only a (Raw.unlock_upgradable a);
  unlock_upgradable_fair_within a : only a (Raw.unlock_upgradable_fair a);
  bump_upgradable_within a : only a (Raw.bump_upgradable a);
  upgrade_within a : only a (Raw.upgrade a);
  try_upgrade_within a : only a (Raw.try_upgrade a);
  try_upgrade_for_within a d : only a (Raw.try_upgrade_for a d);
  try_upgrade_until_within a d : only a (Raw.try_upgrade_until a d);
  downgrade_upgradable_within a : only a (Raw.downgrade_upgradable a);
  downgrade_to_upgradable_within a : only a (Raw.downgrade_to_upgradable a);
}.

Section remutex.
Context {RM : Raw.Mutex} {RF : Raw.MutexFair} {RT : Raw.MutexTimed} {MW : MutexWithin}.
Context {P : Z → Prop} (a : Z) (Ha : P a) (me : Z).

Lemma within_relock_raw : within P (RawReentrantMutex.lock me a).
Proof.
  apply within_lock_internal; [done|]. split; [apply lock_within|]. by intros _.
Qed.
Lemma within_remutex_try : within P (RawReentrantMutex.try_lock me a).
Proof. apply within_lock_internal; [done|apply try_lock_within]. Qed.
Lemma within_remutex_try_for d : within P (RawReentrantMutex.try_lock_for me a d).
Proof. apply within_lock_internal; [done|apply try_lock_for_within]. Qed.
Lemma within_remutex_try_until d : within P (RawReentrantMutex.try_lock_until me a d).
Proof. apply within_lock_internal; [done|apply try_lock_until_within]. Qed.
Lemma within_unlock_with (p : iprog unit) : only a p → within P (RawReentrantMutex.unlock_with a p).
Proof.
  intros Hp. split; [by apply within_get|]. intros n. split; [by apply within_set|]. intros _.
  destruct (_ =? 0); [|done]. split; [by apply within_store_owner|]. intros _. by apply within_leave.
Qed.
Lemma within_remutex_unlock : within P (RawReentrantMutex.unlock a).
Proof. apply within_unlock_with, unlock_within. Qed.
Lemma within_remutex_unlock_fair : within P (RawReentrantMutex.unlock_fair a).
Proof. apply within_unlock_with, unlock_fair_within. Qed.
Lemma within_remutex_bump : within P (RawReentrantMutex.bump a).
Proof.
  split; [by apply within_get|]. intros n. destruct (n =? 1); [|done].
  split; [by apply within_load_owner|]. intros o. split; [by apply within_store_owner|]. intros _.
  split; [by apply within_set|]. intros _. split; [apply within_change; [done|apply bump_within]|]. intros _.
  split; [by apply within_store_owner|]. intros _. by apply within_set.
Qed.
Lemma within_relock : within P (ReentrantMutexGuard.relock me a).
Proof. split; [apply within_relock_raw|]. intros []; [apply within_enter_reentrant|done]. Qed.
End remutex.

(** The tactic for programs of a raw lock, by their structure. *)
Lemma within_prepare P ws tok : within P (lift (prepare_unpark ws tok)).
Proof. induction ws as [|w ws IH]; [done|]. by repeat split. Qed.
Lemma within_wake P ws : within P (lift (wake_handles ws)).
Proof. induction ws as [|w ws IH]; [done|]. by split. Qed.

Ltac within_program :=
  repeat match goal with
    | |- True => exact I
    | |- _ ∧ _ => split
    | |- ∀ _, _ => intros ?
    | H : uses _ = Some _ |- _ => cbn in H; first [discriminate H|injection H as <-]
    | |- _ = _ => reflexivity
    | |- within _ (lift (prepare_unpark _ _)) => apply within_prepare
    | |- within _ (lift (wake_handles _)) => apply within_wake
    | |- within _ (match ?x with _ => _ end) => destruct x
    | |- within _ (lift (match ?x with _ => _ end)) => destruct x
    | |- within _ (lift ?p) => let q := eval hnf in p in progress change p with q
    | |- within _ _ => progress cbn [within lift]
    end.

#[export] Hint Resolve within_leave_reentrant within_enter_reentrant within_relock_raw within_remutex_try
  within_remutex_try_for within_remutex_try_until within_remutex_unlock within_remutex_unlock_fair
  within_remutex_bump within_relock : arc.
#[export] Hint Resolve within_lift within_enter within_leave within_change within_try_change : arc.
#[export] Hint Resolve lock_within try_lock_within try_lock_for_within try_lock_until_within unlock_within
  unlock_fair_within bump_within : arc.
#[export] Hint Resolve lock_shared_within try_lock_shared_within try_lock_shared_for_within
  try_lock_shared_until_within lock_shared_recursive_within try_lock_shared_recursive_within
  try_lock_shared_recursive_for_within try_lock_shared_recursive_until_within unlock_shared_within
  unlock_shared_fair_within bump_shared_within lock_exclusive_within try_lock_exclusive_within
  try_lock_exclusive_for_within try_lock_exclusive_until_within unlock_exclusive_within
  unlock_exclusive_fair_within bump_exclusive_within downgrade_within lock_upgradable_within
  try_lock_upgradable_within try_lock_upgradable_for_within try_lock_upgradable_until_within
  unlock_upgradable_within unlock_upgradable_fair_within bump_upgradable_within upgrade_within
  try_upgrade_within try_upgrade_for_within try_upgrade_until_within downgrade_upgradable_within
  downgrade_to_upgradable_within : arc.
