(* ===== verification/ArcGuards.v ===== *)
(** * Locks in an Arc are not used after they have been freed

    Programs of any number of threads that share locks of all three types by
    reference counting: they clone and drop references, lock through them, turn
    guards into references, upgrade and downgrade, run closures unlocked or with
    upgraded guards, and panic, also in closures.  No lock is used after the last
    reference to it was dropped, and when a thread is done it has given up all
    its references: each lock is freed, once. *)

From S2P Require Import Prelude Conc LotTypes ParkingLot LotInv LockApi LockApiLogic ReentrantMutex RawMutex RawMutexProof RawRwLock MutexGuards RwLockGuards ArcApi ArcLogic.
Local Open Scope Z_scope.
Local Open Scope prog_scope.

(** ** Programs *)

(** References and the guards that own one. *)
Inductive aval :=
| VArc (a : Z) | VMutex (g : ArcMutexGuard.t) | VRead (g : ArcRwLockReadGuard.t) | VWrite (g : ArcRwLockWriteGuard.t)
| VUpgradable (g : arc_upgradable_guard) | VReentrant (g : ArcReentrantMutexGuard.t).

(** The lock; [mutex], [rwlock] and [remutex] of the guards. *)
Definition aref (v : aval) : Z :=
  match v with
  | VArc a => a
  | VMutex g => ArcMutexGuard.mutex g
  | VRead g => ArcRwLockReadGuard.rwlock g
  | VWrite g => ArcRwLockWriteGuard.rwlock g
  | VUpgradable g => arc_upgradable_lock g
  | VReentrant g => ArcReentrantMutexGuard.remutex g
  end.

(** Ways to lock: without a timeout, and with one that is relative or not. *)
Inductive waits := Blocks | Tries | For (d : Z) | Until (d : Z).
Inductive locking := LMutex | LRead | LReadRecursive | LWrite | LUpgradable | LReentrant.
Inductive conversion := ToRead | ToUpgradable | ToWrite (w : waits).

Inductive acmd :=
| XClone (i : nat) | XDrop (i : nat) | XLock (i : nat) (l : locking) (w : waits)
| XIntoArc (i : nat) (fair : bool) | XUnlockFair (i : nat) | XBump (i : nat)
| XUnlocked (i : nat) (fair : bool) (body : list acmd)
| XConvert (i : nat) (c : conversion) | XWithUpgraded (i : nat) (w : waits) (x : Z) (panics : bool)
| XRead (i : nat) | XWrite (i : nat) (x : Z) | XPanic.

Section clients.
Context {RM : Raw.Mutex} {RF : Raw.MutexFair} {RT : Raw.MutexTimed}.
Context {R1 : Raw.RwLock} {R2 : Raw.RwLockFair} {R3 : Raw.RwLockDowngrade} {R4 : Raw.RwLockTimed}
    {R5 : Raw.RwLockRecursive} {R6 : Raw.RwLockRecursiveTimed} {R7 : Raw.RwLockUpgrade} {R8 : Raw.RwLockUpgradeFair}
    {R9 : Raw.RwLockUpgradeDowngrade} {R10 : Raw.RwLockUpgradeTimed}.
Context (me : Z).

Abbreviation result := (bool * list aval)%type.

Definition adrop (v : aval) : aprog unit :=
  match v with
  | VArc a => release a
  | VMutex g => ArcMutexGuard.drop g
  | VRead g => ArcRwLockReadGuard.drop g
  | VWrite g => ArcRwLockWriteGuard.drop g
  | VUpgradable g => ArcRwLockUpgradableReadGuard.drop g
  | VReentrant g => ArcReentrantMutexGuard.drop g
  end.

Fixpoint adrop_all (own : list aval) : aprog unit :=
  match own with [] => Ret tt | v :: own => adrop v;; adrop_all own end.

Definition got {G} (f : G → aval) (p : aprog G) : aprog (outcome (option aval)) :=
  g <- p;; Ret (Done (Some (f g))).
Definition tried {G} (f : G → aval) (p : aprog (option G)) : aprog (outcome (option aval)) :=
  o <- p;; Ret (Done (option_map f o)).
Definition got_reentrant (p : aprog (outcome ArcReentrantMutexGuard.t)) : aprog (outcome (option aval)) :=
  r <- p;; Ret (match r with Done g => Done (Some (VReentrant g)) | Unwind => Unwind end).
Definition tried_reentrant (p : aprog (outcome (option ArcReentrantMutexGuard.t))) : aprog (outcome (option aval)) :=
  r <- p;; Ret (match r with Done o => Done (option_map VReentrant o) | Unwind => Unwind end).

Definition lock_through (l : locking) (w : waits) (a : Z) : aprog (outcome (option aval)) :=
  match l, w with
  | LMutex, Blocks => got VMutex (ArcMutex.lock_arc a)
  | LMutex, Tries => tried VMutex (ArcMutex.try_lock_arc a)
  | LMutex, For d => tried VMutex (ArcMutex.try_lock_arc_for a d)
  | LMutex, Until d => tried VMutex (ArcMutex.try_lock_arc_until a d)
  | LRead, Blocks => got VRead (ArcRwLock.read_arc a)
  | LRead, Tries => tried VRead (ArcRwLock.try_read_arc a)
  | LRead, For d => tried VRead (ArcRwLock.try_read_arc_for a d)
  | LRead, Until d => tried VRead (ArcRwLock.try_read_arc_until a d)
  | LReadRecursive, Blocks => got VRead (ArcRwLock.read_arc_recursive a)
  | LReadRecursive, Tries => tried VRead (ArcRwLock.try_read_recursive_arc a)
  | LReadRecursive, For d => tried VRead (ArcRwLock.try_read_arc_recursive_for a d)
  | LReadRecursive, Until d => tried VRead (ArcRwLock.try_read_arc_recursive_until a d)
  | LWrite, Blocks => got VWrite (ArcRwLock.write_arc a)
  | LWrite, Tries => tried VWrite (ArcRwLock.try_write_arc a)
  | LWrite, For d => tried VWrite (ArcRwLock.try_write_arc_for a d)
  | LWrite, Until d => tried VWrite (ArcRwLock.try_write_arc_until a d)
  | LUpgradable, Blocks => got VUpgradable (ArcRwLock.upgradable_read_arc a)
  | LUpgradable, Tries => tried VUpgradable (ArcRwLock.try_upgradable_read_arc a)
  | LUpgradable, For d => tried VUpgradable (ArcRwLock.try_upgradable_read_arc_for a d)
  | LUpgradable, Until d => tried VUpgradable (ArcRwLock.try_upgradable_read_arc_until a d)
  | LReentrant, Blocks => got_reentrant (ArcReentrantMutex.lock_arc me a)
  | LReentrant, Tries => tried_reentrant (ArcReentrantMutex.try_lock_arc me a)
  | LReentrant, For d => tried_reentrant (ArcReentrantMutex.try_lock_arc_for me a d)
  | LReentrant, Until d => tried_reentrant (ArcReentrantMutex.try_lock_arc_until me a d)
  end.

Definition into_arc (fair : bool) (v : aval) : aprog Z :=
  match v with
  | VArc a => Ret a
  | VMutex g => if fair then ArcMutexGuard.into_arc_fair g else ArcMutexGuard.into_arc g
  | VRead g => if fair then ArcRwLockReadGuard.into_arc_fair g else ArcRwLockReadGuard.into_arc g
  | VWrite g => if fair then ArcRwLockWriteGuard.into_arc_fair g else ArcRwLockWriteGuard.into_arc g
  | VUpgradable g =>
      if fair then ArcRwLockUpgradableReadGuard.into_arc_fair g else ArcRwLockUpgradableReadGuard.into_arc g
  | VReentrant g => if fair then ArcReentrantMutexGuard.into_arc_fair g else ArcReentrantMutexGuard.into_arc g
  end.

Definition aunlock_fair (v : aval) : aprog unit :=
  match v with
  | VArc a => release a
  | VMutex g => ArcMutexGuard.unlock_fair g
  | VRead g => ArcRwLockReadGuard.unlock_fair g
  | VWrite g => ArcRwLockWriteGuard.unlock_fair g
  | VUpgradable g => ArcRwLockUpgradableReadGuard.unlock_fair g
  | VReentrant g => ArcReentrantMutexGuard.unlock_fair g
  end.

Definition abump (v : aval) : aprog unit :=
  match v with
  | VArc a => Ret tt
  | VMutex g => ArcMutexGuard.bump g
  | VRead g => ArcRwLockReadGuard.bump g
  | VWrite g => ArcRwLockWriteGuard.bump g
  | VUpgradable g => ArcRwLockUpgradableReadGuard.bump g
  | VReentrant g => ArcReentrantMutexGuard.bump g
  end.

Definition aunlocked (fair : bool) (v : aval) (f : aprog (outcome unit)) : aprog (outcome unit) :=
  match v with
  | VArc a => Ret (Done tt)
  | VMutex g => if fair then ArcMutexGuard.unlocked_fair g f else ArcMutexGuard.unlocked g f
  | VRead g => if fair then ArcRwLockReadGuard.unlocked_fair g f else ArcRwLockReadGuard.unlocked g f
  | VWrite g => if fair then ArcRwLockWriteGuard.unlocked_fair g f else ArcRwLockWriteGuard.unlocked g f
  | VUpgradable g =>
      if fair then ArcRwLockUpgradableReadGuard.unlocked_fair g f else ArcRwLockUpgradableReadGuard.unlocked g f
  | VReentrant g => if fair then ArcReentrantMutexGuard.unlocked_fair me g f else ArcReentrantMutexGuard.unlocked me g f
  end.

Definition upgraded (r : ArcRwLockWriteGuard.t + arc_upgradable_guard) : aval :=
  match r with inl g => VWrite g | inr g => VUpgradable g end.

Definition aconvert (c : conversion) (v : aval) : aprog aval :=
  match v, c with
  | VWrite g, ToRead => g <- ArcRwLockWriteGuard.downgrade g;; Ret (VRead g)
  | VWrite g, ToUpgradable => g <- ArcRwLockWriteGuard.downgrade_to_upgradable g;; Ret (VUpgradable g)
  | VUpgradable g, ToRead => g <- ArcRwLockUpgradableReadGuard.downgrade g;; Ret (VRead g)
  | VUpgradable g, ToWrite Blocks => g <- ArcRwLockUpgradableReadGuard.upgrade g;; Ret (VWrite g)
  | VUpgradable g, ToWrite Tries => r <- ArcRwLockUpgradableReadGuard.try_upgrade g;; Ret (upgraded r)
  | VUpgradable g, ToWrite (For d) => r <- ArcRwLockUpgradableReadGuard.try_upgrade_for g d;; Ret (upgraded r)
  | VUpgradable g, ToWrite (Until d) => r <- ArcRwLockUpgradableReadGuard.try_upgrade_until g d;; Ret (upgraded r)
  | _, _ => Ret v
  end.

(** The closure writes, and panics or not. *)
Definition awriter (x : Z) (panics : bool) (l : loc) : aprog (outcome unit) :=
  low (write_at l x);; Ret (if panics then Unwind else Done tt).

Definition discard {R} (p : aprog (outcome R)) : aprog bool :=
  r <- p;; Ret (match r with Done _ => false | Unwind => true end).

Definition awith_upgraded (w : waits) (v : aval) (x : Z) (p : bool) : aprog bool :=
  match v, w with
  | VUpgradable g, Blocks => discard (ArcRwLockUpgradableReadGuard.with_upgraded g (awriter x p))
  | VUpgradable g, Tries => discard (ArcRwLockUpgradableReadGuard.try_with_upgraded g (awriter x p))
  | VUpgradable g, For d => discard (ArcRwLockUpgradableReadGuard.try_with_upgraded_for g d (awriter x p))
  | VUpgradable g, Until d => discard (ArcRwLockUpgradableReadGuard.try_with_upgraded_until g d (awriter x p))
  | _, _ => Ret false
  end.

Definition aderef (v : aval) : option loc :=
  match v with
  | VArc _ => None
  | VMutex g => Some (ArcMutexGuard.deref g)
  | VRead g => Some (ArcRwLockReadGuard.deref g)
  | VWrite g => Some (ArcRwLockWriteGuard.deref g)
  | VUpgradable g => Some (ArcRwLockUpgradableReadGuard.deref g)
  | VReentrant g => Some (ArcReentrantMutexGuard.deref g)
  end.
Definition aderef_mut (v : aval) : option loc :=
  match v with
  | VMutex g => Some (ArcMutexGuard.deref_mut g)
  | VWrite g => Some (ArcRwLockWriteGuard.deref_mut g)
  | VReentrant g => Some (ArcReentrantMutexGuard.deref g)
  | _ => None
  end.

Section run.
Context (run_cmd : acmd → list aval → list aval → aprog result).
Fixpoint arun_with (cs : list acmd) (outer own : list aval) {struct cs} : aprog result :=
  match cs with
  | [] => Ret (false, own)
  | c :: cs =>
      r <- run_cmd c outer own;;
      if r.1 : bool then Ret r else arun_with cs outer r.2
  end.
End run.

Definition aclosure (p : aprog result) : aprog (outcome unit) :=
  r <- p;; adrop_all r.2;; Ret (if r.1 : bool then Unwind else Done tt).

Definition with_own (own : list aval) (i : nat) (f : aval → aprog result) : aprog result :=
  match own !! i with Some v => f v | None => Ret (false, own) end.

Fixpoint run_acmd (c : acmd) (outer own : list aval) {struct c} : aprog result :=
  match c with
  | XClone i =>
      match (own ++ outer) !! i with
      | Some v => clone (aref v);; Ret (false, VArc (aref v) :: own)
      | None => Ret (false, own)
      end
  | XLock i l w =>
      match (own ++ outer) !! i with
      | Some v =>
          r <- lock_through l w (aref v);;
          Ret (match r with
               | Done (Some g) => (false, g :: own)
               | Done None => (false, own)
               | Unwind => (true, own)
               end)
      | None => Ret (false, own)
      end
  | XDrop i => with_own own i (λ v, adrop v;; Ret (false, delete i own))
  | XIntoArc i fair => with_own own i (λ v, a <- into_arc fair v;; Ret (false, <[i := VArc a]> own))
  | XUnlockFair i => with_own own i (λ v, aunlock_fair v;; Ret (false, delete i own))
  | XBump i => with_own own i (λ v, abump v;; Ret (false, own))
  | XUnlocked i fair body =>
      with_own own i (λ v,
        r <- aunlocked fair v (aclosure (arun_with run_acmd body (delete i own ++ outer) []));;
        Ret (match r with Done _ => false | Unwind => true end, own))
  | XConvert i c => with_own own i (λ v, v' <- aconvert c v;; Ret (false, <[i := v']> own))
  | XWithUpgraded i w x p => with_own own i (λ v, b <- awith_upgraded w v x p;; Ret (b, own))
  | XRead i =>
      match (own ++ outer) !! i ≫= aderef with
      | Some l => low (read_at l);; Ret (false, own)
      | None => Ret (false, own)
      end
  | XWrite i x =>
      match (own ++ outer) !! i ≫= aderef_mut with
      | Some l => low (write_at l x);; Ret (false, own)
      | None => Ret (false, own)
      end
  | XPanic => Ret (true, own)
  end.

(** A thread has references at first; at its end, or when it has panicked, what
    it owns is dropped. *)
Definition athread (cs : list acmd) (given : list Z) : aprog unit :=
  r <- arun_with run_acmd cs [] (VArc <$> given);; adrop_all r.2.
End clients.

Lemma acmd_nested (P : acmd → Prop) :
  (∀ c, (∀ i fair body, c ≠ XUnlocked i fair body) → P c) →
  (∀ i fair body, Forall P body → P (XUnlocked i fair body)) → ∀ c, P c.
Proof.
  intros H1 H2. fix IH 1. intros []; try (apply H1; congruence).
  apply H2. induction body as [|c body IHb]; constructor; [apply IH|exact IHb].
Qed.

(** ** What the operations do with references *)

Section verify.
Context {RM : Raw.Mutex} {RF : Raw.MutexFair} {RT : Raw.MutexTimed} {MW : MutexWithin}.
Context {R1 : Raw.RwLock} {R2 : Raw.RwLockFair} {R3 : Raw.RwLockDowngrade} {R4 : Raw.RwLockTimed}
    {R5 : Raw.RwLockRecursive} {R6 : Raw.RwLockRecursiveTimed} {R7 : Raw.RwLockUpgrade} {R8 : Raw.RwLockUpgradeFair}
    {R9 : Raw.RwLockUpgradeDowngrade} {R10 : Raw.RwLockUpgradeTimed} {RW : RwLockWithin}.
Context (me : Z) (t : tid).
Implicit Types (own outer : list aval) (v : aval) (hs rest : list Z) (i : nat).

Ltac arc_calls :=
  repeat match goal with
    | |- wp _ _ _ _ _ (Bind _ _) _ _ => apply wp_bind
    | |- wp _ _ _ _ _ (Ret _) _ _ => apply wp_ret
    | |- wp _ _ _ _ _ (low _) _ _ => apply rwp_low; [by eauto with arc|intros ?]
    | |- wp _ _ _ _ _ (clone _) _ _ => apply rwp_clone; [done|]
    | |- wp _ _ _ _ _ (release _) _ _ => apply rwp_release; [done|]
    | |- wp _ _ _ _ _ (Act (Release ?a) Ret) _ _ => apply (rwp_release t a); [done|]
    | |- wp _ _ _ _ _ (Act (Clone ?a) Ret) _ _ => apply (rwp_clone t a); [done|]
    | |- wp _ _ _ _ _ (if ?b then _ else _) _ _ => destruct b
    | |- wp _ _ _ _ _ (match ?x with _ => _ end) _ _ => destruct x
    | |- wp _ _ _ _ _ ?p _ _ => let q := eval hnf in p in progress change p with q
    end.

Lemma rwp_dropped v hs (Q : unit → list Z → Prop) :
  aref v ∈ hs → Q tt (remove_first (aref v) hs) → rwp t (adrop v) hs Q.
Proof. intros Ha HQ. destruct v as [a|[a]|[a]|[a]|[a]|[a]]; cbn [aref] in *; arc_calls; exact HQ. Qed.

Lemma rwp_into_arc fair v hs (Q : Z → list Z → Prop) :
  aref v ∈ hs → Q (aref v) hs → rwp t (into_arc fair v) hs Q.
Proof. intros Ha HQ. destruct v as [a|[a]|[a]|[a]|[a]|[a]]; cbn [aref] in *; arc_calls; exact HQ. Qed.

Lemma rwp_unlock_fair v hs (Q : unit → list Z → Prop) :
  aref v ∈ hs → Q tt (remove_first (aref v) hs) → rwp t (aunlock_fair v) hs Q.
Proof. intros Ha HQ. destruct v as [a|[a]|[a]|[a]|[a]|[a]]; cbn [aref] in *; arc_calls; exact HQ. Qed.

Lemma rwp_bump v hs (Q : unit → list Z → Prop) : aref v ∈ hs → (∀ u, Q u hs) → rwp t (abump v) hs Q.
Proof. intros Ha HQ. destruct v as [a|[a]|[a]|[a]|[a]|[a]]; cbn [aref] in *; arc_calls; apply HQ. Qed.

Lemma rwp_convert c v hs (Q : aval → list Z → Prop) :
  aref v ∈ hs → (∀ v', aref v' = aref v → Q v' hs) → rwp t (aconvert c v) hs Q.
Proof.
  intros Ha HQ. destruct v as [a|[a]|[a]|[a]|[a]|[a]], c as [| |[]]; cbn [aref aconvert] in *; arc_calls;
    apply HQ; try done; by match goal with b : bool |- _ => destruct b end.
Qed.

Lemma rwp_with_upgraded w v x p hs (Q : bool → list Z → Prop) :
  aref v ∈ hs → (∀ b, Q b hs) → rwp t (awith_upgraded w v x p) hs Q.
Proof.
  intros Ha HQ. pose proof (λ l y, within_write (P := λ a, a ∈ hs) l y) as Hw.
  destruct v as [a|[a]|[a]|[a]|[a]|[a]], w; cbn [aref awith_upgraded] in *; arc_calls; by apply HQ.
Qed.

Lemma rwp_got {G} (f : G → aval) (p : aprog G) hs (Q : outcome (option aval) → list Z → Prop) :
  rwp t p hs (λ g, Q (Done (Some (f g)))) → rwp t (got f p) hs Q.
Proof. intros H. apply wp_bind. eapply wp_mono; [|exact H]. intros g hs' Hg. by apply wp_ret. Qed.

Lemma rwp_tried {G} (f : G → aval) (p : aprog (option G)) hs (Q : outcome (option aval) → list Z → Prop) :
  rwp t p hs (λ o, Q (Done (option_map f o))) → rwp t (tried f p) hs Q.
Proof. intros H. apply wp_bind. eapply wp_mono; [|exact H]. intros g hs' Hg. by apply wp_ret. Qed.

Lemma rwp_lock_through l w a hs (Q : outcome (option aval) → list Z → Prop) :
  a ∈ hs → (∀ v, aref v = a → Q (Done (Some v)) (a :: hs)) → (∀ o, o = Done None ∨ o = Unwind → Q o hs) →
  rwp t (lock_through me l w a) hs Q.
Proof.
  intros Ha HS HN. assert (Q (Done None) hs) by (apply HN; by left). assert (Q Unwind hs) by (apply HN; by right).
  destruct l, w; cbn [lock_through]; try apply rwp_got; try apply rwp_tried; arc_calls; cbn [option_map];
    first [done|by apply HS].
Qed.

Lemma rwp_unlocked fair v f hs (Q : outcome unit → list Z → Prop) :
  aref v ∈ hs → (∀ Q', (∀ o hs', hs' ≡ₚ hs → Q' o hs') → rwp t f hs Q') → (∀ o hs', hs' ≡ₚ hs → Q o hs') →
  rwp t (aunlocked me fair v f) hs Q.
Proof.
  intros Ha Hf HQ. destruct v as [a|[a]|[a]|[a]|[a]|[a]]; cbn [aref aunlocked] in *; [by apply wp_ret, HQ|..];
    destruct fair; apply wp_bind, rwp_low; eauto with arc; intros _; apply wp_bind, Hf; intros o hs' E;
    assert (a ∈ hs') by (by rewrite E); arc_calls; by apply HQ.
Qed.

(** ** Every program keeps count *)

(** The thread has the references of what it owns, and [rest], which has those
    of what the functions around it own. *)
Definition accounts (p : list aval → list aval → aprog (bool * list aval)) : Prop :=
  ∀ outer own rest hs (Q : bool * list aval → list Z → Prop),
    (∀ v, v ∈ outer → aref v ∈ rest) → hs ≡ₚ (aref <$> own) ++ rest →
    (∀ b own' hs', hs' ≡ₚ (aref <$> own') ++ rest → Q (b, own') hs') → rwp t (p outer own) hs Q.

Lemma own_in own rest hs i v : own !! i = Some v → hs ≡ₚ (aref <$> own) ++ rest → aref v ∈ hs.
Proof.
  intros Hi ->. apply elem_of_app. left. by apply list_elem_of_fmap_2, (list_elem_of_lookup_2 _ i).
Qed.

Lemma any_in own outer rest hs i v :
  (own ++ outer) !! i = Some v → (∀ v, v ∈ outer → aref v ∈ rest) → hs ≡ₚ (aref <$> own) ++ rest → aref v ∈ hs.
Proof.
  intros Hi Ho ->. apply list_elem_of_lookup_2, elem_of_app in Hi as [Hi|Hi]; apply elem_of_app; [left|right; auto].
  by apply list_elem_of_fmap_2.
Qed.

Lemma own_delete own rest hs i v :
  own !! i = Some v → hs ≡ₚ (aref <$> own) ++ rest → remove_first (aref v) hs ≡ₚ (aref <$> delete i own) ++ rest.
Proof.
  intros Hi E. apply (Permutation_cons_inv (a := aref v)).
  rewrite <- remove_first_perm by (by eapply own_in). by rewrite E, (delete_Permutation own i v Hi) at 1.
Qed.

Lemma own_insert own rest hs i v v' :
  own !! i = Some v → aref v' = aref v → hs ≡ₚ (aref <$> own) ++ rest → hs ≡ₚ (aref <$> <[i := v']> own) ++ rest.
Proof.
  intros Hi Ev ->. rewrite list_fmap_insert, list_insert_id; [done|]. by rewrite list_lookup_fmap, Hi, Ev.
Qed.

Lemma rwp_drop_all own rest hs (Q : unit → list Z → Prop) :
  hs ≡ₚ (aref <$> own) ++ rest → (∀ hs', hs' ≡ₚ rest → Q tt hs') → rwp t (adrop_all own) hs Q.
Proof.
  revert hs. induction own as [|v own IH]; intros hs E HQ; cbn [adrop_all]; [apply wp_ret; by apply HQ|].
  apply wp_bind, rwp_dropped; [by apply (own_in (v :: own) rest hs 0 v)|].
  apply IH; [|done]. by apply (own_delete (v :: own) rest hs 0 v).
Qed.

Lemma accounts_run_with run cs : Forall (λ c, accounts (run c)) cs → accounts (arun_with run cs).
Proof.
  induction 1 as [|c cs Hc _ IH]; intros outer own rest hs Q Ho E HQ; cbn [arun_with]; [apply wp_ret; by apply HQ|].
  apply wp_bind, (Hc _ _ rest _ _ Ho E). intros [] own' hs' E'; cbn; [apply wp_ret; by apply HQ|].
  by apply (IH _ _ rest).
Qed.

(** A closure drops what it owns. *)
Lemma accounts_closure p outer rest hs (Q : outcome unit → list Z → Prop) :
  accounts p → (∀ v, v ∈ outer → aref v ∈ rest) → hs ≡ₚ rest → (∀ o hs', hs' ≡ₚ rest → Q o hs') →
  rwp t (aclosure (p outer [])) hs Q.
Proof.
  intros Hp Ho E HQ. apply wp_bind, (Hp outer [] rest _ _ Ho E). intros b own' hs' E'.
  apply wp_bind, (rwp_drop_all _ rest _ _ E'). intros hs'' E''. apply wp_ret. by apply HQ.
Qed.

Lemma run_acmd_accounts c : accounts (run_acmd me c).
Proof.
  induction c as [c Hc|i fair body Hb] using acmd_nested; intros outer own rest hs Q Ho E HQ.
  - destruct c as [i|i|i l w|i fair|i|i|i fair body|i c|i w x p|i|i x|]; cbn [run_acmd]; unfold with_own;
      try (destruct (own !! i) as [v|] eqn:Hi; [pose proof (own_in _ _ _ _ _ Hi E)|by apply wp_ret, HQ]);
      try (destruct ((own ++ outer) !! i) as [v|] eqn:Hi; [pose proof (any_in _ _ _ _ _ _ Hi Ho E)|by apply wp_ret, HQ]).
    + apply wp_bind, rwp_clone; [done|]. apply wp_ret, HQ. cbn. by rewrite E.
    + apply wp_bind, rwp_dropped; [done|]. by apply wp_ret, HQ, own_delete.
    + apply wp_bind, rwp_lock_through; [done|..].
      * intros v' Ev. apply wp_ret, HQ. cbn. by rewrite Ev, E.
      * intros o [-> | ->]; by apply wp_ret, HQ.
    + apply wp_bind, rwp_into_arc; [done|]. apply wp_ret, HQ. by eapply own_insert.
    + apply wp_bind, rwp_unlock_fair; [done|]. by apply wp_ret, HQ, own_delete.
    + apply wp_bind, rwp_bump; [done|]. intros _. by apply wp_ret, HQ.
    + by destruct (Hc i fair body).
    + apply wp_bind, rwp_convert; [done|]. intros v' Ev. apply wp_ret, HQ. by eapply own_insert.
    + apply wp_bind, rwp_with_upgraded; [done|]. intros b. by apply wp_ret, HQ.
    + cbn [mbind option_bind]. destruct (aderef v) as [l|] eqn:Ed; [|by apply wp_ret, HQ].
      apply wp_bind, rwp_low; [|intros y; by apply wp_ret, HQ]. apply within_read. by destruct v; simplify_eq/=.
    + cbn [mbind option_bind]. destruct (aderef_mut v) as [l|] eqn:Ed; [|by apply wp_ret, HQ].
      apply wp_bind, rwp_low; [|intros y; by apply wp_ret, HQ]. apply within_write. by destruct v; simplify_eq/=.
    + by apply wp_ret, HQ.
  - cbn [run_acmd]. unfold with_own. destruct (own !! i) as [v|] eqn:Hi; [|by apply wp_ret, HQ].
    pose proof (own_in _ _ _ _ _ Hi E) as Ha. apply wp_bind, rwp_unlocked; [done|..].
    + intros Q' HQ'. eapply (accounts_closure (arun_with (run_acmd me) body) _ hs);
        [by apply accounts_run_with| |done|done].
      intros w [Hw|Hw]%elem_of_app; rewrite E; apply elem_of_app; [left|right; auto].
      apply list_elem_of_fmap_2. rewrite (delete_Permutation own i v Hi). by right.
    + intros o hs' E'. apply wp_ret, HQ. by rewrite E'.
Qed.

Lemma rwp_athread cs given hs (Q : unit → list Z → Prop) :
  hs ≡ₚ given → Q tt [] → rwp t (athread me cs given) hs Q.
Proof.
  intros E HQ. apply wp_bind.
  apply (accounts_run_with (run_acmd me) cs) with (rest := []); [| |by rewrite app_nil_r, <- list_fmap_compose, list_fmap_id|].
  - apply Forall_forall. intros c _. apply run_acmd_accounts.
  - by intros ? ?%elem_of_nil.
  - intros b own hs' E'. eapply rwp_drop_all; [exact E'|]. by intros hs'' ->%Permutation_nil_r.
Qed.
End verify.

(** ** The locks of parking_lot *)

Section theorems.
Context (bucket_of : Z → nat) (fair elision : bool).

Instance mutex_within :
  MutexWithin (RM := raw_mutex bucket_of fair) (RF := raw_mutex_fair bucket_of fair) (RT := raw_mutex_timed bucket_of fair).
Proof. split; intros; destruct fair; unfold only; within_program. Qed.

Instance rwlock_within :
  RwLockWithin (R1 := raw_rwlock bucket_of elision) (R2 := raw_rwlock_fair bucket_of elision)
    (R3 := raw_rwlock_downgrade bucket_of) (R4 := raw_rwlock_timed bucket_of elision)
    (R5 := raw_rwlock_recursive bucket_of elision) (R6 := raw_rwlock_recursive_timed bucket_of elision)
    (R7 := raw_rwlock_upgrade bucket_of) (R8 := raw_rwlock_upgrade_fair bucket_of)
    (R9 := raw_rwlock_upgrade_downgrade bucket_of) (R10 := raw_rwlock_upgrade_timed bucket_of).
Proof. split; intros; unfold only; within_program. Qed.

(** The references at the start: which thread has one to which lock. *)
Implicit Types (shared : list (tid * Z)) (scripts : tid → list acmd) (s : astate) (ps : tid → aprog unit).

Definition given shared (t : tid) : list Z := (filter (λ x, x.1 = t) shared).*2.
Definition start_arc shared (d : loc → Z) : astate :=
  MkA (start_lstate start_state d) (λ a, (filter (λ x, x.2 = a) shared).*1) false.
(** A thread without commands and references is done. *)
Definition arc_pool (id : tid → Z) shared scripts : tid → aprog unit := λ t,
  match scripts t, given shared t with
  | [], [] => Ret tt
  | cs, g =>
      athread (RM := raw_mutex bucket_of fair) (RF := raw_mutex_fair bucket_of fair) (RT := raw_mutex_timed bucket_of fair)
        (R1 := raw_rwlock bucket_of elision) (R2 := raw_rwlock_fair bucket_of elision)
        (R3 := raw_rwlock_downgrade bucket_of) (R4 := raw_rwlock_timed bucket_of elision)
        (R5 := raw_rwlock_recursive bucket_of elision) (R6 := raw_rwlock_recursive_timed bucket_of elision)
        (R7 := raw_rwlock_upgrade bucket_of) (R8 := raw_rwlock_upgrade_fair bucket_of)
        (R9 := raw_rwlock_upgrade_downgrade bucket_of) (R10 := raw_rwlock_upgrade_timed bucket_of) (id t) cs g
  end.

Lemma given_times shared a t :
  times t (filter (λ x, x.2 = a) shared).*1 = times a (given shared t).
Proof.
  unfold given. induction shared as [|[u b] shared IH]; [done|]. rewrite !filter_cons. cbn.
  repeat case_decide; subst; cbn; rewrite ?times_cons, ?IH; repeat case_decide; congruence.
Qed.

Lemma arc_verified id shared scripts d s ps :
  reachable aexec (start_arc shared d) (arc_pool id shared scripts) s ps →
  ∃ g ρ, RInv s g ρ ∧ ∀ t, rwp t (ps t) (ρ t) (λ _ hs, hs = []).
Proof.
  intros Hr. eapply (adequacy aexec RInv _ _ (λ hs, hs = [])); [|exact Hr].
  exists tt, (given shared). split; [split; [done|]; intros a t; apply given_times|].
  intros t. unfold arc_pool. cbn [snd].
  assert (H : ∀ cs g, g = given shared t → rwp t (athread (RM := raw_mutex bucket_of fair)
    (RF := raw_mutex_fair bucket_of fair) (RT := raw_mutex_timed bucket_of fair)
    (R1 := raw_rwlock bucket_of elision) (R2 := raw_rwlock_fair bucket_of elision)
    (R3 := raw_rwlock_downgrade bucket_of) (R4 := raw_rwlock_timed bucket_of elision)
    (R5 := raw_rwlock_recursive bucket_of elision) (R6 := raw_rwlock_recursive_timed bucket_of elision)
    (R7 := raw_rwlock_upgrade bucket_of) (R8 := raw_rwlock_upgrade_fair bucket_of)
    (R9 := raw_rwlock_upgrade_downgrade bucket_of) (R10 := raw_rwlock_upgrade_timed bucket_of) (id t) cs g)
    (given shared t) (λ _ hs, hs = [])).
  { intros cs g ->. apply (rwp_athread (MW := mutex_within) (RW := rwlock_within)); done. }
  destruct (scripts t); [|by apply H]. destruct (given shared t) eqn:E; [by apply wp_ret|]. rewrite <- E in *. by apply H.
Qed.

(** C13: A lock in an [Arc] is not used after it has been freed, and is freed in
    the end. In every reachable configuration of any number of threads that run
    any programs with any number of mutexes, read-write locks and reentrant
    mutexes that they share by reference counting (they clone and drop references
    and guards in any order, lock through references and through guards, turn
    guards into references, convert them, run closures unlocked or with upgraded
    guards, and panic), no action used the memory of a lock, cloned a reference
    or released one after the last reference had been released, and a thread that
    is done has no reference left. *)
Theorem arc_no_use_after_free id shared scripts d s ps :
  reachable aexec (start_arc shared d) (arc_pool id shared scripts) s ps →
  dangling s = false ∧ (∀ t a, ps t = Ret tt → t ∉ refs s a) ∧
  ((∀ t, ps t = Ret tt) → ∀ a, freed s a = true).
Proof.
  intros (g & ρ & HI & Hwp)%arc_verified. split; [apply HI|].
  assert (Hdone : ∀ t a, ps t = Ret tt → t ∉ refs s a).
  { intros t a E. specialize (Hwp t). rewrite E in Hwp. apply wp_ret_inv in Hwp.
    rewrite times_pos, (ri_refs _ _ _ HI), Hwp. by apply Nat.lt_irrefl. }
  split; [done|]. intros Hall a. apply bool_decide_eq_true. destruct (refs s a) as [|t l] eqn:E; [done|].
  destruct (Hdone t a (Hall t)). rewrite E. by left.
Qed.
End theorems.

(** ** A run: a guard that outlives the references it was made from *)

Section example.
Local Definition shared : list (tid * Z) := [(0%nat, 7); (1%nat, 7)].
Local Definition scripts (t : tid) : list acmd :=
  match t with
  | 0%nat => [XLock 0 LMutex Blocks; XDrop 1; XWrite 0 5; XIntoArc 0 true; XLock 0 LReentrant Tries; XDrop 1; XPanic]
  | _ => []
  end.
Local Definition pool := arc_pool (λ _, 0%nat) false false (λ t, Z.of_nat t + 1) shared scripts.
Local Definition demo (n : nat) : astate * (tid → aprog unit) :=
  default (start_arc shared (λ _, 0), pool)
    (run aexec (repeat (1%nat, 0) 3 ++ repeat (0%nat, 0) n) (start_arc shared (λ _, 0)) pool).

Lemma arc_demo_reachable n :
  bool_decide (is_Some (run aexec (repeat (1%nat, 0) 3 ++ repeat (0%nat, 0) n) (start_arc shared (λ _, 0)) pool)) = true →
  reachable aexec (start_arc shared (λ _, 0)) pool (demo n).1 (demo n).2.
Proof.
  intros [[s ps] E]%bool_decide_eq_true. eapply run_reachable. unfold demo. by rewrite E.
Qed.

Lemma arc_no_use_after_free_witness :
  dangling (demo 91).1 = false ∧ freed (start_arc shared (λ _, 0)) 7 = false ∧ freed (demo 91).1 7 = true.
Proof.
  destruct (arc_no_use_after_free (λ _, 0%nat) false false (λ t, Z.of_nat t + 1) shared scripts (λ _, 0)
    (demo 91).1 (demo 91).2) as (H1 & _ & H3); [apply (arc_demo_reachable 91); vm_compute; reflexivity|].
  split; [exact H1|]. split; [vm_compute; reflexivity|]. apply H3.
  intros [|[|t]]; vm_compute; reflexivity.
Defined.
End example.
