(* ===== verification/ArcEquiv.v ===== *)
(** * Guards that own an Arc are the guards that borrow

    Without the operations on references, each method of the guards in [ArcApi] is
    the method of the guard of [LockApi] or [ReentrantMutex] that borrows the
    lock, up to the laws of the monad.  With [erase_reachable], runs of programs
    with the one are runs of programs with the other. *)

From Stdlib Require Import Setoid Morphisms.
From S2P Require Import Prelude Conc ProgEquiv ParkingLot LockApi ReentrantMutex RawMutex MutexGuards RawRwLock RwLockGuards ArcApi ArcLogic.
Local Open Scope Z_scope.
Local Open Scope prog_scope.

Infix "≈" := peq (at level 70, no associativity).

(** What is returned instead of [p]'s result. *)
Definition returning {act : Type} {resp : act → Type} {A B} (f : A → B) (p : prog act resp A) : prog act resp B :=
  Bind p (λ x, Ret (f x)).

Section laws.
Context {act : Type} {resp : act → Type}.
Implicit Types p : prog act resp unit.

Lemma bind_tt p : Bind p (λ _, Ret tt) ≈ p.
Proof. etrans; [|apply peq_ret_r]. apply peq_bind; [done|]. by intros []. Qed.

Lemma bind_l {A X} (p q : prog act resp X) (k : X → prog act resp A) : p ≈ q → Bind p k ≈ Bind q k.
Proof. intros E. by apply peq_bind. Qed.
Lemma bind_rets {A X Y} (a : X) (b : Y) (k : X → prog act resp A) (k' : Y → prog act resp A) :
  k a = k' b → Bind (Ret a) k ≈ Bind (Ret b) k'.
Proof. intros E. etrans; [apply peq_ret_l|]. rewrite E. symmetry. apply peq_ret_l. Qed.
End laws.

(** ** The shapes of the methods *)

Lemma erase_same {A} (p : lprog A) : erase (low p) ≈ p.
Proof. by rewrite erase_low. Qed.

Lemma erase_dropped (p : lprog unit) a : erase (low p;; release a) ≈ p.
Proof. cbn. rewrite erase_low. apply bind_tt. Qed.

Lemma erase_into (p : lprog unit) (a : Z) : erase (low p;; Ret a) ≈ returning (λ _, a) p.
Proof. cbn. by rewrite erase_low. Qed.

Lemma erase_passed (p : lprog unit) (a : Z) : erase (b <- (low p;; Ret a);; release b) ≈ p.
Proof.
  cbn. rewrite erase_low. etrans; [apply peq_assoc|]. etrans; [|apply bind_tt].
  apply peq_bind; [done|]. intros _. apply (peq_ret_l a (λ _, Ret tt)).
Qed.

Lemma erase_suspended {U} (p q : lprog unit) (f : aprog (outcome U)) :
  erase (low p;; deferred f (low q)) ≈ (p;; deferred (erase f) q).
Proof. cbn. by rewrite !erase_low. Qed.

(** A guard is made: [f] and [f'] say what of it. *)
Lemma erase_made {G G' R} (f : G → R) (f' : G' → R) (g : G) (g' : G') a (p : lprog unit) :
  f g = f' g' → erase (returning f (clone a;; low p;; Ret g)) ≈ returning f' (p;; Ret g').
Proof.
  intros E. cbn. rewrite erase_low. etrans; [apply bind_l, peq_ret_l|].
  etrans; [apply peq_assoc|]. symmetry. etrans; [apply peq_assoc|]. apply peq_bind; [done|]. intros _.
  apply bind_rets. by rewrite E.
Qed.

Lemma erase_then_made {A G G' R} (f : G → R) (f' : G' → R) (r : lprog A) (p : aprog G) (q : lprog G') :
  erase (returning f p) ≈ returning f' q → erase (returning f (low r;; p)) ≈ returning f' (r;; q).
Proof.
  intros E. cbn in *. rewrite erase_low. etrans; [apply peq_assoc|]. etrans; [|symmetry; apply peq_assoc].
  by apply peq_bind.
Qed.

(** More is returned than the guard. *)
Lemma returning_wrapped {act : Type} {resp : act → Type} {G R S T} (f : G → R) (F : T → S) (w : G → T) (W : R → S)
    (p : prog act resp G) :
  (∀ g, F (w g) = W (f g)) → returning F (g <- p;; Ret (w g)) ≈ returning W (returning f p).
Proof.
  intros E. etrans; [apply peq_assoc|]. etrans; [|symmetry; apply peq_assoc].
  apply peq_bind; [done|]. intros g. apply bind_rets. by rewrite E.
Qed.

Lemma erase_returning {G R} (f : G → R) (p : aprog G) : erase (returning f p) = returning f (erase p).
Proof. done. Qed.

Lemma erase_wrapped {G G' R S T T'} (f : G → R) (f' : G' → R) (F : T → S) (F' : T' → S) (w : G → T) (w' : G' → T')
    (W : R → S) (p : aprog G) (q : lprog G') :
  (∀ g, F (w g) = W (f g)) → (∀ g, F' (w' g) = W (f' g)) →
  erase (returning f p) ≈ returning f' q →
  erase (returning F (g <- p;; Ret (w g))) ≈ returning F' (g <- q;; Ret (w' g)).
Proof.
  intros E1 E2 E. etrans; [apply (returning_wrapped f F w W); exact E1|].
  etrans; [|symmetry; apply (returning_wrapped f' F' w' W); exact E2]. by apply bind_l.
Qed.

Lemma erase_if_made {G G' R} (f : G → R) (f' : G' → R) r (p : aprog G) (q : lprog G') :
  erase (returning f p) ≈ returning f' q →
  erase (returning (option_map f) (arc_if r p)) ≈ returning (option_map f') (acquire_if r q).
Proof.
  intros E. cbn. rewrite erase_low. etrans; [apply peq_assoc|]. etrans; [|symmetry; apply peq_assoc].
  apply peq_bind; [done|]. intros [|]; [|by apply bind_rets].
  by apply (erase_wrapped f f' (option_map f) (option_map f') Some Some Some).
Qed.

(** A guard becomes another. *)
Lemma erase_converted {G G' R} (f : G → R) (f' : G' → R) (g : G) (g' : G') (p : lprog unit) :
  f g = f' g' → erase (returning f (low p;; Ret g)) ≈ returning f' (p;; Ret g').
Proof.
  intros E. cbn. rewrite erase_low. etrans; [apply peq_assoc|]. symmetry. etrans; [apply peq_assoc|].
  apply peq_bind; [done|]. intros _. apply bind_rets. by rewrite E.
Qed.

Lemma erase_maybe_converted {A G G' R} (f : G → R) (f' : G' → R) (g : A → G) (g' : A → G') (p : lprog A) :
  (∀ x, f (g x) = f' (g' x)) → erase (returning f (x <- low p;; Ret (g x))) ≈ returning f' (x <- p;; Ret (g' x)).
Proof.
  intros E. cbn. rewrite erase_low. etrans; [apply peq_assoc|]. symmetry. etrans; [apply peq_assoc|].
  apply peq_bind; [done|]. intros x. apply bind_rets. by rewrite E.
Qed.

Lemma erase_deferred {U} (f : aprog (outcome U)) (q : lprog unit) :
  erase (deferred f (low q)) ≈ deferred (erase f) q.
Proof. cbn. by rewrite erase_low. Qed.

(** ** The methods

    For each type of guard: its destructor, the other ways to give it up, its
    methods, and how it is made. *)

Section mutex.
Context `{!Raw.Mutex, !Raw.MutexFair, !Raw.MutexTimed}.

Definition mutex_agrees (a d : Z) {U} (f : aprog (outcome U)) : Prop :=
  let g := ArcMutexGuard.Mk a in
  let g' := MutexGuard.Mk a in
  let lock_of := ArcMutexGuard.mutex in
  let lock_of' := MutexGuard.mutex in
  (erase (ArcMutexGuard.drop g) ≈ MutexGuard.drop g' ∧
   erase (ArcMutexGuard.unlock_fair g) ≈ MutexGuard.unlock_fair g' ∧
   erase (ArcMutexGuard.into_arc g) ≈ returning (λ _, a) (MutexGuard.drop g') ∧
   erase (ArcMutexGuard.into_arc_fair g) ≈ returning (λ _, a) (MutexGuard.unlock_fair g') ∧
   erase (ArcMutexGuard.bump g) ≈ MutexGuard.bump g' ∧
   erase (ArcMutexGuard.unlocked g f) ≈ MutexGuard.unlocked g' (erase f) ∧
   erase (ArcMutexGuard.unlocked_fair g f) ≈ MutexGuard.unlocked_fair g' (erase f)) ∧
  (ArcMutexGuard.deref g = MutexGuard.deref g' ∧ ArcMutexGuard.deref_mut g = MutexGuard.deref_mut g') ∧
  erase (returning lock_of (ArcMutex.make_arc_guard_unchecked a)) ≈
    returning lock_of' (Mutex.make_guard_unchecked a) ∧
  erase (returning lock_of (ArcMutex.lock_arc a)) ≈ returning lock_of' (Mutex.lock a) ∧
  erase (returning (option_map lock_of) (ArcMutex.try_lock_arc a)) ≈
    returning (option_map lock_of') (Mutex.try_lock a) ∧
  erase (returning (option_map lock_of) (ArcMutex.try_lock_arc_for a d)) ≈
    returning (option_map lock_of') (Mutex.try_lock_for a d) ∧
  erase (returning (option_map lock_of) (ArcMutex.try_lock_arc_until a d)) ≈
    returning (option_map lock_of') (Mutex.try_lock_until a d).

Lemma arc_mutex_guards a d {U} (f : aprog (outcome U)) : mutex_agrees a d f.
Proof.
  split.
  { split; [apply erase_dropped|]. split; [apply erase_passed|]. split; [apply erase_into|].
    split; [apply erase_into|]. split; [apply erase_same|]. split; apply erase_suspended. }
  split; [by split|]. split; [by apply erase_made|].
  split; [by apply erase_then_made, erase_made|]. split; [|split]; by apply erase_if_made, erase_made.
Qed.
End mutex.

Section rwlock.
Context `{!Raw.RwLock, !Raw.RwLockFair, !Raw.RwLockDowngrade, !Raw.RwLockTimed, !Raw.RwLockRecursive,
  !Raw.RwLockRecursiveTimed, !Raw.RwLockUpgrade, !Raw.RwLockUpgradeFair, !Raw.RwLockUpgradeDowngrade,
  !Raw.RwLockUpgradeTimed}.
Context (a d : Z) {U : Type} (f : aprog (outcome U)) (h : loc → aprog (outcome U)).

(** What a guard says of its lock. *)
Abbreviation reader := ArcRwLockReadGuard.rwlock.
Abbreviation reader' := RwLockReadGuard.rwlock.
Abbreviation writer := ArcRwLockWriteGuard.rwlock.
Abbreviation writer' := RwLockWriteGuard.rwlock.

Definition read_agrees : Prop :=
  let g := ArcRwLockReadGuard.Mk a in
  let g' := RwLockReadGuard.Mk a in
  (erase (ArcRwLockReadGuard.drop g) ≈ RwLockReadGuard.drop g' ∧
   erase (ArcRwLockReadGuard.unlock_fair g) ≈ RwLockReadGuard.unlock_fair g' ∧
   erase (ArcRwLockReadGuard.into_arc g) ≈ returning (λ _, a) (RwLockReadGuard.drop g') ∧
   erase (ArcRwLockReadGuard.into_arc_fair g) ≈ returning (λ _, a) (RwLockReadGuard.unlock_fair g') ∧
   erase (ArcRwLockReadGuard.bump g) ≈ RwLockReadGuard.bump g' ∧
   erase (ArcRwLockReadGuard.unlocked g f) ≈ RwLockReadGuard.unlocked g' (erase f) ∧
   erase (ArcRwLockReadGuard.unlocked_fair g f) ≈ RwLockReadGuard.unlocked_fair g' (erase f)) ∧
  ArcRwLockReadGuard.deref g = RwLockReadGuard.deref g' ∧
  erase (returning reader (ArcRwLock.make_arc_read_guard_unchecked a)) ≈
    returning reader' (RwLock.make_read_guard_unchecked a) ∧
  (erase (returning reader (ArcRwLock.read_arc a)) ≈ returning reader' (RwLock.read a) ∧
   erase (returning reader (ArcRwLock.read_arc_recursive a)) ≈ returning reader' (RwLock.read_recursive a)) ∧
  erase (returning (option_map reader) (ArcRwLock.try_read_arc a)) ≈
    returning (option_map reader') (RwLock.try_read a) ∧
  erase (returning (option_map reader) (ArcRwLock.try_read_arc_for a d)) ≈
    returning (option_map reader') (RwLock.try_read_for a d) ∧
  erase (returning (option_map reader) (ArcRwLock.try_read_arc_until a d)) ≈
    returning (option_map reader') (RwLock.try_read_until a d) ∧
  erase (returning (option_map reader) (ArcRwLock.try_read_recursive_arc a)) ≈
    returning (option_map reader') (RwLock.try_read_recursive a) ∧
  erase (returning (option_map reader) (ArcRwLock.try_read_arc_recursive_for a d)) ≈
    returning (option_map reader') (RwLock.try_read_recursive_for a d) ∧
  erase (returning (option_map reader) (ArcRwLock.try_read_arc_recursive_until a d)) ≈
    returning (option_map reader') (RwLock.try_read_recursive_until a d).

Lemma arc_read_guards : read_agrees.
Proof.
  split.
  { split; [apply erase_dropped|]. split; [apply erase_passed|]. split; [apply erase_into|].
    split; [apply erase_into|]. split; [apply erase_same|]. split; apply erase_suspended. }
  split; [done|]. split; [by apply erase_made|].
  split; [by split; apply erase_then_made, erase_made|]. repeat split; by apply erase_if_made, erase_made.
Qed.

Definition write_agrees : Prop :=
  let g := ArcRwLockWriteGuard.Mk a in
  let g' := RwLockWriteGuard.Mk a in
  (erase (ArcRwLockWriteGuard.drop g) ≈ RwLockWriteGuard.drop g' ∧
   erase (ArcRwLockWriteGuard.unlock_fair g) ≈ RwLockWriteGuard.unlock_fair g' ∧
   erase (ArcRwLockWriteGuard.into_arc g) ≈ returning (λ _, a) (RwLockWriteGuard.drop g') ∧
   erase (ArcRwLockWriteGuard.into_arc_fair g) ≈ returning (λ _, a) (RwLockWriteGuard.unlock_fair g') ∧
   erase (ArcRwLockWriteGuard.bump g) ≈ RwLockWriteGuard.bump g' ∧
   erase (ArcRwLockWriteGuard.unlocked g f) ≈ RwLockWriteGuard.unlocked g' (erase f) ∧
   erase (ArcRwLockWriteGuard.unlocked_fair g f) ≈ RwLockWriteGuard.unlocked_fair g' (erase f)) ∧
  (ArcRwLockWriteGuard.deref g = RwLockWriteGuard.deref g' ∧
   ArcRwLockWriteGuard.deref_mut g = RwLockWriteGuard.deref_mut g') ∧
  erase (returning writer (ArcRwLock.make_arc_write_guard_unchecked a)) ≈
    returning writer' (RwLock.make_write_guard_unchecked a) ∧
  (erase (returning reader (ArcRwLockWriteGuard.downgrade g)) ≈ returning reader' (RwLockWriteGuard.downgrade g') ∧
   erase (returning arc_upgradable_lock (ArcRwLockWriteGuard.downgrade_to_upgradable g)) ≈
     returning upgradable_lock (RwLockWriteGuard.downgrade_to_upgradable g')) ∧
  erase (returning writer (ArcRwLock.write_arc a)) ≈ returning writer' (RwLock.write a) ∧
  erase (returning (option_map writer) (ArcRwLock.try_write_arc a)) ≈
    returning (option_map writer') (RwLock.try_write a) ∧
  erase (returning (option_map writer) (ArcRwLock.try_write_arc_for a d)) ≈
    returning (option_map writer') (RwLock.try_write_for a d) ∧
  erase (returning (option_map writer) (ArcRwLock.try_write_arc_until a d)) ≈
    returning (option_map writer') (RwLock.try_write_until a d).

Lemma arc_write_guards : write_agrees.
Proof.
  split.
  { split; [apply erase_dropped|]. split; [apply erase_passed|]. split; [apply erase_into|].
    split; [apply erase_into|]. split; [apply erase_same|]. split; apply erase_suspended. }
  split; [by split|]. split; [by apply erase_made|]. split; [by split; apply erase_converted|].
  split; [by apply erase_then_made, erase_made|]. repeat split; by apply erase_if_made, erase_made.
Qed.

(** An upgrade: the lock, and whether it was upgraded. *)
Definition upgrade_of (r : ArcRwLockWriteGuard.t + arc_upgradable_guard) : bool * Z :=
  match r with inl g => (true, writer g) | inr g => (false, arc_upgradable_lock g) end.
Definition upgrade_of' (r : RwLockWriteGuard.t + upgradable_guard) : bool * Z :=
  match r with inl g => (true, writer' g) | inr g => (false, upgradable_lock g) end.

Lemma erase_upgraded_with (p : iprog bool) :
  erase (ArcRwLockUpgradableReadGuard.try_with p (MkArcUpgradable a) h) ≈
  RwLockUpgradableReadGuard.try_with p (MkUpgradable a) (λ l, erase (h l)).
Proof.
  cbn. apply peq_bind; [by rewrite erase_low|]. intros [|]; [|done]. cbn. rewrite erase_low.
  apply peq_bind; [done|]. by intros [].
Qed.

Definition upgradable_agrees : Prop :=
  let g := MkArcUpgradable a in
  let g' := MkUpgradable a in
  (erase (ArcRwLockUpgradableReadGuard.drop g) ≈ RwLockUpgradableReadGuard.drop g' ∧
   erase (ArcRwLockUpgradableReadGuard.unlock_fair g) ≈ RwLockUpgradableReadGuard.unlock_fair g' ∧
   erase (ArcRwLockUpgradableReadGuard.into_arc g) ≈ returning (λ _, a) (RwLockUpgradableReadGuard.drop g') ∧
   erase (ArcRwLockUpgradableReadGuard.into_arc_fair g) ≈
     returning (λ _, a) (RwLockUpgradableReadGuard.unlock_fair g') ∧
   erase (ArcRwLockUpgradableReadGuard.bump g) ≈ RwLockUpgradableReadGuard.bump g' ∧
   erase (ArcRwLockUpgradableReadGuard.unlocked g f) ≈ RwLockUpgradableReadGuard.unlocked g' (erase f) ∧
   erase (ArcRwLockUpgradableReadGuard.unlocked_fair g f) ≈ RwLockUpgradableReadGuard.unlocked_fair g' (erase f)) ∧
  ArcRwLockUpgradableReadGuard.deref g = RwLockUpgradableReadGuard.deref g' ∧
  erase (returning arc_upgradable_lock (ArcRwLock.make_upgradable_arc_guard_unchecked a)) ≈
    returning upgradable_lock (RwLock.make_upgradable_guard_unchecked a) ∧
  (erase (returning writer (ArcRwLockUpgradableReadGuard.upgrade g)) ≈
     returning writer' (RwLockUpgradableReadGuard.upgrade g') ∧
   erase (returning reader (ArcRwLockUpgradableReadGuard.downgrade g)) ≈
     returning reader' (RwLockUpgradableReadGuard.downgrade g')) ∧
  (erase (returning upgrade_of (ArcRwLockUpgradableReadGuard.try_upgrade g)) ≈
     returning upgrade_of' (RwLockUpgradableReadGuard.try_upgrade g') ∧
   erase (returning upgrade_of (ArcRwLockUpgradableReadGuard.try_upgrade_for g d)) ≈
     returning upgrade_of' (RwLockUpgradableReadGuard.try_upgrade_for g' d) ∧
   erase (returning upgrade_of (ArcRwLockUpgradableReadGuard.try_upgrade_until g d)) ≈
     returning upgrade_of' (RwLockUpgradableReadGuard.try_upgrade_until g' d)) ∧
  erase (ArcRwLockUpgradableReadGuard.with_upgraded g h) ≈
    RwLockUpgradableReadGuard.with_upgraded g' (λ l, erase (h l)) ∧
  (erase (ArcRwLockUpgradableReadGuard.try_with_upgraded g h) ≈
     RwLockUpgradableReadGuard.try_with_upgraded g' (λ l, erase (h l)) ∧
   erase (ArcRwLockUpgradableReadGuard.try_with_upgraded_for g d h) ≈
     RwLockUpgradableReadGuard.try_with_upgraded_for g' d (λ l, erase (h l)) ∧
   erase (ArcRwLockUpgradableReadGuard.try_with_upgraded_until g d h) ≈
     RwLockUpgradableReadGuard.try_with_upgraded_until g' d (λ l, erase (h l))) ∧
  erase (returning arc_upgradable_lock (ArcRwLock.upgradable_read_arc a)) ≈
    returning upgradable_lock (RwLock.upgradable_read a) ∧
  erase (returning (option_map arc_upgradable_lock) (ArcRwLock.try_upgradable_read_arc a)) ≈
    returning (option_map upgradable_lock) (RwLock.try_upgradable_read a) ∧
  erase (returning (option_map arc_upgradable_lock) (ArcRwLock.try_upgradable_read_arc_for a d)) ≈
    returning (option_map upgradable_lock) (RwLock.try_upgradable_read_for a d) ∧
  erase (returning (option_map arc_upgradable_lock) (ArcRwLock.try_upgradable_read_arc_until a d)) ≈
    returning (option_map upgradable_lock) (RwLock.try_upgradable_read_until a d).

Lemma arc_upgradable_guards : upgradable_agrees.
Proof.
  split.
  { split; [apply erase_dropped|]. split; [apply erase_passed|]. split; [apply erase_into|].
    split; [apply erase_into|]. split; [apply erase_same|]. split; apply erase_suspended. }
  split; [done|]. split; [by apply erase_made|]. split; [by split; apply erase_converted|].
  split; [repeat split; apply erase_maybe_converted; by intros []|].
  split; [apply erase_suspended|]. split; [repeat split; apply erase_upgraded_with|].
  split; [by apply erase_then_made, erase_made|]. repeat split; by apply erase_if_made, erase_made.
Qed.
End rwlock.

Section remutex.
Context `{!Raw.Mutex, !Raw.MutexFair, !Raw.MutexTimed}.
Context (me a d : Z) {U : Type} (f : aprog (outcome U)).

Definition reentrant_of (r : outcome ArcReentrantMutexGuard.t) : outcome Z :=
  match r with Done g => Done (ArcReentrantMutexGuard.remutex g) | Unwind => Unwind end.
Definition reentrant_of' (r : outcome ReentrantMutexGuard.t) : outcome Z :=
  match r with Done g => Done (ReentrantMutexGuard.remutex g) | Unwind => Unwind end.
Definition reentrant_if (r : outcome (option ArcReentrantMutexGuard.t)) : outcome (option Z) :=
  match r with Done o => Done (option_map ArcReentrantMutexGuard.remutex o) | Unwind => Unwind end.
Definition reentrant_if' (r : outcome (option ReentrantMutexGuard.t)) : outcome (option Z) :=
  match r with Done o => Done (option_map ReentrantMutexGuard.remutex o) | Unwind => Unwind end.

Lemma reentrant_made :
  erase (returning ArcReentrantMutexGuard.remutex (ArcReentrantMutex.make_arc_guard_unchecked a)) ≈
  returning ReentrantMutexGuard.remutex (ReentrantMutex.make_guard_unchecked a).
Proof. by apply erase_made. Qed.

Lemma erase_reentrant_if (p : lprog (outcome bool)) :
  erase (returning reentrant_if (ArcReentrantMutex.arc_guard_if a p)) ≈
  returning reentrant_if' (ReentrantMutex.guard_if a p).
Proof.
  cbn. rewrite erase_low. etrans; [apply peq_assoc|]. etrans; [|symmetry; apply peq_assoc].
  apply peq_bind; [done|]. intros [[|]|]; [|by apply bind_rets..].
  by apply (erase_wrapped _ _ reentrant_if reentrant_if' (λ g, Done (Some g)) (λ g, Done (Some g)) (λ a, Done (Some a))
    _ _ (λ _, eq_refl) (λ _, eq_refl) reentrant_made).
Qed.

Lemma erase_reentrant_lock :
  erase (returning reentrant_of (ArcReentrantMutex.lock_arc me a)) ≈ returning reentrant_of' (ReentrantMutex.lock me a).
Proof.
  unfold ArcReentrantMutex.lock_arc, ReentrantMutex.lock. generalize (RawReentrantMutex.lock me a). intros p.
  cbn. rewrite erase_low. etrans; [apply peq_assoc|]. etrans; [|symmetry; apply peq_assoc].
  apply peq_bind; [done|]. intros [_|]; [|by apply bind_rets].
  by apply (erase_wrapped _ _ reentrant_of reentrant_of' Done Done Done _ _ (λ _, eq_refl) (λ _, eq_refl) reentrant_made).
Qed.

Definition reentrant_agrees : Prop :=
  let g := ArcReentrantMutexGuard.Mk a in
  let g' := ReentrantMutexGuard.Mk a in
  (erase (ArcReentrantMutexGuard.drop g) ≈ ReentrantMutexGuard.drop g' ∧
   erase (ArcReentrantMutexGuard.unlock_fair g) ≈ ReentrantMutexGuard.unlock_fair g' ∧
   erase (ArcReentrantMutexGuard.into_arc g) ≈ returning (λ _, a) (ReentrantMutexGuard.drop g') ∧
   erase (ArcReentrantMutexGuard.into_arc_fair g) ≈ returning (λ _, a) (ReentrantMutexGuard.unlock_fair g') ∧
   erase (ArcReentrantMutexGuard.bump g) ≈ ReentrantMutexGuard.bump g' ∧
   erase (ArcReentrantMutexGuard.unlocked me g f) ≈ ReentrantMutexGuard.unlocked me g' (erase f) ∧
   erase (ArcReentrantMutexGuard.unlocked_fair me g f) ≈ ReentrantMutexGuard.unlocked_fair me g' (erase f)) ∧
  ArcReentrantMutexGuard.deref g = ReentrantMutexGuard.deref g' ∧
  erase (returning ArcReentrantMutexGuard.remutex (ArcReentrantMutex.make_arc_guard_unchecked a)) ≈
    returning ReentrantMutexGuard.remutex (ReentrantMutex.make_guard_unchecked a) ∧
  erase (returning reentrant_of (ArcReentrantMutex.lock_arc me a)) ≈
    returning reentrant_of' (ReentrantMutex.lock me a) ∧
  erase (returning reentrant_if (ArcReentrantMutex.try_lock_arc me a)) ≈
    returning reentrant_if' (ReentrantMutex.try_lock me a) ∧
  erase (returning reentrant_if (ArcReentrantMutex.try_lock_arc_for me a d)) ≈
    returning reentrant_if' (ReentrantMutex.try_lock_for me a d) ∧
  erase (returning reentrant_if (ArcReentrantMutex.try_lock_arc_until me a d)) ≈
    returning reentrant_if' (ReentrantMutex.try_lock_until me a d).

Lemma arc_reentrant_guards : reentrant_agrees.
Proof.
  split.
  { split; [apply erase_dropped|]. split; [apply erase_passed|]. split; [apply erase_into|].
    split; [apply erase_into|]. split; [apply erase_same|]. split; apply erase_suspended. }
  split; [done|]. split; [apply reentrant_made|]. split; [apply erase_reentrant_lock|]. repeat split; apply erase_reentrant_if.
Qed.
End remutex.

(** ** Programs *)

(** What has been verified of programs with guards that borrow holds of programs
    with guards that own, if they are the same without the references. *)
Lemma erased_verified {ghost role : Type} (Inv : lstate → ghost → (tid → role) → Prop)
    (panic_ok : string → role → Prop) (blocked : tid → role → lstate → Prop) (done_ok : role → Prop)
    (ps : tid → aprog unit) (qs : tid → lprog unit) s s' ps' :
  (∀ t, erase (ps t) ≈ qs t) → verified lexec Inv panic_ok blocked done_ok (locks s, qs) →
  reachable aexec s ps s' ps' →
  verified lexec Inv panic_ok blocked done_ok (locks s', λ t, erase (ps' t)).
Proof.
  intros E (g & ρ & HI & Hwp) Hr%erase_reachable. eapply adequacy; [|exact Hr].
  exists g, ρ. split; [exact HI|]. intros t. by apply (wp_peq _ _ _ _ _ _ _ _ _ (E t)).
Qed.

(** C14: The guards that own an [Arc] are the guards that borrow their lock, up to
    the references. For [Mutex], for [RwLock] with its three guards, and for
    [ReentrantMutex], each method of the [Arc] guard (how it is made, also
    unchecked, dropped, dereferenced, turned into its [Arc], unlocked fairly or
    for the time of a closure, bumped, upgraded, downgraded, used with an
    upgrade), without its operations on references, is the method of the other
    guard, for any raw locks and any closures. What is turned into an [Arc] is
    what dropping the other guard does, and then the lock. So whatever has been
    verified of threads that use the one, by any invariant, holds in every
    configuration that threads reach that use the other. *)
Theorem arc_guards_agree
    `{!Raw.Mutex, !Raw.MutexFair, !Raw.MutexTimed}
    `{!Raw.RwLock, !Raw.RwLockFair, !Raw.RwLockDowngrade, !Raw.RwLockTimed, !Raw.RwLockRecursive,
      !Raw.RwLockRecursiveTimed, !Raw.RwLockUpgrade, !Raw.RwLockUpgradeFair, !Raw.RwLockUpgradeDowngrade,
      !Raw.RwLockUpgradeTimed}
    (me a d : Z) {U : Type} (f : aprog (outcome U)) (h : loc → aprog (outcome U)) :
  (mutex_agrees a d f ∧ (read_agrees a d f ∧ write_agrees a d f ∧ upgradable_agrees a d f h) ∧
   reentrant_agrees me a d f) ∧
  ∀ (ghost role : Type) (Inv : lstate → ghost → (tid → role) → Prop) panic_ok blocked done_ok
    (ps : tid → aprog unit) (qs : tid → lprog unit) s s' ps',
    (∀ t, erase (ps t) ≈ qs t) → verified lexec Inv panic_ok blocked done_ok (locks s, qs) →
    reachable aexec s ps s' ps' →
    verified lexec Inv panic_ok blocked done_ok (locks s', λ t, erase (ps' t)).
Proof.
  split; [|intros; by eapply erased_verified]. split; [apply arc_mutex_guards|].
  split; [|apply arc_reentrant_guards].
  split; [apply arc_read_guards|]. split; [apply arc_write_guards|apply arc_upgradable_guards].
Qed.

(** With the mutex and the read-write lock of parking_lot: releasing a guard of
    a mutex fairly, and making an upgradable one. *)
Section example.
Local Definition bucket (a : Z) : nat := Z.to_nat (a mod 3).
Local Instance demo_fair : Raw.MutexFair := raw_mutex_fair bucket true.
Local Instance demo_rwlock : Raw.RwLock := raw_rwlock bucket false.
Local Instance demo_upgrade : Raw.RwLockUpgrade := raw_rwlock_upgrade bucket.

Lemma arc_guards_agree_witness :
  erase (ArcMutexGuard.unlock_fair (ArcMutexGuard.Mk 8)) ≈ MutexGuard.unlock_fair (MutexGuard.Mk 8) ∧
  ArcRwLockWriteGuard.deref_mut (ArcRwLockWriteGuard.Mk 8) = Data 8 [] ∧
  erase (returning arc_upgradable_lock (ArcRwLock.upgradable_read_arc 8)) ≈
    returning upgradable_lock (RwLock.upgradable_read 8).
Proof.
  destruct (@arc_guards_agree (raw_mutex bucket true) demo_fair (raw_mutex_timed bucket true)
    demo_rwlock (raw_rwlock_fair bucket false) (raw_rwlock_downgrade bucket) (raw_rwlock_timed bucket false)
    (raw_rwlock_recursive bucket false) (raw_rwlock_recursive_timed bucket false) demo_upgrade
    (raw_rwlock_upgrade_fair bucket) (raw_rwlock_upgrade_downgrade bucket) (raw_rwlock_upgrade_timed bucket)
    1 8 1000 unit (Ret (Done tt)) (λ _, Ret (Done tt))) as [(Hm & (_ & Hw & Hu) & _) _].
  destruct Hm as ((_ & H1 & _) & _). destruct Hw as (_ & (_ & H2) & _).
  destruct Hu as (_ & _ & _ & _ & _ & _ & _ & H3 & _).
  split; [exact H1|]. split; [exact H2|exact H3].
Defined.
End example.
