(* ===== verification/CondvarProof.v ===== *)
(** * Correctness of RawCondvar

    The operations of the condition variables keep the invariant of
    [RawMutexInv], together with those of the mutexes: [wait] gives up the mutex
    and takes it again, whoever wakes the thread and however it is moved from
    queue to queue meanwhile. *)

From S2P Require Import Prelude Conc LotTypes SpinWait FairTimeout BucketQueue ParkingLot LotInv RawMutex RawMutexInv RawMutexProof RawCondvar.
Import RawCondvar.
Local Open Scope Z_scope.

Section proof.
(* [panic_role]: the roles in which a thread may start to wait with a second mutex *)
Context (bucket_of : Z → nat) (cv : Z → bool) (panic_role : role → Prop).
Implicit Types (s : state) (g : Z → option tid) (ρ : tid → role) (a c : Z) (t u w : tid).

(** A thread that waits with a second mutex panics, and still owns it. *)
Definition bad_mutex (m : string) (r : role) : Prop := m = bad_mutex_msg ∧ idle r ∧ panic_role r.

Abbreviation MInv := (MInv bucket_of cv).
Abbreviation thread_ok := (thread_ok bucket_of cv).
Abbreviation no_waiter := (no_waiter bucket_of).
Abbreviation waiter := (waiter bucket_of).
Abbreviation pc_hold := (pc_hold bucket_of).
Abbreviation mwp := (wp exec MInv bad_mutex (blocked bucket_of)).

(** ** The queue of a condition variable *)

(** With the bucket locked by a thread that has not cleared the word, the word is
    the mutex of all that are queued. *)
Lemma queue_word s g ρ t c u a :
  MInv s g ρ → bucket_of c ∈ pc_hold (rpc (ρ t)) → (∀ x, ¬ cleared (rpc (ρ t)) c x) →
  waiter s c u → rcv (ρ u) = Some (c, a) → mem s c = a ∧ a ≠ 0.
Proof.
  intros HI Hb Hn Hu E.
  assert (Ha : a ≠ 0).
  { destruct (mi_thread _ _ _ _ _ HI u) as (_ & _ & _ & Hok). unfold cv_ok in Hok. rewrite E in Hok. tauto. }
  destruct (mi_cvq _ _ _ _ _ HI c u a Hu E) as [?|[v Hv]]; [done|exfalso].
  assert (Hh : bucket_of c ∈ pc_hold (rpc (ρ v))) by (destruct Hv as [-> | ->]; cbn; set_solver).
  pose proof (lot_hold_unique bucket_of _ _ _ _ _ _ _ (mi_lot _ _ _ _ _ HI) Hb Hh) as <-. by apply (Hn a).
Qed.

(** ** Steps that only change the place in the code *)

Definition step_pc (p p' : pc) : Prop :=
  pc_hold p' = pc_hold p ∧ pc_wait p' = pc_wait p ∧ pc_cust p' = pc_cust p ∧
  plain_from p = true ∧ plain_to p' = true.

Lemma m_step s g ρ t r p :
  MInv s g ρ → ρ t = r → step_pc (rpc r) p → pc_ok bucket_of cv s g t (held r) p →
  pc_cv p = true ∨ rcv r = None → (∀ a, coming s a t r → coming s a t (at_pc r p)) →
  MInv s g (<[t := at_pc r p]> ρ).
Proof.
  intros HI Hr (E1 & E2 & E3 & E4 & E5) Hok Hcv Hco.
  pose proof (mi_thread _ _ _ _ _ HI t) as (T1 & T2 & _ & T4). rewrite Hr in T1, T2, T4.
  apply m_pc_only; cbn; rewrite ?Hr; try done.
  - apply keeps_plain; rewrite ?Hr; try done. by left.
  - split; [done|]. split; [done|]. split; [done|]. by eapply cv_ok_pc.
  - intros a _. apply Hco.
Qed.

(** An action that does not change the state. *)
Lemma wp_see {A} t (x : act) (k : resp x → iprog A) r Q :
  (∀ c s s' v, exec t c x s = Some (s', v) → s' = s) → (∀ s, is_Some (exec t 0 x s)) →
  (∀ s g ρ c v, MInv s g ρ → ρ t = r → exec t c x s = Some (s, v) →
     ∃ r', MInv s g (<[t := r']> ρ) ∧ mwp t (k v) r' Q) →
  mwp t (Act x k) r Q.
Proof.
  intros Hs Hen Hk. apply wp_act; [intros; left; exists 0; apply Hen|]. intros s g ρ c s' v Hr HI Hex.
  pose proof (Hs _ _ _ _ Hex) as ->. exists g. by eapply Hk.
Qed.

Ltac see := apply wp_see; [by intros; simplify_eq/=|by eexists|];
  intros s g ρ ch v HI Hr Hex; cbn in Hex; injection Hex as <-.

(** ** Waiting *)

(** The role of the waiter, before it is queued and once it is. *)
Definition queued (c a : Z) (r : role) (p : pc) : role := MkRole (held r) (guards r) p (Some (c, a)).

Lemma wp_wait_validate t c a r e Q :
  cv c = true → cv a = false → a ≠ 0 → idle r →
  (∀ x, x ≠ a → Q (false, (true, e.2)) (at_pc r (CvOk c x))) → Q (true, e) (at_pc r (CvOk c a)) →
  mwp t (wait_validate c a e) (at_pc r (CvL c)) Q.
Proof.
  intros Hc Ha H0 [Hpc Hcv] HF HT. unfold wait_validate, load. wp_pure. see.
  exists (at_pc r (CvOk c (mem s c))). split.
  { apply (m_step s g ρ t (at_pc r (CvL c))); try done; [by right|].
    intros x. unfold coming, goes. cbn. rewrite Hcv. by intros [[]|[[|[|[]]] _]]. }
  destruct (mi_cond _ _ _ _ _ HI c Hc) as [_ Hw]. wp_pure.
  destruct (Z.eqb_spec (mem s c) 0) as [E|E]; [|destruct (Z.eqb_spec (mem s c) a) as [E'|E']; wp_pure].
  - rewrite E. clear s g ρ ch Hr HI Hw E. unfold store. wp_pure. apply wp_act; [always|].
    intros s g ρ ch s' v Hr HI Hex. cbn in Hex. injection Hex as <- <-.
    destruct (mi_thread _ _ _ _ _ HI t) as (T1 & T2 & T3 & _). rewrite Hr in T1, T2, T3. destruct T3 as [_ Hm].
    exists g, (at_pc r (CvOk c a)). split; [|by wp_pure].
    apply m_cond; rewrite ?Hr; try done; cbn; rewrite ?Hcv; try done.
    + set_solver.
    + auto.
    + apply keeps_plain; rewrite ?Hr; try done. by left.
    + split; [done|]. split; [done|]. split; [|by apply cv_ok_none]. cbn. by fn_simp.
    + intros x _. unfold coming, goes. cbn. rewrite Hcv. by intros [[]|[[|[|[]]] _]].
    + intros u x Hu E. destruct (queue_word s g ρ t c u x HI) as [H1 H2]; [|..|done|done|congruence].
      * rewrite Hr. cbn. set_solver.
      * rewrite Hr. by intros y [|].
  - rewrite E'. done.
  - by apply HF.
Qed.

(** [lock_bucket_checked]: our key is that of the condition variable or of the
    mutex, and does not change once its bucket is locked. *)
Lemma wp_cv_lock_checked t c a r Q :
  (∀ k, (k = c ∨ k = a) → Q (k, bucket_of k) (queued c a r (CvTimeK k))) →
  mwp t (lock_bucket_checked bucket_of) (queued c a r Idle) Q.
Proof.
  intros HQ. apply (wp_iter _ _ _ _ _ (λ _ r', r' = queued c a r Idle)); [done|].
  intros [] ? ->. unfold lock_bucket. wp_pure. see.
  exists (queued c a r Idle). split; [by apply m_same|].
  destruct (mi_thread _ _ _ _ _ HI t) as (_ & _ & _ & Hok). rewrite Hr in Hok.
  destruct Hok as (_ & _ & _ & _ & Hk & _). set (k := td_key (td s t)) in *. clearbody k.
  clear s g ρ ch HI Hr. wp_pure.
  apply (wp_bucket_lock _ _ _ _ _ _ _ (queued c a r (CvTimeL k))); [cbn; set_solver|by split_and!|by left|..].
  { intros s g (G1 & G2 & _ & G4). split; [done|]. split; [done|]. split; [done|].
    eapply cv_ok_pc; [exact G4|done|by left|done..]. }
  { intros s x. stays_coming. }
  wp_pure. see. cbn beta. destruct (Z.eqb_spec (td_key (td s t)) k) as [E|E].
  - exists (queued c a r (CvTimeK k)). split; [|wp_pure; rewrite (proj2 (Z.eqb_eq _ _) E); wp_pure; by apply HQ].
    apply (m_step s g ρ t (queued c a r (CvTimeL k))); try done; [by left|]. intros x. stays_coming.
  - exists (queued c a r (CvTimeL k)). split; [by apply m_same|]. wp_pure.
    rewrite (proj2 (Z.eqb_neq _ _) E). unfold unlock_bucket. wp_pure.
    apply (wp_bucket_unlock _ _ _ _ _ _ _ (queued c a r Idle)); [cbn; set_solver|cbn; set_solver|by split_and!|done|..].
    + intros s' g' (G1 & G2 & _ & G4). split; [done|]. split; [done|]. split; [done|].
      eapply cv_ok_pc; [exact G4|done|by left|done..].
    + intros s' x. stays_coming.
    + by wp_pure.
Qed.

(** The token, on the way out of [park]. *)
Definition woken (a : Z) (r : role) (tok : UnparkToken) : role :=
  if tok =? RawMutex.TOKEN_HANDOFF then acquired a r else at_pc r (Slow a).

Lemma wp_cv_token {A} t a (k : Z → iprog A) r Q :
  idle r → (∀ tok, mwp t (k tok) (woken a r tok) Q) → mwp t (Act AToken k) (at_pc r (Awake a)) Q.
Proof. intros [_ Hcv] Hk. by apply (wp_token _ _ _ t a). Qed.

(** [timed_out], and the end of [park]. *)
Lemma wp_cv_dequeued t c a k last r Q :
  cv c = true → idle r →
  Q (TimedOut, (false, negb (k =? c))) (at_pc r (Slow a)) →
  mwp t (Bind (wait_timed_out c (false, false) k last) (λ e,
           Bind (unlock_bucket (bucket_of k)) (λ _, Ret (TimedOut, e))))%prog
    (at_pc r (CvTimeD a k last)) Q.
Proof.
  intros Hc [Hpc Hcv] HQ.
  assert (Hend : ∀ p, (p = CvL k ∨ p = CvTimeD a k last) →
    mwp t (unlock_bucket (bucket_of k)) (at_pc r p)
      (λ _ r', mwp t (Ret (TimedOut, (false, negb (k =? c)))) r' Q)).
  { intros p Hp. unfold unlock_bucket. apply (wp_bucket_unlock _ _ _ _ _ _ _ (at_pc r (Slow a))).
    - destruct Hp as [-> | ->]; cbn; set_solver.
    - destruct Hp as [-> | ->]; cbn; set_solver.
    - destruct Hp as [-> | ->]; by split_and!.
    - by destruct Hp as [-> | ->].
    - intros s g (G1 & G2 & _). split_and!; try done. by apply cv_ok_none.
    - intros s x. unfold coming, goes. cbn. rewrite Hcv. by destruct Hp as [-> | ->]; intros [[]|[[|[|[]]] _]].
    - by wp_pure. }
  unfold wait_timed_out. wp_pure. rewrite negb_involutive. destruct ((k =? c) && last) eqn:E; wp_pure.
  2:{ apply Hend. by right. }
  apply andb_prop in E as [E%Z.eqb_eq El]. subst k last. unfold store. wp_pure. apply wp_act; [always|].
  intros s g ρ ch s' v Hr HI Hex. cbn in Hex. injection Hex as <- <-.
  destruct (mi_thread _ _ _ _ _ HI t) as (T1 & T2 & T3 & _). rewrite Hr in T1, T2, T3. cbn in T3.
  exists g, (at_pc r (CvL c)). split; [|wp_pure; apply Hend; by left].
  apply m_cond; rewrite ?Hr; try done; cbn; rewrite ?Hcv; try done.
  - set_solver.
  - by left.
  - apply keeps_plain; rewrite ?Hr; try done. by left.
  - split; [done|]. split; [done|]. split; [done|by apply cv_ok_none].
  - intros x _. unfold coming, goes. cbn. rewrite Hcv. by intros [[]|[[|[|[]]] _]].
  - intros u x Hu. by apply T3 in Hu.
Qed.

(** After the wait has expired, with the bucket of our key locked. *)
Lemma wp_cv_timed_out t c a k r Q :
  cv c = true → idle r → (∀ tok, Q (Unparked tok, (false, false)) (woken a r tok)) →
  Q (TimedOut, (false, negb (k =? c))) (at_pc r (Slow a)) →
  mwp t (Bind (Act ATimedOut Ret) (λ to : bool,
           if negb to then
             Bind (unlock_bucket (bucket_of k)) (λ _,
             Bind (Act AToken Ret) (λ token, Ret (Unparked token, (false, false))))
           else
             Bind (Act (ADequeue (bucket_of k) k) Ret) (λ was_last_thread : option bool,
               match was_last_thread with
               | Some was_last_thread =>
                   Bind (wait_timed_out c (false, false) k was_last_thread) (λ e,
                   Bind (unlock_bucket (bucket_of k)) (λ _, Ret (TimedOut, e)))
               | None => Panic "debug_assert!(!current.is_null())"
               end)))%prog (queued c a r (CvTimeK k)) Q.
Proof.
  intros Hc Hidle HU HT. pose proof Hidle as [Hpc Hcv]. wp_pure. apply wp_act; [always|].
  intros s g ρ ch s' v Hr HI Hex. cbn in Hex. injection Hex as <- <-.
  destruct (mi_thread _ _ _ _ _ HI t) as (T1 & T2 & T3 & T4). rewrite Hr in T1, T2, T3, T4. cbn in T3.
  destruct (td_parked (td s t)) eqn:Hp.
  - exists g, (queued c a r (CvTimeQ k)). split.
    { apply (m_step s g ρ t (queued c a r (CvTimeK k))); try done; [by left|]. intros x. stays_coming. }
    clear s g ρ ch HI Hr T1 T2 T3 T4 Hp. wp_pure. apply wp_act; [always|].
    intros s g ρ ch s' v Hr HI Hex. cbn in Hex.
    destruct (mi_thread _ _ _ _ _ HI t) as (T1 & T2 & T3 & _). rewrite Hr in T1, T2, T3. destruct T3 as [Hk Hp].
    assert (Hq : t ∈ bqueue s (bucket_of k)).
    { rewrite <- Hk. apply (lot_in_queue bucket_of _ _ _ _ t (mi_lot _ _ _ _ _ HI)); cbn;
        rewrite ?Hr, ?Hk; try done. cbn. set_solver. }
    unfold Spec.park_dequeue in Hex. rewrite decide_True in Hex by done.
    injection Hex as <- <-. set (l := filter _ _). set (last := negb _).
    exists g, (at_pc r (CvTimeD a k last)). split.
    { apply m_dequeue; rewrite ?Hr; try done; cbn; rewrite ?Hcv; [set_solver|done|].
      split; [done|]. split; [done|]. split; [|by apply cv_ok_none].
      cbn. intros Hl%negb_true_iff. apply (waiting_no_waiter _ _ _ l); [|done].
      intros u [Hu _]. cbn in Hu. by fn_simp. }
    clearbody last. wp_pure. pose proof (wp_cv_dequeued t c a k last r Q Hc Hidle HT) as H.
    by apply wp_bind_inv in H.
  - exists g, (at_pc r (CvAwakeL a k)). split.
    { apply (m_leave _ _ _ _ _ _ (queued c a r (CvTimeK k))); try done.
      - destruct T4 as (_ & _ & _ & _ & _ & Hcl). split; [done|]. split; [done|]. split; [|by apply cv_ok_none].
        intros Htok. by destruct (Hcl Hp Htok).
      - intros x _. unfold coming, goes. cbn. intros [[]|[[|[|[c' [= -> ->]]]] _]]; try done. by left. }
    wp_pure. unfold unlock_bucket. wp_pure.
    apply (wp_bucket_unlock _ _ _ _ _ _ _ (at_pc r (Awake a))); [cbn; set_solver|cbn; set_solver|by split_and!|done|..].
    + intros s' g' (G1 & G2 & G3 & _). split_and!; try done. by apply cv_ok_none.
    + intros s' x. unfold coming, goes. cbn. rewrite Hcv. intros [?|[[|[|[]]] _]]; try done. by left.
    + wp_pure. apply wp_cv_token; [done|]. intros tok. wp_pure. apply HU.
Qed.

(** [park], as [wait_until_internal] calls it. *)
Lemma wp_cv_park t c a timeout r Q :
  cv c = true → cv a = false → a ≠ 0 → idle r → a ∈ held r → guards r ⊆ filter (λ x, x ≠ a) (held r) →
  Q (Invalid, (true, false)) r →
  (∀ tok, Q (Unparked tok, (false, false)) (woken a (released a r) tok)) →
  (∀ b, is_Some timeout → Q (TimedOut, (false, b)) (at_pc (released a r) (Slow a))) →
  mwp t (park bucket_of c (wait_validate c a) (RawMutex.unlock bucket_of a) (wait_timed_out c)
           DEFAULT_PARK_TOKEN timeout (false, false)) r Q.
Proof.
  intros Hc Ha H0 Hidle Hin Hg HI' HU HT. pose proof Hidle as [Hpc Hcv]. unfold park, lock_bucket. wp_pure.
  apply (wp_bucket_lock _ _ _ _ _ _ _ (at_pc r (CvL c))); [pc_side Hpc|pc_side Hpc|left; by rewrite Hpc|..].
  { intros s g (G1 & G2 & _). split_and!; try done. by apply cv_ok_none. }
  { intros s x. unfold coming, goes. cbn. rewrite Hpc, Hcv. by intros [[]|[[|[|[]]] _]]. }
  wp_pure. apply wp_wait_validate; [done..| |]; wp_pure.
  { intros x Hx. unfold unlock_bucket. wp_pure.
    apply (wp_bucket_unlock _ _ _ _ _ _ _ r); [cbn; set_solver|pc_side Hpc|pc_side Hpc|done|..|by wp_pure].
    - intros s g (G1 & G2 & _). split; [done|]. split; [done|]. rewrite Hpc. split; [done|by apply cv_ok_none].
    - intros s y. unfold coming, goes. cbn. rewrite Hpc, Hcv. by intros [[]|[[|[|[]]] _]]. }
  apply wp_act; [always|]. intros s g ρ ch s' v Hr HI Hex. cbn in Hex. injection Hex as <- <-.
  destruct (mi_thread _ _ _ _ _ HI t) as (T1 & T2 & T3 & _). rewrite Hr in T1, T2, T3. destruct T3 as [_ Hm].
  exists g, (queued c a r (CvL c)). split.
  { apply m_enqueue; rewrite ?Hr; try done; cbn; rewrite ?Hcv; try done; [set_solver|..].
    - intros x. unfold coming, goes. cbn. rewrite Hcv. by intros [[]|[[|[|[]]] _]].
    - congruence.
    - by intros c' a' [= -> ->].
    - split; [done|]. split; [done|]. split; [done|]. split_and!; try done; cbn; fn_simp; by auto. }
  clear s g ρ ch Hr HI T1 T2 Hm. unfold unlock_bucket. wp_pure.
  apply (wp_bucket_unlock _ _ _ _ _ _ _ (queued c a r Idle)); [cbn; set_solver|cbn; set_solver|by split_and!|done|..].
  { intros s g (G1 & G2 & _ & G4). split; [done|]. split; [done|]. split; [done|].
    eapply cv_ok_pc; [exact G4|done|by left|done..]. }
  { intros s x. stays_coming. }
  wp_pure. apply wp_unlock; [done..|]. change (released a (queued c a r Idle)) with (queued c a (released a r) Idle).
  assert (Hidle' : idle (released a r)) by (by split). set (r1 := released a r) in *. clearbody r1.
  clear Hidle Hin Hg HI' Hpc Hcv r. wp_pure. apply wp_act.
  { intros s g ρ _ _. destruct (td_parked (td s t)) eqn:E; [right; right; right; split; [done|right; by eauto]|].
    left. exists 0. cbn. rewrite E. by eexists. }
  intros s g ρ ch s' v Hr HI Hex. cbn in Hex.
  destruct (td_parked (td s t)) eqn:Hp; cbn [negb] in Hex.
  - destruct (deadline_passed timeout ch) eqn:Hd; [|done]. injection Hex as <- <-.
    assert (Hto : is_Some timeout) by (destruct timeout; [by eexists|done]).
    exists g, (queued c a r1 Idle). split; [by apply m_same|]. wp_pure.
    apply wp_cv_lock_checked. intros k Hk. cbn beta iota zeta. apply wp_cv_timed_out; [done|done|exact HU|by apply HT].
  - injection Hex as <- <-. exists g, (at_pc r1 (Awake a)). split.
    { pose proof Hidle' as [Hpc Hcv].
      destruct (mi_thread _ _ _ _ _ HI t) as (T1 & T2 & _ & T4). rewrite Hr in T1, T2, T4.
      destruct T4 as (_ & _ & _ & _ & _ & Hcl).
      apply (m_leave _ _ _ _ _ _ (queued c a r1 Idle)); try done.
      - split; [done|]. split; [done|]. split; [|by apply cv_ok_none]. intros Htok. by destruct (Hcl Hp Htok).
      - intros x _. unfold coming, goes. cbn. intros [[]|[[|[|[c' [= -> ->]]]] _]]; try done. by left. }
    wp_pure. apply wp_cv_token; [done|]. intros tok. wp_pure. apply HU.
Qed.

Lemma wp_wait_until_internal t c a timeout r (Q : bool → role → Prop) :
  cv c = true → cv a = false → a ≠ 0 → idle r → a ∈ held r → guards r ⊆ filter (λ x, x ≠ a) (held r) → panic_role r →
  (∀ b, (is_Some timeout ∨ b = false) → Q b (acquired a (released a r))) →
  mwp t (wait_until_internal bucket_of c a timeout) r Q.
Proof.
  intros Hc Ha H0 Hidle Hin Hg Hp HQ. unfold wait_until_internal. wp_pure.
  assert (Hlock : ∀ b, (is_Some timeout ∨ b = false) →
    mwp t (RawMutex.lock bucket_of a) (at_pc (released a r) (Slow a)) (λ _ r', mwp t (Ret b) r' Q)).
  { intros b Hb. apply wp_lock; [done|apply slow_ready, Hidle|]. wp_pure. by apply HQ. }
  apply wp_cv_park; [done..| | |]; wp_pure.
  - apply wp_panic. by split.
  - intros tok. unfold woken. destruct (Z.eqb_spec tok RawMutex.TOKEN_HANDOFF) as [->|Hne].
    + rewrite bool_decide_true by done. wp_pure. apply HQ. by right.
    + rewrite bool_decide_false by congruence. wp_pure. apply Hlock. by right.
  - intros b Hto. wp_pure. apply Hlock. by left.
Qed.

(** ** The two buckets of a notification *)

(** Not waiting, the thread is not coming anywhere. *)
Lemma not_coming s t r p a :
  rcv r = None → match p with NtF _ | NtL _ _ | NtV _ _ | NtR _ _ | NtZ _ _ | NtZR _ _ | NtQ _ _ _ _ | NtP _ _ _ | NtT _ _ _ | Idle => True | _ => False end →
  ¬ coming s a t (at_pc r p).
Proof. intros Hcv Hp. unfold coming, goes. cbn. rewrite Hcv. by destruct p; try done; intros [[]|[[|[|[]]] _]]. Qed.

Lemma ok_none s g t r r' :
  thread_ok s g t r → rcv r' = None → guards r' = guards r → held r' = held r →
  pc_ok bucket_of cv s g t (held r') (rpc r') → thread_ok s g t r'.
Proof. intros (G1 & G2 & _) Hcv Eg Eh Hp. split; [by rewrite Eg, Eh|]. split; [by rewrite Eh|]. split; [done|by apply cv_ok_none]. Qed.

Lemma wp_lock_pair t c a r Q :
  idle r → Q (bucket_of c, bucket_of a) (at_pc r (NtL c a)) →
  mwp t (lock_bucket_pair bucket_of c a) r Q.
Proof.
  intros Hidle HQ. pose proof Hidle as [Hpc Hcv]. unfold lock_bucket_pair.
  assert (Er : r = at_pc r Idle) by (symmetry; by apply at_pc_idle).
  assert (H1 : ∀ b (k : unit → iprog (nat * nat)), mwp t (k tt) (at_pc r (NtF b)) Q →
    mwp t (Act (ABucketLock b) k) r Q).
  { intros b k Hk. apply (wp_bucket_lock _ _ _ _ _ _ _ (at_pc r (NtF b))); [pc_side Hpc|pc_side Hpc|left; by rewrite Hpc|..|done].
    - intros s g G. by eapply ok_none.
    - intros s x Hx. rewrite Er in Hx. by apply not_coming in Hx. }
  assert (H2 : ∀ b b' (k : unit → iprog (nat * nat)), (b < b')%nat →
    (b = bucket_of c ∧ b' = bucket_of a ∨ b = bucket_of a ∧ b' = bucket_of c) →
    mwp t (k tt) (at_pc r (NtL c a)) Q → mwp t (Act (ABucketLock b') k) (at_pc r (NtF b)) Q).
  { intros b b' k Hlt Hb Hk. apply (wp_bucket_lock _ _ _ _ _ _ _ (at_pc r (NtL c a))); [cbn; set_solver|by split_and!|right; by exists b|..|done].
    - intros s g G. by eapply ok_none.
    - intros s x Hx. by apply not_coming in Hx. }
  destruct (Nat.leb_spec (bucket_of c) (bucket_of a)) as [Hle|Hle]; destruct (Nat.eqb_spec (bucket_of c) (bucket_of a)) as [He|He]; try lia.
  - apply (wp_bucket_lock _ _ _ _ _ _ _ (at_pc r (NtL c a))); [|pc_side Hpc|left; by rewrite Hpc|..].
    + cbn. rewrite Hpc. cbn. rewrite He. set_solver.
    + intros s g G. by eapply ok_none.
    + intros s x Hx. rewrite Er in Hx. by apply not_coming in Hx.
    + rewrite He in HQ |- *. by wp_pure.
  - apply H1. destruct (Nat.ltb_spec (bucket_of c) (bucket_of a)); [|lia]. apply H2; [lia|auto|]. by wp_pure.
  - apply H1. destruct (Nat.ltb_spec (bucket_of c) (bucket_of a)); [lia|]. apply H2; [lia|auto|]. by wp_pure.
Qed.

(** The roles from which a notification unlocks both. *)
Definition unlockable c a (p : pc) : Prop :=
  pc_hold p = [bucket_of c; bucket_of a] ∧ pc_cust p = [] ∧ pc_wait p = false ∧ plain_from p = true ∧
  ∀ s t r x, rcv r = None → ¬ coming s x t (at_pc r p).

Lemma wp_unlock_pair t c a p r Q :
  idle r → unlockable c a p → Q tt r →
  mwp t (unlock_bucket_pair (bucket_of c) (bucket_of a)) (at_pc r p) Q.
Proof.
  intros Hidle (P1 & P2 & P3 & P4 & P5) HQ. pose proof Hidle as [Hpc Hcv]. unfold unlock_bucket_pair, unlock_bucket. wp_pure.
  destruct (Nat.eqb_spec (bucket_of c) (bucket_of a)) as [He|He].
  - apply (wp_bucket_unlock _ _ _ _ _ _ _ r).
    + cbn. rewrite P1. set_solver.
    + cbn. rewrite P1, Hpc, He. cbn. set_solver.
    + unfold same_but_hold. cbn. rewrite P2, P3, Hpc. by split_and!.
    + done.
    + intros s g G. eapply ok_none; [exact G|done..|by rewrite Hpc].
    + intros s x Hx. by apply P5 in Hx.
    + by wp_pure.
  - apply (wp_bucket_unlock _ _ _ _ _ _ _ (at_pc r (NtF (bucket_of a)))).
    + cbn. rewrite P1. set_solver.
    + cbn. rewrite P1. set_solver.
    + unfold same_but_hold. cbn. rewrite P2, P3. by split_and!.
    + done.
    + intros s g G. by eapply ok_none.
    + intros s x Hx. by apply P5 in Hx.
    + wp_pure. apply (wp_bucket_unlock _ _ _ _ _ _ _ r); [cbn; set_solver|pc_side Hpc|pc_side Hpc|done|..|by wp_pure].
      * intros s g G. eapply ok_none; [exact G|done..|by rewrite Hpc].
      * intros s x Hx. by apply not_coming in Hx.
Qed.

(** ** Marking the mutex *)

Definition before_mark (all : bool) c a : pc := if all then NtZ c a else NtV c a.
Definition marked (all : bool) c a : pc := if all then NtZR c a else NtR c a.

Lemma wp_mark_parked_if_locked t c a all r (Q : bool → role → Prop) :
  idle r → cv c = true → cv a = false →
  Q true (at_pc r (marked all c a)) → Q false (at_pc r (before_mark all c a)) →
  mwp t (RawMutex.mark_parked_if_locked a) (at_pc r (before_mark all c a)) Q.
Proof.
  intros [Hpc Hcv] Hc Ha HT HF. unfold RawMutex.mark_parked_if_locked, load. wp_pure. apply wp_load; [done|].
  intros v Hv. wp_pure. apply (wp_iter _ _ _ _ _ (λ v r', r' = at_pc r (before_mark all c a) ∧ 0 ≤ v ≤ 3)); [done|].
  clear v Hv. intros v ? [-> Hv]. destruct (has_bits v RawMutex.LOCKED_BIT) eqn:Hl; wp_pure; [|done].
  unfold compare_exchange_weak. wp_pure. apply wp_act; [always|]. intros s g ρ ch s' x Hr HI Hex. cbn in Hex.
  pose proof (mi_word _ _ _ _ _ HI a Ha) as Hw.
  destruct (negb (ch =? 0)); [|destruct (Z.eqb_spec (mem s a) v) as [<-|]]; injection Hex as <- <-.
  1,3: exists g, (at_pc r (before_mark all c a)); split; [by apply m_same|]; by wp_pure.
  assert (E3 : Z.lor (mem s a) RawMutex.PARKED_BIT = 3).
  { destruct (word_cases _ Hw) as [E|[E|[E|E]]]; rewrite E in Hl |- *; done. }
  exists (<[a := g a]> g), (at_pc r (marked all c a)). split; [|by wp_pure]. rewrite E3.
  pose proof (mi_thread _ _ _ _ _ HI t) as (T1 & T2 & T3 & _). rewrite Hr in T1, T2, T3.
  assert (Hne : a ≠ c) by congruence.
  apply m_mem; cbn; rewrite ?Hr; try done; try (by destruct all).
  - rewrite <- (mi_locked _ _ _ _ _ HI a Ha), Hl. by split.
  - by left.
  - auto.
  - intros _. by left.
  - split; [by rewrite Hr|]. split; [left; by rewrite Hr|]. split; [by destruct all; intros w ?%elem_of_nil|].
    split; [rewrite Hr; by destruct all|]. rewrite Hr. intros c' x [E|E]; destruct all; try done; left; right;
      cbn in *; congruence.
  - split; [done|]. split; [intros y Hy; rewrite fn_insert_id; auto|]. split; [|by apply cv_ok_none].
    destruct all; cbn in T3 |- *; destruct T3 as [? E]; split_and!; try done; by fn_simp.
  - intros y _ Hy. destruct all; by apply not_coming in Hy.
  - intros Hn. auto.
Qed.

(** ** [ARequeue] *)

Definition requeues c a (op : RequeueOp) (p : pc) : Prop :=
  (op = UnparkOne ∧ p = NtV c a) ∨ (op = RequeueOne ∧ p = NtR c a) ∨
  (op = RequeueAll ∧ p = NtZR c a) ∨ (op = UnparkOneRequeueRest ∧ p = NtZ c a).

(** The mutex is still to be marked when threads have moved to it and one is
    woken. *)
Definition requeued_pc c a (op : RequeueOp) (wk : option tid) (res : UnparkResult) : pc :=
  match wk with
  | Some w =>
      if bool_decide (op = UnparkOneRequeueRest) && negb (requeued_threads res =? 0) then NtP c a w
      else NtQ c a wk (have_more_threads res)
  | None => NtQ c a None (have_more_threads res)
  end.

Lemma wp_requeue {A} t c a op p (k : option tid * UnparkResult → iprog A) r Q :
  idle r → cv c = true → cv a = false → requeues c a op p →
  (∀ wk res, (wk = None → op = UnparkOneRequeueRest → requeued_threads res = 0) →
     mwp t (k (wk, res)) (at_pc r (requeued_pc c a op wk res)) Q) →
  mwp t (Act (ARequeue (bucket_of c) (bucket_of a) c a op) k) (at_pc r p) Q.
Proof.
  intros [Hpc Hcv] Hc Ha Hop Hk.
  assert (Hp : pc_hold p = [bucket_of c; bucket_of a] ∧ pc_wait p = false ∧ pc_cust p = [] ∧
    (∀ c x w, p ≠ NtP c x w) ∧ ∀ s x, ¬ coming s x t (at_pc r p)).
  { destruct Hop as [[_ ->]|[[_ ->]|[[_ ->]|[_ ->]]]]; split_and!; try done; intros s x Hx; by apply not_coming in Hx. }
  destruct Hp as (P1 & P2 & P3 & P4 & P5). apply wp_act.
  { intros s g ρ _ _. left. exists 0.
    destruct (Spec.unpark_requeue (key_of s) op c (bqueue s (bucket_of c))) as [[[wk m] rest] more] eqn:E.
    destruct (requeue_exec t 0 s (bucket_of c) (bucket_of a) c a op wk m rest more E) as (s' & fair & -> & _). by eexists. }
  intros s g ρ ch s' v Hr HI Hex.
  destruct (Spec.unpark_requeue (key_of s) op c (bqueue s (bucket_of c))) as [[[wk m] rest] more] eqn:E.
  destruct (requeue_exec t ch s (bucket_of c) (bucket_of a) c a op wk m rest more E) as (s1 & fair & Hex' & Em & Eb & Eq & El & Ed).
  rewrite Hex in Hex'. injection Hex' as -> ->. clear Hex.
  set (res := MkUnparkResult _ _ more fair). exists g, (at_pc r (requeued_pc c a op wk res)).
  destruct (Spec.requeue_perm _ _ _ _ _ _ _ _ E) as (_ & _ & _ & F1 & F2 & F3 & F4).
  assert (Hn : requeued_threads res = 0 → m = []) by (cbn; destruct m; [done|cbn; lia]).
  assert (Hb : bucket_of c ∈ pc_hold (rpc (ρ t))) by (rewrite Hr; cbn; rewrite P1; set_solver).
  pose proof (mi_thread _ _ _ _ _ HI t) as (_ & _ & T3 & _). rewrite Hr in T3. cbn in T3.
  split.
  - assert (Er : at_pc r (requeued_pc c a op wk res) = at_pc (ρ t) (requeued_pc c a op wk res)) by by rewrite Hr.
    rewrite Er. eapply (m_requeue _ _ s g ρ t c a op wk m rest more); try done; rewrite ?Hr; try done.
    + cbn. by rewrite P2, Hcv.
    + intros u x Hu Ex. destruct (cv_waiter _ _ _ _ _ c u HI Hu Hc) as (y & Ey & _ & Hy).
      assert (Hz : (mem s c = 0 ∧ ∀ y, cleared p c y → y = a) ∨ (mem s c = a ∧ ∀ y, ¬ cleared p c y)).
      { destruct Hop as [[_ ->]|[[_ ->]|[[_ ->]|[_ ->]]]]; cbn in T3;
          [right|right|left|left]; (split; [tauto|]); by intros z [[=]|[=]]. }
      destruct (mi_cvq _ _ _ _ _ HI c u x Hu Ex) as [Hx|[v Hv]]; [destruct Hz as [[? _]|[? _]]; congruence|].
      assert (Hh : bucket_of c ∈ pc_hold (rpc (ρ v))) by (destruct Hv as [-> | ->]; cbn; set_solver).
      pose proof (lot_hold_unique bucket_of _ _ _ _ _ _ _ (mi_lot _ _ _ _ _ HI) Hb Hh) as <-.
      rewrite Hr in Hv. cbn in Hv. destruct Hz as [[_ Hz]|[_ Hz]]; [auto|by apply Hz in Hv].
    + unfold requeued_pc. destruct wk as [w|]; [|by left]. case_match; [right; by exists w|by left].
    + unfold requeued_pc. destruct Hop as [[-> ->]|[[-> ->]|[[-> ->]|[-> ->]]]]; cbn in T3.
      * right; left. destruct F3 as [?|?]; [done|done|]. by apply F2.
      * left; tauto.
      * left; tauto.
      * right. destruct (Z.eqb_spec (requeued_threads res) 0) as [E0|E0]; [left; by apply Hn|].
        destruct wk as [w|]; [|left; by apply F2]. right. exists w. by rewrite bool_decide_true.
    + intros c' x Hx. destruct Hop as [[-> ->]|[[-> ->]|[[-> ->]|[-> ->]]]]; destruct Hx as [[=]|[=]];
        (split; [done|]); by apply F4.
  - apply Hk. intros -> ->. cbn. by rewrite F2.
Qed.

(** ** The end of a notification *)

Lemma wp_notify_wake t c a w more (res : UnparkResult) r Q :
  idle r → cv c = true → Q res r →
  mwp t (Act (ASetToken w RawMutex.TOKEN_NORMAL) (λ _, Act (AUnparkLock w) (λ _,
           Bind (unlock_bucket_pair (bucket_of c) (bucket_of a)) (λ _, Act (AWake w) (λ _, Ret res))))
         : iprog UnparkResult) (at_pc r (NtQ c a (Some w) more)) Q.
Proof.
  intros Hidle Hc HQ. pose proof Hidle as [Hpc Hcv]. apply wp_act; [always|]. intros s g ρ ch s' x Hr HI Hex.
  cbn in Hex. injection Hex as <- <-. exists g, (at_pc r (NtT c a w)). split.
  { destruct (mi_thread _ _ _ _ _ HI t) as (T1 & T2 & T3 & _). rewrite Hr in T1, T2, T3. destruct T3 as [Hk _].
    apply (m_set_token _ _ s g ρ t (at_pc r (NtT c a w)) w RawMutex.TOKEN_NORMAL); rewrite ?Hr; try done.
    - set_solver.
    - intros y Hy. by apply not_coming in Hy.
    - apply keeps_plain; rewrite ?Hr; try done. by left.
    - split; [done|]. split; [done|]. split; [|by apply cv_ok_none]. cbn. fn_simp. cbn. split; [by apply Hk|done]. }
  wp_pure. apply wp_act; [always|]. intros s1 g1 ρ1 ch1 s1' x Hr1 HI1 Hex. cbn in Hex. injection Hex as <- <-.
  exists g1, (at_pc r (NtL c a)). split.
  { destruct (mi_thread _ _ _ _ _ HI1 t) as (T1 & T2 & T3 & _). rewrite Hr1 in T1, T2, T3. destruct T3 as [Hk Htok].
    apply m_unpark_lock; rewrite ?Hr1; try done.
    - intros y Hy. by apply not_coming in Hy.
    - apply keeps_plain; rewrite ?Hr1; try done. by left.
    - split; [done|]. split; [done|]. split; [done|by apply cv_ok_none]. }
  wp_pure. apply wp_unlock_pair; [done| |].
  { split_and!; try done. intros s2 t2 r2 y Hcv2 Hy. by apply not_coming in Hy. }
  apply wp_look; [by intros; simplify_eq/=|by eexists|]. intros. by wp_pure.
Qed.

(** Both callbacks return [TOKEN_NORMAL], with the queues and the words done. *)
Lemma wp_notify_end t c a wk more (res : UnparkResult) r Q :
  idle r → cv c = true → Q res r →
  mwp t (match wk with
         | Some w =>
             Act (ASetToken w RawMutex.TOKEN_NORMAL) (λ _, Act (AUnparkLock w) (λ _,
             Bind (unlock_bucket_pair (bucket_of c) (bucket_of a)) (λ _, Act (AWake w) (λ _, Ret res))))
         | None => Bind (unlock_bucket_pair (bucket_of c) (bucket_of a)) (λ _, Ret res)
         end : iprog UnparkResult) (at_pc r (NtQ c a wk more)) Q.
Proof.
  intros Hidle Hc HQ. destruct wk as [w|]; [by apply wp_notify_wake|]. wp_pure. apply wp_unlock_pair; [done| |].
  - split_and!; try done. intros s2 t2 r2 y Hcv2 Hy. by apply not_coming in Hy.
  - by wp_pure.
Qed.

Lemma wp_notify_one_callback t c a op wk res r (Q : UnparkToken → role → Prop) :
  idle r → cv c = true → cv a = false →
  Q RawMutex.TOKEN_NORMAL (at_pc r (NtQ c a wk (have_more_threads res))) →
  mwp t (notify_one_callback c tt op res) (at_pc r (NtQ c a wk (have_more_threads res))) Q.
Proof.
  intros [Hpc Hcv] Hc Ha HQ. unfold notify_one_callback, store.
  destruct (have_more_threads res) eqn:E; wp_pure; [done|]. apply wp_act; [always|].
  intros s g ρ ch s' x Hr HI Hex. cbn in Hex. injection Hex as <- <-.
  destruct (mi_thread _ _ _ _ _ HI t) as (T1 & T2 & T3 & _). rewrite Hr in T1, T2, T3. destruct T3 as [Hk Hn].
  exists g, (at_pc r (NtQ c a wk false)). split; [|by wp_pure].
  apply m_cond; rewrite ?Hr; try done; cbn; rewrite ?Hcv; try done.
  - set_solver.
  - by left.
  - apply keeps_plain; rewrite ?Hr; try done. by left.
  - split; [done|]. split; [done|]. split; [done|by apply cv_ok_none].
  - intros u y Hu. by apply Hn in Hu.
Qed.

Lemma wp_notify_all_callback t c a op wk res r (Q : UnparkToken → role → Prop) :
  idle r → cv c = true → cv a = false →
  (wk = None → op = UnparkOneRequeueRest → requeued_threads res = 0) →
  (∀ more, Q RawMutex.TOKEN_NORMAL (at_pc r (NtQ c a wk more))) →
  mwp t (notify_all_callback a tt op res) (at_pc r (requeued_pc c a op wk res)) Q.
Proof.
  intros [Hpc Hcv] Hc Ha Hn HQ. unfold notify_all_callback, requeued_pc.
  destruct (bool_decide (op = UnparkOneRequeueRest)) eqn:Eop; wp_pure; [|by destruct wk; wp_pure].
  apply bool_decide_eq_true in Eop. destruct (Z.eqb_spec (requeued_threads res) 0) as [E|E]; wp_pure; [by destruct wk|].
  destruct wk as [w|]; [|by destruct E; apply Hn]. unfold RawMutex.mark_parked, fetch_or, rmw. wp_pure.
  apply wp_act; [always|]. intros s g ρ ch s' x Hr HI Hex. cbn in Hex. injection Hex as <- <-.
  pose proof (mi_word _ _ _ _ _ HI a Ha) as Hw.
  destruct (mi_thread _ _ _ _ _ HI t) as (T1 & T2 & T3 & _). rewrite Hr in T1, T2, T3. cbn in T3.
  exists (<[a := g a]> g), (at_pc r (NtQ c a (Some w) true)). split; [|wp_pure; apply HQ].
  assert (Hm : has_bits (Z.lor (mem s a) RawMutex.PARKED_BIT) RawMutex.PARKED_BIT = true).
  { by destruct (word_cases _ Hw) as [-> |[-> |[-> | ->]]]. }
  apply m_mem; cbn; rewrite ?Hr; try done.
  - destruct (word_cases _ Hw) as [-> |[-> |[-> | ->]]]; vm_compute; split; discriminate.
  - rewrite <- (mi_locked _ _ _ _ _ HI a Ha). by destruct (word_cases _ Hw) as [-> |[-> |[-> | ->]]].
  - by left.
  - auto.
  - intros ->. by left.
  - split; [by rewrite Hr|]. split; [left; by rewrite Hr|]. split; [done|]. split.
    + rewrite Hr. intros c' y z [= -> -> ->]. right. cbn. by fn_simp.
    + rewrite Hr. by intros c' y [[=]|[=]].
  - split; [done|]. split; [intros y Hy; rewrite fn_insert_id; auto|]. split; [|by apply cv_ok_none].
    cbn. split; [|done]. by intros y [= <-].
  - intros y _ Hy. by apply not_coming in Hy.
  - intros Hg. auto.
Qed.

Lemma wp_notify_one_validate t c a r (Q : RequeueOp * unit → role → Prop) :
  idle r → cv c = true → cv a = false →
  Q (Abort, tt) (at_pc r (NtL c a)) →
  (∀ op p, (op = UnparkOne ∧ p = NtV c a ∨ op = RequeueOne ∧ p = NtR c a) → Q (op, tt) (at_pc r p)) →
  mwp t (notify_one_validate c a tt) (at_pc r (NtL c a)) Q.
Proof.
  intros Hidle Hc Ha HA HQ. pose proof Hidle as [Hpc Hcv]. unfold notify_one_validate, load. wp_pure. see.
  destruct (decide (mem s c = a)) as [E|E].
  - exists (at_pc r (NtV c a)). split.
    { apply (m_step s g ρ t (at_pc r (NtL c a))); try done; [by right|]. intros y Hy. by apply not_coming in Hy. }
    wp_pure. rewrite E, Z.eqb_refl. wp_pure. apply (wp_mark_parked_if_locked t c a false); try done; wp_pure; apply HQ; auto.
  - exists (at_pc r (NtL c a)). split; [by apply m_same|]. wp_pure. rewrite (proj2 (Z.eqb_neq _ _) E). by wp_pure.
Qed.

Lemma wp_notify_all_validate t c a r (Q : RequeueOp * unit → role → Prop) :
  idle r → cv c = true → cv a = false →
  Q (Abort, tt) (at_pc r (NtL c a)) →
  (∀ op p, (op = UnparkOneRequeueRest ∧ p = NtZ c a ∨ op = RequeueAll ∧ p = NtZR c a) → Q (op, tt) (at_pc r p)) →
  mwp t (notify_all_validate c a tt) (at_pc r (NtL c a)) Q.
Proof.
  intros Hidle Hc Ha HA HQ. pose proof Hidle as [Hpc Hcv]. unfold notify_all_validate, load. wp_pure. see.
  destruct (decide (mem s c = a)) as [E|E].
  2:{ exists (at_pc r (NtL c a)). split; [by apply m_same|]. wp_pure. rewrite (proj2 (Z.eqb_neq _ _) E). by wp_pure. }
  exists (at_pc r (NtV c a)). split.
  { apply (m_step s g ρ t (at_pc r (NtL c a))); try done; [by right|]. intros y Hy. by apply not_coming in Hy. }
  wp_pure. rewrite E, Z.eqb_refl. clear s g ρ ch HI Hr E. unfold store. wp_pure. apply wp_act; [always|].
  intros s g ρ ch s' x Hr HI Hex. cbn in Hex. injection Hex as <- <-.
  destruct (mi_thread _ _ _ _ _ HI t) as (T1 & T2 & T3 & _). rewrite Hr in T1, T2, T3. destruct T3 as [_ E].
  exists g, (at_pc r (NtZ c a)). split.
  - apply m_cond; rewrite ?Hr; try done; cbn; rewrite ?Hcv; try done.
    + set_solver.
    + by left.
    + apply keeps_plain; rewrite ?Hr; try done. by left.
    + split; [done|]. split; [done|]. split; [|by apply cv_ok_none]. cbn. by fn_simp.
    + intros y _ Hy. by apply not_coming in Hy.
    + intros u y Hu Ey. right. left. destruct (queue_word s g ρ t c u y HI) as [Hx _]; [|..|done|done|congruence].
      * rewrite Hr. cbn. set_solver.
      * rewrite Hr. by intros z [[=]|[=]].
  - wp_pure. apply (wp_mark_parked_if_locked t c a true); try done; wp_pure; apply HQ; auto.
Qed.

Lemma wp_notify_one t c r (Q : bool → role → Prop) :
  cv c = true → idle r → (∀ b, Q b r) → mwp t (notify_one bucket_of c) r Q.
Proof.
  intros Hc Hidle HQ. pose proof Hidle as [Hpc Hcv]. unfold notify_one, load. wp_pure. see.
  destruct (mi_cond _ _ _ _ _ HI c Hc) as [_ Hw]. exists r. split; [by apply m_same|].
  set (a := mem s c) in *. clearbody a. clear s g ρ ch HI Hr. wp_pure.
  destruct (Z.eqb_spec a 0) as [E|E]; wp_pure; [done|]. destruct Hw as [?|Ha]; [done|].
  unfold notify_one_slow, unpark_requeue. wp_pure. apply wp_lock_pair; [done|]. cbn beta iota. wp_pure.
  apply wp_notify_one_validate; try done; wp_pure.
  { rewrite bool_decide_true by done. wp_pure. apply wp_unlock_pair; [done| |].
    - split_and!; try done. intros s2 t2 r2 y Hcv2 Hy. by apply not_coming in Hy.
    - wp_pure. by wp_pure. }
  intros op p Hop. rewrite bool_decide_false by (by destruct Hop as [[-> _]|[-> _]]). wp_pure.
  eapply wp_requeue; try done; [unfold requeues; tauto|]. intros wk res _. wp_pure.
  assert (Ep : requeued_pc c a op wk res = NtQ c a wk (have_more_threads res)).
  { unfold requeued_pc. destruct wk; [|done]. by rewrite bool_decide_false by (by destruct Hop as [[-> _]|[-> _]]). }
  rewrite Ep. apply wp_notify_one_callback; [done..|]. wp_pure. apply wp_notify_end; [done..|]. by wp_pure.
Qed.

Lemma wp_notify_all t c r (Q : Z → role → Prop) :
  cv c = true → idle r → (∀ n, Q n r) → mwp t (notify_all bucket_of c) r Q.
Proof.
  intros Hc Hidle HQ. pose proof Hidle as [Hpc Hcv]. unfold notify_all, load. wp_pure. see.
  destruct (mi_cond _ _ _ _ _ HI c Hc) as [_ Hw]. exists r. split; [by apply m_same|].
  set (a := mem s c) in *. clearbody a. clear s g ρ ch HI Hr. wp_pure.
  destruct (Z.eqb_spec a 0) as [E|E]; wp_pure; [done|]. destruct Hw as [?|Ha]; [done|].
  unfold notify_all_slow, unpark_requeue. wp_pure. apply wp_lock_pair; [done|]. cbn beta iota. wp_pure.
  apply wp_notify_all_validate; try done; wp_pure.
  { rewrite bool_decide_true by done. wp_pure. apply wp_unlock_pair; [done| |].
    - split_and!; try done. intros s2 t2 r2 y Hcv2 Hy. by apply not_coming in Hy.
    - wp_pure. by wp_pure. }
  intros op p Hop. rewrite bool_decide_false by (by destruct Hop as [[-> _]|[-> _]]). wp_pure.
  eapply wp_requeue; try done; [unfold requeues; tauto|]. intros wk res Hn. wp_pure.
  apply wp_notify_all_callback; [done..|]. intros more. wp_pure. apply wp_notify_end; [done..|]. by wp_pure.
Qed.

(** ** The operations *)

Lemma wp_cv_wait t c a r (Q : unit → role → Prop) :
  cv c = true → cv a = false → a ≠ 0 → idle r → a ∈ held r → guards r ⊆ filter (λ x, x ≠ a) (held r) → panic_role r →
  Q tt (acquired a (released a r)) → mwp t (wait bucket_of c a) r Q.
Proof.
  intros. unfold wait. wp_pure. apply wp_wait_until_internal; try done; intros b _; by wp_pure.
Qed.

Lemma wp_wait_until t c a d r (Q : bool → role → Prop) :
  cv c = true → cv a = false → a ≠ 0 → idle r → a ∈ held r → guards r ⊆ filter (λ x, x ≠ a) (held r) → panic_role r →
  (∀ b, Q b (acquired a (released a r))) → mwp t (wait_until bucket_of c a d) r Q.
Proof. intros. unfold wait_until. apply wp_wait_until_internal; auto. Qed.

Lemma wp_wait_for t c a d r (Q : bool → role → Prop) :
  cv c = true → cv a = false → a ≠ 0 → idle r → a ∈ held r → guards r ⊆ filter (λ x, x ≠ a) (held r) → panic_role r →
  (∀ b, Q b (acquired a (released a r))) → mwp t (wait_for bucket_of c a d) r Q.
Proof.
  intros. unfold wait_for, to_deadline, now. wp_pure. apply wp_look; [by intros; simplify_eq/=|by eexists|].
  intros s g ρ ch n _ _ _. wp_pure. apply wp_wait_until_internal; auto.
Qed.
End proof.
