(* ===== verification/CondvarSafety.v ===== *)
(** * Condition variables and mutexes together

    Threads that lock and unlock mutexes, wait for condition variables, also with
    timeouts, and notify them, in any interleaving: mutual exclusion, no lost
    wake-up and no lost notification. *)

From S2P Require Import Prelude Conc LotTypes BucketQueue ParkingLot LotInv RawMutex RawMutexInv RawMutexProof RawCondvar CondvarProof CondvarNotify.
Import RawCondvar.
Local Open Scope Z_scope.

(** A client waits with a mutex that it owns, as the contract of [wait] asks. *)
Inductive cop :=
| CMutex (o : op)
| CWait (c a : Z) | CWaitUntil (c a d : Z) | CWaitFor (c a d : Z)
| CNotifyOne (c : Z) | CNotifyAll (c : Z).

Section clients.
Context (bucket_of : Z → nat) (cv : Z → bool).

(** The mutex is given up with its guard and comes back with a new one. *)
Definition waiting {A} (c a : Z) (held : list Z) (p : iprog A) : iprog (list Z) :=
  if cv c && negb (cv a) && negb (a =? 0) && bool_decide (a ∈ held)
  then (leave a;; p;; enter a;; Ret (a :: filter (λ x, x ≠ a) held))%prog
  else Ret held.

Definition run_cop (o : cop) (held : list Z) : iprog (list Z) :=
  match o with
  | CMutex o => if cv (op_mutex o) then Ret held else run_op bucket_of o held
  | CWait c a => waiting c a held (wait bucket_of c a)
  | CWaitUntil c a d => waiting c a held (wait_until bucket_of c a d)
  | CWaitFor c a d => waiting c a held (wait_for bucket_of c a d)
  | CNotifyOne c => if cv c then (notify_one bucket_of c;; Ret held)%prog else Ret held
  | CNotifyAll c => if cv c then (notify_all bucket_of c;; Ret held)%prog else Ret held
  end.

Fixpoint cclient (ops : list cop) (held : list Z) : iprog unit :=
  match ops with
  | [] => Ret tt
  | o :: ops => held <- run_cop o held;; cclient ops held
  end%prog.

Abbreviation mwp := (wp exec (MInv bucket_of cv) (bad_mutex (λ _, True)) (blocked bucket_of)).

Lemma wp_waiting {A} t c a l r (p : iprog A) :
  owns l r →
  (∀ r1 Q, cv c = true → cv a = false → a ≠ 0 → idle r1 → a ∈ held r1 →
     guards r1 ⊆ filter (λ x, x ≠ a) (held r1) →
     (∀ b, Q b (acquired a (released a r1))) → mwp t p r1 Q) →
  mwp t (waiting c a l p) r owns.
Proof.
  intros Ho Hp. unfold waiting.
  destruct (cv c) eqn:Hc; [|by wp_pure]. destruct (cv a) eqn:Ha; [by wp_pure|].
  destruct (Z.eqb_spec a 0) as [|H0]; [by wp_pure|]. case_bool_decide as Hin; [|by wp_pure]. wp_pure.
  destruct (owns_leave a l r Ho Hin) as (H1 & H2 & H3). pose proof Ho as (Hpc & Hh & Hg).
  apply wp_leave; [done|]. wp_pure. apply Hp; try done. intros b. wp_pure. apply wp_take_guard; [done|].
  rewrite list_elem_of_filter. tauto.
Qed.

Lemma wp_run_cop t o l r : owns l r → mwp t (run_cop o l) r owns.
Proof.
  intros Ho. pose proof Ho as (Hpc & _). destruct o as [o|c a|c a d|c a d|c|c]; cbn [run_cop].
  - destruct (cv (op_mutex o)) eqn:E; [by wp_pure|by apply wp_run_op].
  - apply wp_waiting; [done|]. intros. by apply wp_cv_wait.
  - apply wp_waiting; [done|]. intros. by apply wp_wait_until.
  - apply wp_waiting; [done|]. intros. by apply wp_wait_for.
  - destruct (cv c) eqn:E; wp_pure; [|done]. apply wp_notify_one; [done..|]. intros b. by wp_pure.
  - destruct (cv c) eqn:E; wp_pure; [|done]. apply wp_notify_all; [done..|]. intros n. by wp_pure.
Qed.

Lemma wp_cclient t ops l r : owns l r → mwp t (cclient ops l) r (λ _ r, idle r).
Proof.
  revert l r. induction ops as [|o ops IH]; intros l r Hl; cbn [cclient]; wp_pure; [apply Hl|].
  eapply wp_mono; [|by apply wp_run_cop]. cbn. intros l' r' Ho'. by apply IH.
Qed.

Definition cv_pool (scripts : tid → list cop) : tid → iprog unit := λ t, cclient (scripts t) [].

Lemma cv_verified scripts s ps :
  reachable exec start_state (cv_pool scripts) s ps →
  verified exec (MInv bucket_of cv) (bad_mutex (λ _, True)) (blocked bucket_of) idle (s, ps).
Proof.
  intros Hr. eapply adequacy; [|exact Hr].
  exists (λ _, None), (λ _, MkRole [] [] Idle None). split; [apply start_inv|].
  intros t. apply wp_cclient. split; [done|]. cbn. set_solver.
Qed.

(** Mutual exclusion with condition variables. In every reachable configuration of any
    number of threads that run any operations on any number of mutexes and
    condition variables, at most one guard of a mutex is alive, and no thread
    panics, unless it waits for a condition variable with a second mutex. *)
Theorem condvar_exclusive scripts s ps :
  reachable exec start_state (cv_pool scripts) s ps →
  (∀ a, (length (live s a) ≤ 1)%nat) ∧ ∀ t m, ps t = Panic m → m = bad_mutex_msg.
Proof.
  intros (g & ρ & HI & Hwp)%cv_verified. split; [intros a; by eapply live_unique|].
  intros t m E. cbn in Hwp. specialize (Hwp t). rewrite E in Hwp. by apply wp_no_panic in Hwp as [].
Qed.

(** C6: No lost wake-up with condition variables. If no thread can take a step, each thread has
    finished or panicked, or is queued on a mutex that is locked, or on a
    condition variable whose word is not null, so that a notification will look
    for it.  In particular none that was moved to the queue of its mutex is
    forgotten there. *)
Theorem condvar_no_lost_wakeup scripts s ps :
  reachable exec start_state (cv_pool scripts) s ps →
  (∀ t c, step1 exec t c (ps t) s = None) →
  ∀ t, ps t = Ret tt ∨ ps t = Panic bad_mutex_msg ∨
       ∃ b, t ∈ bqueue s b ∧
         let k := td_key (td s t) in
         (cv k = false ∧ has_bits (mem s k) RawMutex.LOCKED_BIT = true) ∨ (cv k = true ∧ mem s k ≠ 0).
Proof.
  intros (g & ρ & HI & Hwp)%cv_verified Hstuck t. cbn in HI, Hwp.
  assert (Hall : ∀ u, ((ps u = Ret tt ∨ ps u = Panic bad_mutex_msg) ∧ idle (ρ u)) ∨ blocked bucket_of u (ρ u) s).
  { intros u. destruct (wp_progress _ _ _ _ _ _ s g ρ _ (Hwp u) HI)
      as [([] & ? & ?)|[(m & E & (-> & ? & _))|[[c Hs]|?]]]; [by auto..| |by right].
    rewrite Hstuck in Hs. by destruct Hs. }
  destruct (all_blocked _ _ s g ρ HI) with t as [[_ Hn]|?]; [| |by auto].
  - intros u. destruct (Hall u) as [[_ ?]|?]; auto.
  - destruct (Hall t) as [[[?|?] _]|?]; [by auto..|done].
Qed.

(** C7: No lost notification. Whenever a thread is queued on a condition variable [c] and no
    bucket is locked, a call of [notify_one] that runs alone finds a thread that
    waits for [c], and wakes it or moves it to the queue of its mutex. *)
Theorem condvar_notify_finds scripts s ps b u t :
  reachable exec start_state (cv_pool scripts) s ps → (∀ b, bmutex s b = None) →
  u ∈ bqueue s b → cv (td_key (td s u)) = true →
  let c := td_key (td s u) in
  ∃ s' w, returns exec t 0 (notify_one bucket_of c) s s' true ∧
    w ∈ bqueue s b ∧ td_key (td s w) = c ∧ td_parked (td s w) = true ∧
    ((td_parked (td s' w) = false ∧ has_bits (mem s (mem s c)) RawMutex.LOCKED_BIT = false) ∨
     (td_key (td s' w) = mem s c ∧ w ∈ bqueue s' (bucket_of (mem s c)) ∧ has_bits (mem s' (mem s c)) RawMutex.PARKED_BIT = true)).
Proof.
  intros (g & ρ & HI & _)%cv_verified Hfree Hu Hcv c. cbn in HI.
  pose proof (queued_key _ _ _ _ _ _ _ HI Hu) as Hw. fold c in Hw, Hcv.
  destruct (cv_waiter _ _ _ _ _ c u HI Hw Hcv) as (a & E & Ha & H0).
  assert (Hm : mem s c = a).
  { destruct (mi_cvq _ _ _ _ _ HI c u a Hw E) as [?|[v Hv]]; [done|exfalso].
    assert (Hh : bucket_of c ∈ pc_hold bucket_of (rpc (ρ v))) by (destruct Hv as [-> | ->]; cbn; set_solver).
    apply (li_lock _ _ _ _ _ (mi_lot _ _ _ _ _ HI)) in Hh. by rewrite Hfree in Hh. }
  assert (Eb : b = bucket_of c).
  { by destruct (li_queue _ _ _ _ _ (mi_lot _ _ _ _ _ HI) b u Hu) as (_ & <- & _). }
  destruct (notify_one_runs bucket_of t s c a) as (s' & Hrun & _ & Hma & Hfound); [done|done|congruence|done..|].
  destruct (Spec.pop_first (key_of s) c (bqueue s (bucket_of c))) as [[w rest]|] eqn:Ep.
  2:{ apply Spec.pop_first_None_inv in Ep. rewrite Forall_forall in Ep. destruct Hw as [Hq Hk]. by destruct (Ep u Hq). }
  destruct Hfound as (_ & Hq & Htd & _). apply Spec.pop_first_Some in Ep as (pre & suf & El & -> & Hk & _).
  assert (Hin : w ∈ bqueue s b) by (rewrite Eb, El; set_solver).
  exists s', w. split; [done|]. split; [done|]. split; [done|]. split.
  { by destruct (li_queue _ _ _ _ _ (mi_lot _ _ _ _ _ HI) b w Hin) as (_ & _ & ?). }
  rewrite Hm. rewrite Htd. destruct (has_bits (mem s a) RawMutex.LOCKED_BIT); [right|by left].
  split; [done|]. rewrite Hq, elem_of_moved. split; [right; set_solver|]. rewrite Hma.
  pose proof (mi_word _ _ _ _ _ HI a Ha) as Hwd.
  by destruct (word_cases _ Hwd) as [-> |[-> |[-> | ->]]].
Qed.
End clients.

(** ** A run: threads 0 and 1 wait for condition variable 9 with mutex 7; thread 2
    locks the mutex, notifies one of them, and ends without unlocking *)

Section example.
Local Definition bucket_of (a : Z) : nat := if a =? 9 then 1%nat else 0%nat.
Local Definition is_cv (a : Z) : bool := a =? 9.
Local Definition scripts (t : tid) : list cop :=
  match t with
  | 0%nat | 1%nat => [CMutex (OLock 7); CWait 9 7]
  | 2%nat => [CMutex (OLock 7); CNotifyOne 9]
  | _ => []
  end.
Local Definition pool := cv_pool bucket_of is_cv scripts.
Local Definition sched : list (tid * choice) :=
  repeat (0%nat, 0) 21 ++ repeat (1%nat, 0) 19 ++ repeat (2%nat, 0) 31.
Local Definition demo : state * (tid → iprog unit) :=
  default (start_state, pool) (run exec sched start_state pool).

Lemma cv_demo_reachable : reachable exec start_state pool demo.1 demo.2.
Proof.
  apply (run_reachable _ sched). unfold demo.
  assert (H : bool_decide (is_Some (run exec sched start_state pool)) = true)
    by (vm_compute; reflexivity).
  apply bool_decide_eq_true in H as [[s ps] E]. by rewrite E.
Qed.

Lemma condvar_exclusive_witness :
  live demo.1 7 = [(2%nat, GExclusive)] ∧ (∀ a, (length (live demo.1 a) ≤ 1)%nat) ∧
  ∀ t m, demo.2 t = Panic m → m = bad_mutex_msg.
Proof.
  split; [vm_compute; reflexivity|].
  exact (condvar_exclusive bucket_of is_cv scripts demo.1 demo.2 cv_demo_reachable).
Defined.

(** Thread 0 was moved to the queue of the mutex, which stays locked; thread 1
    still waits for the condition variable. *)
Lemma condvar_no_lost_wakeup_witness :
  (bqueue demo.1 0, bqueue demo.1 1, mem demo.1 9) = ([0%nat], [1%nat], 7) ∧
  ∀ t, demo.2 t = Ret tt ∨ demo.2 t = Panic bad_mutex_msg ∨
       ∃ b, t ∈ bqueue demo.1 b ∧
         let k := td_key (td demo.1 t) in
         (is_cv k = false ∧ has_bits (mem demo.1 k) RawMutex.LOCKED_BIT = true) ∨
         (is_cv k = true ∧ mem demo.1 k ≠ 0).
Proof.
  split; [vm_compute; reflexivity|].
  apply (condvar_no_lost_wakeup bucket_of is_cv scripts demo.1 demo.2 cv_demo_reachable).
  intros [|[|[|t]]] c; vm_compute; reflexivity.
Defined.

Lemma condvar_notify_finds_witness :
  ∃ s' w, returns exec 3%nat 0 (notify_one bucket_of 9) demo.1 s' true ∧ w ∈ bqueue demo.1 1.
Proof.
  assert (Hb : ∀ b, bmutex demo.1 b = None) by (intros [|[|b]]; vm_compute; reflexivity).
  assert (Hu : 1%nat ∈ bqueue demo.1 1).
  { apply (proj1 (bool_decide_eq_true _)). vm_compute. reflexivity. }
  assert (Hk : td_key (td demo.1 1%nat) = 9) by (vm_compute; reflexivity).
  assert (Hcv : is_cv (td_key (td demo.1 1%nat)) = true) by (rewrite Hk; reflexivity).
  destruct (condvar_notify_finds bucket_of is_cv scripts demo.1 demo.2 1%nat 1%nat 3%nat
    cv_demo_reachable Hb Hu Hcv) as (s' & w & Hr & Hw & _).
  rewrite Hk in Hr. exists s', w. split; [exact Hr|exact Hw].
Defined.
End example.
