(* ===== verification/CondvarApi.v ===== *)
(** * lock_api's Condvar (lock_api/src/condvar.rs)

    The traits [RawCondvar] and [RawCondvarTimed] and the condition variable over
    them, for the guards of [LockApi].  A raw condition variable may panic
    while it waits; then the thread holds the mutex again, or still, and its
    guard lives on: the panic unwinds through the caller, who drops it. *)

From S2P Require Import Prelude Conc ParkingLot LockApi.
Local Open Scope Z_scope.
Local Open Scope prog_scope.

(** ** Unwinding *)

(** Run a program whose functions own nothing that has a destructor: a panic
    ends them all. *)
Fixpoint catch {act : Type} {resp : act → Type} {A} (p : prog act resp A) : prog act resp (outcome A) :=
  match p with
  | Ret a => Ret (Done a)
  | Panic _ => Ret Unwind
  | Act x k => Act x (λ v, catch (k v))
  | Bind p k =>
      o <- catch p;;
      match o with Done x => catch (k x) | Unwind => Ret Unwind end
  | Iter body x =>
      Iter (λ x,
        o <- catch (body x);;
        Ret (match o with
             | Done (inl x) => inl x
             | Done (inr a) => inr (Done a)
             | Unwind => inr Unwind
             end)) x
  end.

Section logic.
Context {act : Type} {resp : act → Type} {state ghost role : Type}.
Context (exec : tid → choice → ∀ a : act, state → option (state * resp a)).
Context (Inv : state → ghost → (tid → role) → Prop) (panic_ok panic_ok' : string → role → Prop)
  (blocked : tid → role → state → Prop).

#[local] Transparent wp.
Lemma wp_catch t {A} (p : prog act resp A) r (Q : A → role → Prop) :
  wp exec Inv panic_ok blocked t p r Q →
  wp exec Inv panic_ok' blocked t (catch p) r
    (λ o r, match o with Done a => Q a r | Unwind => ∃ m, panic_ok m r end).
Proof.
  revert r Q.
  induction p as [A a|A m|A x k IH|A X p IHp k IHk|A X body IH x]; intros r Q Hp; cbn [catch wp] in *.
  - done.
  - by exists m.
  - destruct Hp as [Hen Hst]. split; [done|]. intros s g ρ c s' v Hr HI Hex.
    destruct (Hst s g ρ c s' v Hr HI Hex) as (g' & r' & HI' & Hk). exists g', r'. split; [done|by apply IH].
  - eapply wp_mono; [|by apply IHp]. intros [y|] r' Hy; [by apply IHk|exact Hy].
  - destruct Hp as (J & HJ & Hbody). exists J. split; [done|]. intros y r' Hy.
    eapply wp_mono; [|by apply IH, Hbody]. by intros [[z|a]|] r'' Hz.
Qed.
#[local] Opaque wp.
End logic.

(** ** The traits *)

Module RawCv.
Class Condvar := {
  wait : Z → Z → iprog unit;
  notify_one : Z → iprog bool;
  notify_all : Z → iprog Z;
}.
Class CondvarTimed := {
  checked_duration_to_instant : Z → iprog (option Z);
  wait_until : Z → Z → Z → iprog bool;
  wait_for : Z → Z → Z → iprog bool;
}.
End RawCv.

(** The method that the trait provides. *)
Definition provided_wait_for (checked_duration_to_instant : Z → iprog (option Z))
    (wait_until : Z → Z → Z → iprog bool) (wait : Z → Z → iprog unit) (c mutex timeout : Z) : iprog bool :=
  o <- checked_duration_to_instant timeout;;
  match o with
  | Some timeout => wait_until c mutex timeout
  | None => wait c mutex;; Ret false
  end.

(** ** The condition variable *)

Module WaitTimeoutResult.
Record t := Mk { timed_out : bool }.
End WaitTimeoutResult.

Module Condvar.
Section condvar.
Context `{!RawCv.Condvar, !RawCv.CondvarTimed}.

(** The mutex is released and taken again by the raw condition variable. *)
Definition waiting {A} (g : MutexGuard.t) (p : iprog A) : lprog (outcome A) :=
  o <- leave (MutexGuard.mutex g) GExclusive (catch p);; enter (MutexGuard.mutex g) GExclusive;; Ret o.

Definition notify_one (c : Z) : lprog bool := lift (RawCv.notify_one c).
Definition notify_all (c : Z) : lprog Z := lift (RawCv.notify_all c).

Definition wait (c : Z) (g : MutexGuard.t) : lprog (outcome unit) :=
  waiting g (RawCv.wait c (MutexGuard.mutex g)).

(** The loops, with what one round does. *)
Definition wait_while_round (c : Z) (g : MutexGuard.t) (condition : loc → lprog (outcome bool)) (_ : unit)
    : lprog (unit + outcome unit) :=
  b <- condition (MutexGuard.deref_mut g);;
  match b with
  | Unwind => Ret (inr Unwind)
  | Done false => Ret (inr (Done tt))
  | Done true =>
      o <- wait c g;;
      Ret (match o with Done _ => inl tt | Unwind => inr Unwind end)
  end.
Definition wait_while (c : Z) (g : MutexGuard.t) (condition : loc → lprog (outcome bool))
    : lprog (outcome unit) :=
  Iter (wait_while_round c g condition) tt.

Definition result (o : outcome bool) : outcome WaitTimeoutResult.t :=
  match o with Done b => Done (WaitTimeoutResult.Mk b) | Unwind => Unwind end.

Definition wait_until (c : Z) (g : MutexGuard.t) (timeout : Z) : lprog (outcome WaitTimeoutResult.t) :=
  o <- waiting g (RawCv.wait_until c (MutexGuard.mutex g) timeout);; Ret (result o).
Definition wait_for (c : Z) (g : MutexGuard.t) (timeout : Z) : lprog (outcome WaitTimeoutResult.t) :=
  o <- waiting g (RawCv.wait_for c (MutexGuard.mutex g) timeout);; Ret (result o).

Definition wait_while_until_round (c : Z) (g : MutexGuard.t) (condition : loc → lprog (outcome bool))
    (timeout : Z) (res : WaitTimeoutResult.t) : lprog (WaitTimeoutResult.t + outcome WaitTimeoutResult.t) :=
  if WaitTimeoutResult.timed_out res then Ret (inr (Done res))
  else
    b <- condition (MutexGuard.deref_mut g);;
    match b with
    | Unwind => Ret (inr Unwind)
    | Done false => Ret (inr (Done res))
    | Done true =>
        o <- wait_until c g timeout;;
        Ret (match o with Done res => inl res | Unwind => inr Unwind end)
    end.
Definition wait_while_until (c : Z) (g : MutexGuard.t) (condition : loc → lprog (outcome bool)) (timeout : Z)
    : lprog (outcome WaitTimeoutResult.t) :=
  Iter (wait_while_until_round c g condition timeout) (WaitTimeoutResult.Mk false).

Definition wait_while_for (c : Z) (g : MutexGuard.t) (condition : loc → lprog (outcome bool)) (timeout : Z)
    : lprog (outcome WaitTimeoutResult.t) :=
  d <- lift (RawCv.checked_duration_to_instant timeout);;
  match d with
  | Some timeout => wait_while_until c g condition timeout
  | None =>
      o <- wait_while c g condition;;
      Ret (match o with Done _ => Done (WaitTimeoutResult.Mk false) | Unwind => Unwind end)
  end.
End condvar.
End Condvar.
