(* ===== verification/CondvarApiProof.v ===== *)
(** * What lock_api's Condvar promises

    Programs in safe code that use mutexes and condition variables: over the
    interfaces [MutexLogic] and [CondvarLogic], programs that lock mutexes, use and map their guards, wait with
    them, with conditions and timeouts, notify, and panic, also in conditions and
    because they wait with a second mutex, run without data races, drop all
    their guards and leave nobody asleep. *)

From S2P Require Import Prelude Conc LotTypes BucketQueue ParkingLot LotInv LockApi LockApiLogic GuardClients MutexApiProof CondvarApi.
Local Open Scope Z_scope.
Local Open Scope prog_scope.

(** ** What a raw condition variable promises *)

(** Waiting takes the mutex from the thread and gives it back, also when it
    panics. *)
Class CondvarLogic {L : LockLogic} {RC : RawCv.Condvar} {RT : RawCv.CondvarTimed} (is_cond : Z → Prop) := {
  cv_wait_spec t c a l m r : lk_thread t → lk_lock a → a ≠ 0 → is_cond c → has_one (a, GExclusive) l m r →
    rawp t (catch (RawCv.wait c a)) r (λ _, has_one (a, GExclusive) l m);
  cv_wait_until_spec t c a d l m r : lk_thread t → lk_lock a → a ≠ 0 → is_cond c → has_one (a, GExclusive) l m r →
    rawp t (catch (RawCv.wait_until c a d)) r (λ _, has_one (a, GExclusive) l m);
  cv_wait_for_spec t c a d l m r : lk_thread t → lk_lock a → a ≠ 0 → is_cond c → has_one (a, GExclusive) l m r →
    rawp t (catch (RawCv.wait_for c a d)) r (λ _, has_one (a, GExclusive) l m);
  cv_deadline_spec t d l m r : lk_thread t → has l m r →
    rawp t (RawCv.checked_duration_to_instant d) r (λ _, has l m);
  cv_notify_one_spec t c l m r : lk_thread t → is_cond c → has l m r →
    rawp t (RawCv.notify_one c) r (λ _, has l m);
  cv_notify_all_spec t c l m r : lk_thread t → is_cond c → has l m r →
    rawp t (RawCv.notify_all c) r (λ _, has l m);
}.

(** ** Programs *)

(** The closure [condition]: it counts in a part of the data, waits until the
    count is [c_stop], and may panic. *)
Record condition := Cond { c_path : list nat; c_step : Z; c_stop : Z; c_panic : Z }.

Definition run_condition (k : condition) (l : loc) : lprog (outcome bool) :=
  x <- read_at (sub l (c_path k));;
  write_at (sub l (c_path k)) (x + c_step k);;
  Ret (if x =? c_panic k then Unwind else Done (negb (x =? c_stop k))).

Inductive ccmd :=
| KMutex (c : cmd)
| KWait (i : nat) (c : Z) | KWaitUntil (i : nat) (c d : Z) | KWaitFor (i : nat) (c d : Z)
| KWaitWhile (i : nat) (c : Z) (k : condition)
| KWaitWhileUntil (i : nat) (c : Z) (k : condition) (d : Z)
| KWaitWhileFor (i : nat) (c : Z) (k : condition) (d : Z)
| KNotifyOne (c : Z) | KNotifyAll (c : Z)
| KUnlocked (i : nat) (fair : bool) (body : list ccmd).

Section clients.
Context {RM : Raw.Mutex} {RF : Raw.MutexFair} {RT : Raw.MutexTimed}.
Context {RC : RawCv.Condvar} {RCT : RawCv.CondvarTimed}.
(* which addresses are condition variables, and which mutexes *)
Context (is_cond ok : Z → bool).

Abbreviation result := (bool * list gval)%type.

(** Wait for [c] with guard [i] of a mutex. *)
Definition wait_with {A} (own : list gval) (i : nat) (c : Z) (p : MutexGuard.t → lprog (outcome A))
    : lprog result :=
  match own !! i with
  | Some (GMutex g) =>
      if is_cond c && negb (MutexGuard.mutex g =? 0) then r <- p g;; Ret (unwound r, own)
      else Ret (false, own)
  | _ => Ret (false, own)
  end.

Fixpoint run_ccmd (c : ccmd) (outer own : list gval) {struct c} : lprog result :=
  match c with
  | KMutex c => if names_ok ok c then run_cmd c outer own else Ret (false, own)
  | KWait i c => wait_with own i c (Condvar.wait c)
  | KWaitUntil i c d => wait_with own i c (λ g, Condvar.wait_until c g d)
  | KWaitFor i c d => wait_with own i c (λ g, Condvar.wait_for c g d)
  | KWaitWhile i c k => wait_with own i c (λ g, Condvar.wait_while c g (run_condition k))
  | KWaitWhileUntil i c k d => wait_with own i c (λ g, Condvar.wait_while_until c g (run_condition k) d)
  | KWaitWhileFor i c k d => wait_with own i c (λ g, Condvar.wait_while_for c g (run_condition k) d)
  | KNotifyOne c => if is_cond c then Condvar.notify_one c;; Ret (false, own) else Ret (false, own)
  | KNotifyAll c => if is_cond c then Condvar.notify_all c;; Ret (false, own) else Ret (false, own)
  | KUnlocked i fair body =>
      match own !! i with
      | Some (GMutex g) =>
          let f := closure (run_with run_ccmd body (delete i own ++ outer) []) in
          r <- (if fair then MutexGuard.unlocked_fair g f else MutexGuard.unlocked g f);;
          Ret (unwound r, own)
      | _ => Ret (false, own)
      end
  end.

(** At its end, or when it has panicked, a thread drops its guards. *)
Definition cthread (cs : list ccmd) : lprog unit :=
  r <- run_with run_ccmd cs [] [];; drop_all r.2.
End clients.

Lemma ccmd_nested (P : ccmd → Prop) :
  (∀ c, (∀ i fair body, c ≠ KUnlocked i fair body) → P c) →
  (∀ i fair body, Forall P body → P (KUnlocked i fair body)) → ∀ c, P c.
Proof.
  intros H1 H2. fix IH 1. intros []; try (apply H1; congruence).
  apply H2. induction body as [|c body IHb]; constructor; [apply IH|exact IHb].
Qed.

(** ** Every program is verified *)

Section verify.
Context {L : LockLogic} {RM : Raw.Mutex} {RF : Raw.MutexFair} {RT : Raw.MutexTimed} {ML : MutexLogic}.
Context {RC : RawCv.Condvar} {RCT : RawCv.CondvarTimed} (is_cond ok : Z → bool).
Context {CL : CondvarLogic (λ c, is_cond c = true)}.
Context (id : tid → Z) (t : tid) (Ht : lk_thread t) (Hlocks : ∀ a, ok a = true → lk_lock a).
Implicit Types (own outer vs : list gval) (r : lk_role) (m : nat).

Abbreviation xwp := (wp lexec (XInv id) (xpanic (λ _, False)) xblocked t).
Abbreviation R r := (Role r None [] []).

Lemma wp_api_waiting {A} vs a m r (p : iprog A) (Q : outcome A → role → Prop) :
  GMutex (MutexGuard.Mk a) ∈ vs → holds vs m r →
  (∀ l r', has_one (a, GExclusive) l m r' → rawp t (catch p) r' (λ _, has_one (a, GExclusive) l m)) →
  (∀ o r', holds vs m r' → Q o (R r')) → xwp (Condvar.waiting (MutexGuard.Mk a) p) (R r) Q.
Proof.
  intros Hin Hr Hp HQ. pose proof (guard_points _ _ _ _ Hin Hr) as Hv.
  apply elem_of_Permutation in Hin as [vs' E].
  unfold Condvar.waiting. cbn [MutexGuard.mutex]. wp_pure. as_guard (GMutex (MutexGuard.Mk a)).
  change (leave a GExclusive (catch p)) with (leave (glock (GMutex (MutexGuard.Mk a))) (gkind (GMutex (MutexGuard.Mk a))) (catch p)).
  eapply (wp_leave_guard id t Ht (GMutex (MutexGuard.Mk a)) vs vs' m _ _
            (λ _, holds_one (key (GMutex (MutexGuard.Mk a))) vs' m)); [done|done|..].
  - intros r' (H1 & H2). eapply wp_mono; [|by apply Hp]. intros o r'' ?. by split.
  - intros o r' Hr'. wp_pure. apply (wp_enter_guard id t Ht (GMutex (MutexGuard.Mk a)) vs' m); [done|done|].
    intros r'' Hr''. wp_pure. apply HQ. by eapply holds_perm; [symmetry|].
Qed.

Lemma wp_condition vs v k m r (Q : outcome bool → role → Prop) :
  v ∈ vs → gkind v = GExclusive → holds vs m r → (∀ o, Q o (R r)) → xwp (run_condition k (gpointer v)) (R r) Q.
Proof.
  intros Hin Hk Hr HQ. unfold run_condition. wp_pure.
  apply (wp_read_guard id t vs v _ m); [done..|]. intros x. wp_pure.
  apply (wp_write_guard id t vs v _ _ m); [done..|]. wp_pure. apply HQ.
Qed.

Section waits.
Context (vs : list gval) (a c : Z) (m : nat).
Context (Hin : GMutex (MutexGuard.Mk a) ∈ vs) (Hc : is_cond c = true) (H0 : a ≠ 0).
Abbreviation ready x := (∃ r, x = R r ∧ holds vs m r).

Lemma wait_locked r : holds vs m r → lk_lock a.
Proof. intros Hr. apply (guard_points _ _ _ _ Hin Hr). Qed.

Lemma wp_api_wait r : holds vs m r → xwp (Condvar.wait c (MutexGuard.Mk a)) (R r) (λ _ x, ready x).
Proof.
  intros Hr. apply (wp_api_waiting vs a m); [done|done| |by eauto].
  intros l r' Hr'. apply cv_wait_spec; try done. by eapply wait_locked.
Qed.

Lemma wp_api_wait_until d r : holds vs m r → xwp (Condvar.wait_until c (MutexGuard.Mk a) d) (R r) (λ _ x, ready x).
Proof.
  intros Hr. unfold Condvar.wait_until. wp_pure. apply (wp_api_waiting vs a m); [done|done| |intros; wp_pure; by eauto].
  intros l r' Hr'. apply cv_wait_until_spec; try done. by eapply wait_locked.
Qed.

Lemma wp_api_wait_for d r : holds vs m r → xwp (Condvar.wait_for c (MutexGuard.Mk a) d) (R r) (λ _ x, ready x).
Proof.
  intros Hr. unfold Condvar.wait_for. wp_pure. apply (wp_api_waiting vs a m); [done|done| |intros; wp_pure; by eauto].
  intros l r' Hr'. apply cv_wait_for_spec; try done. by eapply wait_locked.
Qed.

Lemma wp_wait_while k r :
  holds vs m r → xwp (Condvar.wait_while c (MutexGuard.Mk a) (run_condition k)) (R r) (λ _ x, ready x).
Proof.
  intros Hr. apply (wp_iter _ _ _ _ _ (λ _ x, ready x)); [by eauto|]. intros [] ? (r' & -> & Hr').
  unfold Condvar.wait_while_round. wp_pure. eapply (wp_condition vs (GMutex (MutexGuard.Mk a))); [done..|].
  intros [[|]|]; wp_pure; [|by eauto..].
  eapply wp_mono; [|by apply wp_api_wait]. intros [[]|] x Hx; by wp_pure.
Qed.

Lemma wp_wait_while_until k d r :
  holds vs m r → xwp (Condvar.wait_while_until c (MutexGuard.Mk a) (run_condition k) d) (R r) (λ _ x, ready x).
Proof.
  intros Hr. apply (wp_iter _ _ _ _ _ (λ _ x, ready x)); [by eauto|]. intros [[]] ? (r' & -> & Hr');
    unfold Condvar.wait_while_until_round; cbn [WaitTimeoutResult.timed_out]; wp_pure; [by eauto|].
  eapply (wp_condition vs (GMutex (MutexGuard.Mk a))); [done..|].
  intros [[|]|]; wp_pure; [|by eauto..].
  eapply wp_mono; [|by apply wp_api_wait_until]. intros [|] x Hx; by wp_pure.
Qed.

Lemma wp_wait_while_for k d r :
  holds vs m r → xwp (Condvar.wait_while_for c (MutexGuard.Mk a) (run_condition k) d) (R r) (λ _ x, ready x).
Proof.
  intros Hr. unfold Condvar.wait_while_for. wp_pure.
  eapply (wp_raw id _ t); [by apply cv_deadline_spec; [|apply Hr]|]. intros [d'|] r' Hr'; wp_pure.
  - apply wp_wait_while_until. split; [done|apply Hr].
  - eapply wp_mono; [|apply wp_wait_while; split; [done|apply Hr]]. intros o x Hx. by wp_pure.
Qed.
End waits.

Abbreviation cruns c := (runs id t 0 (run_ccmd is_cond ok c)).

Lemma wp_wait_with {A} own outer i c m (p : MutexGuard.t → lprog (outcome A)) r (Q : bool * list gval → role → Prop) :
  holds (own ++ outer) m r →
  (∀ a, GMutex (MutexGuard.Mk a) ∈ own ++ outer → is_cond c = true → a ≠ 0 →
     xwp (p (MutexGuard.Mk a)) (R r) (λ _ x, ∃ r, x = R r ∧ holds (own ++ outer) m r)) →
  (∀ b own' r', holds (own' ++ outer) m r' → Q (b, own') (R r')) →
  xwp (wait_with is_cond own i c p) (R r) Q.
Proof.
  intros Hr Hp HQ. unfold wait_with.
  destruct (own !! i) as [[[a]|g]|] eqn:Hi; [|by apply wp_ret, HQ..].
  destruct (is_cond c) eqn:Hc; [|by apply wp_ret, HQ]. cbn [MutexGuard.mutex].
  destruct (Z.eqb_spec a 0) as [|H0]; [by apply wp_ret, HQ|]. wp_pure.
  eapply wp_mono; [|apply Hp; [by eapply in_guards|done..]]. intros o ? (r' & -> & Hr'). wp_pure. by apply HQ.
Qed.

Lemma wp_run_ccmd c : cruns c.
Proof.
  induction c as [c Hc|i fair body Hb] using ccmd_nested.
  - destruct c as [c|i c|i c d|i c d|i c k|i c k d|i c k d|c|c|i fair body]; [..|by destruct (Hc i fair body)];
      intros outer own m r Q Hr HQ; cbn [run_ccmd Nat.add] in *.
    + destruct (names_ok ok c) eqn:E; [|by apply wp_ret, HQ].
      by apply (wp_run_cmd id t Ht ok Hlocks c E outer own m).
    + eapply wp_wait_with; [done| |exact HQ]. intros. by eapply wp_api_wait.
    + eapply wp_wait_with; [done| |exact HQ]. intros. by eapply wp_api_wait_until.
    + eapply wp_wait_with; [done| |exact HQ]. intros. by eapply wp_api_wait_for.
    + eapply wp_wait_with; [done| |exact HQ]. intros. by eapply wp_wait_while.
    + eapply wp_wait_with; [done| |exact HQ]. intros. by eapply wp_wait_while_until.
    + eapply wp_wait_with; [done| |exact HQ]. intros. by eapply wp_wait_while_for.
    + destruct (is_cond c) eqn:E; [|by apply wp_ret, HQ]. wp_pure.
      eapply (wp_raw id _ t); [by apply cv_notify_one_spec; [| |apply Hr]|]. intros b r' Hr'. wp_pure.
      apply HQ. split; [done|apply Hr].
    + destruct (is_cond c) eqn:E; [|by apply wp_ret, HQ]. wp_pure.
      eapply (wp_raw id _ t); [by apply cv_notify_all_spec; [| |apply Hr]|]. intros b r' Hr'. wp_pure.
      apply HQ. split; [done|apply Hr].
  - intros outer own m r Q Hr HQ. cbn [run_ccmd].
    destruct (own !! i) as [[[a]|g]|] eqn:Hi; [|by apply wp_ret, HQ..].
    by apply (wp_mutex_unlocked id t Ht (run_ccmd is_cond ok) fair body outer own i a m).
Qed.

Lemma wp_cthread cs r : has [] 0 r → xwp (cthread is_cond ok cs) (R r) (λ _ x, ∃ r', x = R r' ∧ has [] 0 r').
Proof.
  intros Hr. unfold cthread. wp_pure.
  apply (wp_run_with id t (run_ccmd is_cond ok) (λ _, 0%nat) cs) with (m := 0%nat).
  - apply Forall_forall. intros c _. apply wp_run_ccmd.
  - assert (E : total (λ _ : ccmd, 0%nat) cs = 0%nat) by (clear; by induction cs).
    rewrite E. by split; [|constructor].
  - intros b own r' Hr'. apply (wp_drop_all id t (mutex_drop id t Ht) own [] 0); [done|].
    intros r'' [Hr'' _]. by exists r''.
Qed.
End verify.
