(* ===== verification/CondvarGuards.v ===== *)
(** * Mutexes and condition variables in safe code

    The raw condition variable implements the interface of lock_api's
    [Condvar], so the programs of [CondvarApiProof] run without data races, drop
    all their guards, and leave nobody asleep. *)

From S2P Require Import Prelude Conc LotTypes BucketQueue ParkingLot LotInv LockApi LockApiLogic GuardClients MutexApiProof CondvarApi CondvarApiProof RawMutex RawMutexInv RawMutexProof RawCondvar CondvarProof MutexGuards.
Local Open Scope Z_scope.

(** ** The raw condition variable *)

Section raw.
Context (bucket_of : Z → nat).

(** [impl RawCondvar for RawCondvar] *)
Definition raw_condvar : RawCv.Condvar := {|
  RawCv.wait := RawCondvar.wait bucket_of;
  RawCv.notify_one := RawCondvar.notify_one bucket_of;
  RawCv.notify_all := RawCondvar.notify_all bucket_of;
|}.
Definition raw_condvar_timed : RawCv.CondvarTimed := {|
  RawCv.checked_duration_to_instant := RawCondvar.checked_duration_to_instant;
  RawCv.wait_until := RawCondvar.wait_until bucket_of;
  RawCv.wait_for := RawCondvar.wait_for bucket_of;
|}.
End raw.

Section raw_logic.
Context (bucket_of : Z → nat) (cv : Z → bool).
#[local] Existing Instances mutex_lock_logic.

Abbreviation mwp := (wp exec (MInv bucket_of cv) (λ _ _, False) (blocked bucket_of)).

(** A wait that may panic: the thread has the mutex in both cases. *)
Lemma wp_wait_catch {A} t a (l : list (Z * guard)) m r (p : iprog A) :
  raw_has_one (a, GExclusive) l m r →
  (idle r → a ∈ held r → guards r ⊆ filter (λ x, x ≠ a) (held r) →
   ∀ Q, (∀ x, Q x (acquired a (released a r))) →
     wp exec (MInv bucket_of cv) (bad_mutex (eq r)) (blocked bucket_of) t p r Q) →
  mwp t (catch p) r (λ _, raw_has_one (a, GExclusive) l m).
Proof.
  intros Hr Hp. destruct (has_released bucket_of cv a l m r Hr) as (H1 & H2 & H3 & H4).
  assert (H5 : raw_has_one (a, GExclusive) l m (acquired a (released a r))).
  { eapply has_acquired; [done..| |done]. destruct Hr as (_ & _ & _ & _ & Hn). by apply NoDup_cons in Hn as [Hn _]. }
  eapply wp_mono; [|apply (wp_catch _ _ (bad_mutex (eq r)) _ _ _ _ r (λ _, raw_has_one (a, GExclusive) l m))].
  - intros [x|] r'; [done|]. intros (msg & _ & _ & <-). done.
  - by apply Hp.
Qed.

Instance condvar_logic :
  CondvarLogic (L := mutex_lock_logic bucket_of cv) (RC := raw_condvar bucket_of)
    (RT := raw_condvar_timed bucket_of) (λ c, cv c = true).
Proof.
  split.
  - intros t c a l m r _ Hl H0 Hc Hr. apply (wp_wait_catch t a); [done|]. intros H1 H2 H3 Q HQ.
    by apply wp_cv_wait.
  - intros t c a d l m r _ Hl H0 Hc Hr. apply (wp_wait_catch t a); [done|]. intros H1 H2 H3 Q HQ.
    by apply wp_wait_until.
  - intros t c a d l m r _ Hl H0 Hc Hr. apply (wp_wait_catch t a); [done|]. intros H1 H2 H3 Q HQ.
    by apply wp_wait_for.
  - intros t d l m r _ Hr. change (mwp t (to_deadline d) r (λ _, raw_has l m)). unfold to_deadline, now. wp_pure.
    apply wp_look; [by intros; simplify_eq/=|by eexists|]. intros s g ρ ch n _ _ _. by wp_pure.
  - intros t c l m r _ Hc Hr. pose proof Hr as [Hi _].
    change (mwp t (RawCondvar.notify_one bucket_of c) r (λ _, raw_has l m)).
    apply (wp_panic_mono _ _ (bad_mutex (λ _, False))); [by intros ? ? (_ & _ & [])|]. by apply wp_notify_one.
  - intros t c l m r _ Hc Hr. pose proof Hr as [Hi _].
    change (mwp t (RawCondvar.notify_all bucket_of c) r (λ _, raw_has l m)).
    apply (wp_panic_mono _ _ (bad_mutex (λ _, False))); [by intros ? ? (_ & _ & [])|]. by apply wp_notify_all.
Qed.
End raw_logic.

(** ** The theorems *)

Section theorems.
(* [cv]: the addresses of condition variables; all others may be mutexes *)
Context (bucket_of : Z → nat) (cv : Z → bool).
#[local] Existing Instances mutex_lock_logic mutex_logic condvar_logic.

Definition condvar_start (d : loc → Z) : lstate := start_lstate start_state d.
Definition condvar_pool (scripts : tid → list ccmd) : tid → lprog unit := λ t,
  match scripts t with
  | [] => Ret tt
  | cs =>
      cthread (RM := raw_mutex bucket_of false) (RF := raw_mutex_fair bucket_of false)
        (RT := raw_mutex_timed bucket_of false) (RC := raw_condvar bucket_of)
        (RCT := raw_condvar_timed bucket_of) cv (λ a, negb (cv a)) cs
  end.

Implicit Types (scripts : tid → list ccmd) (s : lstate) (ps : tid → lprog unit) (d : loc → Z).

Abbreviation LL := (mutex_lock_logic bucket_of cv).
Abbreviation done_role := (λ x, ∃ r, x = Role (L := LL) r None [] [] ∧ raw_has [] 0 r).
Abbreviation XI := (XInv (L := LL) (λ t, Z.of_nat t + 1)).
Abbreviation xwp := (wp lexec XI (xpanic (L := LL) (λ _, False)) (xblocked (L := LL))).

Lemma cvapi_verified scripts d s ps :
  reachable lexec (condvar_start d) (condvar_pool scripts) s ps →
  ∃ g ρ, XI s g ρ ∧ ∀ t, xwp t (ps t) (ρ t) (λ _ x, done_role x).
Proof.
  intros Hr. eapply (adequacy lexec XI _ _ (λ x, done_role x)); [|exact Hr].
  exists (λ _, None), (λ _, Role (L := LL) (MkRole [] [] Idle None) None [] []). split.
  - apply (start_xinv (L := LL)), start_inv.
  - intros t. assert (H : raw_has [] 0 (MkRole [] [] Idle None)).
    { split; [by split|]. cbn. split; [done|]. split; [done|]. by split; constructor. }
    unfold condvar_pool. cbn [snd]. destruct (scripts t) as [|c cs]; [by apply wp_ret; eexists|].
    apply (wp_cthread (ML := mutex_logic bucket_of cv false) cv (λ a, negb (cv a)) (CL := condvar_logic bucket_of cv)); [done| |done].
    intros a Ha. cbn. by destruct (cv a).
Qed.

(** C4: Safe code with mutexes and condition variables has no data races. In
    every reachable configuration of any number of threads that run any programs
    with them (they lock, map and drop guards, run closures unlocked, wait with a
    guard, for a condition, with a timeout, notify, and panic, also in the
    condition and because a second mutex is used), no two accesses to the same
    data have overlapped of which one was a write, a mutex has at most one
    guard, each access is made by the thread that has it, and no panic gets past
    the destructors of the guards. *)
Theorem condvar_data_race_free scripts d s ps :
  reachable lexec (condvar_start d) (condvar_pool scripts) s ps →
  raced s = false ∧ (∀ t m, ps t ≠ Panic m) ∧
  (∀ a, (length (live (raw_st s) a) ≤ 1)%nat) ∧
  (∀ t a p w, (t, (Data a p, w)) ∈ accesses s → live (raw_st s) a = [(t, GExclusive)]).
Proof.
  intros (g & ρ & HI & Hwp)%cvapi_verified.
  assert (Hlen : ∀ a, (length (live (raw_st s) a) ≤ 1)%nat).
  { intros a. eapply live_unique, (xi_raw _ _ _ _ HI). }
  split; [apply HI|]. split; [|split; [done|]].
  - intros t m E. specialize (Hwp t). rewrite E in Hwp. by apply wp_no_panic in Hwp as [].
  - intros t a p w Hx. eapply access_alone; [exact HI|exact Hlen|exact Hx].
Qed.

(** C5: With condition variables, guards are dropped and waiters woken. If no thread can
    take a step, then each thread either is done, also after a panic, and has no
    guard left, or it is queued on a mutex that is locked, or on a condition
    variable whose word is not null: nobody else has to be notified. *)
Theorem condvar_guards_dropped scripts d s ps :
  reachable lexec (condvar_start d) (condvar_pool scripts) s ps →
  (∀ t c, step1 lexec t c (ps t) s = None) →
  ∀ t, (ps t = Ret tt ∧ ∀ a gd, (t, gd) ∉ live (raw_st s) a) ∨
       ∃ b, t ∈ bqueue (raw_st s) b ∧
         let k := td_key (td (raw_st s) t) in
         (cv k = false ∧ has_bits (mem (raw_st s) k) RawMutex.LOCKED_BIT = true) ∨
         (cv k = true ∧ mem (raw_st s) k ≠ 0).
Proof.
  intros (g & ρ & HI & Hwp)%cvapi_verified Hstuck t. pose proof (xi_raw _ _ _ _ HI) as HM.
  assert (Hall : ∀ u, (ps u = Ret tt ∧ raw_has [] 0 (rawr (ρ u))) ∨ blocked bucket_of u (rawr (ρ u)) (raw_st s)).
  { intros u. destruct (wp_progress _ _ _ _ _ _ s g ρ _ (Hwp u) HI)
      as [([] & ? & r & -> & ?)|[(? & _ & [[]|[]])|[[c Hs]|?]]]; [by left| |by right].
    rewrite Hstuck in Hs. by destruct Hs. }
  destruct (all_blocked _ _ _ _ _ HM) with t as [[_ Hn]|?]; [| |by right].
  - intros u. destruct (Hall u) as [[_ [? _]]|?]; auto.
  - left. destruct (Hall t) as [[E (_ & _ & Hg & _)]|?]; [|done]. split; [done|].
    intros a gd [_ Hin]%(mi_live _ _ _ _ _ HM). apply Hg in Hin. by apply elem_of_nil in Hin.
Qed.
End theorems.

(** ** A run: thread 0 waits until the data of mutex 7 is 1, and thread 1 notifies
    it; thread 2 waits for ever; thread 3 waits with mutex 8 as well, and panics *)

Section example.
Local Definition is_cv (a : Z) : bool := a =? 9.
Local Definition scripts (t : tid) : list ccmd :=
  match t with
  | 0%nat => [KMutex (CLock 7); KWaitWhile 0 9 (Cond [] 1 1 (-1))]
  | 1%nat => [KMutex (CLock 7); KNotifyOne 9]
  | 2%nat => [KMutex (CLock 7); KWait 0 9]
  | 3%nat => [KMutex (CLock 8); KWait 0 9; KMutex (CLock 7)]
  | _ => []
  end.
Local Definition bucket_of (a : Z) : nat := if a =? 9 then 1%nat else 0%nat.
Local Definition start : lstate := condvar_start (λ _, 0).
Local Definition pool := condvar_pool bucket_of is_cv scripts.
Local Definition in_condition : list (tid * choice) := repeat (0%nat, 0) 17.
Local Definition all_done : list (tid * choice) :=
  repeat (0%nat, 0) 37 ++ repeat (1%nat, 0) 52 ++ repeat (0%nat, 0) 38 ++ repeat (2%nat, 0) 21 ++ repeat (3%nat, 0) 27.
Local Definition demo (sched : list (tid * choice)) : lstate * (tid → lprog unit) :=
  default (start, pool) (run lexec sched start pool).

Lemma condvar_demo_reachable sched :
  bool_decide (is_Some (run lexec sched start pool)) = true →
  reachable lexec start pool (demo sched).1 (demo sched).2.
Proof.
  intros [[s ps] E]%bool_decide_eq_true. eapply run_reachable. unfold demo. by rewrite E.
Qed.

(** In the condition. *)
Lemma condvar_data_race_free_witness :
  accesses (demo in_condition).1 = [(0%nat, (Data 7 [], true))] ∧ raced (demo in_condition).1 = false ∧
  live (raw_st (demo in_condition).1) 7 = [(0%nat, GExclusive)].
Proof.
  destruct (condvar_data_race_free bucket_of is_cv scripts (λ _, 0) (demo in_condition).1 (demo in_condition).2)
    as (H1 & _ & _ & H4); [apply (condvar_demo_reachable in_condition); vm_compute; reflexivity|].
  split; [vm_compute; reflexivity|]. split; [exact H1|].
  apply (H4 0%nat 7 [] true). apply (proj1 (bool_decide_eq_true _)). vm_compute. reflexivity.
Defined.

(** At the end the data is 2, thread 2 is asleep, and the others are done. *)
Lemma condvar_guards_dropped_witness :
  cell (demo all_done).1 (Data 7 []) = 2 ∧ bqueue (raw_st (demo all_done).1) 1 = [2%nat] ∧
  ∀ t, ((demo all_done).2 t = Ret tt ∧ ∀ a gd, (t, gd) ∉ live (raw_st (demo all_done).1) a) ∨
       ∃ b, t ∈ bqueue (raw_st (demo all_done).1) b ∧
         let k := td_key (td (raw_st (demo all_done).1) t) in
         (is_cv k = false ∧ has_bits (mem (raw_st (demo all_done).1) k) RawMutex.LOCKED_BIT = true) ∨
         (is_cv k = true ∧ mem (raw_st (demo all_done).1) k ≠ 0).
Proof.
  split; [vm_compute; reflexivity|]. split; [vm_compute; reflexivity|].
  apply (condvar_guards_dropped bucket_of is_cv scripts (λ _, 0) (demo all_done).1 (demo all_done).2
    (condvar_demo_reachable all_done ltac:(vm_compute; reflexivity))).
  intros [|[|[|[|t]]]] c; vm_compute; reflexivity.
Defined.
End example.
