(* ===== verification/Deadlock.v ===== *)
(** * Deadlock detection (core/src/parking_lot.rs, [deadlock_impl])

    An optional feature: each thread records the resources it holds, and
    [check_deadlock] looks for cycles among the threads that are parked without
    a timeout.  This file has the bookkeeping, the wait graph and the search for
    its cycles; the search itself is petgraph's, whose documented behaviour is
    the interface [Petgraph].  The set of cycles is a set: in what order the
    [HashSet] lists them is left open where it matters ([DeadlockTwice]).  How the threads of a cycle are made to report is
    in [DeadlockReport]. *)

From stdpp Require Import gmap.
From S2P Require Import Prelude Conc.
Local Open Scope Z_scope.

(** ** Methods of [Vec] and iterators *)

(** [iter().rposition(..)]: the index of the last element that is [x]. *)
Fixpoint rposition `{EqDecision A} (x : A) (l : list A) : option nat :=
  match l with
  | [] => None
  | y :: l =>
      match rposition x l with
      | Some p => Some (S p)
      | None => if decide (y = x) then Some O else None
      end
  end.

(** [pop] *)
Fixpoint pop {A} (l : list A) : list A :=
  match l with
  | [] | [_] => []
  | x :: l => x :: pop l
  end.

(** [swap_remove(p)]: the last element takes the place of the one removed; it
    panics out of range. *)
Definition swap_remove {A} (p : nat) (l : list A) : option (list A) :=
  x ← last l;
  if decide (p < length l)%nat then Some (pop (<[p := x]> l)) else None.

(** [enumerate().min_by_key(..)]: the first of the least elements, with its index. *)
Fixpoint min_pos (l : list nat) : option (nat * nat) :=
  match l with
  | [] => None
  | x :: l =>
      match min_pos l with
      | Some (p, y) => if decide (y < x)%nat then Some (S p, y) else Some (O, x)
      | None => Some (O, x)
      end
  end.

(** ** The resources of a thread *)

Definition acquire_resource (key : Z) (resources : list Z) : list Z := resources ++ [key].

(** [None] is a panic. *)
Definition release_resource (key : Z) (resources : list Z) : option (list Z) :=
  match rposition key resources with
  | Some p => swap_remove p resources
  | None => Some resources
  end.

(** ** The wait graph *)

(** What the detector reads of a [ThreadData]. *)
Record ThreadData := MkTD {
  key : Z;
  parked_with_timeout : bool;
  resources : list Z;
  deadlocked : bool;
}.

Inductive WaitGraphNode := Thread (t : tid) | Resource (k : Z).

#[export] Instance node_eq_dec : EqDecision WaitGraphNode.
Proof. solve_decision. Defined.

(** A graph by the edges that were added to it, in order. *)
Abbreviation graph_of N := (list (N * N)).
Abbreviation graph := (graph_of WaitGraphNode).

(** The table: the threads that are queued in each bucket. *)
Abbreviation table := (list (list tid)).

Section build.
Context {N : Type} (thread : tid → N) (resource : Z → N).

(** The edges of one thread. *)
Definition thread_edges (td : tid → ThreadData) (current : tid) : graph_of N :=
  if negb (parked_with_timeout (td current)) && negb (deadlocked (td current)) then
    ((λ r, (resource r, thread current)) <$> resources (td current)) ++
    [(thread current, resource (key (td current)))]
  else [].

Definition build_graph (td : tid → ThreadData) (entries : table) : graph_of N :=
  concat ((λ b, concat (thread_edges td <$> b)) <$> entries).
End build.

(** ** petgraph *)

(** The events of a search; the times are not used. *)
Inductive DfsEvent :=
| Discover (n : WaitGraphNode) (time : nat)
| TreeEdge (u v : WaitGraphNode)
| BackEdge (u v : WaitGraphNode)
| CrossForwardEdge (u v : WaitGraphNode)
| Finish (n : WaitGraphNode) (time : nat).

(** A depth-first search under way: the nodes that are not finished, innermost
    first; a node that comes next; the nodes that were discovered; the edges
    that were looked at. *)
Record search := MkSearch {
  unfinished : list WaitGraphNode;
  pending : option WaitGraphNode;
  found : list WaitGraphNode;
  seen : graph;
}.

Definition search0 : search := MkSearch [] None [] [].

(** The event a search reports next: it starts at the first node that was not
    discovered yet, looks at all edges of the innermost node in any order, and
    reports what each leads to. *)
Inductive dfs_step (g : graph) (starts : list WaitGraphNode) : search → DfsEvent → search → Prop :=
| dfs_root pre n post i fd sn :
    starts = pre ++ n :: post → (∀ m, m ∈ pre → m ∈ fd) → n ∉ fd →
    dfs_step g starts (MkSearch [] None fd sn) (Discover n i) (MkSearch [n] None (n :: fd) sn)
| dfs_child st n i fd sn :
    dfs_step g starts (MkSearch st (Some n) fd sn) (Discover n i) (MkSearch (n :: st) None (n :: fd) sn)
| dfs_tree u v st fd sn :
    (u, v) ∈ g → (u, v) ∉ sn → v ∉ fd →
    dfs_step g starts (MkSearch (u :: st) None fd sn) (TreeEdge u v)
      (MkSearch (u :: st) (Some v) fd ((u, v) :: sn))
| dfs_back u v st fd sn :
    (u, v) ∈ g → (u, v) ∉ sn → v ∈ u :: st →
    dfs_step g starts (MkSearch (u :: st) None fd sn) (BackEdge u v)
      (MkSearch (u :: st) None fd ((u, v) :: sn))
| dfs_cross u v st fd sn :
    (u, v) ∈ g → (u, v) ∉ sn → v ∈ fd → v ∉ u :: st →
    dfs_step g starts (MkSearch (u :: st) None fd sn) (CrossForwardEdge u v)
      (MkSearch (u :: st) None fd ((u, v) :: sn))
| dfs_finish u st i fd sn :
    (∀ v, (u, v) ∈ g → (u, v) ∈ sn) →
    dfs_step g starts (MkSearch (u :: st) None fd sn) (Finish u i) (MkSearch st None fd sn).

Inductive dfs_run (g : graph) (starts : list WaitGraphNode) : search → list DfsEvent → search → Prop :=
| dfs_done s : dfs_run g starts s [] s
| dfs_event s e s' es s'' :
    dfs_step g starts s e s' → dfs_run g starts s' es s'' → dfs_run g starts s (e :: es) s''.

(** A search that has visited all it can reach from the starting nodes. *)
Definition dfs_complete (g : graph) (starts : list WaitGraphNode) (es : list DfsEvent) : Prop :=
  ∃ fd sn, dfs_run g starts search0 es (MkSearch [] None fd sn) ∧ ∀ n, n ∈ starts → n ∈ fd.

(** A path along the edges of [R]. *)
Fixpoint linked {A} (R : A → A → Prop) (x : A) (l : list A) : Prop :=
  match l with
  | [] => True
  | y :: l => R x y ∧ linked R y l
  end.

(** A walk that comes back to where it starts, without its first element at the
    end; a cycle if it meets nothing twice. *)
Definition closed_walk {A} (R : A → A → Prop) (c : list A) : Prop :=
  match c with
  | [] => False
  | x :: l => linked R x (l ++ [x])
  end.
Definition is_cycle {A} (R : A → A → Prop) (c : list A) : Prop := NoDup c ∧ closed_walk R c.

Definition edge {N} (g : graph_of N) (u v : N) : Prop := (u, v) ∈ g.

Class Petgraph := {
  nodes : graph → list WaitGraphNode;
  depth_first_search : graph → list WaitGraphNode → list DfsEvent;
  is_cyclic_directed : graph_of Z → bool;
  nodes_spec g : NoDup (nodes g) ∧ ∀ n, n ∈ nodes g ↔ ∃ m, (n, m) ∈ g ∨ (m, n) ∈ g;
  dfs_spec g starts : (∀ n, n ∈ starts → n ∈ nodes g) → dfs_complete g starts (depth_first_search g starts);
  is_cyclic_spec g : is_cyclic_directed g = true ↔ ∃ c, is_cycle (edge g) c;
}.

(** ** The search for cycles *)

(** Rotate a cycle so that it starts with its least element. *)
Definition normalize_cycle (input : list tid) : list tid :=
  let min_pos := match min_pos input with Some (p, _) => p | None => O end in
  take (length input) (drop min_pos (input ++ input)).

(** The visitor; its state is the path of threads and the set of cycles.
    [None] is the panic of [unwrap]. *)
Definition visit (s : list tid * gset (list tid)) (e : DfsEvent) : option (list tid * gset (list tid)) :=
  let '(path, cycles) := s in
  match e with
  | Discover (Thread n) _ => Some (path ++ [n], cycles)
  | Finish (Thread _) _ => Some (pop path, cycles)
  | BackEdge _ (Thread n) =>
      from ← rposition n path;
      Some (path, {[normalize_cycle (drop from path)]} ∪ cycles)
  | _ => Some s
  end.

Fixpoint visit_all (s : list tid * gset (list tid)) (es : list DfsEvent) : option (list tid * gset (list tid)) :=
  match es with
  | [] => Some s
  | e :: es => s ← visit s e; visit_all s es
  end.

Definition is_thread (n : WaitGraphNode) : bool :=
  match n with Thread _ => true | Resource _ => false end.

Definition graph_cycles {P : Petgraph} (g : graph) : option (gset (list tid)) :=
  let threads := filter is_thread (nodes g) in
  snd <$> visit_all ([], ∅) (depth_first_search g threads).

(** ** Checking, on a table that nobody changes meanwhile *)

(** Threads and resources are both [usize] for the fast check. *)
Definition check_wait_graph_fast {P : Petgraph} (addr : tid → Z) (td : tid → ThreadData) (entries : table) : bool :=
  is_cyclic_directed (build_graph addr id td entries).

(** The cycles the slow one finds. *)
Definition check_wait_graph_slow {P : Petgraph} (td : tid → ThreadData) (entries : table)
    : option (gset (list tid)) :=
  graph_cycles (build_graph Thread Resource td entries).

Definition check_deadlock {P : Petgraph} (addr : tid → Z) (td : tid → ThreadData) (entries : table)
    : option (gset (list tid)) :=
  if check_wait_graph_fast addr td entries then check_wait_graph_slow td entries else Some ∅.
