(* ===== verification/DeadlockProof.v ===== *)
(** * The deadlock detector finds cycles

    The bookkeeping of resources, the normal form of cycles, and the visitor of
    [graph_cycles] on any search that behaves as petgraph's is documented: what
    it reports are cycles of threads that wait for each other, and it reports
    one for every cycle that no other thread waits for.  A cycle that another
    thread waits for may be missed. *)

From stdpp Require Import gmap.
From S2P Require Import Prelude Conc Deadlock.
Local Open Scope Z_scope.

(** ** Lists *)

Section lists.
Context {A : Type} {HA : EqDecision A}.
Implicit Types (x y : A) (l : list A).

Lemma rposition_None x l : rposition x l = None ↔ x ∉ l.
Proof.
  induction l as [|y l IH]; cbn; [set_solver|]. destruct (rposition x l).
  - split; [done|]. intros H. exfalso. assert (E : Some n = None) by (apply IH; set_solver). done.
  - case_decide; [set_solver|]. split; [|done]. intros _. apply not_elem_of_cons. split; [done|by apply IH].
Qed.

Lemma rposition_last x l l' : x ∉ l' → rposition x (l ++ x :: l') = Some (length l).
Proof.
  intros Hx%rposition_None. induction l as [|y l IH]; cbn.
  - by rewrite Hx, decide_True.
  - by rewrite IH.
Qed.

Lemma last_occurrence x l : x ∈ l → ∃ l1 l2, l = l1 ++ x :: l2 ∧ x ∉ l2.
Proof.
  induction l as [|y l IH]; [set_solver|]. intros Hx. destruct (decide (x ∈ l)) as [Hl|Hl].
  - destruct (IH Hl) as (l1 & l2 & -> & ?). by exists (y :: l1), l2.
  - apply elem_of_cons in Hx as [->|?]; [|done]. by exists [], l.
Qed.

Lemma pop_app l x : pop (l ++ [x]) = l.
Proof. induction l as [|y l IH]; [done|]. cbn. destruct (l ++ [x]) eqn:E; [by destruct l|]. by f_equal. Qed.

Lemma swap_remove_last l x : swap_remove (length l) (l ++ [x]) = Some l.
Proof.
  unfold swap_remove. rewrite last_snoc. cbn. rewrite decide_True by (rewrite length_app; cbn; lia).
  replace (length l) with (length l + 0)%nat by lia. rewrite insert_app_r. cbn. by rewrite pop_app.
Qed.

Lemma swap_remove_mid l1 x l2 y :
  swap_remove (length l1) (l1 ++ x :: l2 ++ [y]) = Some (l1 ++ y :: l2).
Proof.
  unfold swap_remove. rewrite app_comm_cons, app_assoc, last_snoc. cbn.
  rewrite decide_True by (rewrite !length_app; cbn; lia). f_equal.
  replace (length l1) with (length l1 + 0)%nat by lia. rewrite <-app_assoc, insert_app_r. cbn.
  by rewrite app_comm_cons, app_assoc, pop_app.
Qed.

Lemma linked_app (R : A → A → Prop) x l y l' :
  linked R x (l ++ y :: l') ↔ linked R x (l ++ [y]) ∧ linked R y l'.
Proof. revert x. induction l as [|z l IH]; intros x; cbn; [tauto|]. rewrite IH. tauto. Qed.

(** Walks may start anywhere. *)
Lemma closed_rotate (R : A → A → Prop) l y l' : closed_walk R (l ++ y :: l') → closed_walk R (y :: l' ++ l).
Proof.
  destruct l as [|x l]; [by rewrite app_nil_r|]. intros Hl. cbn in Hl |- *.
  rewrite <-app_assoc in Hl. cbn in Hl. apply linked_app in Hl as [H1 H2].
  rewrite <-app_assoc. cbn. apply linked_app. by split.
Qed.

Lemma is_cycle_rotate (R : A → A → Prop) l l' : is_cycle R (l ++ l') → is_cycle R (l' ++ l).
Proof.
  intros [Hd Hl]. split; [by rewrite Permutation_app_comm|]. destruct l' as [|y l']; [by rewrite app_nil_r in Hl|].
  by apply closed_rotate.
Qed.

(** Each place of a closed walk has a next one. *)
Lemma closed_next (R : A → A → Prop) c x : closed_walk R c → x ∈ c → ∃ y, R x y.
Proof.
  intros Hc (l & l' & ->)%list_elem_of_split. apply closed_rotate in Hc. cbn in Hc.
  destruct (l' ++ l) as [|y m]; [by exists x; destruct Hc|by exists y; destruct Hc].
Qed.

(** A closed walk goes around a cycle. *)
Lemma closed_cycle (R : A → A → Prop) c : closed_walk R c → ∃ c', is_cycle R c'.
Proof.
  remember (length c) as n eqn:En. revert c En. induction n as [n IH] using lt_wf_ind; intros c En Hc.
  destruct (decide (NoDup c)) as [Hd|Hd]; [by exists c|].
  assert (Hdup : ∃ l y l1 l2, c = l ++ y :: l1 ++ y :: l2).
  { clear -HA Hd. induction c as [|x c IH]; [by destruct Hd; constructor|].
    destruct (decide (x ∈ c)) as [(l1 & l2 & ->)%list_elem_of_split|Hx]; [by exists [], x, l1, l2|].
    destruct IH as (l & y & l1 & l2 & ->); [intros Hd'; apply Hd; by constructor|]. by exists (x :: l), y, l1, l2. }
  destruct Hdup as (l & y & l1 & l2 & ->). apply (IH (S (length l1))) with (y :: l1); [|done|].
  - rewrite En, length_app. cbn. rewrite length_app. cbn. lia.
  - apply closed_rotate in Hc. cbn in Hc |- *. rewrite <-!app_assoc in Hc. by apply linked_app in Hc as [? _].
Qed.
End lists.

(** ** The resources of a thread *)

(** The list of a thread's resources is exact: releasing the resource that
    was acquired last undoes the acquisition, releasing another one removes one
    occurrence, and releasing one that is not held changes nothing; it never
    panics. *)
Theorem release_resource_ok key l :
  release_resource key (acquire_resource key l) = Some l ∧
  (key ∈ l → ∃ l', release_resource key l = Some l' ∧ l ≡ₚ key :: l') ∧
  (key ∉ l → release_resource key l = Some l).
Proof.
  unfold release_resource, acquire_resource. repeat split.
  - rewrite rposition_last by set_solver. apply swap_remove_last.
  - intros (l1 & l2 & -> & H2)%last_occurrence. rewrite rposition_last by done.
    destruct l2 as [|y l2 _] using rev_ind.
    + rewrite swap_remove_last. eexists. split; [done|]. by rewrite Permutation_app_comm.
    + rewrite swap_remove_mid. eexists. split; [done|]. solve_Permutation.
  - by intros ->%rposition_None.
Qed.

(** ** Normal forms of cycles *)

Lemma min_pos_first l y l' :
  (∀ z, z ∈ l → (y < z)%nat) → (∀ z, z ∈ l' → (y ≤ z)%nat) → min_pos (l ++ y :: l') = Some (length l, y).
Proof.
  intros Hl Hl'. induction l as [|x l IH]; cbn.
  - clear Hl. assert (Hm : ∀ q, min_pos l' = Some q → q.2 ∈ l').
    { clear Hl'. induction l' as [|z l' IH]; intros q; cbn; [done|]. destruct (min_pos l') as [[p x]|].
      - case_decide; intros [= <-]; cbn; [|by left]. right. by apply (IH (p, x)).
      - intros [= <-]. by left. }
    destruct (min_pos l') as [[p x]|]; [|done]. rewrite decide_False; [done|].
    specialize (Hl' x (Hm _ eq_refl)). lia.
  - rewrite IH by (intros; apply Hl; by right). rewrite decide_True; [done|]. apply Hl. by left.
Qed.

Lemma normalize_at l y l' :
  (∀ z, z ∈ l → (y < z)%nat) → (∀ z, z ∈ l' → (y ≤ z)%nat) → normalize_cycle (l ++ y :: l') = y :: l' ++ l.
Proof.
  intros Hl Hl'. unfold normalize_cycle. rewrite min_pos_first by done.
  rewrite <-!app_assoc, drop_app_length. cbn. rewrite length_app. cbn.
  replace (length l + S (length l'))%nat with (S (length (l' ++ l))) by (rewrite length_app; lia).
  cbn. by rewrite app_assoc, take_app_length.
Qed.

Lemma least (l : list nat) : l ≠ [] → ∃ y, y ∈ l ∧ ∀ z, z ∈ l → (y ≤ z)%nat.
Proof.
  induction l as [|x l IH]; intros Hl; [done|]. destruct (decide (l = [])) as [->|Hne].
  { exists x. split; [by left|]. intros z ->%list_elem_of_singleton. lia. }
  destruct (IH Hne) as (y & Hy & Hm). exists (Nat.min x y). split.
  - destruct (Nat.min_spec x y) as [[_ ->]|[_ ->]]; [by left|by right].
  - intros z [->|Hz]%elem_of_cons; [|specialize (Hm z Hz)]; lia.
Qed.

Lemma normalize_least l y l' :
  NoDup (l ++ y :: l') → (∀ z, z ∈ l ++ y :: l' → (y ≤ z)%nat) → normalize_cycle (l ++ y :: l') = y :: l' ++ l.
Proof.
  intros (_ & Hn & _)%NoDup_app Hm. apply normalize_at; intros z Hz; [|apply Hm; set_solver].
  assert (z ≠ y) by (intros ->; apply (Hn y Hz); by left).
  specialize (Hm z ltac:(set_solver)). lia.
Qed.

Lemma normalize_rotate a b : NoDup (a ++ b) → normalize_cycle (b ++ a) = normalize_cycle (a ++ b).
Proof.
  intros Hd. destruct (decide (a ++ b = [])) as [[-> ->]%app_nil|Hne]; [done|].
  destruct (least _ Hne) as (y & Hy & Hm).
  assert (Hd' : NoDup (b ++ a)) by (by rewrite Permutation_app_comm).
  assert (Hm' : ∀ z, z ∈ b ++ a → (y ≤ z)%nat) by (intros z Hz; apply Hm; set_solver).
  apply elem_of_app in Hy as [(l & l' & ->)%list_elem_of_split|(l & l' & ->)%list_elem_of_split].
  - rewrite app_assoc in Hd', Hm' |- *. rewrite normalize_least by done.
    rewrite <-app_assoc in Hd, Hm |- *. cbn in *. rewrite normalize_least by done. by rewrite <-app_assoc.
  - rewrite <-app_assoc in Hd', Hm' |- *. cbn in *. rewrite normalize_least by done.
    rewrite app_assoc in Hd, Hm |- *. rewrite normalize_least by done. by rewrite <-app_assoc.
Qed.

Lemma normalize_split c :
  NoDup c →
  ∃ l l', c = l ++ l' ∧ normalize_cycle c = l' ++ l ∧ ∀ x y, head (l' ++ l) = Some x → y ∈ c → (x ≤ y)%nat.
Proof.
  intros Hd. destruct (decide (c = [])) as [->|Hne]; [by exists [], []|].
  destruct (least _ Hne) as (y & Hy & Hm).
  apply list_elem_of_split in Hy as (l & l' & ->). exists l, (y :: l'). split; [done|].
  split; [by apply normalize_least|]. cbn. by intros x z [= <-] Hz%Hm.
Qed.

(** The normal form of a cycle is a rotation of it that starts with the
    least thread, and all rotations of a cycle have the same one: a cycle is in
    the set only once, wherever the search entered it. *)
Theorem normalize_cycle_canonical a b :
  NoDup (a ++ b) →
  normalize_cycle (b ++ a) = normalize_cycle (a ++ b) ∧
  ∃ l l', a ++ b = l ++ l' ∧ normalize_cycle (a ++ b) = l' ++ l ∧
          ∀ x y, head (l' ++ l) = Some x → y ∈ a ++ b → (x ≤ y)%nat.
Proof. intros Hd. split; [by apply normalize_rotate|by apply normalize_split]. Qed.

Lemma normalize_cycle_canonical_witness :
  NoDup ([5; 7] ++ [3])%nat ∧ normalize_cycle [3; 5; 7]%nat = normalize_cycle [5; 7; 3]%nat.
Proof.
  assert (Hd : NoDup ([5; 7] ++ [3])%nat) by (by apply (bool_decide_unpack _); vm_compute).
  split; [done|]. exact (proj1 (normalize_cycle_canonical [5; 7]%nat [3]%nat Hd)).
Defined.

(** ** The visitor *)

(** A wait graph has edges between threads and resources only. *)
Definition bipartite (g : graph) : Prop := ∀ u v, (u, v) ∈ g → is_thread u ≠ is_thread v.

(** A thread waits for another one: for a resource that it holds. *)
Definition waits_for (g : graph) (t u : tid) : Prop := ∃ r, (Thread t, Resource r) ∈ g ∧ (Resource r, Thread u) ∈ g.

Definition thread_of (n : WaitGraphNode) : option tid :=
  match n with Thread t => Some t | Resource _ => None end.

Abbreviation threads_of := (omap thread_of).

Lemma threads_linked g t l u :
  bipartite g → linked (edge g) (Thread t) (l ++ [Thread u]) → linked (waits_for g) t (threads_of l ++ [u]).
Proof.
  intros Hb. remember (length l) as n eqn:En. revert t l En.
  induction n as [n IH] using lt_wf_ind; intros t l En Hl. destruct l as [|[t'|r] l]; cbn in *.
  - destruct Hl as [Hl%Hb _]. done.
  - destruct Hl as [Hl%Hb _]. done.
  - destruct Hl as [H1 H2]. destruct l as [|[t'|r'] l]; cbn in *.
    + split; [|done]. exists r. by split; [|destruct H2].
    + destruct H2 as [H2 H3]. split; [by exists r|]. by eapply (IH (length l)); [lia| |].
    + destruct H2 as [H2%Hb _]. done.
Qed.

Lemma threads_nodup l : NoDup l → NoDup (threads_of l).
Proof.
  induction 1 as [|n l Hn Hd IH]; cbn; [constructor|]. destruct n as [t|r]; cbn; [|done].
  constructor; [|done]. intros (m & Hm & E)%list_elem_of_omap. destruct m; cbn in E; [by injection E as ->|done].
Qed.

Lemma linked_suffix {A} (R : A → A → Prop) (l : list A) y l' :
  (∀ x m, l ++ y :: l' = x :: m → linked R x m) → linked R y l'.
Proof.
  intros Hl. destruct l as [|x l]; [by apply Hl|]. specialize (Hl x (l ++ y :: l') eq_refl).
  by apply linked_app in Hl as [_ ?].
Qed.

Lemma linked_prefix {A} (R : A → A → Prop) x l l' : linked R x (l ++ l') → linked R x l.
Proof. revert x. induction l as [|y l IH]; intros x; [done|]. cbn. intros [? ?]. split; [done|by apply IH]. Qed.

Lemma linked_snoc {A} (R : A → A → Prop) x l m y z :
  x :: l = m ++ [y] → linked R x l → R y z → linked R x (l ++ [z]).
Proof.
  intros E Hl Hr. destruct m as [|x' m]; cbn in E; injection E as ? ->; subst.
  - by split.
  - rewrite <-app_assoc. apply linked_app. split; [done|]. by split.
Qed.

#[local] Arguments reverse : simpl never.

Section visitor.
Context (g : graph) (starts : list WaitGraphNode).
Hypothesis Hbip : bipartite g.
Hypothesis Hstarts : ∀ n, n ∈ starts → is_thread n = true.

(** What holds of a search and of the visitor's state after the same events. *)
Record visiting (s : search) (path : list tid) (cycles : gset (list tid)) : Prop := {
  vi_path : path = threads_of (reverse (unfinished s));
  vi_nodup : NoDup (unfinished s);
  vi_found n : n ∈ unfinished s → n ∈ found s;
  vi_linked n l : reverse (unfinished s) = n :: l → linked (edge g) n l;
  vi_pending v : pending s = Some v → v ∉ found s ∧ ∃ u l, unfinished s = u :: l ∧ (u, v) ∈ g;
  vi_cycles c : c ∈ cycles → is_cycle (waits_for g) c ∧ normalize_cycle c = c;
}.

Lemma visiting0 : visiting search0 [] ∅.
Proof. split; cbn; try done; try set_solver. constructor. Qed.

(** The cycle that a back edge closes. *)
Lemma back_edge_cycle r n st :
  NoDup (Resource r :: st) → (Resource r, Thread n) ∈ g → Thread n ∈ Resource r :: st →
  (∀ m l, reverse (Resource r :: st) = m :: l → linked (edge g) m l) →
  ∃ p l, threads_of (reverse (Resource r :: st)) = p ++ n :: l ∧ n ∉ l ∧ is_cycle (waits_for g) (n :: l).
Proof.
  intros Hd Hr Hn Hl. apply elem_of_cons in Hn as [?|Hn]; [done|].
  apply list_elem_of_split in Hn as (l1 & l2 & ->). rewrite reverse_cons, reverse_app, reverse_cons in Hl |- *.
  rewrite <-!app_assoc in Hl |- *. cbn in Hl |- *. apply linked_suffix in Hl.
  exists (threads_of (reverse l2)), (threads_of (reverse l1 ++ [Resource r])).
  assert (Hd' : NoDup (threads_of (Thread n :: reverse l1 ++ [Resource r]))).
  { apply threads_nodup. replace (Resource r :: l1 ++ Thread n :: l2) with ((Resource r :: l1 ++ [Thread n]) ++ l2) in Hd
      by (cbn; by rewrite <-app_assoc).
    apply NoDup_app in Hd as (Hd & _ & _). revert Hd. rewrite reverse_Permutation. apply NoDup_Permutation_proper.
    solve_Permutation. }
  rewrite omap_app. split; [done|]. split; [by apply NoDup_cons in Hd' as [? _]|]. split; [done|].
  apply threads_linked; [done|]. rewrite <-app_assoc. apply linked_app. by split.
Qed.

Lemma visit_back r n st path cycles i sn :
  visiting (MkSearch (Resource r :: st) None i sn) path cycles →
  (Resource r, Thread n) ∈ g → Thread n ∈ Resource r :: st →
  ∃ c, visit (path, cycles) (BackEdge (Resource r) (Thread n)) = Some (path, {[c]} ∪ cycles) ∧ n ∈ c ∧
       is_cycle (waits_for g) c ∧ normalize_cycle c = c.
Proof.
  intros [-> Hd _ Hl _ _] He Hn. cbn [unfinished visit] in *.
  destruct (back_edge_cycle r n st Hd He Hn Hl) as (p & l & -> & Hnl & Hc).
  rewrite rposition_last by done. cbn [mbind option_bind]. rewrite drop_app_length.
  assert (Hcd : NoDup (n :: l)) by apply Hc.
  destruct (normalize_split (n :: l) Hcd) as (l1 & l2 & E & En & _). rewrite En, E in *.
  eexists. split; [done|]. split.
  - assert (Hin : n ∈ l1 ++ l2) by (rewrite <-E; by left). set_solver.
  - split; [by apply is_cycle_rotate|]. rewrite <-En at 2. by apply normalize_rotate.
Qed.

Lemma visiting_step s path cycles e s' :
  visiting s path cycles → dfs_step g starts s e s' →
  ∃ path' cycles', visit (path, cycles) e = Some (path', cycles') ∧ visiting s' path' cycles' ∧ cycles ⊆ cycles' ∧
    ∀ u n, e = BackEdge u (Thread n) → ∃ c, c ∈ cycles' ∧ n ∈ c.
Proof.
  intros V Hs. destruct Hs as [pre n post i fd sn E Hpre Hn|st n i fd sn|u v st fd sn He Hsn Hv|u v st fd sn He Hsn Hv
    |u v st fd sn He Hsn Hv Hv'|u st i fd sn Ho].
  - destruct V as [-> Hd Hf Hl Hp Hc]; cbn in *.
    assert (Ht : is_thread n = true) by (apply Hstarts; rewrite E; set_solver). destruct n as [t|]; [|done].
    eexists _, cycles. split; [done|]. split; [|by split; [|done]]. split; cbn; try done.
    + by apply NoDup_singleton.
    + set_solver.
    + by intros m l [= <- <-].
  - destruct V as [-> Hd Hf Hl Hp Hc]; cbn in *. destruct (Hp n eq_refl) as (Hn & u & l & -> & He).
    assert (Hnew : visiting (MkSearch (n :: u :: l) None (n :: fd) sn) (threads_of (reverse (n :: u :: l))) cycles).
    { split; cbn; try done.
      - constructor; [|done]. by intros Hu%Hf.
      - intros m Hm. apply elem_of_cons in Hm as [->|Hm]; [by left|right; by apply Hf].
      - intros m k. rewrite reverse_cons. intros E.
        destruct (reverse (u :: l)) as [|m' k'] eqn:Er; [by rewrite reverse_cons in Er; destruct (reverse l)|].
        injection E as -> <-. apply (linked_snoc _ _ _ (reverse l) u); [by rewrite <-reverse_cons|by apply Hl|done]. }
    rewrite (reverse_cons (u :: l)), omap_app in Hnew. cbn in *. destruct n as [t|r]; cbn in *.
    + eexists _, cycles. by split_and!.
    + rewrite app_nil_r in Hnew. eexists _, cycles. by split_and!.
  - exists path, cycles. split; [done|]. split; [|by split; [|done]]. destruct V as [-> Hd Hf Hl Hp Hc]; split; cbn in *; try done.
    intros w [= <-]. split; [done|]. by exists u, st.
  - pose proof (Hbip _ _ He) as Huv. destruct v as [n|r].
    + destruct u as [|r]; [done|]. destruct (visit_back _ _ _ _ _ _ _ V He Hv) as (c & Ev & Hc & Hc').
      eexists path, _. split; [exact Ev|]. destruct V as [-> Hd Hf Hl Hp Hcs]. split; [split; cbn in *; try done|].
      * intros c' [->%elem_of_singleton|?]%elem_of_union; [done|by apply Hcs].
      * split; [set_solver|]. intros u' n' [= <- <-]. exists c. split; [set_solver|done].
    + exists path, cycles. split; [done|]. split; [|by split; [|done]]. destruct V as [-> Hd Hf Hl Hp Hc]; by split.
  - exists path, cycles. split; [done|]. split; [|by split; [|done]]. destruct V as [-> Hd Hf Hl Hp Hc]; by split.
  - destruct V as [-> Hd Hf Hl Hp Hc]; cbn in *.
    assert (Hnew : visiting (MkSearch st None fd sn) (threads_of (reverse st)) cycles).
    { split; cbn; try done.
      - by apply NoDup_cons in Hd as [_ ?].
      - intros m Hm. apply Hf. by right.
      - intros m l E. specialize (Hl m (l ++ [u])). rewrite reverse_cons, E in Hl. specialize (Hl eq_refl). by apply linked_prefix in Hl. }
    rewrite reverse_cons, omap_app. cbn. destruct u as [t|r]; cbn.
    + rewrite pop_app. eexists _, cycles. by split_and!.
    + rewrite app_nil_r. eexists _, cycles. by split_and!.
Qed.

(** ** Cycles that are not missed *)

Record tracing (s : search) : Prop := {
  tr_seen u v : (u, v) ∈ seen s → u ∈ found s ∧ (v ∈ found s ∨ pending s = Some v);
  tr_done u v : u ∈ found s → u ∉ unfinished s → (u, v) ∈ g → (u, v) ∈ seen s;
}.

Lemma tracing0 : tracing search0.
Proof. split; cbn; set_solver. Qed.

Lemma tracing_step s path cycles e s' :
  visiting s path cycles → tracing s → dfs_step g starts s e s' → tracing s'.
Proof.
  intros V [Hs Hd] Hst. assert (Hf := vi_found _ _ _ V).
  destruct Hst; split; cbn in *; intros x y Hx; try (intros Hx' Hxy).
  all: try solve [set_solver | destruct (Hs x y) as [? [?|?]]; [set_solver..|]; naive_solver].
Qed.

Section cycle.
Context (cn : list WaitGraphNode).
Hypothesis Hcycle : closed_walk (edge g) cn.
Hypothesis Halone : ∀ t r, Resource r ∈ cn → (Thread t, Resource r) ∈ g → Thread t ∈ cn.

Definition reported (cycles : gset (list tid)) : Prop := ∃ c t, c ∈ cycles ∧ t ∈ c ∧ Thread t ∈ cn.

(** The search has not met the cycle, has reported one that meets it, or has
    entered it at a thread that is not finished. *)
Definition entered (s : search) : Prop :=
  ∃ t pre post, unfinished s = pre ++ Thread t :: post ∧ Thread t ∈ cn ∧
    (∀ n, n ∈ cn → n ∉ post) ∧ ∀ n, n ∈ cn → (n, Thread t) ∉ seen s.
Definition covered (s : search) (cycles : gset (list tid)) : Prop :=
  (∀ n, n ∈ cn → n ∉ found s) ∨ reported cycles ∨ entered s.

Lemma reported_mono cycles cycles' : cycles ⊆ cycles' → reported cycles → reported cycles'.
Proof. intros H (c & t & Hc & ?). exists c, t. split; [by apply H|done]. Qed.

(** When the thread is about to be finished, all of the cycle was visited. *)
Lemma walk_cycle s t post x l :
  tracing s → unfinished s = Thread t :: post → pending s = None → (∀ n, n ∈ cn → n ∉ post) →
  x ∈ cn → (∀ v, (x, v) ∈ g → (x, v) ∈ seen s) → (∀ n, n ∈ l → n ∈ cn) →
  linked (edge g) x (l ++ [Thread t]) → ∃ n, n ∈ cn ∧ (n, Thread t) ∈ seen s.
Proof.
  intros [Hs Hd] Eu Ep Hpost. revert x. induction l as [|y l IH]; intros x Hx Ho Hl Hlk; cbn in Hlk.
  - exists x. split; [done|]. apply Ho. by destruct Hlk.
  - destruct Hlk as [Hxy Hlk]. assert (Hy : y ∈ cn) by (apply Hl; by left).
    destruct (decide (y = Thread t)) as [->|Hyt]; [exists x; split; [done|by apply Ho]|].
    apply (IH y); [done| |intros; apply Hl; by right|done]. intros v Hv. apply Hd; [| |done].
    + destruct (Hs x y (Ho _ Hxy)) as [_ [?|?]]; [done|congruence].
    + rewrite Eu. apply not_elem_of_cons. split; [done|by apply Hpost].
Qed.

Lemma not_finished s t post :
  tracing s → unfinished s = Thread t :: post → pending s = None → (∀ n, n ∈ cn → n ∉ post) →
  Thread t ∈ cn → (∀ v, (Thread t, v) ∈ g → (Thread t, v) ∈ seen s) → ∃ n, n ∈ cn ∧ (n, Thread t) ∈ seen s.
Proof.
  intros Ht Eu Ep Hpost Hc Ho. apply list_elem_of_split in Hc as Hc'. destruct Hc' as (l & l' & E).
  assert (Hr := Hcycle). rewrite E in Hr. apply closed_rotate in Hr.
  apply (walk_cycle s t post (Thread t) (l' ++ l)); try done.
  intros n Hn. rewrite E. set_solver.
Qed.

Lemma covered_step s path cycles e s' cycles' :
  visiting s path cycles → tracing s → dfs_step g starts s e s' → cycles ⊆ cycles' →
  (∀ u n, e = BackEdge u (Thread n) → ∃ c, c ∈ cycles' ∧ n ∈ c) → covered s cycles → covered s' cycles'.
Proof.
  intros V T Hst Hmono Hback [Hno|[Hr|Hen]].
  - destruct Hst as [pre n post i fd sn E Hpre Hn|st n i fd sn|u v st fd sn He Hsn Hv|u v st fd sn He Hsn Hv
      |u v st fd sn He Hsn Hv Hv'|u st i fd sn Ho]; cbn in *; try (by left).
    + destruct (decide (n ∈ cn)) as [Hc|Hc]; [|left; set_solver]. right; right.
      assert (Ht : is_thread n = true) by (apply Hstarts; rewrite E; set_solver). destruct n as [t|]; [|done].
      exists t, [], []. split; [done|]. split; [done|]. split; [set_solver|].
      intros m Hm Hsn. by apply (Hno m Hm), (tr_seen _ T m (Thread t)).
    + destruct (decide (n ∈ cn)) as [Hc|Hc]; [|left; set_solver]. right; right.
      destruct (vi_pending _ _ _ V n eq_refl) as (Hn & u & l & [= ->] & He). destruct n as [t|r].
      * exists t, [], (u :: l). split; [done|]. split; [done|]. split.
        -- intros m Hm Hin. by apply (Hno m Hm), (vi_found _ _ _ V).
        -- intros m Hm Hsn. by apply (Hno m Hm), (tr_seen _ T m (Thread t)).
      * destruct u as [t|]; [|by apply Hbip in He]. destruct (Hno (Thread t)); [by eapply Halone|].
        apply (vi_found _ _ _ V). by left.
  - right; left. by eapply reported_mono.
  - destruct Hen as (t & pre & post & E & Ht & Hpost & Hns).
    destruct Hst as [pre' n post' i fd sn E' Hpre Hn|st n i fd sn|u v st fd sn He Hsn Hv|u v st fd sn He Hsn Hv
      |u v st fd sn He Hsn Hv Hv'|u st i fd sn Ho]; cbn in *.
    + by destruct pre.
    + right; right. exists t, (n :: pre), post. cbn. by rewrite E.
    + right; right. exists t, pre, post. split; [done|]. split; [done|]. split; [done|]. cbn.
      intros m Hm [[= <- <-]|Hin]%elem_of_cons; [|by apply (Hns m Hm)].
      apply Hv, (vi_found _ _ _ V). cbn. rewrite E. set_solver.
    + destruct (decide (v = Thread t)) as [->|Hvt].
      * right; left. destruct (Hback u t eq_refl) as (c & ? & ?). by exists c, t.
      * right; right. exists t, pre, post. split; [done|]. split; [done|]. split; [done|]. cbn. set_solver.
    + right; right. exists t, pre, post. split; [done|]. split; [done|]. split; [done|]. cbn.
      intros m Hm [[= <- <-]|Hin]%elem_of_cons; [|by apply (Hns m Hm)]. apply Hv'. rewrite E. set_solver.
    + destruct pre as [|u' pre]; cbn in E; injection E as -> ->.
      * destruct (not_finished _ t post T eq_refl eq_refl Hpost Ht Ho) as (n & Hn & Hsn). by destruct (Hns n Hn).
      * right; right. by exists t, pre, post.
Qed.
End cycle.

(** ** Whole searches *)

Lemma visit_run s es s' path cycles :
  dfs_run g starts s es s' → visiting s path cycles → tracing s →
  ∃ path' cycles', visit_all (path, cycles) es = Some (path', cycles') ∧ visiting s' path' cycles' ∧
    ∀ cn, closed_walk (edge g) cn → (∀ t r, Resource r ∈ cn → (Thread t, Resource r) ∈ g → Thread t ∈ cn) →
          covered cn s cycles → covered cn s' cycles'.
Proof.
  intros Hr. revert path cycles. induction Hr as [s|s e s1 es s2 Hs Hr IH]; intros path cycles V T.
  - exists path, cycles. by split_and!.
  - destruct (visiting_step _ _ _ _ _ V Hs) as (p1 & c1 & E & V1 & Hmono & Hb).
    destruct (IH p1 c1 V1 (tracing_step _ _ _ _ _ V T Hs)) as (p2 & c2 & E2 & V2 & Hc).
    exists p2, c2. cbn [visit_all]. rewrite E. cbn. split; [done|]. split; [done|].
    intros cn H1 H2 Hcv. apply Hc; [done..|]. by apply (covered_step cn H1 H2 s path cycles e s1 c1).
Qed.

Lemma visit_complete es :
  dfs_complete g starts es →
  ∃ path cycles, visit_all ([], ∅) es = Some (path, cycles) ∧
    (∀ c, c ∈ cycles → is_cycle (waits_for g) c ∧ normalize_cycle c = c) ∧
    ∀ cn, closed_walk (edge g) cn → (∀ t r, Resource r ∈ cn → (Thread t, Resource r) ∈ g → Thread t ∈ cn) →
          (∃ n, n ∈ cn ∧ n ∈ starts) → reported cn cycles.
Proof.
  intros (fd & sn & Hr & Hall). destruct (visit_run _ _ _ _ _ Hr visiting0 tracing0) as (p & c & E & V & Hc).
  exists p, c. split; [done|]. split; [apply V|]. intros cn H1 H2 (n & Hn & Hs).
  destruct (Hc cn H1 H2) as [Hno|[Hrep|(t & pre & post & Eu & _)]]; [left; set_solver| |done|by destruct pre].
  destruct (Hno n Hn). by apply Hall.
Qed.
End visitor.

(** ** The detector *)

(** The thread is parked without a timeout, and was not reported yet. *)
Definition blocked (td : tid → ThreadData) (entries : table) (t : tid) : Prop :=
  (∃ b, b ∈ entries ∧ t ∈ b) ∧ parked_with_timeout (td t) = false ∧ deadlocked (td t) = false.

(** It waits for a resource that another blocked thread holds. *)
Definition blocked_by (td : tid → ThreadData) (entries : table) (t u : tid) : Prop :=
  blocked td entries t ∧ blocked td entries u ∧ key (td t) ∈ resources (td u).

Section detector.
Context (td : tid → ThreadData) (entries : table).

Lemma build_graph_edge {N} (f : tid → N) (h : Z → N) e :
  e ∈ build_graph f h td entries ↔
  ∃ t, blocked td entries t ∧ (e = (f t, h (key (td t))) ∨ ∃ r, r ∈ resources (td t) ∧ e = (h r, f t)).
Proof.
  unfold build_graph. rewrite list_elem_of_In, in_concat. split.
  - intros (l & Hl & He). apply list_elem_of_In, list_elem_of_fmap in Hl as (b & -> & Hb).
    apply in_concat in He as (l' & Hl' & He). apply list_elem_of_In, list_elem_of_fmap in Hl' as (t & -> & Ht).
    apply list_elem_of_In in He. unfold thread_edges in He. exists t.
    destruct (parked_with_timeout (td t)) eqn:E1, (deadlocked (td t)) eqn:E2; cbn in He; try by apply not_elem_of_nil in He.
    split; [split; [by exists b|done]|]. apply elem_of_app in He as [He|He].
    + right. apply list_elem_of_fmap in He as (r & -> & Hr). by exists r.
    + left. by apply list_elem_of_singleton in He.
  - intros (t & ((b & Hb & Ht) & E1 & E2) & He). exists (concat (thread_edges f h td <$> b)). split.
    { apply list_elem_of_In, list_elem_of_fmap. by exists b. }
    apply in_concat. exists (thread_edges f h td t). split; [apply list_elem_of_In, list_elem_of_fmap; by exists t|].
    apply list_elem_of_In. unfold thread_edges. rewrite E1, E2. cbn. apply elem_of_app.
    destruct He as [->|(r & Hr & ->)]; [right; by left|left]. apply list_elem_of_fmap. by exists r.
Qed.

Abbreviation slow_graph := (build_graph Thread Resource td entries).

Lemma waits_edge t r : (Thread t, Resource r) ∈ slow_graph ↔ blocked td entries t ∧ r = key (td t).
Proof. rewrite build_graph_edge. split; [intros (t' & ? & [[= -> ->]|(r' & ? & ?)]); done|]. intros [? ->]. exists t. by auto. Qed.

Lemma holds_edge t r : (Resource r, Thread t) ∈ slow_graph ↔ blocked td entries t ∧ r ∈ resources (td t).
Proof.
  rewrite build_graph_edge. split; [intros (t' & ? & [?|(r' & ? & [= -> ->])]); done|].
  intros [? ?]. exists t. split; [done|]. right. by exists r.
Qed.

Lemma slow_bipartite : bipartite slow_graph.
Proof. intros u v (t & _ & [[= -> ->]|(r & _ & [= -> ->])])%build_graph_edge; done. Qed.

Lemma waits_for_blocked t u : waits_for slow_graph t u ↔ blocked_by td entries t u.
Proof.
  unfold waits_for, blocked_by. setoid_rewrite waits_edge. setoid_rewrite holds_edge. naive_solver.
Qed.

(** A walk of threads, with the resources they wait for. *)
Fixpoint with_keys (c : list tid) : list WaitGraphNode :=
  match c with
  | [] => []
  | t :: c => Thread t :: Resource (key (td t)) :: with_keys c
  end.

Lemma elem_of_with_keys c n :
  n ∈ with_keys c ↔ ∃ t, t ∈ c ∧ (n = Thread t ∨ n = Resource (key (td t))).
Proof.
  induction c as [|t c IH]; cbn; [split; [by intros ?%not_elem_of_nil|]; intros (? & ?%not_elem_of_nil & _); done|].
  rewrite !elem_of_cons, IH. setoid_rewrite elem_of_cons. naive_solver.
Qed.

Lemma with_keys_linked t c u :
  linked (blocked_by td entries) t (c ++ [u]) →
  linked (edge slow_graph) (Thread t) (Resource (key (td t)) :: with_keys c ++ [Thread u]).
Proof.
  revert t. induction c as [|t' c IH]; intros t; cbn.
  - intros [(Ht & Hu & Hk) _]. split; [by apply waits_edge|]. split; [by apply holds_edge|done].
  - intros [(Ht & Ht' & Hk) Hl]. split; [by apply waits_edge|]. split; [by apply holds_edge|]. by apply IH.
Qed.

Lemma with_keys_closed c : closed_walk (blocked_by td entries) c → closed_walk (edge slow_graph) (with_keys c).
Proof. destruct c as [|t c]; [done|]. cbn [closed_walk with_keys]. apply with_keys_linked. Qed.

Lemma fast_closed (addr : tid → Z) c :
  closed_walk (edge slow_graph) c → ∃ c', closed_walk (edge (build_graph addr id td entries)) c'.
Proof.
  set (f := λ n, match n with Thread t => addr t | Resource r => r end). intros Hc. exists (f <$> c).
  assert (He : ∀ u v, edge slow_graph u v → edge (build_graph addr id td entries) (f u) (f v)).
  { intros u v (t & Ht & E)%build_graph_edge. apply build_graph_edge. exists t. split; [done|].
    destruct E as [[= -> ->]|(r & ? & [= -> ->])]; [by left|right; by exists r]. }
  destruct c as [|x c]; [done|]. cbn in *. revert Hc. change [f x] with (f <$> [x]). rewrite <-fmap_app.
  generalize (c ++ [x]). clear c. intros l. revert x. induction l as [|y l IH]; intros x; [done|]. cbn.
  intros [? ?]. split; [by apply He|by apply IH].
Qed.

Section search.
Context {P : Petgraph}.

(** What the reports are worth. *)
Definition finds_cycles (cycles : gset (list tid)) : Prop :=
  (∀ c, c ∈ cycles → is_cycle (blocked_by td entries) c ∧ normalize_cycle c = c) ∧
  ∀ c, closed_walk (blocked_by td entries) c →
       (∀ t u, u ∈ c → blocked td entries t → key (td t) = key (td u) → t ∈ c) →
       ∃ c' t, c' ∈ cycles ∧ t ∈ c' ∧ t ∈ c.

Lemma slow_ok : ∃ cycles, check_wait_graph_slow td entries = Some cycles ∧ finds_cycles cycles.
Proof.
  unfold check_wait_graph_slow, graph_cycles. set (starts := filter is_thread (nodes slow_graph)).
  destruct (nodes_spec slow_graph) as [_ Hn].
  assert (Hst : ∀ n, n ∈ starts → is_thread n = true).
  { intros n [? _]%list_elem_of_filter. by apply Is_true_true. }
  destruct (visit_complete slow_graph starts slow_bipartite Hst (depth_first_search slow_graph starts))
    as (path & cycles & -> & Hs & Hc).
  { apply dfs_spec. by intros n [_ ?]%list_elem_of_filter. }
  exists cycles. split; [done|]. split.
  - intros c [[Hd Hw] ?]%Hs. split; [|done]. split; [done|]. destruct c as [|t c]; [done|]. cbn in *.
    revert Hw. generalize (c ++ [t]). intros l. clear. revert t. induction l as [|u l IH]; intros t; [done|]. cbn.
    intros [? ?]. split; [by apply waits_for_blocked|by apply IH].
  - intros c Hw Ha. destruct (Hc (with_keys c)) as (c' & t & ? & ? & Ht).
    + by apply with_keys_closed.
    + intros t r (u & Hu & [?|[= ->]])%elem_of_with_keys [Hb Hk]%waits_edge; [done|].
      apply elem_of_with_keys. exists t. split; [by eapply Ha|by left].
    + destruct c as [|t c]; [done|]. exists (Thread t). split; [by left|]. apply list_elem_of_filter. split; [done|].
      apply Hn. exists (Resource (key (td t))). left. apply waits_edge. split; [|done].
      destruct c; by destruct Hw as [(? & ? & ?) _].
    + exists c', t. split; [done|]. split; [done|]. apply elem_of_with_keys in Ht as (u & ? & [[= ->]|?]); done.
Qed.
End search.
End detector.

(** The cycles that are reported are cycles of threads that are queued. *)
Lemma check_deadlock_cycles (P : Petgraph) addr td entries found c :
  check_deadlock addr td entries = Some found → c ∈ found →
  NoDup c ∧ ∀ t, t ∈ c → t ∈ concat entries.
Proof.
  unfold check_deadlock. destruct (check_wait_graph_fast addr td entries); [|by intros [= <-] ?%not_elem_of_empty].
  destruct (slow_ok (P := P) td entries) as (found' & -> & Hs & _). intros [= ->] [[Hd Hw] _]%Hs.
  split; [done|]. intros t Ht. destruct (closed_next _ _ _ Hw Ht) as (u & ((b & Hb & Hu) & _) & _).
  apply list_elem_of_In, in_concat. setoid_rewrite <- list_elem_of_In. by exists b.
Qed.

(** C37: On a table that nobody changes meanwhile, [check_deadlock] reports
    cycles only: of distinct threads, parked without a timeout, each of which
    waits for a resource that the next one holds; each cycle once.  It finds
    one on every closed chain of blocked threads that no other blocked thread
    waits for; the fast check never lets one pass; nothing panics. *)
Theorem check_deadlock_ok (P : Petgraph) addr td entries :
  ∃ cycles, check_deadlock addr td entries = Some cycles ∧ finds_cycles td entries cycles.
Proof.
  unfold check_deadlock. destruct (check_wait_graph_fast addr td entries) eqn:E; [apply slow_ok|].
  exists ∅. split; [done|]. split; [set_solver|]. intros c Hc _. exfalso.
  apply with_keys_closed, (fast_closed _ _ addr) in Hc as (c' & [c'' Hc'']%closed_cycle).
  unfold check_wait_graph_fast in E. assert (is_cyclic_directed (build_graph addr id td entries) = true); [|congruence].
  apply is_cyclic_spec. by exists c''.
Qed.

(** ** A cycle that is missed

    Threads 1 and 2 hold a resource each and wait for the other's, and thread 0
    waits for the resource of thread 1.  The graph has one edge out of every
    node, so a search that starts at thread 0 has one course only: it meets the
    cycle at the resource, and the edge that closes it leads there, where the
    visitor does not look. *)

(** The course of a search at a node with one edge, to [w]. *)
Definition only_step (u w : WaitGraphNode) (st fd : list WaitGraphNode) (sn : graph) : (nat → DfsEvent) * search :=
  if decide ((u, w) ∈ sn) then (Finish u, MkSearch st None fd sn)
  else if decide (w ∈ fd) then
    if decide (w ∈ u :: st) then (λ _, BackEdge u w, MkSearch (u :: st) None fd ((u, w) :: sn))
    else (λ _, CrossForwardEdge u w, MkSearch (u :: st) None fd ((u, w) :: sn))
  else (λ _, TreeEdge u w, MkSearch (u :: st) (Some w) fd ((u, w) :: sn)).

Lemma run_only g starts u w st fd sn es fd' sn' :
  (∀ v, (u, v) ∈ g ↔ v = w) → (if decide (w ∈ u :: st) then w ∈ fd else True) →
  dfs_run g starts (MkSearch (u :: st) None fd sn) es (MkSearch [] None fd' sn') →
  ∃ i es', es = (only_step u w st fd sn).1 i :: es' ∧
           dfs_run g starts (only_step u w st fd sn).2 es' (MkSearch [] None fd' sn').
Proof.
  intros Hw Hf Hr. inversion Hr as [|s e s1 es' s2 Hs Hr1]; subst. exists (match e with Finish _ i => i | _ => O end), es'.
  unfold only_step.
  inversion Hs as [| |u' v st' fd1 sn1 He Hsn Hv|u' v st' fd1 sn1 He Hsn Hv|u' v st' fd1 sn1 He Hsn Hv Hv'|u' st' i fd1 sn1 Ho]; subst;
    try (apply Hw in He as ->; rewrite (decide_False (P := (u, w) ∈ sn)) by done).
  - by rewrite decide_False.
  - rewrite decide_True in Hf by done. by rewrite !decide_True.
  - rewrite decide_True, decide_False by done. done.
  - rewrite decide_True; [done|]. by apply Ho, Hw.
Qed.

Lemma run_child g starts n st fd sn es fd' sn' :
  dfs_run g starts (MkSearch st (Some n) fd sn) es (MkSearch [] None fd' sn') →
  ∃ i es', es = Discover n i :: es' ∧ dfs_run g starts (MkSearch (n :: st) None (n :: fd) sn) es' (MkSearch [] None fd' sn').
Proof.
  intros Hr. inversion Hr as [|s e s1 es' s2 Hs Hr1]; subst. inversion Hs; subst. by exists i, es'.
Qed.

Definition missed : graph :=
  [(Thread 0, Resource 1); (Resource 2, Thread 2); (Thread 2, Resource 1); (Resource 1, Thread 1); (Thread 1, Resource 2)].

Definition missed_next (n : WaitGraphNode) : WaitGraphNode :=
  match n with
  | Thread 1 => Resource 2 | Thread _ => Resource 1
  | Resource 1 => Thread 1 | Resource _ => Thread 2
  end.

Ltac next Hr :=
  let i := fresh "i" in
  match type of Hr with
  | dfs_run _ _ (MkSearch _ (Some _) _ _) _ _ =>
      apply run_child in Hr as (i & ? & -> & Hr)
  | dfs_run _ _ (MkSearch (?u :: ?st) None ?fd ?sn) _ _ =>
      let w := eval cbv in (missed_next u) in
      let r := eval vm_compute in (only_step u w st fd sn) in
      apply (run_only _ _ u w) in Hr as (i & ? & -> & Hr);
      [ change (only_step u w st fd sn) with r in *; cbn [fst snd] in Hr |- *
      | intros v; unfold missed; rewrite !elem_of_cons, elem_of_nil; naive_solver
      | vm_compute; repeat constructor ]
  end.

Lemma missed_search starts es :
  dfs_complete missed (Thread 0 :: starts) es → (∀ n, n ∈ starts → n = Thread 0 ∨ n = Thread 1 ∨ n = Thread 2) →
  snd <$> visit_all ([], ∅) es = Some ∅.
Proof.
  intros (fd & sn & Hr & Hall) Hst.
  inversion Hr as [|s e s1 es' s2 Hs Hr1]; subst; [by destruct (not_elem_of_nil (Thread 0)); apply Hall; left|].
  inversion Hs as [pre n post i fd1 sn1 E Hpre Hn| | | | |]; subst.
  assert (n = Thread 0) as ->. { destruct pre as [|m pre]; [by injection E as ->|]. destruct (not_elem_of_nil m). apply Hpre. by left. }
  clear Hr Hs E Hpre Hn. rename Hr1 into Hr.
  do 14 next Hr. inversion Hr as [|s e s1 es' s2 Hs Hr1]; subst; [done|]. exfalso.
  inversion Hs as [pre' n post' i' fd1 sn1 E Hpre Hn| | | | |]; subst. apply Hn.
  assert (Hin : n ∈ Thread 0 :: starts) by (rewrite E; set_solver).
  apply elem_of_cons in Hin as [->|Hin]; [set_solver|]. destruct (Hst n Hin) as [->|[->| ->]]; set_solver.
Qed.

(** The table, its threads, and the deadlock. *)
Definition missed_data (t : tid) : ThreadData :=
  match t with
  | 1%nat => MkTD 2 false [1] false
  | 2%nat => MkTD 1 false [2] false
  | _ => MkTD 1 false [] false
  end.
Definition missed_table : table := [[0; 2]; [1]]%nat.

(** C39: A deadlock can pass unnoticed: threads 1 and 2 wait for each other, but
    a third thread that waits for a resource of theirs, and comes first among
    the nodes of the graph, makes [check_deadlock] report nothing. *)
Theorem check_deadlock_misses (P : Petgraph) addr :
  head (filter is_thread (nodes (build_graph Thread Resource missed_data missed_table))) = Some (Thread 0) →
  is_cycle (blocked_by missed_data missed_table) [1; 2]%nat ∧
  check_deadlock addr missed_data missed_table = Some ∅.
Proof.
  intros Hh. split.
  - assert (Hb : ∀ t, t ∈ [1; 2]%nat → blocked missed_data missed_table t).
    { intros t [->|[->|[]%not_elem_of_nil]%elem_of_cons]%elem_of_cons; (split; [|done]);
        [exists [1%nat]|exists [0; 2]%nat]; set_solver. }
    split; [by apply (bool_decide_unpack _); vm_compute|]. cbn.
    split_and!; try (split_and!; [apply Hb; set_solver..|]); try done; cbn; set_solver.
  - unfold check_deadlock. destruct (check_wait_graph_fast _ _ _); [|done].
    unfold check_wait_graph_slow, graph_cycles. destruct (nodes_spec missed) as [_ Hn].
    change (build_graph Thread Resource missed_data missed_table) with missed in *.
    set (starts := filter is_thread (nodes missed)) in *.
    destruct starts as [|n starts'] eqn:E; [done|]. injection Hh as ->.
    assert (Hin : ∀ n, n ∈ Thread 0 :: starts' → n ∈ nodes missed ∧ is_thread n).
    { intros n Hi. rewrite <-E in Hi. by apply list_elem_of_filter in Hi as [? ?]. }
    apply missed_search with (starts := starts').
    + apply dfs_spec. intros n Hi. by apply Hin.
    + intros n Hi. destruct (Hin n) as [Hnn Ht]; [by right|]. apply Hn in Hnn as (m & Hm). unfold missed in Hm.
      rewrite !elem_of_cons, !elem_of_nil in Hm. destruct n; [|done]. naive_solver.
Qed.

(** ** A search that behaves as documented *)

Section instance.
#[local] Obligation Tactic := idtac.

Definition simple_nodes (g : graph) : list WaitGraphNode :=
  reverse (remove_dups (reverse (concat ((λ e, [e.1; e.2]) <$> g)))).

Definition succs (g : graph) (u : WaitGraphNode) : list WaitGraphNode :=
  remove_dups (snd <$> filter (λ e, e.1 = u) g).

(** The stack has the successors that were not looked at yet. *)
Fixpoint simple_dfs (fuel : nat) (g : graph) (starts : list WaitGraphNode)
    (stack : list (WaitGraphNode * list WaitGraphNode)) (fd : list WaitGraphNode) : list DfsEvent :=
  match fuel with
  | O => []
  | S fuel =>
      match stack with
      | [] =>
          match starts with
          | [] => []
          | n :: starts =>
              if decide (n ∈ fd) then simple_dfs fuel g starts [] fd
              else Discover n 0 :: simple_dfs fuel g starts [(n, succs g n)] (n :: fd)
          end
      | (u, []) :: stack => Finish u 0 :: simple_dfs fuel g starts stack fd
      | (u, v :: vs) :: stack =>
          if decide (v ∈ fd) then
            (if decide (v ∈ u :: stack.*1) then BackEdge u v else CrossForwardEdge u v)
              :: simple_dfs fuel g starts ((u, vs) :: stack) fd
          else TreeEdge u v :: Discover v 0 :: simple_dfs fuel g starts ((v, succs g v) :: (u, vs) :: stack) (v :: fd)
      end
  end.

Definition todo (g : graph) (fd ns : list WaitGraphNode) : nat :=
  sum_list ((λ n, 2 + length (succs g n))%nat <$> filter (λ n, n ∉ fd) ns).
Definition work (g : graph) (ns starts : list WaitGraphNode) (stack : list (WaitGraphNode * list WaitGraphNode))
    (fd : list WaitGraphNode) : nat :=
  length starts + sum_list ((λ f, S (length f.2)) <$> stack) + todo g fd ns.
Definition simple_search (g : graph) (starts : list WaitGraphNode) : list DfsEvent :=
  simple_dfs (S (work g (simple_nodes g) starts [] [])) g starts [] [].

Lemma succs_spec g u v : v ∈ succs g u ↔ (u, v) ∈ g.
Proof.
  unfold succs. rewrite elem_of_remove_dups, list_elem_of_fmap. setoid_rewrite list_elem_of_filter. split.
  - intros ([u' v'] & -> & [E ?]). cbn in *. by subst.
  - intros H. by exists (u, v).
Qed.

Lemma todo_found g n fd ns :
  n ∈ ns → n ∉ fd → (todo g (n :: fd) ns + 2 + length (succs g n) ≤ todo g fd ns)%nat.
Proof.
  unfold todo. induction ns as [|m ns IH]; intros Hn Hf; [by apply not_elem_of_nil in Hn|].
  assert (Hle : ∀ ns, (sum_list ((λ n, 2 + length (succs g n))%nat <$> filter (λ m, m ∉ n :: fd) ns) ≤
                      sum_list ((λ n, 2 + length (succs g n))%nat <$> filter (λ n, n ∉ fd) ns))%nat).
  { clear. induction ns as [|m ns IH]; [done|]. rewrite !filter_cons.
    destruct (decide (m ∉ n :: fd)) as [H1|H1], (decide (m ∉ fd)) as [H2|H2]; cbn in *; try lia. destruct H2. set_solver. }
  rewrite !filter_cons. destruct (decide (m = n)) as [->|Hne].
  - rewrite decide_False by set_solver. rewrite decide_True by done. specialize (Hle ns). cbn in *. lia.
  - assert (Hns : n ∈ ns) by set_solver. specialize (IH Hns Hf).
    destruct (decide (m ∉ n :: fd)), (decide (m ∉ fd)); cbn in *; try lia; set_solver.
Qed.

Record frames (g : graph) (stack : list (WaitGraphNode * list WaitGraphNode)) (fd : list WaitGraphNode) (sn : graph) : Prop := {
  fr_nodup : NoDup stack.*1;
  fr_found u vs : (u, vs) ∈ stack → u ∈ fd;
  fr_rest u vs : (u, vs) ∈ stack → NoDup vs ∧ ∀ v, v ∈ vs ↔ (u, v) ∈ g ∧ (u, v) ∉ sn;
  fr_seen u v : (u, v) ∈ sn → u ∈ fd;
}.

Lemma frames_enter g stack fd sn n :
  frames g stack fd sn → n ∉ fd → frames g ((n, succs g n) :: stack) (n :: fd) sn.
Proof.
  intros [Hd Hf Hr Hs] Hn. split; cbn.
  - constructor; [|done]. intros ([u vs] & -> & Hin)%list_elem_of_fmap. cbn in *. by apply Hn, (Hf u vs).
  - intros u vs [[= -> ->]|Hin]%elem_of_cons; [by left|right; by eapply Hf].
  - intros u vs [[= -> ->]|Hin]%elem_of_cons; [|by apply Hr]. split; [apply NoDup_remove_dups|]. intros v.
    rewrite succs_spec. split; [|by intros [? _]]. intros Hg. split; [done|]. by intros ?%Hs.
  - intros u v Hin. right. by eapply Hs.
Qed.

Lemma frames_look g u v vs stack fd sn :
  frames g ((u, v :: vs) :: stack) fd sn → frames g ((u, vs) :: stack) fd ((u, v) :: sn) ∧ (u, v) ∈ g ∧ (u, v) ∉ sn.
Proof.
  intros [Hd Hf Hr Hs]. destruct (Hr u (v :: vs)) as [Hnd Hv]; [by left|]. apply NoDup_cons in Hnd as [Hvs Hnd].
  split; [|by apply Hv; left]. cbn in Hd. apply NoDup_cons in Hd as [Hu Hd]. split; cbn.
  - by constructor.
  - intros u' ws [[= -> ->]|Hin]%elem_of_cons; [apply (Hf u (v :: vs)); by left|eapply Hf; by right].
  - intros u' ws [[= -> ->]|Hin]%elem_of_cons.
    + split; [done|]. intros w. rewrite not_elem_of_cons. specialize (Hv w). rewrite elem_of_cons in Hv.
      split; [intros Hw; split_and!; [naive_solver| |naive_solver]|naive_solver]. intros [= ->]. done.
    + destruct (Hr u' ws) as [? Hw]; [by right|]. split; [done|]. intros w. rewrite Hw, not_elem_of_cons.
      split; [|naive_solver]. intros [? ?]. split_and!; [done| |done]. intros [= -> ->]. apply Hu.
      apply list_elem_of_fmap. by exists (u, ws).
  - intros u' w [[= -> ->]|Hin]%elem_of_cons; [apply (Hf u (v :: vs)); by left|by eapply Hs].
Qed.

Lemma simple_dfs_ok g ns all starts pre fuel stack fd sn :
  (∀ u v, (u, v) ∈ g → v ∈ ns) → (∀ n, n ∈ all → n ∈ ns) → all = pre ++ starts → (∀ n, n ∈ pre → n ∈ fd) →
  frames g stack fd sn → (work g ns starts stack fd < fuel)%nat →
  ∃ fd' sn', dfs_run g all (MkSearch stack.*1 None fd sn) (simple_dfs fuel g starts stack fd) (MkSearch [] None fd' sn') ∧
             ∀ n, n ∈ all → n ∈ fd'.
Proof.
  intros Hg Hall. revert starts pre stack fd sn. induction fuel as [|fuel IH]; intros starts pre stack fd sn E Hpre Hfr Hw; [lia|].
  destruct stack as [|[u [|v vs]] stack]; cbn [simple_dfs fmap list_fmap fst].
  - destruct starts as [|n starts].
    + exists fd, sn. split; [constructor|]. intros n Hn. apply Hpre. by rewrite E, app_nil_r in Hn.
    + case_decide as Hn.
      * apply (IH starts (pre ++ [n]) [] fd sn); [by rewrite <-app_assoc|set_solver|done|]. unfold work in *. cbn in *. lia.
      * destruct (IH starts (pre ++ [n]) [(n, succs g n)] (n :: fd) sn) as (fd' & sn' & Hr & ?).
        -- by rewrite <-app_assoc.
        -- set_solver.
        -- by apply frames_enter.
        -- pose proof (todo_found g n fd ns ltac:(apply Hall; rewrite E; set_solver) Hn). unfold work in *. cbn in *. lia.
        -- exists fd', sn'. split; [|done]. eapply dfs_event; [|exact Hr]. by eapply (dfs_root g all pre n starts).
  - destruct Hfr as [Hd Hf Hr Hs]. destruct (IH starts pre stack fd sn) as (fd' & sn' & Hrun & ?); try done.
    + split; [by apply NoDup_cons in Hd as [_ ?]|intros; eapply Hf; by right|intros; apply Hr; by right|done].
    + unfold work in *. cbn in *. lia.
    + exists fd', sn'. split; [|done]. eapply dfs_event; [|exact Hrun]. apply dfs_finish. intros v Hv.
      destruct (decide ((u, v) ∈ sn)) as [?|Hn]; [done|]. destruct (Hr u []) as [_ Hv']; [by left|].
      destruct (not_elem_of_nil v). by apply Hv'.
  - destruct (frames_look _ _ _ _ _ _ _ Hfr) as (Hfr' & Hgv & Hsn). case_decide as Hv.
    + destruct (IH starts pre ((u, vs) :: stack) fd ((u, v) :: sn)) as (fd' & sn' & Hr & ?); try done.
      { unfold work in *. cbn in *. lia. }
      exists fd', sn'. split; [|done]. eapply dfs_event; [|exact Hr]. cbn. case_decide; [by apply dfs_back|by apply dfs_cross].
    + destruct (IH starts pre ((v, succs g v) :: (u, vs) :: stack) (v :: fd) ((u, v) :: sn)) as (fd' & sn' & Hr & ?); try done.
      { intros n ?. right. by apply Hpre. }
      { by apply frames_enter. }
      { pose proof (todo_found g v fd ns (Hg u v Hgv) Hv). unfold work in *. cbn in *. lia. }
      exists fd', sn'. split; [|done]. eapply dfs_event; [by apply dfs_tree|]. eapply dfs_event; [apply dfs_child|]. exact Hr.
Qed.

Lemma simple_nodes_spec g : NoDup (simple_nodes g) ∧ ∀ n, n ∈ simple_nodes g ↔ ∃ m, (n, m) ∈ g ∨ (m, n) ∈ g.
Proof.
  unfold simple_nodes. split; [rewrite reverse_Permutation; apply NoDup_remove_dups|]. intros n.
  rewrite elem_of_reverse, elem_of_remove_dups, elem_of_reverse, list_elem_of_In, in_concat. split.
  - intros (l & Hl & Hn). apply list_elem_of_In, list_elem_of_fmap in Hl as ([u v] & -> & He).
    apply list_elem_of_In in Hn. cbn in Hn. apply elem_of_cons in Hn as [->|Hn%list_elem_of_singleton]; [exists v; by left|subst; exists u; by right].
  - intros (m & [Hm|Hm]); [exists [n; m]|exists [m; n]]; (split; [apply list_elem_of_In, list_elem_of_fmap|apply list_elem_of_In; set_solver]).
    + by exists (n, m).
    + by exists (m, n).
Qed.

(** Cycles by trying all lists of distinct nodes. *)
Fixpoint distinct (n : nat) (ns : list Z) : list (list Z) :=
  match n with
  | O => [[]]
  | S n => [] :: concat ((λ x, (cons x) <$> filter (λ l, x ∉ l) (distinct n ns)) <$> ns)
  end.

Lemma distinct_all n ns c : NoDup c → (∀ x, x ∈ c → x ∈ ns) → (length c ≤ n)%nat → c ∈ distinct n ns.
Proof.
  revert c. induction n as [|n IH]; intros [|x c] Hd Hc Hn; cbn in *; try lia; try by left.
  apply NoDup_cons in Hd as [Hx Hd]. right. apply list_elem_of_In, in_concat.
  eexists. split; [apply list_elem_of_In, list_elem_of_fmap; exists x; split; [done|by apply Hc; left]|].
  apply list_elem_of_In, list_elem_of_fmap. exists c. split; [done|]. apply list_elem_of_filter. split; [done|].
  apply IH; [done| |lia]. intros y Hy. apply Hc. by right.
Qed.

#[local] Instance linked_dec {A} (R : A → A → Prop) `{∀ x y, Decision (R x y)} x l : Decision (linked R x l).
Proof. revert x. induction l as [|y l IH]; intros x; cbn; apply _. Defined.

#[local] Instance is_cycle_dec (g : graph_of Z) c : Decision (is_cycle (edge g) c).
Proof. unfold is_cycle, closed_walk, edge. destruct c; apply _. Defined.

Definition simple_cyclic (g : graph_of Z) : bool :=
  existsb (λ c, bool_decide (is_cycle (edge g) c)) (distinct (length g) (g.*1)).

Lemma linked_starts (g : graph_of Z) x l y : linked (edge g) x (l ++ [y]) → ∀ z, z ∈ x :: l → z ∈ g.*1.
Proof.
  revert x. induction l as [|w l IH]; intros x [He Hl] z Hz.
  - apply list_elem_of_singleton in Hz as ->. apply list_elem_of_fmap. by exists (x, y).
  - apply elem_of_cons in Hz as [->|Hz]; [|by apply (IH w)]. apply list_elem_of_fmap. by exists (x, w).
Qed.

Lemma simple_cyclic_spec g : simple_cyclic g = true ↔ ∃ c, is_cycle (edge g) c.
Proof.
  unfold simple_cyclic. rewrite existsb_exists. split.
  - intros (c & _ & Hc%bool_decide_eq_true). by exists c.
  - intros (c & Hc). exists c. split; [|by apply bool_decide_eq_true]. apply list_elem_of_In. destruct Hc as [Hd Hc].
    destruct c as [|x c]; [done|]. assert (Hin := linked_starts g x c x Hc). apply distinct_all; [done..|].
    rewrite <-(length_fmap fst g). by apply submseteq_length, NoDup_submseteq.
Qed.

Program Definition simple_petgraph : Petgraph := {|
  nodes := simple_nodes;
  depth_first_search := simple_search;
  is_cyclic_directed := simple_cyclic;
  nodes_spec := simple_nodes_spec;
  is_cyclic_spec := simple_cyclic_spec;
|}.
Next Obligation.
  intros g starts Hs. unfold simple_search.
  destruct (simple_dfs_ok g (simple_nodes g) starts starts [] (S (work g (simple_nodes g) starts [] [])) [] [] [])
    as (fd & sn & Hr & Hf); try done.
  - intros u v He. apply simple_nodes_spec. exists u. by right.
  - split; cbn; try by intros ? ? ?%not_elem_of_nil. constructor.
  - lia.
  - by exists fd, sn.
Qed.
End instance.

(** Without the third thread, the deadlock is found; with it, it is not. *)
Definition address (t : tid) : Z := 100 + Z.of_nat t.

Lemma check_deadlock_ok_witness :
  check_deadlock (P := simple_petgraph) address missed_data [[2]; [1]]%nat = Some {[ [1; 2]%nat ]} ∧
  ∃ cycles, check_deadlock (P := simple_petgraph) address missed_data [[2]; [1]]%nat = Some cycles ∧
            finds_cycles missed_data [[2]; [1]]%nat cycles.
Proof. split; [by vm_compute|]. exact (check_deadlock_ok simple_petgraph address missed_data [[2]; [1]]%nat). Defined.

Lemma check_deadlock_misses_witness :
  is_cycle (blocked_by missed_data missed_table) [1; 2]%nat ∧
  check_deadlock (P := simple_petgraph) address missed_data missed_table = Some ∅.
Proof. apply (check_deadlock_misses simple_petgraph address). by vm_compute. Defined.
