(* ===== verification/DeadlockReport.v ===== *)
(** * How deadlocked threads report (core/src/parking_lot.rs, [deadlock_impl])

    For each cycle that [check_wait_graph_slow] found, it makes a channel, marks
    the threads of the cycle, gives each a sender, and wakes it; the thread
    sends its backtrace from the hook [on_unpark] and sleeps until the end of
    time.  The model has [std]'s channels and parkers that sleep until they are
    woken ([ThreadParker]).  A thread that is in one cycle reports once; one that
    is in two is woken again, and panics. *)

From stdpp Require Import gmap.
From S2P Require Import Prelude Conc Deadlock DeadlockProof.
Local Open Scope Z_scope.
Local Open Scope prog_scope.

Module DeadlockReport.
(** A channel: its queue, the number of senders, and whether the receiver is
    alive. *)
Record channel := MkChannel { messages : list tid; senders : Z; receiver : bool }.

(** The fields of the [DeadlockData] of each thread, its parker, the channels
    and the locks of the buckets. *)
Record state := MkState {
  deadlocked : tid → bool;
  backtrace_sender : tid → option nat;
  parked : tid → bool;
  channels : nat → channel;
  nchannels : nat;
  bmutex : nat → option tid;
  results : list (list tid);
}.

Definition set_deadlocked (f : tid → bool) (s : state) : state :=
  MkState f (backtrace_sender s) (parked s) (channels s) (nchannels s) (bmutex s) (results s).
Definition set_sender (f : tid → option nat) (s : state) : state :=
  MkState (deadlocked s) f (parked s) (channels s) (nchannels s) (bmutex s) (results s).
Definition set_parked (f : tid → bool) (s : state) : state :=
  MkState (deadlocked s) (backtrace_sender s) f (channels s) (nchannels s) (bmutex s) (results s).
Definition set_channel (ch : nat) (c : channel) (s : state) : state :=
  MkState (deadlocked s) (backtrace_sender s) (parked s) (<[ch := c]> (channels s)) (nchannels s) (bmutex s) (results s).
Definition set_bmutex (b : nat) (o : option tid) (s : state) : state :=
  MkState (deadlocked s) (backtrace_sender s) (parked s) (channels s) (nchannels s) (<[b := o]> (bmutex s)) (results s).

Definition add_senders (ch : nat) (d : Z) (s : state) : state :=
  let c := channels s ch in set_channel ch (MkChannel (messages c) (senders c + d) (receiver c)) s.
(** Assigning [Some(sender)] drops what was there. *)
Definition drop_old (o : option nat) (s : state) : state :=
  match o with Some ch => add_senders ch (-1) s | None => s end.

Inductive act : Type :=
(* of a parked thread, on its own data *)
| AIsDeadlocked
| ATakeSender
| ASend (ch : nat)
| ADropSender (ch : nat)
| APreparePark
| APark
(* of the thread that checks *)
| AChannel
| ALock (b : nat)
| AUnlock (b : nat)
| AMark (u : tid)
| AStoreSender (u : tid) (ch : nat)
| AUnparkLock (u : tid)
| AUnpark (u : tid)
| ARecv (ch : nat)
| AResult (l : list tid).

Definition resp (a : act) : Type :=
  match a with
  | AIsDeadlocked | ASend _ => bool
  | ATakeSender => option nat
  | AChannel => nat
  | ARecv _ => option tid
  | _ => unit
  end.

Definition exec (t : tid) (c : choice) (a : act) : state → option (state * resp a) :=
  match a with
  | AIsDeadlocked => λ s, Some (s, deadlocked s t)
  | ATakeSender => λ s, Some (set_sender (<[t := None]> (backtrace_sender s)) s, backtrace_sender s t)
  | ASend ch => λ s,
      let c := channels s ch in
      if receiver c then Some (set_channel ch (MkChannel (messages c ++ [t]) (senders c) true) s, true)
      else Some (s, false)
  | ADropSender ch => λ s, Some (add_senders ch (-1) s, tt)
  | APreparePark => λ s, Some (set_parked (<[t := true]> (parked s)) s, tt)
  | APark => λ s, if parked s t then None else Some (s, tt)
  | AChannel => λ s,
      let ch := nchannels s in
      Some (MkState (deadlocked s) (backtrace_sender s) (parked s) (<[ch := MkChannel [] 1 true]> (channels s))
              (S ch) (bmutex s) (results s), ch)
  | ALock b => λ s, match bmutex s b with None => Some (set_bmutex b (Some t) s, tt) | Some _ => None end
  | AUnlock b => λ s, Some (set_bmutex b None s, tt)
  | AMark u => λ s, Some (set_deadlocked (<[u := true]> (deadlocked s)) s, tt)
  | AStoreSender u ch => λ s,
      let old := backtrace_sender s u in
      Some (drop_old old (set_sender (<[u := Some ch]> (backtrace_sender s)) (add_senders ch 1 s)), tt)
  | AUnparkLock u => λ s, Some (set_parked (<[u := false]> (parked s)) s, tt)
  | AUnpark u => λ s, Some (s, tt)
  | ARecv ch => λ s,
      let c := channels s ch in
      match messages c with
      | m :: l => Some (set_channel ch (MkChannel l (senders c) (receiver c)) s, Some m)
      | [] => if senders c =? 0 then Some (set_channel ch (MkChannel [] 0 false) s, None) else None
      end
  | AResult l => λ s,
      Some (MkState (deadlocked s) (backtrace_sender s) (parked s) (channels s) (nchannels s) (bmutex s)
              (results s ++ [l]), tt)
  end.

Abbreviation dprog := (prog act resp).

Definition perform (a : act) : dprog (resp a) := Act a Ret.

(** ** The hook, in a thread that is parked without a timeout *)

Definition on_unpark : dprog unit :=
  deadlocked <- perform AIsDeadlocked;;
  if deadlocked : bool then
    sender <- perform ATakeSender;;
    match sender with
    | None => Panic "called `Option::unwrap()` on a `None` value"
    | Some sender =>
        ok <- perform (ASend sender);;
        if ok : bool then
          perform (ADropSender sender);;
          perform APreparePark;;
          perform APark;;
          Panic "unparked deadlocked thread!"
        else Panic "called `Result::unwrap()` on an `Err` value"
    end
  else Ret tt.

(** [park], from where the thread sleeps *)
Definition parked_thread : dprog unit := perform APark;; on_unpark.

(** ** The thread that checks *)

Section check.
(* the bucket of the key that a thread is parked on *)
Context (bucket_of : tid → nat).

Definition mark_thread (sender : nat) (td : tid) : dprog unit :=
  perform (ALock (bucket_of td));;
  perform (AMark td);;
  perform (AStoreSender td sender);;
  perform (AUnparkLock td);;
  perform (AUnlock (bucket_of td));;
  perform (AUnpark td).

Fixpoint mark_cycle (sender : nat) (cycle : list tid) : dprog unit :=
  match cycle with
  | [] => Ret tt
  | td :: cycle => mark_thread sender td;; mark_cycle sender cycle
  end.

(** [receiver.iter().collect()] *)
Definition collect_turn (receiver : nat) (acc : list tid) : dprog (list tid + list tid) :=
  m <- perform (ARecv receiver);;
  match m with
  | Some m => Ret (inl (acc ++ [m]))
  | None => Ret (inr acc)
  end.
Definition collect (receiver : nat) : dprog (list tid) := Iter (collect_turn receiver) [].

Fixpoint report_cycles (cycles : list (list tid)) : dprog unit :=
  match cycles with
  | [] => Ret tt
  | cycle :: cycles =>
      sender <- perform AChannel;;
      mark_cycle sender cycle;;
      perform (ADropSender sender);;
      l <- collect sender;;
      perform (AResult l);;
      report_cycles cycles
  end.

(** Thread 0 checks, and has found the cycles; the others are parked. *)
Definition start_state : state :=
  MkState (λ _, false) (λ _, None) (λ _, true) (λ _, MkChannel [] 0 false) 0 (λ _, None) [].
Definition start_pool (cycles : list (list tid)) : tid → dprog unit :=
  λ t, match t with O => report_cycles cycles | S _ => parked_thread end.
End check.
End DeadlockReport.
