(* ===== verification/DeadlockReportProof.v ===== *)
(** * Deadlocked threads report once

    When no thread is in two cycles, the thread that checks gets a report from
    each thread of each cycle, and the threads sleep.  What happens to a thread
    in two cycles is in [DeadlockTwice]. *)

From stdpp Require Import gmap.
From S2P Require Import Prelude Conc Deadlock DeadlockProof DeadlockReport.
Import DeadlockReport.
Local Open Scope Z_scope.

(** Where a parked thread is: asleep, woken, with the flag read, with its
    sender in hand, with its report sent, with the sender dropped, asleep
    again. *)
Inductive vphase := Asleep | Awake | Marked | HasSender (ch : nat) | Sent (ch : nat) | Dropped | Prepared.

(** What has happened to the thread that is being marked. *)
Inductive sub := SLocked | SFlagged | SSendered | SWoken.

#[export] Instance sub_eq_dec : EqDecision sub.
Proof. solve_decision. Defined.

(** The thread that checks is between two cycles, or it has a channel, has
    given senders to some threads of the cycle, is at work on one, and has some
    left; it has dropped its own sender; it has received some reports, or all. *)
Inductive check :=
| Idle (fin todo : list (list tid))
| Busy (fin : list (list tid)) (ch : nat) (marked : list tid) (cur : option (tid * sub)) (rest : list tid)
    (todo : list (list tid)) (own : bool) (acc : list tid)
| Got (fin : list (list tid)) (cycle l : list tid) (todo : list (list tid)).

Inductive role := Victim (p : vphase) | Checker (k : check).

(** What has happened to a thread, by the progress of the checking one. *)
Inductive stage := Untouched | Flagged | Sendered (ch : nat) | Woken (ch : nat) | Reported.

Definition stage_of (k : check) (t : tid) : stage :=
  match k with
  | Idle fin _ => if decide (t ∈ concat fin) then Reported else Untouched
  | Busy fin ch marked cur rest _ _ _ =>
      if decide (t ∈ concat fin) then Reported
      else if decide (t ∈ marked) then
        if decide (cur = Some (t, SSendered)) then Sendered ch else Woken ch
      else if decide (cur = Some (t, SFlagged)) then Flagged else Untouched
  | Got fin cycle _ _ =>
      if decide (t ∈ concat fin) then Reported else if decide (t ∈ cycle) then Reported else Untouched
  end.

Definition phase_of (ρ : tid → role) (t : tid) : vphase :=
  match ρ t with Victim p => p | Checker _ => Asleep end.

Definition holder (p : vphase) : bool :=
  match p with Dropped | Prepared => false | _ => true end.
Definition has_sent (p : vphase) : bool :=
  match p with Sent _ | Dropped | Prepared => true | _ => false end.

Definition victim_ok (s : state) (g : stage) (p : vphase) (t : tid) : Prop :=
  match g with
  | Untouched => p = Asleep ∧ deadlocked s t = false ∧ backtrace_sender s t = None ∧ parked s t = true
  | Flagged => p = Asleep ∧ deadlocked s t = true ∧ backtrace_sender s t = None ∧ parked s t = true
  | Sendered ch => p = Asleep ∧ deadlocked s t = true ∧ backtrace_sender s t = Some ch ∧ parked s t = true
  | Woken ch =>
      deadlocked s t = true ∧
      match p with
      | Asleep => parked s t = false ∧ backtrace_sender s t = Some ch
      | Awake | Marked => backtrace_sender s t = Some ch
      | HasSender ch' | Sent ch' => ch' = ch
      | Dropped => True
      | Prepared => parked s t = true
      end
  | Reported => p = Dropped ∨ p = Prepared ∧ parked s t = true
  end.

(** The senders and the messages of the channel in use. *)
Definition channel_ok (s : state) (ρ : tid → role) (k : check) : Prop :=
  match k with
  | Idle _ _ | Got _ _ _ _ => True
  | Busy _ ch marked cur rest _ own acc =>
      receiver (channels s ch) = true ∧
      senders (channels s ch) =
        (if own then 1 else 0) + Z.of_nat (length (filter (λ t, holder (phase_of ρ t) = true) marked)) ∧
      acc ++ messages (channels s ch) ≡ₚ filter (λ t, has_sent (phase_of ρ t) = true) marked
  end.

(** The progress itself. *)
Definition check_ok (bucket_of : tid → nat) (cycles : list (list tid)) (s : state) (k : check) : Prop :=
  match k with
  | Idle fin todo =>
      cycles = fin ++ todo ∧ Forall2 (≡ₚ) (results s) fin ∧ ∀ b, bmutex s b = None
  | Busy fin ch marked cur rest todo own acc =>
      cycles = fin ++ (marked ++ rest) :: todo ∧ Forall2 (≡ₚ) (results s) fin ∧
      (∀ b, bmutex s b = None ∨ ∃ t x, cur = Some (t, x) ∧ b = bucket_of t) ∧ (own = false → cur = None ∧ rest = []) ∧
      match cur with
      | Some (t, SLocked) | Some (t, SFlagged) => head rest = Some t
      | Some (t, _) => t ∈ marked
      | None => True
      end
  | Got fin cycle l todo =>
      cycles = fin ++ cycle :: todo ∧ Forall2 (≡ₚ) (results s) fin ∧ l ≡ₚ cycle ∧ ∀ b, bmutex s b = None
  end.

Definition blocked (t : tid) (r : role) (s : state) : Prop :=
  match r with
  | Victim p => (p = Asleep ∨ p = Prepared) ∧ parked s t = true
  | Checker (Busy _ ch _ _ _ _ false _) => messages (channels s ch) = [] ∧ senders (channels s ch) ≠ 0
  | Checker _ => False
  end.

(** Counting when one element changes. *)
Lemma filter_same (P P' : tid → bool) (l : list tid) :
  (∀ u, u ∈ l → P' u = P u) → filter (λ u, P' u = true) l = filter (λ u, P u = true) l.
Proof.
  induction l as [|u l IH]; intros H; [done|]. rewrite !filter_cons, (H u), IH by (try intros; try apply H; set_solver).
  done.
Qed.

Lemma filter_flip (P P' : tid → bool) (t : tid) (l : list tid) :
  NoDup l → t ∈ l → P t = false → P' t = true → (∀ u, u ≠ t → P' u = P u) →
  filter (λ u, P' u = true) l ≡ₚ t :: filter (λ u, P u = true) l.
Proof.
  intros Hd Ht Hp Hp' Ho. induction Hd as [|u l Hu Hd IH]; [by apply not_elem_of_nil in Ht|].
  rewrite !filter_cons. apply elem_of_cons in Ht as [->|Ht].
  - rewrite decide_True, decide_False by congruence.
    rewrite (filter_same P P'); [done|]. intros v Hv. apply Ho. by intros ->.
  - assert (u ≠ t) by (by intros ->). rewrite Ho by done. case_decide; rewrite IH by done; [by constructor|done].
Qed.

Lemma filter_everything (P : tid → bool) (l : list tid) : (∀ u, u ∈ l → P u = true) → filter (λ u, P u = true) l = l.
Proof.
  induction l as [|u l IH]; intros H; [done|]. rewrite filter_cons, decide_True by (apply H; by left).
  f_equal. apply IH. intros v Hv. apply H. by right.
Qed.

Section proof.
Context (bucket_of : tid → nat) (cycles : list (list tid)).
Hypothesis Hnodup : NoDup (concat cycles).
Hypothesis Hzero : 0%nat ∉ concat cycles.
Implicit Types (s : state) (ρ : tid → role) (k : check) (t u : tid) (p : vphase).

Definition CInv s (g : unit) ρ : Prop :=
  ∃ k, ρ 0%nat = Checker k ∧ check_ok bucket_of cycles s k ∧ channel_ok s ρ k ∧
       ∀ t, t ≠ 0%nat → ∃ p, ρ t = Victim p ∧ victim_ok s (stage_of k t) p t.

Abbreviation dwp := (wp exec CInv (λ (_ : string) (_ : role), False) blocked).

(** The cycle at hand has no thread twice, and none of the cycles that are done. *)
Lemma cycle_fresh fin c todo :
  cycles = fin ++ c :: todo → NoDup c ∧ (∀ t, t ∈ c → t ∉ concat fin) ∧ 0%nat ∉ c.
Proof.
  intros E. rewrite E, concat_app in Hnodup, Hzero. cbn in *.
  apply NoDup_app in Hnodup as (_ & H1 & (H2 & _)%NoDup_app). split; [done|]. split; [|set_solver].
  intros t Ht Hf. apply (H1 t Hf). set_solver.
Qed.

(** ** Steps of a parked thread *)

Lemma channel_same s ρ k t p p' s' :
  channels s' = channels s → ρ t = Victim p → holder p' = holder p → has_sent p' = has_sent p →
  channel_ok s ρ k → channel_ok s' (<[t := Victim p']> ρ) k.
Proof.
  intros Ec Er Eh Es. destruct k as [| |]; [done| |done]. cbn. rewrite Ec.
  rewrite (filter_same (λ t, holder (phase_of ρ t)) (λ u, holder (phase_of (<[t := Victim p']> ρ) u))).
  - rewrite (filter_same (λ t, has_sent (phase_of ρ t)) (λ u, has_sent (phase_of (<[t := Victim p']> ρ) u))); [done|].
    intros u _. unfold phase_of. fn_cases t u; [by rewrite Er|done].
  - intros u _. unfold phase_of. fn_cases t u; [by rewrite Er|done].
Qed.

Lemma victim_step s g ρ t p p' s' :
  CInv s g ρ → ρ t = Victim p →
  results s' = results s → bmutex s' = bmutex s → deadlocked s' = deadlocked s →
  (∀ u, u ≠ t → backtrace_sender s' u = backtrace_sender s u ∧ parked s' u = parked s u) →
  (∀ k, victim_ok s (stage_of k t) p t → victim_ok s' (stage_of k t) p' t) →
  (∀ k, check_ok bucket_of cycles s k → victim_ok s (stage_of k t) p t → channel_ok s ρ k →
        channel_ok s' (<[t := Victim p']> ρ) k) →
  CInv s' g (<[t := Victim p']> ρ).
Proof.
  intros (k & Ek & Hk & Hc & Hv) Et Er Eb Ed Ho Hvt Hct.
  assert (Ht : t ≠ 0%nat) by (by intros ->; congruence).
  destruct (Hv t Ht) as (p1 & Ep & Hp). assert (p1 = p) as -> by congruence.
  exists k. fn_simp. split; [done|]. split; [|split; [by apply Hct|]].
  - destruct k; unfold check_ok in *; by rewrite Er, Eb.
  - intros u Hu. fn_cases t u; [exists p'; split; [done|by apply Hvt]|]. destruct (Hv u Hu) as (q & Eq & Hq).
    exists q. split; [done|]. destruct (Ho u) as [E1 E2]; [done|]. unfold victim_ok in *. by rewrite Ed, E1, E2.
Qed.

Lemma woken_busy k t ch :
  stage_of k t = Woken ch →
  ∃ fin marked cur rest todo own acc, k = Busy fin ch marked cur rest todo own acc ∧ t ∈ marked.
Proof.
  destruct k as [fin todo|fin ch' marked cur rest todo own acc|fin c l todo]; cbn; repeat case_decide; intros [= ->]; try done.
  by exists fin, marked, cur, rest, todo, own, acc.
Qed.

(** What a parked thread knows of itself. *)
Lemma victim_state s g ρ t p : CInv s g ρ → ρ t = Victim p → ∃ k, ρ 0%nat = Checker k ∧ victim_ok s (stage_of k t) p t.
Proof.
  intros (k & Ek & _ & _ & Hv) Et. exists k. split; [done|]. destruct (Hv t) as (p' & E & ?); [by intros ->; congruence|].
  by assert (p' = p) as <- by congruence.
Qed.

Lemma wp_victim_step t p a {A} (kt : resp a → prog act resp A) Q :
  (∀ s st, victim_ok s st p t → (∃ c, is_Some (exec t c a s)) ∨ blocked t (Victim p) s) →
  (∀ s g ρ c s' v, ρ t = Victim p → CInv s g ρ → (∃ st, victim_ok s st p t) → exec t c a s = Some (s', v) →
     ∃ p', CInv s' g (<[t := Victim p']> ρ) ∧ dwp t (kt v) (Victim p') Q) →
  dwp t (Act a kt) (Victim p) Q.
Proof.
  intros Hp Hs. apply wp_act.
  - intros s g ρ Er HI. destruct (victim_state _ _ _ _ _ HI Er) as (k & _ & Hv). by eapply Hp.
  - intros s g ρ c s' v Er HI Ex. destruct (victim_state _ _ _ _ _ HI Er) as (k & _ & Hv).
    destruct (Hs s g ρ c s' v Er HI (ex_intro (λ st, victim_ok s st p t) _ Hv) Ex) as (p' & ? & ?). by exists g, (Victim p').
Qed.

Lemma busy_nodup s fin ch marked cur rest todo own acc :
  check_ok bucket_of cycles s (Busy fin ch marked cur rest todo own acc) → NoDup marked.
Proof. intros (E & _). destruct (cycle_fresh _ _ _ E) as ((? & _)%NoDup_app & _). done. Qed.

(** The report is one more message, and the sender one less. *)
Lemma channel_sent s ρ k t ch :
  check_ok bucket_of cycles s k → stage_of k t = Woken ch → ρ t = Victim (HasSender ch) → channel_ok s ρ k →
  receiver (channels s ch) = true ∧
  channel_ok (set_channel ch (MkChannel (messages (channels s ch) ++ [t]) (senders (channels s ch)) true) s)
    (<[t := Victim (Sent ch)]> ρ) k.
Proof.
  intros Hk (fin & marked & cur & rest & todo & own & acc & -> & Ht)%woken_busy Er (Hr & Hs & Hm). split; [done|]. cbn. fn_simp.
  split; [done|]. split.
  - cbn [senders]. rewrite Hs. do 3 f_equal. symmetry. apply filter_same. intros u _. unfold phase_of. fn_cases t u; [by rewrite Er|done].
  - cbn [messages]. rewrite app_assoc, Hm, Permutation_app_comm. symmetry.
    apply (filter_flip (λ u, has_sent (phase_of ρ u)) (λ u, has_sent (phase_of (<[t:=Victim (Sent ch)]> ρ) u)) t);
      [by eapply busy_nodup|done|unfold phase_of; by rewrite Er|unfold phase_of; by fn_simp|].
    intros u Hu. unfold phase_of. by fn_simp.
Qed.

Lemma channel_dropped s ρ k t ch :
  check_ok bucket_of cycles s k → stage_of k t = Woken ch → ρ t = Victim (Sent ch) → channel_ok s ρ k →
  channel_ok (add_senders ch (-1) s) (<[t := Victim Dropped]> ρ) k.
Proof.
  intros Hk (fin & marked & cur & rest & todo & own & acc & -> & Ht)%woken_busy Er (Hr & Hs & Hm). cbn. fn_simp.
  split; [done|]. split.
  - rewrite Hs. rewrite (filter_flip (λ u, holder (phase_of (<[t:=Victim Dropped]> ρ) u)) (λ u, holder (phase_of ρ u)) t);
      [cbn; lia|by eapply busy_nodup|done|unfold phase_of; by fn_simp|unfold phase_of; by rewrite Er|].
    intros u Hu. unfold phase_of. by fn_simp.
  - rewrite Hm. apply reflexive_eq. apply (filter_same (λ u, has_sent (phase_of (<[t:=Victim Dropped]> ρ) u))).
    intros u _. unfold phase_of. fn_cases t u; [by rewrite Er|done].
Qed.

Lemma wp_parked_thread t : t ≠ 0%nat → dwp t parked_thread (Victim Asleep) (λ _ _, False).
Proof.
  intros Ht. unfold parked_thread, on_unpark, perform. wp_pure. apply wp_victim_step.
  { intros s st Hv. cbn. destruct (parked s t); [by right; auto|left]. exists 0. by eexists. }
  intros s g ρ c s' v Er HI _ Ex. cbn in Ex. destruct (parked s t) eqn:Ep; [done|]. injection Ex as <- <-.
  exists Awake. split.
  { eapply (victim_step s g ρ t); try done; [|intros; by eapply channel_same].
    intros k Hv. destruct (stage_of k t); cbn in Hv |- *; naive_solver congruence. }
  wp_pure. apply wp_victim_step.
  { intros s1 st Hv. left. exists 0. by eexists. }
  clear -bucket_of Hnodup Hzero. intros s g ρ c s' v Er HI (st & Hv) Ex. cbn in Ex. injection Ex as <- <-.
  assert (Hd : deadlocked s t = true) by (destruct st; cbn in Hv; naive_solver). rewrite Hd.
  exists Marked. split.
  { eapply (victim_step s g ρ t); try done; [|intros; by eapply channel_same].
    clear st Hv. intros k Hv. destruct (stage_of k t); cbn in Hv |- *; naive_solver congruence. }
  wp_pure. apply wp_victim_step.
  { intros s1 st1 Hv1. left. exists 0. by eexists. }
  clear -bucket_of Hnodup Hzero. intros s g ρ c s' v Er HI (st & Hv) Ex. cbn in Ex. injection Ex as <- <-.
  destruct (backtrace_sender s t) as [ch|] eqn:Es; [|destruct st; cbn in Hv; naive_solver congruence].
  exists (HasSender ch). split.
  { eapply (victim_step s g ρ t); try done; [| |intros; by eapply channel_same].
    - intros u Hu. cbn. by fn_simp.
    - clear st Hv. intros k Hv. destruct (stage_of k t); cbn in Hv |- *; naive_solver congruence. }
  clear -bucket_of Hnodup Hzero. wp_pure. apply wp_victim_step.
  { intros s1 st1 Hv1. left. exists 0. cbn. destruct (receiver _); by eexists. }
  intros s g ρ c s' v Er HI (st & Hv) Ex. cbn in Ex.
  assert (HI' := HI). destruct HI' as (k & Ek & Hk & Hc & Hvs).
  assert (Ht : t ≠ 0%nat) by (intros ->; congruence). destruct (Hvs t Ht) as (p & Ep & Hp).
  assert (p = HasSender ch) as -> by congruence.
  assert (Est : stage_of k t = Woken ch) by (destruct (stage_of k t); cbn in Hp; naive_solver).
  destruct (channel_sent s ρ k t ch Hk Est Er Hc) as [Hr Hc']. rewrite Hr in Ex. injection Ex as <- <-.
  exists (Sent ch). split.
  { eapply (victim_step s g ρ t); try done.
    - clear -Est. intros k1 Hv. destruct (stage_of k1 t); cbn in Hv |- *; naive_solver congruence.
    - intros k1 Hk1 Hv1 Hc1. destruct (stage_of k1 t) eqn:E1; cbn in Hv1; try naive_solver.
      assert (ch = ch0) as <- by naive_solver. by apply channel_sent. }
  clear -bucket_of Hnodup Hzero. wp_pure. apply wp_victim_step.
  { intros s1 st1 Hv1. left. exists 0. by eexists. }
  intros s g ρ c s' v Er HI _ Ex. cbn in Ex. injection Ex as <- <-.
  exists Dropped. split.
  { eapply (victim_step s g ρ t); try done.
    - intros k Hv. destruct (stage_of k t); cbn in Hv |- *; naive_solver congruence.
    - intros k Hk Hv Hc. destruct (stage_of k t) eqn:E1; cbn in Hv; try naive_solver.
      assert (ch = ch0) as <- by naive_solver. by apply channel_dropped. }
  clear -bucket_of Hnodup Hzero. wp_pure. apply wp_victim_step.
  { intros s1 st1 Hv1. left. exists 0. by eexists. }
  intros s g ρ c s' v Er HI _ Ex. cbn in Ex. injection Ex as <- <-.
  exists Prepared. split.
  { eapply (victim_step s g ρ t); try done; [| |intros; by eapply channel_same].
    - intros u Hu. cbn. by fn_simp.
    - intros k Hv. destruct (stage_of k t); cbn in Hv |- *; fn_simp; naive_solver congruence. }
  clear -bucket_of Hnodup Hzero. wp_pure. apply wp_victim_step.
  { intros s1 st1 Hv1. right. split; [by right|]. destruct st1; cbn in Hv1; naive_solver. }
  intros s g ρ c s' v Er HI (st & Hv) Ex. cbn in Ex.
  assert (Hp : parked s t = true) by (destruct st; cbn in Hv; naive_solver). by rewrite Hp in Ex.
Qed.

(** ** Steps of the thread that checks *)

Definition victims_ok s ρ k : Prop := ∀ t, t ≠ 0%nat → ∃ p, ρ t = Victim p ∧ victim_ok s (stage_of k t) p t.

Lemma wp_check_step k a {A} (kt : resp a → prog act resp A) Q :
  (∀ s, check_ok bucket_of cycles s k → (∃ c, is_Some (exec 0 c a s)) ∨ blocked 0 (Checker k) s) →
  (∀ s ρ c s' v, check_ok bucket_of cycles s k → channel_ok s ρ k → victims_ok s ρ k → exec 0 c a s = Some (s', v) →
     ∃ k', check_ok bucket_of cycles s' k' ∧ channel_ok s' ρ k' ∧
           (∀ t p, t ≠ 0%nat → ρ t = Victim p → victim_ok s (stage_of k t) p t → victim_ok s' (stage_of k' t) p t) ∧
           dwp 0 (kt v) (Checker k') Q) →
  dwp 0 (Act a kt) (Checker k) Q.
Proof.
  intros Hp Hs. apply wp_act.
  - intros s g ρ Er (k1 & Ek & Hk & _). assert (k1 = k) as -> by congruence. by apply Hp.
  - intros s g ρ c s' v Er (k1 & Ek & Hk & Hc & Hv) Ex. assert (k1 = k) as -> by congruence.
    destruct (Hs s ρ c s' v Hk Hc Hv Ex) as (k' & Hk' & Hc' & Hv' & Hw). exists g, (Checker k'). split; [|done].
    exists k'. fn_simp. split; [done|]. split; [done|]. split.
    + destruct k'; [done| |done]. cbn in *.
      rewrite (filter_same (λ t, holder (phase_of ρ t)) (λ u, holder (phase_of (<[0%nat := Checker _]> ρ) u)));
        [rewrite (filter_same (λ t, has_sent (phase_of ρ t)) (λ u, has_sent (phase_of (<[0%nat := Checker _]> ρ) u))); [done|]|];
        intros u _; unfold phase_of; fn_cases 0%nat u; by rewrite ?Er.
    + intros t Ht. destruct (Hv t Ht) as (p & Et & Hp'). exists p. fn_simp. split; [done|]. by apply Hv'.
Qed.

(** A thread whose turn comes. *)
Lemma turn_fresh s fin ch marked cur t rest todo own acc :
  check_ok bucket_of cycles s (Busy fin ch marked cur (t :: rest) todo own acc) →
  t ∉ concat fin ∧ t ∉ marked ∧ t ≠ 0%nat.
Proof.
  intros (E & _). destruct (cycle_fresh _ _ _ E) as (Hd & Hf & H0). split; [apply Hf; set_solver|].
  apply NoDup_app in Hd as (_ & Hd & _). split; [intros Hm; apply (Hd t Hm); by left|].
  intros ->. apply H0. set_solver.
Qed.

(** Only the thread whose turn it is notices. *)
Lemma stage_other fin ch marked cur rest todo own acc t :
  (∀ x, cur ≠ Some (t, x)) →
  stage_of (Busy fin ch marked cur rest todo own acc) t =
    if decide (t ∈ concat fin) then Reported else if decide (t ∈ marked) then Woken ch else Untouched.
Proof. intros Hc. cbn. repeat case_decide; naive_solver. Qed.

Lemma turn_victims s s' ρ fin ch marked marked' cur cur' rest rest' todo own own' acc t :
  let k := Busy fin ch marked cur rest todo own acc in
  let k' := Busy fin ch marked' cur' rest' todo own' acc in
  (∀ u x, cur = Some (u, x) ∨ cur' = Some (u, x) → u = t) → (marked' = marked ∨ marked' = marked ++ [t]) →
  (∀ u, u ≠ t → deadlocked s' u = deadlocked s u ∧ backtrace_sender s' u = backtrace_sender s u ∧ parked s' u = parked s u) →
  (∀ p, victim_ok s (stage_of k t) p t → victim_ok s' (stage_of k' t) p t) →
  ∀ u p, u ≠ 0%nat → ρ u = Victim p → victim_ok s (stage_of k u) p u → victim_ok s' (stage_of k' u) p u.
Proof.
  intros k k' Hcur Hm Hs Ht u p _ _ Hu. destruct (decide (u = t)) as [->|Hut]; [by apply Ht|].
  destruct (Hs u Hut) as (E1 & E2 & E3). unfold k, k' in *. rewrite stage_other in Hu |- * by (intros x Ex; apply Hut, (Hcur u x); auto).
  assert (Hmu : u ∈ marked' ↔ u ∈ marked) by (destruct Hm as [->| ->]; set_solver).
  rewrite (decide_ext _ _ _ _ Hmu). unfold victim_ok in *. by rewrite E1, E2, E3.
Qed.

(** Compute the stage of the thread at hand. *)
Ltac stages := cbn; repeat first [rewrite decide_True by done | rewrite decide_False by (done || congruence)]; cbn.

Lemma wp_mark_thread fin ch marked t rest todo (Q : unit → role → Prop) :
  Q tt (Checker (Busy fin ch (marked ++ [t]) None rest todo true [])) →
  dwp 0 (mark_thread bucket_of ch t) (Checker (Busy fin ch marked None (t :: rest) todo true [])) Q.
Proof.
  intros HQ. unfold mark_thread, perform. wp_pure. apply wp_check_step.
  { intros s (_ & _ & Hb & _). left. exists 0. cbn. destruct (Hb (bucket_of t)) as [->|(? & ? & ? & _)]; [by eexists|done]. }
  intros s ρ c s' v Hk Hc Hv Ex. destruct (turn_fresh _ _ _ _ _ _ _ _ _ _ Hk) as (Hf & Hm & H0).
  destruct Hk as (E & Hr & Hb & Ho & _). cbn in Ex.
  destruct (bmutex s (bucket_of t)) eqn:Eb; [done|]. injection Ex as <- _.
  exists (Busy fin ch marked (Some (t, SLocked)) (t :: rest) todo true []). split; [|split; [|split]].
  { split_and!; try done. intros b. cbn. fn_cases (bucket_of t) b; [by eauto|]. destruct (Hb b) as [?|(? & ? & ? & _)]; [by left|done]. }
  { done. }
  { apply (turn_victims s _ ρ fin ch marked marked _ _ _ _ _ true true [] t); [naive_solver|by left|done|].
    intros p. by stages. }
  wp_pure. apply wp_check_step. { intros s1 _. left. exists 0. by eexists. }
  clear -bucket_of Hnodup Hzero HQ Hf Hm H0. intros s ρ c s' v (E & Hr & Hb & Ho & _) Hc Hv Ex. cbn in Ex. injection Ex as <- _.
  exists (Busy fin ch marked (Some (t, SFlagged)) (t :: rest) todo true []). split; [|split; [|split]].
  { split_and!; try done. intros b. destruct (Hb b) as [?|(? & ? & [= <- <-] & ->)]; [by left|by eauto]. }
  { done. }
  { apply (turn_victims s _ ρ fin ch marked marked _ _ _ _ _ true true [] t); [naive_solver|by left|intros; cbn; by fn_simp|].
    intros p. stages. fn_simp. naive_solver. }
  wp_pure. apply wp_check_step. { intros s1 _. left. exists 0. by eexists. }
  clear -bucket_of Hnodup Hzero HQ Hf Hm H0. intros s ρ c s' v (E & Hr & Hb & Ho & _) Hc Hv Ex. cbn in Ex. injection Ex as <- _.
  destruct (Hv t H0) as (p & Et & Hp). revert Hp. stages. intros Hp. destruct Hp as (-> & Hd & Hs & Hpk). rewrite Hs. cbn [drop_old].
  exists (Busy fin ch (marked ++ [t]) (Some (t, SSendered)) rest todo true []). split; [|split; [|split]].
  { split_and!; try done; [by rewrite <-app_assoc| |set_solver].
    intros b. destruct (Hb b) as [?|(? & ? & [= <- <-] & ->)]; [by left|by eauto]. }
  { destruct Hc as (Hc1 & Hc2 & Hc3). cbn. fn_simp. cbn. split; [done|].
    assert (Ept : phase_of ρ t = Asleep) by (unfold phase_of; by rewrite Et).
    rewrite !filter_app, !filter_cons, Ept, !filter_nil, decide_True, decide_False by done.
    rewrite app_nil_r, length_app. cbn [length]. split; [lia|done]. }
  { apply (turn_victims s _ ρ fin ch marked _ _ _ (t :: rest) rest todo true true [] t); [naive_solver|by right|intros; cbn; by fn_simp|].
    assert (t ∈ marked ++ [t]) by set_solver. intros p. stages. fn_simp. naive_solver. }
  wp_pure. apply wp_check_step. { intros s1 _. left. exists 0. by eexists. }
  assert (Hm' : t ∈ marked ++ [t]) by set_solver.
  clear -bucket_of Hnodup Hzero HQ Hf Hm' H0. intros s ρ c s' v (E & Hr & Hb & Ho & _) Hc Hv Ex. cbn in Ex. injection Ex as <- _.
  exists (Busy fin ch (marked ++ [t]) (Some (t, SWoken)) rest todo true []). split; [|split; [|split]].
  { split_and!; try done. intros b. destruct (Hb b) as [?|(? & ? & [= <- <-] & ->)]; [by left|by eauto]. }
  { done. }
  { apply (turn_victims s _ ρ fin ch _ _ _ _ _ _ _ true true [] t); [naive_solver|by left|intros; cbn; by fn_simp|].
    intros p. stages. fn_simp. naive_solver. }
  wp_pure. apply wp_check_step. { intros s1 _. left. exists 0. by eexists. }
  clear -bucket_of Hnodup Hzero HQ Hf Hm' H0. intros s ρ c s' v (E & Hr & Hb & Ho & _) Hc Hv Ex. cbn in Ex. injection Ex as <- _.
  exists (Busy fin ch (marked ++ [t]) None rest todo true []). split; [|split; [|split]].
  { split_and!; try done. intros b. cbn. fn_cases (bucket_of t) b; [by left|]. destruct (Hb b) as [?|(? & ? & [= <- <-] & ->)]; [by left|done]. }
  { done. }
  { apply (turn_victims s _ ρ fin ch _ _ _ _ _ _ _ true true [] t); [naive_solver|by left|done|].
    intros p. by stages. }
  wp_pure. apply wp_check_step. { intros s1 _. left. exists 0. by eexists. }
  clear -bucket_of HQ. intros s ρ c s' v Hk Hc Hv Ex. cbn in Ex. injection Ex as <- _.
  eexists. split; [exact Hk|]. split; [done|]. split; [done|]. destruct v. by wp_pure.
Qed.

Lemma wp_mark_cycle fin ch marked rest todo :
  dwp 0 (mark_cycle bucket_of ch rest) (Checker (Busy fin ch marked None rest todo true []))
    (λ _ r, r = Checker (Busy fin ch (marked ++ rest) None [] todo true [])).
Proof.
  revert marked. induction rest as [|t rest IH]; intros marked; cbn [mark_cycle].
  - wp_pure. by rewrite app_nil_r.
  - wp_pure. apply wp_mark_thread. specialize (IH (marked ++ [t])). by rewrite <-app_assoc in IH.
Qed.

(** When no sender is left, all have reported. *)
Lemma all_reported s ρ fin ch marked todo acc :
  let k := Busy fin ch marked None [] todo false acc in
  check_ok bucket_of cycles s k → channel_ok s ρ k → victims_ok s ρ k →
  messages (channels s ch) = [] → senders (channels s ch) = 0 →
  acc ≡ₚ marked ∧
  ∀ t p, t ≠ 0%nat → ρ t = Victim p → victim_ok s (stage_of k t) p t → victim_ok s (stage_of (Got fin marked acc todo) t) p t.
Proof.
  intros k (E & _) (_ & Hs & Hm) Hv Em Es. rewrite Em, app_nil_r in Hm. rewrite Es in Hs.
  destruct (cycle_fresh _ _ _ E) as (Hd & Hf & H0). rewrite app_nil_r in *.
  assert (Hnil : filter (λ t, holder (phase_of ρ t) = true) marked = []).
  { apply nil_length_inv. lia. }
  assert (Hh : ∀ t p, t ∈ marked → ρ t = Victim p → holder p = false).
  { intros t p Ht Et. destruct (holder p) eqn:Eh; [|done]. destruct (not_elem_of_nil t). rewrite <-Hnil.
    apply list_elem_of_filter. split; [|done]. unfold phase_of. by rewrite Et. }
  split.
  - rewrite Hm. apply reflexive_eq, filter_everything. intros t Ht. destruct (Hv t) as (p & Et & _); [by intros ->|].
    unfold phase_of. rewrite Et. specialize (Hh t p Ht Et). by destruct p.
  - intros t p _ Et. cbn. destruct (decide (t ∈ concat fin)) as [?|?]; [done|]. destruct (decide (t ∈ marked)) as [Ht|Ht].
    + rewrite decide_False by done. specialize (Hh t p Ht Et). cbn. destruct p; try done; naive_solver.
    + by rewrite decide_False.
Qed.

Lemma wp_collect fin ch c todo :
  dwp 0 (collect ch) (Checker (Busy fin ch c None [] todo false []))
    (λ l r, r = Checker (Got fin c l todo)).
Proof.
  unfold collect. apply (wp_iter _ _ _ _ _ (λ acc r, r = Checker (Busy fin ch c None [] todo false acc))); [done|].
  intros acc r ->. unfold collect_turn, perform. wp_pure. apply wp_check_step.
  { intros s _. cbn. destruct (messages (channels s ch)) as [|m l]; [|left; exists 0; by eexists].
    destruct (senders (channels s ch) =? 0) eqn:E; [left; exists 0; by eexists|right]. split; [done|lia]. }
  intros s ρ w s' v Hk Hc Hv Ex. cbn in Ex. destruct (messages (channels s ch)) as [|m l] eqn:Em.
  - destruct (senders (channels s ch) =? 0) eqn:Es; [|done]. injection Ex as <- <-.
    destruct (all_reported s ρ fin ch c todo acc Hk Hc Hv Em) as [Hp Hv']; [lia|].
    exists (Got fin c acc todo). split.
    { destruct Hk as (E & Hr & Hb & _). rewrite app_nil_r in E. split_and!; try done.
      intros b. destruct (Hb b) as [?|(? & ? & ? & _)]; done. }
    split; [done|]. split; [exact Hv'|]. by wp_pure.
  - injection Ex as <- <-. exists (Busy fin ch c None [] todo false (acc ++ [m])). split; [exact Hk|]. split.
    { destruct Hc as (H1 & H2 & H3). cbn. fn_simp. rewrite Em in H3. cbn. split; [done|]. split; [done|].
      by rewrite <-app_assoc. }
    split; [done|]. by wp_pure.
Qed.

Lemma wp_report_cycles fin todo :
  cycles = fin ++ todo →
  dwp 0 (report_cycles bucket_of todo) (Checker (Idle fin todo)) (λ _ r, r = Checker (Idle cycles [])).
Proof.
  revert fin. induction todo as [|c todo IH]; intros fin E; cbn [report_cycles].
  { wp_pure. by rewrite E, app_nil_r. }
  unfold perform. wp_pure. apply wp_check_step.
  { intros s _. left. exists 0. by eexists. }
  intros s ρ w s' v (_ & Hr & Hb) _ Hv Ex. cbn in Ex. injection Ex as <- <-.
  exists (Busy fin (nchannels s) [] None c todo true []). split; [|split; [|split]].
  { split_and!; try done. intros b. left. apply Hb. }
  { cbn. fn_simp. cbn. split; [done|]. by split. }
  { intros t p _ _. cbn. case_decide; [done|]. rewrite (decide_False (P := t ∈ [])) by apply not_elem_of_nil. by rewrite decide_False. }
  wp_pure. eapply wp_mono; [|apply wp_mark_cycle]. intros [] r ->. cbn [app].
  wp_pure. apply wp_check_step.
  { intros s1 _. left. exists 0. by eexists. }
  clear -bucket_of Hnodup Hzero IH E. intros s1 ρ w s' v Hk Hc Hv Ex. cbn in Ex. injection Ex as <- _.
  exists (Busy fin (nchannels s) c None [] todo false []). split; [|split; [|split]].
  { destruct Hk as (? & ? & ? & _). by split_and!. }
  { destruct Hc as (H1 & H2 & H3). cbn. fn_simp. cbn. split; [done|]. split; [lia|done]. }
  { done. }
  wp_pure. eapply wp_mono; [|apply wp_collect]. intros l r ->.
  wp_pure. apply wp_check_step.
  { intros s2 _. left. exists 0. by eexists. }
  clear -bucket_of Hnodup Hzero IH E. intros s2 ρ w s' v (_ & Hr & Hp & Hb) Hc Hv Ex. cbn in Ex. injection Ex as <- _.
  exists (Idle (fin ++ [c]) todo). split; [|split; [|split]].
  { split; [by rewrite <-app_assoc|]. split; [|done]. cbn. apply Forall2_app; [done|]. by repeat constructor. }
  { done. }
  { intros t p _ _. cbn. rewrite concat_app. cbn. rewrite app_nil_r. repeat case_decide; try done; set_solver. }
  wp_pure. apply IH. by rewrite <-app_assoc.
Qed.
End proof.

(** C38: When no thread is in two cycles, every thread of a cycle reports, and
    once: no [unwrap] fails and no thread that has reported is woken again; when
    no thread can go on, the check has returned, with the threads of each cycle
    in some order, and all of them sleep. *)
Theorem deadlock_reports bucket_of cycles s ps :
  NoDup (concat cycles) → 0%nat ∉ concat cycles →
  reachable exec start_state (start_pool bucket_of cycles) s ps →
  (∀ t m, ps t ≠ Panic m) ∧
  ((∀ t c, step1 exec t c (ps t) s = None) →
   ps 0%nat = Ret tt ∧ Forall2 (≡ₚ) (results s) cycles ∧ ∀ t, t ≠ 0%nat → parked s t = true).
Proof.
  intros Hd H0 Hr.
  assert (Hv : verified exec (CInv bucket_of cycles) (λ (_ : string) (_ : role), False) blocked
                 (λ r, r = Checker (Idle cycles [])) (s, ps)).
  { eapply adequacy; [|exact Hr]. exists tt, (λ t, match t with O => Checker (Idle [] cycles) | S _ => Victim Asleep end).
    split.
    - exists (Idle [] cycles). split; [done|]. split; [by split|]. split; [done|]. intros [|t] Ht; [done|]. by exists Asleep.
    - intros [|t]; [by apply wp_report_cycles|]. eapply wp_mono; [|by apply wp_parked_thread]. by intros []. }
  destruct Hv as (g & ρ & HI & Hwp). cbn in HI, Hwp. split.
  { intros t m E. specialize (Hwp t). rewrite E in Hwp. by apply wp_no_panic in Hwp. }
  intros Hst. destruct HI as (k & Ek & Hk & Hc & Hvs).
  assert (HI : CInv bucket_of cycles s g ρ) by (by exists k).
  assert (Hb : ∀ t, (ps t = Ret tt ∧ ρ t = Checker (Idle cycles [])) ∨ blocked t (ρ t) s).
  { intros t. destruct (wp_progress _ _ _ _ _ _ s g ρ _ (Hwp t) HI)
      as [([] & E & Hr')|[(m & _ & [])|[[c [? E]]|?]]]; [by left|by rewrite Hst in E|by right]. }
  assert (Hp : ∀ t, t ≠ 0%nat → ∃ p, ρ t = Victim p ∧ victim_ok s (stage_of k t) p t ∧ (p = Asleep ∨ p = Prepared) ∧ parked s t = true).
  { intros t Ht. destruct (Hvs t Ht) as (p & Et & Hp). exists p. split; [done|]. split; [done|].
    destruct (Hb t) as [[_ E]|Hbt]; rewrite Et in *; done. }
  destruct (Hb 0%nat) as [[E0 Er]|Hb0].
  - split; [done|]. assert (k = Idle cycles []) as -> by congruence. destruct Hk as (_ & Hk & _). split; [done|].
    intros t Ht. by destruct (Hp t Ht) as (p & _ & _ & _ & ?).
  - exfalso. rewrite Ek in Hb0. destruct k as [| fin ch marked cur rest todo [] acc|]; try done. destruct Hb0 as [_ Hs].
    destruct Hk as (E & _ & _ & Ho & _). destruct (Ho eq_refl) as [-> ->]. destruct Hc as (_ & Hs' & _). apply Hs. rewrite Hs'.
    destruct (cycle_fresh bucket_of cycles Hd H0 _ _ _ E) as (_ & Hf & Hz). rewrite app_nil_r in *.
    destruct (filter _ marked) as [|t l] eqn:Ef; [done|].
    assert (Ht : t ∈ t :: l) by (by left). rewrite <-Ef in Ht. apply list_elem_of_filter in Ht as [Hh Ht].
    destruct (Hp t) as (p & Et & Hv & Hpp & Hpk); [by intros ->|]. unfold phase_of in Hh. rewrite Et in Hh.
    cbn in Hv. rewrite decide_False, decide_True, decide_False in Hv by (done || by apply Hf).
    destruct Hpp as [-> | ->]; [|done]. destruct Hv as (_ & Hv & _). congruence.
Qed.

(** Two threads in a cycle, of which one has reported. *)
Lemma deadlock_reports_witness :
  ∃ s ps, reachable exec start_state (start_pool id [[1; 2]]%nat) s ps ∧ (∀ t m, ps t ≠ Panic m) ∧
          messages (channels s 0%nat) = [1%nat].
Proof.
  set (runs := (λ t, (t, 0)) <$> (replicate 9 0 ++ replicate 12 1)%nat).
  destruct (run exec runs start_state (start_pool id [[1; 2]]%nat)) as [[s ps]|] eqn:E; [|by vm_compute in E].
  assert (Hr : reachable exec start_state (start_pool id [[1; 2]]%nat) s ps) by (by eapply run_reachable).
  exists s, ps. split; [done|]. split.
  - refine (proj1 (deadlock_reports id [[1; 2]]%nat s ps _ _ Hr)).
    + by apply (bool_decide_unpack _); vm_compute.
    + by apply (bool_decide_unpack _); vm_compute.
  - assert (Em : (λ r, messages (channels r.1 0%nat)) <$> run exec runs start_state (start_pool id [[1; 2]]%nat) = Some [1%nat])
      by (by vm_compute).
    rewrite E in Em. by injection Em.
Defined.
