(* ===== verification/DeadlockTwice.v ===== *)
(** * A thread in two cycles panics

    The thread that checks makes the threads of one cycle after the other
    report.  A thread that has reported sleeps until the end of time; if it is in
    a later cycle too, it is woken again.  The runs that lead there are put
    together cycle by cycle: the checking thread marks the cycle, its threads
    report one after the other, the checking thread collects what they sent. *)

From stdpp Require Import gmap.
From S2P Require Import Prelude Conc Deadlock DeadlockProof DeadlockReport.
Import DeadlockReport.
Local Open Scope Z_scope.
Local Open Scope prog_scope.

Implicit Types (s : state) (t u : tid) (c R : list tid) (ch : nat).

Abbreviation panic_msg := "unparked deadlocked thread!".

(** A thread that has reported. *)
Definition reported_thread : dprog unit := perform APark;; Panic panic_msg.

Lemma if_in_cons {A} t u c (x y : A) :
  (if decide (u ∈ c) then x else if decide (u ∈ [t]) then x else y) = if decide (u ∈ t :: c) then x else y.
Proof.
  destruct (decide (u ∈ c)) as [Hc|Hc]; [by rewrite decide_True by (by right)|].
  apply decide_ext. split; [by intros ->%list_elem_of_singleton; left|]. by intros [->|?]%elem_of_cons; [left|].
Qed.

(** ** Runs of one thread, in the pool *)

Section pool.
Implicit Types ps : tid → dprog unit.

(** One thread runs. *)
Lemma solo_pool t (p p' : dprog unit) s s' ps :
  solo exec t 0 (p, s) (p', s') → ps t = p →
  ∃ ps', rtc (cstep exec) (s, ps) (s', ps') ∧ ps' t = p' ∧ ∀ u, u ≠ t → ps' u = ps u.
Proof.
  intros H. remember (p, s) as x. remember (p', s') as y. revert p s ps Heqx.
  induction H as [|x [p1 s1] z Hst _ IH]; intros p s ps -> Hp; simplify_eq; [by exists ps|]. cbn in Hst.
  destruct (IH eq_refl p1 s1 (<[t := p1]> ps) eq_refl) as (ps' & Hr & Hp' & Ho); [by rewrite fn_insert_eq|].
  exists ps'. split; [|split; [done|]].
  - eapply rtc_l; [|exact Hr]. apply (cstep_thread _ t 0). exact Hst.
  - intros u Hu. rewrite Ho by done. by apply fn_insert_ne.
Qed.

(** After the part that returns, the thread runs on. *)
Lemma solo_bind {A X} t (p : dprog X) (k : X → dprog A) s s1 x q s2 :
  returns exec t 0 p s s1 x → solo exec t 0 (k x, s1) (q, s2) → solo exec t 0 (Bind p k, s) (q, s2).
Proof.
  intros Hp Hk. unfold solo in *. etrans; [by apply solo_bind_inner|]. by eapply rtc_l; [|exact Hk].
Qed.
Lemma solo_inner {A X} t (p p' : dprog X) (k : X → dprog A) s s' :
  solo exec t 0 (p, s) (p', s') → solo exec t 0 (Bind p k, s) (Bind p' k, s').
Proof. apply solo_bind_inner. Qed.
End pool.

Section runs.
Context (bucket_of : tid → nat).

(** ** Marking *)

Definition unlocked s : Prop := ∀ b, bmutex s b = None.

(** The threads [c] have been marked, since [s]. *)
Record marks ch c s s' : Prop := {
  mk_dead u : deadlocked s' u = if decide (u ∈ c) then true else deadlocked s u;
  mk_sender u : backtrace_sender s' u = if decide (u ∈ c) then Some ch else backtrace_sender s u;
  mk_parked u : parked s' u = if decide (u ∈ c) then false else parked s u;
  mk_chan : channels s' ch =
    MkChannel (messages (channels s ch)) (senders (channels s ch) + Z.of_nat (length c)) (receiver (channels s ch));
  mk_unlocked : unlocked s';
}.

(** What [mark_thread] does. *)
Definition after_mark ch t s : state :=
  let s1 := set_deadlocked (<[t := true]> (deadlocked s)) (set_bmutex (bucket_of t) (Some 0%nat) s) in
  let s2 := drop_old (backtrace_sender s t)
              (set_sender (<[t := Some ch]> (backtrace_sender s)) (add_senders ch 1 s1)) in
  set_bmutex (bucket_of t) None (set_parked (<[t := false]> (parked s2)) s2).

Lemma mark_thread_returns ch t s :
  unlocked s → returns exec 0 0 (mark_thread bucket_of ch t) s (after_mark ch t s) tt.
Proof.
  intros Hu. unfold mark_thread, perform. eapply returns_bind.
  { eapply returns_act; [|apply returns_ret]. cbn. by rewrite Hu. }
  solo.
Qed.

Lemma drop_old_parked o s : parked (drop_old o s) = parked s.
Proof. by destruct o. Qed.

Lemma after_mark_parked ch t s : parked (after_mark ch t s) t = false.
Proof. unfold after_mark. cbn. by rewrite fn_insert_eq. Qed.

Lemma after_mark_marks ch t s :
  unlocked s → backtrace_sender s t = None → marks ch [t] s (after_mark ch t s).
Proof.
  intros Hu Hs. unfold after_mark. rewrite Hs. cbn.
  assert (Hin : ∀ u, u ∈ [t] ↔ t = u) by (intros u; rewrite list_elem_of_singleton; done).
  split; cbn.
  - intros u. fn_cases t u; [by rewrite decide_True by (by apply Hin)|by rewrite decide_False by (by rewrite Hin)].
  - intros u. fn_cases t u; [by rewrite decide_True by (by apply Hin)|by rewrite decide_False by (by rewrite Hin)].
  - intros u. fn_cases t u; [by rewrite decide_True by (by apply Hin)|by rewrite decide_False by (by rewrite Hin)].
  - by rewrite fn_insert_eq.
  - intros b. cbn. fn_cases (bucket_of t) b; [done|apply Hu].
Qed.

Lemma marks_nil ch s : unlocked s → marks ch [] s s.
Proof.
  intros Hu. split; try done; try (intros u; by rewrite decide_False by apply not_elem_of_nil).
  cbn. rewrite Z.add_0_r. by destruct (channels s ch).
Qed.

Lemma marks_cons ch t c s s1 s2 : marks ch [t] s s1 → marks ch c s1 s2 → marks ch (t :: c) s s2.
Proof.
  intros [D1 S1 P1 C1 _] [D2 S2 P2 C2 U2].
  split; [intros u; rewrite D2, D1|intros u; rewrite S2, S1|intros u; rewrite P2, P1| |done].
  - apply if_in_cons.
  - apply if_in_cons.
  - apply if_in_cons.
  - rewrite C2, C1. cbn [messages senders receiver length]. f_equal. lia.
Qed.

Lemma mark_cycle_returns ch c s :
  unlocked s → NoDup c → (∀ u, u ∈ c → backtrace_sender s u = None) →
  ∃ s', returns exec 0 0 (mark_cycle bucket_of ch c) s s' tt ∧ marks ch c s s'.
Proof.
  revert s. induction c as [|t c IH]; intros s Hu Hd Hs; cbn [mark_cycle].
  { exists s. split; [apply returns_ret|by apply marks_nil]. }
  apply NoDup_cons in Hd as [Ht Hd]. pose proof (after_mark_marks ch t s Hu (Hs t ltac:(by left))) as Hm.
  destruct (IH (after_mark ch t s)) as (s' & Hr & Hm'); [apply Hm|done| |].
  { intros u Hin. rewrite (mk_sender _ _ _ _ Hm), decide_False; [apply Hs; by right|].
    intros ->%list_elem_of_singleton. done. }
  exists s'. split; [|by eapply marks_cons]. eapply returns_bind; [by apply mark_thread_returns|exact Hr].
Qed.

(** Up to a thread, whether it has been marked before or not. *)
Lemma mark_cycle_until ch c t c' s :
  unlocked s → NoDup c → (∀ u, u ∈ c → backtrace_sender s u = None) →
  ∃ s', solo exec 0 0 (mark_cycle bucket_of ch (c ++ t :: c'), s) (mark_cycle bucket_of ch c', s') ∧
        parked s' t = false.
Proof.
  revert s. induction c as [|u c IH]; intros s Hu Hd Hs; cbn [app mark_cycle].
  { exists (after_mark ch t s). split; [|apply after_mark_parked].
    eapply solo_bind; [by apply mark_thread_returns|apply rtc_refl]. }
  apply NoDup_cons in Hd as [Hn Hd]. pose proof (after_mark_marks ch u s Hu (Hs u ltac:(by left))) as Hm.
  destruct (IH (after_mark ch u s)) as (s' & Hr & Hp); [apply Hm|done| |].
  { intros v Hin. rewrite (mk_sender _ _ _ _ Hm), decide_False; [apply Hs; by right|].
    intros ->%list_elem_of_singleton. done. }
  exists s'. split; [|done]. eapply solo_bind; [by apply mark_thread_returns|exact Hr].
Qed.

(** ** Reporting *)

(** [s'] is [s] but for the channel [ch] and, of the threads [c], what they
    change themselves. *)
Record reports ch c s s' : Prop := {
  rp_dead u : deadlocked s' u = deadlocked s u;
  rp_sender u : backtrace_sender s' u = if decide (u ∈ c) then None else backtrace_sender s u;
  rp_parked u : parked s' u = if decide (u ∈ c) then true else parked s u;
  rp_chan : channels s' ch =
    MkChannel (messages (channels s ch) ++ c) (senders (channels s ch) - Z.of_nat (length c)) (receiver (channels s ch));
  rp_unlocked : unlocked s → unlocked s';
}.

Lemma report_solo ch t s :
  deadlocked s t = true → backtrace_sender s t = Some ch → parked s t = false → receiver (channels s ch) = true →
  ∃ s', solo exec t 0 (parked_thread, s) (reported_thread, s') ∧ reports ch [t] s s'.
Proof.
  intros Hd Hs Hp Hr. eexists. split.
  { unfold parked_thread. eapply solo_bind.
    { eapply returns_act; [|apply returns_ret]. cbn. by rewrite Hp. }
    unfold on_unpark. eapply solo_bind.
    { eapply returns_act; [|apply returns_ret]. reflexivity. }
    rewrite Hd. eapply solo_bind.
    { eapply returns_act; [|apply returns_ret]. reflexivity. }
    rewrite Hs. eapply solo_bind.
    { eapply returns_act; [|apply returns_ret]. cbn. rewrite Hr. reflexivity. }
    cbn iota. eapply solo_bind.
    { eapply returns_act; [|apply returns_ret]. reflexivity. }
    eapply solo_bind; [|apply rtc_refl].
    eapply returns_act; [|apply returns_ret]. reflexivity. }
  assert (Hin : ∀ u, u ∈ [t] ↔ t = u) by (intros u; rewrite list_elem_of_singleton; done).
  split; cbn.
  - done.
  - intros u. fn_cases t u; [by rewrite decide_True by (by apply Hin)|by rewrite decide_False by (by rewrite Hin)].
  - intros u. fn_cases t u; [by rewrite decide_True by (by apply Hin)|by rewrite decide_False by (by rewrite Hin)].
  - fn_simp. cbn. by rewrite Hr.
  - done.
Qed.

(** The threads of a cycle report, one after the other. *)
Lemma reports_run ch c s (ps : tid → dprog unit) :
  NoDup c → receiver (channels s ch) = true →
  (∀ u, u ∈ c → deadlocked s u = true ∧ backtrace_sender s u = Some ch ∧ parked s u = false ∧ ps u = parked_thread) →
  ∃ s' ps', rtc (cstep exec) (s, ps) (s', ps') ∧ reports ch c s s' ∧
    ∀ u, ps' u = if decide (u ∈ c) then reported_thread else ps u.
Proof.
  revert s ps. induction c as [|t c IH]; intros s ps Hd Hr Hc.
  { exists s, ps. split; [apply rtc_refl|]. split.
    - split; try done; try (intros u; by rewrite decide_False by apply not_elem_of_nil).
      cbn. rewrite app_nil_r, Z.sub_0_r. by destruct (channels s ch).
    - intros u. by rewrite decide_False by apply not_elem_of_nil. }
  apply NoDup_cons in Hd as [Hn Hd]. destruct (Hc t ltac:(by left)) as (H1 & H2 & H3 & H4).
  destruct (report_solo ch t s H1 H2 H3 Hr) as (s1 & Hsolo & [D1 S1 P1 C1 U1]).
  destruct (solo_pool t _ _ _ _ ps Hsolo H4) as (ps1 & Hrun & Ht & Ho).
  assert (Hne : ∀ u, u ∈ c → u ≠ t) by (by intros u Hu ->).
  assert (Hnot : ∀ u, u ∈ c → u ∉ [t]) by (intros u Hu ->%list_elem_of_singleton; done).
  destruct (IH s1 ps1 Hd) as (s2 & ps2 & Hrun2 & [D2 S2 P2 C2 U2] & Hps).
  { by rewrite C1. }
  { intros u Hu. destruct (Hc u ltac:(by right)) as (? & ? & ? & ?).
    rewrite D1, S1, P1, !decide_False, (Ho u) by auto. done. }
  exists s2, ps2. split; [by etrans|]. split.
  - split; [intros u; by rewrite D2, D1|intros u; rewrite S2, S1|intros u; rewrite P2, P1| |by auto].
    + apply if_in_cons.
    + apply if_in_cons.
    + rewrite C2, C1. cbn [messages senders receiver length]. rewrite <- app_assoc. f_equal. lia.
  - intros u. rewrite Hps. destruct (decide (u = t)) as [->|Hu].
    + rewrite (decide_True (P := t ∈ t :: c)) by (by left). by case_decide.
    + rewrite (Ho u Hu). rewrite (decide_ext (u ∈ t :: c) (u ∈ c)); [done|]. set_solver.
Qed.

(** ** Collecting *)

Lemma collect_returns ch l s acc :
  messages (channels s ch) = l → senders (channels s ch) = 0 →
  ∃ s', returns exec 0 0 (Iter (collect_turn ch) acc) s s' (acc ++ l) ∧
    deadlocked s' = deadlocked s ∧ backtrace_sender s' = backtrace_sender s ∧ parked s' = parked s ∧
    bmutex s' = bmutex s.
Proof.
  revert s acc. induction l as [|m l IH]; intros s acc Hm Hs.
  - rewrite app_nil_r. eexists. split.
    { eapply returns_iter.
      { unfold collect_turn, perform. eapply returns_bind.
        { eapply returns_act; [|apply returns_ret]. cbn. rewrite Hm, Hs. reflexivity. }
        apply returns_ret. }
      apply returns_ret. }
    done.
  - destruct (IH (set_channel ch (MkChannel l (senders (channels s ch)) (receiver (channels s ch))) s) (acc ++ [m]))
      as (s' & Hr & ? & ? & ? & ?); [cbn; by rewrite fn_insert_eq..|].
    exists s'. split; [|done]. rewrite <- app_assoc in Hr.
    eapply (returns_iter _ _ _ _ _ _ _ (inl (acc ++ [m]))); [|exact Hr].
    unfold collect_turn, perform. eapply returns_bind.
    { eapply returns_act; [|apply returns_ret]. cbn. rewrite Hm. reflexivity. }
    apply returns_ret.
Qed.

(** ** Cycle by cycle *)

(** The threads [R] have reported, the others have not been touched; the
    checking thread has [p] left to run. *)
Record between R (p : dprog unit) s (ps : tid → dprog unit) : Prop := {
  bw_check : ps 0%nat = p;
  bw_unlocked : unlocked s;
  bw_reported t : t ∈ R → t ≠ 0%nat ∧ ps t = reported_thread;
  bw_asleep t : t ≠ 0%nat → t ∉ R →
    ps t = parked_thread ∧ deadlocked s t = false ∧ backtrace_sender s t = None ∧ parked s t = true;
  bw_parked t : t ≠ 0%nat → parked s t = true;
}.

(** The channel that is made for a cycle. *)
Definition with_channel s : state :=
  MkState (deadlocked s) (backtrace_sender s) (parked s) (<[nchannels s := MkChannel [] 1 true]> (channels s))
    (S (nchannels s)) (bmutex s) (results s).

(** A cycle none of whose threads has reported is dealt with. *)
Lemma cycle_run R c todo s ps :
  between R (report_cycles bucket_of (c :: todo)) s ps → NoDup c → 0%nat ∉ c → (∀ t, t ∈ c → t ∉ R) →
  ∃ s' ps', rtc (cstep exec) (s, ps) (s', ps') ∧ between (c ++ R) (report_cycles bucket_of todo) s' ps'.
Proof.
  intros [Hp Hu HR Ha Hk] Hd H0 Hc. set (ch := nchannels s).
  assert (Hz : ∀ t, t ∈ c → t ≠ 0%nat) by (by intros t Ht ->).
  (* the cycle is marked, and the sender dropped *)
  destruct (mark_cycle_returns ch c (with_channel s)) as (s1 & Hm & M); [done|done| |].
  { intros u Hin. by destruct (Ha u) as (_ & _ & ? & _); auto. }
  set (s2 := add_senders ch (-1) s1). set (q := l <- collect ch;; perform (AResult l);; report_cycles bucket_of todo).
  assert (Hcheck : solo exec 0 0 (report_cycles bucket_of (c :: todo), s) (q, s2)).
  { cbn [report_cycles]. eapply solo_bind; [eapply returns_act; [reflexivity|apply returns_ret]|].
    eapply solo_bind; [exact Hm|]. eapply solo_bind; [|apply rtc_refl].
    eapply returns_act; [reflexivity|apply returns_ret]. }
  destruct (solo_pool 0 _ _ _ _ ps Hcheck Hp) as (ps1 & Hrun1 & Hp1 & Ho1).
  assert (Hch : channels s2 ch = MkChannel [] (Z.of_nat (length c)) true).
  { unfold s2, add_senders. cbn. rewrite fn_insert_eq, (mk_chan _ _ _ _ M). cbn. rewrite fn_insert_eq. cbn. f_equal. lia. }
  (* its threads report *)
  destruct (reports_run ch c s2 ps1 Hd) as (s3 & ps2 & Hrun2 & [D S P C U] & Hps); [by rewrite Hch| |].
  { intros u Hin. destruct (Ha u) as (Hpu & _); [auto..|]. cbn.
    rewrite (mk_dead _ _ _ _ M), (mk_sender _ _ _ _ M), (mk_parked _ _ _ _ M), !decide_True, Ho1 by auto. done. }
  (* what they sent is collected *)
  rewrite Hch in C. cbn in C.
  destruct (collect_returns ch c s3 []) as (s4 & Hcol & E1 & E2 & E3 & E4); [by rewrite C|by rewrite C; cbn; lia|].
  assert (Hq : ∃ s5, solo exec 0 0 (q, s3) (report_cycles bucket_of todo, s5) ∧ deadlocked s5 = deadlocked s4 ∧
    backtrace_sender s5 = backtrace_sender s4 ∧ parked s5 = parked s4 ∧ bmutex s5 = bmutex s4).
  { eexists. split.
    { eapply solo_bind; [exact Hcol|]. eapply solo_bind; [|apply rtc_refl].
      eapply returns_act; [reflexivity|apply returns_ret]. }
    done. }
  destruct Hq as (s5 & Hq & F1 & F2 & F3 & F4).
  destruct (solo_pool 0 _ _ _ _ ps2 Hq) as (ps3 & Hrun3 & Hp3 & Ho3); [by rewrite Hps, decide_False|].
  exists s5, ps3. split; [by etrans; [exact Hrun1|etrans]|].
  assert (Hpark : ∀ t, t ≠ 0%nat → parked s5 t = true).
  { intros t Ht. rewrite F3, E3, P. case_decide as Hin; [done|]. cbn. rewrite (mk_parked _ _ _ _ M), decide_False by done.
    by apply Hk. }
  split; [done| | | |done].
  - intros b. rewrite F4, E4. apply U. intros b'. apply (mk_unlocked _ _ _ _ M).
  - intros t Ht. assert (Ht0 : t ≠ 0%nat) by (apply elem_of_app in Ht as [?|?%HR]; [by apply Hz|tauto]).
    split; [done|]. rewrite (Ho3 t Ht0), Hps. case_decide as Hin; [done|]. rewrite (Ho1 t Ht0).
    apply elem_of_app in Ht as [?|?%HR]; tauto.
  - intros t Ht [Hin Hin']%not_elem_of_app. destruct (Ha t Ht Hin') as (A1 & A2 & A3 & A4).
    split; [by rewrite (Ho3 t Ht), Hps, decide_False, (Ho1 t Ht)|].
    rewrite F1, E1, D, F2, E2, S, decide_False by done. cbn.
    rewrite (mk_dead _ _ _ _ M), (mk_sender _ _ _ _ M), !decide_False by done. auto.
Qed.

(** A cycle with a thread that has reported makes that thread panic. *)
Lemma cycle_panics R c t c' todo s ps :
  between R (report_cycles bucket_of ((c ++ t :: c') :: todo)) s ps → NoDup (c ++ t :: c') → 0%nat ∉ c ++ t :: c' →
  (∀ u, u ∈ c → u ∉ R) → t ∈ R →
  ∃ s' ps', rtc (cstep exec) (s, ps) (s', ps') ∧ ps' t = Panic panic_msg.
Proof.
  intros [Hp Hu HR Ha _] Hd H0 Hc Ht. set (ch := nchannels s). destruct (HR t Ht) as [Ht0 Hpt].
  destruct (mark_cycle_until ch c t c' (with_channel s)) as (s1 & Hm & Hpk); [done|by apply NoDup_app in Hd as [? _]| |].
  { intros u Hin. destruct (Ha u) as (_ & _ & ? & _); [|by apply Hc|done]. intros ->. apply H0, elem_of_app. by left. }
  assert (Hcheck : ∃ q, solo exec 0 0 (report_cycles bucket_of ((c ++ t :: c') :: todo), s) (q, s1)).
  { eexists. cbn [report_cycles]. eapply solo_bind; [eapply returns_act; [reflexivity|apply returns_ret]|].
    apply solo_inner. exact Hm. }
  destruct Hcheck as [q Hcheck]. destruct (solo_pool 0 _ _ _ _ ps Hcheck Hp) as (ps1 & Hrun & _ & Ho).
  destruct (solo_pool t reported_thread (Panic panic_msg) s1 s1 ps1) as (ps2 & Hrun2 & Hpan & _).
  { eapply solo_bind; [|apply rtc_refl]. eapply returns_act; [|apply returns_ret]. cbn. by rewrite Hpk. }
  { by rewrite (Ho t Ht0). }
  exists s1, ps2. split; [by etrans|done].
Qed.

(** The first thread of [c] that is in [R]. *)
Lemma first_in R c : (∃ t, t ∈ c ∧ t ∈ R) → ∃ c1 t c2, c = c1 ++ t :: c2 ∧ t ∈ R ∧ ∀ u, u ∈ c1 → u ∉ R.
Proof.
  intros (t & Hc & Ht). induction c as [|u c IH]; [by apply not_elem_of_nil in Hc|].
  destruct (decide (u ∈ R)) as [Hu|Hu].
  - exists [], u, c. split; [done|]. split; [done|]. by intros ? ?%not_elem_of_nil.
  - apply elem_of_cons in Hc as [->|Hc]; [done|]. destruct (IH Hc) as (c1 & v & c2 & -> & Hv & Hno).
    exists (u :: c1), v, c2. split; [done|]. split; [done|]. by intros w [->|?]%elem_of_cons; auto.
Qed.

Lemma cycles_panic R cs s ps :
  between R (report_cycles bucket_of cs) s ps → (∀ c, c ∈ cs → NoDup c ∧ 0%nat ∉ c) →
  ¬ (NoDup (concat cs) ∧ ∀ t, t ∈ concat cs → t ∉ R) →
  ∃ t s' ps', rtc (cstep exec) (s, ps) (s', ps') ∧ ps' t = Panic panic_msg.
Proof.
  revert R s ps. induction cs as [|c cs IH]; intros R s ps Hb Hcs Hn.
  { destruct Hn. split; [constructor|]. by intros t ?%not_elem_of_nil. }
  destruct (Hcs c ltac:(by left)) as [Hd H0].
  destruct (decide (Exists (λ t, t ∈ R) c)) as [(t & Ht & HR)%list.Exists_exists|Hno].
  - destruct (first_in R c) as (c1 & u & c2 & -> & Hu & Hc1); [by exists t|].
    exists u. by eapply cycle_panics.
  - assert (Hc : ∀ t, t ∈ c → t ∉ R).
    { intros t Ht HR. apply Hno, list.Exists_exists. by exists t. }
    destruct (cycle_run R c cs s ps Hb Hd H0 Hc) as (s1 & ps1 & Hrun & Hb1).
    destruct (IH (c ++ R) s1 ps1 Hb1) as (t & s2 & ps2 & Hrun2 & Hp).
    { intros c' Hin. apply Hcs. by right. }
    { intros [Hd' Hc']. apply Hn. cbn. split.
      - apply NoDup_app. split; [done|]. split; [|done]. intros t Ht Ht'. apply (Hc' t Ht'), elem_of_app. by left.
      - intros t [Ht|Ht]%elem_of_app; [by apply Hc|]. intros HR. apply (Hc' t Ht), elem_of_app. by right. }
    exists t, s2, ps2. split; [by etrans|done].
Qed.

(** Whenever some thread is twice in the cycles, some run ends in a panic. *)
Lemma twice_panics cs :
  (∀ c, c ∈ cs → NoDup c ∧ 0%nat ∉ c) → ¬ NoDup (concat cs) →
  ∃ t s ps, reachable exec start_state (start_pool bucket_of cs) s ps ∧ ps t = Panic panic_msg.
Proof.
  intros Hcs Hn. apply (cycles_panic [] cs); [|done|by intros [? _]].
  split; try done; [by intros t ?%not_elem_of_nil|]. by intros [|t].
Qed.
End runs.

(** ** The theorem *)

(** C40: A deadlocked thread can panic. Whatever [check_deadlock] finds, with any
    search that behaves as petgraph's documentation says, and in whatever order
    the set of cycles is gone through: if two of the cycles have a thread in
    common, there is a run of the checking thread and the parked ones in which a
    thread that has reported, and sleeps until the end of time, is woken again,
    and panics. *)
Theorem deadlock_twice_panics (P : Petgraph) addr td entries bucket_of found cycles c1 c2 t :
  check_deadlock addr td entries = Some found → cycles ≡ₚ elements found → 0%nat ∉ concat entries →
  c1 ∈ found → c2 ∈ found → c1 ≠ c2 → t ∈ c1 → t ∈ c2 →
  ∃ u s ps, reachable exec start_state (start_pool bucket_of cycles) s ps ∧
            ps u = Panic "unparked deadlocked thread!".
Proof.
  intros Hf Hp H0 H1 H2 Hne Ht1 Ht2. apply twice_panics.
  - intros c Hc. rewrite Hp, elem_of_elements in Hc.
    destruct (check_deadlock_cycles P addr td entries found c Hf Hc) as [Hd Hin]. split; [done|]. by intros ?%Hin.
  - intros Hd. apply elem_of_elements in H1, H2. rewrite <- Hp in H1, H2.
    apply list_elem_of_split in H1 as (l & l' & ->). rewrite concat_app in Hd. cbn in Hd.
    assert (H2' : c2 ∈ l ++ l') by (rewrite elem_of_app; apply elem_of_app in H2 as [?|[?|?]%elem_of_cons]; by auto).
    rewrite (Permutation_app_comm c1), app_assoc in Hd. apply NoDup_app in Hd as (_ & Hd & _).
    apply (Hd t); [|done]. rewrite <- concat_app. apply list_elem_of_In, in_concat.
    setoid_rewrite <- list_elem_of_In. by exists c2.
Qed.

(** Thread 1 waits for a lock that threads 2 and 3 hold, shared, and each of
    them waits for a mutex that thread 1 holds. *)
Section example.
Local Definition twice_data (t : tid) : ThreadData :=
  match t with
  | 1%nat => MkTD 5 false [1; 2] false
  | 2%nat => MkTD 1 false [5] false
  | _ => MkTD 2 false [5] false
  end.
Local Definition twice_table : table := [[1]; [2]; [3]]%nat.
Local Definition twice_found : gset (list tid) :=
  default ∅ (check_deadlock (P := simple_petgraph) address twice_data twice_table).

(** The cycle that is listed last comes first. *)
Lemma deadlock_twice_panics_witness :
  elements twice_found = [[1; 2]; [1; 3]]%nat ∧
  ∃ u s ps, reachable exec start_state (start_pool Nat.div2 [[1; 3]; [1; 2]]%nat) s ps ∧
            ps u = Panic "unparked deadlocked thread!".
Proof.
  assert (E : elements twice_found = [[1; 2]; [1; 3]]%nat) by (vm_compute; reflexivity).
  split; [exact E|].
  apply (deadlock_twice_panics simple_petgraph address twice_data twice_table Nat.div2 twice_found
           [[1; 3]; [1; 2]]%nat [1; 2]%nat [1; 3]%nat 1%nat).
  - vm_compute. reflexivity.
  - rewrite E. apply Permutation_swap.
  - apply (proj1 (bool_decide_eq_true _)). vm_compute. reflexivity.
  - apply elem_of_elements. rewrite E. left.
  - apply elem_of_elements. rewrite E. right. left.
  - discriminate.
  - left.
  - left.
Defined.
End example.
